(* ===== verification/_CoqProject ===== *)
-Q . S2P
Prelude.v
Net.v
RustStr.v
Text.v
ControlPacket.v
RelayBatch.v
LanRoutes.v
Packet.v
Tracking.v
DnsPolicy.v
PolicyEngine.v
FlowTable.v
Paths.v
Peer.v
Delivery.v
TermProtocol.v
Hub.v
HubSafety.v
HubTheorems.v
HubQueues.v
Json.v
Input.v
PrivatePolicy.v
History.v
Pager.v
Http.v
Gate.v
HttpProxy.v
Upstreams.v
WebRoutes.v
Edge.v
Activity.v
Journal.v
JournalFollow.v
JournalRun.v
FileNames.v
Download.v
DownloadRun.v
DownloadEnd.v
DirSync.v
Upload.v
SyncLoop.v
Catalog.v
Store.v
StoreSafety.v
Egress.v
ProxyGrants.v
PeerProxy.v
PeerProxySafety.v
