(* ===== verification/Prelude.v ===== *)
(** * PortHub verification

    PortHub connects machines and services: a gateway publishes web services and relays
    shared terminals, agents build a private network between enrolled machines with
    exits to the internet, and small tools move files.  This library models the parts of
    its Rust code (crates under [src/crates/]) that decide something, and proves that
    they decide it correctly.  Each part is one file; a file requires the parts it calls.

    ** The parts and the code they model

    The packet path of an agent.
    - [Net] (IPv4 ranges, the Internet checksum), [ControlPacket]
      ([porthub-mesh/src/control_packet.rs]), [RelayBatch] ([porthub-mesh/src/batch.rs]):
      the wire formats between peers.
    - [Packet], [Tracking], [PolicyEngine] ([porthub-network/src/policy.rs]): the packet
      parser, the flow tables and the engine that decides every packet under a leased
      policy; [DnsPolicy] ([porthub-mesh/src/dns_policy.rs]) is the domain policy in it.
    - [LanRoutes] ([porthub-mesh/src/exit_policy.rs], [lan_routes.rs],
      [porthub-network/src/exit_plan.rs]), [FlowTable]
      ([porthub-network/src/exit_selection.rs]), [Paths]
      ([porthub-network/src/paths.rs]): which exit and which transport a flow uses.
    - [Peer] ([porthub-mesh/src/protocol.rs]): one encrypted path between two machines.

    Shared terminals.
    - [Delivery] ([porthub-terminal/src/delivery.rs]): the journal that makes a terminal
      stream reliable over changing carriers; [TermProtocol] ([protocol.rs]): messages
      and their validators.
    - [Hub] ([hub.rs], [hub_queue.rs]): sessions, capabilities, hosts and viewers on the
      gateway; [HubSafety], [HubTheorems] and [HubQueues] hold its invariants and the
      theorems on the hub as a transition system.
    - [History] ([history.rs], [history/snapshot.rs], [history/snapshot_cache.rs]) and
      [Pager] ([viewer_history.rs]): scrollback on the host and on a viewer.

    The API.
    - [Json] ([porthub-api/src/input_compat.rs]), [Input] ([input.rs]) and
      [PrivatePolicy] ([domain/private_policy.rs]): request validation, and the rules of
      the private network compiled to the grants [PolicyEngine] receives.

    The web gateway ([porthub-runtime/src/], [porthub-edge/src/lib.rs]).
    - [Http] (messages), [Gate] ([public_access.rs]), [HttpProxy] ([proxy.rs]),
      [Upstreams] ([upstreams.rs]), [WebRoutes] ([web_routes.rs]) and [Edge]
      ([porthub-edge/src/lib.rs]): a request from the listener to a service.
    - [Activity] (the counter of [web_activity.rs]), [Journal] (its
      writer and its reader), [JournalFollow] (a reader that opens and reads the segments
      one by one while the writer appends and rotates) and [JournalRun] (the background task): what the gateway
      records of each request, kept in two rotating files.

    File transfers ([porthub-transfer/src/]).
    - [FileNames] ([download.rs], [upload.rs]): the names a remote side may choose.
    - [Download] ([download.rs]: the probe, the checkpoint, the runs of pieces, one ranged
      request), [DownloadRun] (the workers, the coordinator and the publication, over a
      file that a crash mixes) and [DownloadEnd] (its termination); [DirSync] (a file of a
      folder).
    - [Upload] ([upload.rs]): the receiver of a chunked upload and its client.
    - [SyncLoop] ([sync.rs]): the watcher of a folder and the loop that uploads what
      changed, debounces and retries.

    Optional components ([porthub-components/src/]).
    - [Catalog] ([catalog.rs], [manifest.rs]): the documents that list the tools of a
      release, their validation and the choice of a tool.
    - [Store] ([store.rs], [shared.rs]): the private directory and the shared cache of an
      account, with refresh, ensure, installed, resolve and prefetch; [StoreSafety] holds
      their invariant and the theorems.

    Shared application proxies.
    - [Egress] ([porthub-egress/src/proxy.rs], [destination.rs], [lib.rs]): the proxy on a
      client machine, SOCKS5 and HTTP, and the networks a target may lie in.
    - [ProxyGrants] ([porthub-api/src/application_proxy.rs], with [active] of
      [routes/private_sync.rs]): who may use a grant, the connection and the capacity.
    - [PeerProxy] ([porthub-api/src/peer_proxy.rs]): the streams of a gateway, of itself and
      through other machines, as a transition system; [PeerProxySafety] holds its invariant
      and the theorems.

    [Prelude] (this file) holds the outcome type, the list, option and sorting lemmas, the
    binary search of the standard library and the tactics shared by all parts; [RustStr]
    the [str] methods, decimal and hexadecimal printing and parsing; [Text] characters,
    UTF-8 and the decimal round trip.

    ** How code becomes definitions

    A function becomes a function of the same name, with the receiver of a method as an
    argument; a [&mut self] method returns its result with the state after the call, also
    when it fails.  An outcome is [res]: [Ok], [Err] with the message, or [Panic] for what
    would abort the thread (an index out of range, [unwrap] of [None], an overflowing
    subtraction), so the absence of panics is a theorem.  Integers are [Z] at the width of
    the code, wrapping or saturating where the code does; bytes are [Z] below 256 and
    strings are their UTF-8 bytes.  A [HashMap] is a [gmap], and its iteration order is that
    of [map_to_list] where it matters.  Clocks, random draws and the answers of the outside
    world are arguments.  Shared objects ([Arc]) are handles into a store ([Hub.World],
    [WebRoutes.w_pools]), so aliasing is visible.  Between two awaits of an async function
    other tasks run: [Gate] splits [authorize] into its stages and interleaves them;
    [Upstreams] and [Edge] allow an arbitrary change at every await that keeps the
    configuration ([same_config], [env_fine]).

    Libraries the sources call are type classes of parameters ([PeerLibs], [TermLibs],
    [JsonLibs], [DecimalClass], [TextLibs], [HubEnv], [HttpLibs], [UrlLibs], [GateLibs],
    [OriginLibs], [ActivityLibs], [JournalLibs], [NameLibs], [SemverLibs], [CatalogJson],
    [StoreLibs], [Base64], [GrantLibs]); documented behaviour a
    theorem needs is a law of a class or a named
    hypothesis, and the [Samples] modules instantiate them for the witnesses.

    Loops that are not structural run on fuel, and running out is a visible outcome:
    [RelayBatch.decode_loop] on 33, one more than the records a batch may hold;
    [RustStr.strip_all], [Text.utf8_valid] and [Text.lossy_bytes] on the length of the
    text, of which each round takes at least a byte; [Net.fold_carry] on enough carries for
    64 KiB; [Prelude.search_window] on the length of the slice; [Gate.settle] on the three
    stages of a request; [Upstreams.forward_loop] on the attempt budget;
    [History.scroll] on one request more than there are lines; [Journal.retry] on one
    attempt more than the faults of the script; [JournalFollow.collect] on one poll more
    than the batches left; [Download.publish_pieces] on the pieces left in the run;
    [Download.destination_from] on the ten thousand names the code tries.  The theorems show that the fuel is not exhausted.

    File operations of the journal act on a store of inodes and may fail as a script of
    faults says, also half way through a write.  An inode number is not reused while a
    checkpoint names it.  A poll is a step for each segment it opens and each it reads, and
    the writer acts between them; [JournalFollow.follow_step] keeps rotations out of the
    opens of a poll, because [racing_poll_skips] shows what one does there.  The partial file of a download has durable and cached bytes: a
    sync makes the cached ones durable, the system may write any of them back before, and
    a crash leaves a mixture of both.  Each effect of a worker is one step, and any effect
    may fail.  An upload's temporary files are names of inodes, so a request that
    recreates one truncates what another has open; [Upload.commit] is one step.  SHA-256 is
    an argument: [Upload.collision_free] says that it tells the chunks of the source from
    other bytes.  Of the server of a download [Download.honest] assumes that what it sends is
    part of a version it published, with the validators of that version, and
    [Download.unique_tags] that no two contents share a strong entity tag; nothing is assumed
    of dates, and the theorem says what a date then leaves open.  [DownloadEnd] assumes
    nothing of replies but that there is one to each request and that its body ends.

    Time in [SyncLoop] is in milliseconds and does not pass while a task is ready; the
    backend of the watcher is a queue of reports, which can be late, overflow and be lost
    when the source folder is replaced.  The operations of [Store] are methods in a state
    monad over the two directories ([Prelude.M]); what the network, the locks and the file
    system answer during one call is an environment.  [Store.step] takes one process from
    one lock of [resolve] or [prefetch] to the next, so processes of an account interleave; while a
    lock is held no other process changes what it guards.

    A service of [Upstreams.health_hysteresis] has any history of the changes its methods
    make ([Upstreams.Change]); that requests and probes make no others is proved.

    The socket of [Egress] is the bytes the client sends before it stops, so a read that times
    out is one at the end of the input.  In [PeerProxy] every query of the database is a
    step and sees the database of its moment, which changes in any way between steps; a
    query may fail, a handler may end at any time, and time does not pass a timer.

    ** What the theorems show

    - Only authorised packets pass ([PolicyEngine.check_authorized],
      [check_exit_authorized]), the engine keeps its invariant and fails closed; a flow
      keeps its exit; which targets have host routes is stated exactly, and they cover what
      the selector serves; wire formats round-trip.
    - A peer is ready only with the enrolled certificate, accepts descriptions only of the
      enrolled peer and never hangs in a handshake.
    - A terminal applies exactly what was sent, in order, over lossy carriers, and replay
      brings it up to date; in every reachable hub the tables agree, capabilities are
      rechecked, readers cannot type, replaced hosts are fenced and memory is bounded.
    - Pages are slices of the scrollback, scrolling ends with the whole text, the snapshot
      cache accounts for its bytes, the pager asks only for what the hub accepts and draws
      only safe text.
    - Rule books are well formed, preview and compilation agree, compiling for one machine
      is a filter of compiling for all.
    - The gate lets only holders of a session or a key through and is bounded under every
      interleaving; a service receives exactly the rewritten request and no other origin is
      reachable; selection is weight-fair, retries are safe, and what is in
      rotation is stated by the hysteresis of health and the cooldown;
      routes only reach their own upstreams, and the composition holds from the listener on.
    - Every request is counted once, or refused by a full table with a warning; an appended
      batch is stored exactly once whatever faults hit the writer, a reader receives every
      batch that was not dropped before its first poll once and in order across rotations,
      and a stopped task has stored what it was given.
    - The names a remote side chooses stay below the folder; a published download is one
      version of the remote file whatever fails or crashes, but for what HTTP does not tell
      (weak validators, bodies ended by the connection), and a download ends; an upload
      is the source and can be resumed to the end, if no two requests for one chunk
      overlap.  [DirSync], [Upload] and [DownloadRun] also prove defects: hidden files of a
      folder are never synchronised, overlapping requests for a chunk can lose the upload,
      and versions of one date can be joined.
    - No change of a watched folder is lost, and a marked path is taken up within a minute.
    - A tool that is resolved is allowed, suits the machine and is byte for byte the one
      its catalog entry lists; a published version never changes, the catalog never goes
      back and stays readable unless its encoding outgrows the limit, and installed tools work without a network.
    - The local proxy asks for a destination exactly when it receives a complete request
      with the credentials, and forwards nothing of the client's but the request; which
      networks are reachable is stated as prefixes ([Egress.permitted_networks]).
    - A proxy stream is one a grant permits, through the machine it names; after
      the end of the grant nothing is admitted that did not read it before, and what was
      admitted ends within 14 to 24 seconds; the permits in use are those of live handlers.

    ** What is not modelled

    Start-up, process supervision, sockets, files and the event loops around the parts
    above are input and output around libraries.  The agent's operating-system
    integration (services, routes, tunnel devices, DNS set-up), the SQL and Mongo queries
    of the API, the command-line and terminal user interfaces, the child processes of
    components and the vendored crates are outside.  So are the user-space TCP stack that
    terminates private streams (a task around a library), the relays and STUN queries of
    the mesh, the packet filter, the ownership and permission checks of directories, and
    the branches that only Windows or macOS compiles. *)

From Stdlib Require Export Ascii Lia ZArith ZifyBool ZifyNat Sorted.
From stdpp Require Export base tactics numbers list gmap sets strings.

#[export] Set Default Goal Selector "!".

Declare Scope porthub_scope.
Delimit Scope porthub_scope with porthub.
Open Scope porthub_scope.
Local Open Scope Z_scope.

(** ** Outcomes of Rust code *)

(** A fallible Rust computation: a value, an [anyhow::Error] with its message,
    or a panic (slice index out of range, missing [HashMap] index, arithmetic
    underflow, [unwrap] of [None]).  Panics are modelled so that their absence
    is a theorem about the code and not an assumption of the model. *)
Inductive res (A : Type) : Type :=
| Ok (a : A)
| Err (e : string)
| Panic.
Arguments Ok {A} a.
Arguments Err {A} e%_string.
Arguments Panic {A}.

#[global] Instance res_eq_dec `{EqDecision A} : EqDecision (res A).
Proof. solve_decision. Defined.

Definition rbind {A B} (c : res A) (k : A → res B) : res B :=
  match c with
  | Ok a => k a
  | Err e => Err e
  | Panic => Panic
  end.

(** The [ensure!] macro. *)
Definition ensure (b : bool) (msg : string) : res unit :=
  if b then Ok tt else Err msg.

(** [Option::ok_or_else]. *)
Definition ok_or {A} (o : option A) (msg : string) : res A :=
  match o with Some a => Ok a | None => Err msg end.

(** [Option::unwrap] and [HashMap] indexing. *)
Definition unwrap {A} (o : option A) : res A :=
  match o with Some a => Ok a | None => Panic end.

Definition is_ok {A} (r : res A) : bool :=
  match r with Ok _ => true | _ => false end.

Definition is_err {A} (r : res A) : bool :=
  match r with Err _ => true | _ => false end.

Notation "'let!' x := c 'in' k" := (rbind c (λ x, k))
  (at level 10, x name, c at level 100, k at level 200,
   format "'[v' 'let!'  x  :=  c  'in' '/' k ']'") : porthub_scope.
Notation "'let!' ' p := c 'in' k" := (rbind c (λ p, k))
  (at level 10, p strict pattern, c at level 100, k at level 200) : porthub_scope.
Notation "'ensure!' b 'else' msg 'in' k" := (rbind (ensure b msg) (λ _, k))
  (at level 10, b at level 100, msg at level 100, k at level 200,
   format "'[v' 'ensure!'  b  'else'  msg  'in' '/' k ']'") : porthub_scope.

(** A method on [&mut self]: the state after the call is kept on every outcome,
    as a mutation made before an early return stays made. *)
Definition M (S A : Type) : Type := S → res A * S.

Definition mok {S A} (a : A) : M S A := λ s, (Ok a, s).
Definition mbindM {S A B} (c : M S A) (k : A → M S B) : M S B := λ s,
  match c s with
  | (Ok a, s') => k a s'
  | (Err e, s') => (Err e, s')
  | (Panic, s') => (Panic, s')
  end.
Definition lift {S A} (c : res A) : M S A := λ s, (c, s).
Definition get {S} : M S S := λ s, (Ok s, s).
Definition put {S} (s' : S) : M S unit := λ _, (Ok tt, s').
Definition modify {S} (f : S → S) : M S unit := λ s, (Ok tt, f s).

Notation "'let*' x := c 'in' k" := (mbindM c (λ x, k))
  (at level 10, x name, c at level 100, k at level 200,
   format "'[v' 'let*'  x  :=  c  'in' '/' k ']'") : porthub_scope.
Notation "'do*' c 'in' k" := (mbindM c (λ _, k))
  (at level 10, c at level 100, k at level 200,
   format "'[v' 'do*'  c  'in' '/' k ']'") : porthub_scope.
Notation "'ensure*' b 'else' msg 'in' k" := (mbindM (lift (ensure b msg)) (λ _, k))
  (at level 10, b at level 100, msg at level 100, k at level 200,
   format "'[v' 'ensure*'  b  'else'  msg  'in' '/' k ']'") : porthub_scope.

(** ** Slices and machine integers *)

(** [slice::len] as a [usize]. *)
Abbreviation len l := (Z.of_nat (length l)).

(** [bytes[i]]: panics out of range. *)
Definition idx {A} (l : list A) (i : Z) : res A :=
  if 0 <=? i then unwrap (l !! Z.to_nat i) else Panic.

(** [&bytes[a..b]]: panics unless [a <= b <= len]. *)
Definition slice {A} (l : list A) (a b : Z) : res (list A) :=
  if (0 <=? a) && (a <=? b) && (b <=? len l)
  then Ok (take (Z.to_nat (b - a)) (drop (Z.to_nat a) l))
  else Panic.

(** [&bytes[a..]]. *)
Definition slice_from {A} (l : list A) (a : Z) : res (list A) := slice l a (len l).

(** [bytes[a..b].copy_from_slice(src)]: panics out of range or on a length
    mismatch; [store] is [bytes[i] = v]. *)
Definition copy_in {A} (l : list A) (a b : Z) (src : list A) : res (list A) :=
  if (0 <=? a) && (a <=? b) && (b <=? len l) && (len src =? b - a)
  then Ok (take (Z.to_nat a) l ++ src ++ drop (Z.to_nat b) l)
  else Panic.
Definition store {A} (l : list A) (i : Z) (v : A) : res (list A) :=
  copy_in l i (i + 1) [v].

(** [u64::div_ceil] *)
Definition div_ceil (a b : Z) : Z := (a + b - 1) / b.

(** [seek] and [write_all] on a file: a gap reads as zeros, an empty write does nothing. *)
Definition write_at (offset : Z) (bytes f : list Z) : list Z :=
  if bool_decide (bytes = []) then f
  else list_inserts (Z.to_nat offset) bytes
         (resize (Nat.max (length f) (Z.to_nat offset + length bytes)) 0 f).

(** Subtraction on an unsigned type: below zero it panics. *)
Definition usub (a b : Z) : res Z := if b <=? a then Ok (a - b) else Panic.

Definition u8 (z : Z) : Prop := 0 ≤ z < 2 ^ 8.
Definition u16 (z : Z) : Prop := 0 ≤ z < 2 ^ 16.
Definition u32 (z : Z) : Prop := 0 ≤ z < 2 ^ 32.
Definition u64 (z : Z) : Prop := 0 ≤ z < 2 ^ 64.
#[global] Instance u8_dec z : Decision (u8 z).
Proof. unfold u8. apply _. Defined.
#[global] Instance u16_dec z : Decision (u16 z).
Proof. unfold u16. apply _. Defined.
#[global] Instance u32_dec z : Decision (u32 z).
Proof. unfold u32. apply _. Defined.
#[global] Instance u64_dec z : Decision (u64 z).
Proof. unfold u64. apply _. Defined.
Definition bytes_ok (l : list Z) : Prop := Forall u8 l.
#[global] Instance bytes_ok_dec l : Decision (bytes_ok l).
Proof. unfold bytes_ok. apply _. Defined.

(** [z as u8], [z as u16], [z as u32], [z as u64]. *)
Definition as_u8 (z : Z) : Z := z mod 2 ^ 8.
Definition as_u16 (z : Z) : Z := z mod 2 ^ 16.
Definition as_u32 (z : Z) : Z := z mod 2 ^ 32.
Definition as_u64 (z : Z) : Z := z mod 2 ^ 64.
Definition U64_MAX : Z := 2 ^ 64 - 1.
Definition U32_MAX : Z := 2 ^ 32 - 1.

(** [u16::from_be_bytes] and [u16::to_be_bytes]. *)
Definition u16_from_be (a b : Z) : Z := a * 256 + b.
Definition u16_to_be (n : Z) : list Z := [n / 256 mod 256; n mod 256].

(** Big-endian bytes of an [n]-byte unsigned integer, most significant first. *)
Fixpoint to_be (n : nat) (z : Z) : list Z :=
  match n with
  | O => []
  | S n => z / 256 ^ Z.of_nat n mod 256 :: to_be n z
  end.
Definition from_be (l : list Z) : Z := foldl (λ acc b, acc * 256 + b) 0 l.

(** [Iterator::take_while], [slice::starts_with]. *)
Fixpoint take_while {A} (f : A → bool) (l : list A) : list A :=
  match l with
  | [] => []
  | x :: l => if f x then x :: take_while f l else []
  end.
Definition starts_with (p l : list Z) : bool := bool_decide (take (length p) l = p).

(** [Duration::from_secs], in nanoseconds. An [Instant] is a count of
    nanoseconds on the monotonic clock. *)
Definition from_secs (n : Z) : Z := n * 1000000000.

(** [Option::get_or_insert]: the option after the call. *)
Definition get_or_insert {A} (o : option A) (v : A) : option A :=
  match o with Some u => Some u | None => Some v end.

(** A Rust string is its UTF-8 bytes. *)
Definition bytes_of (s : string) : list Z :=
  map (λ a, Z.of_N (N_of_ascii a)) (String.list_ascii_of_string s).
Definition slen (s : string) : Z := Z.of_nat (String.length s).
Definition str_is_empty (s : string) : bool := slen s =? 0.

(** ** Lemmas on outcomes *)

Create HintDb porthub discriminated.

Lemma rbind_ok {A B} (c : res A) (k : A → res B) b :
  rbind c k = Ok b ↔ ∃ a, c = Ok a ∧ k a = Ok b.
Proof. destruct c; naive_solver. Qed.

#[global] Instance Ok_inj {A} : Inj (=) (=) (@Ok A).
Proof. intros a b H. by injection H. Qed.

Lemma ensure_ok b msg u : ensure b msg = Ok u ↔ b = true.
Proof. destruct b, u; simpl; split; congruence. Qed.

Lemma ensure_true b msg : b = true → ensure b msg = Ok tt.
Proof. by intros ->. Qed.

Lemma ensure_not_panic b msg : ensure b msg ≠ Panic.
Proof. by destruct b. Qed.

Lemma ok_or_ok {A} (o : option A) msg a : ok_or o msg = Ok a ↔ o = Some a.
Proof. destruct o; naive_solver. Qed.

Lemma unwrap_ok {A} (o : option A) a : unwrap o = Ok a ↔ o = Some a.
Proof. destruct o; naive_solver. Qed.

Lemma rbind_not_panic {A B} (c : res A) (k : A → res B) :
  c ≠ Panic → (∀ a, c = Ok a → k a ≠ Panic) → rbind c k ≠ Panic.
Proof. destruct c; naive_solver. Qed.

(** [res_inv] opens every successful step of a computation in the context. *)
Ltac res_inv_step :=
  match goal with
  | H : rbind _ _ = Ok _ |- _ =>
      let a := fresh "v" in let E := fresh "E" in
      apply rbind_ok in H as (a & E & H)
  | H : ensure _ _ = Ok ?u |- _ => apply ensure_ok in H; clear u
  | H : ensure _ _ = Ok _ |- _ => apply ensure_ok in H
  | H : ok_or _ _ = Ok _ |- _ => apply ok_or_ok in H
  | H : unwrap _ = Ok _ |- _ => apply unwrap_ok in H
  | H : Ok _ = Ok _ |- _ => injection H as H; subst
  | H : Err _ = Ok _ |- _ => discriminate H
  | H : Panic = Ok _ |- _ => discriminate H
  end.
Ltac res_inv := repeat (res_inv_step; cbv beta in * ).

(** Case analysis on the next [ensure!] of the goal. *)
Ltac case_ensure G :=
  match goal with
  | |- context [ensure ?b _] => destruct b eqn:G; cbn [ensure rbind]
  end.

(** An equation by evaluation of both sides, its type kept as it is. *)
Ltac by_vm := match goal with |- _ = ?b => vm_cast_no_check (eq_refl b) end.

(** A result that is given as the value of an option. *)
Lemma some_default {A} (d : A) o : (match o with Some _ => true | None => false end) = true → o = Some (default d o).
Proof. by destruct o. Qed.

(** Linear arithmetic after replacing division and remainder by equations. *)
Ltac zlia := Z.to_euclidean_division_equations; lia.

(** Split the boolean guards of the code into its conjuncts. *)
Ltac split_guard :=
  repeat match goal with
  | H : (_ && _)%bool = true |- _ => apply andb_true_iff in H as [? H]
  | H : (_ || _)%bool = false |- _ => apply orb_false_iff in H as [? H]
  | H : negb _ = true |- _ => apply negb_true_iff in H
  | H : negb _ = false |- _ => apply negb_false_iff in H
  end.

(** ** Computations that respect a relation on states *)

Definition preserves {S A} (R : S → S → Prop) (c : M S A) : Prop := ∀ s, R s (c s).2.

Section preserves.
Context {S : Type} (R : S → S → Prop) `{!PreOrder R}.

Lemma preserves_mok {A} (a : A) : preserves R (mok a).
Proof. intros s. done. Qed.
Lemma preserves_lift {A} (c : res A) : preserves R (lift c).
Proof. intros s. done. Qed.
Lemma preserves_get : preserves R get.
Proof. intros s. done. Qed.
Lemma preserves_bind {A B} (c : M S A) (k : A → M S B) :
  preserves R c → (∀ a, preserves R (k a)) → preserves R (mbindM c k).
Proof.
  intros Hc Hk s. specialize (Hc s). unfold mbindM.
  destruct (c s) as [[a| |] s1]; simpl in *; [|done|done]. etrans; [done|]. apply Hk.
Qed.
End preserves.

(** A run is its result with the state after it. *)
Lemma run_eq {S A} (c : M S A) s r : (c s).1 = r → c s = (r, (c s).2).
Proof. intros <-. by destruct (c s). Qed.

Lemma run_bind {S A B} (c : M S A) (k : A → M S B) s a s' :
  c s = (Ok a, s') → mbindM c k s = k a s'.
Proof. unfold mbindM. by intros ->. Qed.

(** ** Weakest preconditions of methods *)

(** [Q] holds of the result and the state after the call, errors included. *)
Definition wp {S A} (c : M S A) (Q : res A → S → Prop) (w : S) : Prop :=
  Q (c w).1 (c w).2.

(** The continuation of a bind: [Q] of an early return, or the rest of the computation. *)
Definition wp_k {S A B} (k : A → M S B) (Q : res B → S → Prop) (r : res A) (w : S) : Prop :=
  match r with
  | Ok a => wp (k a) Q w
  | Err e => Q (Err e) w
  | Panic => Q Panic w
  end.

Lemma wp_bind {S A B} (c : M S A) (k : A → M S B) Q w :
  wp c (wp_k k Q) w → wp (mbindM c k) Q w.
Proof. unfold wp, wp_k, mbindM. by destruct (c w) as [[a|e|] w1]. Qed.

Lemma wp_lift_ensure {S B} b msg (k : unit → M S B) Q w :
  (b = true → wp (k tt) Q w) → (b = false → Q (Err msg) w) →
  wp (mbindM (lift (ensure b msg)) k) Q w.
Proof. intros H1 H2. apply wp_bind. unfold wp, lift. destruct b; simpl; auto. Qed.

Lemma wp_lift {S A B} (r : res A) (k : A → M S B) Q w :
  (∀ a, r = Ok a → wp (k a) Q w) → (∀ e, r = Err e → Q (Err e) w) → (r = Panic → Q Panic w) →
  wp (mbindM (lift r) k) Q w.
Proof. intros H1 H2 H3. apply wp_bind. unfold wp, lift. destruct r; simpl; auto. Qed.

Lemma wp_get {S B} (k : S → M S B) Q w : wp (k w) Q w → wp (mbindM get k) Q w.
Proof. done. Qed.

Lemma wp_modify {S B} f (k : unit → M S B) Q w :
  wp (k tt) Q (f w) → wp (mbindM (modify f) k) Q w.
Proof. done. Qed.

Lemma wp_preserves {S A} R (c : M S A) (Q : res A → S → Prop) w :
  preserves R c → (∀ r w', R w w' → Q r w') → wp c Q w.
Proof. intros Hc HQ. apply HQ, Hc. Qed.

Lemma wp_mono {S A} (c : M S A) (Q Q' : res A → S → Prop) w :
  (∀ r w', Q r w' → Q' r w') → wp c Q w → wp c Q' w.
Proof. intros H. apply H. Qed.

(** ** Sums *)

Definition zsum {A} (f : A → Z) (l : list A) : Z := foldr (λ x n, f x + n) 0 l.

Lemma zsum_perm {A} (f : A → Z) l k : l ≡ₚ k → zsum f l = zsum f k.
Proof. induction 1; simpl; lia. Qed.

Lemma zsum_ext {A} (f g : A → Z) l : (∀ x, x ∈ l → f x = g x) → zsum f l = zsum g l.
Proof.
  induction l as [|x l IH]; simpl; intros H; [done|].
  rewrite (H x), IH; [done|intros; apply H; by right|by left].
Qed.

(** The sum when the value of one element changes by [d]. *)
Lemma zsum_change {A} (f g : A → Z) l y d :
  NoDup l → y ∈ l → (∀ x, x ∈ l → x ≠ y → f x = g x) → f y = g y + d → zsum f l = zsum g l + d.
Proof.
  induction 1 as [|x l Hx Hl IH]; [by intros ?%elem_of_nil|]. simpl. intros Hy He Hd.
  apply elem_of_cons in Hy as [->|Hy].
  - rewrite Hd, (zsum_ext f g l); [lia|].
    intros z Hz. apply He; [by right|]. by intros ->.
  - rewrite (He x), (IH Hy); [lia| |done|by left|by intros ->].
    intros z Hz. apply He. by right.
Qed.

(** ** Lemmas on slices *)

Definition byte_at (l : list Z) (i : Z) : Z := nth (Z.to_nat i) l 0.

Lemma idx_byte_at (l : list Z) i : 0 ≤ i < len l → idx l i = Ok (byte_at l i).
Proof.
  intros Hi. unfold idx, byte_at.
  rewrite (proj2 (Z.leb_le 0 i)) by lia.
  destruct (nth_lookup_or_length l (Z.to_nat i) 0) as [->|]; [done|lia].
Qed.

Lemma byte_at_u8 (l : list Z) i : bytes_ok l → u8 (byte_at l i).
Proof.
  intros Hl. unfold byte_at.
  destruct (nth_lookup_or_length l (Z.to_nat i) 0) as [Hn|Hn].
  - by eapply Forall_lookup_1 in Hn.
  - rewrite nth_overflow by lia. done.
Qed.

Lemma slice_ok {A} (l : list A) a b :
  0 ≤ a ≤ b → b ≤ len l → slice l a b = Ok (take (Z.to_nat (b - a)) (drop (Z.to_nat a) l)).
Proof.
  intros Hab Hb. unfold slice.
  by rewrite (proj2 (Z.leb_le 0 a)), (proj2 (Z.leb_le a b)), (proj2 (Z.leb_le b _)) by lia.
Qed.

Lemma slice_from_ok {A} (l : list A) a :
  0 ≤ a ≤ len l → slice_from l a = Ok (drop (Z.to_nat a) l).
Proof.
  intros Ha. unfold slice_from. rewrite slice_ok by lia.
  f_equal. apply take_ge. rewrite length_drop. lia.
Qed.

Lemma slice_inv {A} (l : list A) a b l' :
  slice l a b = Ok l' → 0 ≤ a ≤ b ∧ b ≤ len l ∧ l' = take (Z.to_nat (b - a)) (drop (Z.to_nat a) l).
Proof. unfold slice. case_match eqn:E; [|done]. intros [= <-]. split_and!; [lia|lia|lia|done]. Qed.

Lemma length_slice {A} (l : list A) a b l' : slice l a b = Ok l' → len l' = b - a.
Proof.
  intros (Ha & Hb & ->)%slice_inv.
  rewrite length_take, length_drop. lia.
Qed.

(** Reading the buffer through what is left of it after [i] bytes. *)
Lemma idx_drop {A} (l k : list A) i x :
  0 ≤ i → drop (Z.to_nat i) l = x :: k → idx l i = Ok x.
Proof.
  intros Hi Hd. unfold idx. rewrite (proj2 (Z.leb_le 0 i)) by lia.
  by rewrite <- (Nat.add_0_r (Z.to_nat i)), <- lookup_drop, Hd.
Qed.

Lemma drop_add {A} (l k : list A) i n :
  0 ≤ i → 0 ≤ n → drop (Z.to_nat i) l = k → drop (Z.to_nat (i + n)) l = drop (Z.to_nat n) k.
Proof. intros Hi Hn <-. rewrite drop_drop. f_equal. lia. Qed.

Lemma drop_len {A} (l k : list A) i :
  0 ≤ i ≤ len l → drop (Z.to_nat i) l = k → len l - i = len k.
Proof. intros Hi <-. rewrite length_drop. lia. Qed.

Lemma slice_drop {A} (l k1 k2 : list A) i n :
  0 ≤ i ≤ len l → drop (Z.to_nat i) l = k1 ++ k2 → n = len k1 →
  slice l i (i + n) = Ok k1.
Proof.
  intros Hi Hd ->. pose proof (drop_len _ _ _ Hi Hd) as Hl. rewrite length_app in Hl.
  rewrite slice_ok by lia. rewrite Hd. f_equal.
  apply take_app_length'. lia.
Qed.

(** A write inside a prefix leaves the rest of the buffer alone. *)
Lemma copy_in_app {A} (l k : list A) a b src l' :
  copy_in l a b src = Ok l' → copy_in (l ++ k) a b src = Ok (l' ++ k).
Proof.
  unfold copy_in. rewrite length_app. case_match eqn:E; [|done]. intros [= <-].
  case_match; [|exfalso; lia].
  rewrite take_app_le, drop_app_le by lia. by rewrite <- !(assoc_L (++)).
Qed.

Lemma div_ceil_spec a b : 0 < b → a ≤ div_ceil a b * b ∧ ∀ i, i < div_ceil a b → i * b < a.
Proof.
  intros Hb. unfold div_ceil. split; [zlia|].
  intros i Hi. assert (i * b ≤ ((a + b - 1) / b - 1) * b) by nia. zlia.
Qed.
Lemma div_ceil_pos a b : 0 < a → 0 < b → 1 ≤ div_ceil a b.
Proof. intros Ha Hb. unfold div_ceil. zlia. Qed.

Lemma write_at_end bytes f : write_at (len f) bytes f = f ++ bytes.
Proof.
  unfold write_at. case_bool_decide; [subst; by rewrite app_nil_r|].
  rewrite Nat2Z.id, Nat.max_r, resize_ge by lia.
  rewrite <- (Nat.add_0_r (length f)) at 1. rewrite list_inserts_app_r. f_equal.
  rewrite <- (app_nil_r bytes) at 1. apply list_inserts_0_l. rewrite length_replicate. lia.
Qed.

Lemma usub_ok a b : b ≤ a → usub a b = Ok (a - b).
Proof. intros H. unfold usub. by rewrite (proj2 (Z.leb_le b a)) by lia. Qed.

Lemma bytes_ok_app l k : bytes_ok (l ++ k) ↔ bytes_ok l ∧ bytes_ok k.
Proof. apply Forall_app. Qed.

Lemma bytes_ok_take n l : bytes_ok l → bytes_ok (take n l).
Proof. apply Forall_take. Qed.

Lemma bytes_ok_drop n l : bytes_ok l → bytes_ok (drop n l).
Proof. apply Forall_drop. Qed.
#[export] Hint Resolve bytes_ok_take bytes_ok_drop byte_at_u8 : porthub.

(** ** Big-endian encodings *)

Lemma u16_be_roundtrip n : u16 n → u16_from_be (n / 256 mod 256) (n mod 256) = n.
Proof. unfold u16, u16_from_be. intros. zlia. Qed.

Lemma u16_from_be_range a b : u8 a → u8 b → u16 (u16_from_be a b).
Proof. unfold u8, u16, u16_from_be. lia. Qed.

Lemma u16_to_be_ok n : bytes_ok (u16_to_be n).
Proof. repeat constructor; unfold u8; zlia. Qed.

Lemma length_to_be n z : length (to_be n z) = n.
Proof. induction n; simpl; auto. Qed.

Lemma to_be_ok n z : bytes_ok (to_be n z).
Proof. induction n; constructor; [|done]. unfold u8. zlia. Qed.

Lemma from_be_acc l acc :
  foldl (λ acc b, acc * 256 + b) acc l = acc * 256 ^ len l + from_be l.
Proof.
  unfold from_be. revert acc. induction l as [|b l IH]; intros acc; simpl; [lia|].
  rewrite IH, (IH (0 * 256 + b)). rewrite Nat2Z.inj_succ, Z.pow_succ_r by lia. lia.
Qed.

Lemma from_be_cons b l : from_be (b :: l) = b * 256 ^ len l + from_be l.
Proof. unfold from_be. simpl. rewrite from_be_acc. unfold from_be. lia. Qed.

Lemma from_be_range l : bytes_ok l → 0 ≤ from_be l < 256 ^ len l.
Proof.
  induction 1 as [|b l Hb Hl IH]; [done|].
  rewrite from_be_cons. simpl length. rewrite Nat2Z.inj_succ, Z.pow_succ_r by lia.
  unfold u8 in Hb. nia.
Qed.

Lemma from_be_to_be n z : 0 ≤ z → from_be (to_be n z) = z mod 256 ^ Z.of_nat n.
Proof.
  intros Hz. induction n as [|n IH]; [by rewrite Z.mod_1_r|].
  simpl to_be. rewrite from_be_cons, length_to_be, IH, Nat2Z.inj_succ, Z.pow_succ_r by lia.
  rewrite (Z.mul_comm 256), Z.rem_mul_r by lia. lia.
Qed.

Lemma to_be_from_be l : bytes_ok l → to_be (length l) (from_be l) = l.
Proof.
  intros Hl. cut (∀ q, 0 ≤ q → to_be (length l) (q * 256 ^ len l + from_be l) = l).
  { intros H. rewrite <- (H 0) at 3 by lia. f_equal. }
  induction Hl as [|b l Hb Hl IH]; intros q Hq; simpl to_be; [done|].
  pose proof (from_be_range l Hl). unfold u8 in Hb.
  rewrite from_be_cons, Nat2Z.inj_succ, Z.pow_succ_r by lia.
  replace (q * (256 * 256 ^ len l) + (b * 256 ^ len l + from_be l))
    with ((q * 256 + b) * 256 ^ len l + from_be l) by lia.
  rewrite IH by lia. f_equal.
  rewrite Z.div_add_l, (Z.div_small (from_be l)), Z.add_0_r by lia.
  rewrite Z.add_comm, Z.mod_add by lia. apply Z.mod_small. lia.
Qed.

(** ** Sorting *)

(** [slice::sort_by]: a stable sort. *)
Fixpoint insert_by {A} (cmp : A → A → comparison) (x : A) (l : list A) : list A :=
  match l with
  | [] => [x]
  | y :: l' => match cmp x y with Gt => y :: insert_by cmp x l' | _ => x :: l end
  end.
Definition sort_by {A} (cmp : A → A → comparison) : list A → list A :=
  foldr (insert_by cmp) [].

(** [Ordering::then] *)
Definition then_cmp (a b : comparison) : comparison :=
  match a with Eq => b | _ => a end.

(** [bool::cmp]: [false < true]. *)
Definition bool_cmp (a b : bool) : comparison :=
  match a, b with
  | false, true => Lt
  | true, false => Gt
  | _, _ => Eq
  end.

Lemma insert_by_perm {A} cmp (x : A) l : insert_by cmp x l ≡ₚ x :: l.
Proof.
  induction l as [|y l IH]; simpl; [done|]. destruct (cmp x y); try done.
  rewrite IH. apply Permutation_swap.
Qed.

Lemma sort_by_perm {A} cmp (l : list A) : sort_by cmp l ≡ₚ l.
Proof. induction l as [|x l IH]; simpl; [done|]. by rewrite insert_by_perm, IH. Qed.

Section sorting.
Context {A : Type} (cmp : A → A → comparison).
Context (cmp_total : ∀ x y, cmp x y = Gt → cmp y x ≠ Gt).

Lemma insert_by_hd x y l :
  cmp y x ≠ Gt → HdRel (λ a b, cmp a b ≠ Gt) y l →
  HdRel (λ a b, cmp a b ≠ Gt) y (insert_by cmp x l).
Proof.
  intros Hy Hl. destruct l as [|z l]; simpl; [by constructor|].
  apply HdRel_inv in Hl. case_match; by constructor.
Qed.

Lemma insert_by_sorted x l :
  Sorted (λ a b, cmp a b ≠ Gt) l → Sorted (λ a b, cmp a b ≠ Gt) (insert_by cmp x l).
Proof.
  induction 1 as [|y l Hs IH Hd]; simpl; [by repeat constructor|].
  destruct (cmp x y) eqn:E;
    [constructor; [by constructor|by constructor; rewrite E]..|].
  constructor; [done|]. apply insert_by_hd; [by apply cmp_total|done].
Qed.

Lemma sort_by_sorted l : Sorted (λ a b, cmp a b ≠ Gt) (sort_by cmp l).
Proof. induction l; simpl; [constructor|by apply insert_by_sorted]. Qed.

(** The whole list is ordered by every preorder the comparison refines. *)
Lemma sort_by_strongly (R : A → A → Prop) `{!Transitive R} l :
  (∀ x y, cmp x y ≠ Gt → R x y) → StronglySorted R (sort_by cmp l).
Proof.
  intros HR. apply Sorted_StronglySorted; [done|].
  pose proof (sort_by_sorted l) as Hs. induction Hs as [|x k Hs IH Hd]; constructor; [done|].
  destruct Hd; constructor. by apply HR.
Qed.
End sorting.

(** A sorted list is not moved by sorting it again. *)
Lemma sort_by_id {A} (cmp : A → A → comparison) l :
  Sorted (λ a b, cmp a b ≠ Gt) l → sort_by cmp l = l.
Proof.
  induction 1 as [|x l Hs IH Hd]; simpl; [done|]. rewrite IH.
  destruct Hd as [|y l Hxy]; simpl; [done|]. by destruct (cmp x y).
Qed.

(** ** Binary search *)

(** [slice::binary_search_by] as the standard library computes it: halve the window until
    one element is left.  The window loses at least one element in every round, so as
    much [fuel] as the window is long is enough. *)
Fixpoint search_window {A} (cmp : A → comparison) (l : list A) (fuel : nat) (base size : nat)
    : nat :=
  match fuel with
  | O => base
  | S fuel =>
      if (size <=? 1)%nat then base else
      let half := (size / 2)%nat in
      let mid := (base + half)%nat in
      let base := match l !! mid with
                  | Some x => match cmp x with Gt => base | _ => mid end
                  | None => base
                  end in
      search_window cmp l fuel base (size - half)
  end.
Definition binary_search_by {A} (cmp : A → comparison) (l : list A) : option nat :=
  let base := search_window cmp l (length l) 0 (length l) in
  match l !! base with
  | Some x => match cmp x with Eq => Some base | _ => None end
  | None => None
  end.

(** A list is ordered for [cmp] when everything after an element that is not below the
    target is above it. *)
Definition ordered_for {A} (cmp : A → comparison) (l : list A) : Prop :=
  ∀ i j x y, (i < j)%nat → l !! i = Some x → l !! j = Some y → cmp x ≠ Lt → cmp y = Gt.

Lemma search_window_spec {A} (cmp : A → comparison) (l : list A) fuel base size i x :
  ordered_for cmp l →
  (size ≤ fuel)%nat → (base + size ≤ length l)%nat → (base ≤ i < base + size)%nat →
  l !! i = Some x → cmp x = Eq → search_window cmp l fuel base size = i.
Proof.
  intros Ho. revert base size.
  induction fuel as [|fuel IH]; intros base size Hf Hl Hi Hx He;
    cbn [search_window]; [lia|].
  destruct (Nat.leb_spec size 1) as [Hs|Hs]; [lia|].
  assert (size / 2 < size ∧ 1 ≤ size / 2)%nat as [H1 H2].
  { split; [apply Nat.div_lt; lia|apply Nat.div_le_lower_bound; lia]. }
  pose proof (Nat.Div0.mul_div_le size 2) as H3.
  set (half := (size / 2)%nat) in *. clearbody half.
  destruct (l !! (base + half)%nat) as [y|] eqn:Ey.
  2: { apply lookup_ge_None in Ey. lia. }
  destruct (decide (i < base + half)%nat) as [Hlt|Hge].
  - rewrite (Ho i (base + half)%nat x y Hlt Hx Ey) by congruence. apply IH; try done; lia.
  - assert (cmp y ≠ Gt) as Hy.
    { destruct (decide (i = base + half)%nat) as [->|]; [congruence|]. intros Hy.
      rewrite (Ho (base + half)%nat i y x) in He by first [congruence|lia]. done. }
    destruct (cmp y); [| |done]; apply IH; try done; lia.
Qed.

Lemma binary_search_by_spec {A} (cmp : A → comparison) (l : list A) i :
  ordered_for cmp l →
  binary_search_by cmp l = Some i ↔ ∃ x, l !! i = Some x ∧ cmp x = Eq.
Proof.
  intros Ho. unfold binary_search_by. split.
  - destruct (l !! search_window _ _ _ _ _) as [x|] eqn:E; [|done].
    destruct (cmp x) eqn:Ec; [|done|done]. intros [= <-]. eauto.
  - intros (x & Hx & He). pose proof (lookup_lt_Some _ _ _ Hx).
    rewrite (search_window_spec cmp l (length l) 0 (length l) i x Ho) by (done || lia).
    by rewrite Hx, He.
Qed.

(** ** Strings in order *)

(** [Ord] of [str]: lexicographic on bytes. *)
Definition str_lt (a b : string) : Prop := String.compare a b = Lt.

Lemma str_compare_refl a : String.compare a a = Eq.
Proof.
  induction a as [|x a IH]; simpl; [done|]. unfold Ascii.compare. by rewrite N.compare_refl.
Qed.

#[global] Instance str_lt_trans : Transitive str_lt.
Proof.
  unfold str_lt. intros a. induction a as [|x a IH]; intros [|y b] [|z c]; simpl; try done.
  unfold Ascii.compare.
  destruct (N.compare_spec (N_of_ascii x) (N_of_ascii y)) as [E1|E1|E1]; try done;
  destruct (N.compare_spec (N_of_ascii y) (N_of_ascii z)) as [E2|E2|E2]; try done;
  destruct (N.compare_spec (N_of_ascii x) (N_of_ascii z)) as [E3|E3|E3]; try done;
    try (exfalso; lia); eauto.
Qed.

Lemma str_compare_flip a b : String.compare a b = Gt ↔ str_lt b a.
Proof.
  unfold str_lt. rewrite (String.compare_antisym b a). destruct (String.compare a b); done.
Qed.

(** [Vec::dedup]: of consecutive equal elements the first is kept. *)
Fixpoint dedup `{EqDecision A} (l : list A) : list A :=
  match l with
  | [] => []
  | x :: l' =>
      match l' with
      | [] => [x]
      | y :: _ => if bool_decide (x = y) then dedup l' else x :: dedup l'
      end
  end.

Lemma dedup_cons `{EqDecision A} (x y : A) l :
  dedup (x :: y :: l) = if bool_decide (x = y) then dedup (y :: l) else x :: dedup (y :: l).
Proof. done. Qed.

Lemma dedup_elem `{EqDecision A} (l : list A) x : x ∈ dedup l ↔ x ∈ l.
Proof.
  induction l as [|y l IH]; [done|]. destruct l as [|z l]; [done|].
  rewrite dedup_cons. case_bool_decide as E.
  - subst. rewrite IH. set_solver.
  - rewrite elem_of_cons, IH. set_solver.
Qed.

Lemma dedup_length `{EqDecision A} (l : list A) : (length (dedup l) ≤ length l)%nat.
Proof.
  induction l as [|y l IH]; [done|]. destruct l as [|z l]; [done|].
  rewrite dedup_cons. case_bool_decide; simpl in *; lia.
Qed.

(** [v.sort(); v.dedup()] on strings. *)
Definition sort_dedup (l : list string) : list string := dedup (sort_by String.compare l).

Lemma dedup_sorted l :
  Sorted (λ a b, String.compare a b ≠ Gt) l → Sorted str_lt (dedup l).
Proof.
  induction l as [|y l IH]; [constructor|]. intros [Hs Hd]%Sorted_inv.
  destruct l as [|z l]; [by repeat constructor|].
  rewrite dedup_cons. case_bool_decide as E; [auto|].
  constructor; [auto|]. apply HdRel_inv in Hd.
  assert (∃ k, dedup (z :: l) = z :: k) as [k ->].
  { clear. revert z. induction l as [|w l IH]; intros z; [by exists []|].
    rewrite dedup_cons. case_bool_decide as E; [subst; apply IH|eauto]. }
  constructor. unfold str_lt. destruct (String.compare y z) eqn:Ec; [|done|done].
  by apply String.compare_eq_iff in Ec.
Qed.

Lemma sort_dedup_sorted l : StronglySorted str_lt (sort_dedup l).
Proof.
  apply Sorted_StronglySorted; [apply str_lt_trans|]. apply dedup_sorted, sort_by_sorted.
  intros x y H. rewrite (String.compare_antisym), H. done.
Qed.

Lemma sort_dedup_elem l x : x ∈ sort_dedup l ↔ x ∈ l.
Proof. unfold sort_dedup. by rewrite dedup_elem, sort_by_perm. Qed.

(** Two strictly ordered lists of the same strings are equal. *)
Lemma str_sorted_unique l k :
  StronglySorted str_lt l → StronglySorted str_lt k → (∀ x, x ∈ l ↔ x ∈ k) → l = k.
Proof.
  assert (∀ a, ~ str_lt a a) as Hirr by (intros a; unfold str_lt; by rewrite str_compare_refl).
  intros Hl. revert k. induction Hl as [|x l Hl IH Hx]; intros k Hk H.
  - destruct k as [|y k]; [done|]. specialize (H y). set_solver.
  - destruct Hk as [|y k Hk Hy]; [specialize (H x); set_solver|].
    rewrite Forall_forall in Hx, Hy.
    assert (x = y) as <-.
    { assert (x ∈ y :: k) as [|Hxk]%elem_of_cons by (apply H; set_solver); [done|].
      assert (y ∈ x :: l) as [|Hyl]%elem_of_cons by (apply H; set_solver); [done|].
      destruct (Hirr x). transitivity y; auto. }
    f_equal. apply IH; [done|]. intros z. split; intros Hz.
    + assert (z ∈ x :: k) as [->|]%elem_of_cons by (apply H; set_solver); [|done].
      destruct (Hirr x). auto.
    + assert (z ∈ x :: l) as [->|]%elem_of_cons by (apply H; set_solver); [|done].
      destruct (Hirr x). auto.
Qed.

(** [binary_search] on a strictly ordered vector of strings. *)
Definition search_str (l : list string) (x : string) : option nat :=
  binary_search_by (λ y, String.compare y x) l.

Lemma sorted_lookup {A} (R : A → A → Prop) l i j x y :
  StronglySorted R l → (i < j)%nat → l !! i = Some x → l !! j = Some y → R x y.
Proof.
  intros Hl. revert i j. induction Hl as [|z l Hl IH Hz]; intros i j Hij Hx Hy; [done|].
  destruct j as [|j]; [lia|]. destruct i as [|i]; simpl in *.
  - injection Hx as ->. rewrite Forall_forall in Hz. by eapply Hz, list_elem_of_lookup_2.
  - eapply (IH i j); [lia|done|done].
Qed.

Lemma search_str_spec l x i :
  StronglySorted str_lt l → search_str l x = Some i ↔ l !! i = Some x.
Proof.
  intros Hl. unfold search_str. rewrite binary_search_by_spec.
  - split; [intros (y & Hy & ->%String.compare_eq_iff); done|].
    intros H. exists x. split; [done|apply str_compare_refl].
  - intros a b y z Hab Hy Hz Hne. pose proof (sorted_lookup _ _ _ _ _ _ Hl Hab Hy Hz) as Hlt.
    apply str_compare_flip. destruct (String.compare y x) eqn:E; [|done|].
    + by apply String.compare_eq_iff in E as ->.
    + apply str_compare_flip in E. by transitivity y.
Qed.

Lemma search_str_elem l x :
  StronglySorted str_lt l → is_Some (search_str l x) ↔ x ∈ l.
Proof.
  intros Hl. split.
  - intros [i Hi%search_str_spec]; [|done]. by eapply list_elem_of_lookup_2.
  - intros [i Hi]%list_elem_of_lookup_1. exists i. by apply search_str_spec.
Qed.
