(* ===== verification/Net.v ===== *)
(** * IPv4 addresses, their ranges and the Internet checksum

    The parts of [std::net::Ipv4Addr] the sources use, and the one's-complement
    header checksum that [porthub-mesh/src/control_packet.rs] and
    [porthub-network/src/policy.rs] both compute with the same carry loop. *)

From S2P Require Import Prelude.
Local Open Scope Z_scope.

(** ** [std::net::Ipv4Addr] *)

(** An address is its [u32] value; [Ord] on addresses is the order of that value. *)
Abbreviation ipv4 := Z.

Definition ipv4_new (a b c d : Z) : ipv4 := ((a * 256 + b) * 256 + c) * 256 + d.
Definition octet (i : Z) (ip : ipv4) : Z := ip / 256 ^ (3 - i) mod 256.
Definition octets (ip : ipv4) : list Z := to_be 4 ip.

Definition is_unspecified (ip : ipv4) : bool := ip =? 0.
Definition is_loopback (ip : ipv4) : bool := octet 0 ip =? 127.
Definition is_private (ip : ipv4) : bool :=
  (octet 0 ip =? 10)
  || (octet 0 ip =? 172) && (16 <=? octet 1 ip) && (octet 1 ip <=? 31)
  || (octet 0 ip =? 192) && (octet 1 ip =? 168).
Definition is_link_local (ip : ipv4) : bool := (octet 0 ip =? 169) && (octet 1 ip =? 254).
Definition is_multicast (ip : ipv4) : bool := (224 <=? octet 0 ip) && (octet 0 ip <=? 239).
Definition is_broadcast (ip : ipv4) : bool := ip =? 2 ^ 32 - 1.

(** [IpAddr]: an IPv6 address is a number below [2 ^ 128]. *)
Inductive IpAddr := V4 (a : ipv4) | V6 (a : Z).
#[global] Instance IpAddr_eq_dec : EqDecision IpAddr.
Proof. solve_decision. Defined.
Definition to_canonical (a : IpAddr) : IpAddr :=
  match a with
  | V4 a => V4 a
  | V6 a => if a / 2 ^ 32 =? 65535 then V4 (a mod 2 ^ 32) else V6 a
  end.

Lemma octets_eq ip : octets ip = [octet 0 ip; octet 1 ip; octet 2 ip; octet 3 ip].
Proof. done. Qed.

Lemma octet_range i ip : u8 (octet i ip).
Proof. unfold u8, octet. zlia. Qed.
#[export] Hint Resolve octet_range : porthub.

Lemma ipv4_new_u32 a b c d : u8 a → u8 b → u8 c → u8 d → u32 (ipv4_new a b c d).
Proof. unfold u8, u32, ipv4_new. lia. Qed.
#[export] Hint Resolve ipv4_new_u32 : porthub.

Lemma ipv4_new_octets ip :
  u32 ip → ipv4_new (octet 0 ip) (octet 1 ip) (octet 2 ip) (octet 3 ip) = ip.
Proof.
  unfold u32, ipv4_new, octet. intros.
  change (256 ^ (3 - 0)) with 16777216. change (256 ^ (3 - 1)) with 65536.
  change (256 ^ (3 - 2)) with 256. change (256 ^ (3 - 3)) with 1. zlia.
Qed.

Lemma octets_ipv4_new a b c d :
  u8 a → u8 b → u8 c → u8 d → octets (ipv4_new a b c d) = [a; b; c; d].
Proof.
  unfold u8. intros. rewrite octets_eq. unfold ipv4_new, octet.
  change (256 ^ (3 - 0)) with 16777216. change (256 ^ (3 - 1)) with 65536.
  change (256 ^ (3 - 2)) with 256. change (256 ^ (3 - 3)) with 1.
  repeat f_equal; zlia.
Qed.

(** The three private ranges as intervals of [u32] values. *)
Lemma is_private_ranges ip :
  u32 ip →
  is_private ip = true ↔
    ipv4_new 10 0 0 0 ≤ ip ≤ ipv4_new 10 255 255 255 ∨
    ipv4_new 172 16 0 0 ≤ ip ≤ ipv4_new 172 31 255 255 ∨
    ipv4_new 192 168 0 0 ≤ ip ≤ ipv4_new 192 168 255 255.
Proof.
  unfold u32, is_private, octet, ipv4_new. intros.
  change (256 ^ (3 - 0)) with 16777216. change (256 ^ (3 - 1)) with 65536.
  zlia.
Qed.

(** ** The Internet checksum *)

(** [bytes.as_chunks::<2>().0], each pair read as a big-endian [u16] and summed.
    A trailing odd byte is not part of the chunks. *)
Fixpoint sum_words (l : list Z) : Z :=
  match l with
  | a :: b :: l => u16_from_be a b + sum_words l
  | _ => 0
  end.

(** [while sum > 0xffff { sum = (sum & 0xffff) + (sum >> 16) }], at most [fuel]
    iterations.  [fold_carry_exit] shows that three are enough for a [u32]. *)
Fixpoint fold_carry (fuel : nat) (sum : Z) : Z :=
  match fuel with
  | O => sum
  | S fuel =>
      if 65535 <? sum
      then fold_carry fuel (Z.land sum 65535 + Z.shiftr sum 16)
      else sum
  end.

Lemma carry_step sum :
  Z.land sum 65535 + Z.shiftr sum 16 = sum mod 65536 + sum / 65536.
Proof.
  change 65535 with (Z.ones 16). rewrite Z.land_ones, Z.shiftr_div_pow2 by lia. done.
Qed.

Lemma fold_carry_exit sum : u32 sum → fold_carry 3 sum ≤ 65535.
Proof.
  unfold u32. intros. simpl. rewrite !carry_step.
  repeat case_match; zlia.
Qed.

Lemma fold_carry_nonneg fuel sum : 0 ≤ sum → 0 ≤ fold_carry fuel sum.
Proof.
  revert sum. induction fuel as [|fuel IH]; intros sum H; simpl; [done|].
  case_match; [|done]. rewrite carry_step. apply IH. zlia.
Qed.

(** A carry step keeps the residue modulo [2^16 - 1] and never reaches zero from
    a positive sum. *)
Lemma fold_carry_mod fuel sum : fold_carry fuel sum mod 65535 = sum mod 65535.
Proof.
  revert sum. induction fuel as [|fuel IH]; intros sum; simpl; [done|].
  case_match; [|done]. rewrite carry_step, IH. zlia.
Qed.

Lemma fold_carry_pos fuel sum : 0 < sum → 0 < fold_carry fuel sum.
Proof.
  revert sum. induction fuel as [|fuel IH]; intros sum H; simpl; [done|].
  case_match; [|done]. rewrite carry_step. apply IH. zlia.
Qed.

Lemma sum_words_nonneg l : bytes_ok l → 0 ≤ sum_words l ≤ 65535 * len l.
Proof.
  induction l as [l IH] using (induction_ltof1 _ length).
  destruct l as [|a [|b l]]; intros Hl; simpl; [lia|lia|].
  inversion_clear Hl as [|? ? Ha Hl']. inversion_clear Hl' as [|? ? Hb Hl].
  specialize (IH l). unfold ltof in IH. simpl in IH.
  specialize (IH ltac:(lia) Hl). unfold u8, u16_from_be in *. lia.
Qed.

(** Filling the checksum field with the complement of the folded sum makes the
    whole header fold to [0xffff]. *)
Lemma checksum_fills s :
  0 < s → s + 65535 < 2 ^ 32 →
  fold_carry 3 (s + (65535 - fold_carry 3 s)) = 65535.
Proof.
  intros Hpos Hmax.
  assert (u32 s) as Hs by (unfold u32; lia).
  pose proof (fold_carry_exit s Hs). pose proof (fold_carry_pos 3 s Hpos).
  pose proof (fold_carry_mod 3 s) as Hm.
  set (t := s + (65535 - fold_carry 3 s)).
  assert (u32 t) as Ht by (unfold u32, t; lia).
  pose proof (fold_carry_exit t Ht). pose proof (fold_carry_pos 3 t ltac:(lia)).
  pose proof (fold_carry_mod 3 t) as Ht'.
  assert (t mod 65535 = 0) as E by (unfold t; zlia).
  rewrite E in Ht'. zlia.
Qed.
