(* ===== verification/RustStr.v ===== *)
(** * Rust strings

    The [str] methods the sources call, on [string] as the UTF-8 bytes of the text,
    the decimal parsing and printing of [u8] and [Ipv4Addr] of the standard library, and
    the hexadecimal digits. *)

From S2P Require Import Prelude Net.
Local Open Scope string_scope.
Local Open Scope Z_scope.

(** The byte of a character, and the ASCII classes on bytes. *)
Definition byte_of (a : ascii) : Z := Z.of_N (N_of_ascii a).
Definition is_ascii_digit (b : Z) : bool := (48 <=? b) && (b <=? 57).
Definition is_ascii_uppercase (b : Z) : bool := (65 <=? b) && (b <=? 90).
Definition is_ascii_lowercase (b : Z) : bool := (97 <=? b) && (b <=? 122).
Definition is_ascii_alphanumeric (b : Z) : bool :=
  is_ascii_digit b || is_ascii_uppercase b || is_ascii_lowercase b.
Definition is_ascii_hexdigit (b : Z) : bool :=
  is_ascii_digit b || (65 <=? b) && (b <=? 70) || (97 <=? b) && (b <=? 102).

(** [s.bytes().all(f)] *)
Definition all_bytes (f : Z → bool) (s : string) : bool := forallb f (bytes_of s).

(** [s.split(c)]: always at least one field. *)
Fixpoint split (c : ascii) (s : string) : list string :=
  match s with
  | EmptyString => [""]
  | String a s =>
      if bool_decide (a = c) then "" :: split c s
      else match split c s with
           | f :: fs => String a f :: fs
           | [] => [String a ""]
           end
  end.

(** [s.split_once(c)] *)
Fixpoint split_once (c : ascii) (s : string) : option (string * string) :=
  match s with
  | EmptyString => None
  | String a s =>
      if bool_decide (a = c) then Some ("", s)
      else match split_once c s with
           | Some (l, r) => Some (String a l, r)
           | None => None
           end
  end.

(** [s.strip_prefix(p)], [s.starts_with(p)] *)
Fixpoint strip_prefix (p s : string) : option string :=
  match p, s with
  | EmptyString, _ => Some s
  | String a p, String b s => if bool_decide (a = b) then strip_prefix p s else None
  | String _ _, EmptyString => None
  end.
Definition str_starts_with (p s : string) : bool :=
  match strip_prefix p s with Some _ => true | None => false end.

Definition str_rev (s : string) : string :=
  String.string_of_list_ascii (rev (String.list_ascii_of_string s)).
(** [s.rsplit_once(c)] *)
Definition rsplit_once (c : ascii) (s : string) : option (string * string) :=
  match split_once c (str_rev s) with
  | Some (after, before) => Some (str_rev before, str_rev after)
  | None => None
  end.

(** [s.strip_suffix(p)], [s.ends_with(p)] *)
Definition strip_suffix (p s : string) : option string :=
  str_rev <$> strip_prefix (str_rev p) (str_rev s).
Definition str_ends_with (p s : string) : bool :=
  match strip_suffix p s with Some _ => true | None => false end.

(** [s.contains(c)] for a character. *)
Fixpoint str_contains (c : ascii) (s : string) : bool :=
  match s with
  | EmptyString => false
  | String a s => bool_decide (a = c) || str_contains c s
  end.

(** [s.trim_start_matches(c)], [s.trim_end_matches(c)] for a predicate. *)
Fixpoint trim_start (f : ascii → bool) (s : string) : string :=
  match s with
  | EmptyString => ""
  | String a s' => if f a then trim_start f s' else s
  end.
Definition trim_end (f : ascii → bool) (s : string) : string :=
  str_rev (trim_start f (str_rev s)).

(** [s.to_ascii_lowercase()] *)
Definition lower (a : ascii) : ascii :=
  if is_ascii_uppercase (byte_of a) then ascii_of_N (N_of_ascii a + 32) else a.
Fixpoint to_ascii_lowercase (s : string) : string :=
  match s with
  | EmptyString => ""
  | String a s => String (lower a) (to_ascii_lowercase s)
  end.

(** ** Decimal numbers *)

Definition digit (d : Z) : ascii := ascii_of_N (Z.to_N (48 + d)).

(** [Display] of a [u8]. *)
Definition show_u8 (n : Z) : string :=
  if n <? 10 then String (digit n) ""
  else if n <? 100 then String (digit (n / 10)) (String (digit (n mod 10)) "")
  else String (digit (n / 100)) (String (digit (n / 10 mod 10)) (String (digit (n mod 10)) "")).

(** [Display] of an unsigned integer. *)
Fixpoint show_digits (fuel : nat) (n : Z) (acc : string) : string :=
  match fuel with
  | O => acc
  | S fuel =>
      let acc := String (digit (n mod 10)) acc in
      if n <? 10 then acc else show_digits fuel (n / 10) acc
  end.
Definition show_u128 (n : Z) : string := show_digits 40 n "".

(** [Display] of a signed integer. *)
Definition show_i128 (n : Z) : string :=
  if n <? 0 then "-" +:+ show_u128 (- n) else show_u128 n.

Definition parse_digits (s : string) : option Z :=
  if str_is_empty s || negb (all_bytes is_ascii_digit s) then None
  else Some (foldl (λ acc b, acc * 10 + (b - 48)) 0 (bytes_of s)).

(** [u8::from_str]: an optional [+], decimal digits, at most 255. *)
Definition parse_u8 (s : string) : option Z :=
  n ← parse_digits (match s with String "+" s' => s' | _ => s end);
  if n <=? 255 then Some n else None.

(** One field of [Ipv4Addr::from_str]: one to three digits, no leading zero, at most 255. *)
Definition parse_octet (s : string) : option Z :=
  if slen s <=? 3 then
    if (1 <? slen s) && str_starts_with "0" s then None
    else n ← parse_digits s; if n <=? 255 then Some n else None
  else None.

Definition parse_ipv4 (s : string) : option ipv4 :=
  match split "." s with
  | [a; b; c; d] =>
      a ← parse_octet a; b ← parse_octet b; c ← parse_octet c; d ← parse_octet d;
      Some (ipv4_new a b c d)
  | _ => None
  end.

(** [Display] of an [Ipv4Addr]. *)
Definition show_ipv4 (ip : ipv4) : string :=
  show_u8 (octet 0 ip) +:+ "." +:+ show_u8 (octet 1 ip) +:+ "."
    +:+ show_u8 (octet 2 ip) +:+ "." +:+ show_u8 (octet 3 ip).

(** ** White space *)

Definition str_of_bytes (l : list Z) : string :=
  String.string_of_list_ascii (map (λ b, ascii_of_N (Z.to_N b)) l).

(** The UTF-8 encodings of the characters of Unicode's [White_Space]. *)
Definition white_space : list string := map str_of_bytes
  [[9]; [10]; [11]; [12]; [13]; [32]; [0xc2; 0x85]; [0xc2; 0xa0]; [0xe1; 0x9a; 0x80];
   [0xe2; 0x80; 0x80]; [0xe2; 0x80; 0x81]; [0xe2; 0x80; 0x82]; [0xe2; 0x80; 0x83];
   [0xe2; 0x80; 0x84]; [0xe2; 0x80; 0x85]; [0xe2; 0x80; 0x86]; [0xe2; 0x80; 0x87];
   [0xe2; 0x80; 0x88]; [0xe2; 0x80; 0x89]; [0xe2; 0x80; 0x8a]; [0xe2; 0x80; 0xa8];
   [0xe2; 0x80; 0xa9]; [0xe2; 0x80; 0xaf]; [0xe2; 0x81; 0x9f]; [0xe3; 0x80; 0x80]].

Fixpoint strip_any (ps : list string) (s : string) : option string :=
  match ps with
  | [] => None
  | p :: ps => match strip_prefix p s with Some r => Some r | None => strip_any ps s end
  end.

(** Each round removes at least one byte, so [fuel] as long as the string is enough. *)
Fixpoint strip_all (fuel : nat) (ps : list string) (s : string) : string :=
  match fuel with
  | O => s
  | S fuel => match strip_any ps s with Some r => strip_all fuel ps r | None => s end
  end.

(** [str::trim] *)
Definition str_trim_start (s : string) : string := strip_all (String.length s) white_space s.
Definition str_trim_end (s : string) : string :=
  str_rev (strip_all (String.length s) (map str_rev white_space) (str_rev s)).
Definition str_trim (s : string) : string := str_trim_end (str_trim_start s).

(** ** IP addresses *)

(** The value of a hexadecimal digit. *)
Definition hex_value (b : Z) : option Z :=
  if is_ascii_digit b then Some (b - 48)
  else if (65 <=? b) && (b <=? 70) then Some (b - 55)
  else if (97 <=? b) && (b <=? 102) then Some (b - 87)
  else None.
Definition hex_digit (d : Z) : ascii :=
  ascii_of_N (Z.to_N (if d <? 10 then 48 + d else 87 + d)).

(** [Ipv6Addr::from_str], as the recursive descent parser of the standard library: a
    reader takes the rest of the text and returns a value and the rest after it, or
    fails. *)
Definition reader (A : Type) := string → option (A * string).

(** [read_number(radix, Some(max), allow_zero_prefix)]: the digits are read greedily, more
    than [max] of them fail. *)
Fixpoint read_digits (f : Z → bool) (s : string) : nat * string :=
  match s with
  | String a r => if f (byte_of a) then let '(n, r') := read_digits f r in (S n, r') else (O, s)
  | EmptyString => (O, s)
  end.
Definition hex_number (s : string) : Z :=
  foldl (λ acc b, acc * 16 + default 0 (hex_value b)) 0 (bytes_of s).
Definition read_hex_group : reader Z := λ s,
  let '(n, r) := read_digits is_ascii_hexdigit s in
  if (0 <? n)%nat && (n <=? 4)%nat then Some (hex_number (String.substring 0 n s), r) else None.
Definition read_dec_octet : reader Z := λ s,
  let '(n, r) := read_digits is_ascii_digit s in
  if (0 <? n)%nat && (n <=? 3)%nat
  then v ← parse_octet (String.substring 0 n s); Some (v, r)
  else None.

(** [read_separator(c, i, inner)]: the separator is read except before the first. *)
Definition read_separator {A} (c : ascii) (i : nat) (inner : reader A) : reader A := λ s,
  match i with
  | O => inner s
  | S _ => match s with
           | String a r => if bool_decide (a = c) then inner r else None
           | EmptyString => None
           end
  end.

Definition read_ipv4 : reader ipv4 := λ s,
  '(a, s) ← read_dec_octet s; '(b, s) ← read_separator "." 1 read_dec_octet s;
  '(c, s) ← read_separator "." 1 read_dec_octet s;
  '(d, s) ← read_separator "." 1 read_dec_octet s; Some (ipv4_new a b c d, s).

(** [read_groups] from group [i] with [left] groups of the limit left: the groups read,
    whether they end in an embedded IPv4 address, and the rest. *)
Fixpoint read_groups (left i : nat) (s : string) : list Z * bool * string :=
  match left with
  | O => ([], false, s)
  | S left' =>
      match (if (1 <=? left')%nat then read_separator ":" i read_ipv4 s else None) with
      | Some (a, r) => ([a / 65536; a mod 65536], true, r)
      | None =>
          match read_separator ":" i read_hex_group s with
          | Some (g, r) => let '(gs, v4, r) := read_groups left' (S i) r in (g :: gs, v4, r)
          | None => ([], false, s)
          end
      end
  end.

(** [Ipv6Addr::from([u16; 8])] *)
Definition ipv6_of (groups : list Z) : Z := foldl (λ acc g, acc * 65536 + g) 0 groups.

Definition parse_ipv6 (s : string) : option Z :=
  let '(head, v4, r) := read_groups 8 0 s in
  '(groups, rest) ←
    (if (length head =? 8)%nat then Some (head, r)
     else if v4 then None
     else
       r ← strip_prefix "::" r;
       let '(tail, _, rest) := read_groups (8 - (length head + 1)) 0 r in
       Some (head ++ repeat 0 (8 - length head - length tail) ++ tail, rest)%list);
  match rest with EmptyString => Some (ipv6_of groups) | _ => None end.

(** [s.parse::<IpAddr>()] *)
Definition parse_ip (s : string) : option IpAddr :=
  match parse_ipv4 s with Some a => Some (V4 a) | None => V6 <$> parse_ipv6 s end.
Definition is_ip_addr (s : string) : bool :=
  match parse_ip s with Some _ => true | None => false end.

(** [format!("{:x}")] of a 16-bit number *)
Definition show_hex_group (g : Z) : string :=
  String.string_of_list_ascii (map hex_digit
    (if g <? 16 then [g] else if g <? 256 then [g / 16; g mod 16]
     else if g <? 4096 then [g / 256; g / 16 mod 16; g mod 16]
     else [g / 4096; g / 256 mod 16; g / 16 mod 16; g mod 16])).

Definition ipv6_groups (a : Z) : list Z := map (λ i, a / 65536 ^ (7 - i) mod 65536) (seqZ 0 8).

(** The first longest run of zero groups: its start and its length. *)
Fixpoint zero_runs (i : nat) (start run : nat) (gs : list Z) (best : nat * nat) : nat * nat :=
  let best := if (best.2 <? run)%nat then (start, run) else best in
  match gs with
  | [] => best
  | g :: gs =>
      if g =? 0 then zero_runs (S i) (if (run =? 0)%nat then i else start) (S run) gs best
      else zero_runs (S i) start 0 gs best
  end.

(** [Display] of an [Ipv6Addr] *)
Definition show_ipv6 (a : Z) : string :=
  if a / 2 ^ 32 =? 65535 then "::ffff:" +:+ show_ipv4 (a mod 2 ^ 32)
  else
    let gs := ipv6_groups a in
    let show l := String.concat ":" (map show_hex_group l) in
    let '(start, run) := zero_runs 0 0 0 gs (O, O) in
    if (1 <? run)%nat then show (take start gs) +:+ "::" +:+ show (drop (start + run) gs)
    else show gs.
Definition show_ip (a : IpAddr) : string :=
  match a with V4 a => show_ipv4 a | V6 a => show_ipv6 a end.

(** ** Hexadecimal and lines *)

(** [u8::from_str_radix(.., 16)] on two characters (a plus sign is accepted), and
    [format!("{:02x}")] and [format!("{:02X}")]. *)
Definition hex_byte (a b : Z) : option Z :=
  if a =? 43 then hex_value b
  else x ← hex_value a; y ← hex_value b; Some (x * 16 + y).
Definition show_hex (b : Z) : string :=
  String (hex_digit (b / 16)) (String (hex_digit (b mod 16)) "").
Definition upper_hex_digit (d : Z) : ascii :=
  ascii_of_N (Z.to_N (if d <? 10 then 48 + d else 55 + d)).
Definition show_upper_hex (b : Z) : string :=
  String (upper_hex_digit (b / 16)) (String (upper_hex_digit (b mod 16)) "").

(** [str::lines]: split at newlines, a final carriage return of a line is dropped, and
    no empty line after the last newline. *)
Definition strip_cr (line : string) : string :=
  default line (strip_suffix (String (ascii_of_N 13) "") line).
Definition str_lines (s : string) : list string :=
  let fields := split (ascii_of_N 10) s in
  let fields := match last fields with
                | Some EmptyString => removelast fields
                | _ => fields
                end in
  map strip_cr fields.

(** [join(sep)] *)
Fixpoint join (sep : string) (l : list string) : string :=
  match l with
  | [] => ""
  | [s] => s
  | s :: l => s +:+ sep +:+ join sep l
  end.

(** ** Lemmas *)

Lemma split_nonempty c s : split c s ≠ [].
Proof. destruct s as [|a s]; simpl; [done|]. case_bool_decide; [done|]. by destruct (split c s). Qed.

Lemma split_none c s : str_contains c s = false → split c s = [s].
Proof.
  induction s as [|a s IH]; simpl; [done|].
  intros [Ha Hs]%orb_false_iff. rewrite Ha, IH by done. done.
Qed.

Lemma split_app c s t :
  str_contains c s = false → split c (s +:+ String c t) = s :: split c t.
Proof.
  induction s as [|a s IH]; simpl.
  - intros _. by rewrite bool_decide_true.
  - intros [Ha Hs]%orb_false_iff. by rewrite Ha, IH.
Qed.

Lemma split_once_app c s t :
  str_contains c s = false → split_once c (s +:+ String c t) = Some (s, t).
Proof.
  induction s as [|a s IH]; simpl.
  - intros _. by rewrite bool_decide_true.
  - intros [Ha Hs]%orb_false_iff. by rewrite Ha, IH.
Qed.

Lemma str_contains_app c s t :
  str_contains c (s +:+ t) = str_contains c s || str_contains c t.
Proof. induction s as [|a s IH]; simpl; [done|]. rewrite IH. by rewrite orb_assoc. Qed.

(** A check of every [u8], by evaluation. *)
Definition for_u8 (f : Z → bool) : bool := forallb f (seqZ 0 256).

Lemma for_u8_spec f n : for_u8 f = true → u8 n → f n = true.
Proof.
  unfold for_u8. rewrite forallb_forall. intros H Hn. apply H.
  apply list_elem_of_In, elem_of_seqZ. unfold u8 in Hn. lia.
Qed.

Lemma show_u8_facts n : u8 n →
  parse_octet (show_u8 n) = Some n ∧ parse_u8 (show_u8 n) = Some n ∧
  str_contains "." (show_u8 n) = false ∧ str_contains "/" (show_u8 n) = false ∧
  slen (show_u8 n) ≤ 3.
Proof.
  intros Hn. assert (for_u8 (λ n, bool_decide (
    parse_octet (show_u8 n) = Some n ∧ parse_u8 (show_u8 n) = Some n ∧
    str_contains "." (show_u8 n) = false ∧ str_contains "/" (show_u8 n) = false ∧
    slen (show_u8 n) ≤ 3)) = true) as H by (vm_compute; reflexivity).
  by apply (for_u8_spec _ n) in H as ?%bool_decide_eq_true_1.
Qed.

Lemma show_u8_prefix n : 0 ≤ n ≤ 99 → slen (show_u8 n) ≤ 2.
Proof.
  intros Hn. assert (for_u8 (λ n, (99 <? n) || (slen (show_u8 n) <=? 2)) = true) as H
    by (vm_compute; reflexivity).
  apply (for_u8_spec _ n) in H; [lia|unfold u8; lia].
Qed.

Lemma parse_show_ipv4 ip : u32 ip → parse_ipv4 (show_ipv4 ip) = Some ip.
Proof.
  intros Hip. unfold parse_ipv4, show_ipv4.
  destruct (show_u8_facts _ (octet_range 0 ip)) as (Ha & _ & Hda & _).
  destruct (show_u8_facts _ (octet_range 1 ip)) as (Hb & _ & Hdb & _).
  destruct (show_u8_facts _ (octet_range 2 ip)) as (Hc & _ & Hdc & _).
  destruct (show_u8_facts _ (octet_range 3 ip)) as (Hd & _ & Hdd & _).
  repeat progress change ("." +:+ ?x) with (String "." x).
  rewrite !split_app, split_none by done.
  rewrite Ha, Hb, Hc, Hd. simpl. by rewrite ipv4_new_octets.
Qed.

Lemma show_ipv4_no_slash ip : str_contains "/" (show_ipv4 ip) = false.
Proof.
  unfold show_ipv4. rewrite !str_contains_app.
  destruct (show_u8_facts _ (octet_range 0 ip)) as (_ & _ & _ & -> & _).
  destruct (show_u8_facts _ (octet_range 1 ip)) as (_ & _ & _ & -> & _).
  destruct (show_u8_facts _ (octet_range 2 ip)) as (_ & _ & _ & -> & _).
  destruct (show_u8_facts _ (octet_range 3 ip)) as (_ & _ & _ & -> & _).
  done.
Qed.

(** ** Reversal, prefixes and suffixes *)

Lemma list_ascii_app s t :
  String.list_ascii_of_string (s +:+ t) = (String.list_ascii_of_string s ++ String.list_ascii_of_string t)%list.
Proof. induction s as [|a s IH]; simpl; [done|]. by rewrite IH. Qed.

Lemma string_of_app (l k : list ascii) :
  String.string_of_list_ascii (l ++ k)%list = String.string_of_list_ascii l +:+ String.string_of_list_ascii k.
Proof. induction l as [|a l IH]; simpl; [done|]. by rewrite IH. Qed.

Lemma str_app_assoc s t u : (s +:+ t) +:+ u = s +:+ (t +:+ u).
Proof. induction s as [|a s IH]; [done|]. exact (f_equal (String a) IH). Qed.

Lemma str_rev_app s t : str_rev (s +:+ t) = str_rev t +:+ str_rev s.
Proof. unfold str_rev. by rewrite list_ascii_app, rev_app_distr, string_of_app. Qed.

Lemma str_rev_involutive s : str_rev (str_rev s) = s.
Proof.
  unfold str_rev. rewrite String.list_ascii_of_string_of_list_ascii, rev_involutive.
  apply String.string_of_list_ascii_of_string.
Qed.

Lemma strip_prefix_spec p s r : strip_prefix p s = Some r ↔ s = p +:+ r.
Proof.
  revert s. induction p as [|a p IH]; intros s; simpl.
  - split; [by intros [= ->]|by intros ->].
  - destruct s as [|b s]; [done|]. case_bool_decide as E.
    + subst b. rewrite IH. split; [by intros ->|by intros [= ->]].
    + split; [done|]. intros [= -> _]. done.
Qed.

Lemma strip_suffix_spec p s r : strip_suffix p s = Some r ↔ s = r +:+ p.
Proof.
  unfold strip_suffix. rewrite fmap_Some. split.
  - intros (x & Hx%strip_prefix_spec & ->). apply (f_equal str_rev) in Hx.
    by rewrite str_rev_involutive, str_rev_app, str_rev_involutive in Hx.
  - intros ->. exists (str_rev r). rewrite str_rev_involutive. split; [|done].
    apply strip_prefix_spec. by rewrite str_rev_app.
Qed.

Lemma str_starts_with_spec p s : str_starts_with p s = true ↔ ∃ r, s = p +:+ r.
Proof.
  unfold str_starts_with. destruct (strip_prefix p s) as [r|] eqn:E.
  - apply strip_prefix_spec in E. split; eauto.
  - split; [done|]. intros [r Hr%strip_prefix_spec]. congruence.
Qed.

Lemma str_ends_with_spec p s : str_ends_with p s = true ↔ ∃ r, s = r +:+ p.
Proof.
  unfold str_ends_with. destruct (strip_suffix p s) as [r|] eqn:E.
  - apply strip_suffix_spec in E. split; eauto.
  - split; [done|]. intros [r Hr%strip_suffix_spec]. congruence.
Qed.

Lemma bytes_of_app s t : bytes_of (s +:+ t) = (bytes_of s ++ bytes_of t)%list.
Proof. unfold bytes_of. by rewrite list_ascii_app, map_app. Qed.

Lemma bytes_of_rev s : bytes_of (str_rev s) = rev (bytes_of s).
Proof.
  unfold bytes_of, str_rev. by rewrite String.list_ascii_of_string_of_list_ascii, map_rev.
Qed.

Lemma all_bytes_cons f a s : all_bytes f (String a s) = f (byte_of a) && all_bytes f s.
Proof. reflexivity. Qed.

Lemma all_bytes_app f s t : all_bytes f (s +:+ t) = all_bytes f s && all_bytes f t.
Proof. unfold all_bytes. by rewrite bytes_of_app, forallb_app. Qed.

Lemma all_bytes_rev f s : all_bytes f (str_rev s) = all_bytes f s.
Proof.
  unfold all_bytes. rewrite bytes_of_rev. generalize (bytes_of s) as l.
  induction l as [|b l IH]; simpl; [done|]. rewrite forallb_app, IH. simpl.
  by rewrite andb_true_r, andb_comm.
Qed.

Lemma slen_app s t : slen (s +:+ t) = slen s + slen t.
Proof. unfold slen. induction s as [|a s IH]; [done|]. simpl. rewrite !Nat2Z.inj_succ, IH. lia. Qed.

Lemma str_rev_nonempty s : s ≠ "" → ∃ a r, str_rev s = String a r.
Proof.
  intros Hs. destruct (str_rev s) as [|a r] eqn:E; [|eauto].
  apply (f_equal str_rev) in E. rewrite str_rev_involutive in E. done.
Qed.

Lemma strip_all_none n ps s : strip_any ps s = None → strip_all n ps s = s.
Proof. intros H. destruct n; simpl; [done|]. by rewrite H. Qed.

Lemma split_join c l :
  Forall (λ s, str_contains c s = false) l → l ≠ [] → split c (join (String c "") l) = l.
Proof.
  induction 1 as [|s l Hs Hl IH]; [done|]. intros _. destruct l as [|t l]; [by apply split_none|].
  change (join (String c "") (s :: t :: l)) with (s +:+ String c (join (String c "") (t :: l))).
  rewrite split_app by done. by rewrite IH.
Qed.

(** ** Trimming *)

Lemma strip_any_Some ps s r : strip_any ps s = Some r → ∃ p, p ∈ ps ∧ s = p +:+ r.
Proof.
  induction ps as [|p ps IH]; simpl; [done|].
  destruct (strip_prefix p s) as [r'|] eqn:E.
  - intros [= ->]. apply strip_prefix_spec in E. exists p. split; [left|done].
  - intros (q & Hq & ->)%IH. exists q. split; [by right|done].
Qed.
Lemma strip_any_None ps s : strip_any ps s = None ↔ ∀ p r, p ∈ ps → s ≠ p +:+ r.
Proof.
  induction ps as [|p ps IH]; simpl.
  - split; [|done]. intros _ p r H. by apply not_elem_of_nil in H.
  - destruct (strip_prefix p s) as [r'|] eqn:E.
    + apply strip_prefix_spec in E. split; [done|]. intros H. exfalso. by apply (H p r'); [left|].
    + rewrite IH. split.
      * intros H q r [->|Hq]%elem_of_cons; [|by apply H].
        intros E'%strip_prefix_spec. congruence.
      * intros H q r Hq. apply H. by right.
Qed.

Lemma strip_all_exhausted ps : Forall (λ p, p ≠ "") ps →
  ∀ n s, (String.length s ≤ n)%nat → strip_any ps (strip_all n ps s) = None.
Proof.
  intros Hps n. induction n as [|n IH]; intros s Hn; simpl.
  - apply strip_any_None. intros p r Hp E. rewrite Forall_forall in Hps.
    destruct p as [|a p]; [by apply (Hps "")|]. subst s. simpl in Hn. lia.
  - destruct (strip_any ps s) as [r|] eqn:E; [|done]. apply IH.
    apply strip_any_Some in E as (p & Hp & ->). rewrite Forall_forall in Hps.
    destruct p as [|a p]; [by apply (Hps "") in Hp|].
    assert (slen (String a p +:+ r) = slen (String a p) + slen r) as El by apply slen_app.
    unfold slen in El. simpl in El, Hn |- *. lia.
Qed.
Lemma strip_all_suffix ps n s : ∃ p, s = p +:+ strip_all n ps s.
Proof.
  revert s. induction n as [|n IH]; intros s; simpl; [by exists ""|].
  destruct (strip_any ps s) as [r|] eqn:E; [|by exists ""].
  apply strip_any_Some in E as (q & _ & ->). destruct (IH r) as [p E].
  exists (q +:+ p). by rewrite str_app_assoc, <- E.
Qed.
Lemma length_str_rev s : String.length (str_rev s) = String.length s.
Proof.
  induction s as [|a s IH]; [done|].
  change (str_rev (String a s)) with (str_rev (String a "" +:+ s)).
  rewrite str_rev_app. pose proof (slen_app (str_rev s) (str_rev (String a ""))) as E.
  unfold slen in E. simpl in E |- *. lia.
Qed.

(** Stripping at both ends, once more. *)
Section strip_both.
Variable ps : list string.
Hypothesis ps_nonempty : Forall (λ p, p ≠ "") ps.
Hypothesis ps_rev_nonempty : Forall (λ p, p ≠ "") (map str_rev ps).
Definition strip_left (s : string) : string := strip_all (String.length s) ps s.
Definition strip_right (s : string) : string :=
  str_rev (strip_all (String.length s) (map str_rev ps) (str_rev s)).
Lemma strip_both_idem s :
  strip_right (strip_left (strip_right (strip_left s))) = strip_right (strip_left s).
Proof.
  set (t := strip_right (strip_left s)).
  assert (strip_any (map str_rev ps) (str_rev t) = None) as H2.
  { unfold t, strip_right. rewrite str_rev_involutive.
    apply strip_all_exhausted; [done|]. by rewrite length_str_rev. }
  assert (strip_any ps t = None) as H0.
  { apply strip_any_None. intros p r Hp E.
    assert (strip_any ps (strip_left s) = None) as H1 by by apply strip_all_exhausted.
    rewrite strip_any_None in H1.
    destruct (strip_all_suffix (map str_rev ps) (String.length (strip_left s)) (str_rev (strip_left s)))
      as [q E'].
    apply (f_equal str_rev) in E'. rewrite str_rev_app, str_rev_involutive in E'.
    change (str_rev (strip_all _ _ _)) with t in E'.
    apply (H1 p (r +:+ str_rev q) Hp). by rewrite E', E, str_app_assoc. }
  unfold strip_left at 1. rewrite strip_all_none by done.
  unfold strip_right. rewrite strip_all_none by done. apply str_rev_involutive.
Qed.
Lemma strip_both_around s : ∃ p q, s = p +:+ (strip_right (strip_left s) +:+ q).
Proof.
  destruct (strip_all_suffix ps (String.length s) s) as [p E].
  fold (strip_left s) in E. set (t := strip_left s) in *.
  destruct (strip_all_suffix (map str_rev ps) (String.length t) (str_rev t)) as [q E'].
  exists p, (str_rev q). rewrite E at 1. f_equal.
  apply (f_equal str_rev) in E'. by rewrite str_rev_app, str_rev_involutive in E'.
Qed.
End strip_both.

(** [str::trim] *)
Lemma str_trim_idem s : str_trim (str_trim s) = str_trim s.
Proof.
  apply (strip_both_idem white_space); apply (bool_decide_unpack _); vm_compute; exact I.
Qed.
Lemma str_trim_around s : ∃ p q, s = p +:+ (str_trim s +:+ q).
Proof. exact (strip_both_around white_space s). Qed.
