(* ===== verification/Text.v ===== *)
(** * Text: characters, UTF-8 and decimal numbers

    A string is its bytes; this file has what the standard library reads in them: the
    characters, the UTF-8 decoder and its lossy variant, unsigned decimal numbers. *)

From S2P Require Import Prelude Net RustStr.
Local Open Scope string_scope.
Local Open Scope list_scope.
Local Open Scope Z_scope.

(** ** Characters of a UTF-8 string *)

Definition is_continuation (b : Z) : bool := (128 <=? b) && (b <? 192).

(** Each character with its continuation bytes; the first component collects the
    continuation bytes that belong to the character before. *)
Fixpoint chars_from (s : string) : string * list string :=
  match s with
  | EmptyString => ("", [])
  | String a s =>
      let '(pending, cs) := chars_from s in
      if is_continuation (byte_of a) then (String a pending, cs) else ("", String a pending :: cs)
  end.
(** [str::chars], each as its bytes. *)
Definition str_chars (s : string) : list string := (chars_from s).2.
Definition char_count (s : string) : Z := len (str_chars s).

(** The code point of a character. *)
Definition code_point (c : string) : Z :=
  match bytes_of c with
  | [a] => a
  | [a; b] => (a - 192) * 64 + (b - 128)
  | [a; b; c] => ((a - 224) * 64 + (b - 128)) * 64 + (c - 128)
  | [a; b; c; d] => (((a - 240) * 64 + (b - 128)) * 64 + (c - 128)) * 64 + (d - 128)
  | _ => 0
  end.

(** [char::is_control] *)
Definition is_control (c : Z) : bool := (c <? 32) || (127 <=? c) && (c <? 160).

(** ** UTF-8 *)

(** The bytes of the first character, or of the longest invalid prefix, as the decoder of
    the standard library reads them. *)
Definition utf8_width (b : Z) : Z :=
  if b <? 128 then 1
  else if (0xc2 <=? b) && (b <=? 0xdf) then 2
  else if (0xe0 <=? b) && (b <=? 0xef) then 3
  else if (0xf0 <=? b) && (b <=? 0xf4) then 4
  else 0.
Definition utf8_second (a b : Z) : bool :=
  let '(lo, hi) :=
    if a =? 0xe0 then (0xa0, 0xbf) else if a =? 0xed then (0x80, 0x9f)
    else if a =? 0xf0 then (0x90, 0xbf) else if a =? 0xf4 then (0x80, 0x8f)
    else (0x80, 0xbf) in
  (lo <=? b) && (b <=? hi).
Definition utf8_rest (b : Z) : bool := (0x80 <=? b) && (b <=? 0xbf).
Definition utf8_chunk (l : list Z) : nat * bool :=
  match l with
  | [] => (O, true)
  | a :: l =>
      let w := utf8_width a in
      if w =? 1 then (1%nat, true)
      else if w =? 0 then (1%nat, false)
      else match l with
           | b :: l =>
               if negb (utf8_second a b) then (1%nat, false)
               else if w =? 2 then (2%nat, true)
               else match l with
                    | c :: l =>
                        if negb (utf8_rest c) then (2%nat, false)
                        else if w =? 3 then (3%nat, true)
                        else match l with
                             | d :: _ => if utf8_rest d then (4%nat, true) else (3%nat, false)
                             | [] => (3%nat, false)
                             end
                    | [] => (2%nat, false)
                    end
           | [] => (1%nat, false)
           end
  end.
(** [str::from_utf8]; every chunk takes at least one byte. *)
Fixpoint utf8_valid (fuel : nat) (l : list Z) : bool :=
  match fuel, l with
  | _, [] => true
  | O, _ => false
  | S fuel, _ => let '(n, ok) := utf8_chunk l in ok && utf8_valid fuel (drop n l)
  end.
Definition from_utf8 (l : list Z) : option string :=
  if utf8_valid (length l) l then Some (str_of_bytes l) else None.

(** [String::from_utf8_lossy]: every invalid sequence becomes U+FFFD. *)
Fixpoint lossy_bytes (fuel : nat) (l : list Z) : list Z :=
  match fuel, l with
  | _, [] => []
  | O, _ => []
  | S fuel, _ =>
      let '(n, ok) := utf8_chunk l in
      (if (ok : bool) then take n l else [239; 191; 189]) ++ lossy_bytes fuel (drop n l)
  end.
Definition from_utf8_lossy (l : list Z) : string := str_of_bytes (lossy_bytes (length l) l).

(** [a.eq_ignore_ascii_case(b)] *)
Definition eq_ignore_ascii_case (a b : string) : bool :=
  bool_decide (to_ascii_lowercase a = to_ascii_lowercase b).

(** [u64::from_str] and the narrower types: an optional plus sign and digits. *)
Definition parse_uint (max : Z) (s : string) : option Z :=
  n ← parse_digits (match s with String "+" s' => s' | _ => s end);
  if n <=? max then Some n else None.

(** ** Lemmas on characters *)

Definition is_ascii (a : ascii) : bool := byte_of a <? 128.

Lemma char_count_cons a s :
  char_count (String a s) = char_count s + (if is_continuation (byte_of a) then 0 else 1).
Proof.
  unfold char_count, str_chars. simpl. destruct (chars_from s) as [pending cs].
  destruct (is_continuation (byte_of a)); simpl; lia.
Qed.
Lemma char_count_app s t : char_count (s +:+ t) = char_count s + char_count t.
Proof.
  induction s as [|a s IH]; [done|]. change (String a s +:+ t) with (String a (s +:+ t)).
  rewrite !char_count_cons, IH. lia.
Qed.
Lemma char_count_nonneg s : 0 ≤ char_count s.
Proof. unfold char_count. lia. Qed.

Lemma ascii_not_continuation a : is_ascii a = true → is_continuation (byte_of a) = false.
Proof. unfold is_ascii, is_continuation. lia. Qed.

Lemma chars_from_ascii s :
  Forall (λ a, is_ascii a = true) (String.list_ascii_of_string s) →
  chars_from s = ("", map (λ a, String a "") (String.list_ascii_of_string s)).
Proof.
  induction s as [|a s IH]; simpl; [done|]. intros [Ha Hs]%Forall_cons.
  rewrite IH by done. by rewrite ascii_not_continuation.
Qed.
Lemma str_chars_ascii s :
  Forall (λ a, is_ascii a = true) (String.list_ascii_of_string s) →
  str_chars s = map (λ a, String a "") (String.list_ascii_of_string s).
Proof. intros H. unfold str_chars. by rewrite chars_from_ascii. Qed.

Lemma str_concat_cons s l : String.concat "" (s :: l) = s +:+ String.concat "" l.
Proof.
  destruct l as [|t l]; [|done]. simpl. induction s as [|a s IH]; [done|]. exact (f_equal (String a) IH).
Qed.
Lemma str_concat_app l k : String.concat "" (l ++ k) = String.concat "" l +:+ String.concat "" k.
Proof.
  induction l as [|s l IH]; [done|]. cbn [app]. by rewrite !str_concat_cons, IH, str_app_assoc.
Qed.

Lemma chars_from_app s t : (chars_from t).1 = "" →
  chars_from (s +:+ t) = ((chars_from s).1, (chars_from s).2 ++ (chars_from t).2).
Proof.
  intros Ht. induction s as [|a s IH]; simpl.
  { change ("" +:+ t) with t. revert Ht. destruct (chars_from t). simpl. by intros ->. }
  rewrite IH. destruct (chars_from s) as [pd cs]. simpl. by destruct (is_continuation _).
Qed.
Lemma chars_from_chars s :
  chars_from (chars_from s).1 = ((chars_from s).1, []) ∧
  Forall (λ c, chars_from c = ("", [c])) (chars_from s).2.
Proof.
  induction s as [|a s [IH1 IH2]]; simpl; [by split|].
  destruct (chars_from s) as [pd cs]. simpl in *. destruct (is_continuation (byte_of a)) eqn:Ea; simpl.
  - rewrite Ea, IH1. done.
  - split; [done|]. constructor; [|done]. simpl. by rewrite IH1, Ea.
Qed.
Lemma chars_from_concat l :
  Forall (λ c, chars_from c = ("", [c])) l → chars_from (String.concat "" l) = ("", l).
Proof.
  induction 1 as [|c l Hc Hl IH]; [done|]. rewrite str_concat_cons, chars_from_app; rewrite IH; [|done].
  by rewrite Hc.
Qed.
Lemma whole_concat l : Forall (λ g, (chars_from g).1 = "") l → (chars_from (String.concat "" l)).1 = "".
Proof.
  induction 1 as [|g l Hg Hl IH]; [done|]. rewrite str_concat_cons, chars_from_app by done. done.
Qed.
Lemma chars_concat s : s = (chars_from s).1 +:+ String.concat "" (chars_from s).2.
Proof.
  induction s as [|a s IH]; [done|]. simpl. destruct (chars_from s) as [pd cs]. simpl in IH.
  destruct (is_continuation _); [rewrite IH at 1; done|]. cbn [fst snd]. rewrite str_concat_cons.
  rewrite IH at 1. done.
Qed.
(** ** Decimal digits *)

Definition digit_values (l : list Z) : Prop := Forall (λ d, 0 ≤ d < 10) l.
Definition digit_string (l : list Z) : string := String.string_of_list_ascii (map digit l).

Lemma digit_byte d : 0 ≤ d < 10 → byte_of (digit d) = 48 + d.
Proof.
  intros Hd. assert (d ∈ seqZ 0 10) as H by (apply elem_of_seqZ; lia).
  vm_compute in H. set_unfold in H. destruct_or! H; subst d; first [reflexivity|done].
Qed.

Lemma show_digits_spec fuel : ∀ n acc k, 0 ≤ n < 10 ^ k → 1 ≤ k ≤ Z.of_nat fuel →
  ∃ ds, show_digits fuel n acc = digit_string ds +:+ acc ∧ digit_values ds ∧ ds ≠ [] ∧
    len ds ≤ k ∧ ∀ z, foldl (λ a d, a * 10 + d) z ds = z * 10 ^ len ds + n.
Proof.
  induction fuel as [|fuel IH]; intros n acc k Hn Hk; [lia|]. simpl.
  assert (0 ≤ n mod 10 < 10) as Hm by (apply Z.mod_pos_bound; lia).
  destruct (n <? 10) eqn:En.
  - exists [n mod 10]. split_and!; [done|by apply Forall_singleton|done|simpl; lia|].
    intros z. simpl. rewrite Z.mod_small by lia. lia.
  - apply Z.ltb_ge in En.
    assert (2 ≤ k) as Hk2. { destruct (decide (k = 1)) as [->|]; [simpl in Hn|]; lia. }
    assert (0 ≤ n / 10 < 10 ^ (k - 1)) as Hq.
    { split; [apply Z.div_pos; lia|]. apply Z.div_lt_upper_bound; [lia|].
      rewrite <- Z.pow_succ_r by lia. replace (Z.succ (k - 1)) with k by lia. lia. }
    destruct (IH (n / 10) (String (digit (n mod 10)) acc) (k - 1) Hq) as (ds & -> & Hds & Hne & Hl & Hf);
      [lia|].
    exists (ds ++ [n mod 10]). unfold digit_string. rewrite map_app, string_of_app.
    split_and!.
    + by rewrite str_app_assoc.
    + apply Forall_app; split; [done|by apply Forall_singleton].
    + by destruct ds.
    + rewrite length_app. simpl. lia.
    + intros z. rewrite foldl_app, Hf, length_app. simpl.
      rewrite Nat2Z.inj_add, Z.pow_add_r by lia. change (10 ^ Z.of_nat 1) with 10.
      pose proof (Z.div_mod n 10). lia.
Qed.
Lemma show_u128_spec n k : 0 ≤ n < 10 ^ k → 1 ≤ k ≤ 40 →
  ∃ ds, show_u128 n = digit_string ds ∧ digit_values ds ∧ ds ≠ [] ∧ len ds ≤ k ∧
    foldl (λ a d, a * 10 + d) 0 ds = n.
Proof.
  intros Hn Hk. destruct (show_digits_spec 40 n "" k Hn) as (ds & E & Hds & Hne & Hl & Hf); [lia|].
  exists ds. split_and!; [|done..|].
  - unfold show_u128. rewrite E. generalize (digit_string ds) as s.
    induction s as [|a s IH]; [done|]. exact (f_equal (String a) IH).
  - rewrite Hf. lia.
Qed.

Lemma digit_string_list ds : String.list_ascii_of_string (digit_string ds) = map digit ds.
Proof. unfold digit_string. apply String.list_ascii_of_string_of_list_ascii. Qed.
Lemma digit_string_bytes ds : digit_values ds → bytes_of (digit_string ds) = map (Z.add 48) ds.
Proof.
  intros H. unfold bytes_of. rewrite digit_string_list, map_map. apply map_ext_in.
  intros d Hd. apply digit_byte. by eapply (proj1 (Forall_forall _ _) H), list_elem_of_In.
Qed.
Lemma digit_string_head ds : digit_values ds → ds ≠ [] →
  ∃ a r, digit_string ds = String a r ∧ is_ascii_digit (byte_of a) = true.
Proof.
  destruct ds as [|d ds]; [done|]. intros [Hd _]%Forall_cons _. exists (digit d), (digit_string ds).
  split; [done|]. rewrite digit_byte by done. unfold is_ascii_digit. lia.
Qed.
(** Printing and parsing a decimal number. *)
Lemma parse_show_uint max n : 0 ≤ n ≤ max → max < 10 ^ 40 → parse_uint max (show_u128 n) = Some n.
Proof.
  intros Hn Hm. destruct (show_u128_spec n 40) as (ds & -> & Hds & Hne & _ & Hf); [lia..|].
  destruct (digit_string_head ds Hds Hne) as (a & r & E & Ha).
  assert (parse_digits (digit_string ds) = Some n) as Hp.
  { unfold parse_digits. rewrite E at 1. change (str_is_empty (String a r)) with false.
    assert (all_bytes is_ascii_digit (digit_string ds) = true) as ->.
    { unfold all_bytes. rewrite digit_string_bytes by done. apply forallb_forall.
      intros b [d [<- Hd%list_elem_of_In]]%in_map_iff.
      apply (proj1 (Forall_forall _ _) Hds) in Hd. unfold is_ascii_digit. lia. }
    simpl. f_equal. rewrite digit_string_bytes by done. rewrite <- Hf at 1. clear. generalize 0 as z.
    induction ds as [|d ds IH]; intros z; [done|]. simpl. rewrite IH. f_equal. lia. }
  unfold parse_uint.
  assert (match digit_string ds with String "+" s' => s' | _ => digit_string ds end = digit_string ds) as ->.
  { rewrite E. destruct a as [[] [] [] [] [] [] [] []]; first [reflexivity|discriminate Ha]. }
  rewrite Hp. simpl. by rewrite (proj2 (Z.leb_le n max)) by lia.
Qed.
Lemma digits_contain c ds : digit_values ds → is_ascii_digit (byte_of c) = false →
  str_contains c (digit_string ds) = false.
Proof.
  intros Hds Hc. induction Hds as [|d ds Hd Hds IH]; [done|].
  change (digit_string (d :: ds)) with (String (digit d) (digit_string ds)). simpl. rewrite IH.
  rewrite bool_decide_false; [done|]. intros <-. rewrite digit_byte in Hc by done.
  unfold is_ascii_digit in Hc. lia.
Qed.
Lemma show_u128_no n c : 0 ≤ n < 10 ^ 40 → is_ascii_digit (byte_of c) = false →
  str_contains c (show_u128 n) = false.
Proof.
  intros Hn. destruct (show_u128_spec n 40) as (ds & -> & Hds & _); [lia..|]. by apply digits_contain.
Qed.

(** ** Valid UTF-8 *)

(** One character: a lead byte with its continuation bytes, none after an ASCII byte. *)
Definition valid_char (c : string) : Prop :=
  chars_from c = ("", [c]) ∧
  match c with String a r => is_ascii a = true → r = "" | EmptyString => False end.
Definition utf8 (s : string) : Prop := (chars_from s).1 = "" ∧ Forall valid_char (str_chars s).

Lemma utf8_concat l : Forall valid_char l → utf8 (String.concat "" l) ∧ str_chars (String.concat "" l) = l.
Proof.
  intros Hl. assert (chars_from (String.concat "" l) = ("", l)) as E.
  { apply chars_from_concat. eapply Forall_impl; [exact Hl|]. by intros c [? _]. }
  unfold utf8, str_chars. by rewrite E.
Qed.
Lemma utf8_app s t :
  utf8 s → utf8 t → utf8 (s +:+ t) ∧ str_chars (s +:+ t) = str_chars s ++ str_chars t.
Proof.
  intros [Hs1 Hs2] [Ht1 Ht2]. unfold utf8, str_chars in *. rewrite chars_from_app by done.
  simpl. split; [split; [done|by apply Forall_app]|done].
Qed.
Lemma ascii_char a : is_ascii a = true → valid_char (String a "").
Proof. intros Ha. split; [|done]. simpl. by rewrite ascii_not_continuation. Qed.
Lemma utf8_cons a s : is_ascii a = true →
  utf8 (String a s) → utf8 s ∧ str_chars (String a s) = String a "" :: str_chars s.
Proof.
  intros Ha [H1 H2]. unfold utf8, str_chars in *. simpl in *. destruct (chars_from s) as [pd cs].
  rewrite ascii_not_continuation in * by done. simpl in *. apply Forall_cons in H2 as [[_ Hc] H2].
  by rewrite (Hc Ha) in *.
Qed.

Definition ascii_string (s : string) : Prop :=
  Forall (λ a, is_ascii a = true) (String.list_ascii_of_string s).
Lemma ascii_utf8 s : ascii_string s → utf8 s.
Proof.
  intros H. unfold utf8, str_chars. rewrite chars_from_ascii by done. split; [done|].
  apply Forall_map. eapply Forall_impl; [exact H|]. by apply ascii_char.
Qed.
Lemma utf8_drop_ascii p s : ascii_string p →
  utf8 (p +:+ s) → utf8 s ∧ str_chars (p +:+ s) = str_chars p ++ str_chars s.
Proof.
  induction p as [|a p IH]; [by intros _ H|]. intros [Ha Hp]%Forall_cons H.
  change (String a p +:+ s) with (String a (p +:+ s)) in *.
  apply utf8_cons in H as [H ->]; [|done]. destruct (IH Hp H) as [Hs ->]. split; [done|].
  rewrite (str_chars_ascii p Hp), (str_chars_ascii (String a p)); [done|]. by constructor.
Qed.
Lemma utf8_take_ascii s q : ascii_string q →
  utf8 (s +:+ q) → utf8 s ∧ str_chars (s +:+ q) = str_chars s ++ str_chars q.
Proof.
  intros Hq H. destruct (ascii_utf8 q Hq) as [Hq1 _]. unfold utf8, str_chars in *.
  rewrite chars_from_app in * by done. simpl in *. destruct H as [H1 [H2 _]%Forall_app]. done.
Qed.

(** ** The decoders give valid text *)

Definition ascii_of (b : Z) : ascii := ascii_of_N (Z.to_N b).
Lemma byte_of_ascii b : u8 b → byte_of (ascii_of b) = b.
Proof.
  intros Hb. unfold byte_of, ascii_of. rewrite N_ascii_embedding; [|unfold u8 in Hb; lia]. 
  unfold u8 in Hb. lia.
Qed.
Lemma str_of_bytes_app l k : str_of_bytes (l ++ k) = str_of_bytes l +:+ str_of_bytes k.
Proof. unfold str_of_bytes. by rewrite map_app, string_of_app. Qed.

Lemma valid_bytes a l : u8 a → Forall (λ b, 128 ≤ b < 192) l →
  is_continuation a = false → (a < 128 → l = []) → valid_char (str_of_bytes (a :: l)).
Proof.
  intros Ha Hl Hc Hn. unfold str_of_bytes. simpl. fold (ascii_of a). fold (str_of_bytes l).
  assert (chars_from (str_of_bytes l) = (str_of_bytes l, [])) as E.
  { clear Hn. induction Hl as [|b l Hb Hl IH]; [done|]. unfold str_of_bytes in *. simpl. rewrite IH.
    fold (ascii_of b). rewrite byte_of_ascii by (unfold u8; lia). unfold is_continuation.
    rewrite (proj2 (Z.leb_le 128 b)), (proj2 (Z.ltb_lt b 192)) by lia. done. }
  split.
  - simpl. rewrite E, byte_of_ascii, Hc by done. done.
  - unfold is_ascii. rewrite byte_of_ascii by done. intros H%Z.ltb_lt. by rewrite Hn.
Qed.
Lemma utf8_second_range a b : utf8_second a b = true → 128 ≤ b < 192.
Proof. unfold utf8_second. repeat case_match; simplify_eq; lia. Qed.
Lemma utf8_chunk_valid l n : bytes_ok l → l ≠ [] → utf8_chunk l = (n, true) →
  valid_char (str_of_bytes (take n l)).
Proof.
  destruct l as [|a l]; [done|]. intros [Ha Hl]%Forall_cons _ H. cbn [utf8_chunk] in H.
  assert (utf8_width a ≠ 0 → is_continuation a = false ∧ (a < 128 → utf8_width a = 1)) as Hw.
  { unfold utf8_width, is_continuation. repeat case_match; lia. }
  destruct (Z.eqb_spec (utf8_width a) 1) as [E1|E1].
  { injection H as <-. simpl. rewrite take_0. apply valid_bytes; [done|constructor|apply Hw; lia|done]. }
  destruct (Z.eqb_spec (utf8_width a) 0) as [E0|E0]; [by injection H|].
  destruct (Hw E0) as [Hc Hn]. destruct l as [|b l]; [by injection H|].
  destruct (utf8_second a b) eqn:Eb; [|by injection H]. cbn [negb] in H.
  apply utf8_second_range in Eb.
  assert (∀ k, Forall (λ c, 128 ≤ c < 192) k → valid_char (str_of_bytes (a :: k))) as Hv.
  { intros k Hk. apply valid_bytes; [done..|]. intros. destruct E1. by apply Hn. }
  assert (∀ c, utf8_rest c = true → 128 ≤ c < 192) as Hr by (unfold utf8_rest; lia).
  destruct (utf8_width a =? 2). { injection H as <-. simpl. rewrite take_0. apply Hv. by rewrite ?Forall_cons, ?Forall_nil. }
  destruct l as [|c l]; [by injection H|].
  destruct (utf8_rest c) eqn:Ec; [|by injection H]. cbn [negb] in H. apply Hr in Ec.
  destruct (utf8_width a =? 3).
  { injection H as <-. simpl. rewrite take_0. apply Hv. by rewrite ?Forall_cons, ?Forall_nil. }
  destruct l as [|d l]; [by injection H|]. destruct (utf8_rest d) eqn:Ed; [|by injection H].
  injection H as <-. simpl. rewrite take_0. apply Hr in Ed. apply Hv. by rewrite ?Forall_cons, ?Forall_nil.
Qed.
Lemma utf8_chunk_pos l : l ≠ [] → (1 ≤ (utf8_chunk l).1)%nat.
Proof. destruct l as [|a l]; [done|]. intros _. simpl. repeat case_match; simpl; lia. Qed.

Lemma valid_char_utf8 c : valid_char c → utf8 c.
Proof. intros H. pose proof (utf8_concat [c]) as [? _]; [by apply Forall_singleton|done]. Qed.
Lemma utf8_empty : utf8 "".
Proof. split; [done|constructor]. Qed.
Lemma utf8_valid_utf8 fuel : ∀ l, bytes_ok l → utf8_valid fuel l = true → utf8 (str_of_bytes l).
Proof.
  induction fuel as [|fuel IH]; intros [|a l] Hb H; try exact utf8_empty; [done|].
  cbn [utf8_valid] in H. destruct (utf8_chunk (a :: l)) as [n ok] eqn:E.
  apply andb_true_iff in H as [-> H].
  rewrite <- (take_drop n (a :: l)), str_of_bytes_app. apply utf8_app.
  - apply valid_char_utf8. by eapply utf8_chunk_valid.
  - apply IH; [by apply bytes_ok_drop|done].
Qed.
Lemma from_utf8_utf8 l s : bytes_ok l → from_utf8 l = Some s → utf8 s.
Proof.
  intros Hb. unfold from_utf8. destruct (utf8_valid _ l) eqn:E; [|done]. intros [= <-].
  by eapply utf8_valid_utf8.
Qed.
Lemma lossy_bytes_utf8 fuel : ∀ l, bytes_ok l → utf8 (str_of_bytes (lossy_bytes fuel l)).
Proof.
  induction fuel as [|fuel IH]; intros [|a l] Hb; try exact utf8_empty.
  cbn [lossy_bytes]. destruct (utf8_chunk (a :: l)) as [n ok] eqn:E. rewrite str_of_bytes_app.
  apply utf8_app; [|apply IH; by apply bytes_ok_drop]. apply valid_char_utf8. destruct ok.
  - by eapply utf8_chunk_valid.
  - apply valid_bytes; [unfold u8; lia|repeat constructor; lia|done|lia].
Qed.
Lemma from_utf8_lossy_utf8 l : bytes_ok l → utf8 (from_utf8_lossy l).
Proof. apply lossy_bytes_utf8. Qed.
