(* ===== verification/ControlPacket.v ===== *)
(** * Private control envelopes ([porthub-mesh/src/control_packet.rs])

    Control traffic between peers is wrapped in an IPv4 header with one of three
    reserved protocol numbers.  [encode] and [decode] translate the functions of
    the same names, statement by statement: the buffer writes of [encode] and the
    short-circuited guard of [decode] are kept, with every index a possible panic. *)

From S2P Require Import Prelude Net.
Local Open Scope Z_scope.

(** [lib.rs] *)
Definition MAX_PACKET : Z := 1380.

Definition EXIT : Z := 252.
Definition STREAM : Z := 253.
Definition PROBE : Z := 254.

Record Envelope := mkEnvelope {
  source : ipv4;
  destination : ipv4;
  payload : list Z;
}.

Definition checksum (bytes : list Z) : Z :=
  65535 - as_u16 (fold_carry 3 (sum_words bytes)).

Definition control_protocol (protocol : Z) : bool :=
  (protocol =? EXIT) || (protocol =? STREAM) || (protocol =? PROBE).

Definition encode (protocol : Z) (source destination : ipv4) (payload : list Z)
    : res (list Z) :=
  ensure! control_protocol protocol
      && is_private source
      && is_private destination
      && negb (source =? destination)
      && negb (len payload =? 0)
      && (len payload <=? MAX_PACKET - 20)
    else "invalid private control envelope" in
  let packet := replicate (20 + length payload)%nat 0 in
  let! packet := store packet 0 0x45 in
  let! packet := copy_in packet 2 4 (u16_to_be (as_u16 (20 + len payload))) in
  let! packet := store packet 6 0x40 in
  let! packet := store packet 8 64 in
  let! packet := store packet 9 protocol in
  let! packet := copy_in packet 12 16 (octets source) in
  let! packet := copy_in packet 16 20 (octets destination) in
  let! header := slice packet 0 20 in
  let ck := checksum header in
  let! packet := copy_in packet 10 12 (u16_to_be ck) in
  copy_in packet 20 (len packet) payload.

Definition decode (protocol : Z) (packet : list Z) : res (option Envelope) :=
  if negb (control_protocol protocol)
     || negb ((21 <=? len packet) && (len packet <=? MAX_PACKET))
  then Ok None else
  let! b0 := idx packet 0 in
  if negb (b0 =? 0x45) then Ok None else
  let! b9 := idx packet 9 in
  if negb (b9 =? protocol) then Ok None else
  let! b6 := idx packet 6 in
  if negb (Z.land b6 0x3f =? 0) then Ok None else
  let! b7 := idx packet 7 in
  if negb (b7 =? 0) then Ok None else
  let! b2 := idx packet 2 in
  let! b3 := idx packet 3 in
  if negb (u16_from_be b2 b3 =? len packet) then Ok None else
  let! header := slice packet 0 20 in
  if negb (checksum header =? 0) then Ok None else
  let! b12 := idx packet 12 in
  let! b13 := idx packet 13 in
  let! b14 := idx packet 14 in
  let! b15 := idx packet 15 in
  let source := ipv4_new b12 b13 b14 b15 in
  let! b16 := idx packet 16 in
  let! b17 := idx packet 17 in
  let! b18 := idx packet 18 in
  let! b19 := idx packet 19 in
  let destination := ipv4_new b16 b17 b18 b19 in
  if negb (is_private source) || negb (is_private destination) || (source =? destination)
  then Ok None else
  let! payload := slice_from packet 20 in
  Ok (Some (mkEnvelope source destination payload)).

(** ** The header [encode] writes *)

Section Header.
Variables (protocol total src dst ck : Z).

  (** The twenty bytes of the header, with the checksum field [ck]. *)
Definition header : list Z :=
    [0x45; 0] ++ u16_to_be total ++ [0; 0; 0x40; 0; 64; protocol]
      ++ u16_to_be ck ++ octets src ++ octets dst.

Lemma header_length : length header = 20%nat.
  Proof. done. Qed.
End Header.

Definition encodable (protocol : Z) (src dst : ipv4) (payload : list Z) : Prop :=
  control_protocol protocol = true ∧ is_private src = true ∧ is_private dst = true ∧
  src ≠ dst ∧ 1 ≤ len payload ≤ 1360.

(** One write of [encode]: the header part is concrete, the payload part is not. *)
Ltac copy_step :=
  match goal with
  | |- context [copy_in (?h ++ ?t) ?a ?b ?src] =>
      let r := eval vm_compute in (copy_in h a b src) in
      match r with
      | Ok ?h' => rewrite (copy_in_app h t a b src h' eq_refl)
      end
  end; cbn [rbind].

(** The writes before the checksum and the checksum write, on abstract bytes. *)
Lemma header_writes p t1 t2 s1 s2 s3 s4 d1 d2 d3 d4 (c1 c2 : list Z → Z) rest
    (k : list Z → res (list Z)) :
  (let! packet := store (replicate 20 0 ++ rest) 0 0x45 in
   let! packet := copy_in packet 2 4 [t1; t2] in
   let! packet := store packet 6 0x40 in
   let! packet := store packet 8 64 in
   let! packet := store packet 9 p in
   let! packet := copy_in packet 12 16 [s1; s2; s3; s4] in
   let! packet := copy_in packet 16 20 [d1; d2; d3; d4] in
   let! header := slice packet 0 20 in
   let! packet := copy_in packet 10 12 [c1 header; c2 header] in
   k packet)
  = let h a b := [0x45; 0; t1; t2; 0; 0; 0x40; 0; 64; p; a; b; s1; s2; s3; s4; d1; d2; d3; d4] in
    k (h (c1 (h 0 0)) (c2 (h 0 0)) ++ rest).
Proof.
  unfold store. do 7 copy_step.
  rewrite slice_ok by (rewrite ?length_app; simpl length; lia). cbn [rbind].
  change (Z.to_nat 0) with 0%nat. rewrite drop_0, take_app_le by (simpl; lia).
  change (Z.to_nat (20 - 0)) with 20%nat. cbn [drop Z.to_nat take].
  match goal with |- context [c1 ?x] => generalize (c1 x), (c2 x); intros a b end.
  by copy_step.
Qed.

Lemma encode_header protocol src dst pl :
  encodable protocol src dst pl →
  encode protocol src dst pl
  = Ok (header protocol (20 + len pl) src dst
          (checksum (header protocol (20 + len pl) src dst 0)) ++ pl).
Proof.
  intros (Hp & Hs & Hd & Hne & Hl). unfold encode, MAX_PACKET.
  rewrite Hp, Hs, Hd, (proj2 (Z.eqb_neq src dst) Hne).
  rewrite (proj2 (Z.eqb_neq (len pl) 0)) by lia.
  rewrite (proj2 (Z.leb_le (len pl) _)) by lia. cbn [negb andb ensure rbind].
  assert (as_u16 (20 + len pl) = 20 + len pl) as -> by (unfold as_u16; zlia).
  rewrite replicate_add.
  etransitivity;
    [refine (header_writes protocol _ _ _ _ _ _ _ _ _ _
       (λ h, checksum h / 256 mod 256) (λ h, checksum h mod 256) _
       (λ packet, copy_in packet 20 (len packet) pl))|].
  cbv beta zeta. unfold copy_in. rewrite length_app, length_replicate. simpl length.
  case_match; [|exfalso; lia]. f_equal.
  rewrite take_app_length' by done.
  rewrite (drop_ge _ (Z.to_nat _)) by (rewrite length_app, length_replicate; simpl; lia).
  by rewrite app_nil_r.
Qed.

(** ** The checksum of an encoded header verifies *)

Lemma sum_words_header protocol total src dst ck :
  u16 ck →
  sum_words (header protocol total src dst ck)
  = sum_words (header protocol total src dst 0) + ck.
Proof. unfold u16, header, octets, u16_to_be. simpl. unfold u16_from_be. intros. zlia. Qed.

Lemma sum_words_header_bound protocol total src dst :
  u8 protocol → 0 < sum_words (header protocol total src dst 0) ≤ 655350.
Proof.
  unfold u8. intros. rewrite <- (Z.mod_small protocol 256) by lia.
  unfold header, octets, u16_to_be. simpl.
  unfold u16_from_be. zlia.
Qed.

Lemma checksum_header protocol total src dst :
  u8 protocol →
  let ck := checksum (header protocol total src dst 0) in
  u16 ck ∧ checksum (header protocol total src dst ck) = 0.
Proof.
  intros Hp. simpl. pose proof (sum_words_header_bound protocol total src dst Hp) as Hb.
  set (s := sum_words (header protocol total src dst 0)) in *.
  assert (u32 s) as Hs by (unfold u32; lia).
  pose proof (fold_carry_exit s Hs). pose proof (fold_carry_pos 3 s ltac:(lia)).
  assert (checksum (header protocol total src dst 0) = 65535 - fold_carry 3 s) as Hck.
  { unfold checksum, as_u16. fold s. rewrite Z.mod_small by lia. done. }
  rewrite Hck. split; [unfold u16; lia|].
  unfold checksum. rewrite sum_words_header by (unfold u16; lia). fold s.
  rewrite checksum_fills by lia. done.
Qed.

(** ** [decode] as a pure function of the packet bytes *)

Definition decode_spec (protocol : Z) (packet : list Z) : option Envelope :=
  let src := ipv4_new (byte_at packet 12) (byte_at packet 13) (byte_at packet 14) (byte_at packet 15) in
  let dst := ipv4_new (byte_at packet 16) (byte_at packet 17) (byte_at packet 18) (byte_at packet 19) in
  if control_protocol protocol && (21 <=? len packet) && (len packet <=? MAX_PACKET)
     && (byte_at packet 0 =? 0x45) && (byte_at packet 9 =? protocol)
     && (Z.land (byte_at packet 6) 0x3f =? 0) && (byte_at packet 7 =? 0)
     && (u16_from_be (byte_at packet 2) (byte_at packet 3) =? len packet)
     && (checksum (take 20 packet) =? 0)
     && is_private src && is_private dst && negb (src =? dst)
  then Some (mkEnvelope src dst (drop 20 packet)) else None.

Lemma decode_pure protocol packet : decode protocol packet = Ok (decode_spec protocol packet).
Proof.
  unfold decode, decode_spec, MAX_PACKET.
  destruct (control_protocol protocol); [|done]. simpl negb. simpl orb.
  destruct ((21 <=? len packet) && (len packet <=? 1380)) eqn:Hl;
    simpl negb; cbn [andb]; rewrite Hl; [|done].
  assert (21 ≤ len packet ≤ 1380) as HL by lia. clear Hl. cbn [andb].
  repeat (rewrite idx_byte_at by lia; cbn [rbind];
          try match goal with
              | |- (if negb ?b then Ok None else _) = _ =>
                  destruct b; cbn [negb andb]; [|done]
              end).
  rewrite slice_ok by lia. cbn [rbind]. change (Z.to_nat (20 - 0)) with 20%nat.
  change (Z.to_nat 0) with 0%nat. rewrite drop_0.
  destruct (checksum (take 20 packet) =? 0); cbn [negb andb]; [|done].
  repeat (rewrite idx_byte_at by lia; cbn [rbind]).
  rewrite slice_from_ok by lia. cbn [rbind].
  repeat match goal with |- context [is_private ?x] => destruct (is_private x) end;
    cbn [negb andb orb]; try done.
  by destruct (_ =? _).
Qed.

(** ** Properties *)

Lemma encode_inv protocol src dst pl packet :
  encode protocol src dst pl = Ok packet → encodable protocol src dst pl.
Proof.
  unfold encode, MAX_PACKET. intros (? & H%ensure_ok & _)%rbind_ok. split_guard.
  unfold encodable. split_and!; try done; lia.
Qed.

#[global] Instance encodable_dec protocol src dst pl : Decision (encodable protocol src dst pl).
Proof. unfold encodable. apply _. Defined.

Lemma encode_reject protocol src dst pl :
  ¬ encodable protocol src dst pl →
  encode protocol src dst pl = Err "invalid private control envelope".
Proof.
  intros Hno. unfold encode, MAX_PACKET. destruct (_ && _) eqn:G; [|done].
  destruct Hno. split_guard. unfold encodable. split_and!; try done; lia.
Qed.

(** Every field of a header whose checksum verifies is read back. *)
Lemma decode_spec_header protocol src dst pl ck :
  u32 src → u32 dst → encodable protocol src dst pl →
  checksum (header protocol (20 + len pl) src dst ck) = 0 →
  decode_spec protocol (header protocol (20 + len pl) src dst ck ++ pl)
  = Some (mkEnvelope src dst pl).
Proof.
  intros Hs Hd (Hp & Hps & Hpd & Hne & Hl) Hck.
  unfold decode_spec, MAX_PACKET.
  pose proof (header_length protocol (20 + len pl) src dst ck) as Hlen.
  rewrite length_app, Hlen, take_app_length', drop_app_length' by done.
  rewrite Hck, Hp.
  change (byte_at _ 0) with 0x45. change (byte_at _ 9) with protocol.
  change (byte_at _ 6) with 0x40. change (byte_at _ 7) with 0.
  change (byte_at _ 2) with ((20 + len pl) / 256 mod 256).
  change (byte_at _ 3) with ((20 + len pl) mod 256).
  change (byte_at _ 12) with (octet 0 src). change (byte_at _ 13) with (octet 1 src).
  change (byte_at _ 14) with (octet 2 src). change (byte_at _ 15) with (octet 3 src).
  change (byte_at _ 16) with (octet 0 dst). change (byte_at _ 17) with (octet 1 dst).
  change (byte_at _ 18) with (octet 2 dst). change (byte_at _ 19) with (octet 3 dst).
  rewrite !ipv4_new_octets, Hps, Hpd, u16_be_roundtrip by (done || (unfold u16; lia)).
  rewrite (proj2 (Z.eqb_neq src dst) Hne), !Z.eqb_refl.
  change (Z.land 0x40 0x3f =? 0) with true. cbn [andb negb].
  rewrite !andb_true_r. case_match; [done|exfalso; lia].
Qed.

(** Every envelope [encode] produces is accepted by [decode] under the same
    protocol number, which restores the source, the destination and the payload;
    in particular the header checksum [encode] writes is the one [decode] verifies. *)
Theorem decode_encode protocol src dst pl packet :
  u32 src → u32 dst →
  encode protocol src dst pl = Ok packet →
  decode protocol packet = Ok (Some (mkEnvelope src dst pl)).
Proof.
  intros Hs Hd He. pose proof (encode_inv _ _ _ _ _ He) as Hok.
  rewrite encode_header in He by done. apply (inj Ok) in He as <-.
  rewrite decode_pure, decode_spec_header; try done.
  apply checksum_header. destruct Hok as (Hp & _).
  unfold control_protocol, EXIT, STREAM, PROBE in Hp; unfold u8; lia.
Qed.

Lemma decode_encode_witness :
  ∃ packet,
    encode EXIT (ipv4_new 10 203 0 1) (ipv4_new 10 203 0 2) [1; 2; 3] = Ok packet ∧
    decode EXIT packet
    = Ok (Some (mkEnvelope (ipv4_new 10 203 0 1) (ipv4_new 10 203 0 2) [1; 2; 3])).
Proof.
  eexists. split; [vm_compute; reflexivity|].
  apply decode_encode; [by vm_compute|by vm_compute|vm_compute; reflexivity].
Defined.

(** [encode] never panics; it succeeds exactly for a control protocol, distinct
    private endpoints and a payload of 1 to 1360 bytes, the packet is then 20 bytes
    longer than the payload and at most [MAX_PACKET], and otherwise the one error is
    returned. *)
Theorem encode_total protocol src dst pl :
  (encodable protocol src dst pl ∧
   ∃ packet, encode protocol src dst pl = Ok packet ∧
             len packet = 20 + len pl ∧ len packet ≤ MAX_PACKET) ∨
  (¬ encodable protocol src dst pl ∧
   encode protocol src dst pl = Err "invalid private control envelope").
Proof.
  destruct (encodable_dec protocol src dst pl) as [Hok|Hno].
  - left. split; [done|]. eexists. split; [by apply encode_header|].
    rewrite length_app, header_length. destruct Hok as (_ & _ & _ & _ & Hl).
    unfold MAX_PACKET. lia.
  - right. split; [done|]. by apply encode_reject.
Qed.

(** [decode] never panics on any byte string, and what it accepts has distinct
    private endpoints and the packet's bytes after the header, 1 to 1360 of them, as
    its payload. *)
Theorem decode_safe protocol packet :
  match decode protocol packet with
  | Ok (Some e) =>
      is_private (source e) = true ∧ is_private (destination e) = true ∧
      source e ≠ destination e ∧ payload e = drop 20 packet ∧
      1 ≤ len (payload e) ≤ MAX_PACKET - 20 ∧ control_protocol protocol = true
  | Ok None => True
  | Err _ | Panic => False
  end.
Proof.
  rewrite decode_pure. unfold decode_spec. destruct (_ && _) eqn:G; [|done].
  split_guard. cbn [source destination payload]. unfold MAX_PACKET in *. rewrite length_drop.
  split_and!; try done; lia.
Qed.
