(* ===== verification/RelayBatch.v ===== *)
(** * Relay batches ([porthub-mesh/src/batch.rs])

    Up to 32 packet records travel in one relay frame.  The [PHB2] form replaces
    the bytes a record shares with its predecessor by a one-byte count; the [PHB1]
    form does not.  Both functions keep the source's control flow; the [while] loop
    of [decode] runs on fuel 33, one more than [MAX_RECORDS], and running out of
    fuel is a panic, so [decode_bounded] is also its termination proof. *)

From S2P Require Import Prelude.
Local Open Scope Z_scope.

Definition LEGACY : list Z := bytes_of "PHB1".
Definition PREFIX : list Z := bytes_of "PHB2".
Definition MAX_RECORDS : Z := 32.
Definition MAX_RECORD : Z := 1441.

(** [previous.iter().zip(record).take(255).take_while(|(a, b)| a == b).count()] *)
Definition common_prefix (previous record : list Z) : Z :=
  len (take_while (λ '(a, b), a =? b) (take 255 (zip previous record))).

Fixpoint encode_loop (prefixes : bool) (records : list (list Z)) (previous output : list Z)
    : res (list Z) :=
  match records with
  | [] => Ok output
  | record :: records =>
      ensure! negb (len record =? 0) && (len record <=? MAX_RECORD)
        else "invalid relay record size" in
      let common := if prefixes then common_prefix previous record else 0 in
      let! suffix := slice_from record common in
      let output := output ++ u16_to_be (as_u16 (len suffix)) in
      let output := if prefixes then output ++ [as_u8 common] else output in
      encode_loop prefixes records record (output ++ suffix)
  end.

Definition encode (records : list (list Z)) (prefixes : bool) : res (list Z) :=
  ensure! negb (len records =? 0) && (len records <=? MAX_RECORDS)
    else "invalid relay batch count" in
  encode_loop prefixes records [] (if prefixes then PREFIX else LEGACY).

Fixpoint decode_loop (fuel : nat) (prefixes : bool) (frame : list Z) (offset : Z)
    (records : list (list Z)) : res (list (list Z)) :=
  if offset <? len frame then
    match fuel with
    | O => Panic
    | S fuel =>
        let header := if prefixes then 3 else 2 in
        let! remaining := usub (len frame) offset in
        ensure! (len records <? MAX_RECORDS) && (header <=? remaining)
          else "invalid relay batch header" in
        let! b0 := idx frame offset in
        let! b1 := idx frame (offset + 1) in
        let length := u16_from_be b0 b1 in
        let! common := if prefixes then idx frame (offset + 2) else Ok 0 in
        let offset := offset + header in
        let! remaining := usub (len frame) offset in
        ensure! (length <=? remaining) && (0 <? common + length)
            && (common + length <=? MAX_RECORD)
          else "invalid relay record size" in
        ensure! common <=? match last records with Some r => len r | None => 0 end
          else "invalid relay record prefix" in
        let! record :=
          if common =? 0 then slice frame offset (offset + length)
          else
            let! previous := unwrap (last records) in
            let! shared := slice previous 0 common in
            let! rest := slice frame offset (offset + length) in
            Ok (shared ++ rest) in
        decode_loop fuel prefixes frame (offset + length) (records ++ [record])
    end
  else
    ensure! negb (len records =? 0) else "empty relay batch" in
    Ok records.

Definition decode (frame : list Z) : res (list (list Z)) :=
  let prefixes := starts_with PREFIX frame in
  if negb prefixes && negb (starts_with LEGACY frame) then Ok [frame]
  else decode_loop 33 prefixes frame 4 [].

(** ** The shared prefix *)

Lemma take_while_length {A} (f : A → bool) l : (length (take_while f l) ≤ length l)%nat.
Proof. induction l as [|x l IH]; simpl; [done|]. case_match; simpl; lia. Qed.

Lemma common_prefix_bounds previous record :
  0 ≤ common_prefix previous record ≤ 255 ∧
  common_prefix previous record ≤ len previous ∧
  common_prefix previous record ≤ len record.
Proof.
  unfold common_prefix.
  pose proof (take_while_length (λ '(a, b), a =? b) (take 255 (zip previous record))) as H.
  rewrite length_take, length_zip in H. lia.
Qed.

Lemma take_common_prefix n previous record :
  let c := length (take_while (λ '(a, b), a =? b) (take n (zip previous record))) in
  take c previous = take c record.
Proof.
  revert previous record.
  induction n as [|n IH]; intros [|a p] [|b r]; simpl; try done.
  destruct (Z.eqb_spec a b) as [->|]; simpl; [|done]. f_equal. apply IH.
Qed.

(** What [encode] appends for a list of records after [previous]. *)
Fixpoint encoded (prefixes : bool) (previous : list Z) (records : list (list Z)) : list Z :=
  match records with
  | [] => []
  | record :: records =>
      let common := if prefixes then common_prefix previous record else 0 in
      let suffix := drop (Z.to_nat common) record in
      u16_to_be (len suffix) ++ (if prefixes then [common] else []) ++ suffix
        ++ encoded prefixes record records
  end.

Definition record_ok (r : list Z) : Prop := 1 ≤ len r ≤ MAX_RECORD.
#[global] Instance record_ok_dec r : Decision (record_ok r).
Proof. unfold record_ok. apply _. Defined.

Section Common.
Context (prefixes : bool) (previous record : list Z) (Hr : record_ok record).
Let common := if prefixes then common_prefix previous record else 0.

Lemma common_range : 0 ≤ common ≤ 255 ∧ common ≤ len record ∧ common ≤ len previous.
  Proof.
    pose proof (common_prefix_bounds previous record).
    unfold common. destruct prefixes; unfold record_ok in Hr; lia.
  Qed.

Lemma common_shared :
    take (Z.to_nat common) previous ++ drop (Z.to_nat common) record = record.
  Proof.
    rewrite <- (take_drop (Z.to_nat common) record) at 2. f_equal.
    unfold common. destruct prefixes; [|done].
    unfold common_prefix. rewrite Nat2Z.id. apply take_common_prefix.
  Qed.
End Common.

Lemma encode_loop_ok prefixes records previous output :
  Forall record_ok records →
  encode_loop prefixes records previous output
  = Ok (output ++ encoded prefixes previous records).
Proof.
  intros Hr. revert previous output.
  induction Hr as [|record records Hr Hrs IH]; intros previous output;
    cbn [encode_loop encoded]; [by rewrite app_nil_r|].
  pose proof (common_range prefixes previous record Hr) as Hc.
  set (common := if prefixes then common_prefix previous record else 0) in *.
  unfold record_ok in Hr. unfold MAX_RECORD in *.
  rewrite ensure_true by lia. cbn [rbind].
  rewrite slice_from_ok by lia. cbn [rbind].
  rewrite IH. f_equal.
  assert (as_u16 (len (drop (Z.to_nat common) record)) = len (drop (Z.to_nat common) record)) as ->
    by (unfold as_u16; rewrite length_drop; zlia).
  assert (as_u8 common = common) as -> by (unfold as_u8; zlia).
  destruct prefixes; by rewrite <- ?(assoc_L (++)).
Qed.

Lemma encode_loop_inv prefixes records previous output frame :
  encode_loop prefixes records previous output = Ok frame → Forall record_ok records.
Proof.
  revert previous output.
  induction records as [|r rs IH]; intros previous output; cbn [encode_loop]; [done|].
  intros (? & G%ensure_ok & (suffix & _ & H)%rbind_ok)%rbind_ok.
  constructor; [unfold record_ok, MAX_RECORD in *; lia|]. by eapply IH.
Qed.

Lemma encode_loop_reject prefixes records : ∀ previous output,
  ¬ Forall record_ok records →
  encode_loop prefixes records previous output = Err "invalid relay record size".
Proof.
  induction records as [|r rs IH]; intros previous output Hno; [by destruct Hno|].
  cbn [encode_loop]. case_ensure G; [|done].
  assert (record_ok r) as Hr by (unfold record_ok, MAX_RECORD in *; lia).
  pose proof (common_range prefixes previous r Hr).
  rewrite slice_from_ok by lia. cbn [rbind]. apply IH. intros Hrs. by destruct Hno; constructor.
Qed.

Lemma encoded_length prefixes records : ∀ previous,
  (length (encoded prefixes previous records)
   ≤ sum_list_with (λ r, length r + 3) records)%nat.
Proof.
  induction records as [|r rs IH]; intros previous; [done|].
  cbn [encoded sum_list_with]. rewrite !length_app, length_drop.
  specialize (IH r). destruct prefixes; cbn [length u16_to_be]; lia.
Qed.

(** One iteration of the loop on a record [encode] wrote, [offset] bytes into the
    frame, after the records [acc]. *)
Lemma decode_loop_step fuel (prefixes : bool) frame offset (acc : list (list Z)) record rest :
  record_ok record → 0 ≤ offset ≤ len frame → len acc < MAX_RECORDS →
  let previous := default [] (last acc) in
  let common := if prefixes then common_prefix previous record else 0 in
  let suffix := drop (Z.to_nat common) record in
  drop (Z.to_nat offset) frame
    = u16_to_be (len suffix) ++ (if prefixes then [common] else []) ++ suffix ++ rest →
  let next := offset + (if prefixes then 3 else 2) + len suffix in
  offset ≤ next ≤ len frame ∧ drop (Z.to_nat next) frame = rest ∧
  decode_loop (S fuel) prefixes frame offset acc
  = decode_loop fuel prefixes frame next (acc ++ [record]).
Proof.
  intros Hr Hoff Hacc previous common suffix Hd next.
  pose proof (common_range prefixes previous record Hr) as Hc. fold common in Hc.
  pose proof (common_shared prefixes previous record) as Hsh. fold common suffix in Hsh.
  unfold record_ok, MAX_RECORD, MAX_RECORDS in *.
  assert (len suffix = len record - common) as Hsl
    by (unfold suffix; rewrite length_drop; lia).
  pose proof (drop_len _ _ _ Hoff Hd) as Hl. rewrite !length_app in Hl.
  set (header := if prefixes then 3 else 2) in *.
  assert (len frame - offset = header + len suffix + len rest) as Hlen
    by (unfold header; destruct prefixes; cbn [length u16_to_be] in Hl; lia).
  assert (2 ≤ header ≤ 3) as Hh by (unfold header; destruct prefixes; lia).
  pose proof (drop_add _ _ offset header ltac:(lia) ltac:(lia) Hd) as Hd3.
  assert (drop (Z.to_nat (offset + header)) frame = suffix ++ rest) as Hd4
    by (rewrite Hd3; unfold header; by destruct prefixes).
  pose proof (drop_add _ _ (offset + header) (len suffix) ltac:(lia) ltac:(lia) Hd4) as Hd5.
  rewrite Nat2Z.id, drop_app_length in Hd5.
  split_and!; [lia|lia|exact Hd5|].
  cbn [decode_loop]. rewrite (proj2 (Z.ltb_lt offset (len frame))) by lia.
  fold header. rewrite usub_ok by lia. cbn [rbind].
  rewrite ensure_true by (unfold MAX_RECORDS, MAX_RECORD; lia). cbn [rbind].
  pose proof (drop_add _ _ offset 1 ltac:(lia) ltac:(lia) Hd) as Hd1. cbn in Hd1.
  rewrite (idx_drop frame _ offset _ ltac:(lia) Hd). cbn [rbind].
  rewrite (idx_drop frame _ (offset + 1) _ ltac:(lia) Hd1). cbn [rbind].
  rewrite u16_be_roundtrip by (unfold u16; lia).
  assert ((if prefixes then idx frame (offset + 2) else Ok 0) = Ok common) as ->.
  { unfold common. destruct prefixes; [|done].
    pose proof (drop_add _ _ offset 2 ltac:(lia) ltac:(lia) Hd) as Hd2. cbn in Hd2.
    exact (idx_drop frame _ (offset + 2) _ ltac:(lia) Hd2). }
  cbn [rbind]. rewrite usub_ok by lia. cbn [rbind].
  rewrite ensure_true by (unfold MAX_RECORDS, MAX_RECORD; lia). cbn [rbind].
  rewrite ensure_true by (unfold previous in Hc; destruct (last acc); simpl in Hc; lia).
  cbn [rbind].
  rewrite (slice_drop frame suffix rest (offset + header) (len suffix) ltac:(lia) Hd4 eq_refl).
  assert ((if common =? 0 then Ok suffix
           else let! previous := unwrap (last acc) in
                let! shared := slice previous 0 common in
                let! rest := Ok suffix in Ok (shared ++ rest)) = Ok record) as ->.
  { destruct (Z.eqb_spec common 0) as [E|E].
    - rewrite E in Hsh. by rewrite <- Hsh.
    - unfold previous in Hc, Hsh. destruct (last acc) as [p|]; simpl in Hc, Hsh; [|lia].
      cbn [unwrap rbind]. rewrite slice_ok by lia. cbn [rbind]. f_equal.
      rewrite <- Hsh. f_equal. by rewrite Z.sub_0_r. }
  done.
Qed.

Lemma decode_loop_encoded prefixes frame records : ∀ (acc : list (list Z)) fuel offset,
  Forall record_ok records → 0 ≤ offset ≤ len frame →
  drop (Z.to_nat offset) frame = encoded prefixes (default [] (last acc)) records →
  len acc + len records ≤ MAX_RECORDS → (length records ≤ fuel)%nat →
  acc ++ records ≠ [] →
  decode_loop fuel prefixes frame offset acc = Ok (acc ++ records).
Proof.
  induction records as [|record records IH]; intros acc fuel offset Hrs Hoff Hd Hn Hf Hne.
  - pose proof (drop_len _ _ _ Hoff Hd) as Hl. simpl in Hl. rewrite app_nil_r in *.
    assert (negb (len acc =? 0) = true) as G by (destruct acc; simpl; [done|lia]).
    destruct fuel; cbn [decode_loop]; rewrite (proj2 (Z.ltb_ge _ _)) by lia;
      by rewrite ensure_true.
  - inversion_clear Hrs as [|? ? Hr Hrs']. simpl in Hn, Hf.
    destruct fuel as [|fuel]; [lia|].
    destruct (decode_loop_step fuel prefixes frame offset acc record
                (encoded prefixes record records) Hr Hoff ltac:(lia) Hd) as (Hnx & Hrest & ->).
    rewrite (IH (acc ++ [record])); try done.
    + by rewrite <- (assoc_L (++)).
    + lia.
    + by rewrite last_snoc.
    + rewrite length_app. simpl. lia.
    + lia.
    + by destruct acc.
Qed.

(** ** Bounds of the loop *)

Definition batch_ok (records : list (list Z)) : Prop :=
  1 ≤ len records ≤ MAX_RECORDS ∧ Forall record_ok records.

Lemma record_prefix_ok (records : list (list Z)) common :
  0 ≤ common → common ≤ match last records with Some r => len r | None => 0 end →
  common ≠ 0 → ∃ previous shared,
    last records = Some previous ∧ slice previous 0 common = Ok shared ∧ len shared = common.
Proof.
  intros H0 H Hne. destruct (last records) as [p|]; [|lia].
  exists p, (take (Z.to_nat common) p). split; [done|].
  rewrite slice_ok by lia. rewrite Z.sub_0_r. split; [done|]. rewrite length_take. lia.
Qed.

Lemma decode_loop_bounded prefixes frame : bytes_ok frame → ∀ fuel offset records,
  0 ≤ offset → Forall record_ok records → len records ≤ MAX_RECORDS →
  MAX_RECORDS < len records + Z.of_nat fuel →
  match decode_loop fuel prefixes frame offset records with
  | Ok rs => batch_ok rs
  | Err _ => True
  | Panic => False
  end.
Proof.
  intros Hb. unfold batch_ok, MAX_RECORDS.
  induction fuel as [|fuel IH]; intros offset records Ho Hr Hn Hf; cbn [decode_loop].
  { lia. }
  destruct (Z.ltb_spec offset (len frame)) as [Hlt|Hge].
  2:{ destruct (negb _) eqn:G; cbn; [|done]. split; [lia|done]. }
  rewrite usub_ok by lia. cbn [rbind].
  case_ensure G1; [|done].
  assert (∃ header, header = (if prefixes then 3 else 2) ∧ 2 ≤ header ≤ 3) as (header & Hh & Hh')
    by (eexists; split; [done|destruct prefixes; lia]).
  rewrite <- Hh in *. unfold MAX_RECORDS in G1.
  rewrite (idx_byte_at frame offset), (idx_byte_at frame (offset + 1)) by lia. cbn [rbind].
  assert (∃ common, (if prefixes then idx frame (offset + 2) else Ok 0) = Ok common ∧ u8 common)
    as (common & -> & Hc).
  { destruct prefixes; [|by exists 0].
    rewrite idx_byte_at by lia. eexists. split; [done|]. auto with porthub. }
  cbn [rbind]. rewrite usub_ok by lia. cbn [rbind].
  pose proof (u16_from_be_range _ _ (byte_at_u8 frame offset Hb) (byte_at_u8 frame (offset + 1) Hb))
    as Hl.
  set (n := u16_from_be _ _) in *. unfold u16, u8 in *.
  case_ensure G2; [|done].
  case_ensure G3; [|done].
  assert (∃ record,
    (if common =? 0 then slice frame (offset + header) (offset + header + n)
     else let! previous := unwrap (last records) in
          let! shared := slice previous 0 common in
          let! rest := slice frame (offset + header) (offset + header + n) in
          Ok (shared ++ rest)) = Ok record ∧ len record = common + n) as (record & -> & Hrl).
  { pose proof (slice_ok frame (offset + header) (offset + header + n) ltac:(lia) ltac:(lia)) as Hs.
    pose proof (length_slice _ _ _ _ Hs) as Hsl.
    destruct (Z.eqb_spec common 0) as [->|Hne].
    - rewrite Hs. eexists. split; [done|]. lia.
    - destruct (record_prefix_ok records common ltac:(lia) ltac:(lia) Hne) as (p & sh & -> & E & El).
      cbn [unwrap rbind]. rewrite E, Hs. cbn [rbind]. eexists. split; [done|].
      rewrite length_app. lia. }
  cbn [rbind]. apply IH.
  - lia.
  - apply Forall_app. split; [done|]. constructor; [|done]. unfold record_ok, MAX_RECORD in *. lia.
  - rewrite length_app. simpl. lia.
  - rewrite length_app. simpl. lia.
Qed.

Lemma starts_with_app p l : starts_with p (p ++ l) = true.
Proof. unfold starts_with. rewrite take_app_length. by apply bool_decide_true. Qed.

(** ** Properties *)

(** C21. A batch [encode] produces, in the prefix or in the legacy form, decodes to
    exactly the records that were encoded, in their order. *)
Theorem decode_encode_batch records prefixes frame :
  encode records prefixes = Ok frame → decode frame = Ok records.
Proof.
  unfold encode. intros (? & G%ensure_ok & H)%rbind_ok.
  pose proof (encode_loop_inv _ _ _ _ _ H) as Hrs.
  rewrite encode_loop_ok in H by done. apply (inj Ok) in H as <-.
  unfold MAX_RECORDS in G.
  set (body := encoded prefixes [] records).
  assert (decode_loop 33 prefixes ((if prefixes then PREFIX else LEGACY) ++ body) 4 []
          = Ok records) as HL.
  { apply (decode_loop_encoded prefixes _ records []); try done.
    - rewrite length_app. destruct prefixes; simpl; lia.
    - by destruct prefixes.
    - unfold MAX_RECORDS. simpl. lia.
    - lia.
    - destruct records; [simpl in G; lia|done]. }
  unfold decode. destruct prefixes.
  - by rewrite starts_with_app.
  - assert (starts_with PREFIX (LEGACY ++ body) = false) as -> by done.
    by rewrite starts_with_app.
Qed.

Lemma decode_encode_batch_witness :
  ∃ frame, encode [[7; 7; 1; 2]; [7; 7; 1; 3; 4]; [9]] true = Ok frame ∧
           decode frame = Ok [[7; 7; 1; 2]; [7; 7; 1; 3; 4]; [9]].
Proof.
  eexists. split; [vm_compute; reflexivity|].
  eapply (decode_encode_batch _ true). vm_compute. reflexivity.
Defined.

(** [decode] terminates without a panic on every byte string: it passes a frame
    with neither marker through as one record, and a marked frame yields an error or
    1 to 32 records of 1 to 1441 bytes each, whatever the prefix counts claim. *)
Theorem decode_bounded frame :
  bytes_ok frame →
  match decode frame with
  | Ok records =>
      if starts_with PREFIX frame || starts_with LEGACY frame
      then batch_ok records else records = [frame]
  | Err _ => starts_with PREFIX frame || starts_with LEGACY frame = true
  | Panic => False
  end.
Proof.
  intros Hb. unfold decode.
  destruct (starts_with PREFIX frame) eqn:E1; [|destruct (starts_with LEGACY frame) eqn:E2];
    cbn [negb andb orb]; [| |done];
    match goal with |- context [decode_loop 33 ?p frame 4 []] =>
      pose proof (decode_loop_bounded p frame Hb 33 4 [] ltac:(lia) (Forall_nil_2 _)
                    ltac:(unfold MAX_RECORDS; simpl; lia)
                    ltac:(unfold MAX_RECORDS; simpl; lia)) as H
    end; by destruct (decode_loop _ _ _ _ _).
Qed.

Lemma decode_bounded_witness :
  let frame := PREFIX ++ [0; 2; 0; 65; 66; 0; 1; 1; 67] in
  bytes_ok frame ∧ decode frame = Ok [[65; 66]; [65; 67]] ∧ batch_ok [[65; 66]; [65; 67]].
Proof.
  assert (bytes_ok (PREFIX ++ [0; 2; 0; 65; 66; 0; 1; 1; 67])) as Hb
    by (apply (bool_decide_unpack _); vm_compute; exact I).
  split; [exact Hb|]. split; [vm_compute; reflexivity|].
  exact (decode_bounded _ Hb).
Defined.

(** [encode] never panics: it succeeds exactly on 1 to 32 records of 1 to 1441
    bytes, and then the frame is at most 3 bytes per record longer than the marker
    and the records, which is the capacity the code reserves. *)
Theorem encode_batch_total records prefixes :
  match encode records prefixes with
  | Ok frame =>
      batch_ok records ∧
      len frame ≤ 4 + Z.of_nat (sum_list_with (λ r, length r + 3)%nat records)
  | Err _ => ¬ batch_ok records
  | Panic => False
  end.
Proof.
  unfold encode. case_ensure G; [|unfold batch_ok, MAX_RECORDS in *; lia].
  destruct (decide (Forall record_ok records)) as [Hr|Hr].
  - rewrite encode_loop_ok by done. split; [unfold batch_ok, MAX_RECORDS in *; split; [lia|done]|].
    pose proof (encoded_length prefixes records []). rewrite length_app.
    destruct prefixes; simpl; lia.
  - rewrite encode_loop_reject by done. unfold batch_ok. naive_solver.
Qed.
