(* ===== verification/LanRoutes.v ===== *)
(** * LAN prefixes, exit traffic modes and host route plans

    [porthub-mesh/src/exit_policy.rs], [porthub-mesh/src/lan_routes.rs] and
    [porthub-network/src/exit_plan.rs].  A [Network] is an RFC1918 prefix a peer
    advertises; [select] picks the exit peer of a private destination by longest
    prefix; [lan_networks] is the host route coverage that has to agree with it. *)

From stdpp Require Import sorting.
From S2P Require Import Prelude Net RustStr.
Local Open Scope Z_scope.

(** ** Exit policy *)

Inductive Selection := Sticky | RoundRobin | Random.

Inductive TrafficMode := All | InternetOnly | LanOnly.

#[global] Instance Selection_eq_dec : EqDecision Selection.
Proof. solve_decision. Defined.
#[global] Instance TrafficMode_eq_dec : EqDecision TrafficMode.
Proof. solve_decision. Defined.

Definition internet (m : TrafficMode) : bool := negb (bool_decide (m = LanOnly)).
Definition lan (m : TrafficMode) : bool := negb (bool_decide (m = InternetOnly)).
Definition permits (m : TrafficMode) (destination : ipv4) : bool :=
  if is_private destination then lan m else internet m.

(** ** Networks *)

(** The fields are private in the source: every value comes from [from_address]. *)
Record Network := mkNetwork { nw_address : ipv4; nw_prefix : Z }.

#[global] Instance Network_eq_dec : EqDecision Network.
Proof. solve_decision. Defined.

(** [u32::MAX << (32 - prefix)] *)
Definition net_mask (prefix : Z) : Z := as_u32 (Z.shiftl U32_MAX (32 - prefix)).

Definition from_address (address : ipv4) (prefix : Z) : res Network :=
  ensure! (1 <=? prefix) && (prefix <=? 32) else "invalid LAN prefix length" in
  let mask := net_mask prefix in
  let address := Z.land address mask in
  let last := Z.lor address (U32_MAX - mask) in
  ensure! is_private address && is_private last
    else "LAN advertisements must stay inside a private IPv4 range" in
  Ok (mkNetwork address prefix).

Definition contains (n : Network) (address : ipv4) : bool :=
  Z.shiftr address (32 - nw_prefix n) =? Z.shiftr (nw_address n) (32 - nw_prefix n).

Definition overlaps (n other : Network) : bool :=
  contains n (nw_address other) || contains other (nw_address n).

(** The texts of the standard library's parse errors are not modelled. *)
Definition from_str (value : string) : res Network :=
  ensure! slen value <=? 18 else "LAN prefix exceeds size limit" in
  let! '(address, prefix) :=
    ok_or (split_once "/" value) "LAN prefix requires CIDR notation" in
  let! address := ok_or (parse_ipv4 address) "AddrParseError" in
  let! prefix := ok_or (parse_u8 prefix) "ParseIntError" in
  let! network := from_address address prefix in
  ensure! nw_address network =? address else "LAN prefix must use its network address" in
  Ok network.

(** [impl Display for Network] *)
Definition show_network (n : Network) : string :=
  show_ipv4 (nw_address n) +:+ "/" +:+ show_u8 (nw_prefix n).

(** ** Peer selection *)

Record Selected := mkSelected {
  sel_chosen : option string;
  sel_longest : Z;
  sel_single : option string;
  sel_count : Z;
}.

(** [networks.iter().filter(|n| n.contains(target)).map(|n| n.prefix()).max()] *)
Definition best_prefix (target : ipv4) (networks : list Network) : option Z :=
  foldr (λ n acc,
    if contains n target
    then Some (match acc with Some m => Z.max (nw_prefix n) m | None => nw_prefix n end)
    else acc) None networks.

Definition select_step (target : ipv4) (s : Selected) (entry : string * list Network)
    : Selected :=
  let '(peer, networks) := entry in
  let count := sel_count s + 1 in
  match best_prefix target networks with
  | Some prefix =>
      if bool_decide (sel_chosen s = None) || (sel_longest s <? prefix)
      then mkSelected (Some peer) prefix (Some peer) count
      else mkSelected (sel_chosen s) (sel_longest s) (Some peer) count
  | None => mkSelected (sel_chosen s) (sel_longest s) (Some peer) count
  end.

Definition select (target : ipv4) (peers : list (string * list Network)) (fallback : bool)
    : option string :=
  let s := foldl (select_step target) (mkSelected None 0 None 0) peers in
  match sel_chosen s with
  | Some peer => Some peer
  | None =>
      if fallback && (sel_count s =? 1) && is_private target then sel_single s else None
  end.

Definition choose (target : ipv4) (peers : list (string * list Network)) : option string :=
  select target peers false.

Definition choose_with_single_fallback (target : ipv4) (peers : list (string * list Network))
    : option string :=
  select target peers true.

(** ** Host route plans *)

Record Plan := mkPlan {
  plan_index : Z;
  plan_own : ipv4;
  plan_mode : TrafficMode;
  plan_bypass : bool;
  plan_networks : list Network;
}.

Definition internet_bypass (p : Plan) : bool := plan_bypass p || negb (internet (plan_mode p)).

Definition plan_lan_networks (p : Plan) : list Network :=
  if lan (plan_mode p) then plan_networks p else [].

Definition plan_from (index : Z) (own : ipv4) (bypass : bool) : Plan :=
  mkPlan index own InternetOnly bypass [].

(** The derived order of [Network]: address, then prefix. *)
Definition network_le (a b : Network) : Prop :=
  nw_address a < nw_address b ∨ nw_address a = nw_address b ∧ nw_prefix a ≤ nw_prefix b.
#[global] Instance network_le_dec a b : Decision (network_le a b).
Proof. unfold network_le. apply _. Defined.

(** [.collect::<BTreeSet<_>>().into_iter().collect()]: sorted, without duplicates. *)
Definition btree_collect (l : list Network) : list Network :=
  merge_sort network_le (remove_dups l).

(** The three literals [lan_networks] parses. *)
Definition private_ranges : list Network :=
  [mkNetwork (ipv4_new 10 0 0 0) 8; mkNetwork (ipv4_new 172 16 0 0) 12;
   mkNetwork (ipv4_new 192 168 0 0) 16].

Definition lan_networks (peers : list (string * list Network)) (available : string → bool)
    : list Network :=
  if (len peers =? 1) || (len (filter (λ p, available p.1) peers) =? 1)
  then private_ranges
  else btree_collect (mjoin (map snd peers)).

(** ** Masks *)

Section Mask.
Context (prefix : Z) (Hp : 1 ≤ prefix ≤ 32).
Let k : Z := 32 - prefix.

Lemma pow_bounds : 1 ≤ 2 ^ k ≤ 2 ^ 31.
Proof.
  split; [|apply Z.pow_le_mono_r; unfold k; lia].
  change 1 with (2 ^ 0). apply Z.pow_le_mono_r; unfold k; lia.
Qed.

Lemma pow_split : 2 ^ 32 = 2 ^ prefix * 2 ^ k.
Proof. rewrite <- Z.pow_add_r by (unfold k; lia). f_equal. unfold k. lia. Qed.

Lemma net_mask_eq : net_mask prefix = 2 ^ 32 - 2 ^ k.
Proof.
  pose proof pow_bounds. unfold net_mask, as_u32, U32_MAX. fold k.
  rewrite Z.shiftl_mul_pow2 by (unfold k; lia). symmetry.
  apply Z.mod_unique with (q := 2 ^ k - 1); lia.
Qed.

Lemma net_mask_ldiff : net_mask prefix = Z.ldiff (Z.ones 32) (Z.ones k).
Proof.
  pose proof pow_bounds. pose proof pow_split as Hs.
  rewrite net_mask_eq, Z.ldiff_ones_r by (unfold k; lia).
  rewrite Z.shiftl_mul_pow2, Z.shiftr_div_pow2 by (unfold k; lia).
  rewrite Z.ones_equiv. change (Z.pred (2 ^ 32)) with (2 ^ 32 - 1).
  assert ((2 ^ 32 - 1) / 2 ^ k = 2 ^ prefix - 1) as ->; [|rewrite Hs; lia].
  symmetry. apply Z.div_unique with (r := 2 ^ k - 1); lia.
Qed.

Lemma land_mask a : u32 a → Z.land a (net_mask prefix) = a - a mod 2 ^ k.
Proof.
  intros Ha. rewrite net_mask_ldiff, Z.ldiff_land, Z.land_assoc, Z.land_ones by lia.
  rewrite (Z.mod_small a) by (unfold u32 in Ha; lia).
  rewrite <- Z.ldiff_land, Z.ldiff_ones_r by (unfold k; lia).
  rewrite Z.shiftl_mul_pow2, Z.shiftr_div_pow2 by (unfold k; lia).
  pose proof pow_bounds. pose proof (Z.div_mod a (2 ^ k)). lia.
Qed.

Lemma lor_host a : a mod 2 ^ k = 0 → Z.lor a (U32_MAX - net_mask prefix) = a + 2 ^ k - 1.
Proof.
  intros Ha. rewrite net_mask_eq. unfold U32_MAX.
  replace (2 ^ 32 - 1 - (2 ^ 32 - 2 ^ k)) with (Z.ones k) by (rewrite Z.ones_equiv; lia).
  assert (Z.land a (Z.ones k) = 0) as Hn by (rewrite Z.land_ones by (unfold k; lia); done).
  rewrite <- Z.lxor_lor, <- Z.add_nocarry_lxor, Z.ones_equiv by done. lia.
Qed.
End Mask.

(** ** Networks as intervals *)

(** What [from_address] establishes. *)
Definition network_ok (n : Network) : Prop :=
  1 ≤ nw_prefix n ≤ 32 ∧ u32 (nw_address n) ∧ nw_address n mod 2 ^ (32 - nw_prefix n) = 0 ∧
  is_private (nw_address n) = true ∧
  is_private (nw_address n + 2 ^ (32 - nw_prefix n) - 1) = true.
#[global] Instance network_ok_dec n : Decision (network_ok n).
Proof. unfold network_ok. apply _. Defined.

Lemma from_address_ok address prefix n :
  u32 address → from_address address prefix = Ok n →
  network_ok n ∧ nw_prefix n = prefix ∧
  nw_address n = address - address mod 2 ^ (32 - prefix).
Proof.
  intros Ha H. unfold from_address in H. res_inv. rename E into Hp. split_guard.
  assert (1 ≤ prefix ≤ 32) as Hp' by lia.
  pose proof (pow_bounds prefix Hp') as Hk.
  rewrite land_mask in * by done.
  pose proof (Z.mod_pos_bound address (2 ^ (32 - prefix)) ltac:(lia)).
  pose proof (Z.mod_le address (2 ^ (32 - prefix)) ltac:(unfold u32 in Ha; lia) ltac:(lia)).
  assert ((address - address mod 2 ^ (32 - prefix)) mod 2 ^ (32 - prefix) = 0) as Hm.
  { rewrite Zminus_mod, Zmod_mod, Z.sub_diag. done. }
  rewrite lor_host in * by done.
  unfold network_ok. cbn [nw_address nw_prefix]. unfold u32 in *. split_and!; try done; lia.
Qed.

Lemma contains_interval n a :
  network_ok n → u32 a →
  contains n a = true ↔ nw_address n ≤ a < nw_address n + 2 ^ (32 - nw_prefix n).
Proof.
  intros (Hp & Hn & Hm & _) Ha. unfold contains. rewrite Z.eqb_eq.
  pose proof (pow_bounds (nw_prefix n) Hp) as Hk.
  rewrite !Z.shiftr_div_pow2 by lia.
  set (w := 2 ^ (32 - nw_prefix n)) in *.
  pose proof (Z.div_mod a w ltac:(lia)). pose proof (Z.div_mod (nw_address n) w ltac:(lia)).
  pose proof (Z.mod_pos_bound a w ltac:(lia)).
  generalize dependent (nw_address n). clearbody w. intros b Hb Hm Hd.
  rewrite Hm in Hd. split.
  - intros E. rewrite E in *. lia.
  - intros Hi. symmetry. apply Z.div_unique with (r := a - b); lia.
Qed.

Lemma contains_own n : contains n (nw_address n) = true.
Proof. unfold contains. apply Z.eqb_refl. Qed.

(** An aligned block with private ends lies inside one private range. *)
Lemma network_private n a :
  network_ok n → u32 a → contains n a = true → is_private a = true.
Proof.
  intros Hok Ha Hc. apply contains_interval in Hc; [|done..].
  destruct Hok as (Hp & Hn & Hm & Hfirst & Hlast).
  pose proof (pow_bounds (nw_prefix n) Hp) as Hk.
  set (k := 32 - nw_prefix n) in *.
  assert (k = 29 ∨ k = 30 ∨ k = 31 ∨ 0 ≤ k ≤ 28) as Hcases by lia.
  assert (2 ^ k ≤ 2 ^ 28 ∨ nw_address n mod 2 ^ 29 = 0) as Hw.
  { destruct Hcases as [Hk'|[Hk'|[Hk'|Hk']]].
    1-3: right; rewrite Hk' in Hm; change (2 ^ 29) with 536870912 in *;
      change (2 ^ 30) with 1073741824 in *; change (2 ^ 31) with 2147483648 in *; zlia.
    left. apply Z.pow_le_mono_r; lia. }
  clearbody k. set (w := 2 ^ k) in *. clearbody w.
  destruct (decide (u32 (nw_address n + w - 1))) as [Hu|Hu].
  2:{ unfold u32, is_private, octet in *. exfalso.
      change (256 ^ (3 - 0)) with 16777216 in *. change (256 ^ (3 - 1)) with 65536 in *.
      change (2 ^ 29) with 536870912 in *. zlia. }
  apply is_private_ranges in Hfirst; [|done]. apply is_private_ranges in Hlast; [|done].
  apply is_private_ranges; [done|]. unfold ipv4_new in *.
  change (2 ^ 29) with 536870912 in *. change (2 ^ 28) with 268435456 in *. zlia.
Qed.

Lemma overlaps_comm n m : overlaps n m = overlaps m n.
Proof. unfold overlaps. apply orb_comm. Qed.

Lemma overlaps_spec n m :
  network_ok n → network_ok m →
  overlaps n m = true ↔ ∃ a, u32 a ∧ contains n a = true ∧ contains m a = true.
Proof.
  intros Hn Hm. pose proof Hn as (Hpn & Hun & Hdn & _). pose proof Hm as (Hpm & Hum & Hdm & _).
  unfold overlaps. rewrite orb_true_iff. split.
  - intros [H|H]; [exists (nw_address m)|exists (nw_address n)];
      split_and!; auto using contains_own.
  - intros (a & Ha & H1 & H2). rewrite contains_interval in H1, H2 by done. rewrite !contains_interval by done.
    pose proof (pow_bounds _ Hpn). pose proof (pow_bounds _ Hpm).
    set (w := 2 ^ (32 - nw_prefix n)) in *. set (v := 2 ^ (32 - nw_prefix m)) in *.
    clearbody w v. lia.
Qed.

(** ** Longest prefix selection *)

Lemma best_prefix_none target networks :
  best_prefix target networks = None ↔ Forall (λ n, contains n target = false) networks.
Proof.
  induction networks as [|n ns IH]; simpl; [done|].
  rewrite Forall_cons, <- IH. destruct (contains n target); naive_solver.
Qed.

Lemma best_prefix_some target networks q :
  best_prefix target networks = Some q →
  (∃ n, n ∈ networks ∧ contains n target = true ∧ nw_prefix n = q) ∧
  (∀ n, n ∈ networks → contains n target = true → nw_prefix n ≤ q).
Proof.
  revert q. induction networks as [|n ns IH]; intros q; simpl; [done|].
  destruct (contains n target) eqn:E.
  - intros [= <-]. destruct (best_prefix target ns) as [m|] eqn:Eb.
    + destruct (IH m eq_refl) as [(n' & Hin & Hc & <-) Hmax]. split.
      * destruct (Z.le_ge_cases (nw_prefix n) (nw_prefix n')).
        -- exists n'. split_and!; [by right|done|lia].
        -- exists n. split_and!; [left|done|lia].
      * intros x [->|Hx]%elem_of_cons Hcx; [lia|]. specialize (Hmax x Hx Hcx). lia.
    + apply best_prefix_none in Eb. rewrite Forall_forall in Eb. split.
      * exists n. split_and!; [left|done..].
      * intros x [->|Hx]%elem_of_cons Hcx; [lia|]. rewrite Eb in Hcx by done. done.
  - intros H. destruct (IH q H) as [(n' & Hin & Hc & Hq) Hmax]. split.
    + exists n'. split_and!; [by right|done..].
    + intros x [->|Hx]%elem_of_cons Hcx; [congruence|]. auto.
Qed.

(** [(peer, prefix)] is the choice among [peers]: the first with the longest match. *)
Definition best_peer (target : ipv4) (peers : list (string * list Network))
    (peer : string) (q : Z) : Prop :=
  ∃ before networks after,
    peers = before ++ (peer, networks) :: after ∧
    best_prefix target networks = Some q ∧
    (∀ e q', e ∈ before → best_prefix target e.2 = Some q' → q' < q) ∧
    (∀ e q', e ∈ after → best_prefix target e.2 = Some q' → q' ≤ q).

Definition unmatched (target : ipv4) (peers : list (string * list Network)) : Prop :=
  ∀ e, e ∈ peers → best_prefix target e.2 = None.

Lemma select_fold target peers :
  let s := foldl (select_step target) (mkSelected None 0 None 0) peers in
  sel_count s = len peers ∧ sel_single s = fst <$> last peers ∧
  match sel_chosen s with
  | None => unmatched target peers
  | Some p => best_peer target peers p (sel_longest s)
  end.
Proof.
  induction peers as [|[peer networks] peers IH] using rev_ind; simpl.
  { split_and!; [done|done|]. intros e []%elem_of_nil. }
  rewrite foldl_snoc, length_app, last_snoc. simpl.
  set (s := foldl _ _ _) in *. destruct IH as (Hcount & _ & IH).
  destruct (best_prefix target networks) as [q|] eqn:Eq.
  - destruct (sel_chosen s) as [p|] eqn:Ec.
    + rewrite bool_decide_false by done. simpl.
      destruct (Z.ltb_spec (sel_longest s) q); simpl; split_and!; try (simpl; lia); try done.
      * destruct IH as (b & ns & a & -> & Hb & Hlt & Hle).
        exists (b ++ (p, ns) :: a), networks, []. split_and!; try done.
        -- intros e q' [He|[->|He]%elem_of_cons]%elem_of_app Hq'; simpl in *;
             [specialize (Hlt e q' He Hq')|congruence || (rewrite Hb in Hq'; injection Hq'; lia)
             |specialize (Hle e q' He Hq')]; lia.
        -- intros e q' []%elem_of_nil.
      * destruct IH as (b & ns & a & -> & Hb & Hlt & Hle).
        exists b, ns, (a ++ [(peer, networks)]). split_and!; try done.
        -- by rewrite <- (assoc_L (++)).
        -- intros e q' [He| ->%list_elem_of_singleton]%elem_of_app Hq'; simpl in *; [eauto|].
           rewrite Eq in Hq'. injection Hq'. lia.
    + rewrite bool_decide_true by done. simpl. split_and!; [lia|done|].
      exists peers, networks, []. split_and!; try done.
      * intros e q' He Hq'. by rewrite IH in Hq'.
      * intros e q' []%elem_of_nil.
  - simpl. split_and!; [lia|done|]. destruct (sel_chosen s) as [p|] eqn:Ec.
    + destruct IH as (b & ns & a & -> & Hb & Hlt & Hle).
      exists b, ns, (a ++ [(peer, networks)]). split_and!; try done.
      * by rewrite <- (assoc_L (++)).
      * intros e q' [He| ->%list_elem_of_singleton]%elem_of_app Hq'; simpl in *; [eauto|congruence].
    + intros e [He| ->%list_elem_of_singleton]%elem_of_app; auto.
Qed.

(** ** Host routes cover the selector *)

Lemma btree_collect_elem l n : n ∈ btree_collect l ↔ n ∈ l.
Proof. unfold btree_collect. by rewrite merge_sort_Permutation, elem_of_remove_dups. Qed.

Lemma private_ranges_cover target :
  u32 target → is_private target = true →
  ∃ n, n ∈ private_ranges ∧ contains n target = true.
Proof.
  intros Ht Hp. apply is_private_ranges in Hp; [|done].
  assert (Forall network_ok private_ranges) as Hok
    by (apply (bool_decide_unpack _); vm_compute; exact I).
  rewrite Forall_forall in Hok.
  unfold private_ranges in *. unfold ipv4_new in *.
  destruct Hp as [Hp|[Hp|Hp]];
    [exists (mkNetwork (((10 * 256 + 0) * 256 + 0) * 256 + 0) 8)
    |exists (mkNetwork (((172 * 256 + 16) * 256 + 0) * 256 + 0) 12)
    |exists (mkNetwork (((192 * 256 + 168) * 256 + 0) * 256 + 0) 16)];
    (split; [set_solver|]);
    (apply contains_interval; [apply Hok; set_solver|done|]); cbn [nw_address nw_prefix];
    [change (2 ^ (32 - 8)) with 16777216|change (2 ^ (32 - 12)) with 1048576
    |change (2 ^ (32 - 16)) with 65536]; lia.
Qed.

Lemma from_address_self n : network_ok n → from_address (nw_address n) (nw_prefix n) = Ok n.
Proof.
  intros (Hp & Hu & Hm & Hf & Hl). unfold from_address.
  rewrite ensure_true by lia. cbn [rbind].
  rewrite land_mask, Hm, Z.sub_0_r, lor_host, Hf, Hl by done. by destruct n.
Qed.

Lemma string_length_app s t :
  String.length (s +:+ t) = (String.length s + String.length t)%nat.
Proof. induction s as [|a s IH]; simpl; [done|]. by rewrite IH. Qed.

(** A destination has a host route. *)
Definition covered (target : ipv4) (peers : list (string * list Network))
    (available : string → bool) : Prop :=
  ∃ n, n ∈ lan_networks peers available ∧ contains n target = true.

Lemma covered_sole target peers (available : string → bool) :
  u32 target → len peers = 1 ∨ len (filter (λ p, available p.1) peers) = 1 →
  covered target peers available ↔ is_private target = true.
Proof.
  intros Ht Hsole. unfold covered, lan_networks.
  assert ((len peers =? 1) || (len (filter (λ p, available p.1) peers) =? 1) = true) as ->
    by (apply orb_true_iff; lia).
  split; [|by apply private_ranges_cover].
  intros (n & Hn & Hc). apply (network_private n); [|done..].
  assert (Forall network_ok private_ranges) as Hok
    by (apply (bool_decide_unpack _); vm_compute; exact I).
  rewrite Forall_forall in Hok. auto.
Qed.

Lemma covered_several target peers (available : string → bool) :
  len peers ≠ 1 → len (filter (λ p, available p.1) peers) ≠ 1 →
  covered target peers available ↔
  ∃ e n, e ∈ peers ∧ n ∈ e.2 ∧ contains n target = true.
Proof.
  intros H1 H2. unfold covered, lan_networks.
  assert ((len peers =? 1) || (len (filter (λ p, available p.1) peers) =? 1) = false) as ->
    by (apply orb_false_iff; lia).
  setoid_rewrite btree_collect_elem. setoid_rewrite list_elem_of_join.
  setoid_rewrite list_elem_of_fmap. naive_solver.
Qed.

Lemma choose_one target (e : string * list Network) :
  choose target [e] = Some e.1 ↔ ∃ n, n ∈ e.2 ∧ contains n target = true.
Proof.
  destruct e as [peer networks]. unfold choose, select, select_step. simpl.
  destruct (best_prefix target networks) as [q|] eqn:E; simpl.
  - apply best_prefix_some in E as [(n & Hn & Hc & _) _]. naive_solver.
  - apply best_prefix_none in E. rewrite Forall_forall in E.
    split; [done|]. intros (n & Hn & Hc). rewrite E in Hc; done.
Qed.

Lemma select_unmatched target peers fallback :
  unmatched target peers →
  is_Some (select target peers fallback) ↔
  fallback = true ∧ len peers = 1 ∧ is_private target = true.
Proof.
  intros Hu. unfold select. pose proof (select_fold target peers) as (Hc & Hs & H).
  set (s := foldl _ _ _) in *. clearbody s. rewrite Hc.
  destruct (sel_chosen s) as [p|].
  - destruct H as (b & ns & a & -> & Hq & _). specialize (Hu (p, ns) ltac:(set_solver)). simpl in Hu. congruence.
  - destruct (fallback && _ && _) eqn:G; split_guard.
    + rewrite Hs. destruct peers as [|e [|]]; cbn [length] in *; [lia|naive_solver|lia].
    + split; [by intros []|]. intros (-> & Hl & Hp). rewrite Hp in G. simpl in G. lia.
Qed.

Lemma select_cases target peers :
  unmatched target peers ∨
  ∃ e n, e ∈ peers ∧ n ∈ e.2 ∧ contains n target = true ∧
    ∀ fallback, is_Some (select target peers fallback).
Proof.
  unfold select. pose proof (select_fold target peers) as (_ & _ & H).
  set (s := foldl _ _ _) in *. clearbody s. destruct (sel_chosen s) as [p|]; [right|by left].
  destruct H as (b & ns & a & -> & Hq & _).
  apply best_prefix_some in Hq as [(n & Hn & Hc & _) _].
  exists (p, ns), n. split_and!; [set_solver|done..|done].
Qed.

(** ** Properties *)

(** What [from_address] accepts is the block of the [2^(32-prefix)] addresses that
    share the first [prefix] bits with the given address, and every one of them is a
    private address: an advertisement cannot claim part of the internet even though
    only its first and last address are checked. *)
Theorem network_stays_private address prefix n target :
  u32 address → u32 target → from_address address prefix = Ok n →
  (contains n target = true ↔ target / 2 ^ (32 - prefix) = address / 2 ^ (32 - prefix)) ∧
  (contains n target = true → is_private target = true).
Proof.
  intros Ha Ht H. destruct (from_address_ok _ _ _ Ha H) as (Hok & Hp & Hadr).
  split; [|by apply network_private].
  pose proof Hok as (Hpr & _). pose proof (pow_bounds _ Hpr) as Hk. rewrite Hp in *.
  unfold contains. rewrite Hp, Z.eqb_eq, !Z.shiftr_div_pow2, Hadr by lia.
  set (w := 2 ^ (32 - prefix)) in *.
  assert ((address - address mod w) / w = address / w) as ->; [|done].
  symmetry. apply Z.div_unique with (r := 0); [lia|].
  pose proof (Z.div_mod address w ltac:(lia)). lia.
Qed.

Lemma network_stays_private_witness :
  let n := mkNetwork (ipv4_new 192 168 86 0) 24 in
  let target := ipv4_new 192 168 86 20 in
  from_address (ipv4_new 192 168 86 130) 24 = Ok n ∧ contains n target = true ∧
  is_private target = true.
Proof.
  intros n target. split; [vm_compute; reflexivity|]. split; [vm_compute; reflexivity|].
  refine (proj2 (network_stays_private (ipv4_new 192 168 86 130) 24 n target _ _ _) _);
    by vm_compute.
Defined.

(** The text form of a network parses back to the same network: [from_str] accepts
    every canonical advertisement that [Display] prints, within its 18 byte limit. *)
Theorem from_str_show n : network_ok n → from_str (show_network n) = Ok n.
Proof.
  intros Hok. pose proof Hok as (Hp & Hu & _).
  destruct (show_u8_facts (nw_prefix n)) as (_ & Hpp & _ & _ & Hpl); [unfold u8; lia|].
  unfold from_str. rewrite ensure_true; cbn [rbind].
  2:{ unfold slen in *. unfold show_network, show_ipv4.
      repeat rewrite string_length_app. simpl String.length.
      pose proof (λ i, proj2 (proj2 (proj2 (proj2 (show_u8_facts _ (octet_range i (nw_address n)))))))
        as Hl.
      pose proof (Hl 0). pose proof (Hl 1). pose proof (Hl 2). pose proof (Hl 3).
      unfold slen in *.
      pose proof (show_u8_prefix (nw_prefix n) ltac:(lia)). unfold slen in *. lia. }
  unfold show_network. change ("/" +:+ ?x) with (String "/" x).
  rewrite split_once_app by apply show_ipv4_no_slash. cbn [ok_or rbind].
  rewrite parse_show_ipv4 by done. cbn [ok_or rbind]. rewrite Hpp. cbn [ok_or rbind].
  rewrite from_address_self by done. cbn [rbind]. by rewrite ensure_true by apply Z.eqb_refl.
Qed.

Lemma from_str_show_witness :
  show_network (mkNetwork (ipv4_new 172 16 0 0) 12) = "172.16.0.0/12" ∧
  from_str (show_network (mkNetwork (ipv4_new 172 16 0 0) 12))
  = Ok (mkNetwork (ipv4_new 172 16 0 0) 12).
Proof.
  split; [vm_compute; reflexivity|].
  apply from_str_show. apply (bool_decide_unpack _). vm_compute. exact I.
Defined.

(** The selector implements longest prefix match with the peers' order as the tie
    break: the chosen peer is the first one that advertises a longest network around the
    target; without a match the only peer is taken for a private target when the fallback
    is asked for, and otherwise no peer. *)
Theorem select_longest_prefix target peers fallback :
  match select target peers fallback with
  | Some peer =>
      (∃ q, best_peer target peers peer q) ∨
      (unmatched target peers ∧ fallback = true ∧ is_private target = true ∧
       ∃ networks, peers = [(peer, networks)])
  | None =>
      unmatched target peers ∧
      ¬ (fallback = true ∧ is_private target = true ∧ length peers = 1%nat)
  end.
Proof.
  unfold select. pose proof (select_fold target peers) as (Hc & Hs & H).
  set (s := foldl _ _ _) in *. clearbody s.
  destruct (sel_chosen s) as [p|]; [left; eauto|]. rewrite Hc.
  destruct (fallback && _ && _) eqn:G.
  - split_guard. rewrite Hs. destruct peers as [|[p ns] [|]]; cbn [length] in *; [lia| |lia].
    right. split_and!; try done. eauto.
  - split; [done|]. intros (-> & Hp & Hl). rewrite Hp, Hl in G. done.
Qed.

(** C13. The host routes that [lan_networks] installs against the per-flow selector, which
    is called with the currently available peers: every target the selector sends to a peer
    has a route, also when only the sole-peer fallback makes it reachable; with exactly one
    available peer the routes contain just the targets the selector serves.  Exactly: with
    a single peer configured or available the routed targets are the private addresses,
    and otherwise the targets for which some configured peer, available or not, would be
    chosen by its own advertisement (so a peer that comes back needs no new route). *)
Theorem lan_routes_cover_selector target peers (available : string → bool) :
  u32 target → Forall (λ p, Forall network_ok p.2) peers →
  let live := filter (λ p, available p.1) peers in
  let served := is_Some (choose_with_single_fallback target live) in
  (served → covered target peers available) ∧
  (len live = 1 → covered target peers available → served) ∧
  (covered target peers available ↔
   if decide (len peers = 1 ∨ len live = 1) then is_private target = true
   else ∃ e, e ∈ peers ∧ choose target [e] = Some e.1).
Proof.
  intros Ht Hok live served. rewrite Forall_forall in Hok.
  assert (∀ e n, e ∈ peers → n ∈ e.2 → contains n target = true → is_private target = true)
    as Hpriv.
  { intros e n He Hn Hc. specialize (Hok e He). rewrite Forall_forall in Hok.
    by eapply network_private; [by apply Hok|..]. }
  assert (covered target peers available ↔
   if decide (len peers = 1 ∨ len live = 1) then is_private target = true
   else ∃ e, e ∈ peers ∧ choose target [e] = Some e.1) as Hexact.
  { case_decide as Hsole; [by apply covered_sole|]. rewrite covered_several by tauto.
    setoid_rewrite choose_one. naive_solver. }
  unfold served, choose_with_single_fallback.
  destruct (select_cases target live) as [Hun|(e & n & He & Hn & Hc & Hsome)].
  - rewrite select_unmatched, Hexact by done. split_and!; [..|done].
    + intros (_ & Hl & Hp). by rewrite decide_True by tauto.
    + intros Hl. by rewrite decide_True by tauto.
  - assert (e ∈ peers) as He' by (by apply list_elem_of_filter in He as [_ ?]).
    split_and!; [|by intros _ _|done]. intros _. apply Hexact.
    case_decide; [by eapply Hpriv|]. exists e. split; [done|]. apply choose_one. eauto.
Qed.

Lemma lan_routes_cover_selector_witness :
  let peers := [("first", [mkNetwork (ipv4_new 10 20 0 0) 16]);
                ("second", [mkNetwork (ipv4_new 172 20 0 0) 16]);
                ("third", [mkNetwork (ipv4_new 192 168 7 0) 24])] in
  let available := λ id : string, bool_decide (id ≠ "third") in
  let alone := λ id : string, bool_decide (id = "first") in
  covered (ipv4_new 172 20 0 9) peers available ∧
  ¬ covered (ipv4_new 192 168 0 153) peers available ∧
  covered (ipv4_new 192 168 7 1) peers available ∧
  covered (ipv4_new 192 168 0 153) peers alone ∧
  choose_with_single_fallback (ipv4_new 192 168 0 153) (filter (λ p, alone p.1) peers)
  = Some "first".
Proof.
  intros peers available alone.
  assert (∀ p live, u32 p → _) as T
    by (intros p live Hp; refine (lan_routes_cover_selector p peers live Hp _);
        apply (bool_decide_unpack _); vm_compute; exact I).
  pose proof (T (ipv4_new 172 20 0 9) available ltac:(by vm_compute)) as (T1 & _).
  pose proof (T (ipv4_new 192 168 0 153) available ltac:(by vm_compute)) as (_ & _ & T2).
  pose proof (T (ipv4_new 192 168 7 1) available ltac:(by vm_compute)) as (_ & _ & T3).
  pose proof (T (ipv4_new 192 168 0 153) alone ltac:(by vm_compute)) as (T4 & _).
  split_and!; [..|vm_compute; reflexivity].
  - apply T1. apply (bool_decide_unpack _). vm_compute. exact I.
  - intros Hc. apply T2 in Hc. rewrite decide_False in Hc by (vm_compute; intuition discriminate).
    destruct Hc as (e & He & Hc). revert Hc.
    repeat (apply elem_of_cons in He as [->|He]; [by vm_compute|]).
    by apply elem_of_nil in He.
  - apply T3. rewrite decide_False by (vm_compute; intuition discriminate).
    exists ("third", [mkNetwork (ipv4_new 192 168 7 0) 24]).
    split; [set_solver|by vm_compute].
  - apply T4. apply (bool_decide_unpack _). vm_compute. exact I.
Defined.
