(* ===== verification/Packet.v ===== *)
(** * Packets and flow keys ([porthub-network/src/policy.rs], first part)

    The IPv4 parser of the packet path, the flow key it extracts and the
    direction-independent flow identity. *)

From S2P Require Import Prelude Net ControlPacket.
Local Open Scope Z_scope.

Record Key := mkKey {
  src : ipv4; dst : ipv4; protocol : Z; sport : Z; dport : Z; icmp : Z;
}.

#[global] Instance Key_eq_dec : EqDecision Key.
Proof. solve_decision. Defined.
#[global] Instance Key_countable : Countable Key.
Proof.
  refine (inj_countable'
    (λ k, (src k, dst k, protocol k, sport k, dport k, icmp k))
    (λ '(a, b, c, d, e, f), mkKey a b c d e f) _).
  by intros [].
Defined.

Record Packet := mkPacket {
  key : Key; syn : bool; ack : bool; rst : bool; fin : bool;
  icmp_type : Z; tcp_sequence : Z;
}.

(** [Packet::source], [Packet::destination] *)
Definition pkt_source (p : Packet) : ipv4 := src (key p).
Definition pkt_destination (p : Packet) : ipv4 := dst (key p).

Definition opening_sequence (p : Packet) : option Z :=
  if (protocol (key p) =? 6) && syn p && negb (ack p) && negb (fin p) && negb (rst p)
  then Some (tcp_sequence p) else None.

Definition is_finish (p : Packet) : bool := (protocol (key p) =? 6) && fin p.
Definition is_reset (p : Packet) : bool := (protocol (key p) =? 6) && rst p.

(** The match on the protocol byte in [Packet::parse]: the header checks of TCP, UDP
    and ICMP after the IP header of [h] bytes in a packet of [n] bytes. *)
Definition parse_transport (bytes : list Z) (h n : Z) (packet : Packet)
    : res (option Packet) :=
  let! proto := idx bytes 9 in
  let! room := usub n h in
  if proto =? 6 then
    if room <? 20 then Ok None else
    let! off := idx bytes (h + 12) in
    let header := Z.shiftr off 4 * 4 in
    if (header <? 20) || (room <? header) then Ok None else
    let! seq := slice bytes (h + 4) (h + 8) in
    let! flags := idx bytes (h + 13) in
    Ok (Some (mkPacket (key packet)
      (negb (Z.land flags 2 =? 0)) (negb (Z.land flags 16 =? 0))
      (negb (Z.land flags 4 =? 0)) (negb (Z.land flags 1 =? 0))
      (icmp_type packet) (from_be seq)))
  else if proto =? 17 then
    if room <? 8 then Ok None else
    let! a := idx bytes (h + 4) in
    let! b := idx bytes (h + 5) in
    if negb (u16_from_be a b =? room) then Ok None else Ok (Some packet)
  else if proto =? 1 then
    if room <? 8 then Ok None else
    let! kind := idx bytes h in
    if negb ((kind =? 0) || (kind =? 8)) then Ok None else
    let! a := idx bytes (h + 4) in
    let! b := idx bytes (h + 5) in
    let k := key packet in
    Ok (Some (mkPacket
      (mkKey (src k) (dst k) (protocol k) (sport k) (dport k) (u16_from_be a b))
      (syn packet) (ack packet) (rst packet) (fin packet) kind (tcp_sequence packet)))
  else Ok None.

(** The ports, read for every protocol but ICMP; zero ports are refused. *)
Definition parse_ports (bytes : list Z) (h : Z) (packet : Packet) : res (option Packet) :=
  let! proto := idx bytes 9 in
  if negb (proto =? 1) then
    let! s0 := idx bytes h in
    let! s1 := idx bytes (h + 1) in
    let! d0 := idx bytes (h + 2) in
    let! d1 := idx bytes (h + 3) in
    let s := u16_from_be s0 s1 in
    let d := u16_from_be d0 d1 in
    if (s =? 0) || (d =? 0) then Ok None else
    let k := key packet in
    Ok (Some (mkPacket (mkKey (src k) (dst k) (protocol k) s d (icmp k))
      (syn packet) (ack packet) (rst packet) (fin packet)
      (icmp_type packet) (tcp_sequence packet)))
  else Ok (Some packet).

Definition parse (bytes : list Z) : res (option Packet) :=
  if len bytes <? 20 then Ok None else
  let! b0 := idx bytes 0 in
  if negb (Z.shiftr b0 4 =? 4) then Ok None else
  let h := Z.land b0 15 * 4 in
  let! b2 := idx bytes 2 in
  let! b3 := idx bytes 3 in
  let n := u16_from_be b2 b3 in
  if (h <? 20) || (len bytes <? h) || negb (n =? len bytes) then Ok None else
  let! b6 := idx bytes 6 in
  let! b7 := idx bytes 7 in
  if negb (Z.land (u16_from_be b6 b7) 0x3fff =? 0) then Ok None else
  let! head := slice bytes 0 h in
  if negb (fold_carry 3 (sum_words head) =? 65535) then Ok None else
  let! b12 := idx bytes 12 in
  let! b13 := idx bytes 13 in
  let! b14 := idx bytes 14 in
  let! b15 := idx bytes 15 in
  let! b16 := idx bytes 16 in
  let! b17 := idx bytes 17 in
  let! b18 := idx bytes 18 in
  let! b19 := idx bytes 19 in
  let! b9 := idx bytes 9 in
  let packet := mkPacket
    (mkKey (ipv4_new b12 b13 b14 b15) (ipv4_new b16 b17 b18 b19) b9 0 0 0)
    false false false false 0 0 in
  let! r := parse_transport bytes h n packet in
  match r with
  | None => Ok None
  | Some packet => parse_ports bytes h packet
  end.

(** ** Flow identity *)

Definition reverse (k : Key) : Key :=
  mkKey (dst k) (src k) (protocol k) (dport k) (sport k) (icmp k).

(** The derived [Ord] of [Key]: lexicographic in the order of the fields. *)
Definition key_compare (a b : Key) : comparison :=
  match src a ?= src b with
  | Eq =>
      match dst a ?= dst b with
      | Eq =>
          match protocol a ?= protocol b with
          | Eq =>
              match sport a ?= sport b with
              | Eq =>
                  match dport a ?= dport b with
                  | Eq => icmp a ?= icmp b
                  | c => c
                  end
              | c => c
              end
          | c => c
          end
      | c => c
      end
  | c => c
  end.

(** [Ord::min]: the first argument unless the second is smaller. *)
Definition key_min (a b : Key) : Key :=
  match key_compare a b with Gt => b | _ => a end.

(** [Packet::flow_id]; [FlowId] is a newtype around the key. *)
Definition flow_id (p : Packet) : Key := key_min (key p) (reverse (key p)).

Definition TCP_ESTABLISHED_TTL : Z := from_secs (5 * 24 * 60 * 60).
Definition ttl (protocol : Z) : Z := from_secs (if protocol =? 6 then 300 else 30).

Definition flow_ttl (p : Packet) : Z :=
  if (protocol (key p) =? 6) && ack p && negb (syn p)
  then TCP_ESTABLISHED_TTL else ttl (protocol (key p)).

(** ** What the parser establishes *)

Definition packet_ok (p : Packet) : Prop :=
  let k := key p in
  u32 (src k) ∧ u32 (dst k) ∧ u16 (sport k) ∧ u16 (dport k) ∧ u16 (icmp k) ∧
  u32 (tcp_sequence p) ∧
  ( protocol k = 6 ∧ sport k ≠ 0 ∧ dport k ≠ 0 ∧ icmp k = 0 ∨
    protocol k = 17 ∧ sport k ≠ 0 ∧ dport k ≠ 0 ∧ icmp k = 0 ∨
    protocol k = 1 ∧ sport k = 0 ∧ dport k = 0 ∧ (icmp_type p = 0 ∨ icmp_type p = 8)).

Definition total_ok {A} (P : A → Prop) (r : res (option A)) : Prop :=
  match r with
  | Ok (Some a) => P a
  | Ok None => True
  | Err _ | Panic => False
  end.

Lemma parse_transport_ok bytes h packet :
  bytes_ok bytes → 20 ≤ h ≤ len bytes →
  protocol (key packet) = byte_at bytes 9 → sport (key packet) = 0 → dport (key packet) = 0 →
  icmp (key packet) = 0 → tcp_sequence packet = 0 →
  total_ok (λ q,
    src (key q) = src (key packet) ∧ dst (key q) = dst (key packet) ∧
    protocol (key q) = byte_at bytes 9 ∧ sport (key q) = 0 ∧ dport (key q) = 0 ∧
    u16 (icmp (key q)) ∧ u32 (tcp_sequence q) ∧ 8 ≤ len bytes - h ∧
    ((protocol (key q) = 6 ∨ protocol (key q) = 17) ∧ icmp (key q) = 0 ∨
     protocol (key q) = 1 ∧ (icmp_type q = 0 ∨ icmp_type q = 8)))
    (parse_transport bytes h (len bytes) packet).
Proof.
  intros Hb Hh Hp Hs Hd Hi Ht. unfold parse_transport.
  rewrite idx_byte_at by lia. cbn [rbind]. rewrite usub_ok by lia. cbn [rbind].
  destruct (Z.eqb_spec (byte_at bytes 9) 6) as [E6|N6].
  - destruct (Z.ltb_spec (len bytes - h) 20); [done|].
    rewrite (idx_byte_at _ (h + 12)) by lia. cbn [rbind]. case_match; [done|].
    rewrite slice_ok, (idx_byte_at _ (h + 13)) by lia. cbn [rbind total_ok].
    cbn [key icmp_type tcp_sequence]. rewrite Hp, Hi, Hs, Hd.
    set (seq := take _ _).
    assert (u32 (from_be seq)).
    { pose proof (from_be_range seq ltac:(unfold seq; auto with porthub)) as Hr.
      assert (len seq = 4) as E4 by (unfold seq; rewrite length_take, length_drop; lia).
      rewrite E4 in Hr. exact Hr. }
    split_and!; try done; lia.
  - destruct (Z.eqb_spec (byte_at bytes 9) 17) as [E17|N17].
    + destruct (Z.ltb_spec (len bytes - h) 8); [done|].
      rewrite (idx_byte_at _ (h + 4)), (idx_byte_at _ (h + 5)) by lia. cbn [rbind].
      case_match; [done|]. cbn [total_ok]. rewrite Ht, Hi, Hs, Hd, Hp.
      split_and!; try done; lia.
    + destruct (Z.eqb_spec (byte_at bytes 9) 1) as [E1|N1]; [|done].
      destruct (Z.ltb_spec (len bytes - h) 8); [done|].
      rewrite (idx_byte_at _ h) by lia. cbn [rbind].
      destruct (negb _) eqn:Hk; [done|].
      rewrite (idx_byte_at _ (h + 4)), (idx_byte_at _ (h + 5)) by lia. cbn [rbind total_ok].
      cbn [key src dst protocol sport dport icmp icmp_type tcp_sequence]. rewrite Ht, Hs, Hd, Hp.
      pose proof (u16_from_be_range _ _ (byte_at_u8 bytes (h + 4) Hb) (byte_at_u8 bytes (h + 5) Hb)).
      split_and!; try done; lia.
Qed.

Lemma parse_ports_ok bytes h packet :
  bytes_ok bytes → 20 ≤ h → 8 ≤ len bytes - h → protocol (key packet) = byte_at bytes 9 →
  sport (key packet) = 0 → dport (key packet) = 0 →
  total_ok (λ q,
    src (key q) = src (key packet) ∧ dst (key q) = dst (key packet) ∧
    protocol (key q) = protocol (key packet) ∧ icmp (key q) = icmp (key packet) ∧
    icmp_type q = icmp_type packet ∧ tcp_sequence q = tcp_sequence packet ∧
    u16 (sport (key q)) ∧ u16 (dport (key q)) ∧
    (if protocol (key packet) =? 1 then sport (key q) = 0 ∧ dport (key q) = 0
     else sport (key q) ≠ 0 ∧ dport (key q) ≠ 0))
    (parse_ports bytes h packet).
Proof.
  intros Hb Hh Hl Hp Hs Hd. unfold parse_ports. rewrite idx_byte_at by lia. cbn [rbind].
  rewrite Hp. destruct (byte_at bytes 9 =? 1) eqn:E; cbn [negb].
  - cbn [total_ok]. rewrite Hs, Hd. unfold u16. split_and!; try done; lia.
  - rewrite !(idx_byte_at bytes) by lia. cbn [rbind].
    case_match; [done|]. cbn [total_ok key src dst protocol sport dport icmp icmp_type tcp_sequence].
    pose proof (λ i, byte_at_u8 bytes i Hb) as Hu.
    pose proof (u16_from_be_range _ _ (Hu h) (Hu (h + 1))).
    pose proof (u16_from_be_range _ _ (Hu (h + 2)) (Hu (h + 3))).
    split_and!; try done; lia.
Qed.

(** The parser never panics, and it reads the protocol from byte 9. *)
Lemma parse_ok bytes :
  bytes_ok bytes →
  total_ok (λ p, packet_ok p ∧ protocol (key p) = byte_at bytes 9) (parse bytes).
Proof.
  intros Hb. unfold parse.
  destruct (Z.ltb_spec (len bytes) 20) as [|Hl]; [done|].
  rewrite (idx_byte_at bytes 0) by lia. cbn [rbind]. case_match; [done|].
  rewrite (idx_byte_at bytes 2), (idx_byte_at bytes 3) by lia. cbn [rbind].
  set (h := Z.land _ 15 * 4). set (n := u16_from_be (byte_at bytes 2) _).
  destruct ((h <? 20) || (len bytes <? h) || negb (n =? len bytes)) eqn:G; [done|].
  assert (20 ≤ h ≤ len bytes ∧ n = len bytes) as [Hh Hn] by lia. rewrite Hn. clearbody h.
  rewrite (idx_byte_at bytes 6), (idx_byte_at bytes 7) by lia. cbn [rbind].
  case_match; [done|]. rewrite slice_ok by lia. cbn [rbind]. case_match; [done|].
  repeat (rewrite (idx_byte_at bytes) by lia; cbn [rbind]).
  set (packet := mkPacket _ _ _ _ _ _ _).
  pose proof (parse_transport_ok bytes h packet Hb Hh eq_refl eq_refl eq_refl eq_refl eq_refl) as HT.
  destruct (parse_transport bytes h (len bytes) packet) as [[q|]| |]; cbn [rbind]; try done.
  cbn [total_ok] in HT. destruct HT as (Hsrc & Hdst & Hproto & Hs & Hd & Hi & Ht & H8 & Hcase).
  pose proof (parse_ports_ok bytes h q Hb ltac:(lia) H8 Hproto Hs Hd) as HP.
  destruct (parse_ports bytes h q) as [[r|]| |]; try done. cbn [total_ok] in *.
  destruct HP as (F1 & F2 & F3 & F4 & F5 & F6 & F7 & F9 & F10).
  assert (u32 (src (key packet)) ∧ u32 (dst (key packet))) as [Hu1 Hu2]
    by (split; apply ipv4_new_u32; auto with porthub).
  unfold packet_ok. rewrite F1, F2, F3, F4, F5, F6, Hsrc, Hdst.
  split; [|congruence]. split_and!; try done.
  destruct Hcase as [[[E|E] Ei]|[E Ei]]; rewrite E in F10; simpl in F10; tauto.
Qed.

Lemma parse_some bytes p :
  bytes_ok bytes → parse bytes = Ok (Some p) → packet_ok p ∧ protocol (key p) = byte_at bytes 9.
Proof. intros Hb H. pose proof (parse_ok bytes Hb) as Hp. by rewrite H in Hp. Qed.

(** ** Flow identity *)

Lemma reverse_involutive k : reverse (reverse k) = k.
Proof. by destruct k. Qed.

Lemma key_compare_eq a b : key_compare a b = Eq ↔ a = b.
Proof.
  destruct a as [a1 a2 a3 a4 a5 a6], b as [b1 b2 b3 b4 b5 b6]. unfold key_compare. simpl.
  split; [|intros [= -> -> -> -> -> ->]; by rewrite !Z.compare_refl].
  repeat match goal with
  | |- context [?x ?= ?y] => destruct (Z.compare_spec x y); [|done|done]
  end. by subst.
Qed.

Lemma key_compare_antisym a b : key_compare b a = CompOpp (key_compare a b).
Proof.
  unfold key_compare.
  rewrite (Z.compare_antisym (src a) (src b)), (Z.compare_antisym (dst a) (dst b)),
    (Z.compare_antisym (protocol a) (protocol b)), (Z.compare_antisym (sport a) (sport b)),
    (Z.compare_antisym (dport a) (dport b)), (Z.compare_antisym (icmp a) (icmp b)).
  repeat match goal with |- context [?x ?= ?y] => destruct (x ?= y); simpl; try done end.
Qed.

Lemma key_min_comm a b : key_min a b = key_min b a.
Proof.
  unfold key_min. rewrite (key_compare_antisym a b).
  destruct (key_compare a b) eqn:E; simpl; try done. by apply key_compare_eq.
Qed.

Lemma key_min_or a b : key_min a b = a ∨ key_min a b = b.
Proof. unfold key_min. destruct (key_compare a b); auto. Qed.

Lemma flow_id_same p q : key p = key q ∨ key p = reverse (key q) → flow_id p = flow_id q.
Proof.
  unfold flow_id. intros [->| ->]; [done|]. rewrite reverse_involutive. apply key_min_comm.
Qed.

(** ** Properties *)

(** [Packet::parse] never panics on any byte string, and what it accepts is well
    formed: addresses, ports and sequence number in range, protocol TCP, UDP or ICMP,
    no zero port on TCP and UDP, and only echo requests and replies on ICMP. *)
Theorem parse_total bytes : bytes_ok bytes → total_ok packet_ok (parse bytes).
Proof.
  intros Hb. pose proof (parse_ok bytes Hb) as H.
  destruct (parse bytes) as [[p|]| |]; try done. by destruct H.
Qed.

(** An ICMP echo request of 28 bytes, used by the witnesses. *)
Definition sample_echo : list Z :=
  [0x45; 0; 0; 28; 0; 0; 0; 0; 64; 1; 0x65; 0x49; 10; 203; 0; 1; 10; 203; 0; 2;
   8; 0; 0; 0; 0; 7; 0; 1].

Lemma parse_total_witness :
  bytes_ok sample_echo ∧
  (∃ p, parse sample_echo = Ok (Some p) ∧ icmp (key p) = 7) ∧
  total_ok packet_ok (parse sample_echo).
Proof.
  assert (bytes_ok sample_echo) as Hb by (apply (bool_decide_unpack _); vm_compute; exact I).
  split; [exact Hb|]. split; [|exact (parse_total sample_echo Hb)].
  eexists. split; vm_compute; reflexivity.
Defined.

(** Two packets belong to the same flow exactly when one has the key of the other
    or its reverse: [flow_id] is independent of the direction and identifies nothing
    else. *)
Theorem flow_id_spec p q :
  flow_id p = flow_id q ↔ key p = key q ∨ key p = reverse (key q).
Proof.
  unfold flow_id. split.
  - destruct (key_min_or (key p) (reverse (key p))) as [E|E];
      destruct (key_min_or (key q) (reverse (key q))) as [F|F]; rewrite E, F; intros H.
    + by left.
    + by right.
    + right. by rewrite <- H, reverse_involutive.
    + left. apply (f_equal reverse) in H. by rewrite !reverse_involutive in H.
  - apply flow_id_same.
Qed.

(** A control envelope is never taken for user traffic: [Packet::parse] rejects
    every packet that the control encoder produces. *)
Theorem control_envelope_not_a_packet proto s d pl packet :
  bytes_ok pl → ControlPacket.encode proto s d pl = Ok packet → parse packet = Ok None.
Proof.
  intros Hpl He. pose proof (encode_inv _ _ _ _ _ He) as Hok.
  rewrite encode_header in He by done. apply (inj Ok) in He as <-.
  set (h := ControlPacket.header _ _ _ _ _).
  destruct Hok as (Hproto & _).
  assert (byte_at (h ++ pl) 9 = proto) as E9 by done.
  assert (bytes_ok (h ++ pl)) as Hb.
  { apply bytes_ok_app. split; [|done]. unfold h, ControlPacket.header.
    rewrite !bytes_ok_app. unfold bytes_ok. rewrite !Forall_cons.
    assert (u8 proto)
      by (unfold control_protocol, EXIT, STREAM, PROBE in Hproto; unfold u8; lia).
    split_and!; try done; try apply u16_to_be_ok; apply to_be_ok. }
  pose proof (parse_ok _ Hb) as HP. destruct (parse (h ++ pl)) as [[p|]| |]; try done.
  destruct HP as [(_ & _ & _ & _ & _ & _ & Hcase) Hp]. rewrite E9 in Hp.
  unfold control_protocol, EXIT, STREAM, PROBE in Hproto. exfalso. lia.
Qed.

Lemma control_envelope_not_a_packet_witness :
  ∃ packet,
    ControlPacket.encode PROBE (ipv4_new 10 203 0 1) (ipv4_new 10 203 0 2) [1] = Ok packet ∧
    parse packet = Ok None.
Proof.
  eexists. split; [vm_compute; reflexivity|].
  apply (control_envelope_not_a_packet PROBE (ipv4_new 10 203 0 1) (ipv4_new 10 203 0 2) [1]).
  - apply (bool_decide_unpack _). vm_compute. exact I.
  - vm_compute. reflexivity.
Defined.
