(* ===== verification/Tracking.v ===== *)
(** * Connection tracking ([track_packet] of [porthub-network/src/policy.rs])

    One table of [Flow]s by key.  A packet is looked up under its own key and under the
    reverse key; the loop body with its early returns and its [break] is
    [track_candidate], and [track_packet] is the whole function.  An [Instant] is a
    number of nanoseconds; the addition [now + ttl] does not overflow. *)

From S2P Require Import Prelude Net Packet.
Local Open Scope Z_scope.

Record Flow := mkFlow {
  remote : string;
  expires : Z;
  opening : Packet;
  phase : Z;
  fin_directions : Z;
  close_until : option Z;
}.

Abbreviation Flows := (gmap Key Flow).

Definition MAX_TRACKED : Z := 65536.

(** How one iteration of [for candidate in [key, reverse]] ends. *)
Inductive visit :=
| Return (accepted : bool) (flows : Flows)
| Break (flows : Flows)
| Continue (flows : Flows).

(** The TCP handshake: the phase after the packet, or [None] when it is refused. *)
Definition tcp_phase (ph : Z) (reply syn ack : bool) : option Z :=
  if ph =? 0 then
    if reply then
      if negb syn || negb ack then None else Some 1
    else if negb syn || ack then None else Some 0
  else if ph =? 1 then
    if negb reply && ack && negb syn then Some 2
    else if negb (reply && syn && ack) then None else Some 1
  else Some ph.

(** The update of an accepted flow: half-close bookkeeping, then the expiry. *)
Definition touch (flow : Flow) (proto : Z) (reply is_fin : bool) (ph now : Z) : Flow :=
  let fins :=
    if (proto =? 6) && is_fin
    then Z.lor (fin_directions flow) (if reply then 2 else 1) else fin_directions flow in
  let close :=
    if (proto =? 6) && is_fin && (fins =? 3)
    then get_or_insert (close_until flow) (now + from_secs 120) else close_until flow in
  let exp := now + (if (proto =? 6) && (ph =? 2) then TCP_ESTABLISHED_TTL else ttl proto) in
  let exp := match close with Some until => Z.min exp until | None => exp end in
  mkFlow (remote flow) exp (opening flow) ph fins close.

(** Entries removed before the lookup: an expired flow, then a flow replaced by an
    authorized new connection on the same tuple. *)
Definition drop_expired (flows : Flows) (candidate : Key) (now : Z) : Flows :=
  match flows !! candidate with
  | Some f => if expires f <=? now then delete candidate flows else flows
  | None => flows
  end.

Definition drop_replaced (flows : Flows) (candidate : Key) (packet : Packet) (may_open : bool)
    : Flows :=
  if may_open && bool_decide (candidate = key packet)
     && bool_decide (is_Some (opening_sequence packet))
     && match flows !! candidate with
        | Some f =>
            negb (bool_decide (opening_sequence (opening f) = opening_sequence packet))
            || bool_decide (is_Some (close_until f))
        | None => false
        end
  then delete candidate flows else flows.

Definition track_candidate (flows : Flows) (packet : Packet) (rem : string) (may_open : bool)
    (now : Z) (candidate : Key) : visit :=
  let k := key packet in
  let flows := drop_expired flows candidate now in
  let flows := drop_replaced flows candidate packet may_open in
  match flows !! candidate with
  | None => Continue flows
  | Some flow =>
      if negb (bool_decide (remote flow = rem)) then Return false flows else
      let reply := negb (bool_decide (candidate = k)) in
      if (protocol k =? 1)
         && (reply && negb (icmp_type packet =? 0) || negb reply && negb (icmp_type packet =? 8))
      then Return false flows else
      if (protocol k =? 6) && rst packet then Return true (delete candidate flows) else
      if (protocol k =? 6) && reply && syn packet && negb (ack packet) then Break flows else
      match if protocol k =? 6 then tcp_phase (phase flow) reply (syn packet) (ack packet)
            else Some (phase flow) with
      | None => Return false flows
      | Some ph =>
          Return true (<[candidate := touch flow (protocol k) reply (fin packet) ph now]> flows)
      end
  end.

Definition new_flow (packet : Packet) (rem : string) (now : Z) : Flow :=
  mkFlow rem (now + ttl (protocol (key packet))) packet 0 0 None.

(** [flows.retain(|_, f| f.expires > now)] *)
Definition retain_live (flows : Flows) (now : Z) : Flows :=
  filter (λ e : Key * Flow, now < expires e.2) flows.

(** What follows the loop: open a new flow when the packet may and does open one. *)
Definition open_flow (flows : Flows) (packet : Packet) (rem : string) (may_open : bool) (now : Z)
    : bool * Flows :=
  let k := key packet in
  if negb may_open
     || (protocol k =? 6) && (negb (syn packet) || ack packet || rst packet || fin packet)
     || (protocol k =? 1) && negb (icmp_type packet =? 8)
  then (false, flows) else
  let flows :=
    if MAX_TRACKED <=? Z.of_nat (size flows) then retain_live flows now else flows in
  if MAX_TRACKED <=? Z.of_nat (size flows) then (false, flows)
  else (true, <[k := new_flow packet rem now]> flows).

Definition track_packet (flows : Flows) (packet : Packet) (rem : string) (may_open : bool)
    (now : Z) : bool * Flows :=
  match track_candidate flows packet rem may_open now (key packet) with
  | Return b flows => (b, flows)
  | Break flows => open_flow flows packet rem may_open now
  | Continue flows =>
      match track_candidate flows packet rem may_open now (reverse (key packet)) with
      | Return b flows => (b, flows)
      | Break flows | Continue flows => open_flow flows packet rem may_open now
      end
  end.

(** ** What one lookup can do *)

(** [lookups_below fs gs]: [fs] is [gs] with some entries removed. *)
Definition lookups_below (fs gs : Flows) : Prop := ∀ k f, fs !! k = Some f → gs !! k = Some f.
#[global] Instance lookups_below_preorder : PreOrder lookups_below.
Proof. split; [by intros ? ?|]. intros a b c H1 H2 k f H. auto. Qed.

Definition pruned (flows : Flows) (packet : Packet) (may_open : bool) (now : Z) (c : Key) : Flows :=
  drop_replaced (drop_expired flows c now) c packet may_open.

Lemma drop_expired_other flows c now k : k ≠ c → drop_expired flows c now !! k = flows !! k.
Proof.
  intros Hk. unfold drop_expired. destruct (flows !! c); [|done].
  case_match; [|done]. by rewrite lookup_delete_ne.
Qed.

Lemma drop_replaced_other flows c p mo k : k ≠ c → drop_replaced flows c p mo !! k = flows !! k.
Proof. intros Hk. unfold drop_replaced. case_match; [|done]. by rewrite lookup_delete_ne. Qed.

Lemma pruned_other flows p mo now c k : k ≠ c → pruned flows p mo now c !! k = flows !! k.
Proof. intros Hk. unfold pruned. by rewrite drop_replaced_other, drop_expired_other. Qed.

Lemma pruned_self flows p mo now c f :
  pruned flows p mo now c !! c = Some f → flows !! c = Some f ∧ now < expires f.
Proof.
  unfold pruned. intros H.
  assert (drop_expired flows c now !! c = Some f) as H'.
  { revert H. unfold drop_replaced. case_match; [|done]. by rewrite lookup_delete_eq. }
  unfold drop_expired in H'. destruct (flows !! c) as [g|] eqn:E; [|congruence].
  destruct (Z.leb_spec (expires g) now); [by rewrite lookup_delete_eq in H'|].
  rewrite E in H'. injection H' as ->. done.
Qed.

Lemma pruned_below flows p mo now c : lookups_below (pruned flows p mo now c) flows.
Proof.
  intros k f Hk. destruct (decide (k = c)) as [->|Hne].
  - by apply pruned_self in Hk as [? _].
  - by rewrite pruned_other in Hk.
Qed.

(** The four ways a visit of candidate [c] ends. *)
Inductive visited (flows : Flows) (p : Packet) (rem : string) (mo : bool) (now : Z) (c : Key)
    : visit → Prop :=
| visited_absent :
    pruned flows p mo now c !! c = None →
    visited flows p rem mo now c (Continue (pruned flows p mo now c))
| visited_refused f :
    pruned flows p mo now c !! c = Some f →
    visited flows p rem mo now c (Return false (pruned flows p mo now c))
| visited_reset f :
    pruned flows p mo now c !! c = Some f → remote f = rem →
    visited flows p rem mo now c (Return true (delete c (pruned flows p mo now c)))
| visited_reopen f :
    pruned flows p mo now c !! c = Some f → remote f = rem → c ≠ key p →
    visited flows p rem mo now c (Break (pruned flows p mo now c))
| visited_accepted f ph :
    pruned flows p mo now c !! c = Some f → remote f = rem →
    (if protocol (key p) =? 6
     then tcp_phase (phase f) (negb (bool_decide (c = key p))) (syn p) (ack p)
     else Some (phase f)) = Some ph →
    visited flows p rem mo now c
      (Return true (<[c := touch f (protocol (key p)) (negb (bool_decide (c = key p)))
                             (fin p) ph now]> (pruned flows p mo now c))).

Lemma track_candidate_visited flows p rem mo now c :
  visited flows p rem mo now c (track_candidate flows p rem mo now c).
Proof.
  unfold track_candidate. fold (pruned flows p mo now c).
  destruct (pruned flows p mo now c !! c) as [f|] eqn:E; [|by constructor].
  destruct (bool_decide (remote f = rem)) eqn:Er; cbn [negb];
    [|eapply visited_refused; eauto].
  apply bool_decide_eq_true_1 in Er.
  case_match; [eapply visited_refused; eauto|].
  case_match; [eapply visited_reset; eauto|].
  destruct ((protocol (key p) =? 6) && _ && _ && _) eqn:Eb.
  - split_guard. destruct (bool_decide_reflect (c = key p)); [done|].
    eapply visited_reopen; eauto.
  - destruct (if _ =? 6 then _ else _) eqn:Ep; [eapply visited_accepted|eapply visited_refused]; eauto.
Qed.

(** A packet that can open a flow: a bare SYN, an echo request, or any UDP packet. *)
Definition opens (p : Packet) : bool :=
  if protocol (key p) =? 6 then bool_decide (is_Some (opening_sequence p))
  else if protocol (key p) =? 1 then icmp_type p =? 8 else true.

Lemma retain_live_lookup flows now k :
  retain_live flows now !! k = f ← flows !! k; if now <? expires f then Some f else None.
Proof.
  unfold retain_live. rewrite map_lookup_filter. destruct (flows !! k) as [f|]; [|done].
  simpl. destruct (Z.ltb_spec now (expires f)).
  - by rewrite option_guard_True.
  - rewrite option_guard_False; [done|simpl; lia].
Qed.

Inductive opened (flows : Flows) (p : Packet) (rem : string) (mo : bool) (now : Z)
    : bool * Flows → Prop :=
| opened_refused fs :
    fs = flows ∨ fs = retain_live flows now →
    opened flows p rem mo now (false, fs)
| opened_new fs :
    mo = true → opens p = true →
    fs = flows ∨ fs = retain_live flows now → Z.of_nat (size fs) < MAX_TRACKED →
    opened flows p rem mo now (true, <[key p := new_flow p rem now]> fs).

Lemma open_flow_opened flows p rem mo now :
  opened flows p rem mo now (open_flow flows p rem mo now).
Proof.
  unfold open_flow. case_match eqn:G; [constructor; by left|].
  set (fs := if _ <=? _ then _ else flows).
  assert (fs = flows ∨ fs = retain_live flows now) as Hfs by (unfold fs; case_match; auto).
  destruct (Z.leb_spec MAX_TRACKED (Z.of_nat (size fs))); [by constructor|].
  split_guard. constructor; [by destruct mo| |done|done].
  unfold opens, opening_sequence in *. destruct (protocol (key p) =? 6) eqn:E6; simpl in *.
  - destruct (syn p), (ack p), (rst p), (fin p); simpl in *; try discriminate. done.
  - destruct (protocol (key p) =? 1); simpl in *; [|done]. by destruct (icmp_type p =? 8).
Qed.

(** ** What one packet can do to the table *)

(** [kept flows p now gs]: [gs] is [flows] without some expired entries and without some
    entries of the packet's own two keys. *)
Definition kept (flows : Flows) (p : Packet) (now : Z) (gs : Flows) : Prop :=
  ∀ k, gs !! k = flows !! k ∨
       gs !! k = None ∧
       (k = key p ∨ k = reverse (key p) ∨ ∃ f, flows !! k = Some f ∧ expires f ≤ now).

Lemma kept_below flows p now gs : kept flows p now gs → lookups_below gs flows.
Proof. intros H k f Hk. destruct (H k) as [E|[E _]]; congruence. Qed.

Lemma kept_trans a p now b c : kept a p now b → kept b p now c → kept a p now c.
Proof.
  intros H1 H2 k. destruct (H2 k) as [->|[Hc Hk]]; [apply H1|].
  destruct (H1 k) as [E|[E ?]]; [|by right].
  right. split; [done|]. destruct Hk as [?|[?|(f & Hf & ?)]]; [auto|auto|].
  right; right. exists f. split; [congruence|done].
Qed.

Lemma kept_pruned flows p mo now c :
  c = key p ∨ c = reverse (key p) → kept flows p now (pruned flows p mo now c).
Proof.
  intros Hc k. destruct (decide (k = c)) as [->|]; [|left; by apply pruned_other].
  destruct (pruned flows p mo now c !! c) as [f|] eqn:E.
  - apply pruned_self in E as [E _]. left. done.
  - right. split; [done|]. tauto.
Qed.

Lemma kept_retain flows p now gs :
  gs = flows ∨ gs = retain_live flows now → kept flows p now gs.
Proof.
  intros [->| ->] k; [by left|]. rewrite retain_live_lookup.
  destruct (flows !! k) as [f|] eqn:E; simpl; [|by left].
  destruct (Z.ltb_spec now (expires f)); [by left|]. right. split; [done|].
  right; right. by exists f.
Qed.

(** The outcome of [track_packet]: refused, accepted on a live flow of the same remote
    (which a reset removes and any other packet refreshes), or accepted as the opening
    of a new flow. *)
Inductive tracked (flows : Flows) (p : Packet) (rem : string) (mo : bool) (now : Z)
    : bool * Flows → Prop :=
| tracked_refused gs :
    kept flows p now gs → tracked flows p rem mo now (false, gs)
| tracked_reset gs c f :
    kept flows p now gs → c = key p ∨ c = reverse (key p) →
    gs !! c = Some f → now < expires f → remote f = rem →
    tracked flows p rem mo now (true, delete c gs)
| tracked_flow gs c f ph :
    kept flows p now gs → c = key p ∨ c = reverse (key p) →
    gs !! c = Some f → now < expires f → remote f = rem →
    (if protocol (key p) =? 6
     then tcp_phase (phase f) (negb (bool_decide (c = key p))) (syn p) (ack p)
     else Some (phase f)) = Some ph →
    tracked flows p rem mo now
      (true, <[c := touch f (protocol (key p)) (negb (bool_decide (c = key p)))
                      (fin p) ph now]> gs)
| tracked_new gs :
    kept flows p now gs → mo = true → opens p = true →
    Z.of_nat (size gs) < MAX_TRACKED →
    tracked flows p rem mo now (true, <[key p := new_flow p rem now]> gs).

Lemma tracked_weaken flows p rem mo now gs r :
  kept flows p now gs → tracked gs p rem mo now r → tracked flows p rem mo now r.
Proof.
  intros Hk []; [eapply tracked_refused|eapply tracked_reset|eapply tracked_flow
                |eapply tracked_new]; eauto using kept_trans.
Qed.

Lemma opened_tracked flows p rem mo now r :
  opened flows p rem mo now r → tracked flows p rem mo now r.
Proof.
  intros []; [eapply tracked_refused|eapply tracked_new]; eauto using kept_retain.
Qed.

Lemma visited_tracked flows p rem mo now c v :
  c = key p ∨ c = reverse (key p) → visited flows p rem mo now c v →
  match v with
  | Return b gs => tracked flows p rem mo now (b, gs)
  | Break gs | Continue gs => kept flows p now gs
  end.
Proof.
  intros Hc Hv. pose proof (kept_pruned flows p mo now c Hc) as Hk.
  destruct Hv as [E|f E|f E Hr|f E Hr Hn|f ph E Hr Hp]; try done.
  - by eapply tracked_refused.
  - pose proof (pruned_self _ _ _ _ _ _ E) as [_ ?]. eapply tracked_reset; eauto.
  - pose proof (pruned_self _ _ _ _ _ _ E) as [_ ?]. eapply tracked_flow; eauto.
Qed.

Lemma track_packet_tracked flows p rem mo now :
  tracked flows p rem mo now (track_packet flows p rem mo now).
Proof.
  unfold track_packet.
  pose proof (visited_tracked flows p rem mo now (key p) _ (or_introl eq_refl)
    (track_candidate_visited _ _ _ _ _ _)) as H1.
  destruct (track_candidate flows p rem mo now (key p)) as [b gs|gs|gs]; [done| |].
  - eapply tracked_weaken; [done|]. apply opened_tracked, open_flow_opened.
  - eapply tracked_weaken; [done|].
    pose proof (visited_tracked gs p rem mo now (reverse (key p)) _ (or_intror eq_refl)
      (track_candidate_visited _ _ _ _ _ _)) as H2.
    destruct (track_candidate gs p rem mo now (reverse (key p))) as [b hs|hs|hs]; [done| |];
      (eapply tracked_weaken; [done|]; apply opened_tracked, open_flow_opened).
Qed.

(** ** The table invariant *)

(** A stored flow sits under the key of the packet that opened it, its handshake and
    close bookkeeping is in range, its close deadline is set exactly when both directions
    have finished, and it never outlives that deadline. *)
Definition flow_ok (k : Key) (f : Flow) : Prop :=
  key (opening f) = k ∧ opens (opening f) = true ∧
  0 ≤ phase f ≤ 2 ∧ 0 ≤ fin_directions f ≤ 3 ∧
  (protocol k ≠ 6 → phase f = 0 ∧ fin_directions f = 0) ∧
  (fin_directions f = 3 ↔ is_Some (close_until f)) ∧
  (∀ u, close_until f = Some u → expires f ≤ u).

Definition table_ok (flows : Flows) : Prop :=
  (∀ k f, flows !! k = Some f → flow_ok k f) ∧ Z.of_nat (size flows) ≤ MAX_TRACKED.

Lemma fins_lor a (r : bool) :
  0 ≤ a ≤ 3 →
  0 ≤ Z.lor a (if r then 2 else 1) ≤ 3 ∧ (a = 3 → Z.lor a (if r then 2 else 1) = 3).
Proof.
  intros Ha. assert (a = 0 ∨ a = 1 ∨ a = 2 ∨ a = 3) as Hc by lia.
  destruct Hc as [->|[->|[->| ->]]], r; (split; [split; by apply Z.leb_le|done]).
Qed.

Lemma tcp_phase_range ph reply s a ph' :
  0 ≤ ph ≤ 2 → tcp_phase ph reply s a = Some ph' → ph ≤ ph' ≤ 2.
Proof. intros Hp. unfold tcp_phase. repeat case_match; intros [= <-]; lia. Qed.

Lemma touch_ok k f proto reply is_fin ph now :
  proto = protocol k → flow_ok k f → phase f ≤ ph ≤ 2 → (proto ≠ 6 → ph = phase f) →
  flow_ok k (touch f proto reply is_fin ph now).
Proof.
  intros -> (Hk & Ho & Hp & Hf & Hn & Hc & He) Hph Hph'.
  destruct (fins_lor (fin_directions f) reply Hf) as [Hr H3].
  unfold flow_ok, touch; cbn [opening phase fin_directions close_until expires].
  set (fins := Z.lor _ _) in *.
  destruct (Z.eqb_spec (protocol k) 6) as [E|E]; cbn [andb].
  - split_and!; try done; try lia.
    + case_match; lia.
    + case_match; lia.
    + destruct is_fin; cbn [andb]; [|done]. destruct (Z.eqb_spec fins 3) as [E3|E3].
      * split; [intros _|done]. destruct (close_until f); eauto.
      * rewrite <- Hc. split; [done|]. intros F. apply H3 in F. done.
    + intros u Hu. rewrite Hu. lia.
  - destruct (Hn E) as [Hn1 Hn2]. split_and!; try done; try lia.
    intros u Hu. rewrite Hu. lia.
Qed.

Lemma opens_ok p rem now : opens p = true → flow_ok (key p) (new_flow p rem now).
Proof.
  intros Ho. split_and!; try done.
  split; [done|]. intros [u Hu]. discriminate Hu.
Qed.

Lemma kept_ok flows p now gs : kept flows p now gs → table_ok flows → table_ok gs.
Proof.
  intros Hk%kept_below [Hf Hs]. split; [eauto|].
  assert (size gs ≤ size flows)%nat; [|lia]. by apply map_subseteq_size, map_subseteq_spec.
Qed.

Lemma key_protocol c p : c = key p ∨ c = reverse (key p) → protocol (key p) = protocol c.
Proof. by intros [->| ->]. Qed.

(** Every packet keeps the table well formed and within its bound. *)
Lemma track_packet_ok flows p rem mo now :
  table_ok flows → table_ok (track_packet flows p rem mo now).2.
Proof.
  intros Ht. destruct (track_packet_tracked flows p rem mo now)
    as [gs Hk|gs c f Hk Hc Hg He Hr|gs c f ph Hk Hc Hg He Hr Hph|gs Hk Hmo Ho Hs]; simpl;
    apply (kept_ok _ _ _ _ Hk) in Ht as Hg'; destruct Hg' as [Hf Hsz].
  - done.
  - split.
    + intros k g [_ Hk']%lookup_delete_Some. eauto.
    + rewrite map_size_delete. case_match; simpl; lia.
  - assert (flow_ok c f) as Hok by eauto. split.
    + intros k g [[<- <-]|[_ Hk']]%lookup_insert_Some; [|eauto].
      pose proof Hok as (_ & _ & Hp & _).
      destruct (Z.eqb_spec (protocol (key p)) 6) as [E6|E6].
      * apply tcp_phase_range in Hph; [|done]. apply touch_ok; eauto using key_protocol; lia.
      * injection Hph as <-. apply touch_ok; eauto using key_protocol; lia.
    + rewrite map_size_insert, Hg. done.
  - split.
    + intros k g [[<- <-]|[_ Hk']]%lookup_insert_Some; [by apply opens_ok|eauto].
    + rewrite map_size_insert. unfold MAX_TRACKED in *. case_match; simpl; lia.
Qed.

(** Where a flow of the table after a packet comes from. *)
Lemma track_packet_origin flows p rem mo now k f :
  (track_packet flows p rem mo now).2 !! k = Some f →
  (∃ g, flows !! k = Some g ∧ opening f = opening g ∧ remote f = remote g ∧
        (∀ u, close_until g = Some u → close_until f = Some u)) ∨
  (k = key p ∧ f = new_flow p rem now ∧ mo = true ∧ opens p = true).
Proof.
  destruct (track_packet_tracked flows p rem mo now)
    as [gs Hk|gs c g Hk Hc Hg He Hr|gs c g ph Hk Hc Hg He Hr Hph|gs Hk Hmo Ho Hs]; simpl;
    apply kept_below in Hk.
  - intros H%Hk. left. by exists f.
  - intros [_ H%Hk]%lookup_delete_Some. left. by exists f.
  - intros [[<- <-]|[_ H%Hk]]%lookup_insert_Some; left; [|by exists f].
    exists g. split_and!; [by apply Hk|done|done|].
    intros u Hu. unfold touch; cbn [close_until]. rewrite Hu. cbn [get_or_insert]. by destruct (_ && _ && _).
  - intros [[<- <-]|[_ H%Hk]]%lookup_insert_Some; [by right|left; by exists f].
Qed.

Lemma track_packet_accepted flows p rem mo now :
  (track_packet flows p rem mo now).1 = true →
  (∃ c f, (c = key p ∨ c = reverse (key p)) ∧ flows !! c = Some f ∧ now < expires f ∧
          remote f = rem) ∨
  (mo = true ∧ opens p = true ∧
   (track_packet flows p rem mo now).2 !! key p = Some (new_flow p rem now)).
Proof.
  destruct (track_packet_tracked flows p rem mo now)
    as [gs Hk|gs c g Hk Hc Hg He Hr|gs c g ph Hk Hc Hg He Hr Hph|gs Hk Hmo Ho Hs]; simpl.
  - done.
  - intros _. left. apply kept_below in Hk. exists c, g. auto.
  - intros _. left. apply kept_below in Hk. exists c, g. auto.
  - intros _. right. by rewrite lookup_insert_eq.
Qed.

(** A sequence of packets seen by one table. *)
Record event := mkEvent { ev_packet : Packet; ev_remote : string; ev_open : bool; ev_now : Z }.

Definition track_event (flows : Flows) (e : event) : Flows :=
  (track_packet flows (ev_packet e) (ev_remote e) (ev_open e) (ev_now e)).2.
Definition track_events : Flows → list event → Flows := foldl track_event.

Lemma track_events_ok flows es : table_ok flows → table_ok (track_events flows es).
Proof.
  revert flows. induction es as [|e es IH]; intros flows Hf; [done|].
  apply IH. by apply track_packet_ok.
Qed.

Lemma table_ok_empty : table_ok ∅.
Proof. split; [intros ? ? H; by rewrite lookup_empty in H|]. rewrite map_size_empty. done. Qed.

Lemma track_candidate_none flows p rem mo now c :
  pruned flows p mo now c !! c = None →
  track_candidate flows p rem mo now c = Continue (pruned flows p mo now c).
Proof. intros H. unfold track_candidate. fold (pruned flows p mo now c). by rewrite H. Qed.

Lemma pruned_none flows p mo now c :
  (∀ f, flows !! c = Some f → expires f ≤ now) → pruned flows p mo now c !! c = None.
Proof.
  intros H. destruct (pruned flows p mo now c !! c) as [f|] eqn:E; [|done].
  apply pruned_self in E as [E ?]. apply H in E. lia.
Qed.

Lemma pruned_absent flows p mo now c : flows !! c = None → pruned flows p mo now c = flows.
Proof.
  intros H. unfold pruned, drop_expired. rewrite H. unfold drop_replaced. rewrite H.
  by rewrite andb_false_r.
Qed.

(** An authorized opening packet of an untracked connection is tracked. *)
Lemma track_packet_opens flows p rem now :
  opens p = true → flows !! key p = None → flows !! reverse (key p) = None →
  Z.of_nat (size flows) < MAX_TRACKED →
  track_packet flows p rem true now = (true, <[key p := new_flow p rem now]> flows).
Proof.
  intros Ho H1 H2 Hs. unfold track_packet.
  rewrite (track_candidate_none _ _ _ _ _ (key p)), (pruned_absent _ _ _ _ (key p))
    by (rewrite ?pruned_absent by done; done).
  rewrite (track_candidate_none _ _ _ _ _ (reverse (key p))), pruned_absent
    by (rewrite ?pruned_absent by done; done).
  unfold open_flow. rewrite !(proj2 (Z.leb_gt MAX_TRACKED (Z.of_nat (size flows))) Hs).
  unfold opens, opening_sequence in Ho. cbn [negb orb].
  destruct (protocol (key p) =? 6) eqn:E6; cbn [andb] in *.
  - assert (protocol (key p) =? 1 = false) as -> by lia.
    apply bool_decide_eq_true_1 in Ho as [x Hx].
    destruct (syn p), (ack p), (fin p), (rst p); by try discriminate Hx.
  - destruct (protocol (key p) =? 1); cbn [andb orb]; [|done]. by rewrite Ho.
Qed.

(** ** Properties *)

(** A packet is accepted only on a live flow, under its own key or the reverse one,
    that is bound to the same authenticated remote; otherwise it must itself open a flow
    and be authorized to, and that flow is then in the table, bound to that remote. *)
Theorem track_packet_sound flows p rem mo now fs :
  track_packet flows p rem mo now = (true, fs) →
  (∃ c f, (c = key p ∨ c = reverse (key p)) ∧ flows !! c = Some f ∧ now < expires f ∧
          remote f = rem) ∨
  (mo = true ∧ opens p = true ∧ fs !! key p = Some (new_flow p rem now)).
Proof.
  intros H. pose proof (track_packet_accepted flows p rem mo now) as Ha.
  rewrite H in Ha. exact (Ha eq_refl).
Qed.

(** One packet leaves the flows of all other connections alone, except that expired
    ones may be dropped when the table is full. *)
Theorem track_packet_frame flows p rem mo now k :
  k ≠ key p → k ≠ reverse (key p) →
  (track_packet flows p rem mo now).2 !! k = flows !! k ∨
  (track_packet flows p rem mo now).2 !! k = None ∧
    ∃ f, flows !! k = Some f ∧ expires f ≤ now.
Proof.
  intros H1 H2. destruct (track_packet_tracked flows p rem mo now)
    as [gs Hk|gs c g Hk Hc _ _ _|gs c g ph Hk Hc _ _ _ _|gs Hk _ _ _]; simpl.
  2: rewrite lookup_delete_ne by (intros E; subst; tauto).
  3: rewrite lookup_insert_ne by (intros E; subst; tauto).
  4: rewrite lookup_insert_ne by (intros E; subst; tauto).
  all: destruct (Hk k) as [?|[? ?]]; tauto.
Qed.

(** Whatever packets arrive, the table stays well formed: at most 65536 flows, each
    under the key of the packet that opened it, with consistent handshake and close state,
    and never outliving its close deadline. *)
Theorem track_events_table_ok es : table_ok (track_events ∅ es).
Proof. apply track_events_ok, table_ok_empty. Qed.

(** Once both directions have finished, the close deadline is final: whatever
    packets follow, the flow keeps that deadline and does not outlive it, or it is gone,
    or an authorized opening packet of the same tuple has replaced it. *)
Theorem close_deadline_final flows es k f u :
  table_ok flows → flows !! k = Some f → close_until f = Some u →
  match track_events flows es !! k with
  | None => True
  | Some g =>
      close_until g = Some u ∧ expires g ≤ u ∨
      ∃ e, e ∈ es ∧ ev_open e = true ∧ key (ev_packet e) = k ∧ opening g = ev_packet e
  end.
Proof.
  intros Ht Hf Hu.
  cut (∀ g, track_events flows es !! k = Some g →
       close_until g = Some u ∨
       ∃ e, e ∈ es ∧ ev_open e = true ∧ key (ev_packet e) = k ∧ opening g = ev_packet e).
  { intros H. destruct (track_events flows es !! k) as [g|] eqn:E; [|done].
    pose proof (track_events_ok flows es Ht) as [Hok _].
    destruct (Hok _ _ E) as (_ & _ & _ & _ & _ & _ & Hexp).
    destruct (H g eq_refl) as [Hg|]; [left|by right]. auto. }
  induction es as [|e es IH] using rev_ind; unfold track_events in *; simpl.
  { intros g Hg. left. congruence. }
  intros g. rewrite foldl_app. simpl. unfold track_event at 1.
  intros [(h & Hh & Ho & _ & Hc)|(-> & -> & Hmo & _)]%track_packet_origin.
  - apply IH in Hh as [Hh|(e' & He & ? & ? & ?)]; [auto|]. right. exists e'.
    rewrite elem_of_app. split_and!; [by left|done|done|congruence].
  - right. exists e. rewrite elem_of_app, list_elem_of_singleton. auto.
Qed.

(** An established TCP flow carries traffic in both directions: a live flow in
    phase 2 accepts every packet of its remote that is neither a bare SYN nor a reset,
    authorized to open or not, and stays in the table. *)
Theorem established_accepts flows p rem mo now c f :
  c = key p ∨ c = reverse (key p) ∧ flows !! key p = None →
  flows !! c = Some f → now < expires f → remote f = rem →
  protocol (key p) = 6 → phase f = 2 → rst p = false → syn p && negb (ack p) = false →
  ∃ g, track_packet flows p rem mo now = (true, g) ∧
       ∃ f', g !! c = Some f' ∧ remote f' = rem ∧ phase f' = 2 ∧ opening f' = opening f.
Proof.
  intros Hc Hf He Hr H6 H2 Hrst Hsyn.
  assert (∀ gs, gs !! c = Some f →
    track_candidate gs p rem mo now c =
    Return true (<[c := touch f 6 (negb (bool_decide (c = key p))) (fin p) 2 now]> gs)) as Hv.
  { intros gs Hgs. unfold track_candidate, drop_expired. rewrite Hgs.
    rewrite (proj2 (Z.leb_gt (expires f) now)) by lia.
    unfold drop_replaced.
    assert (opening_sequence p = None) as ->.
    { unfold opening_sequence. destruct (syn p), (ack p); by rewrite ?andb_false_r. }
    rewrite (bool_decide_eq_false_2 (is_Some None)) by apply is_Some_None.
    rewrite !andb_false_r. cbn [andb]. rewrite Hgs, Hr, bool_decide_eq_true_2 by done.
    cbn [negb]. rewrite H6, Hrst, H2. cbn [Z.eqb Pos.eqb andb].
    rewrite <- andb_assoc, Hsyn, andb_false_r. done. }
  assert (∃ gs, track_packet flows p rem mo now =
    (true, <[c := touch f 6 (negb (bool_decide (c = key p))) (fin p) 2 now]> gs)) as [gs ->].
  { unfold track_packet. destruct Hc as [->|[-> Hn]]; [eexists; by rewrite Hv|].
    destruct (decide (key p = reverse (key p))) as [E|Hne]; [congruence|].
    rewrite (track_candidate_none _ _ _ _ _ (key p)) by (apply pruned_none; congruence).
    eexists. rewrite Hv; [done|]. by rewrite pruned_other. }
  eexists. split; [done|]. eexists. split; [by rewrite lookup_insert_eq|].
  split; [exact Hr|done].
Qed.

(** *** Witnesses: the three-way handshake of a connection, then both closes *)

Definition sample_syn : Packet :=
  mkPacket (mkKey (ipv4_new 10 203 0 1) (ipv4_new 203 0 113 1) 6 4000 443 0)
    true false false false 0 1.
Definition sample_reply (fin_ : bool) (syn_ : bool) : Packet :=
  mkPacket (reverse (key sample_syn)) syn_ true false fin_ 0 9.
Definition sample_ack (fin_ : bool) : Packet :=
  mkPacket (key sample_syn) false true false fin_ 0 2.
Definition sample_event (p : Packet) : event := mkEvent p "exit" (bool_decide (key p = key sample_syn)) 0.

(** The table after the handshake, and after a finish in both directions. *)
Definition sample_established : Flows :=
  track_events ∅ (map sample_event [sample_syn; sample_reply false true; sample_ack false]).
Definition sample_closed : Flows :=
  track_events sample_established (map sample_event [sample_ack true; sample_reply true false]).
Definition sample_flow (ph fins : Z) (close : option Z) (exp : Z) : Flow :=
  mkFlow "exit" exp sample_syn ph fins close.

Lemma track_packet_sound_witness :
  ∃ fs, track_packet ∅ sample_syn "exit" true 0 = (true, fs) ∧
  ((∃ c f, (c = key sample_syn ∨ c = reverse (key sample_syn)) ∧
      (∅ : Flows) !! c = Some f ∧ 0 < expires f ∧ remote f = "exit"%string) ∨
   (true = true ∧ opens sample_syn = true ∧
    fs !! key sample_syn = Some (new_flow sample_syn "exit" 0))).
Proof.
  destruct (track_packet ∅ sample_syn "exit" true 0) as [b fs] eqn:E.
  assert (b = true) as ->.
  { change b with (b, fs).1. rewrite <- E. vm_compute. reflexivity. }
  exists fs. split; [reflexivity|]. exact (track_packet_sound ∅ sample_syn "exit" true 0 fs E).
Defined.

Lemma track_packet_frame_witness :
  (track_packet sample_established (sample_reply false false) "exit" false 0).2
      !! mkKey 1 2 6 3 4 0 = sample_established !! mkKey 1 2 6 3 4 0 ∨
  (track_packet sample_established (sample_reply false false) "exit" false 0).2
      !! mkKey 1 2 6 3 4 0 = None ∧
    ∃ f, sample_established !! mkKey 1 2 6 3 4 0 = Some f ∧ expires f ≤ 0.
Proof.
  apply (track_packet_frame sample_established (sample_reply false false) "exit" false 0
           (mkKey 1 2 6 3 4 0)); apply (bool_decide_unpack _); vm_compute; exact I.
Defined.

Lemma close_deadline_final_witness :
  match track_events sample_closed (map sample_event [sample_ack false]) !! key sample_syn with
  | None => True
  | Some g =>
      close_until g = Some (from_secs 120) ∧ expires g ≤ from_secs 120 ∨
      ∃ e, e ∈ map sample_event [sample_ack false] ∧ ev_open e = true ∧
           key (ev_packet e) = key sample_syn ∧ opening g = ev_packet e
  end.
Proof.
  apply (close_deadline_final sample_closed (map sample_event [sample_ack false])
    (key sample_syn) (sample_flow 2 3 (Some (from_secs 120)) (from_secs 120)) (from_secs 120)).
  - apply track_events_ok, track_events_ok, table_ok_empty.
  - vm_compute. reflexivity.
  - reflexivity.
Defined.

Lemma established_accepts_witness :
  ∃ g, track_packet sample_established (sample_reply false false) "exit" false 5 = (true, g) ∧
       ∃ f', g !! key sample_syn = Some f' ∧ remote f' = "exit"%string ∧ phase f' = 2 ∧
             opening f' = opening (sample_flow 2 0 None TCP_ESTABLISHED_TTL).
Proof.
  apply (established_accepts sample_established (sample_reply false false) "exit" false 5
           (key sample_syn)).
  - right. split; vm_compute; reflexivity.
  - vm_compute. reflexivity.
  - vm_compute. reflexivity.
  - reflexivity.
  - reflexivity.
  - reflexivity.
  - reflexivity.
  - reflexivity.
Defined.
