(* ===== verification/DnsPolicy.v ===== *)
(** * Domain policy ([porthub-mesh/src/dns_policy.rs])

    The normal form of a domain, the preparation of a rule set (validation, duplicate
    check, most specific first) and the lookup of the rule for a query.  The server
    prepares the rules before it stores them and the responder prepares them again. *)

From S2P Require Import Prelude Net RustStr.
Local Open Scope string_scope.
Local Open Scope Z_scope.

Inductive Action := Block.

Record Rule := mkRule {
  rule_domain : string;
  rule_action : Action;
  include_subdomains : bool;
}.

#[global] Instance Action_eq_dec : EqDecision Action.
Proof. solve_decision. Defined.
#[global] Instance Rule_eq_dec : EqDecision Rule.
Proof. solve_decision. Defined.

Definition is_dot (a : ascii) : bool := bool_decide (a = "."%char).

(** The condition on one label. *)
Definition label_ok (label : string) : bool :=
  negb (str_is_empty label) && (slen label <=? 63)
  && negb (str_starts_with "-" label) && negb (str_ends_with "-" label)
  && all_bytes (λ c, is_ascii_alphanumeric c || (c =? 45)) label.

Definition domain (raw : string) : res string :=
  let name := to_ascii_lowercase (trim_end is_dot (str_trim raw)) in
  ensure! (slen name <=? 253) && str_contains "." name && negb (is_ip_addr name)
    else "Enter a DNS domain, not an IP address or URL" in
  ensure! forallb label_ok (split "." name) else "Invalid DNS domain" in
  Ok name.

Definition is_wildcard (rule : Rule) : bool := str_starts_with "*." (rule_domain rule).

Definition zone (rule : Rule) : string :=
  default (rule_domain rule) (strip_prefix "*." (rule_domain rule)).

(** The body of the loop of [prepare]: the rule as it is stored. *)
Definition prepare_rule (rule : Rule) : res Rule :=
  let! d := match strip_prefix "*." (str_trim (rule_domain rule)) with
            | Some base => let! d := domain base in Ok ("*." +:+ d)
            | None => domain (rule_domain rule)
            end in
  let rule := mkRule d (rule_action rule) (include_subdomains rule) in
  Ok (if is_wildcard rule then mkRule d (rule_action rule) true else rule).

Fixpoint prepare_loop (rules : list Rule) (seen : gset string) : res (list Rule) :=
  match rules with
  | [] => Ok []
  | rule :: rules =>
      let! rule := prepare_rule rule in
      ensure! bool_decide (rule_domain rule ∉ seen)
        else "Conflicting DNS rules for the same domain" in
      let! result := prepare_loop rules ({[rule_domain rule]} ∪ seen) in
      Ok (rule :: result)
  end.

(** The comparison of [sort_by]. *)
Definition rule_cmp (a b : Rule) : comparison :=
  then_cmp (slen (zone b) ?= slen (zone a))
    (then_cmp (bool_cmp (is_wildcard b) (is_wildcard a))
       (String.compare (rule_domain a) (rule_domain b))).

Definition prepare (rules : list Rule) : res (list Rule) :=
  ensure! len rules <=? 256 else "At most 256 DNS rules may apply to a machine" in
  let! result := prepare_loop rules ∅ in
  Ok (sort_by rule_cmp result).

Definition rule_matches (name : string) (rule : Rule) : bool :=
  let base := zone rule in
  negb (is_wildcard rule) && bool_decide (name = base)
  || include_subdomains rule
     && match strip_suffix base name with
        | Some prefix => str_ends_with "." prefix
        | None => false
        end.

Definition matching (rules : list Rule) (query : string) : option Rule :=
  let name := trim_end is_dot query in
  find (rule_matches name) rules.

(** ** Normal forms *)

Definition name_byte (b : Z) : bool := is_ascii_alphanumeric b || (b =? 45) || (b =? 46).

Lemma split_bytes (f : Z → bool) c s :
  forallb (all_bytes f) (split c s) = true →
  all_bytes (λ b, f b || (b =? byte_of c)) s = true.
Proof.
  induction s as [|a s IH]; [done|]. simpl. rewrite all_bytes_cons. case_bool_decide as E.
  - subst a. simpl. intros H. by rewrite IH, Z.eqb_refl, orb_true_r.
  - destruct (split c s) as [|g gs] eqn:Es; [by apply split_nonempty in Es|].
    simpl in *. rewrite all_bytes_cons. intros H.
    apply andb_true_iff in H as [[Ha Hg]%andb_true_iff Hgs].
    rewrite IH by (by rewrite Hg, Hgs). by rewrite Ha.
Qed.

Lemma all_bytes_impl (f g : Z → bool) s :
  (∀ b, f b = true → g b = true) → all_bytes f s = true → all_bytes g s = true.
Proof. unfold all_bytes. rewrite !forallb_forall. auto. Qed.

(** Characters of a name, and [*], neither start nor end a white-space character. *)
Lemma strip_any_name a s :
  name_byte (byte_of a) || (byte_of a =? 42) = true → strip_any white_space (String a s) = None.
Proof. destruct a as [[] [] [] [] [] [] [] []]; intros H; first [discriminate H|reflexivity]. Qed.

Lemma strip_any_rev_name a s :
  name_byte (byte_of a) || (byte_of a =? 42) = true →
  strip_any (map str_rev white_space) (String a s) = None.
Proof. destruct a as [[] [] [] [] [] [] [] []]; intros H; first [discriminate H|reflexivity]. Qed.

Lemma str_trim_name s :
  all_bytes (λ b, name_byte b || (b =? 42)) s = true → str_trim s = s.
Proof.
  intros H. destruct s as [|a s]; [reflexivity|].
  assert (str_trim_start (String a s) = String a s) as E.
  { unfold str_trim_start. apply strip_all_none, strip_any_name.
    rewrite all_bytes_cons in H. by apply andb_true_iff in H as [? _]. }
  unfold str_trim. rewrite E. unfold str_trim_end.
  destruct (str_rev_nonempty (String a s)) as (b & r & Er); [done|].
  rewrite Er, strip_all_none; [by rewrite <- Er, str_rev_involutive|].
  apply strip_any_rev_name. rewrite <- all_bytes_rev, Er, all_bytes_cons in H.
  by apply andb_true_iff in H as [? _].
Qed.

Lemma lower_involutive a : lower (lower a) = lower a.
Proof. by destruct a as [[] [] [] [] [] [] [] []]. Qed.

Lemma lower_dot a : is_dot (lower a) = is_dot a.
Proof. by destruct a as [[] [] [] [] [] [] [] []]. Qed.

Lemma to_ascii_lowercase_app s t :
  to_ascii_lowercase (s +:+ t) = to_ascii_lowercase s +:+ to_ascii_lowercase t.
Proof. induction s as [|a s IH]; simpl; [done|]. by rewrite IH. Qed.

Lemma str_rev_cons a s : str_rev (String a s) = str_rev s +:+ String a "".
Proof. apply (str_rev_app (String a "") s). Qed.

Lemma to_ascii_lowercase_rev s : to_ascii_lowercase (str_rev s) = str_rev (to_ascii_lowercase s).
Proof.
  induction s as [|a s IH]; [done|]. simpl.
  by rewrite !str_rev_cons, to_ascii_lowercase_app, IH.
Qed.

Lemma to_ascii_lowercase_idem s : to_ascii_lowercase (to_ascii_lowercase s) = to_ascii_lowercase s.
Proof. induction s as [|a s IH]; simpl; [done|]. by rewrite lower_involutive, IH. Qed.

Lemma trim_start_lower s :
  trim_start is_dot (to_ascii_lowercase s) = to_ascii_lowercase (trim_start is_dot s).
Proof. induction s as [|a s IH]; simpl; [done|]. rewrite lower_dot. by case_match. Qed.

Lemma trim_start_idem f s : trim_start f (trim_start f s) = trim_start f s.
Proof. induction s as [|a s IH]; simpl; [done|]. destruct (f a) eqn:E; [done|]. simpl. by rewrite E. Qed.

Lemma trim_lower_idem s :
  let n := to_ascii_lowercase (trim_end is_dot s) in
  to_ascii_lowercase (trim_end is_dot n) = n.
Proof.
  simpl. unfold trim_end at 1. rewrite <- to_ascii_lowercase_rev, trim_start_lower.
  unfold trim_end. rewrite str_rev_involutive, trim_start_idem.
  by rewrite <- to_ascii_lowercase_rev, to_ascii_lowercase_idem, to_ascii_lowercase_rev.
Qed.

Lemma domain_inv raw n :
  domain raw = Ok n →
  n = to_ascii_lowercase (trim_end is_dot (str_trim raw)) ∧
  slen n ≤ 253 ∧ str_contains "." n = true ∧ is_ip_addr n = false ∧
  forallb label_ok (split "." n) = true.
Proof.
  unfold domain. set (name := to_ascii_lowercase _). intros H. res_inv. split_guard.
  split_and!; try done. lia.
Qed.

Lemma domain_bytes raw n : domain raw = Ok n → all_bytes name_byte n = true.
Proof.
  intros (_ & _ & _ & _ & H)%domain_inv.
  eapply all_bytes_impl; [|eapply (split_bytes (λ c, is_ascii_alphanumeric c || (c =? 45)) ".")].
  - intros b. unfold name_byte. change (byte_of ".") with 46. done.
  - revert H. rewrite !forallb_forall. intros H l Hl%H. unfold label_ok in Hl. by split_guard.
Qed.

Lemma domain_idem raw n : domain raw = Ok n → domain n = Ok n.
Proof.
  intros H. pose proof (domain_bytes _ _ H) as Hb. apply domain_inv in H as (-> & Hl & Hd & Hi & Hs).
  unfold domain. rewrite str_trim_name by (eapply all_bytes_impl; [|exact Hb]; by intros ? ->).
  rewrite trim_lower_idem. set (n := to_ascii_lowercase _) in *.
  rewrite (proj2 (Z.leb_le (slen n) 253)), Hd, Hi, Hs by lia. done.
Qed.

(** ** Prepared rule sets *)

Lemma wildcard_bytes n :
  all_bytes name_byte n = true →
  all_bytes (λ b, name_byte b || (b =? 42)) ("*." +:+ n) = true.
Proof.
  intros H. rewrite all_bytes_app. apply andb_true_iff. split; [done|].
  eapply all_bytes_impl; [|exact H]. by intros b ->.
Qed.

Lemma name_not_wildcard n : all_bytes name_byte n = true → strip_prefix "*." n = None.
Proof.
  intros H. destruct (strip_prefix "*." n) as [r|] eqn:E; [|done].
  apply strip_prefix_spec in E as ->. discriminate H.
Qed.

Lemma prepare_rule_idem r r' : prepare_rule r = Ok r' → prepare_rule r' = Ok r'.
Proof.
  unfold prepare_rule at 1. intros H. res_inv. revert E.
  destruct (strip_prefix "*." (str_trim (rule_domain r))) as [base|]; intros E; res_inv.
  - pose proof (domain_bytes _ _ E0) as Hb.
    assert (∀ a b, is_wildcard (mkRule ("*." +:+ v0) a b) = true) as Hw.
    { intros a b. apply str_starts_with_spec. eauto. }
    rewrite Hw. unfold prepare_rule; cbn [rule_domain rule_action include_subdomains].
    rewrite str_trim_name by by apply wildcard_bytes.
    assert (strip_prefix "*." ("*." +:+ v0) = Some v0) as -> by by apply strip_prefix_spec.
    rewrite (domain_idem _ _ E0). cbn [rbind]. by rewrite Hw.
  - pose proof (domain_bytes _ _ E) as Hb.
    assert (∀ a b, is_wildcard (mkRule v a b) = false) as Hw.
    { intros a b. unfold is_wildcard, str_starts_with; cbn [rule_domain].
      by rewrite name_not_wildcard. }
    rewrite Hw. unfold prepare_rule; cbn [rule_domain rule_action include_subdomains].
    rewrite str_trim_name by (eapply all_bytes_impl; [|exact Hb]; by intros ? ->).
    rewrite name_not_wildcard, (domain_idem _ _ E) by done. cbn [rbind]. by rewrite Hw.
Qed.

Lemma prepare_loop_spec rules seen out :
  prepare_loop rules seen = Ok out ↔
  Forall2 (λ r r', prepare_rule r = Ok r') rules out ∧ NoDup (map rule_domain out) ∧
  Forall (λ r, rule_domain r ∉ seen) out.
Proof.
  revert seen out. induction rules as [|r rules IH]; intros seen out; simpl.
  - split; [intros [= <-]; repeat constructor|]. intros [H%Forall2_nil_inv_l _]. by subst.
  - split.
    + intros H. res_inv. apply bool_decide_eq_true_1 in E0.
      apply IH in E1 as (Hf & Hn & Hs). split_and!; [by constructor| |].
      * simpl. constructor; [|done]. intros (x & Hx & Hin)%list_elem_of_fmap.
        rewrite Forall_forall in Hs. apply Hs in Hin. set_solver.
      * constructor; [done|]. eapply Forall_impl; [exact Hs|]. set_solver.
    + intros (Hf & Hn & Hs). apply Forall2_cons_inv_l in Hf as (r' & out' & Hr & Hf & ->).
      simpl in Hn. apply NoDup_cons in Hn as [Hr' Hn]. apply Forall_cons in Hs as [Hs' Hs].
      rewrite Hr. cbn [rbind]. rewrite bool_decide_eq_true_2 by done. cbn [ensure rbind].
      rewrite (proj2 (IH _ out')); [done|]. split_and!; [done|done|].
      rewrite Forall_forall in *. intros x Hx. rewrite elem_of_union, elem_of_singleton.
      intros [Heq|Hin]; [|by apply (Hs x)]. apply Hr'. rewrite <- Heq.
      by apply list_elem_of_fmap_2.
Qed.

Lemma rule_cmp_antisym a b : rule_cmp b a = CompOpp (rule_cmp a b).
Proof.
  unfold rule_cmp. rewrite (Z.compare_antisym (slen (zone b)) (slen (zone a))).
  destruct (slen (zone b) ?= slen (zone a)); simpl; try done.
  destruct (is_wildcard a), (is_wildcard b); simpl; try done; apply String.compare_antisym.
Qed.

Lemma rule_cmp_total a b : rule_cmp a b = Gt → rule_cmp b a ≠ Gt.
Proof. intros H. by rewrite rule_cmp_antisym, H. Qed.

(** [more_specific a b]: [a] is to be preferred to [b] where both match. *)
Definition more_specific (a b : Rule) : Prop :=
  slen (zone b) < slen (zone a) ∨
  slen (zone b) = slen (zone a) ∧ (is_wildcard b = true → is_wildcard a = true).
#[global] Instance more_specific_trans : Transitive more_specific.
Proof. intros a b c. unfold more_specific. intuition lia. Qed.

Lemma rule_cmp_specific a b : rule_cmp a b ≠ Gt → more_specific a b.
Proof.
  unfold rule_cmp, more_specific. destruct (Z.compare_spec (slen (zone b)) (slen (zone a)));
    simpl; [|auto|done].
  destruct (is_wildcard a), (is_wildcard b); simpl; auto.
Qed.

Lemma prepare_inv rules out :
  prepare rules = Ok out →
  len rules ≤ 256 ∧
  ∃ l, prepare_loop rules ∅ = Ok l ∧ out = sort_by rule_cmp l.
Proof. unfold prepare. intros H. res_inv. split; [lia|]. eauto. Qed.

Lemma prepare_sorted rules out : prepare rules = Ok out → StronglySorted more_specific out.
Proof.
  intros (_ & l & _ & ->)%prepare_inv.
  apply sort_by_strongly; [apply rule_cmp_total|apply _|apply rule_cmp_specific].
Qed.

Lemma find_spec {A} (f : A → bool) (R : A → A → Prop) l :
  Reflexive R → StronglySorted R l →
  match find f l with
  | Some x => x ∈ l ∧ f x = true ∧ ∀ y, y ∈ l → f y = true → R x y
  | None => ∀ y, y ∈ l → f y = false
  end.
Proof.
  intros HR. induction 1 as [|x l Hs IH Hx]; simpl; [set_solver|].
  destruct (f x) eqn:E.
  - split_and!; [set_solver|done|]. intros y [->|Hy]%elem_of_cons _; [done|].
    rewrite Forall_forall in Hx. auto.
  - destruct (find f l) as [z|].
    + destruct IH as (Hz & Hfz & Hall). split_and!; [set_solver|done|].
      intros y [->|Hy]%elem_of_cons Hfy; [congruence|auto].
    + intros y [->|Hy]%elem_of_cons; auto.
Qed.

(** What it means for a rule to cover a name: the name is the domain itself, unless the
    rule is a wildcard, or a name below it on a label boundary. *)
Definition covers (rule : Rule) (name : string) : Prop :=
  is_wildcard rule = false ∧ name = zone rule ∨
  include_subdomains rule = true ∧ ∃ sub, name = sub +:+ "." +:+ zone rule.

Lemma rule_matches_covers name rule : rule_matches name rule = true ↔ covers rule name.
Proof.
  unfold rule_matches, covers.
  rewrite orb_true_iff, !andb_true_iff, negb_true_iff, bool_decide_eq_true.
  assert ((match strip_suffix (zone rule) name with
           | Some prefix => str_ends_with "." prefix | None => false end) = true ↔
          ∃ sub, name = sub +:+ "." +:+ zone rule) as ->; [|done].
  split.
  - destruct (strip_suffix (zone rule) name) as [r|] eqn:E; [|done].
    apply strip_suffix_spec in E as ->. intros [sub ->]%str_ends_with_spec.
    exists sub. by rewrite str_app_assoc.
  - intros [sub ->].
    assert (strip_suffix (zone rule) (sub +:+ "." +:+ zone rule) = Some (sub +:+ ".")) as ->.
    { apply strip_suffix_spec. by rewrite str_app_assoc. }
    apply str_ends_with_spec. eauto.
Qed.

(** ** Properties *)

(** A domain accepted by [domain] is in normal form: accepted again and unchanged,
    at most 253 bytes, not an IP address, and every label of it is 1 to 63 letters, digits
    and inner hyphens. *)
Theorem domain_normal raw n :
  domain raw = Ok n →
  domain n = Ok n ∧ slen n ≤ 253 ∧ is_ip_addr n = false ∧
  forallb label_ok (split "." n) = true.
Proof.
  intros H. split; [by eapply domain_idem|]. apply domain_inv in H. tauto.
Qed.

(** Preparing is stable: a prepared rule set is accepted by [prepare] again and is
    not changed by it, so that the responder applies exactly the rules the server
    validated; it has one rule for each given rule, with distinct domains. *)
Theorem prepare_idempotent rules out :
  prepare rules = Ok out →
  prepare out = Ok out ∧ length out = length rules ∧ NoDup (map rule_domain out).
Proof.
  intros (Hl & l & Hloop & ->)%prepare_inv.
  apply prepare_loop_spec in Hloop as (Hf & Hn & _).
  pose proof (Forall2_length _ _ _ Hf) as Hlen.
  pose proof (sort_by_perm rule_cmp l) as Hp.
  assert (NoDup (map rule_domain (sort_by rule_cmp l))) as Hn'.
  { eapply NoDup_Permutation_proper; [|exact Hn]. by apply fmap_Permutation. }
  assert (length (sort_by rule_cmp l) = length rules) as Hls by by rewrite Hp, Hlen.
  split_and!; [|done|done].
  unfold prepare. rewrite Hls, (proj2 (Z.leb_le _ 256)) by done. cbn [ensure rbind].
  rewrite (proj2 (prepare_loop_spec _ ∅ (sort_by rule_cmp l))).
  { cbn [rbind]. f_equal. apply sort_by_id, sort_by_sorted, rule_cmp_total. }
  split_and!; [|done|by apply Forall_true; set_solver].
  apply Forall2_same_length_lookup_2; [done|]. intros i x y Hx Hy. simplify_eq.
  apply list_elem_of_lookup_2 in Hx. rewrite Hp in Hx.
  apply list_elem_of_lookup_1 in Hx as [j Hj].
  eapply Forall2_lookup_r in Hj as (z & _ & Hz); [|exact Hf]. exact (prepare_rule_idem _ _ Hz).
Qed.

(** In a prepared rule set the lookup finds a rule exactly when some rule covers the
    queried name on a label boundary, and the rule found is the most specific one: the
    longest zone, a wildcard before the plain rule of the same zone. *)
Theorem matching_most_specific rules out query :
  prepare rules = Ok out →
  let name := trim_end is_dot query in
  match matching out query with
  | Some r => r ∈ out ∧ covers r name ∧ ∀ r', r' ∈ out → covers r' name → more_specific r r'
  | None => ∀ r', r' ∈ out → ~ covers r' name
  end.
Proof.
  intros Hs%prepare_sorted. simpl. unfold matching.
  pose proof (find_spec (rule_matches (trim_end is_dot query)) more_specific out) as H.
  destruct (find _ out) as [r|].
  - destruct H as (Hr & Hm & Hall); [by right|done|]. split_and!; [done| |].
    + by apply rule_matches_covers.
    + intros r' Hr' Hc%rule_matches_covers. auto.
  - intros r' Hr' Hc%rule_matches_covers. rewrite H in Hc; [done|by right|done|done].
Qed.

Definition sample_rules : list Rule :=
  [mkRule " Example.COM." Block true; mkRule "*.Example.com" Block false;
   mkRule "www.example.com" Block false].

Lemma domain_normal_witness :
  domain " Example.COM." = Ok "example.com" ∧
  (domain "example.com" = Ok "example.com" ∧ slen "example.com" ≤ 253 ∧
   is_ip_addr "example.com" = false ∧ forallb label_ok (split "." "example.com") = true).
Proof.
  assert (domain " Example.COM." = Ok "example.com") as H by (vm_compute; reflexivity).
  split; [exact H|exact (domain_normal " Example.COM." "example.com" H)].
Defined.

Lemma prepare_idempotent_witness :
  ∃ out, prepare sample_rules = Ok out ∧
    (prepare out = Ok out ∧ length out = length sample_rules ∧ NoDup (map rule_domain out)).
Proof.
  eexists. split; [vm_compute; reflexivity|].
  apply (prepare_idempotent sample_rules). vm_compute. reflexivity.
Defined.

Lemma matching_most_specific_witness :
  ∃ out, prepare sample_rules = Ok out ∧
    matching out "a.example.com." = Some (mkRule "*.example.com" Block true) ∧
    match matching out "a.example.com." with
    | Some r => r ∈ out ∧ covers r (trim_end is_dot "a.example.com.") ∧
        ∀ r', r' ∈ out → covers r' (trim_end is_dot "a.example.com.") → more_specific r r'
    | None => ∀ r', r' ∈ out → ~ covers r' (trim_end is_dot "a.example.com.")
    end.
Proof.
  eexists. split; [vm_compute; reflexivity|]. split; [vm_compute; reflexivity|].
  apply (matching_most_specific sample_rules). vm_compute. reflexivity.
Defined.
