(* ===== verification/PolicyEngine.v ===== *)
(** * The policy engine ([Engine] of [porthub-network/src/policy.rs])

    The engine holds the last accepted policy lease, the address of every peer and two
    flow tables, one for peer-to-peer traffic and one for exit traffic.  [apply] replaces
    the policy, [revoke] drops it, [check] and [check_exit] decide a packet.  Each clock
    the code reads is an argument: [utc] for [Utc::now()], [now], [t1] and [t2] for
    [Instant::now()], all in nanoseconds.  [HashMap] indexing panics on a missing key and
    the model keeps that outcome. *)

From S2P Require Import Prelude Net RustStr LanRoutes DnsPolicy Packet Tracking.
Local Open Scope string_scope.
Local Open Scope Z_scope.

(** ** Policy data *)

Record PeerInfo := mkPeerInfo {
  peer_id : string; peer_ip : ipv4; fingerprint : string; instance : string;
  online : bool; stream_transport : string; peer_networks : list Network;
  hostname : string; aliases : list string;
}.

Record Port := mkPort { port_start : Z; port_end : Z }.

Record Grant := mkGrant {
  grant_source : string; grant_destination : string; grant_protocol : string;
  grant_ports : list Port;
}.

Record ExitRoute := mkExitRoute {
  route_id : string; route_name : string; routing_peers : list string;
  tor_enabled : bool; tor_circuit_groups : Z; clients : list string;
  selection : Selection; traffic_mode : TrafficMode; allow_direct_fallback : bool;
  masquerade : bool; block_lan_access : bool;
}.

Record Snapshot := mkSnapshot {
  workspace : string; self_ : string; revision : Z; expires_at : Z;
  peers : list PeerInfo; dns_suffixes : list string; grants : list Grant;
  exit_routes : list ExitRoute; dns_rules : list Rule;
}.

Record Engine := mkEngine {
  snapshot : option Snapshot;
  ips : gmap string ipv4;
  flows : Flows;
  exit_flows : Flows;
  deadline : option Z;
}.

(** [Engine::default()] *)
Definition engine_default : Engine := mkEngine None ∅ ∅ ∅ None.

Definition revoke (e : Engine) : Engine := mkEngine (snapshot e) (ips e) ∅ ∅ None.

Definition lease_deadline (e : Engine) : option Z := deadline e.
Definition valid_lease (e : Engine) (now : Z) : bool :=
  match deadline e with Some d => now <? d | None => false end.

(** ** Decisions *)

(** The protocol name of a packet. *)
Definition protocol_name (protocol : Z) : option string :=
  if protocol =? 6 then Some "tcp"
  else if protocol =? 17 then Some "udp"
  else if protocol =? 1 then Some "icmp"
  else None.

Definition grant_covers (g : Grant) (proto : string) (dport : Z) : bool :=
  (bool_decide (grant_protocol g = "any") || bool_decide (grant_protocol g = proto))
  && (bool_decide (grant_ports g = [])
      || existsb (λ p, (port_start p <=? dport) && (dport <=? port_end p)) (grant_ports g)).

(** The closure of [any] on one grant; [&&] is short-circuit and [ips[..]] may panic. *)
Definition grant_allows (ips : gmap string ipv4) (p : Packet) (proto : string) (g : Grant)
    : res bool :=
  let! source := unwrap (ips !! grant_source g) in
  if negb (source =? src (key p)) then Ok false else
  let! destination := unwrap (ips !! grant_destination g) in
  if negb (destination =? dst (key p)) then Ok false else
  Ok (grant_covers g proto (dport (key p))).

Fixpoint any_grant (ips : gmap string ipv4) (p : Packet) (proto : string) (gs : list Grant)
    : res bool :=
  match gs with
  | [] => Ok false
  | g :: gs =>
      let! b := grant_allows ips p proto g in
      if (b : bool) then Ok true else any_grant ips p proto gs
  end.

Definition allowed (e : Engine) (p : Packet) : res bool :=
  match snapshot e with
  | None => Ok false
  | Some s =>
      match protocol_name (protocol (key p)) with
      | None => Ok false
      | Some proto => any_grant (ips e) p proto (grants s)
      end
  end.

Definition check (e : Engine) (bytes : list Z) (rem : string) (inbound : bool) (now : Z)
    : res bool * Engine :=
  match parse bytes with
  | Err m => (Err m, e)
  | Panic => (Panic, e)
  | Ok None => (Ok false, e)
  | Ok (Some p) =>
      if match deadline e with Some d => d <=? now | None => true end
      then (Ok false, mkEngine (snapshot e) (ips e) ∅ (exit_flows e) (deadline e)) else
      match snapshot e with
      | None => (Ok false, e)
      | Some s =>
          let '(source, destination) :=
            if inbound then (rem, self_ s) else (self_ s, rem) in
          if negb (bool_decide (ips e !! source = Some (src (key p))))
             || negb (bool_decide (ips e !! destination = Some (dst (key p))))
          then (Ok false, e) else
          match allowed e p with
          | Ok may_open =>
              let '(b, fs) := track_packet (flows e) p "" may_open now in
              (Ok b, mkEngine (snapshot e) (ips e) fs (exit_flows e) (deadline e))
          | Err m => (Err m, e)
          | Panic => (Panic, e)
          end
      end
  end.

Definition exit_target (ip : ipv4) (block_lan : bool) : bool :=
  let a := octet 0 ip in
  let b := octet 1 ip in
  negb (is_unspecified ip) && negb (is_loopback ip) && negb (is_link_local ip)
  && negb (is_multicast ip) && negb (is_broadcast ip) && negb (a =? 0) && (a <? 240)
  && negb ((a =? 100) && (64 <=? b) && (b <=? 127))
  && negb (block_lan && is_private ip).

Definition contains_str (l : list string) (s : string) : bool := bool_decide (s ∈ l).

Fixpoint exit_permitted_loop (ips : gmap string ipv4) (self : string) (p : Packet) (rem : string)
    (routes : list ExitRoute) : option (bool * bool) :=
  match routes with
  | [] => None
  | route :: routes =>
      let local_is_client := contains_str (clients route) self && contains_str (routing_peers route) rem in
      let local_is_exit := contains_str (routing_peers route) self && contains_str (clients route) rem in
      if negb local_is_client && negb local_is_exit
      then exit_permitted_loop ips self p rem routes else
      let client := if local_is_client then self else rem in
      match ips !! client with
      | None => None
      | Some client_ip =>
          let request := pkt_source p =? client_ip in
          if negb request && negb (pkt_destination p =? client_ip) then None else
          let target := if request then pkt_destination p else pkt_source p in
          if bool_decide (target ∈ map snd (map_to_list ips))
             || negb (permits (traffic_mode route) target)
             || negb (exit_target target false)
          then None else Some (request, local_is_client)
      end
  end.

Definition exit_permitted (e : Engine) (p : Packet) (rem : string) : option (bool * bool) :=
  match snapshot e with
  | None => None
  | Some s => exit_permitted_loop (ips e) (self_ s) p rem (exit_routes s)
  end.

(** The remote is a peer whose identity has been published. *)
Definition known_identity (e : Engine) (rem : string) : bool :=
  match snapshot e with
  | None => false
  | Some s => existsb (λ q, bool_decide (peer_id q = rem) && negb (str_is_empty (fingerprint q))
                            && negb (str_is_empty (instance q))) (peers s)
  end.

Definition check_exit (e : Engine) (bytes : list Z) (rem : string) (inbound : bool) (now : Z)
    : res bool * Engine :=
  if match deadline e with Some d => d <=? now | None => true end
  then (Ok false, mkEngine (snapshot e) (ips e) (flows e) ∅ (deadline e)) else
  if negb (known_identity e rem) then (Ok false, e) else
  match parse bytes with
  | Err m => (Err m, e)
  | Panic => (Panic, e)
  | Ok None => (Ok false, e)
  | Ok (Some p) =>
      match exit_permitted e p rem with
      | None => (Ok false, e)
      | Some (request, local_is_client) =>
          if negb (Bool.eqb request (xorb inbound local_is_client)) then (Ok false, e) else
          let '(b, fs) := track_packet (exit_flows e) p rem request now in
          (Ok b, mkEngine (snapshot e) (ips e) (flows e) fs (deadline e))
      end
  end.

(** ** Accepting a policy lease *)

(** The address binding of the peers: ids and addresses are distinct. *)
Fixpoint bind_peers (ps : list PeerInfo) (addresses : gset ipv4) (ips : gmap string ipv4)
    : res (gmap string ipv4) :=
  match ps with
  | [] => Ok ips
  | q :: ps =>
      ensure! is_private (peer_ip q) && negb (str_is_empty (peer_id q))
              && bool_decide (peer_ip q ∉ addresses)
              && bool_decide (ips !! peer_id q = None)
        else "invalid private peer address binding" in
      bind_peers ps ({[peer_ip q]} ∪ addresses) (<[peer_id q := peer_ip q]> ips)
  end.

Definition has_ip (ips : gmap string ipv4) (id : string) : bool :=
  bool_decide (is_Some (ips !! id)).

(** The two inner loops on one exit route. *)
Fixpoint bind_routing_peers (ips : gmap string ipv4) (ids : list string)
    (unique all : gset string) : res (gset string) :=
  match ids with
  | [] => Ok all
  | id :: ids =>
      ensure! has_ip ips id && bool_decide (id ∉ unique) else "invalid exit peer" in
      bind_routing_peers ips ids ({[id]} ∪ unique) ({[id]} ∪ all)
  end.
Fixpoint bind_clients (ips : gmap string ipv4) (ids : list string) (all : gset string)
    : res (gset string) :=
  match ids with
  | [] => Ok all
  | id :: ids =>
      ensure! has_ip ips id && bool_decide (id ∉ all) else "ambiguous exit assignment" in
      bind_clients ips ids ({[id]} ∪ all)
  end.

Definition route_ok (route : ExitRoute) (route_ids : gset string) : bool :=
  negb (str_is_empty (route_id route)) && bool_decide (route_id route ∉ route_ids)
  && (negb (bool_decide (routing_peers route = [])) || tor_enabled route)
  && negb (bool_decide (clients route = []))
  && (internet (traffic_mode route)
      || negb (bool_decide (routing_peers route = [])) && negb (tor_enabled route))
  && (1 <=? tor_circuit_groups route) && (tor_circuit_groups route <=? 16)
  && (len (routing_peers route) <=? 4096) && (len (clients route) <=? 4096).

Fixpoint bind_routes (ips : gmap string ipv4) (routes : list ExitRoute)
    (route_ids exit_clients routing : gset string) : res (gset string * gset string) :=
  match routes with
  | [] => Ok (exit_clients, routing)
  | route :: routes =>
      ensure! route_ok route route_ids else "invalid exit route" in
      let! routing := bind_routing_peers ips (routing_peers route) ∅ routing in
      let! exit_clients := bind_clients ips (clients route) exit_clients in
      bind_routes ips routes ({[route_id route]} ∪ route_ids) exit_clients routing
  end.

Fixpoint validate_grants (ips : gmap string ipv4) (gs : list Grant) : res unit :=
  match gs with
  | [] => Ok tt
  | g :: gs =>
      ensure! has_ip ips (grant_source g) && has_ip ips (grant_destination g)
              && bool_decide (grant_protocol g ∈ ["tcp"; "udp"; "icmp"; "any"])
        else "invalid private grant" in
      ensure! bool_decide (grant_ports g = []) || bool_decide (grant_protocol g ∈ ["tcp"; "udp"])
        else "invalid private port restrictions" in
      ensure! forallb (λ p, (0 <? port_start p) && (port_start p <=? port_end p)) (grant_ports g)
        else "invalid private port range" in
      validate_grants ips gs
  end.

(** Everything [apply] checks before it changes the engine: the remaining lease time
    and the new address map. *)
Definition validate (old : option Snapshot) (s : Snapshot) (utc : Z)
    : res (Z * gmap string ipv4) :=
  let remaining := expires_at s - utc in
  ensure! 0 <=? remaining
    else "private policy lease expired; check host clock synchronization and gateway connectivity" in
  ensure! negb (remaining =? 0) && (remaining <=? from_secs 60) && (0 <? revision s)
    else "invalid private policy lease" in
  ensure! match old with
          | None => true
          | Some o => bool_decide (workspace s = workspace o) && bool_decide (self_ s = self_ o)
                      && (revision o <=? revision s)
          end else "private identity or policy revision changed" in
  ensure! (len (peers s) <=? 4096) && (len (grants s) <=? 65536)
    else "private policy exceeds size limit" in
  let! ips := bind_peers (peers s) ∅ ∅ in
  ensure! has_ip ips (self_ s) else "private policy omits local identity" in
  ensure! len (exit_routes s) <=? 256 else "too many exit routes" in
  let! '(exit_clients, routing) := bind_routes ips (exit_routes s) ∅ ∅ ∅ in
  ensure! bool_decide (routing ## exit_clients) else "recursive exit routing is not supported" in
  let! _ := validate_grants ips (grants s) in
  Ok (remaining, ips).

(** The addresses of the peers whose address, instance or fingerprint changed. *)
Definition current_peers (ps : list PeerInfo) : gmap string PeerInfo :=
  foldl (λ m q, <[peer_id q := q]> m) ∅ ps.
Definition peer_changed (current : gmap string PeerInfo) (changed : gset ipv4) (q : PeerInfo)
    : gset ipv4 :=
  match current !! peer_id q with
  | None => {[peer_ip q]} ∪ changed
  | Some next =>
      if negb (peer_ip next =? peer_ip q) || negb (bool_decide (instance next = instance q))
         || negb (bool_decide (fingerprint next = fingerprint q))
      then {[peer_ip next; peer_ip q]} ∪ changed else changed
  end.
Definition changed_addresses (old s : Snapshot) : gset ipv4 :=
  foldl (peer_changed (current_peers (peers s))) ∅ (peers old).

(** The two [retain] calls; the remote of an exit flow is looked up in the old map. *)
Definition retain_unchanged (changed : gset ipv4) (fs : Flows) : Flows :=
  filter (λ e : Key * Flow, src e.1 ∉ changed ∧ dst e.1 ∉ changed) fs.
Definition remote_unchanged (old_ips : gmap string ipv4) (changed : gset ipv4) (f : Flow) : Prop :=
  match old_ips !! remote f with Some ip => ip ∉ changed | None => True end.
#[global] Instance remote_unchanged_dec o c f : Decision (remote_unchanged o c f).
Proof. unfold remote_unchanged. destruct (o !! remote f); apply _. Defined.
Definition retain_unchanged_exit (old_ips : gmap string ipv4) (changed : gset ipv4) (fs : Flows)
    : Flows :=
  filter (λ e : Key * Flow, (src e.1 ∉ changed ∧ dst e.1 ∉ changed)
                            ∧ remote_unchanged old_ips changed e.2) fs.

(** [into_iter().filter(..).collect()] with a filter that may panic. *)
Definition filter_res (keep : Flow → res bool) (fs : Flows) : res Flows :=
  if bool_decide (map_Forall (λ _ f, is_ok (keep f) = true) fs)
  then Ok (filter (λ e : Key * Flow, keep e.2 = Ok true) fs)
  else Panic.

(** What follows the checks. *)
Definition install (e : Engine) (s : Snapshot) (remaining : Z) (new_ips : gmap string ipv4)
    (t1 t2 : Z) : res Engine :=
  let '(fs, exits) :=
    match snapshot e with
    | None => (flows e, exit_flows e)
    | Some old =>
        let changed := changed_addresses old s in
        (retain_unchanged changed (flows e),
         retain_unchanged_exit (ips e) changed (exit_flows e))
    end in
  let e' := mkEngine (Some s) new_ips ∅ exits (Some (t1 + remaining)) in
  let! fs := filter_res (λ f, if t2 <? expires f then allowed e' (opening f) else Ok false) fs in
  let e' := mkEngine (Some s) new_ips fs ∅ (Some (t1 + remaining)) in
  let exits := filter (λ x : Key * Flow,
    t2 < expires x.2 ∧ is_Some (exit_permitted e' (opening x.2) (remote x.2))) exits in
  Ok (mkEngine (Some s) new_ips fs exits (Some (t1 + remaining))).

Definition apply (e : Engine) (s : Snapshot) (utc t1 t2 : Z) : res unit * Engine :=
  match (let! '(remaining, new_ips) := validate (snapshot e) s utc in
         install e s remaining new_ips t1 t2) with
  | Ok e' => (Ok tt, e')
  | Err m => (Err m, revoke e)
  | Panic => (Panic, e)
  end.

(** ** What a validated policy guarantees *)

Record policy_ok (s : Snapshot) (ips : gmap string ipv4) : Prop := {
  pol_self : is_Some (ips !! self_ s);
  pol_inj : ∀ a b ip, ips !! a = Some ip → ips !! b = Some ip → a = b;
  pol_private : ∀ a ip, ips !! a = Some ip → is_private ip = true;
  pol_grants : ∀ g, g ∈ grants s →
    is_Some (ips !! grant_source g) ∧ is_Some (ips !! grant_destination g);
  pol_roles : ∀ r1 r2 id, r1 ∈ exit_routes s → r2 ∈ exit_routes s →
    id ∈ routing_peers r1 → id ∈ clients r2 → False;
}.

Definition bound (addresses : gset ipv4) (ips : gmap string ipv4) : Prop :=
  (∀ a ip, ips !! a = Some ip → is_private ip = true ∧ ip ∈ addresses) ∧
  (∀ a b ip, ips !! a = Some ip → ips !! b = Some ip → a = b).

Lemma bind_peers_ok ps addresses ips m :
  bind_peers ps addresses ips = Ok m → bound addresses ips →
  ∃ addresses', bound addresses' m.
Proof.
  revert addresses ips. induction ps as [|q ps IH]; intros addresses ips H Hb; simpl in H.
  { apply (inj Ok) in H as <-. eauto. }
  res_inv. split_guard.
  repeat match goal with H : bool_decide _ = true |- _ => apply bool_decide_eq_true_1 in H end.
  eapply IH; [exact H|]. destruct Hb as [Hp Hi]. split.
  - intros a ip [[<- <-]|[Hne Ha]]%lookup_insert_Some; [set_solver|].
    apply Hp in Ha. set_solver.
  - intros a b ip [[<- <-]|[Hne Ha]]%lookup_insert_Some
      [[<- Hip]|[Hne' Hb']]%lookup_insert_Some; [done| | |by eapply Hi].
    + apply Hp in Hb' as [_ ?]. done.
    + subst ip. apply Hp in Ha as [_ ?]. done.
Qed.

Lemma bind_routing_peers_ok ips ids unique all all' :
  bind_routing_peers ips ids unique all = Ok all' → all' = all ∪ list_to_set ids.
Proof.
  revert unique all. induction ids as [|id ids IH]; intros unique all H; simpl in H.
  - apply (inj Ok) in H as <-. set_solver.
  - res_inv. apply IH in H. set_solver.
Qed.

Lemma bind_clients_ok ips ids all all' :
  bind_clients ips ids all = Ok all' → all' = all ∪ list_to_set ids.
Proof.
  revert all. induction ids as [|id ids IH]; intros all H; simpl in H.
  - apply (inj Ok) in H as <-. set_solver.
  - res_inv. apply IH in H. set_solver.
Qed.

Lemma bind_routes_ok ips routes ids cs rs cs' rs' :
  bind_routes ips routes ids cs rs = Ok (cs', rs') →
  cs ⊆ cs' ∧ rs ⊆ rs' ∧
  ∀ r, r ∈ routes → (∀ id, id ∈ routing_peers r → id ∈ rs') ∧ (∀ id, id ∈ clients r → id ∈ cs').
Proof.
  revert ids cs rs. induction routes as [|route routes IH]; intros ids cs rs H; cbn [bind_routes] in H.
  - apply (inj Ok) in H. simplify_eq. set_solver.
  - res_inv. apply bind_routing_peers_ok in E0 as ->. apply bind_clients_ok in E1 as ->.
    apply IH in H as (Hc & Hr & Hall). split_and!; [set_solver|set_solver|].
    intros r [->|Hin]%elem_of_cons; [|by apply Hall]. split; intros id Hid; set_solver.
Qed.

Lemma validate_grants_ok ips gs u :
  validate_grants ips gs = Ok u →
  ∀ g, g ∈ gs → is_Some (ips !! grant_source g) ∧ is_Some (ips !! grant_destination g).
Proof.
  induction gs as [|g gs IH]; intros H; cbn [validate_grants] in H; [set_solver|].
  res_inv. intros g' [->|Hin]%elem_of_cons; [|by apply IH]. split_guard.
  unfold has_ip in *.
  repeat match goal with H : bool_decide _ = true |- _ => apply bool_decide_eq_true_1 in H end.
  done.
Qed.

Lemma validate_ok old s utc remaining m :
  validate old s utc = Ok (remaining, m) →
  0 < remaining ≤ from_secs 60 ∧ 0 < revision s ∧ policy_ok s m ∧
  match old with
  | None => True
  | Some o => workspace s = workspace o ∧ self_ s = self_ o ∧ revision o ≤ revision s
  end.
Proof.
  unfold validate. intros H. res_inv. destruct v6 as [cs rs]. res_inv. simplify_eq.
  apply bool_decide_eq_true_1 in E7.
  split_and!; [lia|lia|lia| |].
  - destruct (bind_peers_ok _ _ _ _ E3) as [A [Hp Hi]].
    { split; intros ? ?; rewrite lookup_empty; done. }
    split.
    + by apply bool_decide_eq_true_1 in E4.
    + done.
    + intros a ip Ha. by apply Hp in Ha as [? _].
    + by eapply validate_grants_ok.
    + intros r1 r2 id H1 H2 Hi1 Hi2. apply bind_routes_ok in E6 as (_ & _ & Hall).
      apply Hall in H1 as [Hr _]. apply Hall in H2 as [_ Hc]. set_solver.
  - destruct old; [|done]. split_guard.
    repeat match goal with H : bool_decide _ = true |- _ => apply bool_decide_eq_true_1 in H end.
    split_and!; [done|done|lia].
Qed.

Lemma bind_peers_not_panic ps a m : bind_peers ps a m ≠ Panic.
Proof.
  revert a m. induction ps; intros; simpl; [done|].
  apply rbind_not_panic; [apply ensure_not_panic|auto].
Qed.

Lemma bind_routing_peers_not_panic ips ids u a : bind_routing_peers ips ids u a ≠ Panic.
Proof.
  revert u a. induction ids; intros; simpl; [done|].
  apply rbind_not_panic; [apply ensure_not_panic|auto].
Qed.

Lemma bind_clients_not_panic ips ids a : bind_clients ips ids a ≠ Panic.
Proof.
  revert a. induction ids; intros; simpl; [done|].
  apply rbind_not_panic; [apply ensure_not_panic|auto].
Qed.

Lemma bind_routes_not_panic ips routes i c r : bind_routes ips routes i c r ≠ Panic.
Proof.
  revert i c r. induction routes; intros; cbn [bind_routes]; [done|].
  apply rbind_not_panic; [apply ensure_not_panic|intros _ _].
  apply rbind_not_panic; [apply bind_routing_peers_not_panic|intros ? _].
  apply rbind_not_panic; [apply bind_clients_not_panic|auto].
Qed.

Lemma validate_grants_not_panic ips gs : validate_grants ips gs ≠ Panic.
Proof.
  induction gs; cbn [validate_grants]; [done|].
  repeat (apply rbind_not_panic; [apply ensure_not_panic|intros _ _]). done.
Qed.

Lemma validate_not_panic old s utc : validate old s utc ≠ Panic.
Proof.
  unfold validate.
  do 4 (apply rbind_not_panic; [apply ensure_not_panic|intros _ _]).
  apply rbind_not_panic; [apply bind_peers_not_panic|intros m _].
  do 2 (apply rbind_not_panic; [apply ensure_not_panic|intros _ _]).
  apply rbind_not_panic; [apply bind_routes_not_panic|intros [cs rs] _].
  apply rbind_not_panic; [apply ensure_not_panic|intros _ _].
  apply rbind_not_panic; [apply validate_grants_not_panic|done].
Qed.

(** ** Grants *)

(** The policy grants the packet's source, destination, protocol and port. *)
Definition grant_permits (ips : gmap string ipv4) (s : Snapshot) (p : Packet) : Prop :=
  ∃ g proto, g ∈ grants s ∧ protocol_name (protocol (key p)) = Some proto ∧
    ips !! grant_source g = Some (src (key p)) ∧
    ips !! grant_destination g = Some (dst (key p)) ∧
    grant_covers g proto (dport (key p)) = true.

Lemma grant_allows_spec ips p proto g :
  is_Some (ips !! grant_source g) → is_Some (ips !! grant_destination g) →
  ∃ b, grant_allows ips p proto g = Ok b ∧
    (b = true ↔ ips !! grant_source g = Some (src (key p)) ∧
                ips !! grant_destination g = Some (dst (key p)) ∧
                grant_covers g proto (dport (key p)) = true).
Proof.
  intros [a Ha] [c Hc]. unfold grant_allows. rewrite Ha, Hc. cbn [unwrap rbind].
  destruct (Z.eqb_spec a (src (key p))) as [->|]; cbn [negb].
  - destruct (Z.eqb_spec c (dst (key p))) as [->|]; cbn [negb]; eexists; (split; [done|]);
      naive_solver.
  - eexists; (split; [done|]); naive_solver.
Qed.

Lemma any_grant_spec ips p proto gs :
  (∀ g, g ∈ gs → is_Some (ips !! grant_source g) ∧ is_Some (ips !! grant_destination g)) →
  ∃ b, any_grant ips p proto gs = Ok b ∧
    (b = true ↔ ∃ g, g ∈ gs ∧ ips !! grant_source g = Some (src (key p)) ∧
                ips !! grant_destination g = Some (dst (key p)) ∧
                grant_covers g proto (dport (key p)) = true).
Proof.
  induction gs as [|g gs IH]; intros H; cbn [any_grant].
  - exists false. set_solver.
  - destruct (H g ltac:(set_solver)) as [H1 H2].
    destruct (grant_allows_spec ips p proto g H1 H2) as (b & -> & Hb). cbn [rbind].
    destruct b.
    + exists true. split; [done|]. split; [|done]. intros _. exists g.
      split; [set_solver|]. by apply Hb.
    + destruct IH as (b & -> & Hb'); [set_solver|]. exists b. split; [done|].
      rewrite Hb'. split; [set_solver|]. intros (x & [->|Hx]%elem_of_cons & Hc); [|eauto].
      apply Hb in Hc. done.
Qed.

Lemma allowed_spec e s p :
  snapshot e = Some s → policy_ok s (ips e) →
  ∃ b, allowed e p = Ok b ∧ (b = true ↔ grant_permits (ips e) s p).
Proof.
  intros Hs Hp. unfold allowed, grant_permits. rewrite Hs.
  destruct (protocol_name (protocol (key p))) as [proto|].
  - destruct (any_grant_spec (ips e) p proto (grants s)) as (b & -> & Hb).
    { apply (pol_grants _ _ Hp). }
    exists b. split; [done|]. rewrite Hb. naive_solver.
  - exists false. split; [done|]. naive_solver.
Qed.

(** ** The engine invariant *)

(** Every tracked flow is one the current policy would let its opening packet start. *)
Record engine_ok (e : Engine) : Prop := {
  eng_policy : match snapshot e with
               | None => flows e = ∅ ∧ exit_flows e = ∅ ∧ deadline e = None
               | Some s => policy_ok s (ips e)
               end;
  eng_table : table_ok (flows e);
  eng_exit_table : table_ok (exit_flows e);
  eng_flows : ∀ k f, flows e !! k = Some f →
    remote f = "" ∧ allowed e (opening f) = Ok true;
  eng_exits : ∀ k f, exit_flows e !! k = Some f →
    is_Some (exit_permitted e (opening f) (remote f));
}.

Lemma table_ok_subseteq (fs gs : Flows) : lookups_below fs gs → table_ok gs → table_ok fs.
Proof.
  intros Hk [Hf Hs]. split; [eauto|].
  assert (size fs ≤ size gs)%nat; [|lia]. by apply map_subseteq_size, map_subseteq_spec.
Qed.

Lemma filter_below (P : Key * Flow → Prop) `{!∀ x, Decision (P x)} (fs : Flows) :
  lookups_below (filter P fs) fs.
Proof. intros k f Hk. by apply map_lookup_filter_Some in Hk as [? _]. Qed.

Lemma engine_default_ok : engine_ok engine_default.
Proof. split; simpl; try done; apply table_ok_empty. Qed.

Lemma revoke_ok e : engine_ok e → engine_ok (revoke e).
Proof.
  intros [Hp _ _ _ _]. split; simpl; try done; try apply table_ok_empty.
  destruct (snapshot e); [done|]. tauto.
Qed.

(** Clearing or keeping tables under the same policy keeps the invariant. *)
Lemma engine_ok_tables e fs exits :
  engine_ok e → snapshot e ≠ None ∨ fs = ∅ ∧ exits = ∅ →
  table_ok fs → table_ok exits →
  (∀ k f, fs !! k = Some f → remote f = "" ∧ allowed e (opening f) = Ok true) →
  (∀ k f, exits !! k = Some f → is_Some (exit_permitted e (opening f) (remote f))) →
  engine_ok (mkEngine (snapshot e) (ips e) fs exits (deadline e)).
Proof.
  intros [Hp _ _ _ _] Hc Hf Hx HF HX. split; simpl; try done.
  destruct (snapshot e); [done|]. destruct Hc as [|[-> ->]]; [done|]. tauto.
Qed.

(** The outcome of [check] on every branch. *)
Lemma check_cases e bytes rem inb now :
  bytes_ok bytes → engine_ok e →
  (check e bytes rem inb now = (Ok false, e)) ∨
  (check e bytes rem inb now =
     (Ok false, mkEngine (snapshot e) (ips e) ∅ (exit_flows e) (deadline e)) ∧
   valid_lease e now = false) ∨
  ∃ p s may_open,
    parse bytes = Ok (Some p) ∧ snapshot e = Some s ∧ valid_lease e now = true ∧
    ips e !! (if inb then rem else self_ s) = Some (src (key p)) ∧
    ips e !! (if inb then self_ s else rem) = Some (dst (key p)) ∧
    allowed e p = Ok may_open ∧ (may_open = true ↔ grant_permits (ips e) s p) ∧
    check e bytes rem inb now =
      (Ok (track_packet (flows e) p "" may_open now).1,
       mkEngine (snapshot e) (ips e) (track_packet (flows e) p "" may_open now).2
         (exit_flows e) (deadline e)).
Proof.
  intros Hb He. unfold check, valid_lease.
  pose proof (parse_ok bytes Hb) as Hparse.
  destruct (parse bytes) as [[p|]|m|]; [|by left|done|done].
  destruct (deadline e) as [d|]; [|right; left; done].
  destruct (Z.leb_spec d now); [right; left; split; [done|]; lia|].
  destruct (snapshot e) as [s|] eqn:Es; [|by left].
  destruct (if inb then (rem, self_ s) else (self_ s, rem)) as [source destination] eqn:Ed.
  destruct (negb _ || negb _) eqn:G; [by left|]. split_guard.
  repeat match goal with H : bool_decide _ = true |- _ => apply bool_decide_eq_true_1 in H end.
  pose proof (eng_policy _ He) as Hp. rewrite Es in Hp.
  destruct (allowed_spec e s p Es Hp) as (b & Ha & Hbs).
  right; right. exists p, s, b. rewrite Ha.
  split_and!; try done; try (destruct inb; simplify_eq; done); [lia|].
  by destruct (track_packet (flows e) p "" b now).
Qed.

Lemma check_ok e bytes rem inb now :
  bytes_ok bytes → engine_ok e → engine_ok (check e bytes rem inb now).2.
Proof.
  intros Hb He. pose proof (eng_flows _ He) as HF. pose proof (eng_exits _ He) as HX.
  destruct (check_cases e bytes rem inb now Hb He)
    as [->|[[-> _]|(p & s & mo & _ & Hs & _ & _ & _ & Ha & _ & ->)]]; simpl.
  - done.
  - apply engine_ok_tables; try done; try apply table_ok_empty; [|apply He].
    pose proof (eng_policy _ He) as Hp. destruct (snapshot e); [by left|]. right. naive_solver.
  - apply engine_ok_tables; try done.
    + left. congruence.
    + by apply track_packet_ok, He.
    + apply He.
    + intros k f [(g & Hg & Ho & Hr & _)|(_ & -> & -> & _)]%track_packet_origin.
      * rewrite Ho, Hr. by eapply HF.
      * done.
Qed.

(** ** Exit traffic *)

(** What an exit decision stands for: a route of which this machine is a client and the
    remote an exit, or the other way around; the client's address on the packet, on the
    side the direction says; and a target that is no overlay address, is in the route's
    traffic mode and is no special address. *)
Definition exit_route_permits (ips : gmap string ipv4) (s : Snapshot) (p : Packet) (rem : string)
    (request local_is_client : bool) : Prop :=
  ∃ route client target, route ∈ exit_routes s ∧
    (if local_is_client
     then client = self_ s ∧ self_ s ∈ clients route ∧ rem ∈ routing_peers route
     else client = rem ∧ self_ s ∈ routing_peers route ∧ rem ∈ clients route) ∧
    (if request
     then ips !! client = Some (src (key p)) ∧ target = dst (key p)
     else ips !! client = Some (dst (key p)) ∧ target = src (key p)) ∧
    (∀ id, ips !! id ≠ Some target) ∧
    permits (traffic_mode route) target = true ∧ exit_target target false = true.

Lemma exit_permitted_loop_sound ips self p rem routes request loc :
  exit_permitted_loop ips self p rem routes = Some (request, loc) →
  ∃ route, route ∈ routes ∧
    (if loc then self ∈ clients route ∧ rem ∈ routing_peers route
     else self ∈ routing_peers route ∧ rem ∈ clients route) ∧
    ∃ client_ip target, ips !! (if loc then self else rem) = Some client_ip ∧
    (if request then src (key p) = client_ip ∧ target = dst (key p)
     else dst (key p) = client_ip ∧ target = src (key p)) ∧
    target ∉ map snd (map_to_list ips) ∧
    permits (traffic_mode route) target = true ∧ exit_target target false = true.
Proof.
  induction routes as [|route routes IH]; [done|]. cbn [exit_permitted_loop].
  unfold contains_str, pkt_source, pkt_destination.
  set (c := bool_decide _ && bool_decide _). set (x := bool_decide _ && bool_decide _).
  destruct (negb c && negb x) eqn:Eskip.
  { intros (r & Hr & ?)%IH. exists r. split; [set_solver|done]. }
  destruct (ips !! (if c then self else rem)) as [cip|] eqn:Ei; [|done].
  destruct (negb (src (key p) =? cip) && negb (dst (key p) =? cip)) eqn:Ed; [done|].
  set (target := if src (key p) =? cip then dst (key p) else src (key p)).
  destruct (bool_decide _ || _ || _) eqn:Et; [done|]. split_guard.
  intros [= <- <-]. exists route. split; [set_solver|]. split.
  { destruct c eqn:Ec; subst c x.
    - split_guard. split; by eapply bool_decide_eq_true_1.
    - cbn [negb andb] in Eskip. apply negb_false_iff in Eskip. split_guard.
      split; by eapply bool_decide_eq_true_1. }
  exists cip, target. split; [done|].
  match goal with H : bool_decide _ = false |- _ => apply bool_decide_eq_false_1 in H end.
  split; [|tauto]. unfold target. destruct (Z.eqb_spec (src (key p)) cip); [done|].
  cbn [negb andb] in Ed. split; [lia|done].
Qed.

Lemma exit_permitted_sound e p rem request loc :
  exit_permitted e p rem = Some (request, loc) →
  ∃ s, snapshot e = Some s ∧ exit_route_permits (ips e) s p rem request loc.
Proof.
  unfold exit_permitted. destruct (snapshot e) as [s|]; [|done].
  intros (route & Hr & Hroles & cip & target & Hip & Hside & Hover & Hmode & Ht)%exit_permitted_loop_sound.
  exists s. split; [done|]. exists route, (if loc then self_ s else rem), target.
  split_and!; try done.
  - by destruct loc.
  - destruct request, Hside as [-> ->]; done.
  - intros id Hid. apply Hover, list_elem_of_fmap. exists (id, target).
    split; [done|]. by apply elem_of_map_to_list.
Qed.

Lemma check_exit_cases e bytes rem inb now :
  bytes_ok bytes →
  (check_exit e bytes rem inb now = (Ok false, e)) ∨
  (check_exit e bytes rem inb now =
     (Ok false, mkEngine (snapshot e) (ips e) (flows e) ∅ (deadline e)) ∧
   valid_lease e now = false) ∨
  ∃ p request loc,
    parse bytes = Ok (Some p) ∧ valid_lease e now = true ∧ known_identity e rem = true ∧
    exit_permitted e p rem = Some (request, loc) ∧ request = xorb inb loc ∧
    check_exit e bytes rem inb now =
      (Ok (track_packet (exit_flows e) p rem request now).1,
       mkEngine (snapshot e) (ips e) (flows e)
         (track_packet (exit_flows e) p rem request now).2 (deadline e)).
Proof.
  intros Hb. unfold check_exit, valid_lease.
  destruct (deadline e) as [d|]; [|right; left; done].
  destruct (Z.leb_spec d now); [right; left; split; [done|]; lia|].
  destruct (known_identity e rem) eqn:Ek; cbn [negb]; [|by left].
  pose proof (parse_ok bytes Hb) as Hparse.
  destruct (parse bytes) as [[p|]|m|]; [|by left|done|done].
  destruct (exit_permitted e p rem) as [[request loc]|] eqn:Ex; [|by left].
  destruct (Bool.eqb request (xorb inb loc)) eqn:Eq; cbn [negb]; [|by left].
  apply eqb_prop in Eq. right; right. exists p, request, loc.
  split_and!; try done; [lia|].
  by destruct (track_packet (exit_flows e) p rem request now).
Qed.

Lemma check_exit_ok e bytes rem inb now :
  bytes_ok bytes → engine_ok e → engine_ok (check_exit e bytes rem inb now).2.
Proof.
  intros Hb He. pose proof (eng_flows _ He) as HF. pose proof (eng_exits _ He) as HX.
  destruct (check_exit_cases e bytes rem inb now Hb)
    as [->|[[-> _]|(p & request & loc & _ & _ & _ & Hx & _ & ->)]]; simpl.
  - done.
  - apply engine_ok_tables; try done; try apply table_ok_empty; [|apply He].
    pose proof (eng_policy _ He) as Hp. destruct (snapshot e); [by left|]. right. naive_solver.
  - apply engine_ok_tables; try done.
    + left. apply exit_permitted_sound in Hx as (s & -> & _). done.
    + apply He.
    + by apply track_packet_ok, He.
    + intros k f [(g & Hg & Ho & Hr & _)|(_ & -> & -> & _)]%track_packet_origin.
      * rewrite Ho, Hr. by eapply HX.
      * simpl. rewrite Hx. eauto.
Qed.

(** ** Installing a policy *)

Lemma filter_res_ok keep fs :
  (∀ k f, fs !! k = Some f → is_ok (keep f) = true) →
  ∃ gs, filter_res keep fs = Ok gs ∧
    ∀ k f, gs !! k = Some f ↔ fs !! k = Some f ∧ keep f = Ok true.
Proof.
  intros H. unfold filter_res. rewrite bool_decide_eq_true_2 by exact H.
  eexists. split; [done|]. intros k f. by rewrite map_lookup_filter_Some.
Qed.

(** The tables a policy change starts from: only flows of unchanged peers. *)
Definition surviving (e : Engine) (s : Snapshot) : Flows * Flows :=
  match snapshot e with
  | None => (flows e, exit_flows e)
  | Some old =>
      let changed := changed_addresses old s in
      (retain_unchanged changed (flows e), retain_unchanged_exit (ips e) changed (exit_flows e))
  end.

Lemma surviving_below e s :
  lookups_below (surviving e s).1 (flows e) ∧ lookups_below (surviving e s).2 (exit_flows e).
Proof. unfold surviving. destruct (snapshot e); simpl; [|done]. split; apply filter_below. Qed.

Lemma install_spec e s remaining m t1 t2 :
  policy_ok s m →
  ∃ e', install e s remaining m t1 t2 = Ok e' ∧
    snapshot e' = Some s ∧ ips e' = m ∧ deadline e' = Some (t1 + remaining) ∧
    (∀ k f, flows e' !! k = Some f ↔
       (surviving e s).1 !! k = Some f ∧ t2 < expires f ∧ allowed e' (opening f) = Ok true) ∧
    (∀ k f, exit_flows e' !! k = Some f ↔
       (surviving e s).2 !! k = Some f ∧ t2 < expires f ∧
       is_Some (exit_permitted e' (opening f) (remote f))).
Proof.
  intros Hp. unfold install. fold (surviving e s).
  destruct (surviving e s) as [fs exits].
  set (e1 := mkEngine (Some s) m ∅ exits (Some (t1 + remaining))).
  destruct (filter_res_ok (λ f, if t2 <? expires f then allowed e1 (opening f) else Ok false) fs)
    as (gs & -> & Hgs).
  { intros k f _. destruct (t2 <? expires f); [|done].
    destruct (allowed_spec e1 s (opening f) eq_refl Hp) as (b & -> & _). done. }
  cbn [rbind]. eexists. split; [done|]. split_and!; try done; simpl.
  - intros k f. rewrite Hgs. destruct (Z.ltb_spec t2 (expires f)).
    + match goal with |- _ ↔ _ ∧ _ ∧ allowed ?x _ = _ =>
        change (allowed x (opening f)) with (allowed e1 (opening f)) end. naive_solver.
    + split; [intros [_ ?]; done|lia].
  - intros k f. rewrite map_lookup_filter_Some. simpl.
    done.
Qed.

(** The outcome of [apply]: everything is revoked, or the new policy is installed. *)
Lemma apply_cases e s utc t1 t2 :
  (∃ msg, apply e s utc t1 t2 = (Err msg, revoke e)) ∨
  ∃ remaining m e', validate (snapshot e) s utc = Ok (remaining, m) ∧
    install e s remaining m t1 t2 = Ok e' ∧ apply e s utc t1 t2 = (Ok tt, e').
Proof.
  unfold apply. pose proof (validate_not_panic (snapshot e) s utc) as Hn.
  destruct (validate (snapshot e) s utc) as [[remaining m]|msg|] eqn:Ev; [|left; eauto|done].
  right. cbn [rbind]. apply validate_ok in Ev as (_ & _ & Hp & _).
  destruct (install_spec e s remaining m t1 t2 Hp) as (e' & Hi & _). rewrite Hi. eauto 10.
Qed.

Lemma apply_ok e s utc t1 t2 : engine_ok e → engine_ok (apply e s utc t1 t2).2.
Proof.
  intros He. destruct (apply_cases e s utc t1 t2) as [[msg ->]|(rm & m & e' & Hv & Hi & ->)]; simpl.
  { by apply revoke_ok. }
  apply validate_ok in Hv as (_ & _ & Hp & _).
  destruct (install_spec e s rm m t1 t2 Hp) as (e2 & Hi2 & Hs & Hm & Hd & Hf & Hx).
  rewrite Hi in Hi2. apply (inj Ok) in Hi2 as <-.
  destruct (surviving_below e s) as [Hb1 Hb2]. split.
  - rewrite Hs, Hm. done.
  - eapply table_ok_subseteq; [|apply (eng_table _ He)]. intros k f [Hk _]%Hf. auto.
  - eapply table_ok_subseteq; [|apply (eng_exit_table _ He)]. intros k f [Hk _]%Hx. auto.
  - intros k f (Hk & _ & Ha)%Hf. split; [|done]. by eapply eng_flows; eauto.
  - intros k f (_ & _ & Ha)%Hx. done.
Qed.

(** ** Reachable engines *)

Inductive step (e : Engine) : Engine → Prop :=
| step_apply s utc t1 t2 : step e (apply e s utc t1 t2).2
| step_revoke : step e (revoke e)
| step_check bytes rem inb now : bytes_ok bytes → step e (check e bytes rem inb now).2
| step_check_exit bytes rem inb now : bytes_ok bytes → step e (check_exit e bytes rem inb now).2.

Definition reachable : Engine → Prop := rtc step engine_default.

Lemma step_ok e e' : step e e' → engine_ok e → engine_ok e'.
Proof. intros []; auto using apply_ok, revoke_ok, check_ok, check_exit_ok. Qed.

Lemma reachable_engine_ok e : reachable e → engine_ok e.
Proof.
  intros H. assert (engine_ok engine_default) as Hd by apply engine_default_ok.
  revert Hd. induction H; eauto using step_ok.
Qed.

(** ** Identity changes *)

Lemma current_peers_lookup ps id q :
  current_peers ps !! id = Some q → q ∈ ps ∧ peer_id q = id.
Proof.
  unfold current_peers. induction ps as [|x ps IH] using rev_ind; simpl.
  { by rewrite lookup_empty. }
  rewrite foldl_app. simpl. intros [[<- <-]|[_ H]]%lookup_insert_Some; [set_solver|].
  apply IH in H as [? ?]. set_solver.
Qed.

(** The peer [q] is gone from [ps] or is published with another address, instance or
    fingerprint. *)
Definition identity_changed (ps : list PeerInfo) (q : PeerInfo) : Prop :=
  ∀ n, n ∈ ps → peer_id n = peer_id q →
    peer_ip n ≠ peer_ip q ∨ instance n ≠ instance q ∨ fingerprint n ≠ fingerprint q.

Lemma peer_changed_mono current A q : A ⊆ peer_changed current A q.
Proof. unfold peer_changed. repeat case_match; set_solver. Qed.

Lemma changed_fold current ps A q :
  q ∈ ps → (∀ B, peer_ip q ∈ peer_changed current B q) →
  peer_ip q ∈ foldl (peer_changed current) A ps.
Proof.
  assert (∀ ps A, A ⊆ foldl (peer_changed current) A ps) as Hmono.
  { clear. induction ps as [|x ps IH]; intros A; simpl; [done|].
    etrans; [apply (peer_changed_mono current A x)|apply IH]. }
  revert A. induction ps as [|x ps IH]; intros A; [set_solver|].
  intros [<-|Hin]%elem_of_cons H; simpl; [|by apply IH]. by apply Hmono.
Qed.

Lemma changed_addresses_spec old s q :
  q ∈ peers old → identity_changed (peers s) q → peer_ip q ∈ changed_addresses old s.
Proof.
  intros Hq Hc. apply changed_fold; [done|]. intros B. unfold peer_changed.
  destruct (current_peers (peers s) !! peer_id q) as [n|] eqn:E; [|set_solver].
  apply current_peers_lookup in E as [Hn Hid].
  destruct (negb (peer_ip n =? peer_ip q) || _ || _) eqn:G; [set_solver|].
  split_guard. destruct (Hc n Hn Hid) as [Hx|[Hx|Hx]]; [lia|..];
    by rewrite bool_decide_eq_true in *.
Qed.

(** ** Properties *)

(** C7. In every state the engine can reach by policies, revocations and packets, both
    flow tables are well formed and every tracked flow is one its opening packet could
    start under the policy in force now; no operation panics in such a state. *)
Theorem engine_invariant e :
  reachable e →
  engine_ok e ∧
  (∀ s utc t1 t2, (apply e s utc t1 t2).1 ≠ Panic) ∧
  (∀ bytes rem inb now, bytes_ok bytes →
     (check e bytes rem inb now).1 ≠ Panic ∧ (check_exit e bytes rem inb now).1 ≠ Panic).
Proof.
  intros He%reachable_engine_ok. split_and!; [done| |].
  - intros s utc t1 t2.
    destruct (apply_cases e s utc t1 t2) as [[msg ->]|(? & ? & ? & _ & _ & ->)]; done.
  - intros bytes rem inb now Hb. split.
    + destruct (check_cases e bytes rem inb now Hb He)
        as [->|[[-> _]|(? & ? & ? & _ & _ & _ & _ & _ & _ & _ & ->)]]; done.
    + destruct (check_exit_cases e bytes rem inb now Hb)
        as [->|[[-> _]|(? & ? & ? & _ & _ & _ & _ & _ & ->)]]; done.
Qed.

(** C1. A packet that [check] accepts came while a lease was in force, carries the
    addresses the policy binds to this machine and to the authenticated remote, in the
    right direction, and belongs to a connection, in one of its two directions, whose
    opening packet the current grants allow. *)
Theorem check_authorized e bytes rem inb now e' :
  reachable e → bytes_ok bytes → check e bytes rem inb now = (Ok true, e') →
  ∃ p s o,
    parse bytes = Ok (Some p) ∧ snapshot e = Some s ∧ valid_lease e now = true ∧
    ips e !! (if inb then rem else self_ s) = Some (src (key p)) ∧
    ips e !! (if inb then self_ s else rem) = Some (dst (key p)) ∧
    (key p = key o ∨ key p = reverse (key o)) ∧ opens o = true ∧ grant_permits (ips e) s o.
Proof.
  intros He%reachable_engine_ok Hb Hcheck.
  destruct (check_cases e bytes rem inb now Hb He)
    as [H|[[H _]|(p & s & mo & Hp & Hs & Hl & Hi1 & Hi2 & Ha & Hmo & H)]];
    rewrite Hcheck in H; try discriminate H.
  injection H as Hb' _. symmetry in Hb'. exists p, s.
  pose proof (eng_policy _ He) as Hpol. rewrite Hs in Hpol.
  apply track_packet_accepted in Hb' as [(c & f & Hc & Hf & _ & _)|(-> & Ho & _)].
  - destruct (proj1 (eng_table _ He) _ _ Hf) as (Hk & Hopens & _).
    apply (eng_flows _ He) in Hf as [_ Hal].
    destruct (allowed_spec e s (opening f) Hs Hpol) as (b & Hb2 & Hiff).
    exists (opening f). split_and!; try done.
    + rewrite Hk. destruct Hc as [->| ->]; [by left|right]. by rewrite reverse_involutive.
    + apply Hiff. congruence.
  - exists p. split_and!; try done; [by left|by apply Hmo].
Qed.

(** C10. A packet that [check_exit] accepts came while a lease was in force, from or to a
    peer with a published identity, and some exit route connects that peer and this
    machine, the client's address is on the client's side, and the other address is no
    overlay peer, no special address and within the route's traffic mode. *)
Theorem check_exit_authorized e bytes rem inb now e' :
  bytes_ok bytes → check_exit e bytes rem inb now = (Ok true, e') →
  ∃ p s request loc,
    parse bytes = Ok (Some p) ∧ snapshot e = Some s ∧ valid_lease e now = true ∧
    known_identity e rem = true ∧ request = xorb inb loc ∧
    exit_route_permits (ips e) s p rem request loc ∧
    (request = false → ∃ c f, (c = key p ∨ c = reverse (key p)) ∧
       exit_flows e !! c = Some f ∧ remote f = rem ∧ now < expires f).
Proof.
  intros Hb Hcheck.
  destruct (check_exit_cases e bytes rem inb now Hb)
    as [H|[[H _]|(p & request & loc & Hp & Hl & Hk & Hx & Hr & H)]];
    rewrite Hcheck in H; try discriminate H.
  injection H as Hb' _. symmetry in Hb'.
  apply exit_permitted_sound in Hx as (s & Hs & Hperm). exists p, s, request, loc.
  split_and!; try done. intros ->.
  apply track_packet_accepted in Hb' as [(c & f & Hc & Hf & He & Hrem)|(Hf & _)]; [|done].
  eauto 10.
Qed.

(** C12. A rejected policy fails closed: no lease, both tables empty, and every packet is
    refused until a policy is accepted; the identity and revision of the last accepted
    policy are kept, so that the rejection cannot be used to roll back. *)
Theorem apply_fail_closed e s utc t1 t2 msg e' :
  apply e s utc t1 t2 = (Err msg, e') →
  flows e' = ∅ ∧ exit_flows e' = ∅ ∧ snapshot e' = snapshot e ∧
  (∀ now, valid_lease e' now = false) ∧
  (∀ bytes rem inb now, bytes_ok bytes →
     (check e' bytes rem inb now).1 = Ok false ∧ (check_exit e' bytes rem inb now).1 = Ok false).
Proof.
  intros H. destruct (apply_cases e s utc t1 t2) as [[m H']|(? & ? & ? & _ & _ & H')];
    rewrite H in H'; [|discriminate H'].
  injection H' as _ ->. split_and!; try done.
  intros bytes rem inb now Hb. split.
  - unfold check. pose proof (parse_ok bytes Hb) as Hp.
    destruct (parse bytes) as [[p|]|m'|]; done.
  - done.
Qed.

(** An accepted policy is bound to the machine's identity and never goes back in
    revision, its lease ends within 60 seconds, its addresses are private and belong to
    one peer each, and no machine is both an exit and an exit client. *)
Theorem apply_accepts e s utc t1 t2 e' :
  apply e s utc t1 t2 = (Ok tt, e') →
  snapshot e' = Some s ∧ policy_ok s (ips e') ∧
  (∃ d, deadline e' = Some d ∧ t1 < d ≤ t1 + from_secs 60) ∧
  (∀ old, snapshot e = Some old →
     workspace s = workspace old ∧ self_ s = self_ old ∧ revision old ≤ revision s).
Proof.
  intros H. destruct (apply_cases e s utc t1 t2) as [[m H']|(rm & m & e2 & Hv & Hi & H')];
    rewrite H in H'; [discriminate H'|]. injection H' as <-.
  apply validate_ok in Hv as (Hrm & _ & Hp & Hold).
  destruct (install_spec e s rm m t1 t2 Hp) as (e2 & Hi2 & Hs & Hm & Hd & _).
  rewrite Hi in Hi2. apply (inj Ok) in Hi2 as <-. rewrite Hm.
  split_and!; try done.
  - exists (t1 + rm). split; [done|lia].
  - intros old Ho. by rewrite Ho in Hold.
Qed.

(** A policy that drops a peer or publishes it with another address, instance or
    fingerprint ends every connection of that peer: no flow from or to its old address
    survives in either table, nor an exit flow carried by it. *)
Theorem apply_revokes_changed_peers e s utc t1 t2 e' old q k f :
  apply e s utc t1 t2 = (Ok tt, e') → snapshot e = Some old →
  q ∈ peers old → identity_changed (peers s) q →
  (flows e' !! k = Some f → src k ≠ peer_ip q ∧ dst k ≠ peer_ip q) ∧
  (exit_flows e' !! k = Some f → src k ≠ peer_ip q ∧ dst k ≠ peer_ip q ∧
     ips e !! remote f ≠ Some (peer_ip q)).
Proof.
  intros H Ho Hq Hc. destruct (apply_cases e s utc t1 t2) as [[m H']|(rm & m & e2 & Hv & Hi & H')];
    rewrite H in H'; [discriminate H'|]. injection H' as <-.
  apply validate_ok in Hv as (_ & _ & Hp & _).
  destruct (install_spec e s rm m t1 t2 Hp) as (e2 & Hi2 & _ & _ & _ & Hf & Hx).
  rewrite Hi in Hi2. apply (inj Ok) in Hi2 as <-.
  pose proof (changed_addresses_spec old s q Hq Hc) as Hin.
  unfold surviving in Hf, Hx. rewrite Ho in Hf, Hx. simpl in Hf, Hx. split.
  - intros [[_ [Hs Hd]]%map_lookup_filter_Some _]%Hf. simpl in *. split; congruence.
  - intros [[_ [[Hs Hd] Hr]]%map_lookup_filter_Some _]%Hx. simpl in *.
    unfold remote_unchanged in Hr. split_and!; [congruence|congruence|].
    intros E. by rewrite E in Hr.
Qed.

(** The policy is not only safe but effective: while a lease is in force, a granted
    opening packet between this machine and the authenticated remote is accepted and
    tracked when its connection is not tracked yet and the table is not full. *)
Theorem check_granted e bytes rem (inb : bool) now p s :
  reachable e → bytes_ok bytes → parse bytes = Ok (Some p) →
  snapshot e = Some s → valid_lease e now = true →
  ips e !! (if inb then rem else self_ s) = Some (src (key p)) →
  ips e !! (if inb then self_ s else rem) = Some (dst (key p)) →
  grant_permits (ips e) s p → opens p = true →
  flows e !! key p = None → flows e !! reverse (key p) = None →
  Z.of_nat (size (flows e)) < MAX_TRACKED →
  (check e bytes rem inb now).1 = Ok true ∧
  flows (check e bytes rem inb now).2 !! key p = Some (new_flow p "" now).
Proof.
  intros He%reachable_engine_ok Hb Hp Hs Hl Hi1 Hi2 Hg Ho Hn1 Hn2 Hsize.
  pose proof (eng_policy _ He) as Hpol. rewrite Hs in Hpol.
  destruct (allowed_spec e s p Hs Hpol) as (b & Ha & Hbs).
  assert (b = true) as -> by by apply Hbs.
  unfold check. rewrite Hp, Hs. unfold valid_lease in Hl.
  destruct (deadline e) as [d|] eqn:Ed; [|done].
  rewrite (proj2 (Z.leb_gt d now)) by lia.
  destruct inb; rewrite Hi1, Hi2, !bool_decide_eq_true_2 by done; cbn [negb orb]; rewrite Ha.
  all: assert (track_packet (flows e) p "" true now =
         (true, <[key p := new_flow p "" now]> (flows e))) as ->
         by (apply track_packet_opens; done).
  all: simpl; split; [done|apply lookup_insert_eq].
Qed.

(** *** Witnesses: two peers with a grant, a third as the exit of the first *)

Definition sample_peer (id : string) (n : Z) (inst : string) : PeerInfo :=
  mkPeerInfo id (ipv4_new 10 203 0 n) "print" inst true "" [] id [].
Definition sample_route : ExitRoute :=
  mkExitRoute "route" "exit" ["x"] false 4 ["a"] Sticky All false true true.
Definition sample_snapshot (rev : Z) (inst : string) : Snapshot :=
  mkSnapshot "workspace" "a" rev (from_secs 30)
    [sample_peer "a" 1 "i"; sample_peer "b" 2 inst; sample_peer "x" 9 "i"] []
    [mkGrant "a" "b" "icmp" []] [sample_route] [].

(** The engine with the first policy, and after one echo request to [b]. *)
Definition sample_engine : Engine := (apply engine_default (sample_snapshot 1 "i") 0 0 0).2.
Definition sample_tracked : Engine := (check sample_engine sample_echo "b" false 1).2.

(** An echo request from [a] to an address of the Internet. *)
Definition sample_exit_echo : list Z :=
  [69; 0; 0; 28; 0; 0; 0; 0; 64; 1; 52; 20; 10; 203; 0; 1; 203; 0; 113; 1; 8; 0; 0; 0; 0; 7; 0; 1].

Lemma sample_echo_ok : bytes_ok sample_echo.
Proof. apply (bool_decide_unpack _). vm_compute. exact I. Qed.
Lemma sample_exit_echo_ok : bytes_ok sample_exit_echo.
Proof. apply (bool_decide_unpack _). vm_compute. exact I. Qed.
Lemma sample_engine_reachable : reachable sample_engine.
Proof. apply rtc_once, step_apply. Qed.
Lemma sample_tracked_reachable : reachable sample_tracked.
Proof.
  eapply rtc_r; [exact sample_engine_reachable|]. apply step_check, sample_echo_ok.
Qed.

Lemma engine_invariant_witness :
  reachable sample_tracked ∧ size (flows sample_tracked) = 1%nat ∧
  engine_ok sample_tracked ∧
  (∀ s utc t1 t2, (apply sample_tracked s utc t1 t2).1 ≠ Panic) ∧
  (∀ bytes rem inb now, bytes_ok bytes →
     (check sample_tracked bytes rem inb now).1 ≠ Panic ∧
     (check_exit sample_tracked bytes rem inb now).1 ≠ Panic).
Proof.
  split; [exact sample_tracked_reachable|]. split; [vm_compute; reflexivity|].
  exact (engine_invariant sample_tracked sample_tracked_reachable).
Defined.

Lemma check_authorized_witness :
  ∃ p s o,
    parse sample_echo = Ok (Some p) ∧ snapshot sample_engine = Some s ∧
    valid_lease sample_engine 1 = true ∧
    ips sample_engine !! self_ s = Some (src (key p)) ∧
    ips sample_engine !! "b" = Some (dst (key p)) ∧
    (key p = key o ∨ key p = reverse (key o)) ∧ opens o = true ∧
    grant_permits (ips sample_engine) s o.
Proof.
  apply (check_authorized sample_engine sample_echo "b" false 1 sample_tracked).
  - exact sample_engine_reachable.
  - exact sample_echo_ok.
  - unfold sample_tracked. destruct (check sample_engine sample_echo "b" false 1) as [r e] eqn:E.
    assert (r = Ok true) as ->; [|reflexivity].
    change r with (r, e).1. rewrite <- E. vm_compute. reflexivity.
Defined.

Lemma check_exit_authorized_witness :
  ∃ p s request loc,
    parse sample_exit_echo = Ok (Some p) ∧ snapshot sample_engine = Some s ∧
    valid_lease sample_engine 1 = true ∧
    known_identity sample_engine "x" = true ∧ request = xorb false loc ∧
    exit_route_permits (ips sample_engine) s p "x" request loc ∧
    (request = false → ∃ c f, (c = key p ∨ c = reverse (key p)) ∧
       exit_flows sample_engine !! c = Some f ∧ remote f = "x" ∧ 1 < expires f).
Proof.
  apply (check_exit_authorized sample_engine sample_exit_echo "x" false 1
           (check_exit sample_engine sample_exit_echo "x" false 1).2).
  - exact sample_exit_echo_ok.
  - destruct (check_exit sample_engine sample_exit_echo "x" false 1) as [r e] eqn:E.
    assert (r = Ok true) as ->; [|reflexivity].
    change r with (r, e).1. rewrite <- E. vm_compute. reflexivity.
Defined.

Lemma apply_fail_closed_witness :
  ∃ msg, apply sample_tracked (sample_snapshot 0 "i") 0 5 6 = (Err msg, revoke sample_tracked) ∧
  (flows (revoke sample_tracked) = ∅ ∧ exit_flows (revoke sample_tracked) = ∅ ∧
   snapshot (revoke sample_tracked) = snapshot sample_tracked ∧
   (∀ now, valid_lease (revoke sample_tracked) now = false) ∧
   (∀ bytes rem inb now, bytes_ok bytes →
      (check (revoke sample_tracked) bytes rem inb now).1 = Ok false ∧
      (check_exit (revoke sample_tracked) bytes rem inb now).1 = Ok false)).
Proof.
  assert (apply sample_tracked (sample_snapshot 0 "i") 0 5 6 =
          (Err "invalid private policy lease", revoke sample_tracked)) as H by reflexivity.
  eexists. split; [exact H|].
  exact (apply_fail_closed sample_tracked (sample_snapshot 0 "i") 0 5 6 _ _ H).
Defined.

Lemma apply_accepts_witness :
  snapshot sample_engine = Some (sample_snapshot 1 "i") ∧
  policy_ok (sample_snapshot 1 "i") (ips sample_engine) ∧
  (∃ d, deadline sample_engine = Some d ∧ 0 < d ≤ 0 + from_secs 60) ∧
  (∀ old, snapshot engine_default = Some old →
     workspace (sample_snapshot 1 "i") = workspace old ∧
     self_ (sample_snapshot 1 "i") = self_ old ∧ revision old ≤ revision (sample_snapshot 1 "i")).
Proof.
  apply (apply_accepts engine_default (sample_snapshot 1 "i") 0 0 0).
  unfold sample_engine. destruct (apply engine_default (sample_snapshot 1 "i") 0 0 0) as [r e] eqn:E.
  assert (r = Ok tt) as ->; [|reflexivity].
  change r with (r, e).1. rewrite <- E. vm_compute. reflexivity.
Defined.

Lemma apply_revokes_changed_peers_witness :
  let e' := (apply sample_tracked (sample_snapshot 2 "j") 0 5 6).2 in
  let k := mkKey (ipv4_new 10 203 0 1) (ipv4_new 10 203 0 2) 1 0 0 7 in
  is_Some (flows sample_tracked !! k) ∧
  (∀ f, (flows e' !! k = Some f → src k ≠ ipv4_new 10 203 0 2 ∧ dst k ≠ ipv4_new 10 203 0 2) ∧
        (exit_flows e' !! k = Some f → src k ≠ ipv4_new 10 203 0 2 ∧ dst k ≠ ipv4_new 10 203 0 2 ∧
           ips sample_tracked !! remote f ≠ Some (ipv4_new 10 203 0 2))).
Proof.
  intros e' k. split; [eexists; vm_compute; reflexivity|]. intros f.
  apply (apply_revokes_changed_peers sample_tracked (sample_snapshot 2 "j") 0 5 6 e'
           (sample_snapshot 1 "i") (sample_peer "b" 2 "i") k f).
  - subst e'. destruct (apply sample_tracked (sample_snapshot 2 "j") 0 5 6) as [r e] eqn:E.
    assert (r = Ok tt) as ->; [|reflexivity].
    change r with (r, e).1. rewrite <- E. vm_compute. reflexivity.
  - vm_compute. reflexivity.
  - right. left.
  - intros n Hn Hid. simpl in Hn.
    repeat (apply elem_of_cons in Hn as [->|Hn]; [try discriminate Hid; right; left; done|]).
    by apply elem_of_nil in Hn.
Defined.

Lemma check_granted_witness :
  ∃ p, parse sample_echo = Ok (Some p) ∧
    (check sample_engine sample_echo "b" false 1).1 = Ok true ∧
    flows (check sample_engine sample_echo "b" false 1).2 !! key p = Some (new_flow p "" 1).
Proof.
  eexists. split; [vm_compute; reflexivity|].
  apply (check_granted sample_engine sample_echo "b" false 1 _ (sample_snapshot 1 "i")).
  - exact sample_engine_reachable.
  - exact sample_echo_ok.
  - vm_compute. reflexivity.
  - vm_compute. reflexivity.
  - vm_compute. reflexivity.
  - vm_compute. reflexivity.
  - vm_compute. reflexivity.
  - exists (mkGrant "a" "b" "icmp" []), "icmp". split_and!; try (vm_compute; reflexivity).
    left.
  - vm_compute. reflexivity.
  - vm_compute. reflexivity.
  - vm_compute. reflexivity.
  - vm_compute. reflexivity.
Defined.
