(* ===== verification/FlowTable.v ===== *)
(** * Exit assignments ([porthub-network/src/exit_selection.rs])

    [FlowTable] pins every flow to an exit peer; [Fallback] debounces the direct bypass.
    The digest of [sha2] and the keyed hash of [RandomState] are parameters, an [Instant]
    is a number of nanoseconds.  Operations on [&mut self] return the table after the
    call, and an index out of range is a panic. *)

From S2P Require Import Prelude Net LanRoutes.
Local Open Scope Z_scope.

Record Assignment := mkAssignment {
  a_peer : string;
  a_deadline : Z;
  a_syn : option Z;
  a_fins : Z;
  a_close : option Z;
}.

(** [Assignment::refresh] *)
Definition refresh (a : Assignment) (now ttl : Z) : Assignment :=
  let deadline := Z.max (a_deadline a) (now + ttl) in
  let deadline := match a_close a with Some limit => Z.min deadline limit | None => deadline end in
  mkAssignment (a_peer a) deadline (a_syn a) (a_fins a) (a_close a).

Record FlowTable (K : Type) `{Countable K} := mkFlowTable {
  t_client : string;
  t_peers : list string;
  t_mode : Selection;
  t_flows : gmap K Assignment;
  t_cursor : Z;
  t_next_reap : Z;
  t_capacity : Z;
}.
Arguments mkFlowTable {K _ _}.
Arguments t_client {K _ _}.
Arguments t_peers {K _ _}.
Arguments t_mode {K _ _}.
Arguments t_flows {K _ _}.
Arguments t_cursor {K _ _}.
Arguments t_next_reap {K _ _}.
Arguments t_capacity {K _ _}.

(** The order of digests: lexicographic on bytes. *)
Fixpoint bytes_cmp (a b : list Z) : comparison :=
  match a, b with
  | [], [] => Eq
  | [], _ :: _ => Lt
  | _ :: _, [] => Gt
  | x :: a, y :: b => match x ?= y with Eq => bytes_cmp a b | c => c end
  end.

(** [iter().enumerate().max_by_key(..)]: of equal maxima the last one. *)
Fixpoint max_index (digest : string → list Z) (l : list string) (i : nat)
    (best : option (nat * string)) : option nat :=
  match l with
  | [] => fst <$> best
  | x :: l =>
      let best := match best with
                  | Some (j, y) =>
                      match bytes_cmp (digest y) (digest x) with Gt => Some (j, y) | _ => Some (i, x) end
                  | None => Some (i, x)
                  end in
      max_index digest l (S i) best
  end.

(** ** The order of digests *)

Lemma bytes_cmp_antisym a b : bytes_cmp b a = CompOpp (bytes_cmp a b).
Proof.
  revert b. induction a as [|x a IH]; intros [|y b]; simpl; try done.
  rewrite (Z.compare_antisym x y). destruct (x ?= y); simpl; auto.
Qed.

Lemma bytes_cmp_refl a : bytes_cmp a a = Eq.
Proof. induction a as [|x a IH]; simpl; [done|]. by rewrite Z.compare_refl. Qed.

Lemma bytes_cmp_trans a b c :
  bytes_cmp a b ≠ Gt → bytes_cmp b c ≠ Gt → bytes_cmp a c ≠ Gt.
Proof.
  revert b c. induction a as [|x a IH]; intros [|y b] [|z c]; simpl; try done.
  destruct (Z.compare_spec x y); try done; destruct (Z.compare_spec y z); try done;
    destruct (Z.compare_spec x z); try done; try lia. subst. apply IH.
Qed.

(** [max_index] finds the last of the greatest digests. *)
Definition last_max (digest : string → list Z) (l : list string) (i : nat) (x : string) : Prop :=
  l !! i = Some x ∧ ∀ j y, l !! j = Some y →
    bytes_cmp (digest y) (digest x) ≠ Gt ∧ ((i < j)%nat → bytes_cmp (digest y) (digest x) = Lt).

Lemma last_max_snoc digest l i x z :
  last_max digest l i x →
  if bool_decide (bytes_cmp (digest x) (digest z) = Gt)
  then last_max digest (l ++ [z]) i x else last_max digest (l ++ [z]) (length l) z.
Proof.
  intros [Hx Hm]. pose proof (lookup_lt_Some _ _ _ Hx). case_bool_decide as E.
  - split; [by apply lookup_app_l_Some|]. intros j y [Hj|[Hj Hy]]%lookup_app_Some; [by apply Hm|].
    apply list_lookup_singleton_Some in Hy as [_ <-]. by rewrite bytes_cmp_antisym, E.
  - split; [by rewrite list_lookup_middle|].
    intros j y [Hj|[Hj Hy]]%lookup_app_Some.
    + split; [by eapply bytes_cmp_trans; [apply (Hm j)|]|]. apply lookup_lt_Some in Hj. lia.
    + apply list_lookup_singleton_Some in Hy as [? <-]. rewrite bytes_cmp_refl. split; [done|lia].
Qed.

Lemma max_index_spec digest l pre best r :
  match best with Some (j, y) => last_max digest pre j y | None => pre = [] end →
  max_index digest l (length pre) best = Some r →
  ∃ x, last_max digest (pre ++ l) r x.
Proof.
  revert pre best. induction l as [|z l IH]; intros pre best Hb; cbn [max_index].
  - rewrite app_nil_r. destruct best as [[j y]|]; [|done]. intros [= ->]. eauto.
  - replace (S (length pre)) with (length (pre ++ [z])) by (rewrite length_app; simpl; lia).
    replace (pre ++ z :: l) with ((pre ++ [z]) ++ l) by by rewrite <- (assoc_L (++)).
    apply IH. destruct best as [[j y]|].
    + apply (last_max_snoc _ _ _ _ z) in Hb.
      destruct (bytes_cmp (digest y) (digest z)) eqn:E;
        [rewrite bool_decide_eq_false_2 in Hb by done|rewrite bool_decide_eq_false_2 in Hb by done
        |rewrite bool_decide_eq_true_2 in Hb by done]; done.
    + subst pre. simpl. split; [done|]. intros j y Hj.
      apply list_lookup_singleton_Some in Hj as [-> <-]. rewrite bytes_cmp_refl. split; [done|lia].
Qed.

Section flow_table.
Context {K : Type} `{Countable K}.
Variable sha256 : list Z → list Z.
Variable hash_one : K → Z → Z.

(** What [Sticky] hashes for one peer. *)
Definition sticky_digest (client peer : string) : list Z :=
  sha256 (to_be 8 (as_u64 (slen client)) ++ bytes_of client ++ bytes_of peer).

(** [FlowTable::new]; [now] is the clock it reads. *)
Definition table_new (client : string) (now : Z) : FlowTable K :=
  mkFlowTable client [] Sticky ∅ 0 now 65536.

Definition with_flows (t : FlowTable K) (fs : gmap K Assignment) : FlowTable K :=
  mkFlowTable (t_client t) (t_peers t) (t_mode t) fs (t_cursor t) (t_next_reap t) (t_capacity t).

Definition configure (t : FlowTable K) (ps : list string) (mode : Selection) : FlowTable K :=
  mkFlowTable (t_client t) (sort_dedup ps) mode (t_flows t) (t_cursor t) (t_next_reap t)
    (t_capacity t).

Definition available (t : FlowTable K) (peer : string) : bool :=
  match search_str (t_peers t) peer with Some _ => true | None => false end.

Definition observe (t : FlowTable K) (flow : K) (peer : string) (now ttl : Z) : FlowTable K :=
  match t_flows t !! flow with
  | None => t
  | Some entry =>
      if bool_decide (a_peer entry = peer) && (now <? a_deadline entry)
      then with_flows t (<[flow := refresh entry now ttl]> (t_flows t)) else t
  end.

Definition observe_close (t : FlowTable K) (flow : K) (peer : string)
    (outgoing fin_ reset : bool) (now : Z) : FlowTable K :=
  if negb fin_ && negb reset then t else
  match t_flows t !! flow with
  | None => t
  | Some entry =>
      if negb (bool_decide (a_peer entry = peer)) || (a_deadline entry <=? now) then t else
      let fins := if fin_ then Z.lor (a_fins entry) (if outgoing then 1 else 2) else a_fins entry in
      let entry' :=
        if reset || (fins =? 3) then
          let until := match a_close entry with Some u => u | None => now + from_secs 120 end in
          mkAssignment (a_peer entry) (Z.min (a_deadline entry) until) (a_syn entry) fins (Some until)
        else mkAssignment (a_peer entry) (a_deadline entry) (a_syn entry) fins (a_close entry) in
      with_flows t (<[flow := entry']> (t_flows t))
  end.

(** The head of [select_inner]: the periodic reaping, then the tuple reused by a new SYN. *)
Definition reap (t : FlowTable K) (now : Z) : FlowTable K :=
  if t_next_reap t <=? now then
    mkFlowTable (t_client t) (t_peers t) (t_mode t)
      (filter (λ e : K * Assignment, now < a_deadline e.2) (t_flows t))
      (t_cursor t) (now + from_secs 30) (t_capacity t)
  else t.
Definition drop_reused (t : FlowTable K) (flow : K) (syn_sequence : option Z) : FlowTable K :=
  if bool_decide (is_Some syn_sequence)
     && match t_flows t !! flow with
        | Some entry => negb (bool_decide (a_syn entry = syn_sequence))
                        || bool_decide (is_Some (a_close entry))
        | None => false
        end
  then with_flows t (delete flow (t_flows t)) else t.

(** The index of the peer for a new flow; [None] is an early return. *)
Definition pick (t : FlowTable K) (flow : K) (preferred : option (list string → option string))
    : res (option nat) :=
  match preferred with
  | Some choose => Ok (p ← choose (t_peers t); search_str (t_peers t) p)
  | None =>
      match t_mode t with
      | Sticky => Ok (max_index (sticky_digest (t_client t)) (t_peers t) 0 None)
      | RoundRobin =>
          if len (t_peers t) =? 0 then Panic
          else Ok (Some (Z.to_nat (t_cursor t mod len (t_peers t))))
      | Random =>
          if len (t_peers t) =? 0 then Panic
          else Ok (Some (Z.to_nat (hash_one flow (t_cursor t) mod len (t_peers t))))
      end
  end.

(** The part of [select_inner] for a flow without a live assignment. *)
Definition assign (t : FlowTable K) (flow : K) (now ttl : Z) (syn_sequence : option Z)
    (preferred : option (list string → option string)) : res (option string) * FlowTable K :=
  let t := with_flows t (delete flow (t_flows t)) in
  if bool_decide (t_peers t = []) || (t_capacity t <=? Z.of_nat (size (t_flows t)))
  then (Ok None, t) else
  match pick t flow preferred with
  | Err m => (Err m, t)
  | Panic => (Panic, t)
  | Ok None => (Ok None, t)
  | Ok (Some index) =>
      let t := mkFlowTable (t_client t) (t_peers t) (t_mode t) (t_flows t)
                 (as_u64 (t_cursor t + 1)) (t_next_reap t) (t_capacity t) in
      match t_peers t !! index with
      | None => (Panic, t)
      | Some peer =>
          let a := mkAssignment peer (now + ttl) syn_sequence 0 None in
          (Ok (Some peer), with_flows t (<[flow := a]> (t_flows t)))
      end
  end.

Definition select_inner (t : FlowTable K) (flow : K) (now ttl : Z) (syn_sequence : option Z)
    (preferred : option (list string → option string)) : res (option string) * FlowTable K :=
  let t := drop_reused (reap t now) flow syn_sequence in
  match t_flows t !! flow with
  | Some entry =>
      if now <? a_deadline entry then
        let entry := refresh entry now ttl in
        (Ok (if bool_decide (is_Some (search_str (t_peers t) (a_peer entry)))
             then Some (a_peer entry) else None),
         with_flows t (<[flow := entry]> (t_flows t)))
      else assign t flow now ttl syn_sequence preferred
  | None => assign t flow now ttl syn_sequence preferred
  end.

Definition select_with_syn (t : FlowTable K) (flow : K) (now ttl : Z) (syn_sequence : option Z) :=
  select_inner t flow now ttl syn_sequence None.
Definition select (t : FlowTable K) (flow : K) (now ttl : Z) :=
  select_with_syn t flow now ttl None.
Definition select_for_peer (t : FlowTable K) (flow : K) (now ttl : Z) (syn_sequence : option Z)
    (peer : option string) :=
  select_inner t flow now ttl syn_sequence (Some (λ _, peer)).
Definition select_for_peer_with (t : FlowTable K) (flow : K) (now ttl : Z)
    (syn_sequence : option Z) (choose : list string → option string) :=
  select_inner t flow now ttl syn_sequence (Some choose).

(** ** Well-formed tables *)

Definition assignment_ok (a : Assignment) : Prop :=
  0 ≤ a_fins a ≤ 3 ∧ ∀ u, a_close a = Some u → a_deadline a ≤ u.

Record table_wf (t : FlowTable K) : Prop := {
  wf_peers : StronglySorted str_lt (t_peers t);
  wf_size : Z.of_nat (size (t_flows t)) ≤ t_capacity t;
  wf_flows : ∀ k a, t_flows t !! k = Some a → assignment_ok a;
  wf_cursor : u64 (t_cursor t);
}.

Lemma refresh_ok a now ttl : assignment_ok a → assignment_ok (refresh a now ttl).
Proof.
  intros [Hf Hc]. split; [done|]. simpl. intros u Hu. rewrite Hu. lia.
Qed.

Lemma with_flows_wf t fs :
  table_wf t → Z.of_nat (size fs) ≤ t_capacity t →
  (∀ k a, fs !! k = Some a → assignment_ok a) → table_wf (with_flows t fs).
Proof. intros [Hp _ _ Hc] Hs Hf. by split. Qed.

(** Replacing the entry of a flow that has one. *)
Lemma update_wf t flow a a' :
  table_wf t → t_flows t !! flow = Some a → assignment_ok a' →
  table_wf (with_flows t (<[flow := a']> (t_flows t))).
Proof.
  intros Ht Ha Ha'. apply with_flows_wf; [done| |].
  - rewrite map_size_insert, Ha. apply Ht.
  - intros k b [[<- <-]|[_ Hb]]%lookup_insert_Some; [done|]. by eapply wf_flows.
Qed.

Lemma shrink_wf t fs : table_wf t → fs ⊆ t_flows t → table_wf (with_flows t fs).
Proof.
  intros Ht Hs. apply with_flows_wf; [done| |].
  - pose proof (map_subseteq_size _ _ Hs). pose proof (wf_size _ Ht). lia.
  - intros k a Ha. eapply wf_flows; [done|]. by eapply lookup_weaken.
Qed.

Lemma configure_wf t ps mode : table_wf t → table_wf (configure t ps mode).
Proof. intros [_ Hs Hf Hc]. split; simpl; try done. apply sort_dedup_sorted. Qed.

Lemma observe_wf t flow peer now ttl : table_wf t → table_wf (observe t flow peer now ttl).
Proof.
  intros Ht. unfold observe. destruct (t_flows t !! flow) as [a|] eqn:Ha; [|done].
  case_match; [|done]. eapply update_wf; [done|done|]. by eapply refresh_ok, wf_flows.
Qed.

Lemma close_fins a (o : bool) : 0 ≤ a ≤ 3 → 0 ≤ Z.lor a (if o then 1 else 2) ≤ 3.
Proof.
  intros Ha. assert (a = 0 ∨ a = 1 ∨ a = 2 ∨ a = 3) as Hc by lia.
  destruct Hc as [->|[->|[->| ->]]], o; split; by apply Z.leb_le.
Qed.

Lemma observe_close_wf t flow peer outgoing fin_ reset now :
  table_wf t → table_wf (observe_close t flow peer outgoing fin_ reset now).
Proof.
  intros Ht. unfold observe_close. case_match; [done|].
  destruct (t_flows t !! flow) as [a|] eqn:Ha; [|done]. case_match; [done|].
  pose proof (wf_flows _ Ht _ _ Ha) as [Hf Hc]. eapply update_wf; [done|done|].
  pose proof (close_fins _ outgoing Hf).
  destruct (reset || _); split; cbn [a_fins a_close a_deadline]; try (destruct fin_; lia); [|auto].
  intros u [= <-]. lia.
Qed.

Lemma reap_wf t now : table_wf t → table_wf (reap t now).
Proof.
  intros Ht. unfold reap. case_match; [|done].
  pose proof (shrink_wf t _ Ht (map_filter_subseteq (λ e : K * Assignment, now < a_deadline e.2) _))
    as [Hp Hs Hf Hc]. by split.
Qed.

Lemma drop_reused_wf t flow syn : table_wf t → table_wf (drop_reused t flow syn).
Proof. intros Ht. unfold drop_reused. case_match; [|done]. apply shrink_wf; [done|]. apply delete_subseteq. Qed.

(** ** Choosing a peer *)

Lemma max_index_lt digest l i best r :
  max_index digest l i best = Some r →
  (∃ y, best = Some (r, y)) ∨ (i ≤ r < i + length l)%nat.
Proof.
  revert i best. induction l as [|x l IH]; intros i best; simpl.
  - destruct best as [[j y]|]; simpl; [|done]. intros [= ->]. eauto.
  - intros [[y Hy]|Hr]%IH; [|lia]. destruct best as [[j z]|].
    + destruct (bytes_cmp (digest z) (digest x)); simplify_eq; first [left; eauto; done|right; lia].
    + simplify_eq. right. lia.
Qed.

Lemma max_index_some digest l i best :
  best ≠ None ∨ l ≠ [] → is_Some (max_index digest l i best).
Proof.
  revert i best. induction l as [|x l IH]; intros i best Hb; simpl.
  - destruct best as [[j y]|]; [eauto|]. by destruct Hb.
  - apply IH. left. destruct best as [[j y]|]; [|done]. by destruct (bytes_cmp _ _).
Qed.

Hypothesis hash_range : ∀ k c, u64 (hash_one k c).

Lemma pick_total t flow preferred :
  table_wf t → t_peers t ≠ [] →
  ∃ o, pick t flow preferred = Ok o ∧
    (preferred = None → is_Some o) ∧
    ∀ i, o = Some i → ∃ p, t_peers t !! i = Some p ∧
      (∀ choose, preferred = Some choose → choose (t_peers t) = Some p).
Proof.
  intros Ht Hne. unfold pick. destruct preferred as [choose|].
  { eexists. split; [done|]. split; [done|]. intros i Hi.
    apply bind_Some in Hi as (p & Hp & Hi%search_str_spec); [|apply Ht].
    exists p. split; [done|]. by intros ? [= <-]. }
  assert (0 < len (t_peers t)) as Hlen by (destruct (t_peers t); [done|simpl; lia]).
  assert (∀ z, 0 ≤ z → ∃ p, t_peers t !! Z.to_nat (z mod len (t_peers t)) = Some p) as Hmod.
  { intros z Hz. apply lookup_lt_is_Some_2.
    pose proof (Z.mod_pos_bound z (len (t_peers t)) Hlen). lia. }
  destruct (t_mode t).
  - eexists. split; [done|]. split; [intros _; apply max_index_some; by right|].
    intros i [[y Hy]|Hi]%max_index_lt; [done|].
    destruct (lookup_lt_is_Some_2 (t_peers t) i) as [p Hp]; [lia|]. exists p. by split.
  - rewrite (proj2 (Z.eqb_neq _ 0)) by lia. eexists. split; [done|]. split; [eauto|].
    intros i [= <-]. destruct (Hmod (t_cursor t)) as [p Hp]; [apply Ht|]. exists p. by split.
  - rewrite (proj2 (Z.eqb_neq _ 0)) by lia. eexists. split; [done|]. split; [eauto|].
    intros i [= <-]. destruct (Hmod (hash_one flow (t_cursor t))) as [p Hp]; [apply hash_range|]. exists p. by split.
Qed.

(** A flow without a live assignment gets a configured peer or none; nothing else moves. *)
Lemma assign_spec t flow now ttl syn preferred :
  table_wf t →
  ∃ o t', assign t flow now ttl syn preferred = (Ok o, t') ∧ table_wf t' ∧
    t_peers t' = t_peers t ∧
    match o with
    | Some p => p ∈ t_peers t ∧ t_flows t' !! flow = Some (mkAssignment p (now + ttl) syn 0 None) ∧
                (∀ choose, preferred = Some choose → choose (t_peers t) = Some p)
    | None => t_flows t' !! flow = None
    end ∧
    ∀ k, k ≠ flow → t_flows t' !! k = t_flows t !! k.
Proof.
  intros Ht. unfold assign. set (t1 := with_flows t (delete flow (t_flows t))).
  assert (table_wf t1) as Ht1 by (apply shrink_wf; [done|apply delete_subseteq]).
  assert (t_flows t1 !! flow = None) as Hn by apply lookup_delete_eq.
  assert (∀ k, k ≠ flow → t_flows t1 !! k = t_flows t !! k) as Hother
    by (intros k Hk; by apply lookup_delete_ne).
  destruct (bool_decide (t_peers t1 = []) || _) eqn:G; [by exists None, t1|]. split_guard.
  apply bool_decide_eq_false_1 in H0.
  destruct (pick_total t1 flow preferred Ht1 H0) as (o & -> & _ & Ho).
  destruct o as [i|]; [|by exists None, t1].
  destruct (Ho i eq_refl) as (p & Hp & Hc). cbn [t_peers]. rewrite Hp.
  eexists (Some p), _. split; [done|]. split_and!; try done.
  - split; [apply Ht1| | |]; simpl.
    + rewrite map_size_insert. unfold t1 in Hn. simpl in Hn. rewrite Hn. simpl in *. lia.
    + intros k a [[<- <-]|[_ Hk]]%lookup_insert_Some; [done|]. by eapply (wf_flows _ Ht1).
    + unfold u64, as_u64. zlia.
  - by eapply list_elem_of_lookup_2.
  - apply lookup_insert_eq.
  - intros k Hk. simpl. rewrite lookup_insert_ne by done. by apply Hother.
Qed.

Lemma reap_lookup t now k :
  t_peers (reap t now) = t_peers t ∧
  (∀ a, t_flows (reap t now) !! k = Some a → t_flows t !! k = Some a) ∧
  (∀ a, t_flows t !! k = Some a → now < a_deadline a → t_flows (reap t now) !! k = Some a).
Proof.
  unfold reap. case_match; [|done]. simpl. split_and!; [done|..].
  - by intros a [? _]%map_lookup_filter_Some.
  - intros a Ha Hl. by apply map_lookup_filter_Some.
Qed.

Lemma drop_reused_lookup t flow syn k :
  t_peers (drop_reused t flow syn) = t_peers t ∧
  (k ≠ flow → t_flows (drop_reused t flow syn) !! k = t_flows t !! k) ∧
  (∀ a, t_flows (drop_reused t flow syn) !! k = Some a → t_flows t !! k = Some a) ∧
  (∀ a, t_flows t !! flow = Some a → syn = None ∨ syn = a_syn a ∧ a_close a = None →
        t_flows (drop_reused t flow syn) !! flow = Some a).
Proof.
  unfold drop_reused. case_match eqn:G; simpl; split_and!; try done.
  - intros Hk. by apply lookup_delete_ne.
  - by intros a [_ ?]%lookup_delete_Some.
  - intros a Ha Hs. rewrite Ha in G. exfalso. split_guard.
    destruct Hs as [->|[-> Hc]]; [done|].
    rewrite bool_decide_eq_true_2, Hc in G by done. discriminate G.
Qed.

(** ** Sequences of operations *)

Inductive op :=
| OpConfigure (ps : list string) (mode : Selection)
| OpObserve (flow : K) (peer : string) (now ttl : Z)
| OpClose (flow : K) (peer : string) (outgoing fin_ reset : bool) (now : Z)
| OpSelect (flow : K) (now ttl : Z) (syn : option Z)
    (preferred : option (list string → option string)).

Definition run_op (t : FlowTable K) (o : op) : FlowTable K :=
  match o with
  | OpConfigure ps mode => configure t ps mode
  | OpObserve flow peer now ttl => observe t flow peer now ttl
  | OpClose flow peer outgoing fin_ reset now => observe_close t flow peer outgoing fin_ reset now
  | OpSelect flow now ttl syn preferred => (select_inner t flow now ttl syn preferred).2
  end.
Definition run_ops : FlowTable K → list op → FlowTable K := foldl run_op.

(** The outcome of [select_inner]: the live assignment is used and refreshed, or the
    flow is assigned anew. *)
Lemma select_inner_spec t flow now ttl syn preferred :
  table_wf t →
  ∃ o t', select_inner t flow now ttl syn preferred = (Ok o, t') ∧ table_wf t' ∧
    t_peers t' = t_peers t ∧
    (∀ p, o = Some p → p ∈ t_peers t ∧ ∃ a, t_flows t' !! flow = Some a ∧ a_peer a = p) ∧
    (∀ k a, k ≠ flow → t_flows t !! k = Some a → now < a_deadline a → t_flows t' !! k = Some a) ∧
    (∀ a, t_flows t !! flow = Some a → now < a_deadline a →
       syn = None ∨ syn = a_syn a ∧ a_close a = None →
       t_flows t' !! flow = Some (refresh a now ttl) ∧
       o = if bool_decide (a_peer a ∈ t_peers t) then Some (a_peer a) else None).
Proof.
  intros Ht. unfold select_inner. set (t0 := reap t now). set (t1 := drop_reused t0 flow syn).
  assert (table_wf t1) as Ht1 by by apply drop_reused_wf, reap_wf.
  assert (t_peers t1 = t_peers t) as Hpeers.
  { unfold t1, t0. by rewrite (proj1 (drop_reused_lookup _ _ _ flow)), (proj1 (reap_lookup _ _ flow)). }
  assert (∀ k a, k ≠ flow → t_flows t !! k = Some a → now < a_deadline a →
            t_flows t1 !! k = Some a) as Hother.
  { intros k a Hk Ha Hl. unfold t1. rewrite (proj1 (proj2 (drop_reused_lookup t0 flow syn k)) Hk).
    by apply (proj2 (proj2 (reap_lookup t now k))). }
  assert (∀ a, t_flows t !! flow = Some a → now < a_deadline a →
            syn = None ∨ syn = a_syn a ∧ a_close a = None → t_flows t1 !! flow = Some a) as Hself.
  { intros a Ha Hl Hs. apply (drop_reused_lookup t0 flow syn flow); [|done].
    by apply (proj2 (proj2 (reap_lookup t now flow))). }
  destruct (t_flows t1 !! flow) as [b|] eqn:Eb; [destruct (Z.ltb_spec now (a_deadline b)) as [Hlt|Hge]|].
  - eexists _, _. split; [done|]. cbn [a_peer refresh].
    assert (is_Some (search_str (t_peers t1) (a_peer b)) ↔ a_peer b ∈ t_peers t) as Hiff.
    { rewrite <- Hpeers. apply search_str_elem, Ht1. }
    rewrite (bool_decide_ext _ _ Hiff).
    split_and!.
    + eapply update_wf; [done|done|]. by eapply refresh_ok, wf_flows.
    + done.
    + intros p Hp. destruct (bool_decide_reflect (a_peer b ∈ t_peers t)); [|done].
      injection Hp as <-. split; [done|].
      eexists. split; [apply lookup_insert_eq|done].
    + intros k a Hk Ha Hl. simpl. rewrite lookup_insert_ne by done. by apply Hother.
    + intros a Ha Hl Hs. injection (Hself a Ha Hl Hs) as ->.
      split; [apply lookup_insert_eq|done].
  - destruct (assign_spec t1 flow now ttl syn preferred Ht1) as (o & t' & -> & Ht' & Hp & Ho & Hk).
    eexists o, t'. split; [done|]. rewrite Hpeers in *. split_and!; try done.
    + intros p ->. destruct Ho as (? & ? & _). split; [done|]. by eexists.
    + intros k a Hne Ha Hl. rewrite Hk by done. by apply Hother.
    + intros a Ha Hl Hs. injection (Hself a Ha Hl Hs) as ->. lia.
  - destruct (assign_spec t1 flow now ttl syn preferred Ht1) as (o & t' & -> & Ht' & Hp & Ho & Hk).
    eexists o, t'. split; [done|]. rewrite Hpeers in *. split_and!; try done.
    + intros p ->. destruct Ho as (? & ? & _). split; [done|]. by eexists.
    + intros k a Hne Ha Hl. rewrite Hk by done. by apply Hother.
    + intros a Ha Hl Hs. discriminate (Hself a Ha Hl Hs).
Qed.

Lemma run_op_wf t o : table_wf t → table_wf (run_op t o).
Proof.
  intros Ht. destruct o; simpl.
  - by apply configure_wf.
  - by apply observe_wf.
  - by apply observe_close_wf.
  - destruct (select_inner_spec t flow now ttl syn preferred Ht) as (o & t' & -> & ? & _). done.
Qed.

Lemma run_ops_wf t os : table_wf t → table_wf (run_ops t os).
Proof. revert t. induction os as [|o os IH]; intros t Ht; [done|]. by apply IH, run_op_wf. Qed.

Lemma table_new_wf client now : table_wf (table_new client now).
Proof.
  split; simpl; [constructor| | |].
  - rewrite map_size_empty. done.
  - intros k a. by rewrite lookup_empty.
  - done.
Qed.

(** Operations that do not release flow [k] from the assignment [a]: no selection after
    its deadline, no SYN of another connection on its tuple, no close by its exit. *)
Definition keeps (k : K) (a : Assignment) (o : op) : Prop :=
  match o with
  | OpConfigure _ _ | OpObserve _ _ _ _ => True
  | OpClose flow peer _ _ _ _ => flow = k → peer ≠ a_peer a
  | OpSelect flow now _ syn _ => now < a_deadline a ∧ (flow = k → syn = None ∨ syn = a_syn a)
  end.

(** [b] is [a] with a deadline that is not earlier. *)
Definition extends (a b : Assignment) : Prop :=
  a_peer b = a_peer a ∧ a_syn b = a_syn a ∧ a_close b = None ∧ a_deadline a ≤ a_deadline b.

Lemma refresh_extends a b now ttl : extends a b → extends a (refresh b now ttl).
Proof. intros (Hp & Hs & Hc & Hd). unfold extends, refresh. simpl. rewrite Hc. split_and!; try done. lia. Qed.

Lemma run_op_pinned t o k a b :
  table_wf t → t_flows t !! k = Some b → extends a b → keeps k a o →
  ∃ b', t_flows (run_op t o) !! k = Some b' ∧ extends a b'.
Proof.
  intros Ht Hb He Hk. pose proof He as (Hp & Hs & Hc & Hd). destruct o; simpl in *.
  - eauto.
  - unfold observe. destruct (t_flows t !! flow) as [e|] eqn:E; [|eauto].
    case_match; [|eauto]. simpl. destruct (decide (k = flow)) as [->|Hne].
    + rewrite lookup_insert_eq. rewrite Hb in E. injection E as <-.
      eauto using refresh_extends.
    + rewrite lookup_insert_ne by done. eauto.
  - unfold observe_close. case_match; [eauto|].
    destruct (t_flows t !! flow) as [e|] eqn:E; [|eauto].
    destruct (decide (k = flow)) as [->|Hne].
    + rewrite Hb in E. injection E as <-.
      rewrite bool_decide_eq_false_2 by (rewrite Hp; intros Heq; by apply Hk). simpl. eauto.
    + case_match; [eauto|]. simpl. rewrite lookup_insert_ne by done. eauto.
  - destruct Hk as [Hnow Hsyn].
    destruct (select_inner_spec t flow now ttl syn preferred Ht)
      as (r & t' & -> & _ & _ & _ & Hother & Hself). simpl.
    destruct (decide (k = flow)) as [->|Hne].
    + destruct (Hself b Hb) as [-> _]; [lia| |eauto using refresh_extends].
      destruct (Hsyn eq_refl) as [?|?]; [by left|right]. split; [congruence|done].
    + exists b. split; [|done]. apply Hother; [done|done|lia].
Qed.

Lemma run_ops_pinned t os k a b :
  table_wf t → t_flows t !! k = Some b → extends a b → Forall (keeps k a) os →
  ∃ b', t_flows (run_ops t os) !! k = Some b' ∧ extends a b'.
Proof.
  revert t b. induction os as [|o os IH]; intros t b Ht Hb He Hos; [eauto|].
  apply Forall_cons in Hos as [Ho Hos].
  destruct (run_op_pinned t o k a b Ht Hb He Ho) as (b' & Hb' & He').
  eapply IH; eauto using run_op_wf.
Qed.

(** ** New flows *)

(** A flow that is not in the table, where there is room and a peer. *)
Lemma select_fresh t k now ttl :
  table_wf t → t_peers t ≠ [] → t_flows t !! k = None →
  Z.of_nat (size (t_flows t)) < t_capacity t →
  ∃ i p t', pick t k None = Ok (Some i) ∧ t_peers t !! i = Some p ∧
    select t k now ttl = (Ok (Some p), t') ∧ table_wf t' ∧
    t_peers t' = t_peers t ∧ t_mode t' = t_mode t ∧ t_client t' = t_client t ∧
    t_cursor t' = as_u64 (t_cursor t + 1) ∧ t_capacity t' = t_capacity t ∧
    (∀ k', k' ≠ k → t_flows t !! k' = None → t_flows t' !! k' = None) ∧
    Z.of_nat (size (t_flows t')) ≤ Z.of_nat (size (t_flows t)) + 1.
Proof.
  intros Ht Hne Hk Hs. destruct (pick_total t k None Ht Hne) as (o & Hpick & [i ->] & Ho); [done|].
  destruct (Ho i eq_refl) as (p & Hp & _). exists i, p.
  destruct (select_inner_spec t k now ttl None None Ht) as (r & t' & Hsel & Ht' & _).
  exists t'. unfold select, select_with_syn. rewrite Hsel.
  revert Hsel. unfold select_inner.
  set (t1 := drop_reused (reap t now) k None).
  assert (t1 = reap t now) as E1.
  { unfold t1, drop_reused. by rewrite bool_decide_eq_false_2 by by intros [? ?]. }
  assert (t_flows t1 !! k = None) as Hk1.
  { rewrite E1. destruct (t_flows (reap t now) !! k) as [a|] eqn:E; [|done].
    apply (reap_lookup t now k) in E. congruence. }
  assert (t_flows t1 ⊆ t_flows t) as Hsub.
  { rewrite E1. apply map_subseteq_spec. intros k' a. apply (reap_lookup t now k'). }
  assert (t_peers t1 = t_peers t ∧ t_mode t1 = t_mode t ∧ t_client t1 = t_client t ∧
          t_cursor t1 = t_cursor t ∧ t_capacity t1 = t_capacity t) as (F1 & F2 & F3 & F4 & F5).
  { rewrite E1. unfold reap. by case_match. }
  clearbody t1. rewrite Hk1. unfold assign.
  rewrite (delete_id (t_flows t1)) by done. cbn [t_peers t_flows t_capacity with_flows].
  pose proof (map_subseteq_size _ _ Hsub) as Hsz.
  rewrite F1, F5, bool_decide_eq_false_2 by done.
  rewrite (proj2 (Z.leb_gt (t_capacity t) _)) by lia. cbn [orb].
  assert (pick (with_flows t1 (t_flows t1)) k None = Ok (Some i)) as ->.
  { rewrite <- Hpick. unfold pick. simpl. by rewrite F1, F2, F3, F4. }
  cbn [t_peers with_flows]. rewrite ?F1, Hp. intros [= <- <-]. simpl.
  split_and!; try done; [by rewrite F4| |].
  - intros k' Hne' Hk'. rewrite lookup_insert_ne by done.
    by eapply lookup_weaken_None.
  - rewrite map_size_insert, Hk1. simpl. lia.
Qed.

(** Selecting several flows one after the other. *)
Fixpoint select_all (t : FlowTable K) (ks : list K) (now ttl : Z) : list (res (option string)) :=
  match ks with
  | [] => []
  | k :: ks => let '(r, t') := select t k now ttl in r :: select_all t' ks now ttl
  end.

Lemma select_all_round_robin t ks now ttl :
  table_wf t → t_mode t = RoundRobin → t_peers t ≠ [] → NoDup ks →
  (∀ k, k ∈ ks → t_flows t !! k = None) →
  Z.of_nat (size (t_flows t)) + len ks ≤ t_capacity t → t_cursor t + len ks < 2 ^ 64 →
  ∀ i, (i < length ks)%nat →
    select_all t ks now ttl !! i =
    Some (Ok (t_peers t !! Z.to_nat ((t_cursor t + Z.of_nat i) mod len (t_peers t)))).
Proof.
  intros Ht Hm Hne. revert t Ht Hm Hne.
  induction ks as [|k ks IH]; intros t Ht Hm Hne Hnd Hfresh Hroom Hcur i Hi; simpl in *; [lia|].
  apply NoDup_cons in Hnd as [Hk Hnd].
  destruct (select_fresh t k now ttl Ht Hne) as
    (j & p & t' & Hpick & Hp & -> & Ht' & F1 & F2 & F3 & F4 & F5 & Hnone & Hsz);
    [apply Hfresh; set_solver|lia|].
  assert (j = Z.to_nat (t_cursor t mod len (t_peers t))) as ->.
  { unfold pick in Hpick. rewrite Hm in Hpick. case_match; [done|]. by injection Hpick. }
  destruct i as [|i]; simpl.
  - by rewrite Z.add_0_r, Hp.
  - assert (t_cursor t' = t_cursor t + 1) as Hc'.
    { rewrite F4. unfold as_u64. apply Z.mod_small. pose proof (wf_cursor _ Ht) as [? _]. lia. }
    rewrite IH; try done; rewrite ?F1, ?F5, ?Hc'; try done; try congruence; try lia.
    + by replace (t_cursor t + 1 + Z.of_nat i) with (t_cursor t + Z.pos (Pos.of_succ_nat i)) by lia.
    + intros k' Hk'. apply Hnone; [by intros ->|]. apply Hfresh. set_solver.
Qed.

(** ** Properties *)

(** Whatever the sequence of configurations, replies, closes and selections, a
    selection never panics, returns only a configured peer and records it for the flow;
    the table never grows beyond its capacity and the peers stay sorted and distinct. *)
Theorem select_sound client start os flow now ttl syn preferred :
  let t := run_ops (table_new client start) os in
  table_wf t ∧
  ∃ o t', select_inner t flow now ttl syn preferred = (Ok o, t') ∧ table_wf t' ∧
    ∀ p, o = Some p → p ∈ t_peers t ∧ ∃ a, t_flows t' !! flow = Some a ∧ a_peer a = p.
Proof.
  intros t. assert (table_wf t) as Ht by apply run_ops_wf, table_new_wf. split; [done|].
  destruct (select_inner_spec t flow now ttl syn preferred Ht)
    as (o & t' & -> & ? & _ & ? & _). eauto 10.
Qed.

(** C8. An established flow is never moved to another exit: through any configurations,
    health changes, replies and selections that do not come after its deadline or start
    another connection on its tuple, its assignment keeps its peer, and selecting it
    gives that peer, or none while the peer is not available. *)
Theorem flow_pinned client start os os' k a now ttl syn preferred :
  let t := run_ops (table_new client start) os in
  let t' := run_ops t os' in
  t_flows t !! k = Some a → a_close a = None → Forall (keeps k a) os' →
  now < a_deadline a → syn = None ∨ syn = a_syn a →
  (select_inner t' k now ttl syn preferred).1 =
    Ok (if bool_decide (a_peer a ∈ t_peers t') then Some (a_peer a) else None).
Proof.
  intros t t' Ha Hc Hos Hnow Hsyn.
  assert (table_wf t) as Ht by apply run_ops_wf, table_new_wf.
  destruct (run_ops_pinned t os' k a a Ht Ha) as (b & Hb & Hp & Hs & Hbc & Hd); [by split_and!|done|].
  assert (table_wf t') as Ht' by by apply run_ops_wf.
  destruct (select_inner_spec t' k now ttl syn preferred Ht')
    as (o & t2 & -> & _ & _ & _ & _ & Hself). simpl.
  destruct (Hself b Hb) as [_ ->]; [lia| |by rewrite Hp].
  destruct Hsyn as [?| ->]; [by left|right]. done.
Qed.

(** Round robin is fair: as many new flows as there are peers, selected one after
    the other, use every peer exactly once, in rotated order. *)
Theorem round_robin_fair t ks now ttl :
  table_wf t → t_mode t = RoundRobin → NoDup ks → length ks = length (t_peers t) →
  (∀ k, k ∈ ks → t_flows t !! k = None) →
  Z.of_nat (size (t_flows t)) + len ks ≤ t_capacity t → t_cursor t + len ks < 2 ^ 64 →
  select_all t ks now ttl =
  map (λ p, Ok (Some p)) (rotate (Z.to_nat (t_cursor t mod len (t_peers t))) (t_peers t)).
Proof.
  intros Ht Hm Hnd Hlen Hfresh Hroom Hcur.
  assert (length (select_all t ks now ttl) = length ks) as Hl.
  { clear. revert t. induction ks as [|k ks IH]; intros t; simpl; [done|].
    destruct (select t k now ttl) as [r t']. simpl. by rewrite IH. }
  destruct (decide (t_peers t = [])) as [E|Hne].
  { rewrite E in Hlen. destruct ks; [|done]. rewrite E. unfold rotate. by rewrite drop_nil, take_nil. }
  apply list_eq_same_length with (n := length ks); [|done|].
  { rewrite length_map, length_rotate. done. }
  intros i x y Hi Hx Hy.
  rewrite (select_all_round_robin t ks now ttl Ht Hm Hne Hnd Hfresh Hroom Hcur i Hi) in Hx.
  injection Hx as <-.
  apply list_lookup_fmap_Some in Hy as (p & -> & Hp). do 2 f_equal.
  pose proof (Z.mod_pos_bound (t_cursor t) (len (t_peers t)) ltac:(destruct (t_peers t); [done|simpl; lia])).
  rewrite lookup_rotate_r in Hp by lia. rewrite <- Hp. unfold rotate_nat_add. do 2 f_equal.
  rewrite Z2Nat.id by lia. by rewrite Zplus_mod_idemp_l.
Qed.

(** Sticky selection depends only on the client and the set of peers, not on the
    flow, the table or the order of reports, and losing other peers does not move it:
    the peer chosen from a set is chosen from every smaller set that still has it. *)
Theorem sticky_consistent t1 t2 k1 k2 now1 now2 ttl1 ttl2 p :
  table_wf t1 → table_wf t2 → t_mode t1 = Sticky → t_mode t2 = Sticky →
  t_client t1 = t_client t2 → t_flows t1 !! k1 = None → t_flows t2 !! k2 = None →
  Z.of_nat (size (t_flows t1)) < t_capacity t1 → Z.of_nat (size (t_flows t2)) < t_capacity t2 →
  (∀ q, q ∈ t_peers t2 → q ∈ t_peers t1) →
  (select t1 k1 now1 ttl1).1 = Ok (Some p) → p ∈ t_peers t2 →
  (select t2 k2 now2 ttl2).1 = Ok (Some p).
Proof.
  intros W1 W2 M1 M2 Hc F1 F2 S1 S2 Hsub Hsel Hp.
  assert (t_peers t2 ≠ []) as Hne2 by (intros E; rewrite E in Hp; set_solver).
  assert (t_peers t1 ≠ []) as Hne1 by (intros E; apply Hsub in Hp; rewrite E in Hp; set_solver).
  destruct (select_fresh t1 k1 now1 ttl1 W1 Hne1 F1 S1) as (i & x & t1' & Hi & Hx & Es1 & _).
  destruct (select_fresh t2 k2 now2 ttl2 W2 Hne2 F2 S2) as (j & y & t2' & Hj & Hy & Es2 & _).
  rewrite Es1 in Hsel. rewrite Es2. simpl in *. injection Hsel as ->. do 2 f_equal.
  unfold pick in Hi, Hj. rewrite M1 in Hi. rewrite M2 in Hj. injection Hi as Hi. injection Hj as Hj.
  apply (max_index_spec _ _ [] None) in Hi as (x' & Hx' & Hmx); [|done].
  apply (max_index_spec _ _ [] None) in Hj as (y' & Hy' & Hmy); [|done].
  simpl in *. assert (x' = p) as -> by congruence. assert (y' = y) as -> by congruence.
  rewrite Hc in Hmx.
  apply list_elem_of_lookup_1 in Hp as [jp Hjp].
  pose proof (list_elem_of_lookup_2 _ _ _ Hy) as Hyin. apply Hsub in Hyin.
  apply list_elem_of_lookup_1 in Hyin as [iy Hiy].
  destruct (decide (y = p)) as [|Hne]; [done|exfalso].
  destruct (Hmx iy y Hiy) as [Hle1 Hlt1]. destruct (Hmy jp p Hjp) as [Hle2 Hlt2].
  rewrite (bytes_cmp_antisym (sticky_digest _ p)) in Hle1, Hlt1.
  destruct (Nat.lt_total i iy) as [Hlt|[->|Hgt]]; [| |].
  - by destruct (bytes_cmp _ _); specialize (Hlt1 Hlt).
  - congruence.
  - pose proof (sorted_lookup _ _ _ _ _ _ (wf_peers _ W1) Hgt Hiy Hx) as Hyp.
    destruct (Nat.lt_total j jp) as [Hlt|[->|Hgt']].
    + by rewrite (Hlt2 Hlt) in Hle1.
    + congruence.
    + pose proof (sorted_lookup _ _ _ _ _ _ (wf_peers _ W2) Hgt' Hjp Hy) as Hpy.
      assert (str_lt y y) as Hirr by by transitivity p.
      unfold str_lt in Hirr. by rewrite str_compare_refl in Hirr.
Qed.
End flow_table.

(** ** The direct bypass *)

Record Fallback := mkFallback { bypass : bool; candidate : option (bool * Z) }.
Definition fallback_default : Fallback := mkFallback false None.

Definition update (f : Fallback) (allowed : bool) (available : Z) (valid : bool) (now : Z)
    : bool * Fallback :=
  if negb allowed || negb valid then (false, mkFallback false None) else
  let wanted := available =? 0 in
  let f :=
    if Bool.eqb wanted (bypass f) then mkFallback (bypass f) None else
    let '(cand, since) := default (wanted, now) (candidate f) in
    let '(cand, since) := if Bool.eqb cand wanted then (cand, since) else (wanted, now) in
    if from_secs 5 <=? Z.max 0 (now - since) then mkFallback wanted None
    else mkFallback (bypass f) (Some (cand, since)) in
  (bypass f, f).

(** One call of [update]. *)
Record health := mkHealth { h_allowed : bool; h_available : Z; h_valid : bool; h_now : Z }.
Definition update_step (f : Fallback) (u : health) : Fallback :=
  (update f (h_allowed u) (h_available u) (h_valid u) (h_now u)).2.
Definition run_updates : list health → Fallback := foldl update_step fallback_default.

Definition permitted (u : health) : Prop := h_allowed u = true ∧ h_valid u = true.
Definition outage (u : health) : Prop := permitted u ∧ h_available u = 0.

(** At least five seconds of uninterrupted outage, and the permission never withdrawn
    since. *)
Definition justified (us : list health) : Prop :=
  ∃ before first out last after,
    us = before ++ (first :: out) ++ last :: after ∧
    Forall outage (first :: out) ∧ outage last ∧ from_secs 5 ≤ h_now last - h_now first ∧
    Forall permitted after.

Lemma justified_snoc us u : justified us → permitted u → justified (us ++ [u]).
Proof.
  intros (b & f & o & l & a & -> & Ho & Hl & Ht & Ha) Hu.
  exists b, f, o, l, (a ++ [u]). split_and!; try done.
  - by rewrite <- !(assoc_L (++)).
  - by apply Forall_app_2, Forall_singleton.
Qed.

Lemma run_updates_inv us :
  (bypass (run_updates us) = true → justified us) ∧
  (∀ c since, candidate (run_updates us) = Some (c, since) →
     c = negb (bypass (run_updates us)) ∧
     (c = true → ∃ before first out, us = before ++ first :: out ∧ h_now first = since ∧
        Forall outage (first :: out))).
Proof.
  induction us as [|u us [IHb IHc]] using rev_ind; [done|].
  unfold run_updates. rewrite foldl_app. fold run_updates. simpl.
  unfold update_step, update. set (f := run_updates us) in *.
  assert (∃ five, five = from_secs 5 ∧ 0 < five) as (five & E5 & Hfive) by by eexists.
  rewrite <- E5.
  destruct (negb (h_allowed u) || negb (h_valid u)) eqn:G; [done|]. split_guard.
  assert (permitted u) as Hu by done.
  destruct (Bool.eqb (h_available u =? 0) (bypass f)) eqn:Ew; simpl.
  { split; [|done]. intros Hb. by apply justified_snoc; [apply IHb|]. }
  apply eqb_false_iff in Ew.
  assert (h_available u = 0 → bypass f = false) as Hw0
    by (intros E; rewrite E in Ew; by destruct (bypass f)).
  assert (h_available u ≠ 0 → bypass f = true) as Hw1.
  { intros Hn%Z.eqb_neq. rewrite Hn in Ew. by destruct (bypass f). }
  destruct (candidate f) as [[c since]|] eqn:Ec; simpl.
  - destruct (IHc c since eq_refl) as [-> Hout].
    assert (Bool.eqb (negb (bypass f)) (h_available u =? 0) = true) as ->.
    { apply eqb_true_iff. destruct (Z.eqb_spec (h_available u) 0) as [E|E];
        [by rewrite Hw0|by rewrite Hw1]. }
    destruct (Z.leb_spec five (Z.max 0 (h_now u - since))) as [Hel|Hel]; simpl.
    + split; [|done]. intros Ha0%Z.eqb_eq. destruct Hout as (b & fi & o & -> & <- & Ho).
      { by rewrite Hw0. }
      exists b, fi, o, u, []. split_and!; try done; [by rewrite <- (assoc_L (++))|].
      lia.
    + split.
      * intros Hb. by apply justified_snoc; [apply IHb|].
      * intros c' s' [= <- <-]. split; [done|]. intros Hb.
        destruct Hout as (b & fi & o & -> & <- & Ho); [done|].
        exists b, fi, (o ++ [u]). split_and!; [by rewrite <- (assoc_L (++))|done|].
        rewrite app_comm_cons. apply Forall_app_2; [done|]. apply Forall_singleton.
        split; [done|]. destruct (Z.eq_dec (h_available u) 0) as [|Hn]; [done|].
        rewrite Hw1 in Hb; done.
  - rewrite eqb_reflx. destruct (Z.leb_spec five (Z.max 0 (h_now u - h_now u))) as [Hel|Hel];
      simpl; [lia|].
    split; [intros Hb; by apply justified_snoc; [apply IHb|]|].
    intros c' s' [= <- <-]. split.
    + destruct (Z.eqb_spec (h_available u) 0) as [E|E]; [by rewrite Hw0|by rewrite Hw1].
    + intros Ha0%Z.eqb_eq. exists us, u, []. split_and!; [done|done|].
      by apply Forall_singleton.
Qed.

(** Traffic bypasses the exits only after the policy allowed it and no exit was
    available for at least five seconds without interruption, and only as long as the
    permission has not been withdrawn and the policy lease has not lapsed since. *)
Theorem bypass_justified us : bypass (run_updates us) = true → justified us.
Proof. apply run_updates_inv. Qed.

(** *** Witnesses: integer flows, a hash that is constant and a digest that is the input *)

Definition sample_hash (k c : Z) : Z := 0.
Lemma sample_hash_range k c : u64 (sample_hash k c).
Proof. done. Qed.

Definition sample_ops : list (op (K := Z)) :=
  [OpConfigure ["luna"; "condor"]%string RoundRobin; OpSelect 1 10 300 None None].
Definition sample_table : FlowTable Z := run_ops id sample_hash (table_new "miro" 0) sample_ops.
Definition sample_later : list (op (K := Z)) :=
  [OpConfigure ["luna"]%string Random; OpSelect 2 20 300 None None;
   OpConfigure ["luna"; "condor"]%string Sticky].

Lemma select_sound_witness :
  let t := sample_table in
  table_wf t ∧
  ∃ o t', select_inner id sample_hash t 7 20 300 None None = (Ok o, t') ∧ table_wf t' ∧
    ∀ p, o = Some p → p ∈ t_peers t ∧ ∃ a, t_flows t' !! 7 = Some a ∧ a_peer a = p.
Proof. exact (select_sound id sample_hash sample_hash_range "miro" 0 sample_ops 7 20 300 None None). Defined.

Lemma flow_pinned_witness :
  t_flows sample_table !! 1 = Some (mkAssignment "condor" 310 None 0 None) ∧
  (select_inner id sample_hash (run_ops id sample_hash sample_table sample_later) 1 30 300 None None).1 =
    Ok (if bool_decide ("condor"%string ∈ t_peers (run_ops id sample_hash sample_table sample_later))
        then Some "condor"%string else None).
Proof.
  split; [vm_compute; reflexivity|].
  apply (flow_pinned id sample_hash sample_hash_range "miro" 0 sample_ops sample_later 1
           (mkAssignment "condor" 310 None 0 None)).
  - vm_compute. reflexivity.
  - reflexivity.
  - repeat constructor.
  - reflexivity.
  - left. reflexivity.
Defined.

Lemma round_robin_fair_witness :
  select_all id sample_hash sample_table [8; 9] 20 300 =
  map (λ p, Ok (Some p))
    (rotate (Z.to_nat (t_cursor sample_table mod len (t_peers sample_table))) (t_peers sample_table)).
Proof.
  apply (round_robin_fair id sample_hash sample_hash_range sample_table [8; 9] 20 300).
  - apply run_ops_wf; [exact sample_hash_range|apply table_new_wf].
  - vm_compute. reflexivity.
  - apply (bool_decide_unpack _). vm_compute. exact I.
  - vm_compute. reflexivity.
  - intros k [->|[->|Hk%elem_of_nil]%elem_of_cons]%elem_of_cons; [vm_compute; reflexivity..|done].
  - apply (bool_decide_unpack _). vm_compute. exact I.
  - apply (bool_decide_unpack _). vm_compute. exact I.
Defined.

Definition sticky_table (ps : list string) : FlowTable Z :=
  run_ops id sample_hash (table_new "miro" 0) [OpConfigure ps Sticky].

Lemma sticky_consistent_witness :
  (select id sample_hash (sticky_table ["luna"; "condor"]%string) 1 5 300).1 = Ok (Some "luna"%string) ∧
  (select id sample_hash (sticky_table ["luna"]%string) 2 6 30).1 = Ok (Some "luna"%string).
Proof.
  assert ((select id sample_hash (sticky_table ["luna"; "condor"]%string) 1 5 300).1 =
          Ok (Some "luna"%string)) as H by (vm_compute; reflexivity).
  split; [exact H|].
  apply (sticky_consistent id sample_hash sample_hash_range
           (sticky_table ["luna"; "condor"]%string) (sticky_table ["luna"]%string)
           1 2 5 6 300 30 "luna").
  - apply run_ops_wf; [exact sample_hash_range|apply table_new_wf].
  - apply run_ops_wf; [exact sample_hash_range|apply table_new_wf].
  - reflexivity.
  - reflexivity.
  - reflexivity.
  - reflexivity.
  - reflexivity.
  - vm_compute. reflexivity.
  - vm_compute. reflexivity.
  - intros q [->|Hq%elem_of_nil]%elem_of_cons; [|done]. right. left.
  - exact H.
  - left.
Defined.

Definition sample_outage : list health :=
  [mkHealth true 1 true 0; mkHealth true 0 true (from_secs 1); mkHealth true 0 true (from_secs 7);
   mkHealth true 2 true (from_secs 8)].

Lemma bypass_justified_witness : bypass (run_updates sample_outage) = true ∧ justified sample_outage.
Proof.
  assert (bypass (run_updates sample_outage) = true) as H by (vm_compute; reflexivity).
  split; [exact H|exact (bypass_justified sample_outage H)].
Defined.
