(* ===== verification/Paths.v ===== *)
(** * Transport pinning ([porthub-network/src/paths.rs])

    [Pinned] remembers for every flow whether it uses the direct transport or the relay.
    The clock is the argument [now]; a table is the whole state. *)

From S2P Require Import Prelude Net Packet.
Local Open Scope Z_scope.

(** A flow's transport ([true] for direct) and when the entry expires. *)
Abbreviation Pinned := (gmap Key (bool * Z)).

Definition MAX_PINNED : Z := 65536.

Definition expire_at_capacity (flows : Pinned) (now : Z) : Pinned :=
  if MAX_PINNED <=? Z.of_nat (size flows)
  then filter (λ e : Key * (bool * Z), now < e.2.2) flows else flows.

Definition observe_path (flows : Pinned) (packet : Packet) (direct : bool) (now : Z) : Pinned :=
  let k := flow_id packet in
  let flows := expire_at_capacity flows now in
  if (Z.of_nat (size flows) <? MAX_PINNED) || bool_decide (is_Some (flows !! k)) then
    let '(route, _) := default (direct, now) (flows !! k) in
    let route := if negb direct then false else route in
    <[k := (route, now + flow_ttl packet)]> flows
  else flows.

(** The transport of a live flow, given which transports are up: it fails over. *)
Definition keep_route (route direct relay : bool) : option bool :=
  if route && negb direct then (if relay then Some false else None)
  else if negb route && negb relay then (if direct then Some true else None)
  else Some route.

(** The transport of a new flow. *)
Definition new_route (direct relay prefer_direct : bool) : option bool :=
  if direct && (prefer_direct || negb relay) then Some true
  else if relay then Some false else None.

(** The part of [choose_preferred] for a flow without a live entry. *)
Definition choose_new (flows : Pinned) (packet : Packet) (direct relay prefer_direct : bool)
    (now : Z) : option bool * Pinned :=
  match new_route direct relay prefer_direct with
  | None => (None, flows)
  | Some route =>
      let flows := expire_at_capacity flows now in
      if (MAX_PINNED <=? Z.of_nat (size flows))
         && negb (bool_decide (is_Some (flows !! flow_id packet)))
      then (None, flows)
      else (Some route, <[flow_id packet := (route, now + flow_ttl packet)]> flows)
  end.

Definition choose_preferred (flows : Pinned) (packet : Packet) (direct relay prefer_direct : bool)
    (now : Z) : option bool * Pinned :=
  let k := flow_id packet in
  match flows !! k with
  | Some (route, expires) =>
      if now <? expires then
        match keep_route route direct relay with
        | None => (None, flows)
        | Some route => (Some route, <[k := (route, now + flow_ttl packet)]> flows)
        end
      else choose_new flows packet direct relay prefer_direct now
  | None => choose_new flows packet direct relay prefer_direct now
  end.

Definition choose_path (flows : Pinned) (packet : Packet) (direct relay : bool) (now : Z) :=
  choose_preferred flows packet direct relay true now.

(** ** Lemmas *)

Definition usable (route direct relay : bool) : bool := if route then direct else relay.

Lemma keep_route_usable route direct relay r :
  keep_route route direct relay = Some r → usable r direct relay = true.
Proof. destruct route, direct, relay; simpl; intros [= <-]; done. Qed.

Lemma new_route_usable direct relay prefer r :
  new_route direct relay prefer = Some r → usable r direct relay = true.
Proof. destruct direct, relay, prefer; simpl; intros [= <-]; done. Qed.

Lemma expire_at_capacity_lookup flows now k :
  (∀ e, expire_at_capacity flows now !! k = Some e → flows !! k = Some e) ∧
  (∀ e, flows !! k = Some e → now < e.2 → expire_at_capacity flows now !! k = Some e).
Proof.
  unfold expire_at_capacity. case_match; [|done]. split.
  - by intros e [? _]%map_lookup_filter_Some.
  - intros e He Hl. by apply map_lookup_filter_Some.
Qed.

Lemma expire_at_capacity_size flows now :
  (size (expire_at_capacity flows now) ≤ size flows)%nat.
Proof.
  unfold expire_at_capacity. case_match; [|done]. apply map_subseteq_size, map_filter_subseteq.
Qed.

Lemma insert_size (m : Pinned) k v :
  Z.of_nat (size m) ≤ MAX_PINNED → Z.of_nat (size m) < MAX_PINNED ∨ is_Some (m !! k) →
  Z.of_nat (size (<[k := v]> m)) ≤ MAX_PINNED.
Proof.
  intros H1 H2. rewrite map_size_insert. destruct (m !! k) eqn:E; simpl; [done|].
  destruct H2 as [|[? ?]]; [lia|done].
Qed.

Lemma observe_path_size flows p d now :
  Z.of_nat (size flows) ≤ MAX_PINNED → Z.of_nat (size (observe_path flows p d now)) ≤ MAX_PINNED.
Proof.
  intros Hs. pose proof (expire_at_capacity_size flows now). unfold observe_path.
  destruct (_ || _) eqn:G; [|lia]. destruct (default _ _). apply insert_size; [lia|].
  apply orb_true_iff in G as [G|G%bool_decide_eq_true_1]; [left; lia|by right].
Qed.

Lemma choose_preferred_size flows p d r pd now :
  Z.of_nat (size flows) ≤ MAX_PINNED →
  Z.of_nat (size (choose_preferred flows p d r pd now).2) ≤ MAX_PINNED.
Proof.
  intros Hs. pose proof (expire_at_capacity_size flows now) as He. unfold choose_preferred.
  set (new := choose_new flows p d r pd now).
  assert (Z.of_nat (size new.2) ≤ MAX_PINNED) as Hnew.
  { unfold new, choose_new. destruct (new_route d r pd); simpl; [|done].
    destruct (_ && _) eqn:G; simpl; [lia|]. apply insert_size; [lia|].
    apply andb_false_iff in G as [G|G]; [left; lia|right].
    by apply negb_false_iff, bool_decide_eq_true_1 in G. }
  destruct (flows !! flow_id p) as [[route exp]|] eqn:E; [|done].
  case_match; [|done]. destruct (keep_route route d r); simpl; [|done].
  apply insert_size; [done|right; by rewrite E].
Qed.

(** ** Sequences of operations *)

Inductive path_op :=
| PathObserve (p : Packet) (direct : bool) (now : Z)
| PathChoose (p : Packet) (direct relay prefer : bool) (now : Z).

Definition path_step (flows : Pinned) (o : path_op) : Pinned :=
  match o with
  | PathObserve p d now => observe_path flows p d now
  | PathChoose p d r pd now => (choose_preferred flows p d r pd now).2
  end.
Definition path_run : Pinned → list path_op → Pinned := foldl path_step.

(** An operation of another flow, not later than [deadline]. *)
Definition elsewhere (k : Key) (deadline : Z) (o : path_op) : Prop :=
  match o with
  | PathObserve p _ now => flow_id p ≠ k ∧ now < deadline
  | PathChoose p _ _ _ now => flow_id p ≠ k ∧ now < deadline
  end.

Lemma path_step_elsewhere flows o k e :
  elsewhere k e.2 o → flows !! k = Some e → path_step flows o !! k = Some e.
Proof.
  destruct o as [p d now|p d r pd now]; simpl; intros [Hk Hnow] He.
  - pose proof (proj2 (expire_at_capacity_lookup flows now k) _ He Hnow) as Hx.
    unfold observe_path. case_match; [|done]. destruct (default _ _).
    by rewrite lookup_insert_ne.
  - pose proof (proj2 (expire_at_capacity_lookup flows now k) _ He Hnow) as Hx.
    unfold choose_preferred. set (new := choose_new flows p d r pd now).
    assert (new.2 !! k = Some e) as Hnew.
    { unfold new, choose_new. destruct (new_route d r pd); simpl; [|done].
      case_match; simpl; [done|]. by rewrite lookup_insert_ne. }
    destruct (flows !! flow_id p) as [[route exp]|]; [|done].
    case_match; [|done]. destruct (keep_route route d r); simpl; [|done].
    by rewrite lookup_insert_ne.
Qed.

Lemma path_run_elsewhere flows os k e :
  Forall (elsewhere k e.2) os → flows !! k = Some e → path_run flows os !! k = Some e.
Proof.
  intros Hos. revert flows. induction Hos as [|o os Ho _ IH]; intros flows He; [done|].
  simpl. by apply IH, path_step_elsewhere.
Qed.

Lemma path_run_size flows os :
  Z.of_nat (size flows) ≤ MAX_PINNED → Z.of_nat (size (path_run flows os)) ≤ MAX_PINNED.
Proof.
  revert flows. induction os as [|o os IH]; intros flows Hs; [done|]. simpl. apply IH.
  destruct o; simpl; auto using observe_path_size, choose_preferred_size.
Qed.

(** What [choose_preferred] answers and records. *)
Lemma choose_preferred_some flows p d r pd now route fs :
  choose_preferred flows p d r pd now = (Some route, fs) →
  usable route d r = true ∧ fs !! flow_id p = Some (route, now + flow_ttl p).
Proof.
  unfold choose_preferred. set (new := choose_new flows p d r pd now).
  assert (new = (Some route, fs) →
    usable route d r = true ∧ fs !! flow_id p = Some (route, now + flow_ttl p)) as Hnew.
  { unfold new, choose_new. destruct (new_route d r pd) as [x|] eqn:E; [|done]. case_match; [done|].
    intros [= <- <-]. split; [by eapply new_route_usable|apply lookup_insert_eq]. }
  destruct (flows !! flow_id p) as [[old exp]|]; [|done]. case_match; [|done].
  destruct (keep_route old d r) as [x|] eqn:E; [|done].
  intros [= <- <-]. split; [by eapply keep_route_usable|apply lookup_insert_eq].
Qed.

(** ** Properties *)

(** A packet is only sent over a transport that is up, and the choice sticks: until
    the entry expires, whatever other flows do, the next packet of the flow in either
    direction uses the same transport as long as that transport is up. *)
Theorem transport_pinned flows p d r pd now route fs os q d' r' pd' now' :
  choose_preferred flows p d r pd now = (Some route, fs) →
  Forall (elsewhere (flow_id p) (now + flow_ttl p)) os →
  key q = key p ∨ key q = reverse (key p) → now' < now + flow_ttl p →
  usable route d r = true ∧
  (usable route d' r' = true →
   (choose_preferred (path_run fs os) q d' r' pd' now').1 = Some route).
Proof.
  intros Hc Hos Hq Hnow. apply choose_preferred_some in Hc as [Hu He]. split; [done|].
  intros Hu'. assert (flow_id q = flow_id p) as Hid by (by apply flow_id_same).
  apply (path_run_elsewhere fs os _ (route, now + flow_ttl p)) in He; [|done].
  unfold choose_preferred. rewrite Hid, He, (proj2 (Z.ltb_lt now' _)) by done.
  by destruct route, d', r'.
Qed.

(** Connectivity is never given up needlessly, and the table is bounded: for a
    table filled by any operations, [choose_preferred] refuses a packet only when no
    transport is up, or when the table holds 65536 other flows. *)
Theorem choose_refuses_only_when_down os p d r pd now :
  Z.of_nat (size (path_run ∅ os)) ≤ MAX_PINNED ∧
  ((choose_preferred (path_run ∅ os) p d r pd now).1 = None →
   d = false ∧ r = false ∨
   Z.of_nat (size (path_run ∅ os)) = MAX_PINNED).
Proof.
  assert (Z.of_nat (size (path_run ∅ os)) ≤ MAX_PINNED) as Hs.
  { apply path_run_size. rewrite map_size_empty. done. }
  split; [done|]. generalize dependent (path_run ∅ os). intros flows Hs.
  pose proof (expire_at_capacity_size flows now) as He. unfold choose_preferred.
  assert (new_route d r pd = None → d = false ∧ r = false) as Hn by (by destruct d, r, pd).
  assert (∀ x, keep_route x d r = None → d = false ∧ r = false) as Hkeep
    by (by intros []; destruct d, r).
  set (new := choose_new flows p d r pd now).
  assert (new.1 = None → d = false ∧ r = false ∨ Z.of_nat (size flows) = MAX_PINNED) as Hnew.
  { unfold new, choose_new. destruct (new_route d r pd); simpl; [|auto].
    destruct (_ && _) eqn:G; simpl; [|done]. split_guard. right. lia. }
  destruct (flows !! flow_id p) as [[old exp]|]; [|done]. case_match; [|done].
  destruct (keep_route old d r) eqn:E; simpl; [done|]. left. by eapply Hkeep.
Qed.

Definition path_sample : Packet :=
  mkPacket (mkKey 1 2 17 3 4 0) false false false false 0 0.
Definition path_other : Packet :=
  mkPacket (mkKey 1 2 17 5 4 0) false false false false 0 0.
Definition path_reply : Packet :=
  mkPacket (reverse (key path_sample)) false false false false 0 0.

Lemma transport_pinned_witness :
  usable false false true = true ∧
  (usable false true true = true →
   (choose_preferred
      (path_run (choose_preferred ∅ path_sample false true true 0).2
         [PathChoose path_other true true true 1]) path_reply true true true 2).1 = Some false).
Proof.
  apply (transport_pinned ∅ path_sample false true true 0 false
           (choose_preferred ∅ path_sample false true true 0).2).
  - reflexivity.
  - repeat constructor. intros H. vm_compute in H. discriminate H.
  - right. reflexivity.
  - vm_compute. reflexivity.
Defined.
