(* ===== verification/Peer.v ===== *)
(** * A private peer ([porthub-mesh/src/protocol.rs])

    One encrypted path between two enrolled machines: the signalling descriptions, the ICE
    agent that finds a path and the DTLS endpoint that authenticates it by the pinned
    certificate.  The ICE and DTLS libraries are the class [PeerLibs]: abstract states with
    the operations the code calls, which return a result and the state afterwards, also
    when they fail.  The verification callback that [new_transport] installs is the
    function [verify]; a DTLS read reports the certificate chains it passed to it.  Instants
    are nanoseconds; addresses are passed to the libraries unprinted. *)

From S2P Require Import Prelude Net RustStr ControlPacket.
Local Open Scope string_scope.
Local Open Scope list_scope.
Local Open Scope Z_scope.

(** ** Addresses *)

Record SocketAddr := mkAddr { sa_ip : IpAddr; sa_port : Z; sa_flow : Z; sa_scope : Z }.

#[global] Instance SocketAddr_eq_dec : EqDecision SocketAddr.
Proof. solve_decision. Defined.

Definition ip_unspecified (a : IpAddr) : bool :=
  match a with V4 a => is_unspecified a | V6 a => a =? 0 end.
Definition ip_multicast (a : IpAddr) : bool :=
  match a with V4 a => is_multicast a | V6 a => Z.shiftr a 120 =? 255 end.
Definition addr_is_ipv4 (a : SocketAddr) : bool :=
  match sa_ip a with V4 _ => true | V6 _ => false end.

Definition LABEL : string := "a=porthub-transport:dtls1".
Definition MAX_CANDIDATES : Z := 64.

Inductive Kind := Offer | Answer | Candidate.
#[global] Instance Kind_eq_dec : EqDecision Kind.
Proof. solve_decision. Defined.
Record Description := mkDescription { d_type : Kind; d_sdp : string }.

Inductive State := Waiting | Connecting | Ready | Failed | Closed.
#[global] Instance State_eq_dec : EqDecision State.
Proof. solve_decision. Defined.

Record Datagram := mkDatagram { dg_local : SocketAddr; dg_remote : SocketAddr; dg_bytes : list Z }.

(** ** The libraries *)

Inductive EndpointEvent := HandshakeComplete | ApplicationData (data : list Z) | PeerClosed | OtherEvent.

Class PeerLibs := {
  Certificate : Type;
  Ice : Type;
  Dtls : Type;
  Cand : Type;
  sha256_digest : list Z → list Z;
  (** Candidates *)
  new_candidate_host : IpAddr → Z → Z → option Cand;
  new_candidate_relay : IpAddr → Z → Z → option Cand;
  new_candidate_server_reflexive : IpAddr → Z → Z → IpAddr → Z → option Cand;
  unmarshal_candidate : string → option Cand;
  marshal : Cand → string;
  cand_addr : Cand → SocketAddr;
  base_addr : Cand → SocketAddr;
  cand_is_relay : Cand → bool;
  (** The ICE agent *)
  ice_new : Z → option Ice;
  get_local_candidates : Ice → list Cand;
  get_remote_candidates : Ice → list Cand;
  get_local_credentials : Ice → string * string;
  get_selected_candidate_pair : Ice → option (Cand * Cand);
  ice_connected : Ice → bool;
  add_local_candidate : Cand → Ice → bool * Ice;
  add_remote_candidate : Cand → Ice → bool * Ice;
  start_connectivity_checks : Z → bool → string → string → Ice → bool * Ice;
  (** Polling events until there is none: for each, whether it is a change of the
      connection to failed or closed. *)
  ice_poll_events : Ice → list bool * Ice;
  ice_handle_timeout : Z → Ice → bool * Ice;
  ice_poll_timeout : Ice → option Z * Ice;
  ice_handle_read : Z → SocketAddr → SocketAddr → list Z → Ice → Ice;
  is_valid_non_stun_traffic : Z → SocketAddr → SocketAddr → Ice → bool * Ice;
  ice_poll_write : Ice → option Datagram * Ice;
  ice_close : Ice → Ice;
  (** The DTLS endpoint; a read gives its events unless it fails, and the chains it gave to
      the verification callback. *)
  dtls_config_ok : Certificate → bool → bool;
  dtls_new : SocketAddr → bool → Dtls;
  dtls_connect : Z → Dtls → bool * Dtls;
  dtls_read : (list (list Z) → bool) → Z → list Z → Dtls →
    option (list EndpointEvent) * list (list (list Z)) * Dtls;
  dtls_poll_timeout : Dtls → option Z;
  dtls_handle_timeout : Z → Dtls → bool * Dtls;
  dtls_write : Z → list Z → Dtls → bool * Dtls;
  dtls_poll_transmit : Dtls → option (list Z) * Dtls;
  dtls_close : Z → Dtls → Dtls;
}.

Section peer.
Context `{L : PeerLibs}.

Record Identity := mkIdentity { certificate : Certificate; id_fingerprint : string }.

Record Peer := mkPeer {
  p_local_id : string;
  p_remote_id : string;
  p_identity : Identity;
  p_pin : list Z;
  p_local : SocketAddr;
  p_ice : Ice;
  p_dtls : Dtls;
  p_verified : bool;
  p_controlling : bool;
  p_started : bool;
  p_remote_credentials : option (string * string);
  p_state : State;
  p_deadline : option Z;
  p_ice_tick : option Z;
  p_packets : list (list Z);
  p_last_pair : option (SocketAddr * SocketAddr);
}.

Definition set_ice (v : Ice) (p : Peer) : Peer :=
mkPeer (p_local_id p) (p_remote_id p) (p_identity p) (p_pin p) (p_local p) v (p_dtls p)
    (p_verified p) (p_controlling p) (p_started p) (p_remote_credentials p) (p_state p)
    (p_deadline p) (p_ice_tick p) (p_packets p) (p_last_pair p).
Definition set_dtls (v : Dtls) (p : Peer) : Peer :=
mkPeer (p_local_id p) (p_remote_id p) (p_identity p) (p_pin p) (p_local p) (p_ice p) v
    (p_verified p) (p_controlling p) (p_started p) (p_remote_credentials p) (p_state p)
    (p_deadline p) (p_ice_tick p) (p_packets p) (p_last_pair p).
Definition set_verified (v : bool) (p : Peer) : Peer :=
mkPeer (p_local_id p) (p_remote_id p) (p_identity p) (p_pin p) (p_local p) (p_ice p) (p_dtls p)
    v (p_controlling p) (p_started p) (p_remote_credentials p) (p_state p) (p_deadline p)
    (p_ice_tick p) (p_packets p) (p_last_pair p).
Definition set_started (v : bool) (p : Peer) : Peer :=
mkPeer (p_local_id p) (p_remote_id p) (p_identity p) (p_pin p) (p_local p) (p_ice p) (p_dtls p)
    (p_verified p) (p_controlling p) v (p_remote_credentials p) (p_state p) (p_deadline p)
    (p_ice_tick p) (p_packets p) (p_last_pair p).
Definition set_remote_credentials (v : option (string * string)) (p : Peer) : Peer :=
mkPeer (p_local_id p) (p_remote_id p) (p_identity p) (p_pin p) (p_local p) (p_ice p) (p_dtls p)
    (p_verified p) (p_controlling p) (p_started p) v (p_state p) (p_deadline p) (p_ice_tick p)
    (p_packets p) (p_last_pair p).
Definition set_state (v : State) (p : Peer) : Peer :=
mkPeer (p_local_id p) (p_remote_id p) (p_identity p) (p_pin p) (p_local p) (p_ice p) (p_dtls p)
    (p_verified p) (p_controlling p) (p_started p) (p_remote_credentials p) v (p_deadline p)
    (p_ice_tick p) (p_packets p) (p_last_pair p).
Definition set_deadline (v : option Z) (p : Peer) : Peer :=
mkPeer (p_local_id p) (p_remote_id p) (p_identity p) (p_pin p) (p_local p) (p_ice p) (p_dtls p)
    (p_verified p) (p_controlling p) (p_started p) (p_remote_credentials p) (p_state p) v
    (p_ice_tick p) (p_packets p) (p_last_pair p).
Definition set_ice_tick (v : option Z) (p : Peer) : Peer :=
mkPeer (p_local_id p) (p_remote_id p) (p_identity p) (p_pin p) (p_local p) (p_ice p) (p_dtls p)
    (p_verified p) (p_controlling p) (p_started p) (p_remote_credentials p) (p_state p)
    (p_deadline p) v (p_packets p) (p_last_pair p).
Definition set_packets (v : list (list Z)) (p : Peer) : Peer :=
mkPeer (p_local_id p) (p_remote_id p) (p_identity p) (p_pin p) (p_local p) (p_ice p) (p_dtls p)
    (p_verified p) (p_controlling p) (p_started p) (p_remote_credentials p) (p_state p)
    (p_deadline p) (p_ice_tick p) v (p_last_pair p).
Definition set_last_pair (v : option (SocketAddr * SocketAddr)) (p : Peer) : Peer :=
mkPeer (p_local_id p) (p_remote_id p) (p_identity p) (p_pin p) (p_local p) (p_ice p) (p_dtls p)
    (p_verified p) (p_controlling p) (p_started p) (p_remote_credentials p) (p_state p)
    (p_deadline p) (p_ice_tick p) (p_packets p) v.

(** ** Fingerprints and identities *)

Definition fingerprint (der : list Z) : string := join ":" (map show_upper_hex (sha256_digest der)).

Fixpoint pin_bytes (parts : list string) : res (list Z) :=
  match parts with
  | [] => Ok []
  | part :: parts =>
      ensure! slen part =? 2 else "invalid enrolled certificate fingerprint" in
      let! byte := ok_or (match bytes_of part with [a; b] => hex_byte a b | _ => None end)
                     "invalid enrolled certificate fingerprint" in
      let! rest := pin_bytes parts in
      Ok (byte :: rest)
  end.
Definition pin (value : string) : res (list Z) :=
  let parts := split ":" value in
  ensure! len parts =? 32 else "invalid enrolled certificate fingerprint" in
  pin_bytes parts.

Definition id (value : string) : bool :=
  (1 <=? slen value) && (slen value <=? 60)
  && all_bytes (λ c, is_ascii_alphanumeric c || bool_decide (c ∈ [45; 95; 58])) value.

(** The closure given to [with_verify_peer_certificate]. *)
Definition verify (pin : list Z) (raw : list (list Z)) : bool :=
  match raw with
  | [] => false
  | leaf :: _ => bool_decide (sha256_digest leaf = pin)
  end.

(** ** Construction and local candidates *)

Definition safe {A} (r : option A) (message : string) : res A := ok_or r message.
Definition succeeded (b : bool) (message : string) : res unit := ensure b message.

Definition new_transport (now : Z) (local : SocketAddr) (local_id remote_id : string)
    (identity : Identity) (expected_fingerprint : string) (relay : bool) : res Peer :=
  ensure! id local_id && id remote_id && negb (bool_decide (local_id = remote_id))
    else "invalid private peer identities" in
  ensure! negb (ip_unspecified (sa_ip local)) && negb (sa_port local =? 0)
    else "private candidate needs a bound interface address" in
  let! pin := pin expected_fingerprint in
  let controlling := match String.compare local_id remote_id with Lt => true | _ => false end in
  ensure! dtls_config_ok (certificate identity) controlling
    else "private DTLS configuration rejected" in
  let! ice := safe (ice_new now) "private ICE configuration rejected" in
  let priority := Z.shiftl (if relay then 0 else 126) 24 + Z.shiftl 65535 8 + 255 in
  let! candidate :=
    if relay
    then safe (new_candidate_relay (sa_ip local) (sa_port local) priority)
           "private relay candidate rejected"
    else safe (new_candidate_host (sa_ip local) (sa_port local) priority)
           "private host candidate rejected" in
  let '(added, ice) := add_local_candidate candidate ice in
  let! _ := succeeded added "private candidate rejected" in
  Ok (mkPeer local_id remote_id identity pin local ice (dtls_new local (negb controlling)) false
        controlling false None Waiting None None [] None).

Definition new now local local_id remote_id identity expected_fingerprint :=
  new_transport now local local_id remote_id identity expected_fingerprint false.
Definition new_relay now local local_id remote_id identity expected_fingerprint :=
  new_transport now local local_id remote_id identity expected_fingerprint true.

(** A call into the ICE agent or the DTLS endpoint, whose result is [safe]d. *)
Definition ice_call (f : Ice → bool * Ice) (message : string) : M Peer unit := λ p,
  let '(b, ice) := f (p_ice p) in (succeeded b message, set_ice ice p).
Definition dtls_call (f : Dtls → bool * Dtls) (message : string) : M Peer unit := λ p,
  let '(b, dtls) := f (p_dtls p) in (succeeded b message, set_dtls dtls p).

Definition add_interface (local : SocketAddr) : M Peer unit :=
  let* p := get in
  ensure* negb (p_started p) && (len (get_local_candidates (p_ice p)) <? 16)
    else "private interface limit exceeded" in
  ensure* negb (ip_unspecified (sa_ip local)) && negb (ip_multicast (sa_ip local))
          && negb (sa_port local =? 0) else "invalid private interface" in
  let priority := Z.shiftl 126 24
    + Z.shiftl (65535 - len (get_local_candidates (p_ice p))) 8 + 255 in
  let* candidate := lift (safe (new_candidate_host (sa_ip local) (sa_port local) priority)
                            "private host candidate rejected") in
  ice_call (add_local_candidate candidate) "private host candidate rejected".

Definition add_reflexive (base mapped : SocketAddr) : M Peer unit :=
  let* p := get in
  ensure* negb (p_started p) && (len (get_local_candidates (p_ice p)) <? MAX_CANDIDATES)
    else "private candidate limit exceeded" in
  ensure* Bool.eqb (addr_is_ipv4 mapped) (addr_is_ipv4 base) && negb (ip_unspecified (sa_ip mapped))
          && negb (ip_multicast (sa_ip mapped)) && negb (sa_port mapped =? 0)
          && existsb (λ c, bool_decide (cand_addr c = base)) (get_local_candidates (p_ice p))
    else "invalid private reflexive candidate" in
  if existsb (λ c, bool_decide (cand_addr c = mapped)) (get_local_candidates (p_ice p)) then mok tt else
  let priority := Z.shiftl 100 24 + Z.shiftl 65535 8 + 255 in
  let* candidate := lift (safe (new_candidate_server_reflexive (sa_ip mapped) (sa_port mapped) priority
                                  (sa_ip base) (sa_port base)) "private reflexive candidate rejected") in
  ice_call (add_local_candidate candidate) "private reflexive candidate rejected".

Definition add_relay (local : SocketAddr) : M Peer unit :=
  let* p := get in
  ensure* negb (p_started p) && (len (get_local_candidates (p_ice p)) <? MAX_CANDIDATES)
    else "private candidate limit exceeded" in
  ensure* addr_is_ipv4 local && negb (ip_unspecified (sa_ip local)) && negb (sa_port local =? 0)
    else "invalid private relay address" in
  let* candidate := lift (safe (new_candidate_relay (sa_ip local) (sa_port local)
                                  (Z.shiftl 65535 8 + 255)) "private relay candidate rejected") in
  ice_call (add_local_candidate candidate) "private relay candidate rejected".

(** ** Descriptions *)

Definition crlf : string := String (ascii_of_N 13) (String (ascii_of_N 10) "").

Definition description (p : Peer) : Description :=
  let '(ufrag, pwd) := get_local_credentials (p_ice p) in
  let sdp := "v=0" +:+ crlf +:+ "o=- 0 0 IN IP4 0.0.0.0" +:+ crlf +:+ "s=porthub" +:+ crlf
    +:+ "t=0 0" +:+ crlf +:+ LABEL +:+ crlf +:+ "a=porthub-peer-id:" +:+ p_local_id p +:+ crlf
    +:+ "a=ice-ufrag:" +:+ ufrag +:+ crlf +:+ "a=ice-pwd:" +:+ pwd +:+ crlf
    +:+ "a=fingerprint:sha-256 " +:+ id_fingerprint (p_identity p) +:+ crlf in
  let sdp := foldl (λ sdp c, sdp +:+ "a=candidate:" +:+ marshal c +:+ crlf) sdp
               (get_local_candidates (p_ice p)) in
  mkDescription (if p_controlling p then Offer else Answer) sdp.

(** What the loop of [remote] collects. *)
Record Parsed := mkParsed {
  pr_found : bool; pr_label : bool; pr_ufrag : option string; pr_pwd : option string;
  pr_candidates : list Cand;
}.

Definition parse_line (remote_id : string) (expected : list Z) (line : string) (a : Parsed) : res Parsed :=
  let '(mkParsed found label ufrag pwd candidates) := a in
  if bool_decide (line = LABEL) then Ok (mkParsed found true ufrag pwd candidates) else
  match strip_prefix "a=porthub-peer-id:" line with
  | Some value =>
      ensure! bool_decide (value = remote_id) else "description identity mismatch" in Ok a
  | None =>
  match strip_prefix "a=fingerprint:" line with
  | Some value =>
      let! value := ok_or (strip_prefix "sha-256 " value) "unsupported certificate fingerprint" in
      let! bytes := pin value in
      ensure! bool_decide (bytes = expected) else "description certificate mismatch" in
      Ok (mkParsed true label ufrag pwd candidates)
  | None =>
  match strip_prefix "a=ice-ufrag:" line with
  | Some value =>
      ensure! bool_decide (ufrag = None) else "duplicate ICE credentials" in
      Ok (mkParsed found label (Some value) pwd candidates)
  | None =>
  match strip_prefix "a=ice-pwd:" line with
  | Some value =>
      ensure! bool_decide (pwd = None) else "duplicate ICE credentials" in
      Ok (mkParsed found label ufrag (Some value) candidates)
  | None =>
  match strip_prefix "a=candidate:" line with
  | Some value =>
      ensure! len candidates <? MAX_CANDIDATES else "too many private candidates" in
      let! c := safe (unmarshal_candidate value) "invalid private candidate" in
      Ok (mkParsed found label ufrag pwd (candidates ++ [c]))
  | None => Ok a
  end end end end end.

Fixpoint parse_lines (remote_id : string) (expected : list Z) (lines : list string) (a : Parsed)
    : res Parsed :=
  match lines with
  | [] => Ok a
  | line :: lines =>
      let! a := parse_line remote_id expected (str_trim line) a in
      parse_lines remote_id expected lines a
  end.

Definition is_ascii_graphic (c : Z) : bool := (33 <=? c) && (c <=? 126).
Definition credential_ok (v : string) : bool :=
  negb (str_is_empty v) && (slen v <=? 256) && all_bytes is_ascii_graphic v.

(** The checks of [remote] up to the first change of the agent: the new candidates and,
    unless it is a trickled candidate, the credentials. *)
Definition check_remote (p : Peer) (actor : string) (d : Description)
    : res (list Cand * option (string * string)) :=
  ensure! bool_decide (actor = p_remote_id p) else "signaling actor does not match enrolled peer" in
  ensure! slen (d_sdp d) <=? (if bool_decide (d_type d = Candidate) then 4096 else 65536)
    else "private description exceeds size limit" in
  let! a := parse_lines (p_remote_id p) (p_pin p) (str_lines (d_sdp d))
              (mkParsed false false None None []) in
  ensure! pr_found a else "missing enrolled certificate fingerprint" in
  ensure! negb (bool_decide (d_type d = Candidate)) || (len (pr_candidates a) =? 1)
    else "one trickle candidate required" in
  let candidates := List.filter (λ c,
    negb (existsb (λ e, bool_decide (marshal e = marshal c)) (get_remote_candidates (p_ice p))))
    (pr_candidates a) in
  ensure! len (get_remote_candidates (p_ice p)) + len candidates <=? MAX_CANDIDATES
    else "too many private candidates" in
  if bool_decide (d_type d = Candidate) then Ok (candidates, None) else
  ensure! bool_decide (d_type d = if p_controlling p then Answer else Offer)
    else "invalid private negotiation direction" in
  ensure! pr_label a else "unsupported private transport" in
  let! ufrag := ok_or (pr_ufrag a) "missing ICE credentials" in
  let! pwd := ok_or (pr_pwd a) "missing ICE credentials" in
  ensure! credential_ok ufrag && credential_ok pwd else "invalid ICE credentials" in
  ensure! match p_remote_credentials p with
          | Some current => bool_decide (current = (ufrag, pwd))
          | None => true
          end else "ICE restart requires a new session" in
  Ok (candidates, Some (ufrag, pwd)).

(** [events] *)
Definition events (now : Z) : M Peer unit :=
  let* p := get in
  let '(changes, ice) := ice_poll_events (p_ice p) in
  do* put (set_ice ice p) in
  do* (if existsb (λ b, b) changes then modify (set_state Failed) else mok tt) in
  let* p := get in
  if negb (p_started p) && p_controlling p
     && bool_decide (is_Some (get_selected_candidate_pair (p_ice p)))
  then
    do* dtls_call (dtls_connect now) "private DTLS handshake failed" in
    modify (set_started true)
  else mok tt.

Fixpoint add_candidates (candidates : list Cand) : M Peer unit :=
  match candidates with
  | [] => mok tt
  | c :: candidates =>
      do* ice_call (add_remote_candidate c) "private candidate rejected" in
      add_candidates candidates
  end.

(** The first description starts the connectivity checks and the handshake deadline. *)
Definition start_checks (now : Z) (ufrag pwd : string) : M Peer unit :=
  let* p := get in
  match p_remote_credentials p with
  | Some _ => mok tt
  | None =>
      do* ice_call (start_connectivity_checks now (p_controlling p) ufrag pwd)
            "private connectivity checks failed" in
      modify (λ p, set_deadline (Some (now + from_secs 40)) (set_state Connecting
                (set_remote_credentials (Some (ufrag, pwd)) p)))
  end.

Definition remote (now : Z) (actor : string) (d : Description) : M Peer unit :=
  let* p := get in
  let* checked := lift (check_remote p actor d) in
  do* match checked.2 with Some (ufrag, pwd) => start_checks now ufrag pwd | None => mok tt end in
  do* add_candidates checked.1 in
  events now.

(** ** Timers *)

Definition timeout (now : Z) : M Peer unit :=
  let* p := get in
  if match p_deadline p with Some deadline => deadline <=? now | None => false end
     && negb (bool_decide (p_state p = Ready))
  then
    do* modify (set_state Failed) in
    lift (Err "private handshake timed out")
  else
    do* ice_call (ice_handle_timeout now) "private connectivity timer failed" in
    do* modify (set_ice_tick (Some (now + from_secs 2))) in
    let* p := get in
    do* (if match dtls_poll_timeout (p_dtls p) with Some deadline => deadline <=? now | None => false end
         then dtls_call (dtls_handle_timeout now) "private handshake timer failed"
         else mok tt) in
    events now.

(** [into_iter().flatten().min()] *)
Definition min_some (a b : option Z) : option Z :=
  match a, b with
  | Some x, Some y => Some (Z.min x y)
  | Some x, None => Some x
  | None, b => b
  end.

Definition next_timeout : M Peer (option Z) :=
  let* p := get in
  if bool_decide (p_state p = Closed) || bool_decide (p_state p = Failed) then mok None else
  let* ice :=
    if bool_decide (p_state p = Ready) && ice_connected (p_ice p) && bool_decide (is_Some (p_ice_tick p))
    then mok (p_ice_tick p)
    else
      let '(t, ice) := ice_poll_timeout (p_ice p) in
      do* put (set_ice ice p) in mok t in
  mok (min_some (min_some ice (dtls_poll_timeout (p_dtls p)))
         (if bool_decide (p_state p = Ready) then None else p_deadline p)).

(** ** Datagrams and packets *)

(** One event of a DTLS read. *)
Definition endpoint_event (now : Z) (e : EndpointEvent) : M Peer unit :=
  let* p := get in
  match e with
  | HandshakeComplete =>
      ensure* p_verified p else "private certificate proof missing" in
      modify (λ p, set_ice_tick (Some (now + from_secs 2)) (set_state Ready p))
  | ApplicationData data =>
      if bool_decide (p_state p = Ready) && (20 <=? len data) && (len data <=? MAX_PACKET) then
        if len (p_packets p) <? 2048 then modify (set_packets (p_packets p ++ [data])) else mok tt
      else mok tt
  | PeerClosed => modify (set_state Closed)
  | OtherEvent => mok tt
  end.
Fixpoint endpoint_events (now : Z) (l : list EndpointEvent) : M Peer unit :=
  match l with
  | [] => mok tt
  | e :: l => do* endpoint_event now e in endpoint_events now l
  end.

(** A STUN message: the RFC 5389 magic cookie. *)
Definition is_stun (bytes : list Z) : bool :=
  (20 <=? len bytes) && (Z.land (byte_at bytes 0) 192 =? 0)
  && bool_decide (take 4 (drop 4 bytes) = [33; 18; 164; 66]).

(** The DTLS read with the verification callback, which may set [verified]. *)
Definition read_dtls (now : Z) (bytes : list Z) : M Peer (option (list EndpointEvent)) := λ p,
  let '(evs, chains, dtls) := dtls_read (verify (p_pin p)) now bytes (p_dtls p) in
  (Ok evs, set_dtls dtls (set_verified (p_verified p || existsb (verify (p_pin p)) chains) p)).

Definition receive_on (now : Z) (local remote : SocketAddr) (bytes : list Z) : M Peer unit :=
  let* p := get in
  if (8192 <? len bytes) || bool_decide (p_state p = Closed) || bool_decide (p_state p = Failed)
  then mok tt else
  if is_stun bytes then
    do* put (set_ice (ice_handle_read now local remote bytes (p_ice p)) p) in
    events now
  else
    let '(valid, ice) := is_valid_non_stun_traffic now local remote (p_ice p) in
    do* put (set_ice ice p) in
    if (valid : bool) then
      let* evs := read_dtls now bytes in
      match evs with
      | None =>
          if negb (bool_decide (p_state p = Ready)) then
            do* modify (set_state Failed) in
            lift (Err "private certificate handshake rejected")
          else mok tt
      | Some evs => endpoint_events now evs
      end
    else mok tt.

Definition receive (now : Z) (remote : SocketAddr) (bytes : list Z) : M Peer unit :=
  let* p := get in receive_on now (p_local p) remote bytes.

Definition send (now : Z) (packet : list Z) : M Peer unit :=
  let* p := get in
  ensure* bool_decide (p_state p = Ready) else "private peer is not ready" in
  ensure* (20 <=? len packet) && (len packet <=? MAX_PACKET) else "invalid private packet size" in
  dtls_call (dtls_write now packet) "private packet write failed".

Definition packet : M Peer (option (list Z)) := λ p,
  match p_packets p with
  | [] => (Ok None, p)
  | b :: rest => (Ok (Some b), set_packets rest p)
  end.

Definition is_relay (p : Peer) : bool :=
  match get_selected_candidate_pair (p_ice p) with
  | Some (a, b) => cand_is_relay a || cand_is_relay b
  | None => false
  end.

Definition selected_pair (p : Peer) : option (SocketAddr * SocketAddr) :=
  match get_selected_candidate_pair (p_ice p) with
  | Some (a, b) => Some (base_addr a, cand_addr b)
  | None => p_last_pair p
  end.

Definition transmit : M Peer (option Datagram) :=
  let* p := get in
  let '(written, ice) := ice_poll_write (p_ice p) in
  do* put (set_ice ice p) in
  match written with
  | Some d => mok (Some d)
  | None =>
      let* p := get in
      match selected_pair p with
      | None => mok None
      | Some (local, remote) =>
          let '(t, dtls) := dtls_poll_transmit (p_dtls p) in
          do* put (set_dtls dtls (set_last_pair (Some (local, remote)) p)) in
          mok (mkDatagram local remote <$> t)
      end
  end.

Definition close (now : Z) : M Peer unit := modify (λ p,
  set_packets [] (set_state Closed (set_ice (ice_close (p_ice p))
    (set_dtls (dtls_close now (p_dtls p)) (set_last_pair (selected_pair p) p))))).
End peer.

(** ** The peer as a transition system *)

Create HintDb peer discriminated.

Section peer_safety.
Context `{L : PeerLibs}.

Definition dead (s : State) : bool := bool_decide (s = Closed) || bool_decide (s = Failed).

(** Everything but a DTLS read: who the peer is and what has been proved stay, packets are
    only taken out, and nothing makes a peer ready or, once negotiation has begun, brings a
    dead one back or moves its deadline. *)
Record calmly (p p' : Peer) : Prop := {
  ca_pin : p_pin p' = p_pin p;
  ca_remote_id : p_remote_id p' = p_remote_id p;
  ca_verified : p_verified p' = p_verified p;
  ca_packets : p_packets p' `suffix_of` p_packets p;
  ca_ready : p_state p' = Ready → p_state p = Ready;
  ca_credentials : is_Some (p_remote_credentials p) →
    p_remote_credentials p' = p_remote_credentials p ∧ p_deadline p' = p_deadline p
    ∧ (dead (p_state p) = true → dead (p_state p') = true);
}.

#[local] Instance calmly_preorder : PreOrder calmly.
Proof.
  split.
  - intros p. by split.
  - intros a b c [A1 A2 A3 A4 A5 A6] [B1 B2 B3 B4 B5 B6]. split; try congruence; [by etrans|auto|].
    intros Ha. destruct (A6 Ha) as (E1 & E2 & E3). rewrite <- E1 in Ha.
    destruct (B6 Ha) as (F1 & F2 & F3). split_and!; [congruence..|auto].
Qed.

Lemma calmly_ice ice p : calmly p (set_ice ice p).
Proof. by split. Qed.
Lemma calmly_dtls dtls p : calmly p (set_dtls dtls p).
Proof. by split. Qed.
Lemma calmly_started b p : calmly p (set_started b p).
Proof. by split. Qed.
Lemma calmly_last_pair o p : calmly p (set_last_pair o p).
Proof. by split. Qed.
Lemma calmly_ice_tick o p : calmly p (set_ice_tick o p).
Proof. by split. Qed.
Lemma calmly_failed p : calmly p (set_state Failed p).
Proof. by split. Qed.
#[local] Hint Resolve calmly_ice calmly_dtls calmly_started calmly_last_pair calmly_ice_tick
  calmly_failed : peer.

Lemma calmly_modify f : (∀ p, calmly p (f p)) → preserves calmly (modify f).
Proof. intros Hf p. apply Hf. Qed.
Lemma calmly_ice_call f msg : preserves calmly (ice_call f msg).
Proof. intros p. unfold ice_call. destruct (f _). apply calmly_ice. Qed.
Lemma calmly_dtls_call f msg : preserves calmly (dtls_call f msg).
Proof. intros p. unfold dtls_call. destruct (f _). apply calmly_dtls. Qed.
#[local] Hint Resolve calmly_modify calmly_ice_call calmly_dtls_call : peer.

(** Walk down a computation to the calm primitives. *)
Ltac calmly :=
  repeat (intros;
    match goal with
    | |- preserves _ (mok _) => apply preserves_mok; apply _
    | |- preserves _ (lift _) => apply preserves_lift; apply _
    | |- preserves _ get => apply preserves_get; apply _
    | |- preserves _ (mbindM _ _) => apply preserves_bind; [apply _| |]
    | |- preserves _ _ => solve [auto with peer]
    | |- preserves _ (match ?x with _ => _ end) => destruct x
    end).

(** A computation that reads the peer and puts it back with a new agent. *)
Lemma calmly_get_put {A} (k : Peer → M Peer A) :
  (∀ p, calmly p (k p p).2) → preserves calmly (mbindM get k).
Proof. intros Hk p. apply Hk. Qed.

Lemma run_put {A} p0 (c : M Peer A) p : (mbindM (put p0) (λ _, c) p).2 = (c p0).2.
Proof. done. Qed.

Lemma calmly_events now : preserves calmly (events now).
Proof.
  unfold events. apply calmly_get_put. intros p. destruct (ice_poll_events _) as [changes ice].
  rewrite run_put. etrans; [apply (calmly_ice ice)|].
  apply (preserves_bind calmly (if existsb _ _ then _ else _)); [destruct (existsb _ _); calmly|]. calmly.
Qed.
#[local] Hint Resolve calmly_events : peer.

Lemma calmly_add_candidates l : preserves calmly (add_candidates l).
Proof. induction l as [|c l IH]; simpl; calmly. Qed.
#[local] Hint Resolve calmly_add_candidates : peer.

Lemma calmly_start_checks now ufrag pwd : preserves calmly (start_checks now ufrag pwd).
Proof.
  unfold start_checks. apply calmly_get_put. intros p.
  destruct (p_remote_credentials p) as [c|] eqn:Hc; [done|].
  unfold mbindM, ice_call. destruct (start_connectivity_checks _ _ _ _ _) as [b ice].
  destruct b; simpl; [|apply calmly_ice]. split; try done. rewrite Hc. by intros [? ?].
Qed.
#[local] Hint Resolve calmly_start_checks : peer.

Lemma calmly_remote now actor d : preserves calmly (remote now actor d).
Proof. unfold remote. calmly. Qed.
Lemma calmly_add_interface a : preserves calmly (add_interface a).
Proof. unfold add_interface. calmly. Qed.
Lemma calmly_add_reflexive a b : preserves calmly (add_reflexive a b).
Proof. unfold add_reflexive. calmly. Qed.
Lemma calmly_add_relay a : preserves calmly (add_relay a).
Proof. unfold add_relay. calmly. Qed.
Lemma calmly_timeout now : preserves calmly (timeout now).
Proof. unfold timeout. calmly. Qed.
Lemma calmly_send now b : preserves calmly (send now b).
Proof. unfold send. calmly. Qed.

Lemma calmly_next_timeout : preserves calmly next_timeout.
Proof.
  unfold next_timeout. apply calmly_get_put. intros p. destruct (_ || _); [done|].
  destruct (_ && _); [done|]. destruct (ice_poll_timeout _). apply calmly_ice.
Qed.

Lemma calmly_packet : preserves calmly packet.
Proof.
  intros p. unfold packet. destruct (p_packets p) as [|b l] eqn:Hp; [done|].
  split; try done. simpl. rewrite Hp. by apply suffix_cons_r.
Qed.

Lemma calmly_transmit : preserves calmly transmit.
Proof.
  unfold transmit. apply calmly_get_put. intros p. destruct (ice_poll_write _) as [w ice].
  rewrite run_put. etrans; [apply (calmly_ice ice)|]. destruct w; [done|].
  apply (calmly_get_put (λ p, _)). intros q. destruct (selected_pair q) as [[l r]|]; [|done].
  destruct (dtls_poll_transmit _) as [t dtls]. rewrite run_put.
  etrans; [apply (calmly_last_pair (Some (l, r)))|apply calmly_dtls].
Qed.

Lemma calmly_close now : preserves calmly (close now).
Proof. intros p. split; try done. apply suffix_nil. Qed.
#[local] Hint Resolve calmly_remote calmly_add_interface calmly_add_reflexive calmly_add_relay
  calmly_timeout calmly_send calmly_next_timeout calmly_packet calmly_transmit calmly_close : peer.

(** The certificate chains the DTLS library has passed to the verification callback in a
    call of [receive_on]. *)
Definition presented (now : Z) (local remote : SocketAddr) (bytes : list Z) (p : Peer)
    : list (list (list Z)) :=
  if (8192 <? len bytes) || dead (p_state p) || is_stun bytes then [] else
  let '(valid, ice) := is_valid_non_stun_traffic now local remote (p_ice p) in
  if (valid : bool) then (dtls_read (verify (p_pin p)) now bytes (p_dtls p)).1.2 else [].

(** The public methods; the label is the list of chains presented in the call. *)
Inductive peer_step (p : Peer) : list (list (list Z)) → Peer → Prop :=
| ps_add_interface a : peer_step p [] (add_interface a p).2
| ps_add_reflexive a b : peer_step p [] (add_reflexive a b p).2
| ps_add_relay a : peer_step p [] (add_relay a p).2
| ps_remote now actor d : peer_step p [] (remote now actor d p).2
| ps_timeout now : peer_step p [] (timeout now p).2
| ps_next_timeout : peer_step p [] (next_timeout p).2
| ps_receive now local remote bytes :
    peer_step p (presented now local remote bytes p) (receive_on now local remote bytes p).2
| ps_send now b : peer_step p [] (send now b p).2
| ps_packet : peer_step p [] (packet p).2
| ps_transmit : peer_step p [] (transmit p).2
| ps_close now : peer_step p [] (close now p).2.

(** Runs, with the chains presented on the way. *)
Inductive peer_run (p : Peer) : list (list (list Z)) → Peer → Prop :=
| run_nil : peer_run p [] p
| run_snoc cs q ds q' : peer_run p cs q → peer_step q ds q' → peer_run p (cs ++ ds) q'.

(** ** What a DTLS read may do *)

Definition with_chains (chains : list (list (list Z))) (p : Peer) : Peer :=
  set_verified (p_verified p || existsb (verify (p_pin p)) chains) p.

Lemma endpoint_event_cases now e p : (endpoint_event now e p).2 = p
  ∨ (p_verified p = true ∧ (endpoint_event now e p).2
       = set_ice_tick (Some (now + from_secs 2)) (set_state Ready p))
  ∨ (endpoint_event now e p).2 = set_state Closed p
  ∨ (∃ data, p_state p = Ready ∧ 20 ≤ len data ≤ MAX_PACKET ∧ len (p_packets p) < 2048
       ∧ (endpoint_event now e p).2 = set_packets (p_packets p ++ [data]) p).
Proof.
  unfold endpoint_event, mbindM, get, mok, modify, lift. destruct e as [|data| |]; simpl; [| |tauto..].
  - destruct (p_verified p); simpl; tauto.
  - destruct (_ && _) eqn:G; [|tauto]. destruct (len (p_packets p) <? 2048) eqn:G2; [|tauto].
    split_guard. apply bool_decide_eq_true in H0. right; right; right. exists data. split_and!; try done; lia.
Qed.

(** The cases of [receive_on]. *)
Inductive received (now : Z) (chains : list (list (list Z))) (p : Peer) : Peer → Prop :=
| rc_calm p' : chains = [] → calmly p p' → (dead (p_state p) = true → p' = p) → received now chains p p'
| rc_failed ice dtls : dead (p_state p) = false → p_state p ≠ Ready →
    received now chains p (set_state Failed (set_dtls dtls (with_chains chains (set_ice ice p))))
| rc_ignored ice dtls : dead (p_state p) = false →
    received now chains p (set_dtls dtls (with_chains chains (set_ice ice p)))
| rc_events ice dtls evs : dead (p_state p) = false →
    received now chains p
      (endpoint_events now evs (set_dtls dtls (with_chains chains (set_ice ice p)))).2.

Lemma receive_on_received now local remote bytes p :
  received now (presented now local remote bytes p) p (receive_on now local remote bytes p).2.
Proof.
  unfold receive_on, presented. cbv beta delta [mbindM get] iota.
  rewrite <- (orb_assoc _ (bool_decide (p_state p = Closed))). fold (dead (p_state p)).
  destruct ((8192 <? len bytes) || dead (p_state p)) eqn:G; [by apply rc_calm|].
  apply orb_false_iff in G as [_ Hd]. cbn [orb].
  destruct (is_stun bytes).
  { apply rc_calm; [done| |by rewrite Hd].
    etrans; [apply calmly_ice|]. apply (calmly_events now (set_ice _ p)). }
  destruct (is_valid_non_stun_traffic _ _ _ _) as [valid ice].
  unfold put, read_dtls. cbn [fst snd]. destruct valid; [|apply rc_calm; [done|apply calmly_ice|by rewrite Hd]].
  cbn [p_pin p_dtls set_ice].
  destruct (dtls_read _ _ _ _) as [[[evs|] chains] dtls]; cbn [fst snd].
  - by apply rc_events.
  - destruct (bool_decide (p_state p = Ready)) eqn:Hr; cbn.
    + by apply rc_ignored.
    + apply bool_decide_eq_false in Hr. by apply rc_failed.
Qed.

(** ** The invariant *)

Record peer_ok (fp : list Z) (cs : list (list (list Z))) (p : Peer) : Prop := {
  pk_pin : p_pin p = fp;
  pk_ready : p_state p = Ready → p_verified p = true;
  pk_proof : p_verified p = true → existsb (verify fp) cs = true;
  pk_count : len (p_packets p) ≤ 2048;
  pk_size : Forall (λ b, 20 ≤ len b ≤ MAX_PACKET) (p_packets p);
  pk_packets : p_packets p ≠ [] → p_verified p = true;
}.

Lemma calmly_ok fp cs p p' : calmly p p' → peer_ok fp cs p → peer_ok fp cs p'.
Proof.
  intros [C1 C2 C3 [l Hl] C5 _] [K1 K2 K3 K4 K5 K6]. rewrite Hl in *.
  split; rewrite ?C1, ?C3; auto.
  - rewrite length_app in K4. lia.
  - by apply Forall_app in K5 as [_ ?].
  - intros Hp. apply K6. by destruct l.
Qed.

Lemma endpoint_event_ok fp cs now e p : peer_ok fp cs p → peer_ok fp cs (endpoint_event now e p).2.
Proof.
  intros Hk. destruct (endpoint_event_cases now e p) as [->|[[Hv ->]|[->|(data & Hr & Hl & Hn & ->)]]];
    [done|..]; destruct Hk as [K1 K2 K3 K4 K5 K6]; split; simpl; auto; try done.
  - rewrite length_app. simpl. lia.
  - apply Forall_app. split; [done|by constructor].
Qed.

Lemma endpoint_events_ok fp cs now l p : peer_ok fp cs p → peer_ok fp cs (endpoint_events now l p).2.
Proof.
  revert p. induction l as [|e l IH]; intros p Hk; simpl; [done|].
  pose proof (endpoint_event_ok fp cs now e p Hk) as Hk1. unfold mbindM.
  destruct (endpoint_event now e p) as [[?|?|] q]; simpl in *; [by apply IH|done|done].
Qed.

Lemma with_chains_ok fp cs chains ice dtls p :
  peer_ok fp cs p → peer_ok fp (cs ++ chains) (set_dtls dtls (with_chains chains (set_ice ice p))).
Proof.
  intros [K1 K2 K3 K4 K5 K6]. split; simpl; auto; rewrite ?existsb_app, ?orb_true_iff.
  - intros Hr. left. auto.
  - rewrite K1. intros [Hv|Hv]; [left; auto|by right].
  - intros Hp. left. auto.
Qed.

Lemma peer_ok_more fp cs ds p : peer_ok fp cs p → peer_ok fp (cs ++ ds) p.
Proof. intros [K1 K2 K3 K4 K5 K6]. split; auto. intros Hv. rewrite existsb_app, K3; auto. Qed.

Lemma received_ok fp cs now chains p p' :
  received now chains p p' → peer_ok fp cs p → peer_ok fp (cs ++ chains) p'.
Proof.
  intros Hr Hk. destruct Hr as [p' -> Hc _|ice dtls _ _|ice dtls _|ice dtls evs _].
  - rewrite app_nil_r. by eapply calmly_ok.
  - eapply calmly_ok; [apply calmly_failed|]. by apply with_chains_ok.
  - by apply with_chains_ok.
  - by apply endpoint_events_ok, with_chains_ok.
Qed.

(** All methods but [receive_on] are calm. *)
Lemma peer_step_cases p ds p' : peer_step p ds p' →
  (ds = [] ∧ calmly p p') ∨ ∃ now, received now ds p p'.
Proof.
  intros [a|a b|a|now actor d|now| |now local remote bytes|now b| | |now];
    try (left; split; [done|]; match goal with |- calmly ?q (?c ?q).2 => revert q; fold (preserves calmly c) end; auto with peer; fail).
  right. exists now. apply receive_on_received.
Qed.

Lemma peer_step_ok fp cs p ds p' : peer_step p ds p' → peer_ok fp cs p → peer_ok fp (cs ++ ds) p'.
Proof.
  intros [[-> Hc]|[now Hr]]%peer_step_cases Hk; [|by eapply received_ok].
  rewrite app_nil_r. by eapply calmly_ok.
Qed.

Lemma peer_run_ok fp cs p ds p' : peer_run p ds p' → peer_ok fp cs p → peer_ok fp (cs ++ ds) p'.
Proof.
  intros Hr Hk. induction Hr as [|ds q es q' _ IH Hs]; [by rewrite app_nil_r|].
  rewrite app_assoc. by eapply peer_step_ok.
Qed.

Lemma new_transport_ok now local local_id remote_id identity fp relay p :
  new_transport now local local_id remote_id identity fp relay = Ok p →
  ∃ bytes, pin fp = Ok bytes ∧ peer_ok bytes [] p.
Proof.
  unfold new_transport. intros Hn. res_inv. destruct (add_local_candidate _ _) as [b ice]. res_inv.
  eexists. split; [done|]. by split.
Qed.

(** ** Negotiation state over a run *)

Definition negotiated (p p' : Peer) : Prop :=
  p_remote_credentials p' = p_remote_credentials p ∧ p_deadline p' = p_deadline p.

Lemma endpoint_events_negotiated now l p : negotiated p (endpoint_events now l p).2.
Proof.
  revert p. induction l as [|e l IH]; intros p; simpl; [done|].
  assert (H1 : negotiated p (endpoint_event now e p).2).
  { destruct (endpoint_event_cases now e p) as [->|[[_ ->]|[->|(data & _ & _ & _ & ->)]]]; done. }
  unfold mbindM. destruct (endpoint_event now e p) as [[?|?|] q]; simpl in *; [|done|done].
  destruct H1 as [H1 H2]. destruct (IH q) as [H3 H4]. split; congruence.
Qed.

Lemma peer_step_negotiated p ds p' :
  peer_step p ds p' → is_Some (p_remote_credentials p) →
  negotiated p p' ∧ (dead (p_state p) = true → dead (p_state p') = true ∧ p_packets p' `suffix_of` p_packets p).
Proof.
  intros [[-> Hc]|[now Hr]]%peer_step_cases Hs.
  - destruct (ca_credentials _ _ Hc Hs) as (H1 & H2 & H3). split; [done|]. intros Hd. split; [auto|apply Hc].
  - destruct Hr as [p' _ Hc Hd|ice dtls Hd _|ice dtls Hd|ice dtls evs Hd];
      try (by split; [|intros Hd'; congruence]).
    + destruct (ca_credentials _ _ Hc Hs) as (H1 & H2 & _). split; [done|]. intros Hd'. by rewrite (Hd Hd').
    + split; [|intros Hd'; congruence].
      apply (endpoint_events_negotiated now evs (set_dtls dtls (with_chains ds (set_ice ice p)))).
Qed.

Lemma peer_run_negotiated p ds p' :
  peer_run p ds p' → is_Some (p_remote_credentials p) →
  negotiated p p' ∧ (dead (p_state p) = true → dead (p_state p') = true ∧ p_packets p' `suffix_of` p_packets p).
Proof.
  intros Hr Hs. induction Hr as [|ds q es q' _ IH Hst]; [done|].
  destruct IH as [[I1 I2] I3]. rewrite <- I1 in Hs.
  destruct (peer_step_negotiated _ _ _ Hst Hs) as [[J1 J2] J3]. split; [split; congruence|].
  intros Hd. destruct (I3 Hd) as [K1 K2]. destruct (J3 K1) as [M1 M2]. split; [done|by etrans].
Qed.

(** ** Theorems *)

(** C4. Nothing unauthenticated: in every state a peer can reach from its construction
    with an enrolled fingerprint, through whatever descriptions, datagrams, timers and
    library behaviour, if it is ready or has a packet to deliver, then a certificate whose
    SHA-256 is the enrolled fingerprint was presented in the handshake; and it never holds
    more than 2048 packets, each of 20 to 1380 bytes. *)
Theorem ready_authenticated now local local_id remote_id identity fp relay p cs p' :
  new_transport now local local_id remote_id identity fp relay = Ok p → peer_run p cs p' →
  (p_state p' = Ready ∨ p_packets p' ≠ [] →
     ∃ leaf rest, leaf :: rest ∈ cs ∧ pin fp = Ok (sha256_digest leaf))
  ∧ len (p_packets p') ≤ 2048 ∧ Forall (λ b, 20 ≤ len b ≤ MAX_PACKET) (p_packets p').
Proof.
  intros Hn Hr. destruct (new_transport_ok _ _ _ _ _ _ _ _ Hn) as (bytes & Hp & Hk).
  pose proof (peer_run_ok _ _ _ _ _ Hr Hk) as [K1 K2 K3 K4 K5 K6]. split_and!; [|done|done].
  intros Hs. assert (Hv : p_verified p' = true) by (destruct Hs; auto).
  apply K3, existsb_exists in Hv as ([|leaf rest] & Hin & Hv); [done|].
  apply bool_decide_eq_true in Hv. exists leaf, rest. rewrite Hp, Hv. split; [|done].
  by apply list_elem_of_In.
Qed.

(** A peer that has failed or was closed after negotiation began stays so, whatever is
    called on it: it never becomes ready again, delivers nothing but what it had received,
    ignores every datagram and refuses to send. *)
Theorem dead_peer_stays_dead p cs p' now b local remote bytes :
  is_Some (p_remote_credentials p) → dead (p_state p) = true → peer_run p cs p' →
  p_state p' ≠ Ready ∧ p_packets p' `suffix_of` p_packets p
  ∧ send now b p' = (Err "private peer is not ready", p')
  ∧ receive_on now local remote bytes p' = (Ok tt, p').
Proof.
  intros Hs Hd Hr. destruct (peer_run_negotiated _ _ _ Hr Hs) as [_ H]. destruct (H Hd) as [Hd' Hp].
  assert (Hn : p_state p' ≠ Ready) by (intros E; by rewrite E in Hd').
  split_and!; [done|done| |].
  - unfold send, mbindM, get, lift. by rewrite bool_decide_false.
  - unfold receive_on, mbindM, get. rewrite <- (orb_assoc _ (bool_decide (p_state p' = Closed))).
    fold (dead (p_state p')). by rewrite Hd', orb_true_r.
Qed.

(** The handshake is bounded: once the first description has set the deadline, for as
    long as the peer is neither ready nor dead its next timer is due no later than that
    deadline, and the timer call at or after it fails the peer. *)
Theorem handshake_bounded now0 ufrag pwd p p0 cs p' deadline :
  p_remote_credentials p = None → start_checks now0 ufrag pwd p = (Ok tt, p0) → peer_run p0 cs p' →
  p_state p' ≠ Ready → dead (p_state p') = false → deadline = now0 + from_secs 40 →
  (∃ t, (next_timeout p').1 = Ok (Some t) ∧ t ≤ deadline)
  ∧ (∀ now, deadline ≤ now →
       timeout now p' = (Err "private handshake timed out", set_state Failed p')).
Proof.
  intros Hc Hs Hr Hn Hd ->.
  assert (H0 : p_deadline p0 = Some (now0 + from_secs 40) ∧ is_Some (p_remote_credentials p0)).
  { revert Hs. unfold start_checks, mbindM, get, ice_call, modify. rewrite Hc.
    destruct (start_connectivity_checks _ _ _ _ _) as [[] ice]; simpl; [|done].
    intros [= <-]. by split. }
  destruct H0 as [H0 H1]. destruct (peer_run_negotiated _ _ _ Hr H1) as [[_ Hdl] _]. rewrite H0 in Hdl.
  split.
  - unfold next_timeout, mbindM, get. fold (dead (p_state p')). rewrite Hd.
    rewrite (bool_decide_false (p_state p' = Ready)) by done. cbn [andb].
    destruct (ice_poll_timeout _) as [t ice]. unfold put, mok. cbn [fst snd]. rewrite Hdl.
    destruct (min_some t _) as [x|]; simpl; eexists; (split; [done|lia]).
  - intros now Hnow. unfold timeout, mbindM, get. rewrite Hdl, bool_decide_false by done.
    replace (_ <=? now) with true by lia. done.
Qed.

(** *** Descriptions *)

(** What one accepted line says about the other side. *)
Definition line_ok (remote_id : string) (expected : list Z) (line : string) : Prop :=
  (∀ v, line = "a=fingerprint:" +:+ v → ∃ hex, v = "sha-256 " +:+ hex ∧ pin hex = Ok expected)
  ∧ (∀ v, line = "a=porthub-peer-id:" +:+ v → v = remote_id).

Lemma parse_line_spec remote_id expected line a a' :
  parse_line remote_id expected line a = Ok a' →
  line_ok remote_id expected line
  ∧ (pr_found a' = true → pr_found a = true
       ∨ ∃ hex, line = "a=fingerprint:sha-256 " +:+ hex ∧ pin hex = Ok expected)
  ∧ (len (pr_candidates a) ≤ MAX_CANDIDATES → len (pr_candidates a') ≤ MAX_CANDIDATES).
Proof.
  intros H. split_and!.
  - destruct a as [found label ufrag pwd cands]. split; intros v ->; unfold parse_line in H;
      rewrite bool_decide_false in H by done.
    + change (strip_prefix "a=porthub-peer-id:" ("a=fingerprint:" +:+ v)) with (@None string) in H.
      rewrite (proj2 (strip_prefix_spec "a=fingerprint:" _ v) eq_refl) in H.
      res_inv. apply strip_prefix_spec in E. apply bool_decide_eq_true in E1. subst. eauto.
    + rewrite (proj2 (strip_prefix_spec "a=porthub-peer-id:" _ v) eq_refl) in H. res_inv.
      by apply bool_decide_eq_true in E.
  - destruct a as [found label ufrag pwd cands]. unfold parse_line in H. case_bool_decide; [by simplify_eq; left|].
    destruct (strip_prefix "a=porthub-peer-id:" line) eqn:E1; [res_inv; by left|].
    destruct (strip_prefix "a=fingerprint:" line) as [value|] eqn:E2.
    { res_inv. intros _. right. apply strip_prefix_spec in E2, E. apply bool_decide_eq_true in E3. subst.
      eexists. by split. }
    repeat case_match; res_inv; by left.
  - destruct a as [found label ufrag pwd cands]. unfold parse_line in H. simpl.
    repeat (case_match; try (by res_inv)). res_inv. simpl. rewrite length_app. simpl. lia.
Qed.

Lemma parse_lines_spec remote_id expected lines a a' :
  parse_lines remote_id expected lines a = Ok a' →
  Forall (λ line, line_ok remote_id expected (str_trim line)) lines
  ∧ (pr_found a' = true → pr_found a = true
       ∨ ∃ line hex, line ∈ lines ∧ str_trim line = "a=fingerprint:sha-256 " +:+ hex ∧ pin hex = Ok expected)
  ∧ (len (pr_candidates a) ≤ MAX_CANDIDATES → len (pr_candidates a') ≤ MAX_CANDIDATES).
Proof.
  revert a. induction lines as [|line lines IH]; intros a H; simpl in H; res_inv; [by eauto|].
  destruct (parse_line_spec _ _ _ _ _ E) as (L1 & L2 & L3). destruct (IH _ H) as (I1 & I2 & I3).
  split_and!; [by constructor| |auto]. intros Hf. destruct (I2 Hf) as [Hf'|(l & hex & Hin & Hl)].
  - destruct (L2 Hf') as [?|(hex & Hl)]; [by left|right]. exists line, hex. split; [by left|done].
  - right. exists l, hex. split; [by right|done].
Qed.

(** C11. Signalling is authenticated before it has any effect: if [remote] succeeds or
    changes the peer in any way, the actor is the enrolled peer, the description is within
    its size limit and carries the enrolled certificate fingerprint, every fingerprint and
    every peer id in it is the enrolled one, and a description that is not a trickled
    candidate has the direction this side expects. *)
Theorem remote_validated now actor d p r p' :
  remote now actor d p = (r, p') → r = Ok tt ∨ p' ≠ p →
  actor = p_remote_id p
  ∧ slen (d_sdp d) ≤ (if bool_decide (d_type d = Candidate) then 4096 else 65536)
  ∧ Forall (λ line, line_ok (p_remote_id p) (p_pin p) (str_trim line)) (str_lines (d_sdp d))
  ∧ (∃ line hex, line ∈ str_lines (d_sdp d) ∧ str_trim line = "a=fingerprint:sha-256 " +:+ hex
       ∧ pin hex = Ok (p_pin p))
  ∧ (d_type d ≠ Candidate → d_type d = if p_controlling p then Answer else Offer).
Proof.
  intros Hr Hor. destruct (check_remote p actor d) as [checked|e|] eqn:Hc.
  2,3: exfalso; unfold remote, mbindM, get, lift in Hr; rewrite Hc in Hr; injection Hr as <- <-; by destruct Hor.
  clear Hr Hor. unfold check_remote in Hc. res_inv.
  apply bool_decide_eq_true in E. destruct (parse_lines_spec _ _ _ _ _ E1) as (L1 & L2 & _).
  split_and!; [done|case_bool_decide; lia|done| |].
  - destruct (L2 E2) as [?|?]; done.
  - intros Hk. rewrite (bool_decide_false (d_type d = Candidate)) in Hc by done. res_inv.
    by apply bool_decide_eq_true in E5.
Qed.

(** *** Fingerprints *)

Lemma show_upper_hex_facts x : u8 x →
  ∃ a b, show_upper_hex x = String a (String b "") ∧ hex_byte (byte_of a) (byte_of b) = Some x
    ∧ str_contains ":" (show_upper_hex x) = false.
Proof.
  intros Hx. exists (upper_hex_digit (x / 16)), (upper_hex_digit (x mod 16)). split; [done|].
  assert (H : for_u8 (λ x, bool_decide (hex_byte (byte_of (upper_hex_digit (x / 16)))
    (byte_of (upper_hex_digit (x mod 16))) = Some x)
    && negb (str_contains ":" (show_upper_hex x))) = true) by (vm_compute; reflexivity).
  apply (for_u8_spec _ x) in H; [|done].
  apply andb_true_iff in H as [H1%bool_decide_eq_true H2%negb_true_iff]. done.
Qed.

Lemma pin_bytes_show l : bytes_ok l → pin_bytes (map show_upper_hex l) = Ok l.
Proof.
  induction 1 as [|x l Hx Hl IH]; [done|]. cbn [map pin_bytes].
  destruct (show_upper_hex_facts x Hx) as (a & b & -> & Hb & _).
  change (bytes_of (String a (String b ""))) with [byte_of a; byte_of b].
  cbv beta iota. rewrite Hb, IH. done.
Qed.

(** The fingerprint an identity publishes is the pin the other side compares with. *)
Lemma pin_fingerprint der :
  length (sha256_digest der) = 32%nat → bytes_ok (sha256_digest der) →
  pin (fingerprint der) = Ok (sha256_digest der).
Proof.
  intros Hl Hb. unfold pin, fingerprint. rewrite split_join.
  - rewrite length_map, Hl. cbn. by apply pin_bytes_show.
  - apply Forall_map. eapply Forall_impl; [exact Hb|]. intros x Hx.
    by destruct (show_upper_hex_facts x Hx) as (a & b & _ & _ & H).
  - intros E. apply (f_equal length) in E. rewrite length_map, Hl in E. done.
Qed.
End peer_safety.

(** ** Examples *)

(** Libraries that connect at once: the handshake completes with the first datagram, which
    is taken for the certificate of the other side. *)
#[global] Instance sample_peer_libs : PeerLibs := {
  Certificate := unit;
  Ice := list SocketAddr;
  Dtls := unit;
  Cand := SocketAddr;
  sha256_digest l := replicate 32 (hd 0 l mod 256);
  new_candidate_host ip port _ := Some (mkAddr ip port 0 0);
  new_candidate_relay ip port _ := Some (mkAddr ip port 0 0);
  new_candidate_server_reflexive ip port _ _ _ := Some (mkAddr ip port 0 0);
  unmarshal_candidate s := Some (mkAddr (V4 (slen s)) 1 0 0);
  marshal c := match sa_ip c with V4 a => show_ipv4 a | V6 _ => "::" end;
  cand_addr c := c;
  base_addr c := c;
  cand_is_relay _ := false;
  ice_new _ := Some [];
  get_local_candidates l := l;
  get_remote_candidates _ := [];
  get_local_credentials _ := ("ufrag", "password");
  get_selected_candidate_pair _ := None;
  ice_connected _ := true;
  add_local_candidate c l := (true, l ++ [c]);
  add_remote_candidate _ l := (true, l);
  start_connectivity_checks _ _ _ _ l := (true, l);
  ice_poll_events l := ([], l);
  ice_handle_timeout _ l := (true, l);
  ice_poll_timeout l := (None, l);
  ice_handle_read _ _ _ _ l := l;
  is_valid_non_stun_traffic _ _ _ l := (true, l);
  ice_poll_write l := (None, l);
  ice_close l := l;
  dtls_config_ok _ _ := true;
  dtls_new _ _ := tt;
  dtls_connect _ _ := (true, tt);
  dtls_read verify _ bytes _ := (Some [HandshakeComplete], [[bytes]], tt);
  dtls_poll_timeout _ := None;
  dtls_handle_timeout _ _ := (true, tt);
  dtls_write _ _ _ := (true, tt);
  dtls_poll_transmit _ := (None, tt);
  dtls_close _ _ := tt;
}.

Definition sample_addr : SocketAddr := mkAddr (V4 (ipv4_new 10 0 0 1)) 4000 0 0.
(** The two ends, with the certificates [7] and [9]. *)
Definition sample_peer : Peer :=
  mkPeer "alpha" "beta" (mkIdentity tt (fingerprint [9])) (replicate 32 7) sample_addr [sample_addr] tt
    false true false None Waiting None None [] None.
Definition sample_other : Peer :=
  mkPeer "beta" "alpha" (mkIdentity tt (fingerprint [7])) (replicate 32 9) sample_addr [sample_addr] tt
    false false false None Waiting None None [] None.

Lemma sample_peer_new :
  new 0 sample_addr "alpha" "beta" (mkIdentity tt (fingerprint [9])) (fingerprint [7]) = Ok sample_peer.
Proof. vm_cast_no_check (eq_refl (Ok sample_peer)). Qed.

Lemma ready_authenticated_witness :
  p_state (receive_on 0 sample_addr sample_addr [7] sample_peer).2 = Ready
  ∧ ∃ leaf rest, leaf :: rest ∈ presented 0 sample_addr sample_addr [7] sample_peer
      ∧ pin (fingerprint [7]) = Ok (sha256_digest leaf).
Proof.
  assert (Hr : p_state (receive_on 0 sample_addr sample_addr [7] sample_peer).2 = Ready)
    by (vm_compute; reflexivity).
  split; [done|].
  exact (proj1 (ready_authenticated 0 sample_addr "alpha" "beta" _ (fingerprint [7]) false sample_peer _ _
    sample_peer_new (run_snoc sample_peer [] sample_peer _ _ (run_nil sample_peer)
      (ps_receive sample_peer 0 sample_addr sample_addr [7]))) (or_introl Hr)).
Defined.

Definition sample_started : Peer := (start_checks 0 "ufrag" "password" sample_peer).2.
Definition sample_closed : Peer := (close 1 sample_started).2.

Lemma dead_peer_stays_dead_witness :
  send 2 (replicate 20 0) sample_closed = (Err "private peer is not ready", sample_closed).
Proof.
  assert (Hc : is_Some (p_remote_credentials sample_closed)) by (vm_compute; eauto).
  assert (Hd : dead (p_state sample_closed) = true) by (vm_compute; reflexivity).
  exact (proj1 (proj2 (proj2 (dead_peer_stays_dead sample_closed [] sample_closed 2 (replicate 20 0)
    sample_addr sample_addr [] Hc Hd (run_nil sample_closed))))).
Defined.

Lemma handshake_bounded_witness :
  timeout (from_secs 41) sample_started
  = (Err "private handshake timed out", set_state Failed sample_started).
Proof.
  assert (H1 : p_remote_credentials sample_peer = None) by (vm_compute; reflexivity).
  assert (H2 : (start_checks 0 "ufrag" "password" sample_peer).1 = Ok tt) by (vm_compute; reflexivity).
  assert (H3 : p_state sample_started ≠ Ready) by (vm_compute; discriminate).
  assert (H4 : dead (p_state sample_started) = false) by (vm_compute; reflexivity).
  assert (H5 : from_secs 40 ≤ from_secs 41) by (vm_compute; discriminate).
  exact (proj2 (handshake_bounded 0 "ufrag" "password" sample_peer sample_started [] sample_started
    (from_secs 40) H1 (run_eq (start_checks 0 "ufrag" "password") sample_peer _ H2) (run_nil sample_started)
    H3 H4 eq_refl) (from_secs 41) H5).
Defined.

Lemma remote_validated_witness :
  (remote 0 "beta" (description sample_other) sample_peer).1 = Ok tt
  ∧ ∃ line hex, line ∈ str_lines (d_sdp (description sample_other))
      ∧ str_trim line = "a=fingerprint:sha-256 " +:+ hex ∧ pin hex = Ok (p_pin sample_peer).
Proof.
  assert (Hr : (remote 0 "beta" (description sample_other) sample_peer).1 = Ok tt) by (vm_compute; reflexivity).
  split; [exact Hr|].
  destruct (remote_validated 0 "beta" (description sample_other) sample_peer (Ok tt) _
    (run_eq (remote 0 "beta" (description sample_other)) sample_peer _ Hr) (or_introl eq_refl))
    as (_ & _ & _ & H & _). exact H.
Defined.
