(* ===== verification/Delivery.v ===== *)
(** * The delivery journal ([porthub-terminal/src/delivery.rs])

    One attachment epoch's journal: [Sender] keeps every frame until it is acknowledged
    and replays it when the carrier changes, [Receiver] stages frames from any carrier and
    commits them in order, [Message] is the binary envelope on the wire.  A method on
    [&mut self] returns its result with the state after the call. *)

From S2P Require Import Prelude Net RustStr.
Local Open Scope string_scope.
Local Open Scope list_scope.
Local Open Scope Z_scope.

(** [protocol::token]: lower-case hexadecimal of the given length. *)
Definition token (value : string) (length : Z) : bool :=
  (slen value =? length)
  && all_bytes (λ b, is_ascii_hexdigit b && negb (is_ascii_uppercase b)) value.

Definition MAX_PAYLOAD : Z := 16 * 1024.
Definition MAX_WIRE : Z := 25 + MAX_PAYLOAD.
Definition MAX_BYTES : Z := 64 * 1024.
Definition MAX_FRAMES : Z := 256.
Definition MAX_SEQUENCE : Z := 2 ^ 53 - 1.

Record Frame := mkFrame { f_epoch : string; f_sequence : Z; f_payload : list Z }.

#[global] Instance Frame_eq_dec : EqDecision Frame.
Proof. solve_decision. Defined.

Definition valid_epoch (epoch : string) : res unit :=
  ensure (token epoch 32) "invalid terminal attachment epoch".

(** [Frame::new] *)
Definition frame_new (epoch : string) (sequence : Z) (payload : list Z) : res Frame :=
  let! _ := valid_epoch epoch in
  ensure! (1 <=? sequence) && (sequence <=? MAX_SEQUENCE) else "invalid terminal sequence" in
  ensure! negb (bool_decide (payload = [])) && (len payload <=? MAX_PAYLOAD)
    else "invalid terminal payload" in
  Ok (mkFrame epoch sequence payload).

(** ** The sender *)

Record Sender := mkSender {
  s_epoch : string;
  s_last : Z;
  s_acknowledged : Z;
  s_pending : list Frame;
  s_bytes : Z;
}.

Definition sender_new (epoch : string) : res Sender :=
  let! _ := valid_epoch epoch in Ok (mkSender epoch 0 0 [] 0).

Definition enqueue (s : Sender) (payload : list Z) : res Frame * Sender :=
  let r :=
    ensure! (len (s_pending s) <? MAX_FRAMES) && (s_bytes s + len payload <=? MAX_BYTES)
      else "terminal replay journal is full" in
    let! sequence :=
      if s_last s + 1 <=? Z.min U64_MAX MAX_SEQUENCE then Ok (s_last s + 1)
      else Err "terminal sequence exhausted" in
    frame_new (s_epoch s) sequence payload in
  match r with
  | Ok frame =>
      (Ok frame,
       mkSender (s_epoch s) (f_sequence frame) (s_acknowledged s)
         (s_pending s ++ [frame]) (s_bytes s + len payload))
  | Err e => (Err e, s)
  | Panic => (Panic, s)
  end.

(** The loop of [acknowledge]: drop the frames up to [sequence]. *)
Fixpoint ack_pop (pending : list Frame) (bytes sequence : Z) : res (list Frame * Z) :=
  match pending with
  | [] => Ok ([], bytes)
  | f :: fs =>
      if f_sequence f <=? sequence then
        let! bytes := usub bytes (len (f_payload f)) in ack_pop fs bytes sequence
      else Ok (pending, bytes)
  end.

Definition acknowledge (s : Sender) (epoch : string) (sequence : Z) : res unit * Sender :=
  let r :=
    ensure! bool_decide (epoch = s_epoch s) else "terminal acknowledgement epoch mismatch" in
    ensure! sequence <=? s_last s else "terminal acknowledgement exceeds sent data" in
    if sequence <=? s_acknowledged s then Ok s else
    let! '(pending, bytes) := ack_pop (s_pending s) (s_bytes s) sequence in
    Ok (mkSender (s_epoch s) (s_last s) sequence pending bytes) in
  match r with
  | Ok s' => (Ok tt, s')
  | Err e => (Err e, s)
  | Panic => (Panic, s)
  end.

Definition replay (s : Sender) : list Frame := s_pending s.

Definition can_enqueue (s : Sender) (bytes : Z) : bool :=
  (bytes <=? MAX_PAYLOAD) && (len (s_pending s) <? MAX_FRAMES) && (s_bytes s + bytes <=? MAX_BYTES).

Definition can_enqueue_batch (s : Sender) (bytes frames : Z) : bool :=
  (0 <? bytes) && (0 <? frames)
  && (s_bytes s + bytes <=? Z.min U64_MAX MAX_BYTES)
  && (len (s_pending s) + frames <=? Z.min U64_MAX MAX_FRAMES)
  && (s_last s + frames <=? Z.min U64_MAX MAX_SEQUENCE).

Definition available_input_bytes (s : Sender) : res Z :=
  if (MAX_FRAMES <=? len (s_pending s)) || (MAX_SEQUENCE <=? s_last s) then Ok 0 else
  let! room := usub MAX_BYTES (s_bytes s) in Ok (Z.min room MAX_PAYLOAD).

(** ** The receiver *)

Record Receiver := mkReceiver {
  r_epoch : string;
  r_committed : Z;
  r_pending : gmap Z Frame;
  r_bytes : Z;
}.

Definition receiver_new (epoch : string) : res Receiver :=
  let! _ := valid_epoch epoch in Ok (mkReceiver epoch 0 ∅ 0).

Definition stage (r : Receiver) (frame : Frame) : res bool * Receiver :=
  let o :=
    ensure! bool_decide (f_epoch frame = r_epoch r) else "terminal data epoch mismatch" in
    if f_sequence frame <=? r_committed r then Ok false else
    ensure! f_sequence frame - r_committed r <=? MAX_FRAMES
      else "terminal receive sequence exceeds window" in
    match r_pending r !! f_sequence frame with
    | Some previous =>
        ensure! bool_decide (f_payload previous = f_payload frame)
          else "conflicting terminal replay" in
        Ok false
    | None =>
        ensure! (Z.of_nat (size (r_pending r)) <? MAX_FRAMES)
                && (r_bytes r + len (f_payload frame) <=? MAX_BYTES)
          else "terminal receive journal is full" in
        Ok true
    end in
  match o with
  | Ok true =>
      (Ok true,
       mkReceiver (r_epoch r) (r_committed r) (<[f_sequence frame := frame]> (r_pending r))
         (r_bytes r + len (f_payload frame)))
  | o => (o, r)
  end.

(** [Receiver::next]; the saturation is out of reach of a [u64] that is committed. *)
Definition next (r : Receiver) : option Frame :=
  r_pending r !! Z.min U64_MAX (r_committed r + 1).

Definition commit (r : Receiver) (sequence : Z) : res unit * Receiver :=
  let o :=
    ensure! (sequence =? r_committed r + 1) && bool_decide (is_Some (r_pending r !! sequence))
      else "terminal commit is not the next queued frame" in
    let! f := unwrap (r_pending r !! sequence) in
    usub (r_bytes r) (len (f_payload f)) in
  match o with
  | Ok bytes => (Ok tt, mkReceiver (r_epoch r) sequence (delete sequence (r_pending r)) bytes)
  | Err e => (Err e, r)
  | Panic => (Panic, r)
  end.

Definition acknowledged (r : Receiver) : Z := r_committed r.

(** ** The envelope *)

Inductive Message :=
| Data (frame : Frame)
| Ack (epoch : string) (sequence : Z).

#[global] Instance Message_eq_dec : EqDecision Message.
Proof. solve_decision. Defined.

Definition HEADER : Z := 25.

(** The loop over [(0..32).step_by(2)]: the bytes of the epoch, two digits each. *)
Fixpoint epoch_bytes (l : list Z) : res (list Z) :=
  match l with
  | [] => Ok []
  | [_] => Panic
  | a :: b :: l =>
      let! x := ok_or (hex_byte a b) "ParseIntError" in
      let! xs := epoch_bytes l in
      Ok (x :: xs)
  end.

Definition message_encode (m : Message) : res (list Z) :=
  let '(kind, epoch, sequence, payload) :=
    match m with
    | Data f => (1, f_epoch f, f_sequence f, f_payload f)
    | Ack e n => (2, e, n, [])
    end in
  let! _ := valid_epoch epoch in
  ensure! sequence <=? MAX_SEQUENCE else "invalid terminal acknowledgement" in
  let! digits := slice (bytes_of epoch) 0 32 in
  let! e := epoch_bytes digits in
  Ok (kind :: e ++ to_be 8 sequence ++ payload).

Fixpoint show_epoch (l : list Z) : string :=
  match l with
  | [] => ""
  | b :: l => show_hex b +:+ show_epoch l
  end.

Definition message_parse (bytes : list Z) : res Message :=
  ensure! (HEADER <=? len bytes) && (len bytes <=? HEADER + MAX_PAYLOAD)
    else "invalid terminal envelope size" in
  let! e := slice bytes 1 17 in
  let epoch := show_epoch e in
  let! s := slice bytes 17 25 in
  let sequence := from_be s in
  ensure! sequence <=? MAX_SEQUENCE else "invalid terminal sequence" in
  let! kind := idx bytes 0 in
  if kind =? 1 then
    let! payload := slice_from bytes HEADER in
    let! f := frame_new epoch sequence payload in
    Ok (Data f)
  else if kind =? 2 then
    ensure! len bytes =? HEADER else "terminal acknowledgement contains unexpected data" in
    Ok (Ack epoch sequence)
  else Err "unknown terminal transport envelope".

(** ** Envelopes round trip *)

Definition lower_hex (b : Z) : bool := is_ascii_hexdigit b && negb (is_ascii_uppercase b).

Lemma lower_hex_value a :
  lower_hex (byte_of a) = true →
  ∃ v, hex_value (byte_of a) = Some v ∧ (0 <=? v) && (v <? 16) = true ∧ hex_digit v = a ∧
       (byte_of a =? 43) = false.
Proof.
  destruct a as [[] [] [] [] [] [] [] []]; intros H; first [discriminate H|eexists; split_and!; reflexivity].
Qed.

Lemma bytes_of_cons a s : bytes_of (String a s) = byte_of a :: bytes_of s.
Proof. done. Qed.

(** Two lower-case digits are one byte, and it prints as those digits. *)
Lemma hex_byte_pair a b :
  lower_hex (byte_of a) = true → lower_hex (byte_of b) = true →
  ∃ x, hex_byte (byte_of a) (byte_of b) = Some x ∧ u8 x ∧ show_hex x = String a (String b "").
Proof.
  intros (v & Hv & Rv & Dv & Nv)%lower_hex_value (w & Hw & Rw & Dw & _)%lower_hex_value.
  exists (v * 16 + w). unfold hex_byte. rewrite Nv, Hv, Hw. simpl.
  split; [done|]. assert (0 ≤ v < 16 ∧ 0 ≤ w < 16) as [??] by lia.
  split; [unfold u8; lia|]. unfold show_hex.
  replace ((v * 16 + w) / 16) with v by zlia. replace ((v * 16 + w) mod 16) with w by zlia.
  by rewrite Dv, Dw.
Qed.

Lemma epoch_bytes_token n s :
  String.length s = (2 * n)%nat → all_bytes lower_hex s = true →
  ∃ l, epoch_bytes (bytes_of s) = Ok l ∧ length l = n ∧ bytes_ok l ∧ show_epoch l = s.
Proof.
  revert s. induction n as [|n IH]; intros s Hl Hs.
  - destruct s; [|done]. exists []. repeat split. constructor.
  - destruct s as [|a [|b s]]; [done|simpl in Hl; lia|].
    rewrite !all_bytes_cons in Hs. apply andb_true_iff in Hs as [Ha Hs].
    apply andb_true_iff in Hs as [Hb Hs].
    destruct (IH s) as (l & El & Ln & Lo & Ls); [simpl in Hl; lia|done|].
    destruct (hex_byte_pair a b Ha Hb) as (x & Ex & Ux & Sx).
    exists (x :: l). rewrite !bytes_of_cons. cbn [epoch_bytes]. rewrite Ex. cbn [ok_or rbind].
    rewrite El. cbn [rbind]. split_and!; [done|simpl; by rewrite Ln|by constructor|].
    cbn [show_epoch]. by rewrite Sx, Ls.
Qed.

Lemma show_hex_facts x : u8 x →
  all_bytes lower_hex (show_hex x) = true ∧
  hex_byte (nth 0 (bytes_of (show_hex x)) 0) (nth 1 (bytes_of (show_hex x)) 0) = Some x.
Proof.
  intros Hx. assert (for_u8 (λ x, bool_decide (all_bytes lower_hex (show_hex x) = true ∧
    hex_byte (nth 0 (bytes_of (show_hex x)) 0) (nth 1 (bytes_of (show_hex x)) 0) = Some x)) = true)
    as H by (vm_compute; reflexivity).
  by apply (for_u8_spec _ x) in H as ?%bool_decide_eq_true_1.
Qed.

Lemma show_epoch_token l :
  bytes_ok l →
  all_bytes lower_hex (show_epoch l) = true ∧ slen (show_epoch l) = 2 * len l ∧
  epoch_bytes (bytes_of (show_epoch l)) = Ok l.
Proof.
  induction 1 as [|x l Hx Hl IH]; [done|]. destruct IH as (I1 & I2 & I3).
  destruct (show_hex_facts x Hx) as [F1 F2]. cbn [show_epoch].
  rewrite all_bytes_app, F1, I1, slen_app, I2, bytes_of_app. split_and!; [done| |].
  - simpl length. rewrite Nat2Z.inj_succ. change (slen (show_hex x)) with 2. lia.
  - change (bytes_of (show_hex x)) with
      [nth 0 (bytes_of (show_hex x)) 0; nth 1 (bytes_of (show_hex x)) 0].
    cbn [app epoch_bytes]. rewrite F2. cbn [ok_or rbind]. by rewrite I3.
Qed.

Lemma token_spec e n : token e n = true ↔ slen e = n ∧ all_bytes lower_hex e = true.
Proof. unfold token. rewrite andb_true_iff, Z.eqb_eq. done. Qed.

(** What the code puts into an envelope. *)
Definition frame_ok (f : Frame) : Prop :=
  token (f_epoch f) 32 = true ∧ 1 ≤ f_sequence f ≤ MAX_SEQUENCE ∧
  f_payload f ≠ [] ∧ len (f_payload f) ≤ MAX_PAYLOAD.
Definition message_ok (m : Message) : Prop :=
  match m with
  | Data f => frame_ok f ∧ bytes_ok (f_payload f)
  | Ack e n => token e 32 = true ∧ 0 ≤ n ≤ MAX_SEQUENCE
  end.

Lemma frame_new_ok e n p f :
  frame_new e n p = Ok f ↔ frame_ok f ∧ f = mkFrame e n p.
Proof.
  unfold frame_new, frame_ok, valid_epoch. split.
  - intros H. res_inv. split_guard. apply bool_decide_eq_false_1 in H.
    split_and!; try done; simpl; lia.
  - intros [(H1 & H2 & H3 & H4) ->]. simpl in *. rewrite H1. cbn [ensure rbind].
    rewrite (proj2 (Z.leb_le 1 n)), (proj2 (Z.leb_le n _)) by lia. cbn [andb ensure rbind].
    rewrite bool_decide_eq_false_2, (proj2 (Z.leb_le _ MAX_PAYLOAD)) by done. done.
Qed.

Lemma length_bytes_of s : len (bytes_of s) = slen s.
Proof. unfold bytes_of, slen. rewrite length_map. f_equal. induction s; simpl; auto. Qed.

(** The envelope of a well-formed message, field by field. *)
Lemma message_encode_ok m :
  message_ok m →
  ∃ e, length e = 16%nat ∧ bytes_ok e ∧
    match m with
    | Data f => show_epoch e = f_epoch f ∧
                message_encode m = Ok (1 :: e ++ to_be 8 (f_sequence f) ++ f_payload f)
    | Ack ep n => show_epoch e = ep ∧ message_encode m = Ok (2 :: e ++ to_be 8 n)
    end.
Proof.
  assert (∀ ep, token ep 32 = true →
    ∃ e, length e = 16%nat ∧ bytes_ok e ∧ show_epoch e = ep ∧
      slice (bytes_of ep) 0 32 = Ok (bytes_of ep) ∧ epoch_bytes (bytes_of ep) = Ok e) as Htok.
  { intros ep [Hl Hb]%token_spec.
    destruct (epoch_bytes_token 16 ep) as (e & He & Ln & Lo & Ls); [unfold slen in Hl; lia|done|].
    exists e. split_and!; try done.
    pose proof (length_bytes_of ep) as Hlen. rewrite slice_ok by lia. rewrite drop_0, take_ge by lia.
    done. }
  destruct m as [f|ep n]; simpl.
  - intros [(H1 & H2 & _ & _) _]. destruct (Htok _ H1) as (e & Ln & Lo & Ls & Hs & He).
    exists e. split_and!; try done. unfold message_encode, valid_epoch. rewrite H1. cbn [ensure rbind].
    rewrite (proj2 (Z.leb_le _ MAX_SEQUENCE)) by lia. cbn [ensure rbind].
    rewrite Hs. cbn [rbind]. by rewrite He.
  - intros [H1 H2]. destruct (Htok _ H1) as (e & Ln & Lo & Ls & Hs & He).
    exists e. split_and!; try done. unfold message_encode, valid_epoch. rewrite H1. cbn [ensure rbind].
    rewrite (proj2 (Z.leb_le _ MAX_SEQUENCE)) by lia. cbn [ensure rbind].
    rewrite Hs. cbn [rbind]. rewrite He. cbn [rbind]. by rewrite app_nil_r.
Qed.

(** Reading an envelope laid out as the encoder does. *)
Lemma message_parse_fields kind e s p :
  length e = 16%nat → length s = 8%nat → len p ≤ MAX_PAYLOAD →
  message_parse (kind :: e ++ s ++ p) =
  (ensure! from_be s <=? MAX_SEQUENCE else "invalid terminal sequence" in
   if kind =? 1 then let! f := frame_new (show_epoch e) (from_be s) p in Ok (Data f)
   else if kind =? 2 then
     ensure! bool_decide (p = []) else "terminal acknowledgement contains unexpected data" in
     Ok (Ack (show_epoch e) (from_be s))
   else Err "unknown terminal transport envelope").
Proof.
  intros He Hs Hp. unfold message_parse.
  assert (len (kind :: e ++ s ++ p) = 25 + len p) as Hlen
    by (simpl length; rewrite !length_app; lia).
  rewrite Hlen. unfold HEADER.
  rewrite (proj2 (Z.leb_le 25 _)), (proj2 (Z.leb_le _ (25 + MAX_PAYLOAD))) by lia. cbn [andb ensure rbind].
  rewrite (slice_drop _ e (s ++ p) 1 16) by (try done; lia). cbn [rbind].
  rewrite (slice_drop _ s p 17 8).
  2: lia. 2: { change (Z.to_nat 17) with (1 + 16)%nat. rewrite <- drop_drop. simpl drop at 2.
       rewrite skipn_0. apply drop_app_length'. done. }
  2: lia.
  cbn [rbind]. destruct (from_be s <=? MAX_SEQUENCE); cbn [ensure rbind]; [|done].
  change (idx (kind :: e ++ s ++ p) 0) with (Ok kind). cbn [rbind].
  destruct (kind =? 1).
  - rewrite slice_from_ok by lia. cbn [rbind].
    replace (drop (Z.to_nat 25) (kind :: e ++ s ++ p)) with p; [done|].
    change (Z.to_nat 25) with (S 24). simpl drop. rewrite (assoc_L (++)).
    rewrite drop_app_length'; [done|]. rewrite length_app. lia.
  - destruct (kind =? 2); [|done].
    destruct p; [done|]. rewrite bool_decide_eq_false_2 by done.
    rewrite (proj2 (Z.eqb_neq _ 25)) by (simpl; lia). done.
Qed.

(** Every byte string of an envelope's size has that layout. *)
Lemma envelope_layout (bytes : list Z) :
  25 ≤ len bytes →
  ∃ kind e s p, bytes = kind :: e ++ s ++ p ∧ length e = 16%nat ∧ length s = 8%nat.
Proof.
  intros Hl. destruct bytes as [|kind l]; [simpl in Hl; lia|].
  exists kind, (take 16 l), (take 8 (drop 16 l)), (drop 8 (drop 16 l)).
  rewrite !take_drop. simpl in Hl.
  split_and!; [done|rewrite length_take; lia|rewrite length_take, length_drop; lia].
Qed.

Lemma message_encode_parse m :
  message_ok m → ∃ bytes, message_encode m = Ok bytes ∧ bytes_ok bytes ∧ len bytes ≤ MAX_WIRE ∧
                          message_parse bytes = Ok m.
Proof.
  intros Hm. destruct (message_encode_ok m Hm) as (e & Ln & Lo & He).
  assert (∀ n, 0 ≤ n ≤ MAX_SEQUENCE → from_be (to_be 8 n) = n) as Hbe.
  { intros n Hn. rewrite from_be_to_be by lia. apply Z.mod_small. unfold MAX_SEQUENCE in Hn. lia. }
  destruct m as [f|ep n]; simpl in Hm; destruct He as [Hs ->]; eexists; (split; [done|]).
  - destruct Hm as [Hf Hb]. pose proof Hf as (H1 & H2 & H3 & H4). split_and!.
    + constructor; [done|]. rewrite !bytes_ok_app. split_and!; [done|apply to_be_ok|done].
    + rewrite length_cons, !length_app, length_to_be, Ln. unfold MAX_WIRE. lia.
    + rewrite message_parse_fields by (done || apply length_to_be). rewrite Hbe by lia.
      rewrite (proj2 (Z.leb_le _ MAX_SEQUENCE)) by lia. cbn [ensure rbind Z.eqb Pos.eqb].
      rewrite Hs, (proj2 (frame_new_ok _ _ _ f)); [done|]. split; [done|]. by destruct f.
  - destruct Hm as [H1 H2]. split_and!.
    + constructor; [done|]. rewrite bytes_ok_app. split; [done|apply to_be_ok].
    + rewrite length_cons, !length_app, length_to_be, Ln. unfold MAX_WIRE, MAX_PAYLOAD. lia.
    + rewrite <- (app_nil_r (to_be 8 n)).
      rewrite message_parse_fields by (done || apply length_to_be). rewrite Hbe by lia.
      rewrite (proj2 (Z.leb_le _ MAX_SEQUENCE)) by lia. cbn [ensure rbind Z.eqb Pos.eqb].
      by rewrite Hs.
Qed.

Lemma message_parse_encode bytes m :
  bytes_ok bytes → message_parse bytes = Ok m → message_ok m ∧ message_encode m = Ok bytes.
Proof.
  intros Hb H.
  assert (25 ≤ len bytes ≤ 25 + MAX_PAYLOAD) as Hlen.
  { unfold message_parse in H. apply rbind_ok in H as (? & H & _). apply ensure_ok in H.
    unfold HEADER in H. lia. }
  destruct (envelope_layout bytes ltac:(lia)) as (kind & e & s & p & -> & Le & Ls).
  assert (len p ≤ MAX_PAYLOAD) as Hp by (simpl in Hlen; rewrite !length_app in Hlen; lia).
  rewrite message_parse_fields in H by done.
  apply Forall_cons in Hb as [Hk Hb]. apply bytes_ok_app in Hb as [He Hb].
  apply bytes_ok_app in Hb as [Hs Hpb].
  pose proof (from_be_range s Hs) as Hr.
  destruct (show_epoch_token e He) as (T1 & T2 & T3).
  assert (token (show_epoch e) 32 = true) as Ht by (apply token_spec; split; [lia|done]).
  assert (to_be 8 (from_be s) = s) as Hbe by (rewrite <- Ls; by apply to_be_from_be).
  assert (slice (bytes_of (show_epoch e)) 0 32 = Ok (bytes_of (show_epoch e))) as Hsl.
  { pose proof (length_bytes_of (show_epoch e)). rewrite slice_ok by lia.
    rewrite drop_0, take_ge by lia. done. }
  apply rbind_ok in H as (u & Hseq & H). apply ensure_ok in Hseq.
  destruct (Z.eqb_spec kind 1) as [->|N1]; [|destruct (Z.eqb_spec kind 2) as [->|N2]].
  - res_inv. apply frame_new_ok in E as [Hf ->]. split; [split; [done|done]|].
    unfold message_encode, valid_epoch; cbn [f_epoch f_sequence f_payload]. rewrite Ht. cbn [ensure rbind].
    rewrite Hseq. cbn [ensure rbind]. rewrite Hsl. cbn [rbind]. rewrite T3. cbn [rbind]. by rewrite Hbe.
  - res_inv. apply bool_decide_eq_true_1 in E as ->. split; [split; [done|lia]|].
    unfold message_encode, valid_epoch. rewrite Ht. cbn [ensure rbind].
    rewrite Hseq. cbn [ensure rbind]. rewrite Hsl. cbn [rbind]. rewrite T3. cbn [rbind]. by rewrite Hbe.
  - discriminate H.
Qed.

(** ** The two ends and the carriers between them *)

(** The sender, the receiver, the frames and acknowledgements the carriers hold, and two
    histories: what was enqueued and what the terminal applied. *)
Record link := mkLink {
  l_sender : Sender;
  l_receiver : Receiver;
  l_net : list Frame;
  l_acks : list Z;
  l_sent : list (list Z);
  l_applied : list (list Z);
}.

(** Carriers may reorder, duplicate, delay and lose frames and acknowledgements. *)
Inductive link_step (l : link) : link → Prop :=
| link_enqueue p f s' :
    enqueue (l_sender l) p = (Ok f, s') →
    link_step l (mkLink s' (l_receiver l) (f :: l_net l) (l_acks l) (l_sent l ++ [p]) (l_applied l))
| link_replay f :
    f ∈ replay (l_sender l) →
    link_step l (mkLink (l_sender l) (l_receiver l) (f :: l_net l) (l_acks l) (l_sent l) (l_applied l))
| link_lose net acks :
    net ⊆ l_net l → acks ⊆ l_acks l →
    link_step l (mkLink (l_sender l) (l_receiver l) net acks (l_sent l) (l_applied l))
| link_deliver f b r' :
    f ∈ l_net l → stage (l_receiver l) f = (Ok b, r') →
    link_step l (mkLink (l_sender l) r' (l_net l) (l_acks l) (l_sent l) (l_applied l))
| link_apply f r' :
    next (l_receiver l) = Some f → commit (l_receiver l) (f_sequence f) = (Ok tt, r') →
    link_step l (mkLink (l_sender l) r' (l_net l) (l_acks l) (l_sent l) (l_applied l ++ [f_payload f]))
| link_send_ack :
    link_step l (mkLink (l_sender l) (l_receiver l) (l_net l)
                   (acknowledged (l_receiver l) :: l_acks l) (l_sent l) (l_applied l))
| link_ack a s' :
    a ∈ l_acks l → acknowledge (l_sender l) (r_epoch (l_receiver l)) a = (Ok tt, s') →
    link_step l (mkLink s' (l_receiver l) (l_net l) (l_acks l) (l_sent l) (l_applied l)).

(** A fresh attachment epoch. *)
Definition link_new (epoch : string) : link :=
  mkLink (mkSender epoch 0 0 [] 0) (mkReceiver epoch 0 ∅ 0) [] [] [] [].
Definition link_reachable (epoch : string) : link → Prop := rtc link_step (link_new epoch).

(** The frames that carry [ps] after the first [start] payloads. *)
Fixpoint frames (e : string) (start : Z) (ps : list (list Z)) : list Frame :=
  match ps with
  | [] => []
  | p :: ps => mkFrame e (start + 1) p :: frames e (start + 1) ps
  end.
Definition total (ps : list (list Z)) : Z := foldr (λ p n, len p + n) 0 ps.

(** The bytes a map of staged frames holds. *)
Definition held (m : gmap Z Frame) : Z := total (map (λ x, f_payload x.2) (map_to_list m)).
Definition frame_map (fs : list Frame) : gmap Z Frame :=
  list_to_map (map (λ f, (f_sequence f, f)) fs).

Lemma total_app a b : total (a ++ b) = total a + total b.
Proof. induction a as [|p a IH]; simpl; lia. Qed.
Lemma total_nonneg a : 0 ≤ total a.
Proof. induction a as [|p a IH]; simpl; lia. Qed.
Lemma total_perm a b : a ≡ₚ b → total a = total b.
Proof. induction 1; simpl; lia. Qed.
Lemma total_submseteq a b : a ⊆+ b → total a ≤ total b.
Proof. intros [c Hc]%submseteq_Permutation. rewrite (total_perm _ _ Hc), total_app. pose proof (total_nonneg c). lia. Qed.

Lemma frames_app e n a b : frames e n (a ++ b) = frames e n a ++ frames e (n + len a) b.
Proof.
  revert n. induction a as [|p a IH]; intros n; simpl; [by rewrite Z.add_0_r|].
  rewrite IH. do 3 f_equal. lia.
Qed.
Lemma length_frames e n ps : length (frames e n ps) = length ps.
Proof. revert n. induction ps as [|p ps IH]; intros n; simpl; [done|]. by rewrite IH. Qed.

Lemma frames_elem e n ps f :
  f ∈ frames e n ps ↔ ∃ i p, ps !! i = Some p ∧ f = mkFrame e (n + Z.of_nat i + 1) p.
Proof.
  revert n. induction ps as [|p ps IH]; intros n; simpl.
  - split; [by intros ?%elem_of_nil|]. by intros (i & q & ? & _).
  - rewrite elem_of_cons, IH. split.
    + intros [->|(i & q & Hi & ->)].
      * exists 0%nat, p. split; [done|]. f_equal. lia.
      * exists (S i), q. split; [done|]. f_equal. lia.
    + intros (i & q & Hi & ->). destruct i as [|i]; simpl in Hi.
      * injection Hi as ->. left. f_equal. lia.
      * right. exists i, q. split; [done|]. f_equal. lia.
Qed.

Lemma frames_sequences e n ps : NoDup (map f_sequence (frames e n ps)).
Proof.
  revert n. induction ps as [|p ps IH]; intros n; simpl; [constructor|].
  constructor; [|apply IH]. intros (f & Hf & (i & q & _ & ->)%frames_elem)%list_elem_of_fmap.
  simpl in Hf. lia.
Qed.

Lemma frame_map_keys fs : (map (λ f, (f_sequence f, f)) fs).*1 = map f_sequence fs.
Proof. induction fs as [|f fs IH]; simpl; [done|]. f_equal. apply IH. Qed.

Lemma frame_map_lookup e n ps k f :
  frame_map (frames e n ps) !! k = Some f ↔ f ∈ frames e n ps ∧ f_sequence f = k.
Proof.
  unfold frame_map. rewrite <- elem_of_list_to_map.
  - rewrite list_elem_of_fmap. split.
    + intros (g & [= -> ->] & Hg). done.
    + intros [Hf <-]. eauto.
  - rewrite frame_map_keys. apply frames_sequences.
Qed.

Lemma held_frames e n ps : held (frame_map (frames e n ps)) = total ps.
Proof.
  unfold held, frame_map.
  rewrite (total_perm _ (map (λ x : Z * Frame, f_payload x.2) (map (λ f, (f_sequence f, f)) (frames e n ps)))).
  - rewrite map_map. simpl. f_equal. revert n. induction ps as [|p ps IH]; intros n; simpl; [done|].
    by rewrite IH.
  - apply fmap_Permutation, map_to_list_to_map. rewrite frame_map_keys. apply frames_sequences.
Qed.

Lemma size_frames e n ps : size (frame_map (frames e n ps)) = length ps.
Proof.
  unfold frame_map. rewrite map_size_list_to_map by (rewrite frame_map_keys; apply frames_sequences).
  rewrite length_map. apply length_frames.
Qed.

Lemma held_subseteq m1 m2 : m1 ⊆ m2 → held m1 ≤ held m2.
Proof. intros H. apply total_submseteq, fmap_submseteq, map_to_list_submseteq, H. Qed.

Lemma held_insert m k f : m !! k = None → held (<[k := f]> m) = held m + len (f_payload f).
Proof.
  intros Hk. unfold held.
  rewrite (total_perm _ (map (λ x : Z * Frame, f_payload x.2) ((k, f) :: map_to_list m))).
  - cbn [map total foldr snd]. unfold total. lia.
  - by apply fmap_Permutation, map_to_list_insert.
Qed.

Lemma held_delete m k f : m !! k = Some f → held m = held (delete k m) + len (f_payload f).
Proof.
  intros Hk. rewrite <- (held_insert (delete k m) k) by apply lookup_delete_eq.
  by rewrite insert_delete_id.
Qed.

(** The state of a link in terms of its histories: [a] payloads are acknowledged and [c]
    are committed. *)
Record link_ok (e : string) (a c : nat) (l : link) : Prop := {
  lk_token : token e 32 = true;
  lk_order : (a ≤ c ≤ length (l_sent l))%nat;
  lk_sender : l_sender l = mkSender e (len (l_sent l)) (Z.of_nat a)
                (frames e (Z.of_nat a) (drop a (l_sent l))) (total (drop a (l_sent l)));
  lk_sequence : len (l_sent l) ≤ MAX_SEQUENCE;
  lk_frames : len (drop a (l_sent l)) ≤ MAX_FRAMES;
  lk_bytes : total (drop a (l_sent l)) ≤ MAX_BYTES;
  lk_receiver : l_receiver l = mkReceiver e (Z.of_nat c) (r_pending (l_receiver l))
                  (held (r_pending (l_receiver l)));
  lk_staged : r_pending (l_receiver l) ⊆ frame_map (frames e (Z.of_nat c) (drop c (l_sent l)));
  lk_net : ∀ f, f ∈ l_net l → f ∈ frames e 0 (l_sent l);
  lk_acks : ∀ x, x ∈ l_acks l → 0 ≤ x ≤ Z.of_nat c;
  lk_applied : l_applied l = take c (l_sent l);
}.

Lemma total_drop n m (l : list (list Z)) : (n ≤ m)%nat → total (drop m l) ≤ total (drop n l).
Proof.
  intros H. replace m with (n + (m - n))%nat by lia. rewrite <- drop_drop.
  rewrite <- (take_drop (m - n) (drop n l)) at 2. rewrite total_app.
  pose proof (total_nonneg (take (m - n) (drop n l))). lia.
Qed.

Lemma frames_drop e n c (ps : list (list Z)) :
  frames e n ps = frames e n (take c ps) ++ frames e (n + len (take c ps)) (drop c ps).
Proof. rewrite <- frames_app. by rewrite take_drop. Qed.

(** A genuine frame that is not committed yet can always be staged: the sender's own
    window and byte budget bound what the receiver has to hold. *)
Lemma stage_genuine e a c l f :
  link_ok e a c l → f ∈ frames e 0 (l_sent l) →
  ∃ b r', stage (l_receiver l) f = (Ok b, r') ∧ r_epoch r' = e ∧ r_committed r' = Z.of_nat c ∧
    r_bytes r' = held (r_pending r') ∧
    r_pending r' ⊆ frame_map (frames e (Z.of_nat c) (drop c (l_sent l))) ∧
    (Z.of_nat c < f_sequence f → r_pending r' !! f_sequence f = Some f) ∧
    r_pending (l_receiver l) ⊆ r_pending r'.
Proof.
  intros Hl Hf. pose proof (lk_order _ _ _ _ Hl) as Hord.
  apply frames_elem in Hf as (i & p & Hi & ->). pose proof (lookup_lt_Some _ _ _ Hi) as Hlt.
  set (f := mkFrame e (0 + Z.of_nat i + 1) p).
  pose proof (lk_receiver _ _ _ _ Hl) as Hr. pose proof (lk_staged _ _ _ _ Hl) as Hst.
  set (m := r_pending (l_receiver l)) in *. rewrite Hr. unfold stage.
  cbn [r_epoch r_committed r_pending r_bytes f_epoch f_sequence f_payload f].
  rewrite bool_decide_eq_true_2 by done. cbn [ensure rbind].
  destruct (Z.leb_spec (0 + Z.of_nat i + 1) (Z.of_nat c)) as [Hle|Hgt].
  { eexists false, _. split; [done|]. cbn. split_and!; try done. lia. }
  pose proof (lk_frames _ _ _ _ Hl) as Hfr. rewrite length_drop in Hfr.
  rewrite (proj2 (Z.leb_le _ MAX_FRAMES)) by lia. cbn [ensure rbind].
  assert (frame_map (frames e (Z.of_nat c) (drop c (l_sent l))) !! (0 + Z.of_nat i + 1) = Some f) as Hmap.
  { apply frame_map_lookup. split; [|done]. apply frames_elem. exists (i - c)%nat, p.
    rewrite lookup_drop. replace (c + (i - c))%nat with i by lia. split; [done|].
    unfold f. f_equal. lia. }
  destruct (m !! (0 + Z.of_nat i + 1)) as [g|] eqn:Eg.
  - assert (g = f) as -> by (eapply lookup_weaken in Eg; [|exact Hst]; congruence).
    rewrite bool_decide_eq_true_2 by done. cbn [ensure rbind].
    eexists false, _. split; [done|]. cbn. split_and!; try done.
  - assert (<[0 + Z.of_nat i + 1 := f]> m ⊆ frame_map (frames e (Z.of_nat c) (drop c (l_sent l)))) as Hsub
      by (by apply insert_subseteq_l).
    pose proof (held_subseteq _ _ Hsub) as Hheld. rewrite held_frames, held_insert in Hheld by done.
    pose proof (map_subseteq_size _ _ Hsub) as Hsize.
    rewrite size_frames, map_size_insert, Eg, length_drop in Hsize.
    pose proof (total_drop a c (l_sent l) ltac:(lia)). pose proof (lk_bytes _ _ _ _ Hl).
    change (f_payload f) with p in Hheld. simpl in Hsize.
    rewrite (proj2 (Z.ltb_lt _ MAX_FRAMES)), (proj2 (Z.leb_le _ MAX_BYTES)) by lia.
    cbn [andb ensure rbind]. eexists true, _. split; [done|]. cbn. split_and!; try done.
    + rewrite held_insert by done. done.
    + intros _. apply lookup_insert_eq.
    + by apply insert_subseteq.
Qed.

(** The next frame to commit is the next payload of the history. *)
Lemma next_genuine e a c l f :
  link_ok e a c l → next (l_receiver l) = Some f →
  l_sent l !! c = Some (f_payload f) ∧ f_sequence f = Z.of_nat c + 1 ∧
  r_pending (l_receiver l) !! (Z.of_nat c + 1) = Some f.
Proof.
  intros Hl Hn. pose proof (lk_order _ _ _ _ Hl). pose proof (lk_sequence _ _ _ _ Hl) as Hseq.
  unfold next in Hn. rewrite (lk_receiver _ _ _ _ Hl) in Hn. cbn [r_pending r_committed] in Hn.
  unfold MAX_SEQUENCE in Hseq. rewrite Z.min_r in Hn by (unfold U64_MAX; lia).
  pose proof (lookup_weaken _ _ _ _ Hn (lk_staged _ _ _ _ Hl)) as Hm.
  apply frame_map_lookup in Hm as [(i & p & Hi & ->)%frames_elem Hs].
  simpl in *. rewrite lookup_drop in Hi. assert (i = 0%nat) as -> by lia.
  rewrite Nat.add_0_r in Hi. split_and!; [done|lia|done].
Qed.

Lemma commit_next e a c l f :
  link_ok e a c l → next (l_receiver l) = Some f →
  ∃ r', commit (l_receiver l) (f_sequence f) = (Ok tt, r') ∧ r_epoch r' = e ∧
    r_committed r' = Z.of_nat (S c) ∧ r_bytes r' = held (r_pending r') ∧
    r_pending r' = delete (Z.of_nat c + 1) (r_pending (l_receiver l)).
Proof.
  intros Hl Hn. destruct (next_genuine _ _ _ _ _ Hl Hn) as (Hc & Hs & Hp).
  unfold commit. rewrite (lk_receiver _ _ _ _ Hl). cbn [r_committed r_pending r_bytes r_epoch].
  rewrite Hs, Z.eqb_refl, Hp, bool_decide_eq_true_2 by done. cbn [andb ensure rbind unwrap].
  pose proof (held_delete _ _ _ Hp) as Hh.
  pose proof (total_nonneg (map (λ x : Z * Frame, f_payload x.2)
    (map_to_list (delete (Z.of_nat c + 1) (r_pending (l_receiver l)))))) as Hge.
  fold (held (delete (Z.of_nat c + 1) (r_pending (l_receiver l)))) in Hge.
  rewrite usub_ok by lia. eexists. split; [done|]. cbn. split_and!; try done; lia.
Qed.

(** Acknowledging what was committed drops exactly those frames. *)
Lemma ack_pop_frames e n k ps :
  (k ≤ length ps)%nat →
  ack_pop (frames e n ps) (total ps) (n + Z.of_nat k) =
  Ok (frames e (n + Z.of_nat k) (drop k ps), total (drop k ps)).
Proof.
  revert n ps. induction k as [|k IH]; intros n ps Hk.
  - rewrite Z.add_0_r. destruct ps as [|p ps]; [done|]. simpl.
    rewrite (proj2 (Z.leb_gt (n + 1) n)) by lia. done.
  - destruct ps as [|p ps]; [simpl in Hk; lia|]. cbn [frames ack_pop f_sequence f_payload].
    rewrite (proj2 (Z.leb_le (n + 1) _)) by lia.
    cbn [total foldr]. fold (total ps). rewrite usub_ok by (pose proof (total_nonneg ps); lia).
    cbn [rbind]. replace (len p + total ps - len p) with (total ps) by lia.
    replace (n + Z.of_nat (S k)) with (n + 1 + Z.of_nat k) by lia.
    rewrite IH by (simpl in Hk; lia). done.
Qed.

Lemma enqueue_ok e a c l p f s' :
  link_ok e a c l → enqueue (l_sender l) p = (Ok f, s') →
  f = mkFrame e (len (l_sent l) + 1) p ∧
  link_ok e a c (mkLink s' (l_receiver l) (f :: l_net l) (l_acks l) (l_sent l ++ [p]) (l_applied l)).
Proof.
  intros Hl H. pose proof (lk_order _ _ _ _ Hl) as Hord. unfold enqueue in H.
  rewrite (lk_sender _ _ _ _ Hl) in H. cbn [s_pending s_bytes s_last s_epoch s_acknowledged] in H.
  match type of H with context [match ?r with Ok _ => _ | Err _ => _ | Panic => _ end] =>
    destruct r as [f'| |] eqn:Er; [|discriminate H|discriminate H] end.
  injection H as <- <-. res_inv. split_guard.
  destruct (Z.leb_spec (len (l_sent l) + 1) (Z.min U64_MAX MAX_SEQUENCE)) as [Hseq|]; [|discriminate].
  injection E0 as <-. apply frame_new_ok in Er as [Hf ->].
  split; [done|]. rewrite length_frames, length_drop in *.
  assert (drop a (l_sent l ++ [p]) = drop a (l_sent l) ++ [p]) as Hdrop
    by (apply drop_app_le; lia).
  assert (∀ n, (n ≤ length (l_sent l))%nat → frames e (Z.of_nat n) (drop n (l_sent l ++ [p])) =
            frames e (Z.of_nat n) (drop n (l_sent l)) ++ [mkFrame e (len (l_sent l) + 1) p]) as Hfr.
  { intros n Hn. rewrite drop_app_le by lia. rewrite frames_app. do 2 f_equal. simpl.
    f_equal. rewrite length_drop. f_equal. lia. }
  split; cbn [l_sender l_receiver l_net l_acks l_sent l_applied].
  - apply Hl.
  - rewrite length_app. lia.
  - rewrite Hfr by lia. rewrite Hdrop, total_app, length_app. cbn [f_sequence total foldr]. f_equal; simpl; lia.
  - rewrite length_app. simpl. lia.
  - rewrite Hdrop, length_app, length_drop. simpl. lia.
  - rewrite Hdrop, total_app. simpl. lia.
  - apply Hl.
  - etrans; [apply (lk_staged _ _ _ _ Hl)|]. apply map_subseteq_spec. intros k g.
    rewrite !frame_map_lookup, Hfr by lia. set_solver.
  - pose proof (Hfr 0%nat ltac:(lia)) as H0. rewrite !drop_0 in H0. change (Z.of_nat 0) with 0 in H0.
    intros g [->|Hg]%elem_of_cons; rewrite H0; [set_solver|].
    apply (lk_net _ _ _ _ Hl) in Hg. set_solver.
  - apply Hl.
  - rewrite (lk_applied _ _ _ _ Hl). rewrite take_app_le by lia. done.
Qed.

Lemma acknowledge_ok e a c l x s' :
  link_ok e a c l → x ∈ l_acks l → acknowledge (l_sender l) (r_epoch (l_receiver l)) x = (Ok tt, s') →
  ∃ a', link_ok e a' c (mkLink s' (l_receiver l) (l_net l) (l_acks l) (l_sent l) (l_applied l)).
Proof.
  intros Hl Hx H. pose proof (lk_order _ _ _ _ Hl) as Hord. pose proof (lk_acks _ _ _ _ Hl x Hx) as Hxc.
  unfold acknowledge in H. rewrite (lk_receiver _ _ _ _ Hl), (lk_sender _ _ _ _ Hl) in H.
  cbn [s_pending s_bytes s_last s_epoch s_acknowledged r_epoch] in H.
  rewrite bool_decide_eq_true_2 in H by done. cbn [ensure rbind] in H.
  rewrite (proj2 (Z.leb_le x _)) in H by lia. cbn [ensure rbind] in H.
  destruct (Z.leb_spec x (Z.of_nat a)) as [Hle|Hgt].
  { injection H as <-. exists a. pose proof (lk_sender _ _ _ _ Hl). by destruct Hl. }
  replace x with (Z.of_nat a + Z.of_nat (Z.to_nat x - a)) in H by lia.
  rewrite ack_pop_frames in H by (rewrite length_drop; lia).
  replace (Z.of_nat a + Z.of_nat (Z.to_nat x - a)) with x in H by lia.
  cbn [rbind] in H. injection H as <-. rewrite drop_drop.
  replace (a + (Z.to_nat x - a))%nat with (Z.to_nat x) by lia.
  exists (Z.to_nat x). destruct Hl as [Ht Ho Hs Hq Hf Hb Hr Hst Hn Ha Happ].
  split; cbn [l_sender l_receiver l_net l_acks l_sent l_applied]; try done.
  - lia.
  - rewrite Z2Nat.id by lia. done.
  - rewrite length_drop in *. lia.
  - pose proof (total_drop a (Z.to_nat x) (l_sent l) ltac:(lia)). lia.
Qed.

Lemma apply_next_ok e a c l f r' :
  link_ok e a c l → next (l_receiver l) = Some f →
  commit (l_receiver l) (f_sequence f) = (Ok tt, r') →
  link_ok e a (S c) (mkLink (l_sender l) r' (l_net l) (l_acks l) (l_sent l) (l_applied l ++ [f_payload f])).
Proof.
  intros Hl Hn Hc. destruct (next_genuine _ _ _ _ _ Hl Hn) as (Hsent & _ & _).
  destruct (commit_next _ _ _ _ _ Hl Hn) as (r2 & Hc2 & He & Hco & Hb & Hp).
  rewrite Hc2 in Hc. injection Hc as <-. pose proof (lookup_lt_Some _ _ _ Hsent) as Hlt.
  destruct Hl as [Ht Ho Hs Hq Hf Hby Hr Hst Hne Ha Happ].
  split; cbn [l_sender l_receiver l_net l_acks l_sent l_applied]; try done.
  - lia.
  - rewrite <- Hb, <- He, <- Hco. by destruct r2.
  - rewrite Hp. apply map_subseteq_spec. intros k g [Hk Hg]%lookup_delete_Some.
    eapply lookup_weaken in Hg; [|exact Hst].
    apply frame_map_lookup in Hg as [(i & p & Hi & ->)%frames_elem Hseq].
    apply frame_map_lookup. split; [|done]. apply frames_elem. simpl in Hseq.
    destruct i as [|i]; [lia|]. exists i, p. rewrite lookup_drop in *.
    replace (S c + i)%nat with (c + S i)%nat by lia. split; [done|]. f_equal. lia.
  - intros x Hx. apply Ha in Hx. lia.
  - rewrite Happ. by rewrite (take_S_r _ _ _ Hsent).
Qed.

Lemma replay_ok e a c l f :
  link_ok e a c l → f ∈ replay (l_sender l) →
  link_ok e a c (mkLink (l_sender l) (l_receiver l) (f :: l_net l) (l_acks l) (l_sent l) (l_applied l)).
Proof.
  intros Hl Hf. unfold replay in Hf. rewrite (lk_sender _ _ _ _ Hl) in Hf. simpl in Hf.
  pose proof (lk_order _ _ _ _ Hl).
  destruct Hl as [Ht Ho Hs' Hq Hfr Hb Hr Hst Hn Ha Happ]. split; simpl; try done.
  intros g [->|Hg]%elem_of_cons; [|auto].
  rewrite (frames_drop e 0 a). rewrite length_take, Nat.min_l by lia. set_solver.
Qed.

Lemma deliver_ok e a c l f b r' :
  link_ok e a c l → f ∈ l_net l → stage (l_receiver l) f = (Ok b, r') →
  link_ok e a c (mkLink (l_sender l) r' (l_net l) (l_acks l) (l_sent l) (l_applied l)).
Proof.
  intros Hl Hf H.
  destruct (stage_genuine e a c l f Hl) as (b' & r2 & H' & He & Hco & Hby & Hsub & _).
  { by apply (lk_net _ _ _ _ Hl). }
  rewrite H in H'. injection H' as <- <-. destruct Hl as [Ht Ho Hs' Hq Hfr Hb Hr Hst Hn Ha Happ].
  split; simpl; try done. rewrite <- Hby, <- He, <- Hco. by destruct r'.
Qed.

Lemma link_step_ok e a c l l' :
  link_ok e a c l → link_step l l' → ∃ a' c', link_ok e a' c' l'.
Proof.
  intros Hl Hstep. destruct Hstep as [p f s' H|f Hf|net acks H1 H2|f b r' Hf H|f r' Hn Hc| |x s' Hx H].
  - apply (enqueue_ok _ _ _ _ _ _ _ Hl) in H as [_ H]. eauto.
  - exists a, c. by apply replay_ok.
  - exists a, c. destruct Hl as [Ht Ho Hs' Hq Hfr Hb Hr Hst Hn Ha Happ].
    split; simpl; try done; auto.
  - exists a, c. by eapply deliver_ok.
  - exists a, (S c). by eapply apply_next_ok.
  - exists a, c. unfold acknowledged. rewrite (lk_receiver _ _ _ _ Hl). cbn [r_committed].
    destruct Hl as [Ht Ho Hs' Hq Hfr Hb Hr Hst Hn Ha Happ]. split; simpl; try done.
    intros y [->|Hy]%elem_of_cons; [lia|auto].
  - eapply acknowledge_ok in H as [a' H]; eauto.
Qed.

Lemma link_new_ok e : token e 32 = true → link_ok e 0 0 (link_new e).
Proof.
  intros He. split; simpl; try done. intros x ?%elem_of_nil. done.
Qed.

Lemma link_reachable_ok e l : token e 32 = true → link_reachable e l → ∃ a c, link_ok e a c l.
Proof.
  intros He H. assert (∃ a c, link_ok e a c (link_new e)) as Hinit by eauto using link_new_ok.
  revert Hinit. unfold link_reachable in H. induction H as [|x y z Hxy _ IH]; [done|].
  intros (a & c & Hx). eapply IH. by eapply link_step_ok.
Qed.

(** One more frame can always be replayed, delivered and applied. *)
Lemma link_progress e a c l p :
  link_ok e a c l → l_sent l !! c = Some p →
  ∃ l', rtc link_step l l' ∧ link_ok e a (S c) l' ∧ l_sent l' = l_sent l.
Proof.
  intros Hl Hp. pose proof (lk_order _ _ _ _ Hl) as Hord. pose proof (lookup_lt_Some _ _ _ Hp).
  set (f := mkFrame e (Z.of_nat c + 1) p).
  assert (f ∈ replay (l_sender l)) as Hf.
  { unfold replay. rewrite (lk_sender _ _ _ _ Hl). simpl. apply frames_elem.
    exists (c - a)%nat, p. rewrite lookup_drop. replace (a + (c - a))%nat with c by lia.
    split; [done|]. unfold f. f_equal. lia. }
  pose proof (replay_ok _ _ _ _ _ Hl Hf) as Hl1. set (l1 := mkLink _ _ _ _ _ _) in Hl1.
  destruct (stage_genuine e a c l1 f Hl1) as (b & r1 & Hst & He & Hc & Hb & _ & Hin & _).
  { apply (lk_net _ _ _ _ Hl1). left. }
  assert (f ∈ l_net l1) as Hnet by left.
  pose proof (deliver_ok _ _ _ _ _ _ _ Hl1 Hnet Hst) as Hl2. set (l2 := mkLink _ _ _ _ _ _) in Hl2.
  assert (next (l_receiver l2) = Some f) as Hnext.
  { unfold next. simpl. rewrite Hc. pose proof (lk_sequence _ _ _ _ Hl) as Hq.
    unfold MAX_SEQUENCE in Hq. rewrite Z.min_r by (unfold U64_MAX; lia). apply Hin. simpl. lia. }
  destruct (commit_next _ _ _ _ _ Hl2 Hnext) as (r2 & Hcom & _).
  pose proof (apply_next_ok _ _ _ _ _ _ Hl2 Hnext Hcom) as Hl3.
  eexists. split; [|split; [exact Hl3|done]].
  eapply rtc_l; [by apply link_replay|]. eapply rtc_l; [by eapply (link_deliver l1)|].
  apply rtc_once. by apply (link_apply l2).
Qed.

Lemma link_completes e a c l :
  link_ok e a c l → ∃ l', rtc link_step l l' ∧ l_sent l' = l_sent l ∧ l_applied l' = l_sent l.
Proof.
  remember (length (l_sent l) - c)%nat as n eqn:En. revert c l En.
  induction n as [|n IH]; intros c l En Hl; pose proof (lk_order _ _ _ _ Hl).
  - exists l. split; [done|]. split; [done|].
    rewrite (lk_applied _ _ _ _ Hl). apply take_ge. lia.
  - destruct (lookup_lt_is_Some_2 (l_sent l) c) as [p Hp]; [lia|].
    destruct (link_progress e a c l p Hl Hp) as (l1 & Hs1 & Hl1 & E1).
    destruct (IH (S c) l1) as (l2 & Hs2 & E2 & E3); [rewrite E1; lia|done|].
    exists l2. split; [by etrans|]. split; congruence.
Qed.

(** ** Properties *)

(** C2. Over carriers that lose, duplicate, delay and reorder frames and
    acknowledgements, the terminal applies exactly the payloads that were enqueued, in
    order, without gaps and without repetition: what was applied is always a prefix of
    what was enqueued. *)
Theorem exactly_once_in_order e l :
  token e 32 = true → link_reachable e l → l_applied l `prefix_of` l_sent l.
Proof.
  intros He (a & c & Hl)%link_reachable_ok; [|done]. rewrite (lk_applied _ _ _ _ Hl).
  apply prefix_take.
Qed.

(** The two journals fit each other: a frame the sender produced, on whatever
    carrier and however late it arrives, is never refused by the receiver (no window,
    capacity or conflict error), and what is staged stays within 64 KiB and 256 frames. *)
Theorem stage_never_refuses e l f :
  token e 32 = true → link_reachable e l → f ∈ l_net l →
  (∃ b, (stage (l_receiver l) f).1 = Ok b) ∧
  r_bytes (l_receiver l) ≤ MAX_BYTES ∧ Z.of_nat (size (r_pending (l_receiver l))) ≤ MAX_FRAMES.
Proof.
  intros He (a & c & Hl)%link_reachable_ok Hf; [|done]. split.
  - destruct (stage_genuine e a c l f Hl) as (b & r' & -> & _); [|by exists b].
    by apply (lk_net _ _ _ _ Hl).
  - pose proof (lk_order _ _ _ _ Hl).
    pose proof (held_subseteq _ _ (lk_staged _ _ _ _ Hl)) as Hh. rewrite held_frames in Hh.
    pose proof (map_subseteq_size _ _ (lk_staged _ _ _ _ Hl)) as Hs. rewrite size_frames in Hs.
    pose proof (total_drop a c (l_sent l) ltac:(lia)). pose proof (lk_bytes _ _ _ _ Hl).
    pose proof (lk_frames _ _ _ _ Hl) as Hf'. rewrite (lk_receiver _ _ _ _ Hl).
    rewrite length_drop in *. simpl in *. split; lia.
Qed.

(** C14. Nothing is lost for good: from every reachable state, replaying the sender's
    unacknowledged frames brings the receiver up to date, so that everything enqueued
    has been applied. *)
Theorem replay_completes e l :
  token e 32 = true → link_reachable e l →
  ∃ l', rtc link_step l l' ∧ l_sent l' = l_sent l ∧ l_applied l' = l_sent l.
Proof. intros He (a & c & Hl)%link_reachable_ok; [|done]. by eapply link_completes. Qed.

(** The binary envelope is a bijection between well-formed messages and accepted
    byte strings: every message encodes within the wire limit and parses back to itself,
    and every accepted byte string is the encoding of the message it parses to. *)
Theorem wire_roundtrip m bytes :
  (message_ok m → ∃ bs, message_encode m = Ok bs ∧ len bs ≤ MAX_WIRE ∧ message_parse bs = Ok m) ∧
  (bytes_ok bytes → message_parse bytes = Ok m → message_encode m = Ok bytes).
Proof.
  split.
  - intros (bs & H1 & _ & H2 & H3)%message_encode_parse. eauto.
  - intros Hb H. by apply message_parse_encode in H as [_ ?].
Qed.

Definition sample_epoch : string := "0123456789abcdef0123456789abcdef".
Definition sample_link : link :=
  let '(_, s) := enqueue (l_sender (link_new sample_epoch)) [104; 105] in
  mkLink s (mkReceiver sample_epoch 0 ∅ 0) [mkFrame sample_epoch 1 [104; 105]] [] [[104; 105]] [].

Lemma sample_link_reachable : link_reachable sample_epoch sample_link.
Proof. apply rtc_once. by apply (link_enqueue (link_new sample_epoch) [104; 105]). Qed.

Lemma exactly_once_in_order_witness :
  link_reachable sample_epoch sample_link ∧ l_applied sample_link `prefix_of` l_sent sample_link.
Proof.
  split; [exact sample_link_reachable|].
  apply (exactly_once_in_order sample_epoch sample_link); [reflexivity|exact sample_link_reachable].
Defined.

Lemma stage_never_refuses_witness :
  (∃ b, (stage (l_receiver sample_link) (mkFrame sample_epoch 1 [104; 105])).1 = Ok b) ∧
  r_bytes (l_receiver sample_link) ≤ MAX_BYTES ∧
  Z.of_nat (size (r_pending (l_receiver sample_link))) ≤ MAX_FRAMES.
Proof.
  apply (stage_never_refuses sample_epoch sample_link).
  - reflexivity.
  - exact sample_link_reachable.
  - left.
Defined.

Lemma replay_completes_witness :
  ∃ l', rtc link_step sample_link l' ∧ l_sent l' = [[104; 105]] ∧ l_applied l' = [[104; 105]].
Proof.
  apply (replay_completes sample_epoch sample_link); [reflexivity|exact sample_link_reachable].
Defined.

Lemma wire_roundtrip_witness :
  ∃ bs, message_encode (Ack sample_epoch 7) = Ok bs ∧
    ((message_ok (Ack sample_epoch 7) →
        ∃ bs, message_encode (Ack sample_epoch 7) = Ok bs ∧ len bs ≤ MAX_WIRE ∧
              message_parse bs = Ok (Ack sample_epoch 7)) ∧
     (bytes_ok bs → message_parse bs = Ok (Ack sample_epoch 7) →
        message_encode (Ack sample_epoch 7) = Ok bs)).
Proof.
  eexists. split; [vm_compute; reflexivity|]. exact (wire_roundtrip (Ack sample_epoch 7) _).
Defined.
