(* ===== verification/TermProtocol.v ===== *)
(** * The terminal protocol ([porthub-terminal/src/protocol.rs])

    The messages between host, gateway and viewers and the validators the gateway runs on
    them.  The libraries the code calls are the class [TermLibs]: SHA-256, the standard
    Base64 alphabet and the JSON object of a session description.  Times are seconds as
    [i64]; the sums with [604_800] do not overflow.  The last part shows that the Base64
    envelope of a delivery packet and of terminal data is lossless for what the two ends
    are allowed to send. *)

From S2P Require Import Prelude Net RustStr Delivery.
Local Open Scope string_scope.
Local Open Scope list_scope.
Local Open Scope Z_scope.

Class TermLibs := {
  sha256 : list Z → list Z;
  base64_encode : list Z → string;
  base64_decode : string → option (list Z);
  (** The ["type"] and ["sdp"] of a JSON object with exactly these fields. *)
  json_description : string → option (string * string);
}.

(** What the code relies on: the digest is 32 bytes, Base64 is the standard encoding
    (four characters for three bytes) and decoding reads it back. *)
Class TermLibsOk (L : TermLibs) : Prop := {
  sha256_bytes : ∀ l, length (sha256 l) = 32%nat ∧ bytes_ok (sha256 l);
  base64_length : ∀ l, slen (base64_encode l) = (len l + 2) / 3 * 4;
  base64_roundtrip : ∀ l, bytes_ok l → base64_decode (base64_encode l) = Some l;
  base64_decode_bytes : ∀ s l, base64_decode s = Some l → bytes_ok l;
}.

Definition MAX_DATA : Z := 16 * 1024.
Definition MAX_VIEWERS : Z := 32.
Definition DEFAULT_HISTORY : Z := 100000.
Definition I64_MAX : Z := 2 ^ 63 - 1.

Section digest.
Context `{L : TermLibs}.

Definition digest (value : string) : string := show_epoch (sha256 (bytes_of value)).
End digest.

(** ** Session options *)

Inductive Access := Ssh | Web | Both.
Inductive SizePolicy := Smallest | Largest | Latest.

#[global] Instance Access_eq_dec : EqDecision Access.
Proof. solve_decision. Defined.
#[global] Instance SizePolicy_eq_dec : EqDecision SizePolicy.
Proof. solve_decision. Defined.

Record Options := mkOptions {
  o_name : string;
  o_expires_at : Z;
  o_session_expires_at : option Z;
  o_idle_timeout : Z;
  o_reconnect_timeout : Z;
  o_history_limit : Z;
  o_mouse : bool;
  o_read_only : bool;
  o_size_policy : SizePolicy;
  o_access : Access;
  o_max_viewers : Z;
}.

#[global] Instance Options_eq_dec : EqDecision Options.
Proof. solve_decision. Defined.

Definition name_char (b : Z) : bool :=
  is_ascii_alphanumeric b || bool_decide (b ∈ [32; 46; 95; 45]).

(** [Options::validate] *)
Definition validate_options (o : Options) (now : Z) : res unit :=
  ensure! negb (str_is_empty (o_name o)) && (slen (o_name o) <=? 64)
          && all_bytes name_char (o_name o)
    else "session name must be 1–64 letters, numbers, spaces, dots, underscores or hyphens" in
  ensure! (o_expires_at o =? 0) || (0 <? o_expires_at o) && (o_expires_at o <=? now + 604800)
    else "invitation expiry must be zero or within seven days" in
  ensure! match o_session_expires_at o with
          | None => true
          | Some at_ => (0 <? at_) && (at_ <=? now + 604800)
          end else "session timeout must be within seven days" in
  ensure! (10 <=? o_reconnect_timeout o) && (o_reconnect_timeout o <=? 300)
    else "reconnect timeout must be 10–300 seconds" in
  ensure! (o_idle_timeout o =? 0) || (60 <=? o_idle_timeout o) && (o_idle_timeout o <=? 86400)
    else "idle timeout must be zero or 60–86400 seconds" in
  ensure! (1000 <=? o_history_limit o) && (o_history_limit o <=? 200000)
    else "history limit must be 1000–200000 lines" in
  ensure! (1 <=? o_max_viewers o) && (o_max_viewers o <=? 32)
    else "participant limit must be 1–32" in
  Ok tt.

Record HostHello := mkHostHello {
  hh_direct_transport : bool;
  hh_history_snapshots : bool;
  hh_id : string;
  hh_secret : string;
  hh_write_token : string;
  hh_read_token : string;
  hh_options : Options;
}.

(** [HostHello::validate] *)
Definition validate_hello (h : HostHello) (now : Z) : res unit :=
  ensure! token (hh_id h) 32 && token (hh_secret h) 64 && token (hh_write_token h) 64
          && token (hh_read_token h) 64 else "invalid terminal session identity" in
  ensure! negb (bool_decide (hh_secret h = hh_write_token h))
          && negb (bool_decide (hh_secret h = hh_read_token h))
          && negb (bool_decide (hh_write_token h = hh_read_token h))
    else "terminal capabilities must be distinct" in
  validate_options (hh_options h) now.

Record Participant := mkParticipant {
  p_id : Z; p_read_only : bool; p_joined_at : Z; p_last_active_at : Z;
}.

(** ** Invitations *)

Record PersistedInvitations := mkPersisted {
  pi_revision : Z; pi_write_hash : string; pi_read_hash : string; pi_expires_at : Z;
  pi_revoked : bool;
}.

Definition validate_persisted (p : PersistedInvitations) : res unit :=
  ensure! (pi_revision p <=? I64_MAX) && token (pi_write_hash p) 64 && token (pi_read_hash p) 64
          && negb (bool_decide (pi_write_hash p = pi_read_hash p)) && (0 <=? pi_expires_at p)
    else "invalid persisted invitation state" in
  Ok tt.

Record InvitationUpdate := mkUpdate {
  iu_revision : Z; iu_write_token : string; iu_read_token : string; iu_expires_at : Z;
}.

Definition validate_update (u : InvitationUpdate) (at_ : Z) : res unit :=
  ensure! (0 <? iu_revision u) && (iu_revision u <=? I64_MAX) else "invalid invitation revision" in
  ensure! token (iu_write_token u) 64 && token (iu_read_token u) 64
          && negb (bool_decide (iu_write_token u = iu_read_token u))
    else "invalid replacement invitation capabilities" in
  ensure! (0 <=? iu_expires_at u) && (iu_expires_at u <=? at_ + 604800)
    else "replacement invitation expiry must be within seven days" in
  Ok tt.

(** ** History and screen size *)

Record HistoryChunk := mkHistoryChunk {
  hc_snapshot : option string;
  hc_request : Z;
  hc_pane : option string;
  hc_data : string;
  hc_done : bool;
  hc_total : Z;
  hc_before : Z;
  hc_lines : Z;
  hc_truncated : bool;
  hc_error : option string;
}.

Definition pane_ok (pane : string) : bool :=
  str_is_empty pane
  || (slen pane <=? 20) && str_starts_with "%" pane && (1 <? slen pane)
     && match pane with
        | String _ rest => all_bytes is_ascii_digit rest
        | EmptyString => true
        end.

Definition history_request (pane : string) (before lines : Z) : res unit :=
  ensure! pane_ok pane else "invalid history pane" in
  ensure! (before <=? 200000) && (1 <=? lines) && (lines <=? 512)
    else "history slice exceeds limits" in
  Ok tt.

Definition dimensions (cols rows : Z) : res unit :=
  ensure! (20 <=? cols) && (cols <=? 500) && (5 <=? rows) && (rows <=? 200)
    else "terminal size must be 20–500 columns and 5–200 rows" in
  Ok tt.

(** ** Payloads *)

Section payloads.
Context `{L : TermLibs}.

Definition decode_data (data : string) : res (list Z) :=
  ensure! slen data <=? MAX_DATA * 4 / 3 + 4 else "terminal frame exceeds size limit" in
  let! bytes := ok_or (base64_decode data) "DecodeError" in
  ensure! len bytes <=? MAX_DATA else "terminal frame exceeds size limit" in
  Ok bytes.

Definition encode_data (bytes : list Z) : string := base64_encode bytes.

(** [HistoryChunk::validate] *)
Definition validate_chunk (c : HistoryChunk) : res unit :=
  ensure! match hc_snapshot c with
          | None => true
          | Some s => token s 32 && bool_decide (is_Some (hc_pane c))
          end else "invalid anchored history response" in
  let! _ :=
    match hc_pane c with
    | None => Ok tt
    | Some pane =>
        ensure! negb (str_is_empty pane) else "invalid resolved history pane" in
        history_request pane (hc_before c) (Z.max (hc_lines c) 1)
    end in
  ensure! (hc_total c <=? 200000) && (hc_before c <=? 200000) && (hc_lines c <=? 512)
          && match hc_error c with None => true | Some e => slen e <=? 256 end
    else "invalid history response" in
  let! _ := decode_data (hc_data c) in
  Ok tt.

(** [DirectDescription::validate] *)
Definition validate_description (description : string) (kind : string) : res unit :=
  ensure! slen description <=? 16384 else "terminal direct description exceeds limit" in
  let! '(type_, sdp) := ok_or (json_description description) "invalid terminal direct description" in
  ensure! bool_decide (type_ = kind) else "unexpected terminal direct description type" in
  ensure! all_bytes (λ b, b <? 128) sdp && negb (str_contains (ascii_of_N 0) sdp)
    else "invalid terminal direct SDP" in
  let lines := str_lines sdp in
  ensure! (len lines <=? 256)
          && (len (filter (λ l, str_starts_with "a=candidate:" l = true) lines) <=? 64)
    else "terminal direct SDP exceeds limits" in
  let media := filter (λ l, str_starts_with "m=" l = true) lines in
  ensure! match media with [m] => str_starts_with "m=application " m | _ => false end
    else "terminal direct SDP must contain one application section" in
  Ok tt.

Record DirectAnswer := mkDirectAnswer {
  da_request : Z; da_description : string; da_input_epoch : string; da_output_epoch : string;
}.

Definition validate_answer (a : DirectAnswer) : res unit :=
  let! _ := validate_description (da_description a) "answer" in
  ensure! token (da_input_epoch a) 32 && token (da_output_epoch a) 32
          && negb (bool_decide (da_input_epoch a = da_output_epoch a))
    else "invalid terminal direct epochs" in
  Ok tt.

(** [DeliveryPacket::encode] and [DeliveryPacket::decode] *)
Definition packet_encode (m : Message) : res string :=
  let! bytes := message_encode m in Ok (base64_encode bytes).

Definition packet_decode (packet : string) : res Message :=
  ensure! slen packet <=? (MAX_WIRE + 2) / 3 * 4 else "terminal delivery envelope exceeds limit" in
  let! bytes := ok_or (base64_decode packet) "invalid terminal delivery encoding" in
  message_parse bytes.
End payloads.

(** ** Messages *)

Inductive HostEvent :=
| HeDelivery (client : Z) (packet : string)
| HeDirectOffer (client request : Z) (description : string)
| HeInvitationsRotated (revision expires_at : Z) (invitations_revoked : bool)
| HeRedraw (client : Z)
| HeInvitationsRevoked
| HeHistory (freeze : bool) (snapshot : option string) (client request : Z) (pane : string)
    (before lines : Z)
| HeReady (direct_transport history_snapshots invitations_revoked : bool) (ssh_host : string)
    (ssh_port : Z) (public_base : string)
| HeAttach (client : Z) (read_only : bool) (cols rows : Z) (term : string)
| HeInput (client : Z) (data : string)
| HeResize (client cols rows : Z)
| HeDetach (client : Z)
| HeStop (reason : string)
| HeReconnect (reason : string)
| HePresence (members : list Participant)
| HePing.

Inductive HostOutput :=
| HoDelivery (client : Z) (packet : string)
| HoDirectAnswer (client : Z) (answer : DirectAnswer)
| HoDirectUnavailable (client request : Z)
| HoRotateInvitations (update : InvitationUpdate)
| HoRevokeInvitations
| HoHistory (client : Z) (page : HistoryChunk)
| HoKick (client : Z)
| HoOutput (client : Z) (data : string)
| HoClosed (client : Z)
| HoEnd
| HoPong
| HoActivity.

Inductive ViewerEvent :=
| VeDelivery (packet : string)
| VeDirectAnswer (answer : DirectAnswer)
| VeDirectUnavailable (request : Z)
| VeHistory (page : HistoryChunk)
| VeRecovery (session token : string) (participant reconnect_timeout : Z)
| VeWelcome (direct_transport history_snapshots : bool) (name : string) (read_only : bool)
    (expires_at participants : Z)
| VeOutput (data : string)
| VePresence (participants : Z) (members : list Participant)
| VeClosed (reason : string) (retryable : bool)
| VePing.

Inductive ViewerInput :=
| ViDelivery (packet : string)
| ViDirectOffer (request : Z) (description : string)
| ViRedraw
| ViHistory (freeze : bool) (snapshot : option string) (request : Z) (pane : string)
    (before lines : Z)
| ViInput (data : string)
| ViResize (cols rows : Z)
| ViPong.

(** ** A model of the libraries

    [Base64] is the standard alphabet with padding; it shows that the laws of [TermLibsOk]
    can be met. *)

Module Base64.
Definition alphabet : string := "ABCDEFGHIJKLMNOPQRSTUVWXYZabcdefghijklmnopqrstuvwxyz0123456789+/".
Definition pad : ascii := "=".
Definition char (v : Z) : ascii := default pad (String.get (Z.to_nat v) alphabet).

Fixpoint index (c : ascii) (s : string) (n : Z) : option Z :=
  match s with
  | EmptyString => None
  | String d s => if decide (c = d) then Some n else index c s (n + 1)
  end.
Definition value (c : ascii) : option Z := index c alphabet 0.

Fixpoint encode (l : list Z) : string :=
  match l with
  | a :: b :: c :: r =>
      String (char (a / 4)) (String (char (a mod 4 * 16 + b / 16))
        (String (char (b mod 16 * 4 + c / 64)) (String (char (c mod 64)) (encode r))))
  | [a; b] => String (char (a / 4)) (String (char (a mod 4 * 16 + b / 16))
                (String (char (b mod 16 * 4)) (String pad "")))
  | [a] => String (char (a / 4)) (String (char (a mod 4 * 16)) (String pad (String pad "")))
  | [] => ""
  end.

(** The bytes of one group of four characters; the last group may be padded. *)
Definition group (c1 c2 c3 c4 : ascii) (last : bool) : option (list Z) :=
  match value c1, value c2 with
  | Some x, Some y =>
      let a := x * 4 + y / 16 in
      match value c3, value c4 with
      | Some z, Some t => Some [a; y mod 16 * 16 + z / 4; z mod 4 * 64 + t]
      | Some z, None => if decide (c4 = pad ∧ last = true ∧ z mod 4 = 0)
                        then Some [a; y mod 16 * 16 + z / 4] else None
      | None, _ => if decide (c3 = pad ∧ c4 = pad ∧ last = true ∧ y mod 16 = 0) then Some [a] else None
      end
  | _, _ => None
  end.

Fixpoint decode (s : string) : option (list Z) :=
  match s with
  | EmptyString => Some []
  | String c1 (String c2 (String c3 (String c4 r))) =>
      match group c1 c2 c3 c4 (bool_decide (r = EmptyString)), decode r with
      | Some g, Some l => Some (g ++ l)
      | _, _ => None
      end
  | _ => None
  end.

Lemma value_char v : 0 ≤ v < 64 → value (char v) = Some v.
Proof.
  intros Hv. assert (H : Forall (λ v, value (char v) = Some v) (map Z.of_nat (seq 0 64))).
  { apply (bool_decide_unpack _). vm_compute. exact I. }
  rewrite Forall_forall in H. apply H, list_elem_of_fmap. exists (Z.to_nat v).
  split; [lia|]. apply elem_of_seq. lia.
Qed.

Lemma value_pad : value pad = None.
Proof. reflexivity. Qed.

Lemma value_range c v : value c = Some v → 0 ≤ v < 64.
Proof.
  unfold value. intros Hv.
  assert (H : ∀ s n, index c s n = Some v → n ≤ v < n + slen s).
  { unfold slen. induction s as [|d s IH]; simpl; [done|]. intros n. case_decide.
    - intros [= <-]. lia.
    - intros Hi%IH. lia. }
  apply H in Hv. exact Hv.
Qed.

(** Induction three bytes at a time. *)
Lemma list_ind3 (P : list Z → Prop) :
  P [] → (∀ a, P [a]) → (∀ a b, P [a; b]) → (∀ a b c r, P r → P (a :: b :: c :: r)) → ∀ l, P l.
Proof.
  intros H0 H1 H2 H3. fix IH 1. intros [|a [|b [|c r]]]; [done|apply H1|apply H2|apply H3, IH].
Qed.

Lemma encode_length l : slen (encode l) = (len l + 2) / 3 * 4.
Proof.
  induction l as [|a|a b|a b c r IH] using list_ind3; [done..|].
  unfold slen in *. cbn [encode String.length length]. rewrite !Nat2Z.inj_succ, IH. zlia.
Qed.

Lemma decode_encode64 l : bytes_ok l → decode (encode l) = Some l.
Proof.
  induction l as [|a|a b|a b c r IH] using list_ind3; intros Hl; cbn [encode decode]; [done|..];
    unfold bytes_ok, u8 in *; repeat match goal with H : Forall _ (_ :: _) |- _ => inversion_clear H end.
  - unfold group. rewrite !value_char by zlia. rewrite value_pad. cbv beta iota zeta. case_decide as Hd; [|destruct Hd; split_and!; try done; by rewrite Z.mod_mul]. clear Hd. rewrite ?Z.div_mul by done.
    simpl. do 2 f_equal. zlia.
  - unfold group. rewrite !value_char by zlia. rewrite value_pad. cbv beta iota zeta. case_decide as Hd; [|destruct Hd; split_and!; try done; by rewrite Z.mod_mul]. clear Hd. rewrite ?Z.div_mul by done.
    simpl. do 2 f_equal; [zlia|f_equal; zlia].
  - unfold group. rewrite !value_char, IH by (done || zlia). simpl. do 2 f_equal; [zlia|f_equal; [zlia|f_equal; zlia]].
Qed.

Lemma group_bytes c1 c2 c3 c4 b g : group c1 c2 c3 c4 b = Some g → bytes_ok g.
Proof.
  unfold group.
  destruct (value c1) as [x|] eqn:E1; [|done]. destruct (value c2) as [y|] eqn:E2; [|done].
  apply value_range in E1, E2.
  destruct (value c3) as [z|] eqn:E3; [apply value_range in E3; destruct (value c4) as [t|] eqn:E4;
    [apply value_range in E4|]|]; repeat case_decide; intros [= <-];
    repeat constructor; unfold u8; zlia.
Qed.

Lemma decode_bytes s l : decode s = Some l → bytes_ok l.
Proof.
  revert l. induction s as [s IH] using (induction_ltof1 _ String.length).
  intros l. destruct s as [|c1 [|c2 [|c3 [|c4 r]]]]; cbn [decode]; try done; [by intros [= <-]; constructor|].
  destruct (group _ _ _ _ _) as [g|] eqn:Eg; [|done]. destruct (decode r) as [k|] eqn:Er; [|done].
  intros [= <-]. apply bytes_ok_app. split; [by eapply group_bytes|].
  eapply (IH r); [unfold ltof; simpl; lia|done].
Qed.
End Base64.

(** A concrete choice of the libraries. *)
#[global] Instance sample_libs : TermLibs := {
  sha256 l := replicate 24 0 ++ to_be 8 (foldl (λ h b, h * 257 + b) 1 l);
  base64_encode := Base64.encode;
  base64_decode := Base64.decode;
  json_description _ := None;
}.

#[global] Instance sample_libs_ok : TermLibsOk sample_libs.
Proof.
  split.
  - intros l. cbn [sha256 sample_libs].
    rewrite length_app, length_replicate, length_to_be. split; [done|].
    apply bytes_ok_app. split; [by apply (bool_decide_unpack _)|apply to_be_ok].
  - apply Base64.encode_length.
  - apply Base64.decode_encode64.
  - apply Base64.decode_bytes.
Qed.

Section payloads.
Context `{L : TermLibs} `{!TermLibsOk L}.

(** The delivery envelope is lossless: every message the two ends may send is encoded
    into a packet that passes the size limit of [DeliveryPacket::decode] and decodes to the
    same message; and what the gateway accepts as a packet is a well-formed message. *)
Theorem packet_roundtrip m :
  message_ok m →
  (∃ packet, packet_encode m = Ok packet ∧ packet_decode packet = Ok m)
  ∧ ∀ packet m', packet_decode packet = Ok m' → message_ok m'.
Proof.
  intros Hm. split.
  - destruct (message_encode_parse m Hm) as (bytes & He & Hb & Hl & Hp).
    exists (base64_encode bytes). unfold packet_encode, packet_decode. rewrite He. split; [done|].
    rewrite ensure_true; [|apply Z.leb_le; rewrite base64_length; apply Z.mul_le_mono_nonneg_r; [done|];
      apply Z.div_le_mono; lia].
    simpl. rewrite base64_roundtrip by done. exact Hp.
  - intros packet m' Hd. unfold packet_decode in Hd. res_inv.
    eapply message_parse_encode; [|done]. by eapply base64_decode_bytes.
Qed.

(** Terminal data of at most [MAX_DATA] bytes survives the Base64 envelope. *)
Lemma data_roundtrip bytes :
  bytes_ok bytes → len bytes ≤ MAX_DATA → decode_data (encode_data bytes) = Ok bytes.
Proof.
  intros Hb Hl. unfold decode_data, encode_data.
  rewrite ensure_true; [|rewrite base64_length; unfold MAX_DATA in *; apply Z.leb_le; zlia].
  simpl. rewrite base64_roundtrip by done. simpl. by rewrite ensure_true by lia.
Qed.
End payloads.

Lemma packet_roundtrip_witness :
  ∃ packet, packet_encode (Ack "00000000000000000000000000000001" 7) = Ok packet
    ∧ packet_decode packet = Ok (Ack "00000000000000000000000000000001" 7).
Proof. apply (packet_roundtrip (Ack "00000000000000000000000000000001" 7)). split; [reflexivity|done]. Defined.
