(* ===== verification/Hub.v ===== *)
(** * The terminal hub ([porthub-terminal/src/hub.rs], [hub_queue.rs])

    Routing of shared terminal sessions.  The [Arc<Shared>] objects, the host channels and
    the viewer queues live in one store, the [World], under fresh handles, because leases
    and attachments keep using a session after the hub has dropped it.  Every public method
    runs under the mutexes it takes, so it is one step on the store; a method returns its
    result with the store after the call, also when it returns early with an error.

    The arguments [at_] and [clock] are the readings of [now()] (seconds) and of
    [Instant::now()] (nanoseconds) in the call; [pid] is the number [participant_id] draws.
    A [HashMap] is visited in the order of [map_to_list].  What the allocator and the
    compiler decide ([String::capacity], [size_of]) is the class [HubEnv]. *)

From S2P Require Import Prelude Net RustStr Delivery TermProtocol.
Local Open Scope string_scope.
Local Open Scope list_scope.
Local Open Scope Z_scope.

(** ** State *)

Record Viewer := mkViewer {
  v_identity : Z;
  v_direct_epochs : option (string * string);
  v_direct_pending : option Z;
  v_direct_started : option Z;
  v_direct_last : option Z;
  v_history_pending : option Z;
  v_history_anchor : option (option string);
  v_history_started : option Z;
  v_last_redraw : option Z;
  v_joined_at : Z;
  v_last_active_at : Z;
  v_activity_published_at : Z;
  v_read_only : bool;
  v_cols : Z;
  v_rows : Z;
  v_term : string;
  v_events : Z;
}.

Record State := mkState {
  direct_transport : bool;
  history_snapshots : bool;
  host : option Z;
  generation : Z;
  offline_at : option Z;
  activity : Z;
  next_client : Z;
  viewers : gmap Z Viewer;
  close_event : option HostEvent;
  invitations_revoked : bool;
  invitation_revision : Z;
  invitation_expires_at : Z;
  invitation_write_hash : string;
  invitation_read_hash : string;
}.

Record Shared := mkShared {
  sh_id : string;
  sh_owner : string;
  sh_options : Options;
  sh_stop : bool;
  sh_secret_hash : string;
  sh_state : State;
}.

(** A host channel and a viewer queue: what is queued, whether the receiver is gone, and
    the bytes left of the queue's quota. *)
Record HChan := mkHChan { hch_queue : list HostEvent; hch_closed : bool }.
Record VChan := mkVChan { vch_queue : list ViewerEvent; vch_closed : bool; vch_quota : Z }.

Record World := mkWorld {
  w_shared : gmap Z Shared;
  w_sessions : gmap string Z;
  w_tokens : gmap string (string * bool);
  w_hosts : gmap Z HChan;
  w_viewers : gmap Z VChan;
  w_next : Z;
  w_admitted : Z;
}.

(** [Hub::default()]: no sessions; the admission semaphore has 192 permits. *)
Definition world_new : World := mkWorld ∅ ∅ ∅ ∅ ∅ 0 0.

Definition set_v_direct_epochs (v : option (string * string)) (x : Viewer) : Viewer :=
  mkViewer (v_identity x) v (v_direct_pending x) (v_direct_started x) (v_direct_last x)
    (v_history_pending x) (v_history_anchor x) (v_history_started x) (v_last_redraw x)
    (v_joined_at x) (v_last_active_at x) (v_activity_published_at x) (v_read_only x) (v_cols
    x) (v_rows x) (v_term x) (v_events x).
Definition set_v_direct_pending (v : option Z) (x : Viewer) : Viewer :=
  mkViewer (v_identity x) (v_direct_epochs x) v (v_direct_started x) (v_direct_last x)
    (v_history_pending x) (v_history_anchor x) (v_history_started x) (v_last_redraw x)
    (v_joined_at x) (v_last_active_at x) (v_activity_published_at x) (v_read_only x) (v_cols
    x) (v_rows x) (v_term x) (v_events x).
Definition set_v_direct_started (v : option Z) (x : Viewer) : Viewer :=
  mkViewer (v_identity x) (v_direct_epochs x) (v_direct_pending x) v (v_direct_last x)
    (v_history_pending x) (v_history_anchor x) (v_history_started x) (v_last_redraw x)
    (v_joined_at x) (v_last_active_at x) (v_activity_published_at x) (v_read_only x) (v_cols
    x) (v_rows x) (v_term x) (v_events x).
Definition set_v_direct_last (v : option Z) (x : Viewer) : Viewer :=
  mkViewer (v_identity x) (v_direct_epochs x) (v_direct_pending x) (v_direct_started x) v
    (v_history_pending x) (v_history_anchor x) (v_history_started x) (v_last_redraw x)
    (v_joined_at x) (v_last_active_at x) (v_activity_published_at x) (v_read_only x) (v_cols
    x) (v_rows x) (v_term x) (v_events x).
Definition set_v_history_pending (v : option Z) (x : Viewer) : Viewer :=
  mkViewer (v_identity x) (v_direct_epochs x) (v_direct_pending x) (v_direct_started x)
    (v_direct_last x) v (v_history_anchor x) (v_history_started x) (v_last_redraw x)
    (v_joined_at x) (v_last_active_at x) (v_activity_published_at x) (v_read_only x) (v_cols
    x) (v_rows x) (v_term x) (v_events x).
Definition set_v_history_anchor (v : option (option string)) (x : Viewer) : Viewer :=
  mkViewer (v_identity x) (v_direct_epochs x) (v_direct_pending x) (v_direct_started x)
    (v_direct_last x) (v_history_pending x) v (v_history_started x) (v_last_redraw x)
    (v_joined_at x) (v_last_active_at x) (v_activity_published_at x) (v_read_only x) (v_cols
    x) (v_rows x) (v_term x) (v_events x).
Definition set_v_history_started (v : option Z) (x : Viewer) : Viewer :=
  mkViewer (v_identity x) (v_direct_epochs x) (v_direct_pending x) (v_direct_started x)
    (v_direct_last x) (v_history_pending x) (v_history_anchor x) v (v_last_redraw x)
    (v_joined_at x) (v_last_active_at x) (v_activity_published_at x) (v_read_only x) (v_cols
    x) (v_rows x) (v_term x) (v_events x).
Definition set_v_last_redraw (v : option Z) (x : Viewer) : Viewer :=
  mkViewer (v_identity x) (v_direct_epochs x) (v_direct_pending x) (v_direct_started x)
    (v_direct_last x) (v_history_pending x) (v_history_anchor x) (v_history_started x) v
    (v_joined_at x) (v_last_active_at x) (v_activity_published_at x) (v_read_only x) (v_cols
    x) (v_rows x) (v_term x) (v_events x).
Definition set_v_last_active_at (v : Z) (x : Viewer) : Viewer :=
  mkViewer (v_identity x) (v_direct_epochs x) (v_direct_pending x) (v_direct_started x)
    (v_direct_last x) (v_history_pending x) (v_history_anchor x) (v_history_started x)
    (v_last_redraw x) (v_joined_at x) v (v_activity_published_at x) (v_read_only x) (v_cols
    x) (v_rows x) (v_term x) (v_events x).
Definition set_v_activity_published_at (v : Z) (x : Viewer) : Viewer :=
  mkViewer (v_identity x) (v_direct_epochs x) (v_direct_pending x) (v_direct_started x)
    (v_direct_last x) (v_history_pending x) (v_history_anchor x) (v_history_started x)
    (v_last_redraw x) (v_joined_at x) (v_last_active_at x) v (v_read_only x) (v_cols x)
    (v_rows x) (v_term x) (v_events x).
Definition set_v_cols (v : Z) (x : Viewer) : Viewer :=
  mkViewer (v_identity x) (v_direct_epochs x) (v_direct_pending x) (v_direct_started x)
    (v_direct_last x) (v_history_pending x) (v_history_anchor x) (v_history_started x)
    (v_last_redraw x) (v_joined_at x) (v_last_active_at x) (v_activity_published_at x)
    (v_read_only x) v (v_rows x) (v_term x) (v_events x).
Definition set_v_rows (v : Z) (x : Viewer) : Viewer :=
  mkViewer (v_identity x) (v_direct_epochs x) (v_direct_pending x) (v_direct_started x)
    (v_direct_last x) (v_history_pending x) (v_history_anchor x) (v_history_started x)
    (v_last_redraw x) (v_joined_at x) (v_last_active_at x) (v_activity_published_at x)
    (v_read_only x) (v_cols x) v (v_term x) (v_events x).
Definition set_direct_transport (v : bool) (s : State) : State :=
  mkState v (history_snapshots s) (host s) (generation s) (offline_at s) (activity s)
    (next_client s) (viewers s) (close_event s) (invitations_revoked s) (invitation_revision
    s) (invitation_expires_at s) (invitation_write_hash s) (invitation_read_hash s).
Definition set_history_snapshots (v : bool) (s : State) : State :=
  mkState (direct_transport s) v (host s) (generation s) (offline_at s) (activity s)
    (next_client s) (viewers s) (close_event s) (invitations_revoked s) (invitation_revision
    s) (invitation_expires_at s) (invitation_write_hash s) (invitation_read_hash s).
Definition set_host (v : option Z) (s : State) : State :=
  mkState (direct_transport s) (history_snapshots s) v (generation s) (offline_at s)
    (activity s) (next_client s) (viewers s) (close_event s) (invitations_revoked s)
    (invitation_revision s) (invitation_expires_at s) (invitation_write_hash s)
    (invitation_read_hash s).
Definition set_generation (v : Z) (s : State) : State :=
  mkState (direct_transport s) (history_snapshots s) (host s) v (offline_at s) (activity s)
    (next_client s) (viewers s) (close_event s) (invitations_revoked s) (invitation_revision
    s) (invitation_expires_at s) (invitation_write_hash s) (invitation_read_hash s).
Definition set_offline_at (v : option Z) (s : State) : State :=
  mkState (direct_transport s) (history_snapshots s) (host s) (generation s) v (activity s)
    (next_client s) (viewers s) (close_event s) (invitations_revoked s) (invitation_revision
    s) (invitation_expires_at s) (invitation_write_hash s) (invitation_read_hash s).
Definition set_activity (v : Z) (s : State) : State :=
  mkState (direct_transport s) (history_snapshots s) (host s) (generation s) (offline_at s)
    v (next_client s) (viewers s) (close_event s) (invitations_revoked s)
    (invitation_revision s) (invitation_expires_at s) (invitation_write_hash s)
    (invitation_read_hash s).
Definition set_next_client (v : Z) (s : State) : State :=
  mkState (direct_transport s) (history_snapshots s) (host s) (generation s) (offline_at s)
    (activity s) v (viewers s) (close_event s) (invitations_revoked s) (invitation_revision
    s) (invitation_expires_at s) (invitation_write_hash s) (invitation_read_hash s).
Definition set_viewers (v : gmap Z Viewer) (s : State) : State :=
  mkState (direct_transport s) (history_snapshots s) (host s) (generation s) (offline_at s)
    (activity s) (next_client s) v (close_event s) (invitations_revoked s)
    (invitation_revision s) (invitation_expires_at s) (invitation_write_hash s)
    (invitation_read_hash s).
Definition set_close_event (v : option HostEvent) (s : State) : State :=
  mkState (direct_transport s) (history_snapshots s) (host s) (generation s) (offline_at s)
    (activity s) (next_client s) (viewers s) v (invitations_revoked s) (invitation_revision
    s) (invitation_expires_at s) (invitation_write_hash s) (invitation_read_hash s).
Definition set_invitations_revoked (v : bool) (s : State) : State :=
  mkState (direct_transport s) (history_snapshots s) (host s) (generation s) (offline_at s)
    (activity s) (next_client s) (viewers s) (close_event s) v (invitation_revision s)
    (invitation_expires_at s) (invitation_write_hash s) (invitation_read_hash s).
Definition set_invitation_revision (v : Z) (s : State) : State :=
  mkState (direct_transport s) (history_snapshots s) (host s) (generation s) (offline_at s)
    (activity s) (next_client s) (viewers s) (close_event s) (invitations_revoked s) v
    (invitation_expires_at s) (invitation_write_hash s) (invitation_read_hash s).
Definition set_invitation_expires_at (v : Z) (s : State) : State :=
  mkState (direct_transport s) (history_snapshots s) (host s) (generation s) (offline_at s)
    (activity s) (next_client s) (viewers s) (close_event s) (invitations_revoked s)
    (invitation_revision s) v (invitation_write_hash s) (invitation_read_hash s).
Definition set_invitation_write_hash (v : string) (s : State) : State :=
  mkState (direct_transport s) (history_snapshots s) (host s) (generation s) (offline_at s)
    (activity s) (next_client s) (viewers s) (close_event s) (invitations_revoked s)
    (invitation_revision s) (invitation_expires_at s) v (invitation_read_hash s).
Definition set_invitation_read_hash (v : string) (s : State) : State :=
  mkState (direct_transport s) (history_snapshots s) (host s) (generation s) (offline_at s)
    (activity s) (next_client s) (viewers s) (close_event s) (invitations_revoked s)
    (invitation_revision s) (invitation_expires_at s) (invitation_write_hash s) v.
Definition set_sh_stop (v : bool) (x : Shared) : Shared :=
  mkShared (sh_id x) (sh_owner x) (sh_options x) v (sh_secret_hash x) (sh_state x).
Definition set_sh_state (v : State) (x : Shared) : Shared :=
  mkShared (sh_id x) (sh_owner x) (sh_options x) (sh_stop x) (sh_secret_hash x) v.
Definition set_w_shared (v : gmap Z Shared) (w : World) : World :=
  mkWorld v (w_sessions w) (w_tokens w) (w_hosts w) (w_viewers w) (w_next w) (w_admitted w).
Definition set_w_sessions (v : gmap string Z) (w : World) : World :=
  mkWorld (w_shared w) v (w_tokens w) (w_hosts w) (w_viewers w) (w_next w) (w_admitted w).
Definition set_w_tokens (v : gmap string (string * bool)) (w : World) : World :=
  mkWorld (w_shared w) (w_sessions w) v (w_hosts w) (w_viewers w) (w_next w) (w_admitted w).
Definition set_w_hosts (v : gmap Z HChan) (w : World) : World :=
  mkWorld (w_shared w) (w_sessions w) (w_tokens w) v (w_viewers w) (w_next w) (w_admitted
    w).
Definition set_w_viewers (v : gmap Z VChan) (w : World) : World :=
  mkWorld (w_shared w) (w_sessions w) (w_tokens w) (w_hosts w) v (w_next w) (w_admitted w).
Definition set_w_next (v : Z) (w : World) : World :=
  mkWorld (w_shared w) (w_sessions w) (w_tokens w) (w_hosts w) (w_viewers w) v (w_admitted
    w).
Definition set_w_admitted (v : Z) (w : World) : World :=
  mkWorld (w_shared w) (w_sessions w) (w_tokens w) (w_hosts w) (w_viewers w) (w_next w) v.

(** ** Queues *)

Class HubEnv := {
  capacity : string → Z;
  members_capacity : list Participant → Z;
  size_of_queued : Z;
  size_of_participant : Z;
}.

Definition HOST_MESSAGES : Z := 128.
Definition MESSAGES : Z := MAX_FRAMES * 2 + 64.
Definition BYTES : Z := 1024 * 1024.

Section hub.
Context `{L : TermLibs} `{E : HubEnv}.

(** [hub_queue::charge] *)
Definition opt_capacity (o : option string) : Z := default 0 (capacity <$> o).
Definition charge (event : ViewerEvent) : Z :=
  let heap :=
    match event with
    | VeDelivery packet => capacity packet
    | VeDirectAnswer answer =>
        capacity (da_description answer) + capacity (da_input_epoch answer)
        + capacity (da_output_epoch answer)
    | VeHistory page =>
        capacity (hc_data page) + opt_capacity (hc_pane page) + opt_capacity (hc_snapshot page)
        + opt_capacity (hc_error page)
    | VeRecovery session token _ _ => capacity session + capacity token
    | VeWelcome _ _ name _ _ _ => capacity name
    | VeOutput data => capacity data
    | VePresence _ members => members_capacity members * size_of_participant
    | VeClosed reason _ => capacity reason
    | VeDirectUnavailable _ | VePing => 0
    end in
  Z.min U64_MAX (heap + (size_of_queued + 32)).

(** [hub_queue::channel] *)
Definition vchan_new : VChan := mkVChan [] false BYTES.

(** [hub_queue::Sender::try_send]: whether it succeeded, and the queue afterwards. *)
Definition vchan_send (c : VChan) (event : ViewerEvent) : bool * VChan :=
  if vch_closed c then (false, c) else
  let amount := Z.min (charge event) U32_MAX in
  if vch_quota c <? amount then (false, c) else
  if len (vch_queue c) <? MESSAGES
  then (true, mkVChan (vch_queue c ++ [event]) false (vch_quota c - amount))
  else (false, c).

(** [hub_queue::Receiver::try_recv]: the permit of the event is released. *)
Definition vchan_recv (c : VChan) : option ViewerEvent * VChan :=
  match vch_queue c with
  | [] => (None, c)
  | e :: q => (Some e, mkVChan q (vch_closed c) (vch_quota c + Z.min (charge e) U32_MAX))
  end.

(** [mpsc::Sender<HostEvent>::try_send] on a channel of 128 messages. *)
Definition hchan_send (c : HChan) (event : HostEvent) : bool * HChan :=
  if hch_closed c || (HOST_MESSAGES <=? len (hch_queue c)) then (false, c)
  else (true, mkHChan (hch_queue c ++ [event]) false).

(** ** The store *)

Definition fresh : M World Z := λ w, (Ok (w_next w), set_w_next (w_next w + 1) w).
Definition shared (sid : Z) : M World Shared := λ w, (unwrap (w_shared w !! sid), w).
Definition put_shared (sid : Z) (x : Shared) : M World unit :=
  modify (λ w, set_w_shared (<[sid := x]> (w_shared w)) w).
Definition get_state (sid : Z) : M World State := let* x := shared sid in mok (sh_state x).
Definition modify_state (sid : Z) (f : State → State) : M World unit :=
  let* x := shared sid in put_shared sid (set_sh_state (f (sh_state x)) x).

Definition send_host (ch : Z) (event : HostEvent) : M World bool := λ w,
  match w_hosts w !! ch with
  | None => (Ok false, w)
  | Some c => let '(b, c') := hchan_send c event in (Ok b, set_w_hosts (<[ch := c']> (w_hosts w)) w)
  end.
Definition send_viewer (ch : Z) (event : ViewerEvent) : M World bool := λ w,
  match w_viewers w !! ch with
  | None => (Ok false, w)
  | Some c => let '(b, c') := vchan_send c event in (Ok b, set_w_viewers (<[ch := c']> (w_viewers w)) w)
  end.

(** [let _ = host.try_send(..)] for the session's current host, if any. *)
Definition notify_host (sid : Z) (event : HostEvent) : M World unit :=
  let* s := get_state sid in
  match host s with
  | None => mok tt
  | Some ch => do* send_host ch event in mok tt
  end.

Fixpoint mfor {A} (l : list A) (f : A → M World unit) : M World unit :=
  match l with
  | [] => mok tt
  | x :: l => do* f x in mfor l f
  end.

(** Writing to a viewer through [get_mut] or [iter_mut]: an entry that is there. *)
Definition put_viewer (sid client : Z) (v : Viewer) : M World unit :=
  modify_state sid (λ s, set_viewers (alter (λ _, v) client (viewers s)) s).

(** ** Presence *)

Definition participant_of (v : Viewer) : Participant :=
  mkParticipant (v_identity v) (v_read_only v) (v_joined_at v) (v_last_active_at v).

(** [Shared::participant_list]; [sort_by_key] is a stable sort. *)
Definition members_of (s : State) : list Participant :=
  sort_by (λ a b, p_id a ?= p_id b) (map (λ x, participant_of x.2) (map_to_list (viewers s))).

Definition presence (sid : Z) : M World unit :=
  let* s := get_state sid in
  let members := members_of s in
  do* notify_host sid (HePresence members) in
  let event := VePresence (Z.of_nat (size (viewers s))) members in
  mfor (map_to_list (viewers s)) (λ x, do* send_viewer (v_events x.2) event in mok tt).

(** [viewers.remove] followed by the notice to the host and the new presence. *)
Definition drop_viewer (sid client : Z) : M World unit :=
  do* modify_state sid (λ s, set_viewers (delete client (viewers s)) s) in
  do* notify_host sid (HeDetach client) in
  presence sid.

(** The [find_map] on a participant identity. *)
Definition find_identity (s : State) (identity : Z) : option Z :=
  fst <$> find (λ x, v_identity x.2 =? identity) (map_to_list (viewers s)).

Definition remove_participant (sid identity : Z) : M World unit :=
  let* s := get_state sid in
  match find_identity s identity with
  | None => mok tt
  | Some client =>
      match viewers s !! client with
      | None => mok tt
      | Some viewer =>
          do* modify_state sid (λ s, set_viewers (delete client (viewers s)) s) in
          do* send_viewer (v_events viewer) (VeClosed "removed by the host" false) in
          do* notify_host sid (HeDetach client) in
          presence sid
      end
  end.

(** [direct_reply] *)
Definition direct_reply (sid client request : Z) (event : ViewerEvent) : M World unit :=
  let* s := get_state sid in
  match viewers s !! client with
  | None => mok tt
  | Some viewer =>
      if bool_decide (v_direct_pending viewer = Some request) then
        do* put_viewer sid client (set_v_direct_pending None viewer) in
        let* sent := send_viewer (v_events viewer) event in
        if (sent : bool) then mok tt else drop_viewer sid client
      else mok tt
  end.

(** ** Admission and registration *)

Definition admit_ : M World unit := λ w,
  if w_admitted w <? 192 then (Ok tt, set_w_admitted (w_admitted w + 1) w)
  else (Err "terminal gateway capacity reached", w).

Definition expired (x : Shared) (at_ : Z) : bool :=
  match o_session_expires_at (sh_options x) with Some e => e <=? at_ | None => false end.

Definition owner_sessions (w : World) (owner : string) : Z :=
  len (filter (λ x : string * Z,
    sh_owner <$> (w_shared w !! x.2) = Some owner) (map_to_list (w_sessions w))).

(** [inner.tokens.retain(|_, (id, _)| id != &hello.id)] *)
Definition retain_tokens (id : string) (tokens : gmap string (string * bool))
    : gmap string (string * bool) :=
  filter (λ e : string * (string * bool), e.2.1 ≠ id) tokens.

Definition install_tokens (id write_hash read_hash : string) (read_only : bool)
    (tokens : gmap string (string * bool)) : gmap string (string * bool) :=
  <[read_hash := (id, true)]> (<[write_hash := (id, read_only)]> tokens).

(** The invitation state a registration or a rotation installs. *)
Definition set_invitations (revision expires_at : Z) (write_hash read_hash : string) (revoked : bool)
    (s : State) : State :=
  set_invitations_revoked revoked (set_invitation_read_hash read_hash
    (set_invitation_write_hash write_hash (set_invitation_expires_at expires_at
       (set_invitation_revision revision s)))).

(** The branch of [register_authorized] for a session that exists. *)
Definition rejoin (owner : string) (hello : HostHello) (persisted : option PersistedInvitations)
    (write_hash read_hash : string) (sid : Z) : M World Z :=
  let* x := shared sid in
  ensure* bool_decide (sh_owner x = owner)
          && bool_decide (sh_secret_hash x = digest (hh_secret hello))
          && bool_decide (sh_options x = hh_options hello) && negb (sh_stop x)
    else "terminal host identity does not match" in
  match persisted with
  | None => mok sid
  | Some p =>
      let s := sh_state x in
      ensure* invitation_revision s <=? pi_revision p
        else "stale persisted invitation revision" in
      if pi_revision p =? invitation_revision s then
        ensure* bool_decide (invitation_write_hash s = write_hash)
                && bool_decide (invitation_read_hash s = read_hash)
                && (invitation_expires_at s =? pi_expires_at p)
          else "persisted invitation revision conflicts" in
        do* modify_state sid (λ s, set_invitations_revoked (invitations_revoked s || pi_revoked p) s) in
        mok sid
      else
        let* w := get in
        ensure* forallb (λ h, match w_tokens w !! h with
                              | None => true
                              | Some (id, _) => bool_decide (id = hh_id hello)
                              end) [write_hash; read_hash]
          else "persisted capability collision" in
        do* modify (λ w, set_w_tokens (install_tokens (hh_id hello) write_hash read_hash
                            (o_read_only (hh_options hello))
                            (retain_tokens (hh_id hello) (w_tokens w))) w) in
        do* modify_state sid (set_invitations (pi_revision p) (pi_expires_at p) write_hash read_hash
                                (pi_revoked p)) in
        mok sid
  end.

(** The branch for a new session. *)
Definition create_session (owner : string) (hello : HostHello) (revoked : bool)
    (persisted : option PersistedInvitations) (write_hash read_hash : string) (clock pid : Z)
    : M World Z :=
  let* w := get in
  ensure* (Z.of_nat (size (w_sessions w)) <? 64) && (owner_sessions w owner <? 8)
    else "terminal session capacity reached" in
  ensure* bool_decide (w_tokens w !! write_hash = None) && bool_decide (w_tokens w !! read_hash = None)
    else "terminal capability already registered" in
  let* sid := fresh in
  let state := mkState (hh_direct_transport hello) (hh_history_snapshots hello) None 0 None clock
    pid ∅ None (revoked || match persisted with Some p => pi_revoked p | None => false end)
    (match persisted with Some p => pi_revision p | None => 0 end)
    (match persisted with Some p => pi_expires_at p | None => o_expires_at (hh_options hello) end)
    write_hash read_hash in
  do* put_shared sid (mkShared (hh_id hello) owner (hh_options hello) false (digest (hh_secret hello)) state) in
  do* modify (λ w, set_w_tokens (install_tokens (hh_id hello) write_hash read_hash
                     (o_read_only (hh_options hello)) (w_tokens w)) w) in
  do* modify (λ w, set_w_sessions (<[hh_id hello := sid]> (w_sessions w)) w) in
  mok sid.

Definition history_failed (request before : Z) (error : string) : HistoryChunk :=
  mkHistoryChunk None request None "" true 0 before 0 false (Some error).

(** One viewer when the host's transport is replaced. *)
Definition reattach_viewer (sid ch : Z) (x : Z * Viewer) : M World unit :=
  let '(client, viewer) := x in
  let v := set_v_history_pending None (set_v_direct_pending None (set_v_direct_epochs None viewer)) in
  do* put_viewer sid client v in
  do* match v_direct_pending viewer with
      | Some request => do* send_viewer (v_events viewer) (VeDirectUnavailable request) in mok tt
      | None => mok tt
      end in
  do* match v_history_pending viewer with
      | Some request =>
          do* send_viewer (v_events viewer)
                (VeHistory (history_failed request 0 "Host reconnected; refresh this history page."))
          in mok tt
      | None => mok tt
      end in
  let* sent := send_host ch (HeAttach client (v_read_only v) (v_cols v) (v_rows v) (v_term v)) in
  ensure* sent else "channel full or closed" in
  mok tt.

(** The new host channel and generation of a session. *)
Definition connect_host (sid : Z) (hello : HostHello) (revoked : bool) : M World (Z * Z) :=
  let* ch := fresh in
  do* modify (λ w, set_w_hosts (<[ch := mkHChan [] false]> (w_hosts w)) w) in
  do* modify_state sid (λ s,
    set_invitations_revoked (invitations_revoked s || revoked)
      (set_history_snapshots (hh_history_snapshots hello)
         (set_direct_transport (hh_direct_transport hello) s))) in
  let* s := get_state sid in
  do* modify_state sid (set_host None) in
  do* match host s with
      | Some previous =>
          do* send_host previous (HeReconnect "host connection replaced") in mok tt
      | None => mok tt
      end in
  do* modify_state sid (λ s, set_offline_at None (set_generation (generation s + 1) s)) in
  do* mfor (map_to_list (viewers s)) (reattach_viewer sid ch) in
  do* (if invitations_revoked s then
         let* sent := send_host ch HeInvitationsRevoked in
         ensure* sent else "channel full or closed" in mok tt
       else mok tt) in
  do* modify_state sid (set_host (Some ch)) in
  do* presence sid in
  let* s := get_state sid in
  mok (generation s, ch).

(** [Hub::register_authorized]: the session, the generation and the host channel of the
    lease. *)
Definition register_authorized (owner : string) (hello : HostHello) (at_ clock pid : Z)
    (revoked : bool) (persisted : option PersistedInvitations) : M World (Z * Z * Z) :=
  do* lift (validate_hello hello at_) in
  do* match persisted with Some p => lift (validate_persisted p) | None => mok tt end in
  let write_hash := match persisted with
                    | Some p => pi_write_hash p | None => digest (hh_write_token hello) end in
  let read_hash := match persisted with
                   | Some p => pi_read_hash p | None => digest (hh_read_token hello) end in
  let* w := get in
  let* sid :=
    match w_sessions w !! hh_id hello with
    | Some sid => rejoin owner hello persisted write_hash read_hash sid
    | None => create_session owner hello revoked persisted write_hash read_hash clock pid
    end in
  let* lease := connect_host sid hello revoked in
  mok (sid, lease.1, lease.2).

Definition register_persisted (owner : string) (hello : HostHello) (at_ clock pid : Z) (revoked : bool) :=
  register_authorized owner hello at_ clock pid revoked None.
Definition register (owner : string) (hello : HostHello) (at_ clock pid : Z) :=
  register_persisted owner hello at_ clock pid false.

(** ** Invitations *)

Definition rotate_invitations (id : string) (gen : Z) (update : InvitationUpdate) (at_ : Z)
    : M World unit :=
  do* lift (validate_update update at_) in
  let* w := get in
  let* sid := lift (ok_or (w_sessions w !! id) "terminal host unavailable") in
  let* x := shared sid in
  let s := sh_state x in
  ensure* negb (sh_stop x) && negb (expired x at_) && (generation s =? gen)
          && bool_decide (is_Some (host s)) else "terminal host replaced or unavailable" in
  let write_hash := digest (iu_write_token update) in
  let read_hash := digest (iu_read_token update) in
  if iu_revision update =? invitation_revision s then
    ensure* bool_decide (invitation_write_hash s = write_hash)
            && bool_decide (invitation_read_hash s = read_hash)
            && (invitation_expires_at s =? iu_expires_at update)
      else "invitation revision conflicts" in
    mok tt
  else
    ensure* invitation_revision s <? iu_revision update else "stale invitation revision" in
    ensure* bool_decide (w_tokens w !! write_hash = None) && bool_decide (w_tokens w !! read_hash = None)
      else "replacement capabilities must be fresh" in
    do* modify (λ w, set_w_tokens (install_tokens id write_hash read_hash (o_read_only (sh_options x))
                       (retain_tokens id (w_tokens w))) w) in
    modify_state sid (set_invitations (iu_revision update) (iu_expires_at update) write_hash read_hash false).

(** [Hub::resolve]: the session and the role a capability stands for. *)
Definition resolve (capability : string) (at_ : Z) : M World (Z * bool) :=
  ensure* token capability 64 else "invalid or expired terminal invitation" in
  let* w := get in
  let* entry := lift (ok_or (w_tokens w !! digest capability) "invalid or expired terminal invitation") in
  let* sid := lift (ok_or (w_sessions w !! entry.1) "invalid or expired terminal invitation") in
  let* x := shared sid in
  let s := sh_state x in
  ensure* (invitation_expires_at s =? 0) || (at_ <? invitation_expires_at s)
    else "terminal invitation expired" in
  ensure* negb (sh_stop x) && negb (expired x at_) && bool_decide (is_Some (host s))
    else "terminal host is reconnecting or unavailable" in
  ensure* negb (invitations_revoked s) else "terminal invitation revoked" in
  mok (sid, entry.2).

(** ** Attaching a viewer *)

Definition term_char (b : Z) : bool :=
  is_ascii_alphanumeric b || bool_decide (b ∈ [45; 95; 46; 43]).

(** The participants of all sessions of the hub. *)
Definition total_viewers (w : World) : Z :=
  foldr (λ x n, match w_shared w !! x.2 with
                | Some sh => Z.of_nat (size (viewers (sh_state sh))) + n
                | None => n
                end) 0 (map_to_list (w_sessions w)).

(** The connection of a participant that reconnects elsewhere is closed first. *)
Definition replace_identity (sid identity : Z) : M World unit :=
  ensure* (0 <? identity) && (identity <? 2 ^ 53) else "invalid participant identity" in
  let* s := get_state sid in
  ensure* bool_decide (is_Some (host s)) else "terminal host reconnecting" in
  match find_identity s identity with
  | None => mok tt
  | Some previous =>
      do* match viewers s !! previous with
          | None => mok tt
          | Some viewer =>
              do* modify_state sid (λ s, set_viewers (delete previous (viewers s)) s) in
              do* send_viewer (v_events viewer) (VeClosed "participant reconnected elsewhere" false)
              in mok tt
          end in
      match host s with
      | None => mok tt
      | Some ch =>
          let* sent := send_host ch (HeDetach previous) in
          ensure* sent else "channel full or closed" in mok tt
      end
  end.

Definition attach_inner (id : string) (identity : option Z) (read_only : bool) (cols rows : Z)
    (term : string) (invitation_hash : option string) (at_ clock : Z) : M World (Z * Z * Z) :=
  do* lift (dimensions cols rows) in
  ensure* negb (str_is_empty term) && (slen term <=? 64) && all_bytes term_char term
    else "invalid terminal type" in
  let* w := get in
  let* sid := lift (ok_or (w_sessions w !! id) "terminal host unavailable") in
  let* x := shared sid in
  ensure* negb (sh_stop x) && negb (expired x at_) else "terminal session ended" in
  let total := total_viewers w in
  let s := sh_state x in
  do* match invitation_hash with
      | None => mok tt
      | Some hash =>
          ensure* match w_tokens w !! hash with
                  | Some (i, role) => bool_decide (i = id) && Bool.eqb role read_only
                  | None => false
                  end else "terminal invitation replaced" in
          ensure* negb (invitations_revoked s)
                  && ((invitation_expires_at s =? 0) || (at_ <? invitation_expires_at s))
            else "terminal invitation expired or revoked" in
          mok tt
      end in
  ensure* (total <? 128)
          || match identity with
             | Some i => bool_decide (is_Some (find_identity s i))
             | None => false
             end else "terminal gateway participant capacity reached" in
  do* match identity with Some i => replace_identity sid i | None => mok tt end in
  let* s := get_state sid in
  ensure* Z.of_nat (size (viewers s)) <? Z.min (o_max_viewers (sh_options x)) MAX_VIEWERS
    else "terminal participant limit reached" in
  let client := next_client s in
  ensure* (client + 1 <=? U64_MAX) && (client + 1 <? 2 ^ 53)
    else "terminal client identity exhausted" in
  do* modify_state sid (set_next_client (client + 1)) in
  let* ch := fresh in
  do* modify (λ w, set_w_viewers (<[ch := vchan_new]> (w_viewers w)) w) in
  let* hch := lift (ok_or (host s) "terminal host unavailable") in
  let* sent := send_host hch (HeAttach client read_only cols rows term) in
  ensure* sent else "channel full or closed" in
  let* sent := send_viewer ch (VeWelcome (direct_transport s) (history_snapshots s)
                 (o_name (sh_options x)) read_only (invitation_expires_at s)
                 (Z.of_nat (size (viewers s)) + 1)) in
  ensure* sent else "channel full or closed" in
  do* modify_state sid (λ s, set_viewers (<[client :=
        mkViewer (default client identity) None None None None None None None None at_ at_ at_
          read_only cols rows term ch]> (viewers s)) s) in
  do* modify_state sid (set_activity clock) in
  do* presence sid in
  mok (client, sid, ch).

Definition attach_invitation (capability : string) (identity : option Z) (cols rows : Z)
    (term : string) (at_ clock : Z) : M World (Z * Z * Z) :=
  let* r := resolve capability at_ in
  let* x := shared r.1 in
  attach_inner (sh_id x) identity r.2 cols rows term (Some (digest capability)) at_ clock.
Definition attach (capability : string) (cols rows : Z) (term : string) (at_ clock : Z) :=
  attach_invitation capability None cols rows term at_ clock.
Definition attach_authorized (id : string) (identity : option Z) (read_only : bool) (cols rows : Z)
    (term : string) (at_ clock : Z) :=
  attach_inner id identity read_only cols rows term None at_ clock.

(** ** Ending a session *)

Definition remove (id reason : string) (revoked : bool) : M World unit :=
  let* w := get in
  do* match w_sessions w !! id with
      | None => mok tt
      | Some sid =>
          do* modify (λ w, set_w_sessions (delete id (w_sessions w)) w) in
          let event := if revoked then HeStop reason else HeReconnect reason in
          do* modify_state sid (set_close_event (Some event)) in
          let* x := shared sid in
          do* put_shared sid (set_sh_stop true x) in
          let s := sh_state x in
          do* modify_state sid (set_host None) in
          do* match host s with
              | Some ch => do* send_host ch event in mok tt
              | None => mok tt
              end in
          do* modify_state sid (set_viewers ∅) in
          mfor (map_to_list (viewers s))
            (λ y, do* send_viewer (v_events y.2) (VeClosed reason (negb revoked)) in mok tt)
      end in
  modify (λ w, set_w_tokens (retain_tokens id (w_tokens w)) w).
Definition end_ (id reason : string) := remove id reason true.
Definition disconnect (id reason : string) := remove id reason false.

Definition recovery_expired (sid clock : Z) : M World bool :=
  let* x := shared sid in
  mok match offline_at (sh_state x) with
      | Some offline => from_secs (o_reconnect_timeout (sh_options x)) <=? Z.max 0 (clock - offline)
      | None => false
      end.

Definition revoke_invitations (sid : Z) : M World unit :=
  do* modify_state sid (set_invitations_revoked true) in
  notify_host sid HeInvitationsRevoked.

Definition kick (sid identity : Z) : M World unit :=
  let* x := shared sid in
  ensure* negb (sh_stop x) else "terminal session ended" in
  remove_participant sid identity.

Definition offline (sid gen clock : Z) : M World unit :=
  let* s := get_state sid in
  if gen =? generation s
  then modify_state sid (λ s, set_offline_at (Some clock) (set_host None s))
  else mok tt.

Definition detach (sid client : Z) : M World unit :=
  let* s := get_state sid in
  match viewers s !! client with
  | None => mok tt
  | Some _ => drop_viewer sid client
  end.

(** ** Input from a viewer *)

Definition elapsed (clock since : Z) : Z := Z.max 0 (clock - since).
Definition from_millis (n : Z) : Z := n * 1000000.

(** A viewer was active: the new timestamps, and whether presence is to be published. *)
Definition mark_active (viewer : Viewer) (at_ : Z) : bool * Viewer :=
  let publish := 5 <=? at_ - v_activity_published_at viewer in
  let viewer := set_v_last_active_at at_ viewer in
  (publish, if publish then set_v_activity_published_at at_ viewer else viewer).

(** The arms of the match in [Shared::input]: the viewer afterwards, an event for the host
    with the presence flag, or nothing ([return Ok(())]) and an answer to the viewer. *)
Inductive reaction :=
| Forward (viewer : Viewer) (event : HostEvent) (publish : bool)
| Answer (event : ViewerEvent)
| Ignore.

Definition react (direct snapshots : bool) (client : Z) (viewer : Viewer) (input : ViewerInput)
    (at_ clock : Z) : res reaction :=
  match input with
  | ViDelivery packet =>
      ensure! direct else "terminal delivery is unavailable" in
      let! epochs := ok_or (v_direct_epochs viewer) "terminal delivery is not negotiated" in
      let! m := packet_decode packet in
      match m with
      | Data frame =>
          ensure! negb (v_read_only viewer) else "this invitation is read-only" in
          ensure! bool_decide (f_epoch frame = epochs.1) else "terminal input epoch mismatch" in
          let '(publish, viewer) := mark_active viewer at_ in
          Ok (Forward viewer (HeDelivery client packet) publish)
      | Ack epoch _ =>
          ensure! bool_decide (epoch = epochs.2)
            else "terminal output acknowledgement epoch mismatch" in
          Ok (Forward viewer (HeDelivery client packet) false)
      end
  | ViDirectOffer request description =>
      if negb direct then Ok (Answer (VeDirectUnavailable request)) else
      let! _ := validate_description description "offer" in
      ensure! match v_direct_last viewer with Some last => last <? request | None => true end
        else "terminal direct request is stale" in
      ensure! match v_direct_started viewer with
              | Some started =>
                  from_secs (if bool_decide (is_Some (v_direct_pending viewer)) then 15 else 5)
                    <=? elapsed clock started
              | None => true
              end else "terminal direct negotiation is busy" in
      Ok (Forward (set_v_direct_started (Some clock) (set_v_direct_last (Some request)
                     (set_v_direct_pending (Some request) viewer)))
            (HeDirectOffer client request description) false)
  | ViRedraw =>
      if match v_last_redraw viewer with
         | Some last => elapsed clock last <? from_millis 250
         | None => false
         end
      then Ok Ignore
      else Ok (Forward (set_v_last_redraw (Some clock) viewer) (HeRedraw client) false)
  | ViHistory freeze snapshot request pane before lines =>
      let! _ := history_request pane before lines in
      ensure! match snapshot with Some id => freeze && token id 32 | None => true end
        else "invalid history snapshot request" in
      if bool_decide (is_Some snapshot) && negb snapshots
      then Ok (Answer (VeHistory (history_failed request before
                 "History snapshot unavailable; refresh history."))) else
      if match v_history_started viewer with
         | Some started =>
             (elapsed clock started <? from_millis 500)
             || bool_decide (is_Some (v_history_pending viewer))
                && (elapsed clock started <? from_secs 3)
         | None => false
         end
      then Ok (Answer (VeHistory (history_failed request before
                 "History is busy; try again shortly."))) else
      Ok (Forward (set_v_history_anchor (if freeze && snapshots then Some snapshot else None)
                     (set_v_history_pending (Some request)
                        (set_v_history_started (Some clock) viewer)))
            (HeHistory (freeze && snapshots) snapshot client request pane before lines) false)
  | ViInput data =>
      ensure! negb (v_read_only viewer) else "this invitation is read-only" in
      let! _ := decode_data data in
      let '(publish, viewer) := mark_active viewer at_ in
      Ok (Forward viewer (HeInput client data) publish)
  | ViResize cols rows =>
      let! _ := dimensions cols rows in
      Ok (Forward (set_v_rows rows (set_v_cols cols viewer)) (HeResize client cols rows) false)
  | ViPong => Ok Ignore
  end.

Definition input (sid client : Z) (i : ViewerInput) (at_ clock : Z) : M World unit :=
  let* x := shared sid in
  ensure* negb (sh_stop x) else "terminal session ended" in
  let s := sh_state x in
  let* viewer := lift (ok_or (viewers s !! client) "terminal participant detached") in
  let* r := lift (react (direct_transport s) (history_snapshots s) client viewer i at_ clock) in
  match r with
  | Ignore => mok tt
  | Answer event =>
      let* sent := send_viewer (v_events viewer) event in
      ensure* sent else "channel full or closed" in mok tt
  | Forward viewer event publish =>
      do* put_viewer sid client viewer in
      do* modify_state sid (set_activity clock) in
      let* ch := lift (ok_or (host s) "terminal host is reconnecting") in
      let* sent := send_host ch event in
      ensure* sent else "channel full or closed" in
      if (publish : bool) then presence sid else mok tt
  end.

(** ** Output of the host *)

(** Send to the viewer; one that cannot keep up is dropped, no other is affected. *)
Definition send_or_drop (sid client : Z) (viewer : Viewer) (event : ViewerEvent) : M World unit :=
  let* sent := send_viewer (v_events viewer) event in
  if (sent : bool) then mok tt else drop_viewer sid client.

(** The anchor check on a history page without an error. *)
Definition check_anchor (viewer : Viewer) (page : HistoryChunk) : res Viewer :=
  match hc_error page with
  | Some _ => Ok viewer
  | None =>
      match v_history_anchor viewer with
      | Some anchor =>
          ensure! bool_decide (is_Some (hc_snapshot page)) else "history snapshot missing" in
          ensure! match anchor with
                  | Some id => bool_decide (Some id = hc_snapshot page)
                  | None => true
                  end else "history snapshot changed" in
          Ok (set_v_history_anchor (Some (hc_snapshot page)) viewer)
      | None =>
          ensure! bool_decide (hc_snapshot page = None) else "unexpected history snapshot" in
          Ok viewer
      end
  end.

Definition output (sid gen : Z) (o : HostOutput) (clock : Z) : M World unit :=
  let* x := shared sid in
  let s := sh_state x in
  ensure* (gen =? generation s) && negb (sh_stop x) else "stale terminal host connection" in
  match o with
  | HoDelivery client packet =>
      match viewers s !! client with
      | None => mok tt
      | Some viewer =>
          let* epochs := lift (ok_or (v_direct_epochs viewer) "terminal delivery is not negotiated") in
          let* m := lift (packet_decode packet) in
          ensure* match m with
                  | Data frame => bool_decide (f_epoch frame = epochs.2)
                  | Ack epoch _ => bool_decide (epoch = epochs.1)
                  end
            else match m with
                 | Data _ => "terminal output epoch mismatch"
                 | Ack _ _ => "terminal input acknowledgement epoch mismatch"
                 end in
          send_or_drop sid client viewer (VeDelivery packet)
      end
  | HoDirectAnswer client answer =>
      match viewers s !! client with
      | None => mok tt
      | Some viewer =>
          if bool_decide (v_direct_pending viewer = Some (da_request answer)) then
            ensure* direct_transport s else "terminal direct transport is unavailable" in
            do* lift (validate_answer answer) in
            do* put_viewer sid client
                  (set_v_direct_epochs (Some (da_input_epoch answer, da_output_epoch answer)) viewer) in
            direct_reply sid client (da_request answer) (VeDirectAnswer answer)
          else mok tt
      end
  | HoDirectUnavailable client request =>
      direct_reply sid client request (VeDirectUnavailable request)
  | HoRevokeInvitations | HoRotateInvitations _ =>
      lift (Err "invitation revocation must be persisted by the gateway")
  | HoHistory client page =>
      do* lift (validate_chunk page) in
      match viewers s !! client with
      | None => mok tt
      | Some viewer =>
          if bool_decide (v_history_pending viewer = Some (hc_request page)) then
            let* viewer := lift (check_anchor viewer page) in
            let viewer := if hc_done page then set_v_history_pending None viewer else viewer in
            do* put_viewer sid client viewer in
            send_or_drop sid client viewer (VeHistory page)
          else mok tt
      end
  | HoKick client => remove_participant sid client
  | HoOutput client data =>
      do* lift (decode_data data) in
      match viewers s !! client with
      | None => mok tt
      | Some viewer => send_or_drop sid client viewer (VeOutput data)
      end
  | HoClosed client =>
      do* modify_state sid (λ s, set_viewers (delete client (viewers s)) s) in
      presence sid
  | HoPong => mok tt
  | HoActivity => modify_state sid (set_activity clock)
  | HoEnd => lift (Err "terminal host ended the session")
  end.
End hub.
