(* ===== verification/HubSafety.v ===== *)
(** * The invariant of the hub's tables

    Most operations leave the tables and the identity of every session alone; that is the
    relation [calm], and the first part shows it for each of them.  The second part is the
    invariant [world_ok] and a weakest-precondition calculus over one run, with which the
    operations that do change the tables are shown to keep it. *)

From S2P Require Import Prelude Net RustStr Delivery TermProtocol Hub.
Local Open Scope string_scope.
Local Open Scope list_scope.
Local Open Scope Z_scope.

(** ** Loops *)

Section preserves.
Context (R : World → World → Prop) `{!PreOrder R}.

Lemma preserves_mfor {A} (l : list A) f :
  (∀ x, preserves R (f x)) → preserves R (mfor l f).
Proof.
  intros Hf. induction l as [|x l IH]; simpl; [by apply preserves_mok|].
  apply preserves_bind; [apply _|done|]. intros _. exact IH.
Qed.
End preserves.

(** The identity of a session and its invitation state; participants may only leave. *)
Record same (x x' : Shared) : Prop := {
  same_id : sh_id x' = sh_id x;
  same_owner : sh_owner x' = sh_owner x;
  same_options : sh_options x' = sh_options x;
  same_stop : sh_stop x' = sh_stop x;
  same_secret : sh_secret_hash x' = sh_secret_hash x;
  same_revision : invitation_revision (sh_state x') = invitation_revision (sh_state x);
  same_expires : invitation_expires_at (sh_state x') = invitation_expires_at (sh_state x);
  same_write : invitation_write_hash (sh_state x') = invitation_write_hash (sh_state x);
  same_read : invitation_read_hash (sh_state x') = invitation_read_hash (sh_state x);
  same_revoked : invitations_revoked (sh_state x) = true → invitations_revoked (sh_state x') = true;
  same_generation : generation (sh_state x) ≤ generation (sh_state x');
  same_viewers : (size (viewers (sh_state x')) ≤ size (viewers (sh_state x)))%nat;
}.

#[global] Instance same_preorder : PreOrder same.
Proof.
  split; [by split|]. intros a b c [] []. split; try congruence; [auto|lia|lia].
Qed.

(** Nothing but session [sid] and the queues has changed, and [sid] is the same session. *)
Record calm (sid : Z) (w w' : World) : Prop := {
  calm_sessions : w_sessions w' = w_sessions w;
  calm_tokens : w_tokens w' = w_tokens w;
  calm_next : w_next w ≤ w_next w';
  calm_other : ∀ i, i ≠ sid → w_shared w' !! i = w_shared w !! i;
  calm_shared : option_relation same (λ _, False) (λ _, False) (w_shared w !! sid) (w_shared w' !! sid);
}.

#[global] Instance calm_preorder sid : PreOrder (calm sid).
Proof.
  split.
  - intros w. split; try done. by destruct (w_shared w !! sid); constructor.
  - intros a b c [A1 A2 A3 A4 A5] [B1 B2 B3 B4 B5]. split; try congruence; [lia| |].
    + intros i Hi. by rewrite B4, A4.
    + destruct (w_shared a !! sid), (w_shared b !! sid), (w_shared c !! sid); simpl in *; try done.
      by etrans.
Qed.

(** The operations shown to be calm so far. *)
Create HintDb hub discriminated.

Section calm_ops.
Context `{L : TermLibs} `{E : HubEnv} (sid : Z).

Lemma calm_queues w w' :
  w_sessions w' = w_sessions w → w_tokens w' = w_tokens w → w_shared w' = w_shared w →
  w_next w ≤ w_next w' → calm sid w w'.
Proof.
  intros H1 H2 H3 H4. split; try done; [by intros; rewrite H3|]. rewrite H3.
  by destruct (w_shared w !! sid); constructor.
Qed.

Lemma calm_fresh : preserves (calm sid) fresh.
Proof. intros w. apply calm_queues; try done. simpl. lia. Qed.
Lemma calm_get_shared i : preserves (calm sid) (shared i).
Proof. intros w. done. Qed.
Lemma calm_hosts f : preserves (calm sid) (modify (λ w, set_w_hosts (f w) w)).
Proof. intros w. by apply calm_queues. Qed.
Lemma calm_viewers f : preserves (calm sid) (modify (λ w, set_w_viewers (f w) w)).
Proof. intros w. by apply calm_queues. Qed.
Lemma calm_send_host ch e : preserves (calm sid) (send_host ch e).
Proof.
  intros w. unfold send_host. destruct (w_hosts w !! ch) as [c|]; [|done].
  destruct (hchan_send c e). by apply calm_queues.
Qed.
Lemma calm_send_viewer ch e : preserves (calm sid) (send_viewer ch e).
Proof.
  intros w. unfold send_viewer. destruct (w_viewers w !! ch) as [c|]; [|done].
  destruct (vchan_send c e). by apply calm_queues.
Qed.

Lemma calm_put_shared x' :
  (∀ w x, w_shared w !! sid = Some x → same x x' → calm sid w (put_shared sid x' w).2).
Proof.
  intros w x Hx Hs. split; try done; simpl.
  - intros i Hi. by rewrite lookup_insert_ne.
  - rewrite Hx, lookup_insert_eq. done.
Qed.

Lemma calm_modify_state f :
  (∀ x, same x (set_sh_state (f (sh_state x)) x)) → preserves (calm sid) (modify_state sid f).
Proof.
  intros Hf w. unfold modify_state, mbindM, shared.
  destruct (w_shared w !! sid) as [x|] eqn:Ex; simpl; [|done]. by eapply calm_put_shared.
Qed.

Lemma calm_get_state i : preserves (calm sid) (get_state i).
Proof. intros w. unfold get_state, mbindM, shared. by destruct (w_shared w !! i). Qed.
End calm_ops.
#[export] Hint Resolve calm_fresh calm_get_shared calm_hosts calm_viewers calm_send_host
  calm_send_viewer calm_get_state : hub.

Lemma map_size_alter_le (f : Viewer → Viewer) k (m : gmap Z Viewer) :
  (size (alter f k m) ≤ size m)%nat.
Proof. by rewrite <- !size_dom, dom_alter_L. Qed.
Lemma map_size_delete_le k (m : gmap Z Viewer) : (size (delete k m) ≤ size m)%nat.
Proof. apply map_subseteq_size, delete_subseteq. Qed.

(** The session is the same one after an update of its state. *)
Ltac same_state :=
  intros ?; split; simpl; auto using Nat.le_0_l, map_size_alter_le, map_size_delete_le;
  try (by intros ->); try lia; try done.

(** Walk down a computation, using the calm operations of the hint database. *)
Ltac calm :=
  repeat (intros;
    match goal with
    | |- preserves _ (mok _) => apply preserves_mok; apply _
    | |- preserves _ (lift _) => apply preserves_lift; apply _
    | |- preserves _ get => apply preserves_get; apply _
    | |- preserves _ (mbindM _ _) => apply preserves_bind; [apply _| |]
    | |- preserves _ (mfor _ _) => apply preserves_mfor; [apply _|]
    | |- preserves _ (modify_state _ _) => apply calm_modify_state; same_state
    | |- preserves _ _ => solve [auto with hub]
    | |- preserves _ (match ?x with _ => _ end) => destruct x
    end).

Section calm_methods.
Context `{L : TermLibs} `{E : HubEnv} (sid : Z).

Lemma calm_notify_host e : preserves (calm sid) (notify_host sid e).
Proof. unfold notify_host. calm. Qed.
#[local] Hint Resolve calm_notify_host : hub.

Lemma calm_put_viewer client v : preserves (calm sid) (put_viewer sid client v).
Proof. unfold put_viewer. calm. Qed.
#[local] Hint Resolve calm_put_viewer : hub.

Lemma calm_presence : preserves (calm sid) (presence sid).
Proof. unfold presence. calm. Qed.
#[local] Hint Resolve calm_presence : hub.

Lemma calm_drop_viewer client : preserves (calm sid) (drop_viewer sid client).
Proof. unfold drop_viewer. calm. Qed.
#[local] Hint Resolve calm_drop_viewer : hub.

Lemma calm_remove_participant i : preserves (calm sid) (remove_participant sid i).
Proof. unfold remove_participant. calm. Qed.
#[local] Hint Resolve calm_remove_participant : hub.

Lemma calm_direct_reply client request e : preserves (calm sid) (direct_reply sid client request e).
Proof. unfold direct_reply. calm. Qed.
#[local] Hint Resolve calm_direct_reply : hub.

Lemma calm_reattach_viewer ch x : preserves (calm sid) (reattach_viewer sid ch x).
Proof. unfold reattach_viewer. calm. Qed.
#[local] Hint Resolve calm_reattach_viewer : hub.

Lemma calm_connect_host hello revoked : preserves (calm sid) (connect_host sid hello revoked).
Proof. unfold connect_host. calm. Qed.

Lemma calm_replace_identity i : preserves (calm sid) (replace_identity sid i).
Proof. unfold replace_identity. calm. Qed.

Lemma calm_revoke_invitations : preserves (calm sid) (revoke_invitations sid).
Proof. unfold revoke_invitations. calm. Qed.

Lemma calm_kick i : preserves (calm sid) (kick sid i).
Proof. unfold kick. calm. Qed.

Lemma calm_offline gen clock : preserves (calm sid) (offline sid gen clock).
Proof. unfold offline. calm. Qed.

Lemma calm_detach client : preserves (calm sid) (detach sid client).
Proof. unfold detach. calm. Qed.

Lemma calm_input client i at_ clock : preserves (calm sid) (input sid client i at_ clock).
Proof. unfold input. calm. Qed.

Lemma calm_send_or_drop client v e : preserves (calm sid) (send_or_drop sid client v e).
Proof. unfold send_or_drop. calm. Qed.
#[local] Hint Resolve calm_send_or_drop : hub.

Lemma calm_output gen o clock : preserves (calm sid) (output sid gen o clock).
Proof. unfold output. calm. Qed.
End calm_methods.

#[export] Hint Resolve calm_notify_host calm_put_viewer calm_presence calm_drop_viewer
  calm_remove_participant calm_direct_reply calm_reattach_viewer calm_connect_host
  calm_replace_identity calm_revoke_invitations calm_kick calm_offline calm_detach calm_input
  calm_send_or_drop calm_output : hub.

(** ** The invariant of the tables *)

(** What the tables say of one live session. *)
Record session_ok (w : World) (id : string) (x : Shared) : Prop := {
  so_id : sh_id x = id;
  so_live : sh_stop x = false;
  so_viewers : Z.of_nat (size (viewers (sh_state x))) ≤ Z.min (o_max_viewers (sh_options x)) MAX_VIEWERS;
  so_read : w_tokens w !! invitation_read_hash (sh_state x) = Some (id, true);
  so_write : invitation_write_hash (sh_state x) = invitation_read_hash (sh_state x)
    ∨ w_tokens w !! invitation_write_hash (sh_state x) = Some (id, o_read_only (sh_options x));
}.

(** What a capability hash stands for in a session. *)
Definition grants (x : Shared) (h : string) (role : bool) : Prop :=
  (h = invitation_read_hash (sh_state x) ∧ role = true)
  ∨ (h = invitation_write_hash (sh_state x) ∧ role = o_read_only (sh_options x)).

Record world_ok (w : World) : Prop := {
  wo_session : ∀ id sid, w_sessions w !! id = Some sid →
    ∃ x, w_shared w !! sid = Some x ∧ session_ok w id x;
  wo_token : ∀ h id role, w_tokens w !! h = Some (id, role) →
    ∃ sid x, w_sessions w !! id = Some sid ∧ w_shared w !! sid = Some x ∧ grants x h role;
  wo_sessions : Z.of_nat (size (w_sessions w)) ≤ 64;
  wo_total : total_viewers w ≤ 128;
  wo_fresh : ∀ sid, w_next w ≤ sid → w_shared w !! sid = None;
}.

(** *** The number of participants of the hub *)

Definition viewer_count (m : gmap Z Shared) (sid : Z) : Z :=
  match m !! sid with Some x => Z.of_nat (size (viewers (sh_state x))) | None => 0 end.

Lemma total_viewers_sum w :
  total_viewers w = zsum (λ y, viewer_count (w_shared w) y.2) (map_to_list (w_sessions w)).
Proof.
  unfold total_viewers, zsum, viewer_count. induction (map_to_list _) as [|y l IH]; [done|].
  cbn [foldr]. rewrite IH. by destruct (w_shared w !! y.2).
Qed.

(** The total when one live session changes its number of participants. *)
Lemma total_viewers_change w w' id sid d :
  w_sessions w' = w_sessions w → w_sessions w !! id = Some sid →
  (∀ id' sid', w_sessions w !! id' = Some sid' → id' ≠ id →
     viewer_count (w_shared w') sid' = viewer_count (w_shared w) sid') →
  viewer_count (w_shared w') sid = viewer_count (w_shared w) sid + d →
  total_viewers w' = total_viewers w + d.
Proof.
  intros Hs Hid Ho Hd. rewrite !total_viewers_sum, Hs.
  apply (zsum_change _ _ _ (id, sid)); [apply NoDup_map_to_list|by apply elem_of_map_to_list| |done].
  intros [id' sid'] Hin%elem_of_map_to_list Hne. apply (Ho id'); [done|].
  intros ->. apply Hne. congruence.
Qed.

(** Two session ids never share a session. *)
Lemma sessions_inj w id id' sid :
  world_ok w → w_sessions w !! id = Some sid → w_sessions w !! id' = Some sid → id' = id.
Proof.
  intros Hw H1 H2. destruct (wo_session _ Hw _ _ H1) as (x & Hx & Ho).
  destruct (wo_session _ Hw _ _ H2) as (x' & Hx' & Ho').
  rewrite <- (so_id _ _ _ Ho), <- (so_id _ _ _ Ho'). congruence.
Qed.

(** *** Calm operations keep the invariant *)

Lemma calm_lookup sid w w' x :
  calm sid w w' → w_shared w !! sid = Some x → ∃ x', w_shared w' !! sid = Some x' ∧ same x x'.
Proof.
  intros Hc Hx. pose proof (calm_shared _ _ _ Hc) as Hs. rewrite Hx in Hs.
  destruct (w_shared w' !! sid) as [x'|]; simpl in *; [by exists x'|done].
Qed.

Lemma calm_lookup_any sid w w' i x :
  calm sid w w' → w_shared w !! i = Some x → ∃ x', w_shared w' !! i = Some x' ∧ same x x'.
Proof.
  intros Hc Hx. destruct (decide (i = sid)) as [->|Hne]; [by eapply calm_lookup|].
  exists x. rewrite (calm_other _ _ _ Hc) by done. done.
Qed.

Lemma calm_total sid w w' : world_ok w → calm sid w w' →
  total_viewers w' ≤ total_viewers w
  ∧ (∀ id x x', w_sessions w !! id = Some sid → w_shared w !! sid = Some x →
       w_shared w' !! sid = Some x' →
       total_viewers w' = total_viewers w
         + (Z.of_nat (size (viewers (sh_state x'))) - Z.of_nat (size (viewers (sh_state x))))).
Proof.
  intros Hw Hc.
  assert (Hex : ∀ id x x', w_sessions w !! id = Some sid → w_shared w !! sid = Some x →
       w_shared w' !! sid = Some x' → total_viewers w' = total_viewers w
         + (Z.of_nat (size (viewers (sh_state x'))) - Z.of_nat (size (viewers (sh_state x))))).
  { intros id x x' Hid Hx Hx'.
    eapply total_viewers_change; [apply Hc|done| |].
    - intros id' sid' Hid' Hne. unfold viewer_count. rewrite (calm_other _ _ _ Hc); [done|].
      intros ->. apply Hne. by eapply sessions_inj.
    - unfold viewer_count. rewrite Hx, Hx'. lia. }
  split; [|exact Hex].
  destruct (decide (Exists (λ y : string * Z, y.2 = sid) (map_to_list (w_sessions w)))) as [Hin|Hno].
  - apply Exists_exists in Hin as (y & Hy & E). destruct y as [id s]. simpl in E. subst s. apply elem_of_map_to_list in Hy.
    destruct (wo_session _ Hw _ _ Hy) as (x & Hx & _).
    destruct (calm_lookup _ _ _ _ Hc Hx) as (x' & Hx' & Hs).
    rewrite (Hex id x x') by done. pose proof (same_viewers _ _ Hs). lia.
  - rewrite !total_viewers_sum, (calm_sessions _ _ _ Hc). apply Z.eq_le_incl, zsum_ext.
    intros y Hy. unfold viewer_count. rewrite (calm_other _ _ _ Hc); [done|].
    intros E. apply Hno, Exists_exists. by exists y.
Qed.

Lemma same_session_ok w w' id x x' :
  w_tokens w' = w_tokens w → same x x' → session_ok w id x → session_ok w' id x'.
Proof.
  intros Ht Hs [A1 A2 A3 A4 A5]. pose proof (same_viewers _ _ Hs).
  split; rewrite ?(same_options _ _ Hs), ?(same_write _ _ Hs), ?(same_read _ _ Hs), ?Ht; try done.
  - by rewrite (same_id _ _ Hs).
  - by rewrite (same_stop _ _ Hs).
  - lia.
Qed.

Lemma same_grants x x' h role : same x x' → grants x h role → grants x' h role.
Proof.
  intros Hs. unfold grants. by rewrite (same_read _ _ Hs), (same_write _ _ Hs), (same_options _ _ Hs).
Qed.

Lemma calm_ok sid w w' : calm sid w w' → world_ok w → world_ok w'.
Proof.
  intros Hc Hw. pose proof (calm_total sid w w' Hw Hc) as [Htot _].
  pose proof Hw as [W1 W2 W3 W4 W5].
  split; rewrite ?(calm_sessions _ _ _ Hc), ?(calm_tokens _ _ _ Hc).
  - intros id i Hid. destruct (W1 _ _ Hid) as (x & Hx & Ho).
    destruct (calm_lookup_any _ _ _ _ _ Hc Hx) as (x' & Hx' & Hs). exists x'. split; [done|].
    by eapply same_session_ok; [apply Hc|..].
  - intros h id role Ht. destruct (W2 _ _ _ Ht) as (i & x & Hi & Hx & Hg).
    destruct (calm_lookup_any _ _ _ _ _ Hc Hx) as (x' & Hx' & Hs).
    exists i, x'. eauto using same_grants.
  - done.
  - lia.
  - intros i Hi. pose proof (calm_next _ _ _ Hc).
    assert (Hi0 : w_shared w !! i = None) by (apply W5; lia).
    destruct (decide (i = sid)) as [->|Hne]; [|by rewrite (calm_other _ _ _ Hc)].
    pose proof (calm_shared _ _ _ Hc) as Hs. rewrite Hi0 in Hs.
    by destruct (w_shared w' !! sid).
Qed.

(** *** Capabilities *)

Lemma lookup_retain_tokens id t h e : retain_tokens id t !! h = Some e ↔ t !! h = Some e ∧ e.1 ≠ id.
Proof. unfold retain_tokens. by rewrite map_lookup_filter_Some. Qed.

Lemma lookup_install_tokens id wh rh ro t h :
  install_tokens id wh rh ro t !! h =
  if decide (h = rh) then Some (id, true) else if decide (h = wh) then Some (id, ro) else t !! h.
Proof.
  unfold install_tokens. destruct (decide (h = rh)) as [->|H1]; [apply lookup_insert_eq|].
  rewrite lookup_insert_ne by done.
  destruct (decide (h = wh)) as [->|H2]; [apply lookup_insert_eq|]. by rewrite lookup_insert_ne.
Qed.

(** A hash that is not the capability of another session. *)
Definition free_for (w : World) (id h : string) : Prop :=
  ∀ e, w_tokens w !! h = Some e → e.1 = id.

(** The tables after the capabilities of a live session are replaced. *)
Lemma replace_capabilities_ok w w' id sid x x' wh rh :
  world_ok w → w_sessions w !! id = Some sid → w_shared w !! sid = Some x →
  free_for w id wh → free_for w id rh →
  w_sessions w' = w_sessions w → w_next w' = w_next w →
  w_shared w' = <[sid := x']> (w_shared w) →
  w_tokens w' = install_tokens id wh rh (o_read_only (sh_options x)) (retain_tokens id (w_tokens w)) →
  sh_id x' = sh_id x → sh_stop x' = sh_stop x → sh_options x' = sh_options x →
  viewers (sh_state x') = viewers (sh_state x) →
  invitation_write_hash (sh_state x') = wh → invitation_read_hash (sh_state x') = rh →
  world_ok w'.
Proof.
  intros Hw Hid Hx Hwh Hrh Es En Esh Et X1 X2 X3 X4 X5 X6.
  destruct (wo_session _ Hw _ _ Hid) as (y & Hy & [Y1 Y2 Y3 Y4 Y5]). simplify_eq.
  assert (Htot : total_viewers w' = total_viewers w).
  { rewrite (total_viewers_change w w' (sh_id x) sid 0); [lia|done|done| |].
    - intros id' sid' Hid' Hne. unfold viewer_count. rewrite Esh, lookup_insert_ne; [done|].
      intros <-. apply Hne. by eapply sessions_inj.
    - unfold viewer_count. rewrite Esh, lookup_insert_eq, Hx, X4. lia. }
  pose proof Hw as [W1 W2 W3 W4 W5]. split; rewrite ?Es; [..|done|lia|].
  - intros id' sid' Hid'. rewrite Esh. destruct (decide (id' = sh_id x)) as [->|Hne].
    + assert (sid' = sid) as -> by congruence. exists x'. rewrite lookup_insert_eq. split; [done|].
      split; rewrite ?X3, ?X4; try done; [congruence| |].
      * rewrite Et, lookup_install_tokens, decide_True; done.
      * destruct (decide (invitation_write_hash (sh_state x') = invitation_read_hash (sh_state x')))
          as [|Hd]; [by left|right].
        rewrite Et, lookup_install_tokens, decide_False, decide_True; done.
    + assert (sid ≠ sid') by (intros <-; apply Hne; by eapply sessions_inj).
      rewrite lookup_insert_ne by done. destruct (W1 _ _ Hid') as (z & Hz & [Z1 Z2 Z3 Z4 Z5]).
      exists z. split; [done|].
      assert (Hkeep : ∀ h r, w_tokens w !! h = Some (id', r) → w_tokens w' !! h = Some (id', r)).
      { intros h r Hh. rewrite Et, lookup_install_tokens.
        rewrite !decide_False; [by apply lookup_retain_tokens| |];
          intros ->; apply Hne; [by apply (Hwh (id', r))|by apply (Hrh (id', r))]. }
      split; try done; [by apply Hkeep|]. destruct Z5 as [Z5|Z5]; [by left|right; by apply Hkeep].
  - intros h i role. rewrite Et, lookup_install_tokens, Esh. intros Hh.
    destruct (decide (h = invitation_read_hash (sh_state x'))) as [->|H1].
    { simplify_eq. exists sid, x'. rewrite lookup_insert_eq. split; [done|]. split; [done|].
      left. done. }
    destruct (decide (h = invitation_write_hash (sh_state x'))) as [->|H2].
    { simplify_eq. exists sid, x'. rewrite lookup_insert_eq. split; [done|]. split; [done|].
      right. by rewrite X3. }
    apply lookup_retain_tokens in Hh as [Hh Hi]. simpl in Hi.
    destruct (W2 _ _ _ Hh) as (j & z & Hj & Hz & Hg). exists j, z.
    assert (j ≠ sid) by (intros ->; apply Hi; by eapply sessions_inj).
    by rewrite lookup_insert_ne.
  - intros i Hi. rewrite Esh, lookup_insert_ne; [apply W5; lia|].
    intros <-. rewrite (W5 sid) in Hx by lia. done.
Qed.

(** ** Reasoning about one run *)

Lemma wp_shared {B} sid x (k : Shared → M World B) Q w :
  w_shared w !! sid = Some x → wp (k x) Q w → wp (mbindM (shared sid) k) Q w.
Proof. intros Hx Hk. apply wp_bind. unfold wp, shared. by rewrite Hx. Qed.

Lemma wp_get_state {B} sid x (k : State → M World B) Q w :
  w_shared w !! sid = Some x → wp (k (sh_state x)) Q w → wp (mbindM (get_state sid) k) Q w.
Proof. intros Hx Hk. apply wp_bind. unfold wp, get_state, mbindM, shared. by rewrite Hx. Qed.

Definition upd_state (sid : Z) (f : State → State) (x : Shared) (w : World) : World :=
  set_w_shared (<[sid := set_sh_state (f (sh_state x)) x]> (w_shared w)) w.

Lemma modify_state_run sid f x w :
  w_shared w !! sid = Some x → modify_state sid f w = (Ok tt, upd_state sid f x w).
Proof. intros Hx. unfold modify_state, mbindM, shared. by rewrite Hx. Qed.

Lemma wp_modify_state {B} sid f x (k : unit → M World B) Q w :
  w_shared w !! sid = Some x → wp (k tt) Q (upd_state sid f x w) →
  wp (mbindM (modify_state sid f) k) Q w.
Proof. intros Hx Hk. apply wp_bind. unfold wp. by rewrite (modify_state_run sid f x). Qed.

(** The rest of a computation that keeps an invariant, after a calm part. *)
Lemma wp_bind_calm {A B} sid (c : M World A) (k : A → M World B) (Q : res B → World → Prop) w :
  preserves (calm sid) c →
  (∀ w', calm sid w w' → Q Panic w' ∧ (∀ e, Q (Err e) w') ∧ (∀ a, wp (k a) Q w')) →
  wp (mbindM c k) Q w.
Proof.
  intros Hc HQ. apply wp_bind, (wp_preserves (calm sid)); [done|]. intros r w' Hw.
  destruct (HQ w' Hw) as (H1 & H2 & H3). destruct r; simpl; auto.
Qed.

Definition Inv {A} : res A → World → Prop := λ _, world_ok.

Section invariant.
Context `{L : TermLibs} `{E : HubEnv}.

Lemma bool_free_for w id h :
  match w_tokens w !! h with None => true | Some (i, _) => bool_decide (i = id) end = true →
  free_for w id h.
Proof.
  intros Hb e He. rewrite He in Hb. destruct e as [i r]. by apply bool_decide_eq_true in Hb.
Qed.

Lemma rejoin_ok owner hello p wh rh sid w :
  world_ok w → w_sessions w !! hh_id hello = Some sid →
  wp (rejoin owner hello p wh rh sid)
    (λ r w', world_ok w' ∧ w_sessions w' = w_sessions w ∧ w_next w' = w_next w
       ∧ (∀ s, r = Ok s → s = sid)) w.
Proof.
  intros Hw Hid. destruct (wo_session _ Hw _ _ Hid) as (x & Hx & Ho).
  unfold rejoin. eapply wp_shared; [done|]. apply wp_lift_ensure; [|done]. intros G. split_guard.
  destruct p as [p|]; [|by unfold wp; split_and!; intros; simplify_eq/=].
  apply wp_lift_ensure; [|done]. intros G1.
  destruct (_ =? _) eqn:Er.
  - apply wp_lift_ensure; [|done]. intros _. eapply wp_modify_state; [done|].
    unfold wp. simpl. split_and!; try done; [|by intros; simplify_eq].
    apply (calm_ok sid w); [|done]. eapply calm_put_shared; [done|]. split; simpl; try done.
    by intros ->.
  - apply wp_get, wp_lift_ensure; [|done]. intros G2.
    cbn [forallb] in G2. rewrite andb_true_r in G2. apply andb_true_iff in G2 as [G2 G3].
    apply wp_modify. eapply wp_modify_state; [done|]. unfold wp. simpl.
    split_and!; [|done|done|by intros; simplify_eq].
    repeat match goal with H : bool_decide _ = true |- _ => apply bool_decide_eq_true in H end.
    eapply (replace_capabilities_ok w _ (hh_id hello) sid x _ wh rh);
      try done; try (by apply bool_free_for).
    simpl. congruence.
Qed.

(** The tables after a new session is entered. *)
Lemma new_session_ok w w' id sid x :
  world_ok w → w_sessions w !! id = None → w_next w ≤ sid →
  Z.of_nat (size (w_sessions w)) < 64 →
  w_tokens w !! invitation_write_hash (sh_state x) = None →
  w_tokens w !! invitation_read_hash (sh_state x) = None →
  sh_id x = id → sh_stop x = false → viewers (sh_state x) = ∅ → 0 ≤ o_max_viewers (sh_options x) →
  w_sessions w' = <[id := sid]> (w_sessions w) → w_shared w' = <[sid := x]> (w_shared w) →
  w_tokens w' = install_tokens id (invitation_write_hash (sh_state x))
                  (invitation_read_hash (sh_state x)) (o_read_only (sh_options x)) (w_tokens w) →
  w_next w' = sid + 1 → world_ok w'.
Proof.
  intros Hw Hid Hn Hc Hwh Hrh X1 X2 X3 X4 Es Esh Et En.
  pose proof Hw as [W1 W2 W3 W4 W5].
  assert (Hold : ∀ i s, w_sessions w !! i = Some s → s ≠ sid).
  { intros i s Hi ->. destruct (W1 _ _ Hi) as (y & Hy & _). rewrite (W5 sid) in Hy by lia. done. }
  split; rewrite ?Es, ?Esh, ?En.
  - intros id' sid' Hid'. destruct (decide (id' = id)) as [->|Hne].
    + rewrite lookup_insert_eq in Hid'. simplify_eq. exists x. rewrite lookup_insert_eq.
      split; [done|]. split; try done.
      * rewrite X3, map_size_empty. unfold MAX_VIEWERS. lia.
      * rewrite Et, lookup_install_tokens, decide_True; done.
      * destruct (decide (invitation_write_hash (sh_state x) = invitation_read_hash (sh_state x)));
          [by left|right]. rewrite Et, lookup_install_tokens, decide_False, decide_True; done.
    + rewrite lookup_insert_ne in Hid' by done. destruct (W1 _ _ Hid') as (y & Hy & [Y1 Y2 Y3 Y4 Y5]).
      exists y. rewrite lookup_insert_ne by (by apply not_eq_sym, (Hold id')). split; [done|].
      assert (Hkeep : ∀ h e, w_tokens w !! h = Some e → w_tokens w' !! h = Some e).
      { intros h e Hh. rewrite Et, lookup_install_tokens, !decide_False; [done|congruence|congruence]. }
      split; try done; [by apply Hkeep|]. destruct Y5; [by left|right; by apply Hkeep].
  - intros h i role. rewrite Et, lookup_install_tokens. intros Hh.
    destruct (decide (h = invitation_read_hash (sh_state x))) as [->|H1].
    { simplify_eq. exists sid, x. rewrite !lookup_insert_eq. split_and!; [done|done|]. by left. }
    destruct (decide (h = invitation_write_hash (sh_state x))) as [->|H2].
    { simplify_eq. exists sid, x. rewrite !lookup_insert_eq. split_and!; [done|done|]. by right. }
    destruct (W2 _ _ _ Hh) as (j & z & Hj & Hz & Hg). exists j, z.
    rewrite !lookup_insert_ne; [done|by apply not_eq_sym, (Hold i)|congruence].
  - rewrite map_size_insert_None by done. lia.
  - rewrite total_viewers_sum, Es, Esh.
    rewrite (zsum_perm _ _ _ (map_to_list_insert _ _ sid Hid)). simpl.
    unfold viewer_count at 1. rewrite lookup_insert_eq, X3, map_size_empty.
    rewrite (zsum_ext _ (λ y, viewer_count (w_shared w) y.2)).
    + rewrite <- total_viewers_sum. lia.
    + intros [i s] Hi%elem_of_map_to_list. unfold viewer_count. simpl.
      rewrite lookup_insert_ne; [done|]. by apply not_eq_sym, (Hold i).
  - intros i Hi. rewrite lookup_insert_ne by lia. apply W5. lia.
Qed.

Lemma create_session_ok owner hello revoked p wh rh clock pid w :
  world_ok w → w_sessions w !! hh_id hello = None → 0 ≤ o_max_viewers (hh_options hello) →
  wp (create_session owner hello revoked p wh rh clock pid)
    (λ r w', world_ok w' ∧ (∀ s, r = Ok s → s = w_next w)) w.
Proof.
  intros Hw Hid Hm. unfold create_session. apply wp_get, wp_lift_ensure; [|done]. intros G. split_guard.
  apply wp_lift_ensure; [|done]. intros G'. split_guard.
  repeat match goal with H : bool_decide _ = true |- _ => apply bool_decide_eq_true in H end.
  unfold wp. simpl. split; [|by intros; simplify_eq].
  eapply (new_session_ok w _ (hh_id hello) (w_next w)); try done; simpl; try done. lia.
Qed.

Lemma hello_max_viewers hello at_ u :
  validate_hello hello at_ = Ok u → 1 ≤ o_max_viewers (hh_options hello) ≤ 32.
Proof.
  unfold validate_hello, validate_options. intros Hv. res_inv. split_guard. lia.
Qed.

Lemma preserves_ok {A} sid (c : M World A) w :
  preserves (calm sid) c → world_ok w → wp c Inv w.
Proof. intros Hc Hw. apply (calm_ok sid w); [apply Hc|done]. Qed.

Lemma register_ok owner hello at_ clock pid revoked p w :
  world_ok w → wp (register_authorized owner hello at_ clock pid revoked p) Inv w.
Proof.
  intros Hw. unfold register_authorized. apply wp_lift; [|done|done]. intros u Hv%hello_max_viewers.
  apply wp_bind, (wp_preserves (λ w w', w' = w)).
  { intros v. by destruct p. }
  intros r w' ->. destruct r as [?|?|]; [|done|done]. apply wp_get, wp_bind.
  assert (Hk : ∀ r w', world_ok w' →
    wp_k (λ sid, let* lease := connect_host sid hello revoked in mok (sid, lease.1, lease.2)) Inv r w').
  { intros [sid|e|] w' Hw'; [|done|done]. simpl. apply (preserves_ok sid); [|done]. calm. }
  destruct (w_sessions w !! hh_id hello) as [sid|] eqn:Hs.
  - eapply wp_mono; [|by apply rejoin_ok]. intros r w' [Hw' _]. by apply Hk.
  - eapply wp_mono; [|apply create_session_ok; [done|done|lia]]. intros r w' [Hw' _]. by apply Hk.
Qed.

Lemma rotate_ok id gen update at_ w :
  world_ok w → wp (rotate_invitations id gen update at_) Inv w.
Proof.
  intros Hw. unfold rotate_invitations. apply wp_lift; [|done|done]. intros u _.
  apply wp_get, wp_lift; [|done|done]. intros sid Hid%ok_or_ok.
  destruct (wo_session _ Hw _ _ Hid) as (x & Hx & Ho).
  eapply wp_shared; [done|]. apply wp_lift_ensure; [|done]. intros _.
  destruct (_ =? _).
  { by apply wp_lift_ensure. }
  apply wp_lift_ensure; [|done]. intros _. apply wp_lift_ensure; [|done]. intros G. split_guard.
  repeat match goal with H : bool_decide _ = true |- _ => apply bool_decide_eq_true in H end.
  apply wp_modify. unfold wp. rewrite (modify_state_run sid _ x) by done.
  eapply (replace_capabilities_ok w _ id sid x); try done; intros e He; congruence.
Qed.

(** *** Attaching *)

(** There is room for one more participant in session [id]. *)
Definition room (id : string) (sid : Z) (w : World) : Prop :=
  world_ok w ∧ w_sessions w !! id = Some sid ∧ total_viewers w < 128
  ∧ ∃ x, w_shared w !! sid = Some x
      ∧ Z.of_nat (size (viewers (sh_state x))) < Z.min (o_max_viewers (sh_options x)) MAX_VIEWERS.

Lemma calm_room id sid w w' : calm sid w w' → room id sid w → room id sid w'.
Proof.
  intros Hc (Hw & Hid & Ht & x & Hx & Hr).
  pose proof (calm_total sid w w' Hw Hc) as [Ht' _].
  destruct (calm_lookup _ _ _ _ Hc Hx) as (x' & Hx' & Hs).
  pose proof (same_viewers _ _ Hs).
  split_and!; [by eapply calm_ok|by rewrite (calm_sessions _ _ _ Hc)|lia|].
  exists x'. rewrite (same_options _ _ Hs). split; [done|]. lia.
Qed.

Lemma size_insert_le (m : gmap Z Viewer) k v :
  (size (<[k := v]> m) ≤ S (size m))%nat.
Proof. rewrite map_size_insert. case_match; simpl; lia. Qed.

Lemma enter_viewer_ok id sid client v x w :
  room id sid w → w_shared w !! sid = Some x →
  world_ok (upd_state sid (λ s, set_viewers (<[client := v]> (viewers s)) s) x w).
Proof.
  intros (Hw & Hid & Ht & y & Hy & Hr) Hx. assert (y = x) as -> by congruence.
  pose proof Hw as [W1 W2 W3 W4 W5]. unfold upd_state. set (x' := set_sh_state _ _). pose proof (size_insert_le (viewers (sh_state x)) client v) as Hsz.
  assert (Hne : ∀ id' sid', w_sessions w !! id' = Some sid' → id' ≠ id → sid ≠ sid').
  { intros id' sid' Hid' Hne <-. apply Hne. by eapply sessions_inj. }
  split; simpl.
  - intros id' sid' Hid'. destruct (W1 _ _ Hid') as (z & Hz & Ho).
    destruct (decide (id' = id)) as [->|Hd].
    + simplify_eq. exists x'. rewrite lookup_insert_eq. split; [done|]. destruct Ho.
      split; try done. simpl. lia.
    + exists z. rewrite lookup_insert_ne by (by eapply Hne). destruct Ho. by split_and!.
  - intros h i role Hh. destruct (W2 _ _ _ Hh) as (j & z & Hj & Hz & Hg).
    destruct (decide (j = sid)) as [->|Hd].
    + simplify_eq. exists sid, x'. by rewrite lookup_insert_eq.
    + exists j, z. by rewrite lookup_insert_ne.
  - done.
  - rewrite (total_viewers_change w (set_w_shared (<[sid := x']> (w_shared w)) w) id sid
      (Z.of_nat (size (<[client := v]> (viewers (sh_state x)))) - Z.of_nat (size (viewers (sh_state x)))));
      [lia|done|done| |].
    + intros id' sid' Hid' Hd. unfold viewer_count. simpl. rewrite lookup_insert_ne; [done|].
      by eapply Hne.
    + unfold viewer_count. simpl. rewrite lookup_insert_eq, Hx. simpl. lia.
  - intros i Hi. rewrite lookup_insert_ne; [by apply W5|]. intros <-. rewrite W5 in Hx; done.
Qed.

Lemma find_identity_lookup s i client :
  find_identity s i = Some client → ∃ v, viewers s !! client = Some v ∧ v_identity v = i.
Proof.
  unfold find_identity. intros Hf. apply fmap_Some in Hf as ([c v] & Hf & ->).
  apply find_some in Hf as [Hin Hi]. exists v. simpl in *. split; [|lia].
  apply elem_of_map_to_list. by apply list_elem_of_In.
Qed.

Lemma wp_calm {A} sid (c : M World A) (Q : res A → World → Prop) w0 w :
  preserves (calm sid) c → calm sid w0 w → (∀ r w', calm sid w0 w' → calm sid w w' → Q r w') → wp c Q w.
Proof. intros Hc H0 HQ. apply HQ; [etrans; [done|]|]; apply Hc. Qed.

(** The previous connection of the participant makes room for the new one. *)
Lemma replace_identity_total id sid i x w :
  world_ok w → w_sessions w !! id = Some sid → w_shared w !! sid = Some x →
  is_Some (find_identity (sh_state x) i) →
  wp (replace_identity sid i)
    (λ r w', calm sid w w' ∧ (r = Ok tt → total_viewers w' < 128)) w.
Proof.
  intros Hw Hid Hx [client Hf]. destruct (find_identity_lookup _ _ _ Hf) as (v & Hv & _).
  unfold replace_identity. apply wp_lift_ensure; [intros _|done].
  eapply wp_get_state; [done|]. apply wp_lift_ensure; [intros _|done].
  rewrite Hf, Hv. apply wp_bind. eapply wp_modify_state; [done|].
  set (w1 := upd_state _ _ _ _).
  assert (Hc : calm sid w w1).
  { eapply calm_put_shared; [done|]. revert x Hx Hf Hv w1. same_state. }
  assert (Ht : total_viewers w1 < 128).
  { pose proof (wo_total _ Hw).
    destruct (calm_total sid w w1 Hw Hc) as [_ Hex].
    rewrite (Hex id x (set_sh_state (set_viewers (delete client (viewers (sh_state x))) (sh_state x)) x));
      [|done|done|by simpl; rewrite lookup_insert_eq].
    simpl. rewrite map_size_delete_Some by done.
    assert (size (viewers (sh_state x)) ≠ 0%nat); [|lia].
    intros Hz%map_size_empty_inv. by rewrite Hz in Hv. }
  assert (Hend : ∀ w', calm sid w1 w' → calm sid w w' ∧ total_viewers w' < 128).
  { intros w' Hc'. split; [by etrans|].
    pose proof (calm_total sid w1 w' (calm_ok _ _ _ Hc Hw) Hc') as [? _]. lia. }
  apply (wp_preserves (calm sid)); [calm|]. intros r w' Hc'. destruct r as [?|?|]; simpl;
    [|split; [by apply Hend|done]..].
  apply (wp_preserves (calm sid)); [calm|]. intros r w'' Hc''. 
  destruct (Hend w'') as [? ?]; [by etrans|]. done.
Qed.

Lemma room_bind {A B} id sid (c : M World A) (k : A → M World B) w :
  room id sid w → preserves (calm sid) c → (∀ a w', room id sid w' → wp (k a) Inv w') →
  wp (mbindM c k) Inv w.
Proof.
  intros Hr Hc Hk. apply wp_bind, (wp_preserves (calm sid)); [done|]. intros r w' Hw'.
  pose proof (calm_room _ _ _ _ Hw' Hr) as Hr'. destruct r; [by apply Hk|apply Hr'|apply Hr'].
Qed.

Lemma attach_ok id identity read_only cols rows term hash at_ clock w :
  world_ok w → wp (attach_inner id identity read_only cols rows term hash at_ clock) Inv w.
Proof.
  intros Hw. unfold attach_inner. apply wp_lift; [intros _ _|done|done].
  apply wp_lift_ensure; [intros _|done]. apply wp_get, wp_lift; [|done|done]. intros sid Hid%ok_or_ok.
  destruct (wo_session _ Hw _ _ Hid) as (x & Hx & Ho).
  eapply wp_shared; [done|]. apply wp_lift_ensure; [intros _|done].
  apply wp_bind, (wp_preserves (λ w w', w' = w)).
  { intros v. destruct hash; [|done]. unfold mbindM, lift. by repeat case_match. }
  intros [?|?|] w' ->; [|done|done]. simpl. apply wp_lift_ensure; [|done]. intros Hcap.
  apply wp_bind.
  assert (Hrep : wp match identity with Some i => replace_identity sid i | None => mok tt end
    (λ r w', calm sid w w' ∧ (r = Ok tt → total_viewers w' < 128)) w).
  { apply orb_true_iff in Hcap as [Hcap|Hcap].
    - apply (wp_preserves (calm sid)); [destruct identity; calm|]. intros r w' Hc. split; [done|].
      intros _. pose proof (calm_total sid w w' Hw Hc) as [? _]. lia.
    - destruct identity as [i|]; [|done]. apply bool_decide_eq_true in Hcap.
      by eapply replace_identity_total. }
  eapply wp_mono; [|exact Hrep]. intros r w1 [Hc1 Ht1]. pose proof (calm_ok _ _ _ Hc1 Hw) as Hw1.
  destruct r as [[]|e|]; [|done|done]. simpl. specialize (Ht1 eq_refl).
  destruct (calm_lookup _ _ _ _ Hc1 Hx) as (x1 & Hx1 & Hs1).
  eapply wp_get_state; [done|]. apply wp_lift_ensure; [|done]. intros Hsz.
  apply wp_lift_ensure; [intros _|done].
  assert (Hroom : room id sid w1).
  { split_and!; [done|by rewrite (calm_sessions _ _ _ Hc1)|done|]. exists x1. split; [done|].
    rewrite (same_options _ _ Hs1). lia. }
  clear Hrep Hcap Ht1 Hsz Hw1 Hc1. revert Hroom. generalize dependent w1. intros w1 _ Hroom.
  repeat (apply (room_bind id sid); [done|calm|]; clear dependent w1; intros ? w1 Hroom).
  pose proof Hroom as (_ & _ & _ & y & Hy & _).
  eapply wp_modify_state; [done|]. apply (preserves_ok sid); [calm|]. by eapply enter_viewer_ok.
Qed.

(** *** Ending a session *)

(** The tables without session [id]. *)
Lemma forget_session_ok w w' id sid :
  world_ok w → w_sessions w !! id = Some sid →
  w_sessions w' = delete id (w_sessions w) → w_tokens w' = retain_tokens id (w_tokens w) →
  w_next w ≤ w_next w' → (∀ i, i ≠ sid → w_shared w' !! i = w_shared w !! i) →
  (w_shared w !! sid = None → w_shared w' !! sid = None) → world_ok w'.
Proof.
  intros Hw Hid Es Et En Esh Hnone. pose proof Hw as [W1 W2 W3 W4 W5].
  assert (Hne : ∀ i s, w_sessions w !! i = Some s → i ≠ id → s ≠ sid).
  { intros i s Hi Hd ->. apply Hd. by eapply sessions_inj. }
  split; rewrite ?Es, ?Et.
  - intros i s [Hd Hi]%lookup_delete_Some. destruct (W1 _ _ Hi) as (x & Hx & []). exists x.
    rewrite Esh by (by eapply (Hne i)). split; [done|].
    assert (Hkeep : ∀ h r, w_tokens w !! h = Some (i, r) → w_tokens w' !! h = Some (i, r)).
    { intros h r Hh. rewrite Et. by apply lookup_retain_tokens. }
    split; try done; [by apply Hkeep|]. destruct so_write0; [by left|right; by apply Hkeep].
  - intros h i role [Hh Hi]%lookup_retain_tokens. simpl in Hi.
    destruct (W2 _ _ _ Hh) as (s & x & Hs & Hx & Hg). exists s, x.
    rewrite lookup_delete_ne by done. rewrite Esh by (by eapply (Hne i)). done.
  - etrans; [|exact W3]. apply inj_le, map_subseteq_size, delete_subseteq.
  - etrans; [|exact W4]. rewrite !total_viewers_sum, Es.
    rewrite <- (zsum_perm _ _ _ (map_to_list_delete _ _ _ Hid)). simpl.
    rewrite (zsum_ext _ (λ y, viewer_count (w_shared w) y.2)).
    + enough (0 ≤ viewer_count (w_shared w) sid) by lia. unfold viewer_count. case_match; lia.
    + intros [i s] [Hd Hi]%elem_of_map_to_list%lookup_delete_Some. unfold viewer_count. simpl.
      by rewrite Esh by (by eapply (Hne i)).
  - intros i Hi. destruct (decide (i = sid)) as [->|Hd]; [apply Hnone|rewrite Esh by done];
      apply W5; lia.
Qed.

(** Computations that always return a value. *)
Definition returns {A} (c : M World A) : Prop := ∀ w, ∃ a, (c w).1 = Ok a.

Lemma returns_send_host ch e : returns (send_host ch e).
Proof. intros w. unfold send_host. repeat case_match; eauto. Qed.
Lemma returns_send_viewer ch e : returns (send_viewer ch e).
Proof. intros w. unfold send_viewer. repeat case_match; eauto. Qed.
Lemma returns_then {A} (c : M World A) : returns c → returns (do* c in mok tt).
Proof. intros Hc w. destruct (Hc w) as [a Ha]. unfold mbindM. destruct (c w). simpl in Ha. subst. eauto. Qed.
Lemma returns_mfor {A} (l : list A) f : (∀ x, returns (f x)) → returns (mfor l f).
Proof.
  intros Hf. induction l as [|x l IH]; intros w; simpl; [eauto|].
  unfold mbindM. destruct (Hf x w) as [a Ha]. destruct (f x w). simpl in Ha. subst. apply IH.
Qed.

Lemma wp_calm_returns {A} sid (c : M World A) (Q : res A → World → Prop) w :
  preserves (calm sid) c → returns c → (∀ a w', calm sid w w' → Q (Ok a) w') → wp c Q w.
Proof. intros Hc Hr HQ. unfold wp. destruct (Hr w) as [a ->]. apply HQ, Hc. Qed.

(** What is left of a session that was removed. *)
Lemma remove_spec id reason revoked sid x w :
  w_sessions w !! id = Some sid → w_shared w !! sid = Some x →
  wp (remove id reason revoked) (λ r w', r = Ok tt
    ∧ w_sessions w' = delete id (w_sessions w) ∧ w_tokens w' = retain_tokens id (w_tokens w)
    ∧ w_next w ≤ w_next w' ∧ (∀ i, i ≠ sid → w_shared w' !! i = w_shared w !! i)
    ∧ ∃ x', w_shared w' !! sid = Some x' ∧ sh_id x' = sh_id x ∧ sh_stop x' = true
        ∧ generation (sh_state x) ≤ generation (sh_state x')) w.
Proof.
  intros Hid Hx. unfold remove. apply wp_get. rewrite Hid. apply wp_bind, wp_modify.
  eapply wp_modify_state; [done|]. eapply wp_shared; [apply lookup_insert_eq|].
  apply wp_modify. eapply wp_modify_state; [apply lookup_insert_eq|].
  set (w0 := upd_state _ _ _ _).
  assert (H0 : ∀ i, i ≠ sid → w_shared w0 !! i = w_shared w !! i).
  { intros i Hi. simpl. by rewrite !lookup_insert_ne. }
  assert (Hx0 : w_shared w0 !! sid = Some _) by apply lookup_insert_eq.
  apply wp_bind, (wp_calm_returns sid); [calm|destruct (host _); [|by intros ?; eauto];
    apply returns_then, returns_send_host|].
  intros u w1 Hc1. destruct (calm_lookup _ _ _ _ Hc1 Hx0) as (x1 & Hx1 & _).
  eapply wp_modify_state; [done|]. set (w2 := upd_state _ _ _ _).
  assert (Hc2 : calm sid w1 w2).
  { eapply calm_put_shared; [done|]. split; simpl; try done. rewrite map_size_empty. lia. }
  apply (wp_calm_returns sid); [calm|apply returns_mfor; intros; apply returns_then, returns_send_viewer|].
  intros [] w3 Hc3. assert (Hc : calm sid w0 w3) by (by do 2 (etrans; [done|])).
  destruct (calm_lookup _ _ _ _ Hc Hx0) as (x3 & Hx3 & Hs3).
  unfold wp_k, wp, modify. simpl. split_and!.
  - done.
  - by rewrite (calm_sessions _ _ _ Hc).
  - by rewrite (calm_tokens _ _ _ Hc).
  - apply (calm_next _ _ _ Hc).
  - intros i Hi. by rewrite (calm_other _ _ _ Hc), H0.
  - exists x3. split_and!; [done|apply (same_id _ _ Hs3)|apply (same_stop _ _ Hs3)|].
    apply (same_generation _ _ Hs3).
Qed.

Lemma remove_ok id reason revoked w : world_ok w → wp (remove id reason revoked) Inv w.
Proof.
  intros Hw. destruct (w_sessions w !! id) as [sid|] eqn:Hid.
  - destruct (wo_session _ Hw _ _ Hid) as (x & Hx & _).
    eapply wp_mono; [|by eapply remove_spec].
    intros r w' (_ & Es & Et & En & Esh & _). eapply forget_session_ok; try done. by rewrite Hx.
  - unfold remove. apply wp_get. rewrite Hid. unfold wp, mbindM, mok, modify. simpl.
    assert (Et : retain_tokens id (w_tokens w) = w_tokens w).
    { apply map_eq. intros h. destruct (w_tokens w !! h) as [[i r]|] eqn:Hh.
      - apply lookup_retain_tokens. split; [done|]. simpl. intros ->.
        destruct (wo_token _ Hw _ _ _ Hh) as (s & y & Hs & _). congruence.
      - destruct (retain_tokens id (w_tokens w) !! h) eqn:He; [|done].
        apply lookup_retain_tokens in He as [He _]. congruence. }
    rewrite Et. by destruct w.
Qed.
End invariant.
