(* ===== verification/HubTheorems.v ===== *)
(** * What the hub guarantees

    The hub as a transition system: every public method of [Hub], [Shared], [HostLease]
    and [Attachment], and the tasks at the other end of the queues.  Its theorems are what
    the holders of capabilities, read-only participants and hosts that have been replaced
    can and cannot do in any world the hub can reach. *)

From S2P Require Import Prelude Net RustStr Delivery TermProtocol Hub HubSafety.
Local Open Scope string_scope.
Local Open Scope list_scope.
Local Open Scope Z_scope.

Section system.
Context `{L : TermLibs} `{E : HubEnv}.

(** The task that writes a viewer's or a host's socket takes an event, or goes away. *)
Definition take_viewer (ch : Z) (w : World) : World :=
  set_w_viewers (alter (λ c, (vchan_recv c).2) ch (w_viewers w)) w.
Definition close_viewer (ch : Z) (w : World) : World :=
  set_w_viewers (alter (λ c, mkVChan (vch_queue c) true (vch_quota c)) ch (w_viewers w)) w.
Definition take_host (ch : Z) (w : World) : World :=
  set_w_hosts (alter (λ c, mkHChan (tl (hch_queue c)) (hch_closed c)) ch (w_hosts w)) w.
Definition close_host (ch : Z) (w : World) : World :=
  set_w_hosts (alter (λ c, mkHChan (hch_queue c) true) ch (w_hosts w)) w.

(** [attach_invitation] releases the mutex between [resolve] and [attach_inner]: the second
    half is a step of its own, for whatever an earlier [resolve] returned.  It is also the
    step of [attach_authorized]. *)
Inductive hub_step (w : World) : World → Prop :=
| step_admit : hub_step w (admit_ w).2
| step_register owner hello at_ clock pid revoked p :
    hub_step w (register_authorized owner hello at_ clock pid revoked p w).2
| step_rotate id gen update at_ : hub_step w (rotate_invitations id gen update at_ w).2
| step_attach capability identity cols rows term at_ clock :
    hub_step w (attach_invitation capability identity cols rows term at_ clock w).2
| step_attach_inner id identity read_only cols rows term hash at_ clock :
    hub_step w (attach_inner id identity read_only cols rows term hash at_ clock w).2
| step_remove id reason revoked : hub_step w (remove id reason revoked w).2
| step_revoke sid : hub_step w (revoke_invitations sid w).2
| step_kick sid identity : hub_step w (kick sid identity w).2
| step_offline sid gen clock : hub_step w (offline sid gen clock w).2
| step_detach sid client : hub_step w (detach sid client w).2
| step_input sid client i at_ clock : hub_step w (input sid client i at_ clock w).2
| step_output sid gen o clock : hub_step w (output sid gen o clock w).2
| step_take_viewer ch : hub_step w (take_viewer ch w)
| step_close_viewer ch : hub_step w (close_viewer ch w)
| step_take_host ch : hub_step w (take_host ch w)
| step_close_host ch : hub_step w (close_host ch w).

Definition reachable (w : World) : Prop := rtc hub_step world_new w.

(** ** The invariant *)

Lemma world_new_ok : world_ok world_new.
Proof. split; try done. Qed.

Lemma resolve_pure capability at_ w : (resolve capability at_ w).2 = w.
Proof.
  unfold resolve, mbindM, lift, get, shared. repeat (case_match; simplify_eq/=; try done).
Qed.

Lemma attach_invitation_ok capability identity cols rows term at_ clock w :
  world_ok w → wp (attach_invitation capability identity cols rows term at_ clock) Inv w.
Proof.
  intros Hw. unfold attach_invitation. apply wp_bind. unfold wp. rewrite resolve_pure.
  destruct (resolve capability at_ w).1 as [r|e|]; [|done|done]. simpl.
  apply wp_bind. unfold wp, shared. simpl. destruct (unwrap _); [|done|done]. by apply attach_ok.
Qed.

Lemma hub_step_ok w w' : hub_step w w' → world_ok w → world_ok w'.
Proof.
  intros Hs Hw. destruct Hs.
  - apply (calm_ok 0 w); [|done]. unfold admit_. case_match; by apply calm_queues.
  - by apply register_ok.
  - by apply rotate_ok.
  - by apply attach_invitation_ok.
  - by apply attach_ok.
  - by apply remove_ok.
  - by apply (preserves_ok sid); [calm|].
  - by apply (preserves_ok sid); [calm|].
  - by apply (preserves_ok sid); [calm|].
  - by apply (preserves_ok sid); [calm|].
  - by apply (preserves_ok sid); [calm|].
  - by apply (preserves_ok sid); [calm|].
  - apply (calm_ok 0 w); [|done]. by apply calm_queues.
  - apply (calm_ok 0 w); [|done]. by apply calm_queues.
  - apply (calm_ok 0 w); [|done]. by apply calm_queues.
  - apply (calm_ok 0 w); [|done]. by apply calm_queues.
Qed.

Lemma reachable_ok w : reachable w → world_ok w.
Proof.
  unfold reachable. generalize world_new_ok. intros H0 Hr. induction Hr; eauto using hub_step_ok.
Qed.

(** ** Sessions only move forward *)

(** A session keeps its identity, its generation never decreases and a stop is final. *)
Definition ahead (x x' : Shared) : Prop :=
  sh_id x' = sh_id x ∧ generation (sh_state x) ≤ generation (sh_state x')
  ∧ (sh_stop x = true → sh_stop x' = true).
Definition later (w w' : World) : Prop :=
  ∀ sid x, w_shared w !! sid = Some x → ∃ x', w_shared w' !! sid = Some x' ∧ ahead x x'.

#[local] Instance later_preorder : PreOrder later.
Proof.
  split.
  - intros w sid x Hx. exists x. unfold ahead. auto with lia.
  - intros a b c Hab Hbc sid x Hx. destruct (Hab _ _ Hx) as (y & Hy & Y1 & Y2 & Y3).
    destruct (Hbc _ _ Hy) as (z & Hz & Z1 & Z2 & Z3). exists z. unfold ahead. split_and!; [done|congruence|lia|auto].
Qed.

Lemma calm_later sid w w' : calm sid w w' → later w w'.
Proof.
  intros Hc i x Hx. destruct (calm_lookup_any _ _ _ _ _ Hc Hx) as (x' & Hx' & Hs).
  exists x'. split; [done|]. destruct Hs. unfold ahead. split_and!; [done|done|congruence].
Qed.
Lemma preserves_later {A} sid (c : M World A) : preserves (calm sid) c → preserves later c.
Proof. intros Hc w. by eapply calm_later. Qed.

Lemma later_tables w w' : w_shared w' = w_shared w → later w w'.
Proof. intros Es sid x Hx. exists x. rewrite Es. unfold ahead. auto with lia. Qed.

Lemma later_insert sid x x' w w' :
  w_shared w' = <[sid := x']> (w_shared w) → w_shared w !! sid = Some x → ahead x x' → later w w'.
Proof.
  intros Es Hx Ha i y Hy. rewrite Es. destruct (decide (i = sid)) as [->|Hne].
  - simplify_eq. exists x'. by rewrite lookup_insert_eq.
  - exists y. rewrite lookup_insert_ne by done. unfold ahead. auto with lia.
Qed.

Lemma later_modify_state sid f :
  (∀ s, generation s ≤ generation (f s)) → preserves later (modify_state sid f).
Proof.
  intros Hf w. unfold modify_state, mbindM, shared.
  destruct (w_shared w !! sid) as [x|] eqn:Hx; simpl; [|done].
  by eapply (later_insert sid x).
Qed.

(** Walk down a computation, as [calm] does. *)
Ltac later :=
  repeat (intros;
    match goal with
    | |- preserves _ (mok _) => apply preserves_mok; apply _
    | |- preserves _ (lift _) => apply preserves_lift; apply _
    | |- preserves _ get => apply preserves_get; apply _
    | |- preserves _ (mbindM _ _) => apply preserves_bind; [apply _| |]
    | |- preserves _ (modify_state _ _) => apply later_modify_state; intros; simpl; lia
    | |- preserves _ (modify (λ _, set_w_tokens _ _)) => intros ?; by apply later_tables
    | |- preserves _ _ => first [ solve [apply (preserves_later 0); auto with hub]
                                | solve [eapply preserves_later; eauto with hub] ]
    | |- preserves _ (match ?x with _ => _ end) => destruct x
    end).

Lemma later_rejoin owner hello p wh rh sid : preserves later (rejoin owner hello p wh rh sid).
Proof. unfold rejoin. later. Qed.
Lemma later_rotate id gen update at_ : preserves later (rotate_invitations id gen update at_).
Proof. unfold rotate_invitations. later. Qed.
Lemma later_attach id identity read_only cols rows term hash at_ clock :
  preserves later (attach_inner id identity read_only cols rows term hash at_ clock).
Proof. unfold attach_inner. later. Qed.
Lemma later_attach_invitation capability identity cols rows term at_ clock :
  preserves later (attach_invitation capability identity cols rows term at_ clock).
Proof.
  unfold attach_invitation. apply preserves_bind; [apply _| |].
  { intros w. by rewrite resolve_pure. }
  intros r. apply preserves_bind; [apply _|later|]. intros x. apply later_attach.
Qed.

Lemma later_create owner hello revoked p wh rh clock pid w :
  world_ok w → later w (create_session owner hello revoked p wh rh clock pid w).2.
Proof.
  intros Hw. change (wp (create_session owner hello revoked p wh rh clock pid) (λ _, later w) w).
  unfold create_session. apply wp_get, wp_lift_ensure; [|done]. intros _.
  apply wp_lift_ensure; [|done]. intros _. unfold wp. simpl.
  intros i y Hy. exists y. simpl. rewrite lookup_insert_ne; [unfold ahead; auto with lia|].
  intros <-. rewrite (wo_fresh _ Hw) in Hy by lia. done.
Qed.

Lemma later_remove id reason revoked w : world_ok w → later w (remove id reason revoked w).2.
Proof.
  intros Hw. destruct (w_sessions w !! id) as [sid|] eqn:Hid.
  - destruct (wo_session _ Hw _ _ Hid) as (x & Hx & _).
    pose proof (remove_spec id reason revoked sid x w Hid Hx) as (_ & _ & _ & _ & Ho & x' & Hx' & A1 & A2 & A3).
    intros i y Hy. destruct (decide (i = sid)) as [->|Hne]; [|exists y; rewrite Ho by done; unfold ahead; auto with lia].
    simplify_eq. exists x'. unfold ahead. auto.
  - unfold remove, mbindM, get, mok, modify. rewrite Hid. by apply later_tables.
Qed.

Lemma connect_host_generation sid hello revoked x w g ch w' :
  w_shared w !! sid = Some x → connect_host sid hello revoked w = (Ok (g, ch), w') →
  ∃ x', w_shared w' !! sid = Some x' ∧ generation (sh_state x') = g ∧ generation (sh_state x) < g.
Proof.
  intros Hx Hr.
  cut (wp (connect_host sid hello revoked) (λ r w', r = Ok (g, ch) →
    ∃ x', w_shared w' !! sid = Some x' ∧ generation (sh_state x') = g ∧ generation (sh_state x) < g) w).
  { unfold wp. rewrite Hr. intros H. by apply H. }
  clear Hr w'. unfold connect_host.
  apply (wp_bind_calm sid); [auto with hub|]. intros w1 Hc1. split_and!; [done|done|]. intros ch'.
  apply wp_modify. destruct (calm_lookup _ _ _ _ Hc1 Hx) as (x1 & Hx1 & Hs1).
  eapply wp_modify_state; [exact Hx1|]. eapply wp_get_state; [apply lookup_insert_eq|].
  eapply wp_modify_state; [apply lookup_insert_eq|].
  set (w2 := upd_state _ _ _ _). 
  assert (Hx2 : w_shared w2 !! sid = Some _) by apply lookup_insert_eq.
  apply (wp_bind_calm sid); [calm|]. intros w3 Hc3. split_and!; [done|done|]. intros ?.
  destruct (calm_lookup _ _ _ _ Hc3 Hx2) as (x3 & Hx3 & Hs3).
  eapply wp_modify_state; [done|]. set (w4 := upd_state _ _ _ _).
  assert (Hx4 : w_shared w4 !! sid = Some _) by apply lookup_insert_eq.
  do 4 (apply (wp_bind_calm sid); [calm|]; intros ?w ?Hc; split_and!; [done|done|]; intros ?).
  assert (Hc7 : calm sid w4 w7) by (by repeat (etrans; [done|])).
  destruct (calm_lookup _ _ _ _ Hc7 Hx4) as (x7 & Hx7 & Hs7).
  eapply wp_get_state; [done|]. unfold wp, mok. simpl. intros [= <- <-].
  exists x7. split_and!; [done|done|].
  pose proof (same_generation _ _ Hs1). pose proof (same_generation _ _ Hs3).
  pose proof (same_generation _ _ Hs7). simpl in *. lia.
Qed.

(** The session a registration returns, and the world in between. *)
Lemma register_generation owner hello at_ clock pid revoked p w sid g ch w' :
  world_ok w → register_authorized owner hello at_ clock pid revoked p w = (Ok (sid, g, ch), w') →
  ∃ x', w_shared w' !! sid = Some x' ∧ generation (sh_state x') = g
    ∧ ∀ x, w_shared w !! sid = Some x → generation (sh_state x) < g.
Proof.
  intros Hw Hr.
  cut (wp (register_authorized owner hello at_ clock pid revoked p) (λ r w', r = Ok (sid, g, ch) →
    ∃ x', w_shared w' !! sid = Some x' ∧ generation (sh_state x') = g
    ∧ ∀ x, w_shared w !! sid = Some x → generation (sh_state x) < g) w).
  { unfold wp. rewrite Hr. intros H. by apply H. }
  clear Hr w'. unfold register_authorized. apply wp_lift; [|done|done]. intros u Hv%hello_max_viewers.
  apply wp_bind, (wp_preserves (λ w w', w' = w)).
  { intros v. by destruct p. }
  intros r w' ->. destruct r as [?|?|]; [|done|done]. apply wp_get, wp_bind.
  set (c := match w_sessions w !! hh_id hello with Some _ => _ | None => _ end).
  assert (Hlater : later w (c w).2).
  { unfold c. destruct (_ !! _); [apply later_rejoin|by apply later_create]. }
  unfold wp at 1. destruct (c w) as [[i|e|] w1]; [|done|done]. simpl in *.
  apply wp_bind. unfold wp. destruct (connect_host i hello revoked w1) as [r w2] eqn:Hc. simpl.
  destruct r as [[g' ch']|e|]; [|done|done]. simpl. intros [= -> -> ->].
  destruct (w_shared w1 !! sid) as [x1|] eqn:Hx1.
  - destruct (connect_host_generation _ _ _ _ _ _ _ _ Hx1 Hc) as (x' & Hx' & Hg & Hlt).
    exists x'. split_and!; [done|done|]. intros x Hx.
    destruct (Hlater _ _ Hx) as (y & Hy & _ & Hge & _). simplify_eq. lia.
  - exfalso. revert Hc. unfold connect_host, modify_state, mbindM, fresh, modify, shared.
    simpl. rewrite Hx1. simpl. discriminate.
Qed.

Lemma step_later w w' : world_ok w → hub_step w w' → later w w'.
Proof.
  intros Hw Hs. destruct Hs; try (by apply later_tables).
  - unfold admit_. by case_match; apply later_tables.
  - assert (H : wp (register_authorized owner hello at_ clock pid revoked p) (λ _, later w) w);
      [|exact H].
    unfold register_authorized. apply wp_lift; [intros _ _|intros; reflexivity..].
    apply wp_bind, (wp_preserves (λ w w', w' = w)); [intros v; by destruct p|].
    intros [?|?|] w' ->; simpl; [|reflexivity..]. apply wp_get, wp_bind.
    set (c := match w_sessions w !! hh_id hello with Some _ => _ | None => _ end).
    assert (Hlater : later w (c w).2).
    { unfold c. destruct (_ !! _); [apply later_rejoin|by apply later_create]. }
    unfold wp at 1. destruct (c w) as [[i|e|] w1]; [|done|done]. simpl in *.
    apply (wp_preserves later); [later|]. intros r w2 Hl. by etrans.
  - apply later_rotate.
  - apply later_attach_invitation.
  - apply later_attach.
  - by apply later_remove.
  - eapply calm_later, calm_revoke_invitations.
  - eapply calm_later, calm_kick.
  - eapply calm_later, calm_offline.
  - eapply calm_later, calm_detach.
  - eapply calm_later, calm_input.
  - eapply calm_later, calm_output.
Qed.

Lemma steps_later w w' : world_ok w → rtc hub_step w w' → later w w'.
Proof.
  intros Hw Hr. induction Hr as [|a b c Hab Hbc IH]; [done|].
  etrans; [by apply step_later|]. apply IH. by eapply hub_step_ok.
Qed.

Lemma resolve_spec w capability at_ sid read_only w' :
  world_ok w → resolve capability at_ w = (Ok (sid, read_only), w') →
  ∃ x, w_shared w !! sid = Some x ∧ w_sessions w !! sh_id x = Some sid
    ∧ sh_stop x = false ∧ expired x at_ = false ∧ is_Some (host (sh_state x))
    ∧ invitations_revoked (sh_state x) = false
    ∧ (invitation_expires_at (sh_state x) = 0 ∨ at_ < invitation_expires_at (sh_state x))
    ∧ grants x (digest capability) read_only.
Proof.
  intros Hw Hr.
  cut (wp (resolve capability at_) (λ r _, r = Ok (sid, read_only) → ∃ x,
    w_shared w !! sid = Some x ∧ w_sessions w !! sh_id x = Some sid
    ∧ sh_stop x = false ∧ expired x at_ = false ∧ is_Some (host (sh_state x))
    ∧ invitations_revoked (sh_state x) = false
    ∧ (invitation_expires_at (sh_state x) = 0 ∨ at_ < invitation_expires_at (sh_state x))
    ∧ grants x (digest capability) read_only) w).
  { unfold wp. rewrite Hr. intros H. by apply H. }
  unfold resolve. apply wp_lift_ensure; [intros _|done]. apply wp_get.
  apply wp_lift; [|done|done]. intros [id role] Ht%ok_or_ok.
  apply wp_lift; [|done|done]. intros i Hi%ok_or_ok. simpl in Hi.
  destruct (wo_token _ Hw _ _ _ Ht) as (j & x & Hj & Hx & Hg). assert (j = i) as -> by congruence.
  destruct (wo_session _ Hw _ _ Hi) as (y & Hy & Ho). assert (y = x) as -> by congruence.
  eapply wp_shared; [done|]. apply wp_lift_ensure; [|done]. intros G1.
  apply wp_lift_ensure; [|done]. intros G2. apply wp_lift_ensure; [|done]. intros G3. split_guard.
  unfold wp, mok. simpl. intros [= -> ->]. exists x. rewrite (so_id _ _ _ Ho).
  split_and!; try done; [by apply bool_decide_eq_true in G2|].
  apply orb_true_iff in G1 as [?|?]; [left|right]; lia.
Qed.

Lemma rotate_spec w id gen update at_ w' sid x :
  world_ok w → rotate_invitations id gen update at_ w = (Ok tt, w') →
  w_sessions w !! id = Some sid → w_shared w !! sid = Some x →
  world_ok w' ∧ ∃ x', w_shared w' !! sid = Some x' ∧ sh_options x' = sh_options x
    ∧ invitation_write_hash (sh_state x') = digest (iu_write_token update)
    ∧ invitation_read_hash (sh_state x') = digest (iu_read_token update).
Proof.
  intros Hw Hr Hid Hx. split.
  { pose proof (rotate_ok id gen update at_ w Hw) as H. unfold wp in H. by rewrite Hr in H. }
  cut (wp (rotate_invitations id gen update at_) (λ r w', r = Ok tt →
    ∃ x', w_shared w' !! sid = Some x' ∧ sh_options x' = sh_options x
    ∧ invitation_write_hash (sh_state x') = digest (iu_write_token update)
    ∧ invitation_read_hash (sh_state x') = digest (iu_read_token update)) w).
  { unfold wp. rewrite Hr. intros H. by apply H. }
  unfold rotate_invitations. apply wp_lift; [intros _ _|done|done].
  apply wp_get. rewrite Hid. apply wp_lift; [|done|done]. intros i Hi. injection Hi as <-.
  eapply wp_shared; [done|]. apply wp_lift_ensure; [intros _|done].
  destruct (_ =? _).
  - apply wp_lift_ensure; [|done]. intros G. split_guard. intros _. exists x.
    repeat match goal with H : bool_decide _ = true |- _ => apply bool_decide_eq_true in H end. done.
  - apply wp_lift_ensure; [intros _|done]. apply wp_lift_ensure; [intros _|done].
    apply wp_modify. unfold wp. rewrite (modify_state_run sid _ x) by done. intros _.
    eexists. split; [apply lookup_insert_eq|done].
Qed.

(** ** Theorems *)

(** C3. In every world the hub can reach, whatever the order of registrations, rotations,
    attachments, input, output, disconnects and slow readers: every session in the table is
    live, is filed under its own id and has at most its participant limit (and at most 32)
    viewers; every capability hash in the token table is the current read or write hash of
    a live session with the right role, and conversely; there are at most 64 sessions and
    at most 128 participants in all; and handles above the counter are unused. *)
Theorem hub_invariant w : reachable w → world_ok w.
Proof. apply reachable_ok. Qed.

(** [Hub::resolve] never changes the hub, and a capability that resolves stands for a
    session that is live, online, not revoked and not expired at that moment; the role is
    the one of the hash: a read capability never resolves to a writable role. *)
Theorem resolve_sound w capability at_ sid read_only w' :
  reachable w → resolve capability at_ w = (Ok (sid, read_only), w') →
  w' = w ∧ ∃ x, w_shared w !! sid = Some x ∧ w_sessions w !! sh_id x = Some sid
    ∧ sh_stop x = false ∧ expired x at_ = false ∧ is_Some (host (sh_state x))
    ∧ invitations_revoked (sh_state x) = false
    ∧ (invitation_expires_at (sh_state x) = 0 ∨ at_ < invitation_expires_at (sh_state x))
    ∧ grants x (digest capability) read_only.
Proof.
  intros Hw%reachable_ok Hr. pose proof (resolve_pure capability at_ w) as Hp.
  rewrite Hr in Hp. simpl in Hp. subst w'. split; [done|]. by eapply resolve_spec.
Qed.

(** C9. Fencing: once a host has registered again, the lease of every earlier connection
    is dead for good.  In every later world its output is refused with the stale-connection
    error and changes nothing, and dropping it does not take the session offline. *)
Theorem replaced_host_is_fenced w owner hello at_ clock pid revoked p sid g ch w' x gen w'' o t :
  reachable w →
  register_authorized owner hello at_ clock pid revoked p w = (Ok (sid, g, ch), w') →
  w_shared w !! sid = Some x → gen ≤ generation (sh_state x) →
  rtc hub_step w' w'' →
  output sid gen o t w'' = (Err "stale terminal host connection", w'')
  ∧ offline sid gen t w'' = (Ok tt, w'').
Proof.
  intros Hw%reachable_ok Hr Hx Hgen Hs.
  destruct (register_generation _ _ _ _ _ _ _ _ _ _ _ _ Hw Hr) as (x' & Hx' & Hg & Hlt).
  specialize (Hlt _ Hx).
  assert (Hw' : world_ok w').
  { pose proof (register_ok owner hello at_ clock pid revoked p w Hw) as H.
    unfold wp in H. by rewrite Hr in H. }
  destruct (steps_later _ _ Hw' Hs _ _ Hx') as (y & Hy & _ & Hge & _).
  assert (Hne : (gen =? generation (sh_state y)) = false) by lia.
  unfold output, offline, get_state, mbindM, shared, lift, mok. rewrite Hy. simpl. rewrite Hne. done.
Qed.

(** Rotation: when [rotate_invitations] succeeds, the only capabilities that resolve to
    the session from then on are the two of the update (up to the digest), the read one
    read-only and the write one with the session's own mode; every older invitation is
    dead. *)
Theorem rotation_revokes_old_capabilities w id gen update at_ w' sid capability t read_only w'' :
  reachable w → rotate_invitations id gen update at_ w = (Ok tt, w') →
  w_sessions w !! id = Some sid → resolve capability t w' = (Ok (sid, read_only), w'') →
  digest capability = digest (iu_read_token update) ∧ read_only = true
  ∨ digest capability = digest (iu_write_token update)
    ∧ ∃ x, w_shared w !! sid = Some x ∧ read_only = o_read_only (sh_options x).
Proof.
  intros Hw%reachable_ok Hr Hid Hres. destruct (wo_session _ Hw _ _ Hid) as (x & Hx & _).
  destruct (rotate_spec _ _ _ _ _ _ _ _ Hw Hr Hid Hx) as (Hw' & x' & Hx' & Eo & Ew & Er).
  destruct (resolve_spec _ _ _ _ _ _ Hw' Hres) as (y & Hy & _ & _ & _ & _ & _ & _ & Hg).
  assert (y = x') as -> by congruence. unfold grants in Hg. rewrite Ew, Er, Eo in Hg.
  destruct Hg as [[-> ->]|[-> ->]]; [by left|right]. split; [done|]. by exists x.
Qed.

(** Ending: after [remove] (a session's end, its timeout or a disconnect) the session
    can no longer be reached.  No capability resolves to it, nobody can attach to it by id,
    and in every later world a participant's input and the host's output are refused and
    change nothing. *)
Theorem removed_session_is_dead w id reason revoked sid w' :
  reachable w → w_sessions w !! id = Some sid → (remove id reason revoked w).2 = w' →
  (∀ capability at_, (resolve capability at_ w').1 ≠ Ok (sid, true)
                     ∧ (resolve capability at_ w').1 ≠ Ok (sid, false))
  ∧ (∀ identity ro cols rows term at_ clock r,
       (attach_authorized id identity ro cols rows term at_ clock w').1 ≠ Ok r)
  ∧ (∀ w'', rtc hub_step w' w'' →
      (∀ client i at_ clock, input sid client i at_ clock w'' = (Err "terminal session ended", w''))
      ∧ (∀ gen o clock, output sid gen o clock w'' = (Err "stale terminal host connection", w''))).
Proof.
  intros Hw%reachable_ok Hid <-. destruct (wo_session _ Hw _ _ Hid) as (x & Hx & _).
  pose proof (remove_ok id reason revoked w Hw) as Hw'. unfold wp, Inv in Hw'.
  pose proof (remove_spec id reason revoked sid x w Hid Hx)
    as (_ & Es & Et & En & Ho & x' & Hx' & A1 & A2 & A3).
  set (w' := (remove id reason revoked w).2) in *. split_and!.
  - intros capability at_. split; intros Hr;
      destruct (resolve capability at_ w') as [r v] eqn:Er; simpl in Hr; subst r;
      destruct (resolve_spec _ _ _ _ _ _ Hw' Er) as (y & Hy & _ & Hstop & _); congruence.
  - intros identity ro cols rows term at_ clock r.
    change (wp (attach_authorized id identity ro cols rows term at_ clock) (λ r' _, r' ≠ Ok r) w').
    unfold attach_authorized, attach_inner. apply wp_lift; [intros _ _|done|done].
    apply wp_lift_ensure; [intros _|done]. apply wp_get, wp_lift; [|done|done].
    intros s Hs%ok_or_ok. rewrite Es, lookup_delete_eq in Hs. done.
  - intros w'' Hs. destruct (steps_later _ _ Hw' Hs _ _ Hx') as (y & Hy & _ & _ & Hstop).
    specialize (Hstop A2). unfold input, output, mbindM, shared, lift. rewrite Hy. simpl.
    rewrite Hstop. split; intros; [done|]. by rewrite andb_false_r.
Qed.

(** *** Attaching is checked again *)

Definition frozen (w w' : World) : Prop := w_shared w' = w_shared w.
#[local] Instance frozen_preorder : PreOrder frozen.
Proof. split; [done|]. unfold frozen. intros a b c. congruence. Qed.

Lemma frozen_presence sid : preserves frozen (presence sid).
Proof.
  assert (H1 : ∀ ch e, preserves frozen (send_host ch e)).
  { intros ch e w. unfold send_host. destruct (_ !! _); [|done]. by destruct (hchan_send _ _). }
  assert (H2 : ∀ ch e, preserves frozen (send_viewer ch e)).
  { intros ch e w. unfold send_viewer. destruct (_ !! _); [|done]. by destruct (vchan_send _ _). }
  assert (H3 : preserves frozen (get_state sid)).
  { intros w. unfold get_state, mbindM, shared. by destruct (_ !! _). }
  unfold presence, notify_host.
  repeat (intros; match goal with
    | |- preserves _ (mok _) => apply preserves_mok; apply _
    | |- preserves _ (mbindM _ _) => apply preserves_bind; [apply _| |]
    | |- preserves _ (mfor _ _) => apply preserves_mfor; [apply _|]
    | |- preserves _ (match ?x with _ => _ end) => destruct x
    | |- preserves _ _ => done
    end).
Qed.

(** C5. The admission race is closed: between [resolve] and the second half of
    [attach_invitation] the hub may do anything, yet when [attach_inner] admits a
    participant for a capability hash, that hash is at this very moment a current
    capability of the live session with exactly the role used, not revoked and not expired,
    and the participant is entered with that role. *)
Theorem attach_rechecks w id identity read_only cols rows term hash at_ clock client sid ch w' :
  reachable w →
  attach_inner id identity read_only cols rows term (Some hash) at_ clock w = (Ok (client, sid, ch), w') →
  ∃ x x' v, w_sessions w !! id = Some sid ∧ w_shared w !! sid = Some x
    ∧ grants x hash read_only ∧ sh_stop x = false ∧ expired x at_ = false
    ∧ invitations_revoked (sh_state x) = false
    ∧ (invitation_expires_at (sh_state x) = 0 ∨ at_ < invitation_expires_at (sh_state x))
    ∧ w_shared w' !! sid = Some x' ∧ viewers (sh_state x') !! client = Some v
    ∧ v_read_only v = read_only.
Proof.
  intros Hw%reachable_ok Hr.
  set (Q := λ (r : res (Z * Z * Z)) w', r = Ok (client, sid, ch) →
    ∃ x x' v, w_sessions w !! id = Some sid ∧ w_shared w !! sid = Some x
    ∧ grants x hash read_only ∧ sh_stop x = false ∧ expired x at_ = false
    ∧ invitations_revoked (sh_state x) = false
    ∧ (invitation_expires_at (sh_state x) = 0 ∨ at_ < invitation_expires_at (sh_state x))
    ∧ w_shared w' !! sid = Some x' ∧ viewers (sh_state x') !! client = Some v
    ∧ v_read_only v = read_only).
  cut (wp (attach_inner id identity read_only cols rows term (Some hash) at_ clock) Q w).
  { unfold wp. rewrite Hr. intros H. by apply H. }
  clear Hr w'. unfold attach_inner. apply wp_lift; [intros _ _|done|done].
  apply wp_lift_ensure; [intros _|done]. apply wp_get, wp_lift; [|done|done]. intros i Hid%ok_or_ok.
  destruct (wo_session _ Hw _ _ Hid) as (x & Hx & Ho).
  eapply wp_shared; [done|]. apply wp_lift_ensure; [|done]. intros G1. split_guard.
  apply wp_bind, wp_lift_ensure; [|done]. intros G2.
  apply wp_lift_ensure; [|done]. intros G3. split_guard.
  destruct (w_tokens w !! hash) as [[id' role]|] eqn:Ht; [|done].
  apply andb_true_iff in G2 as [->%bool_decide_eq_true ->%eqb_prop].
  destruct (wo_token _ Hw _ _ _ Ht) as (j & y & Hj & Hy & Hg).
  assert (j = i) as -> by congruence. assert (y = x) as -> by congruence.
  apply orb_true_iff in G3.
  apply wp_lift_ensure; [intros _|done].
  apply (wp_bind_calm i); [destruct identity; calm|]. intros w1 Hc1. split_and!; [done|done|]. intros [].
  destruct (calm_lookup _ _ _ _ Hc1 Hx) as (x1 & Hx1 & Hs1).
  eapply wp_get_state; [done|]. apply wp_lift_ensure; [intros _|done]. apply wp_lift_ensure; [intros _|done].
  do 8 (apply (wp_bind_calm i); [calm|]; intros ?w ?Hc; split_and!; [done|done|]; intros ?).
  assert (Hc8 : calm i w1 w8) by (by repeat (etrans; [done|])).
  destruct (calm_lookup _ _ _ _ Hc8 Hx1) as (x8 & Hx8 & _).
  eapply wp_modify_state; [done|]. eapply wp_modify_state; [apply lookup_insert_eq|].
  apply wp_bind, (wp_preserves frozen); [apply frozen_presence|]. intros r w9 Hf.
  destruct r as [?|?|]; [|done|done]. unfold wp_k, wp, mok. simpl. intros [= <- <- <-].
  unfold frozen in Hf. rewrite Hf. unfold upd_state at 1. simpl. rewrite lookup_insert_eq.
  do 3 eexists. split_and!; try done; [destruct G3; [left|right]; lia|simpl; apply lookup_insert_eq|done].
Qed.

(** *** Read-only participants *)

(** An event that carries no keystrokes to the terminal. *)
Definition keystrokes (e : HostEvent) : bool :=
  match e with
  | HeInput _ _ => true
  | HeDelivery _ packet => match packet_decode packet with Ok (Data _) => true | _ => false end
  | _ => false
  end.

(** Host channels only grow, by events without keystrokes. *)
Definition quiet (w w' : World) : Prop :=
  ∀ ch c', w_hosts w' !! ch = Some c' → ∃ c, w_hosts w !! ch = Some c
    ∧ ∃ events, hch_queue c' = hch_queue c ++ events ∧ forallb (λ e, negb (keystrokes e)) events = true.

#[local] Instance quiet_preorder : PreOrder quiet.
Proof.
  split.
  - intros w ch c Hc. exists c. split; [done|]. exists []. by rewrite app_nil_r.
  - intros a b c Hab Hbc ch z Hz. destruct (Hbc _ _ Hz) as (y & Hy & e2 & E2 & F2).
    destruct (Hab _ _ Hy) as (x & Hx & e1 & E1 & F1). exists x. split; [done|]. exists (e1 ++ e2).
    rewrite E2, E1, app_assoc, forallb_app, F1, F2. done.
Qed.

Lemma quiet_hosts w w' : w_hosts w' = w_hosts w → quiet w w'.
Proof. intros He. unfold quiet. rewrite He. intros ch c Hc. exists c. split; [done|]. exists []. by rewrite app_nil_r. Qed.

Lemma quiet_send_host ch e : keystrokes e = false → preserves quiet (send_host ch e).
Proof.
  intros He w. unfold send_host. destruct (w_hosts w !! ch) as [c|] eqn:Hc; [|by apply quiet_hosts].
  unfold hchan_send. destruct (_ || _); simpl.
  - rewrite insert_id by done. by apply quiet_hosts.
  - intros i c'. simpl. destruct (decide (i = ch)) as [->|Hne].
    + rewrite lookup_insert_eq. intros [= <-]. exists c. split; [done|]. exists [e]. simpl. by rewrite He.
    + rewrite lookup_insert_ne by done. by apply (quiet_hosts w).
Qed.

Lemma quiet_modify_state sid f : preserves quiet (modify_state sid f).
Proof.
  intros w. unfold modify_state, mbindM, shared. destruct (_ !! _); [|done]. by apply quiet_hosts.
Qed.
Lemma quiet_get_state sid : preserves quiet (get_state sid).
Proof. intros w. unfold get_state, mbindM, shared. by destruct (_ !! _). Qed.
Lemma quiet_send_viewer ch e : preserves quiet (send_viewer ch e).
Proof.
  intros w. unfold send_viewer. destruct (_ !! _); [|done]. destruct (vchan_send _ _). by apply quiet_hosts.
Qed.

(** Walk down a computation whose host events carry no keystrokes. *)
Ltac quiet :=
  repeat (intros;
    match goal with
    | |- preserves _ (mok _) => apply preserves_mok; apply _
    | |- preserves _ (lift _) => apply preserves_lift; apply _
    | |- preserves _ (mbindM _ _) => apply preserves_bind; [apply _| |]
    | |- preserves _ (mfor _ _) => apply preserves_mfor; [apply _|]
    | |- preserves _ (get_state _) => apply quiet_get_state
    | |- preserves _ (modify_state _ _) => apply quiet_modify_state
    | |- preserves _ (send_viewer _ _) => apply quiet_send_viewer
    | |- preserves _ (send_host _ _) => by apply quiet_send_host
    | |- preserves _ (match ?x with _ => _ end) => destruct x
    end).

Lemma quiet_presence sid : preserves quiet (presence sid).
Proof. unfold presence, notify_host. quiet. Qed.

Lemma react_read_only direct snapshots client v i at_ clock v' e p :
  v_read_only v = true → react direct snapshots client v i at_ clock = Ok (Forward v' e p) →
  keystrokes e = false.
Proof.
  intros Hro. destruct i; simpl; rewrite ?Hro; intros Hr; try done.
  - res_inv. destruct v2 as [f|ep n]; res_inv; [done|]. unfold keystrokes. by rewrite E2.
  - destruct direct; [|done]. simpl in Hr. by res_inv.
  - case_match; by simplify_eq.
  - res_inv. repeat (case_match; try done); by simplify_eq.
  - by res_inv.
Qed.

(** C6. Read-only participants cannot type: whatever message a participant with a
    read-only role sends, in whatever state the hub is, no host channel receives terminal
    input from it, neither as [Input] nor as a delivery data frame; plain input is refused
    and changes nothing. *)
Theorem read_only_cannot_type w sid client x v i at_ clock :
  w_shared w !! sid = Some x → viewers (sh_state x) !! client = Some v → v_read_only v = true →
  (∀ ch c', w_hosts (input sid client i at_ clock w).2 !! ch = Some c' →
     ∃ c, w_hosts w !! ch = Some c ∧ ∃ events, hch_queue c' = hch_queue c ++ events
       ∧ forallb (λ e, negb (keystrokes e)) events = true)
  ∧ (∀ data, i = ViInput data → sh_stop x = false →
       input sid client i at_ clock w = (Err "this invitation is read-only", w)).
Proof.
  intros Hx Hv Hro. split.
  - change (quiet w (input sid client i at_ clock w).2).
    change (wp (input sid client i at_ clock) (λ _, quiet w) w).
    unfold input. eapply wp_shared; [done|]. apply wp_lift_ensure; [intros _|done].
    rewrite Hv. apply wp_lift; [|done|done]. intros v0 [= <-].
    apply wp_lift; [|done|done]. intros r Hr. destruct r as [v' e p|e|]; [| |apply (wp_preserves quiet); [apply preserves_mok, _|done]].
    + pose proof (react_read_only _ _ _ _ _ _ _ _ _ _ Hro Hr) as He.
      apply (wp_preserves quiet); [|done]. unfold put_viewer. quiet. apply quiet_presence.
    + apply (wp_preserves quiet); [|done]. quiet.
  - intros data -> Hs. unfold input, mbindM, shared, lift. rewrite Hx. simpl. rewrite Hs. simpl.
    rewrite Hv. simpl. by rewrite Hro.
Qed.

(** *** Sessions do not interfere *)

(** The operations on one session through its lease, its attachments or the console. *)
Inductive session_step (sid : Z) (w : World) : World → Prop :=
| local_input client i at_ clock : session_step sid w (input sid client i at_ clock w).2
| local_output gen o clock : session_step sid w (output sid gen o clock w).2
| local_kick identity : session_step sid w (kick sid identity w).2
| local_detach client : session_step sid w (detach sid client w).2
| local_offline gen clock : session_step sid w (offline sid gen clock w).2
| local_revoke : session_step sid w (revoke_invitations sid w).2.

(** Isolation: whatever the host and the participants of one session send, in any
    order, the tables of the hub and the state of every other session are left alone, and
    the session itself keeps its identity, owner, options, capabilities and revision, and
    never gains a participant. *)
Theorem sessions_are_isolated sid w w' :
  rtc (session_step sid) w w' →
  w_sessions w' = w_sessions w ∧ w_tokens w' = w_tokens w
  ∧ (∀ i, i ≠ sid → w_shared w' !! i = w_shared w !! i)
  ∧ (∀ x, w_shared w !! sid = Some x → ∃ x', w_shared w' !! sid = Some x' ∧ same x x').
Proof.
  intros Hr. assert (Hc : calm sid w w').
  { induction Hr as [|a b c Hab _ IH]; [done|]. etrans; [|exact IH]. destruct Hab.
    - apply calm_input.
    - apply calm_output.
    - apply calm_kick.
    - apply calm_detach.
    - apply calm_offline.
    - apply calm_revoke_invitations. }
  split_and!; [apply Hc..|]. intros x. by apply calm_lookup.
Qed.
End system.

(** ** Examples *)

#[global] Instance sample_env : HubEnv := {
  capacity := slen;
  members_capacity l := len l;
  size_of_queued := 64;
  size_of_participant := 32;
}.

Definition sample_id : string := "0000000000000000000000000000000a".
Definition sample_write : string := "000000000000000000000000000000000000000000000000000000000000000b".
Definition sample_read : string := "000000000000000000000000000000000000000000000000000000000000000c".
Definition sample_hello : HostHello :=
  mkHostHello false false sample_id
    "000000000000000000000000000000000000000000000000000000000000000d" sample_write sample_read
    (mkOptions "demo" 0 None 0 60 1000 false false Smallest Both 4).
Definition sample_register : M World (Z * Z * Z) :=
  register_authorized "owner" sample_hello 100 0 1 false None.
Definition sample_world : World := (sample_register world_new).2.
Definition sample_attached : World := (attach sample_read 80 24 "xterm" 100 0 sample_world).2.

Lemma sample_reachable : reachable sample_world.
Proof. apply rtc_once, step_register. Qed.
Lemma sample_attached_reachable : reachable sample_attached.
Proof. eapply rtc_r; [apply sample_reachable|]. apply step_attach. Qed.

Lemma hub_invariant_witness : world_ok sample_attached ∧ total_viewers sample_attached = 1.
Proof. split; [apply (hub_invariant sample_attached), sample_attached_reachable|vm_compute; reflexivity]. Defined.

Lemma resolve_sound_witness :
  ∃ w', resolve sample_read 100 sample_world = (Ok (0, true), w') ∧ w' = sample_world.
Proof.
  assert (H : (resolve sample_read 100 sample_world).1 = Ok (0, true)) by (vm_compute; reflexivity).
  exists (resolve sample_read 100 sample_world).2. split; [by apply run_eq|].
  by apply (resolve_sound sample_world sample_read 100 0 true _ sample_reachable), run_eq.
Defined.

Definition sample_again : World := (sample_register sample_world).2.

Lemma sample_again_run : sample_register sample_world = (Ok (0, 2, 2), sample_again).
Proof.
  assert (H : (sample_register sample_world).1 = Ok (0, 2, 2)) by (vm_compute; reflexivity).
  exact (run_eq sample_register sample_world _ H).
Qed.

Lemma replaced_host_is_fenced_witness :
  output 0 1 HoPong 0 sample_again = (Err "stale terminal host connection", sample_again).
Proof.
  destruct (w_shared sample_world !! 0) as [x|] eqn:Hx; [|vm_compute in Hx; discriminate].
  assert (Hg : (generation ∘ sh_state) <$> (w_shared sample_world !! 0) = Some 1) by (vm_compute; reflexivity).
  rewrite Hx in Hg. injection Hg as Hg.
  refine (proj1 (replaced_host_is_fenced sample_world "owner" sample_hello 100 0 1 false None 0 2 2
    sample_again x 1 sample_again HoPong 0 sample_reachable sample_again_run Hx _ (rtc_refl _ _))).
  simpl in Hg. lia.
Defined.

Definition sample_update : InvitationUpdate :=
  mkUpdate 1 "000000000000000000000000000000000000000000000000000000000000001b"
    "000000000000000000000000000000000000000000000000000000000000001c" 0.
Definition sample_rotated : World := (rotate_invitations sample_id 1 sample_update 100 sample_world).2.

Lemma rotation_revokes_old_capabilities_witness :
  (resolve sample_read 100 sample_rotated).1 ≠ Ok (0, true)
  ∧ (resolve (iu_read_token sample_update) 100 sample_rotated).1 = Ok (0, true).
Proof.
  split; [|vm_compute; reflexivity]. intros Hr.
  assert (H : (rotate_invitations sample_id 1 sample_update 100 sample_world).1 = Ok tt)
    by (vm_compute; reflexivity).
  assert (Hs : w_sessions sample_world !! sample_id = Some 0) by (vm_compute; reflexivity).
  destruct (rotation_revokes_old_capabilities sample_world sample_id 1 sample_update 100 _ 0
    sample_read 100 true _ sample_reachable (run_eq _ _ _ H) Hs (run_eq _ _ _ Hr)) as [[Hd _]|[Hd _]];
    vm_compute in Hd; discriminate.
Defined.

Lemma removed_session_is_dead_witness :
  (resolve sample_read 100 (remove sample_id "done" true sample_world).2).1 ≠ Ok (0, true).
Proof.
  apply (removed_session_is_dead sample_world sample_id "done" true 0 _ sample_reachable
    ltac:(vm_compute; reflexivity) eq_refl).
Defined.

Lemma read_only_cannot_type_witness :
  input 0 1 (ViInput "bHM=") 100 0 sample_attached = (Err "this invitation is read-only", sample_attached).
Proof.
  destruct (w_shared sample_attached !! 0) as [x|] eqn:Hx; [|vm_compute in Hx; discriminate].
  assert (Hq : (λ x, ((sh_stop x, v_read_only <$> viewers (sh_state x) !! 1))) <$> (w_shared sample_attached !! 0)
    = Some (false, Some true)) by (vm_compute; reflexivity).
  rewrite Hx in Hq. injection Hq as Hs Hv. destruct (viewers (sh_state x) !! 1) as [v|] eqn:Ev; [|done].
  injection Hv as Hv. by apply (read_only_cannot_type sample_attached 0 1 x v (ViInput "bHM=") 100 0 Hx Ev Hv) with "bHM=".
Defined.

Lemma sessions_are_isolated_witness :
  w_tokens (kick 0 1 sample_attached).2 = w_tokens sample_attached.
Proof.
  apply (sessions_are_isolated 0 sample_attached), rtc_once, local_kick.
Defined.

Lemma attach_rechecks_witness :
  ∃ x v, w_shared (attach_inner sample_id None true 80 24 "xterm" (Some (digest sample_read)) 100 0
            sample_world).2 !! 0 = Some x
    ∧ viewers (sh_state x) !! 1 = Some v ∧ v_read_only v = true.
Proof.
  assert (H : (attach_inner sample_id None true 80 24 "xterm" (Some (digest sample_read)) 100 0 sample_world).1
    = Ok (1, 0, 2)) by (vm_compute; reflexivity).
  destruct (attach_rechecks sample_world sample_id None true 80 24 "xterm" (digest sample_read) 100 0 1 0 2
    _ sample_reachable (run_eq _ _ _ H)) as (x & x' & v & _ & _ & _ & _ & _ & _ & _ & Hx' & Hv & Hro).
  exists x', v. exact (conj Hx' (conj Hv Hro)).
Defined.
