(* ===== verification/HubQueues.v ===== *)
(** * The queues of the hub

    Every event a viewer has not read yet is paid for out of the 1 MiB quota of its queue,
    and a host channel holds at most 128 events.  The bound is shown for each primitive on
    the store and lifted to every method of the hub, so it holds in every reachable world. *)

From S2P Require Import Prelude Net RustStr Delivery TermProtocol Hub HubSafety HubTheorems.
Local Open Scope string_scope.
Local Open Scope list_scope.
Local Open Scope Z_scope.

(** Capacities and sizes are [usize]. *)
Class HubEnvOk `{E : HubEnv} : Prop := {
  capacity_nonneg s : 0 ≤ capacity s;
  members_capacity_nonneg l : 0 ≤ members_capacity l;
  size_of_queued_nonneg : 0 ≤ size_of_queued;
  size_of_participant_nonneg : 0 ≤ size_of_participant;
}.

Create HintDb hub_queue discriminated.

Section queues.
Context `{L : TermLibs} `{E : HubEnv} `{!HubEnvOk}.

(** The bytes a queued event is charged for. *)
Definition price (e : ViewerEvent) : Z := Z.min (charge e) U32_MAX.
Definition queued_bytes (q : list ViewerEvent) : Z := zsum price q.

Definition vchan_ok (c : VChan) : Prop :=
  vch_quota c + queued_bytes (vch_queue c) = BYTES ∧ 0 ≤ vch_quota c ∧ len (vch_queue c) ≤ MESSAGES.
Definition hchan_ok (c : HChan) : Prop := len (hch_queue c) ≤ HOST_MESSAGES.
Definition queues_ok (w : World) : Prop :=
  map_Forall (λ _, vchan_ok) (w_viewers w) ∧ map_Forall (λ _, hchan_ok) (w_hosts w).

Lemma price_nonneg e : 0 ≤ price e.
Proof.
  unfold price, charge, opt_capacity.
  assert (Hc : ∀ o, 0 ≤ default 0 (capacity <$> o)).
  { intros [s|]; simpl; [apply capacity_nonneg|done]. }
  assert (U64_MAX = 18446744073709551615 ∧ U32_MAX = 4294967295) as [-> ->] by done.
  pose proof size_of_queued_nonneg. pose proof size_of_participant_nonneg.
  repeat apply Z.min_glb; try done.
  destruct e; repeat match goal with
    | |- context [capacity ?s] => lazymatch goal with H : 0 ≤ capacity s |- _ => fail | _ => pose proof (capacity_nonneg s) end
    | |- context [default 0 (capacity <$> ?o)] => generalize (Hc o); generalize (default 0 (capacity <$> o)); intros
    | |- context [members_capacity ?l] => generalize (members_capacity_nonneg l); generalize (members_capacity l); intros
    end; try lia; nia.
Qed.

Lemma queued_bytes_app p q : queued_bytes (p ++ q) = queued_bytes p + queued_bytes q.
Proof. unfold queued_bytes. induction p as [|e p IH]; simpl; lia. Qed.

Lemma vchan_new_ok : vchan_ok vchan_new.
Proof. by apply (bool_decide_unpack _). Qed.

Lemma vchan_send_ok c e : vchan_ok c → vchan_ok (vchan_send c e).2.
Proof.
  intros (H1 & H2 & H3). unfold vchan_send. destruct (vch_closed c); [done|].
  destruct (vch_quota c <? Z.min (charge e) U32_MAX) eqn:Eq; [done|].
  destruct (len (vch_queue c) <? MESSAGES) eqn:El; [|done].
  unfold vchan_ok. simpl. rewrite queued_bytes_app, length_app. unfold queued_bytes at 2, price.
  cbn [zsum foldr length]. lia.
Qed.

Lemma vchan_recv_ok c : vchan_ok c → vchan_ok (vchan_recv c).2.
Proof.
  intros (H1 & H2 & H3). unfold vchan_ok, vchan_recv.
  destruct (vch_queue c) as [|e q] eqn:Eq; cbn [fst snd vch_quota vch_queue]; [by rewrite Eq|].
  unfold queued_bytes in *. cbn [zsum foldr length] in *. fold (price e).
  pose proof (price_nonneg e). unfold zsum in *. lia.
Qed.

Lemma hchan_send_ok c e : hchan_ok c → hchan_ok (hchan_send c e).2.
Proof.
  unfold hchan_ok, hchan_send. intros Hc. destruct (_ || _) eqn:G; [done|].
  apply orb_false_iff in G as [_ G]. simpl. rewrite length_app. simpl. lia.
Qed.

(** ** Every method keeps the queues within their bounds *)

Definition keeps (w w' : World) : Prop := queues_ok w → queues_ok w'.
#[local] Instance keeps_preorder : PreOrder keeps.
Proof. split; [intros w Hw; exact Hw|]. intros a b c Hab Hbc Ha. exact (Hbc (Hab Ha)). Qed.

Lemma keeps_same w w' : w_viewers w' = w_viewers w → w_hosts w' = w_hosts w → keeps w w'.
Proof. unfold keeps, queues_ok. by intros -> ->. Qed.
Lemma keeps_fresh : preserves keeps fresh.
Proof. intros w. by apply keeps_same. Qed.
Lemma keeps_shared sid : preserves keeps (shared sid).
Proof. intros w. by apply keeps_same. Qed.
Lemma keeps_put_shared sid x : preserves keeps (put_shared sid x).
Proof. intros w. by apply keeps_same. Qed.
Lemma keeps_tokens f : preserves keeps (modify (λ w, set_w_tokens (f w) w)).
Proof. intros w. by apply keeps_same. Qed.
Lemma keeps_sessions f : preserves keeps (modify (λ w, set_w_sessions (f w) w)).
Proof. intros w. by apply keeps_same. Qed.
Lemma keeps_send_host ch e : preserves keeps (send_host ch e).
Proof.
  intros w [Hv Hh]. unfold send_host. destruct (w_hosts w !! ch) as [c|] eqn:Hc; [|done].
  pose proof (hchan_send_ok c e (Hh _ _ Hc)) as Hs. destruct (hchan_send c e) as [b c'].
  split; [done|]. by apply map_Forall_insert_2.
Qed.
Lemma keeps_send_viewer ch e : preserves keeps (send_viewer ch e).
Proof.
  intros w [Hv Hh]. unfold send_viewer. destruct (w_viewers w !! ch) as [c|] eqn:Hc; [|done].
  pose proof (vchan_send_ok c e (Hv _ _ Hc)) as Hs. destruct (vchan_send c e) as [b c'].
  split; [|done]. by apply map_Forall_insert_2.
Qed.
Lemma keeps_new_viewer ch : preserves keeps (modify (λ w, set_w_viewers (<[ch := vchan_new]> (w_viewers w)) w)).
Proof. intros w [Hv Hh]. split; [|done]. apply map_Forall_insert_2; [apply vchan_new_ok|done]. Qed.
Lemma keeps_new_host ch : preserves keeps (modify (λ w, set_w_hosts (<[ch := mkHChan [] false]> (w_hosts w)) w)).
Proof. intros w [Hv Hh]. split; [done|]. by apply map_Forall_insert_2. Qed.
#[local] Hint Resolve keeps_fresh keeps_shared keeps_put_shared keeps_tokens keeps_sessions
  keeps_send_host keeps_send_viewer keeps_new_viewer keeps_new_host : hub_queue.

(** Walk down a computation to the primitives. *)
Ltac keeps :=
  repeat (intros;
    match goal with
    | |- preserves _ (mok _) => apply preserves_mok; apply _
    | |- preserves _ (lift _) => apply preserves_lift; apply _
    | |- preserves _ get => apply preserves_get; apply _
    | |- preserves _ (mbindM _ _) => apply preserves_bind; [apply _| |]
    | |- preserves _ (mfor _ _) => apply preserves_mfor; [apply _|]
    | |- preserves _ _ => solve [auto with hub_queue]
    | |- preserves _ (match ?x with _ => _ end) => destruct x
    end).

Lemma keeps_get_state sid : preserves keeps (get_state sid).
Proof. unfold get_state. keeps. Qed.
Lemma keeps_modify_state sid f : preserves keeps (modify_state sid f).
Proof. unfold modify_state. keeps. Qed.
#[local] Hint Resolve keeps_get_state keeps_modify_state : hub_queue.
Lemma keeps_notify_host sid e : preserves keeps (notify_host sid e).
Proof. unfold notify_host. keeps. Qed.
Lemma keeps_put_viewer sid client v : preserves keeps (put_viewer sid client v).
Proof. unfold put_viewer. keeps. Qed.
#[local] Hint Resolve keeps_notify_host keeps_put_viewer : hub_queue.
Lemma keeps_presence sid : preserves keeps (presence sid).
Proof. unfold presence. keeps. Qed.
#[local] Hint Resolve keeps_presence : hub_queue.
Lemma keeps_drop_viewer sid client : preserves keeps (drop_viewer sid client).
Proof. unfold drop_viewer. keeps. Qed.
Lemma keeps_remove_participant sid i : preserves keeps (remove_participant sid i).
Proof. unfold remove_participant. keeps. Qed.
#[local] Hint Resolve keeps_drop_viewer keeps_remove_participant : hub_queue.
Lemma keeps_direct_reply sid client request e : preserves keeps (direct_reply sid client request e).
Proof. unfold direct_reply. keeps. Qed.
Lemma keeps_send_or_drop sid client v e : preserves keeps (send_or_drop sid client v e).
Proof. unfold send_or_drop. keeps. Qed.
#[local] Hint Resolve keeps_direct_reply keeps_send_or_drop : hub_queue.
Lemma keeps_register owner hello at_ clock pid revoked p :
  preserves keeps (register_authorized owner hello at_ clock pid revoked p).
Proof. unfold register_authorized, rejoin, create_session, connect_host, reattach_viewer. keeps. Qed.
Lemma keeps_attach id identity read_only cols rows term hash at_ clock :
  preserves keeps (attach_inner id identity read_only cols rows term hash at_ clock).
Proof. unfold attach_inner, replace_identity. keeps. Qed.
#[local] Hint Resolve keeps_attach : hub_queue.

Lemma keeps_step w w' : hub_step w w' → keeps w w'.
Proof.
  intros [].
  - unfold admit_. case_match; by apply keeps_same.
  - apply keeps_register.
  - revert w. change (preserves keeps (rotate_invitations id gen update at_)). unfold rotate_invitations. keeps.
  - revert w. change (preserves keeps (attach_invitation capability identity cols rows term at_ clock)).
    unfold attach_invitation, resolve. keeps.
  - apply keeps_attach.
  - revert w. change (preserves keeps (remove id reason revoked)). unfold remove. keeps.
  - revert w. change (preserves keeps (revoke_invitations sid)). unfold revoke_invitations. keeps.
  - revert w. change (preserves keeps (kick sid identity)). unfold kick. keeps.
  - revert w. change (preserves keeps (offline sid gen clock)). unfold offline. keeps.
  - revert w. change (preserves keeps (detach sid client)). unfold detach. keeps.
  - revert w. change (preserves keeps (input sid client i at_ clock)). unfold input. keeps.
  - revert w. change (preserves keeps (output sid gen o clock)). unfold output. keeps.
  - intros [Hv Hh]. split; [|done]. intros i c. simpl. rewrite lookup_alter_Some.
    intros [(-> & c0 & Hc & ->)|[_ Hc]]; [apply vchan_recv_ok|]; exact (Hv _ _ Hc).
  - intros [Hv Hh]. split; [|done]. intros i c. simpl. rewrite lookup_alter_Some.
    intros [(-> & c0 & Hc & ->)|[_ Hc]]; exact (Hv _ _ Hc).
  - intros [Hv Hh]. split; [done|]. intros i c. simpl. rewrite lookup_alter_Some.
    intros [(-> & c0 & Hc & ->)|[_ Hc]]; [|by eapply Hh].
    specialize (Hh _ _ Hc). unfold hchan_ok in *. simpl. destruct (hch_queue c0); simpl in *; lia.
  - intros [Hv Hh]. split; [done|]. intros i c. simpl. rewrite lookup_alter_Some.
    intros [(-> & c0 & Hc & ->)|[_ Hc]]; exact (Hh _ _ Hc).
Qed.

(** C15. In every reachable world the bytes charged for the events a viewer has not read
    plus what is left of its quota are exactly 1 MiB, the quota is never overdrawn, and
    the queue has at most [MESSAGES] events; a host channel has at most 128. *)
Theorem queues_bounded w : reachable w →
  (∀ ch c, w_viewers w !! ch = Some c →
     vch_quota c + queued_bytes (vch_queue c) = BYTES ∧ 0 ≤ vch_quota c
     ∧ queued_bytes (vch_queue c) ≤ BYTES ∧ len (vch_queue c) ≤ MESSAGES)
  ∧ (∀ ch c, w_hosts w !! ch = Some c → len (hch_queue c) ≤ HOST_MESSAGES).
Proof.
  intros Hr. assert (Hq : queues_ok w).
  { unfold reachable in Hr. assert (H0 : queues_ok world_new) by (split; apply map_Forall_empty).
    induction Hr as [|a b c Hab Hbc IH]; [done|]. by apply IH, (keeps_step a). }
  destruct Hq as [Hv Hh]. split; [|exact Hh]. intros ch c Hc.
  destruct (Hv _ _ Hc) as (H1 & H2 & H3). lia.
Qed.
End queues.

#[global] Instance sample_env_ok : HubEnvOk.
Proof. split; simpl; intros; unfold slen; lia. Qed.

Lemma queues_bounded_witness :
  ∃ c, w_viewers sample_attached !! 2 = Some c ∧ queued_bytes (vch_queue c) ≤ BYTES.
Proof.
  destruct (w_viewers sample_attached !! 2) as [c|] eqn:Hc; [|vm_compute in Hc; discriminate].
  exists c. split; [done|].
  by destruct (proj1 (queues_bounded sample_attached sample_attached_reachable) 2 c Hc) as (_ & _ & H & _).
Defined.
