(* ===== verification/Json.v ===== *)
(** * JSON values and the legacy coercions ([porthub-api/src/input_compat.rs])

    [serde_json::Value] as the API crate builds it ([preserve_order]): an object keeps its
    entries in insertion order and an insertion of a present key replaces the value in
    place.  What the JSON library and the float formatting decide is the class [JsonLibs]:
    numbers are abstract, with the conversions the code asks for. *)

From S2P Require Import Prelude Net RustStr Text.
Local Open Scope string_scope.
Local Open Scope list_scope.
Local Open Scope Z_scope.

(** ** Values *)

Class JsonLibs := {
  Number : Type;
  Number_eq_dec :: EqDecision Number;
  number_of : Z → Number;
  number_text : Number → string;
  number_i64 : Number → option Z;
  number_u64 : Number → option Z;
  is_f64 : Number → bool;
  (** [as_f64() == Some(n)] for the integers compared with *)
  f64_is : Number → Z → bool;
  (** [as_f64()] if finite, truncated by [as i128] *)
  f64_trunc : Number → option Z;
  (** at least [1e16] in magnitude, or below [1e-4] and not zero *)
  f64_extreme : Number → bool;
  (** mantissa and exponent of ["{value:e}"], and [to_string] *)
  f64_scientific : Number → string * Z;
  f64_display : Number → string;
}.

Inductive Value `{L : JsonLibs} :=
| VNull
| VBool (b : bool)
| VNumber (n : Number)
| VString (s : string)
| VArray (l : list Value)
| VObject (m : list (string * Value)).

Section json.
Context `{L : JsonLibs}.

Definition Map := list (string * Value).

Fixpoint map_get (m : Map) (key : string) : option Value :=
  match m with
  | [] => None
  | (k, v) :: m => if bool_decide (k = key) then Some v else map_get m key
  end.
Fixpoint map_insert (m : Map) (key : string) (value : Value) : Map :=
  match m with
  | [] => [(key, value)]
  | (k, v) :: m => if bool_decide (k = key) then (k, value) :: m else (k, v) :: map_insert m key value
  end.

(** [value.get(key)] and [value[key]]: absent and not an object give [Null]. *)
Definition vget (v : Value) (key : string) : option Value :=
  match v with VObject m => map_get m key | _ => None end.
Definition index (v : Value) (key : string) : Value := default VNull (vget v key).
Definition as_array (v : Value) : option (list Value) := match v with VArray l => Some l | _ => None end.
Definition as_str (v : Value) : option string := match v with VString s => Some s | _ => None end.
Definition is_null (v : Value) : bool := match v with VNull => true | _ => false end.

(** [PartialEq]: objects compare as maps. *)
Fixpoint value_eqb (a b : Value) : bool :=
  match a, b with
  | VNull, VNull => true
  | VBool x, VBool y => Bool.eqb x y
  | VNumber x, VNumber y => bool_decide (x = y)
  | VString x, VString y => bool_decide (x = y)
  | VArray x, VArray y =>
      (fix go (x y : list Value) : bool :=
         match x, y with
         | [], [] => true
         | a :: x, b :: y => value_eqb a b && go x y
         | _, _ => false
         end) x y
  | VObject x, VObject y =>
      (len x =? len y)
      && (fix go (x : list (string * Value)) : bool :=
            match x with
            | [] => true
            | (k, v) :: x =>
                match map_get y k with Some w => value_eqb v w | None => false end && go x
            end) x
  | _, _ => false
  end.

(** ** [input_compat.rs] *)

Definition truthy (value : Value) : bool :=
  match value with
  | VNull => false
  | VBool b => b
  | VNumber n => negb (f64_is n 0)
  | VString s => negb (str_is_empty s)
  | VArray l => negb (len l =? 0)
  | VObject m => negb (len m =? 0)
  end.

Fixpoint dictionary_pairs (values : list Value) (object : Map) : option Map :=
  match values with
  | [] => Some object
  | VArray [VString k; v] :: values => dictionary_pairs values (map_insert object k v)
  | VString chars :: values =>
      match str_chars chars with
      | [a; b] => dictionary_pairs values (map_insert object a (VString b))
      | _ => None
      end
  | _ => None
  end.
Definition dictionary (value : Value) : option Map :=
  match value with
  | VObject m => Some m
  | VArray values => dictionary_pairs values []
  | _ => None
  end.

(** White space and the separators U+001C to U+001F. *)
Definition strip_set : list string := white_space ++ map str_of_bytes [[28]; [29]; [30]; [31]].
Definition strip_start (s : string) : string := strip_all (String.length s) strip_set s.
Definition strip_end (s : string) : string :=
  str_rev (strip_all (String.length s) (map str_rev strip_set) (str_rev s)).
Definition strip (value : string) : string := strip_end (strip_start value).

(** ["{exponent:+03}"] *)
Definition show_exponent (e : Z) : string :=
  (if e <? 0 then "-" else "+")
  +:+ (if Z.abs e <? 10 then "0" +:+ show_u128 (Z.abs e) else show_u128 (Z.abs e)).

Definition quote_char (quote : string) (c : string) : string :=
  if bool_decide (c = str_of_bytes [10]) then str_of_bytes [92; 110]
  else if bool_decide (c = str_of_bytes [13]) then str_of_bytes [92; 114]
  else if bool_decide (c = str_of_bytes [9]) then str_of_bytes [92; 116]
  else if bool_decide (c = quote) || bool_decide (c = str_of_bytes [92]) then str_of_bytes [92] +:+ c
  else if is_control (code_point c) then
    let code := code_point c in
    if code <=? 255 then str_of_bytes [92; 120] +:+ show_hex code
    else str_of_bytes [92; 117] +:+ show_hex (code / 256) +:+ show_hex (code mod 256)
  else c.
Definition repr_string (value : string) : string :=
  let quote := if str_contains "'" value && negb (str_contains (ascii_of_N 34) value)
               then str_of_bytes [34] else "'" in
  quote +:+ String.concat "" (map (quote_char quote) (str_chars value)) +:+ quote.

Definition number_repr (n : Number) : string :=
  if is_f64 n then
    if f64_extreme n then
      let '(mantissa, exponent) := f64_scientific n in mantissa +:+ "e" +:+ show_exponent exponent
    else
      let s := f64_display n in if str_contains "." s then s else s +:+ ".0"
  else number_text n.

Fixpoint repr (value : Value) : string :=
  match value with
  | VString s => repr_string s
  | VArray l => "[" +:+ join ", " (map repr l) +:+ "]"
  | VObject m =>
      "{" +:+ join ", " (map (λ '(k, v), repr_string k +:+ ": " +:+ repr v) m) +:+ "}"
  | VNull => "None"
  | VBool true => "True"
  | VBool false => "False"
  | VNumber n => number_repr n
  end.
Definition text (value : Value) : string :=
  match value with VString s => s | other => repr other end.

Definition items (value : Value) : list Value + string :=
  match value with
  | VArray l => inl l
  | VObject m => inl (map (λ x, VString x.1) m)
  | VString s => inl (map VString (str_chars s))
  | VBool _ => inr "'bool' object is not iterable"
  | VNumber n => inr ("'" +:+ (if is_f64 n then "float" else "int") +:+ "' object is not iterable")
  | VNull => inr "'NoneType' object is not iterable"
  end.

Definition hostname_char (c : string) : bool :=
  match bytes_of c with
  | [b] => is_ascii_alphanumeric b || (b =? 45)
  | l => bool_decide (l ∈ [[0xc4; 0xb0]; [0xc4; 0xb1]; [0xc5; 0xbf]; [0xe2; 0x84; 0xaa]])
  end.
Definition hostname (value : string) : bool :=
  (1 <=? char_count value) && (char_count value <=? 253)
  && forallb (λ part,
       (1 <=? char_count part) && (char_count part <=? 63)
       && negb (str_starts_with "-" part) && negb (str_ends_with "-" part)
       && forallb hostname_char (str_chars part)) (split "." value).

Definition I128_MAX : Z := 2 ^ 127 - 1.
Definition I128_MIN : Z := - 2 ^ 127.

(** [normalized.parse::<i128>()], saturating by the sign of the text. *)
Definition parse_saturating (negative : bool) (digits : list Z) : Z :=
  let n := foldl (λ acc b, acc * 10 + (b - 48)) 0 digits in
  if negative then Z.max I128_MIN (- n) else Z.min I128_MAX n.

(** [digits.contains("__")] *)
Fixpoint double_underscore (l : list Z) : bool :=
  match l with
  | 95 :: ((95 :: _) as l') => true
  | _ :: l => double_underscore l
  | [] => false
  end.

Definition integer (value : Value) : option Z :=
  match value with
  | VBool b => Some (Z.b2z b)
  | VNumber n =>
      match number_i64 n with
      | Some i => Some i
      | None => match number_u64 n with Some u => Some u | None => f64_trunc n end
      end
  | VString s =>
      let value := str_trim s in
      let digits := match value with
                    | String "+" d | String "-" d => d
                    | _ => value
                    end in
      if negb (str_is_empty digits) && negb (str_starts_with "_" digits)
         && negb (str_ends_with "_" digits) && negb (double_underscore (bytes_of digits))
         && all_bytes (λ c, is_ascii_digit c || (c =? 95)) digits
      then Some (parse_saturating (str_starts_with "-" value)
                   (List.filter (λ c, negb (c =? 95)) (bytes_of digits)))
      else None
  | _ => None
  end.
End json.

(** ** Lemmas on [strip] *)

Lemma slen_of s : slen s = Z.of_nat (String.length s).
Proof. done. Qed.

Lemma strip_set_nonempty : Forall (λ p, p ≠ "") strip_set.
Proof. apply (bool_decide_unpack _). vm_compute. exact I. Qed.
Lemma strip_set_rev_nonempty : Forall (λ p, p ≠ "") (map str_rev strip_set).
Proof. apply (bool_decide_unpack _). vm_compute. exact I. Qed.

Lemma strip_fixed s :
  strip_any strip_set s = None → strip_any (map str_rev strip_set) (str_rev s) = None →
  strip s = s.
Proof.
  intros H1 H2. unfold strip, strip_start, strip_end. rewrite (strip_all_none _ _ s) by done.
  rewrite strip_all_none by done. apply str_rev_involutive.
Qed.
Lemma strip_idem s : strip (strip s) = strip s.
Proof. exact (strip_both_idem strip_set strip_set_nonempty strip_set_rev_nonempty s). Qed.

Lemma strip_around s : ∃ p q, s = p +:+ (strip s +:+ q).
Proof. exact (strip_both_around strip_set s). Qed.
Lemma strip_char_count s : char_count (strip s) ≤ char_count s.
Proof.
  destruct (strip_around s) as (p & q & E). rewrite E at 2. rewrite !char_count_app.
  pose proof (char_count_nonneg p). pose proof (char_count_nonneg q). lia.
Qed.

(** A byte that is neither white space nor part of its encoding. *)
Lemma strip_any_plain a s :
  (32 <? byte_of a) && (byte_of a <? 127) = true → strip_any strip_set (String a s) = None.
Proof. destruct a as [[] [] [] [] [] [] [] []]; intros H; first [discriminate H|reflexivity]. Qed.
Lemma strip_any_rev_plain a s :
  (32 <? byte_of a) && (byte_of a <? 127) = true →
  strip_any (map str_rev strip_set) (String a s) = None.
Proof. destruct a as [[] [] [] [] [] [] [] []]; intros H; first [discriminate H|reflexivity]. Qed.

