(* ===== verification/Input.v ===== *)
(** * Request validation ([porthub-api/src/input.rs])

    [Model] reads the fields of a request object in declared order, coerces them as the
    legacy clients expect and collects every error with its location.  A method on
    [&mut self] is a function from the model to its result and the model after the call;
    [finish] turns a model with errors into the 422 answer. *)

From S2P Require Import Prelude Net RustStr Text Json.
Local Open Scope string_scope.
Local Open Scope list_scope.
Local Open Scope Z_scope.

Section input.
Context `{L : JsonLibs}.

(** [ApiError::validation(items)] *)
Record ApiError := Validation { items_of : list Value }.
Definition ApiResult (A : Type) : Type := A + ApiError.

Record Model := mkModel { object : Map; location : list Value; errors : list Value }.

(** Methods on [&mut Model]. *)
Definition V (A : Type) : Type := Model → A * Model.
Definition vret {A} (a : A) : V A := λ m, (a, m).
Definition vbind {A B} (c : V A) (k : A → V B) : V B := λ m, let '(a, m) := c m in k a m.
(** A method on [&self]. *)
Definition asks {A} (f : Model → A) : V A := λ m, (f m, m).

Definition json (s : string) : Value := VString s.
Definition json_n (n : Z) : Value := VNumber (number_of n).
(** [json!({"loc":loc,"msg":msg,"type":kind})] *)
Definition json_error (loc : list Value) (msg kind : string) : Map :=
  [("loc", VArray loc); ("msg", json msg); ("type", json kind)].
(** [Model::new] *)
Definition new (value : Value) : ApiResult Model :=
  match value with
  | VObject object => inl (mkModel object [json "body"] [])
  | VNull =>
      inr (Validation [VObject (json_error [json "body"] "field required" "value_error.missing")])
  | _ =>
      inr (Validation [VObject (json_error [json "body"] "value is not a valid dict" "type_error.dict")])
  end.

(** [Model::query]: the entries in the order the map iterates them. *)
Definition query (values : list (string * string)) : Model :=
  mkModel (foldl (λ o '(k, v), map_insert o k (json v)) [] values) [json "query"] [].

Definition is_valid (m : Model) : bool := len (errors m) =? 0.

(** [error["loc"].as_array()] names [key] below the location of the model. *)
Definition error_at (m : Model) (key : string) (error : Value) : bool :=
  match as_array (index error "loc") with
  | Some loc =>
      match loc !! length (location m) with Some v => value_eqb v (json key) | None => false end
  | None => false
  end.
Definition field_valid (m : Model) (key : string) : bool :=
  negb (existsb (error_at m key) (errors m)).

(** [Model::field]: the first of the keys that is present; and with a single key. *)
Definition field_of (m : Model) (keys : list string) : option Value :=
  head (omap (map_get (object m)) keys).
Definition field (m : Model) (key : string) : option Value := field_of m [key].
Definition is_some {A} (o : option A) : bool := match o with Some _ => true | None => false end.

Definition alias (primary secondary : string) : V unit := λ m,
  if is_some (map_get (object m) primary) then (tt, m)
  else match map_get (object m) secondary with
       | Some v => (tt, mkModel (map_insert (object m) primary v) (location m) (errors m))
       | None => (tt, m)
       end.

Definition add_at (key : string) (idx : option Z) (message kind : string)
    (context : option Value) : V unit := λ m,
  let loc := location m ++ [json key] ++ match idx with Some i => [json_n i] | None => [] end in
  let error := json_error loc message kind in
  let error := match context with Some c => map_insert error "ctx" c | None => error end in
  (tt, mkModel (object m) (location m) (errors m ++ [VObject error])).
Definition add (key message kind : string) : V unit := add_at key None message kind None.
Definition add_index (key : string) (idx : Z) (message kind : string) : V unit :=
  add_at key (Some idx) message kind None.
Definition missing (key : string) : V unit := add key "field required" "value_error.missing".
Definition null (key : string) : V unit :=
  add key "none is not an allowed value" "type_error.none.not_allowed".
End input.

Notation "'let+' x := c 'in' k" := (vbind c (λ x, k))
  (at level 10, x name, c at level 100, k at level 200,
   format "'[v' 'let+'  x  :=  c  'in' '/' k ']'") : porthub_scope.
Notation "'do+' c 'in' k" := (vbind c (λ _, k))
  (at level 10, c at level 100, k at level 200,
   format "'[v' 'do+'  c  'in' '/' k ']'") : porthub_scope.

Section readers.
Context `{L : JsonLibs}.

Definition string_value (key : string) (idx : option Z) (value : Value) : V (option string) :=
  match value with
  | VString s => vret (Some s)
  | VNumber n => vret (Some (text (VNumber n)))
  | VBool true => vret (Some "True")
  | VBool false => vret (Some "False")
  | VNull =>
      do+ add_at key idx "none is not an allowed value" "type_error.none.not_allowed" None in
      vret None
  | _ => do+ add_at key idx "str type expected" "type_error.str" None in vret None
  end.

Definition required_string (key : string) : V string :=
  let+ f := asks (λ m, field m key) in
  match f with
  | None => do+ missing key in vret ""
  | Some VNull => do+ null key in vret ""
  | Some value => let+ s := string_value key None value in vret (default "" s)
  end.

Definition optional_string (key : string) : V (option string) :=
  let+ f := asks (λ m, field m key) in
  match f with
  | None | Some VNull => vret None
  | Some value => string_value key None value
  end.

Definition limit_value (n : Z) : option Value := Some (VObject [("limit_value", json_n n)]).

Definition string_length (key value : string) (minimum : Z) (maximum : option Z) : V unit :=
  let+ bad := asks (λ m, existsb (error_at m key) (errors m)) in
  if (bad : bool) then vret tt
  else
    let size := char_count value in
    if size <? minimum then
      add_at key None ("ensure this value has at least " +:+ show_u128 minimum +:+ " characters")
        "value_error.any_str.min_length" (limit_value minimum)
    else match maximum with
         | Some maximum =>
             if maximum <? size then
               add_at key None
                 ("ensure this value has at most " +:+ show_u128 maximum +:+ " characters")
                 "value_error.any_str.max_length" (limit_value maximum)
             else vret tt
         | None => vret tt
         end.

Definition parse_bool (value : Value) : option bool :=
  match value with
  | VBool b => Some b
  | VNumber n => if f64_is n 0 then Some false else if f64_is n 1 then Some true else None
  | VString s =>
      let s := to_ascii_lowercase s in
      if bool_decide (s ∈ ["1"; "true"; "t"; "on"; "yes"; "y"]) then Some true
      else if bool_decide (s ∈ ["0"; "false"; "f"; "off"; "no"; "n"]) then Some false
      else None
  | _ => None
  end.
Definition optional_bool (key : string) : V (option bool) :=
  let+ f := asks (λ m, field m key) in
  match f with
  | None | Some VNull => vret None
  | Some value =>
      match parse_bool value with
      | Some b => vret (Some b)
      | None =>
          do+ add key "value could not be parsed to a boolean" "type_error.bool" in vret None
      end
  end.
Definition required_bool (key : string) : V bool :=
  let+ f := asks (λ m, field m key) in
  match f with
  | None => do+ missing key in vret false
  | Some VNull => do+ null key in vret false
  | _ => let+ b := optional_bool key in vret (default false b)
  end.

Definition optional_integer (key : string) (minimum maximum : Z) : V (option Z) :=
  let+ f := asks (λ m, field m key) in
  match f with
  | None | Some VNull => vret None
  | Some value =>
      match integer value with
      | None => do+ add key "value is not a valid integer" "type_error.integer" in vret None
      | Some value =>
          if value <? minimum then
            do+ add_at key None
                  ("ensure this value is greater than or equal to " +:+ show_i128 minimum)
                  "value_error.number.not_ge" (limit_value minimum) in
            vret None
          else if maximum <? value then
            do+ add_at key None
                  ("ensure this value is less than or equal to " +:+ show_i128 maximum)
                  "value_error.number.not_le" (limit_value maximum) in
            vret None
          else vret (Some value)
      end
  end.
Definition required_integer (key : string) (minimum maximum : Z) : V Z :=
  let+ f := asks (λ m, field m key) in
  match f with
  | None => do+ missing key in vret 0
  | Some VNull => do+ null key in vret 0
  | _ => let+ n := optional_integer key minimum maximum in vret (default 0 n)
  end.

Definition list_ (key : string) : V (list Value) :=
  let+ f := asks (λ m, field m key) in
  match f with
  | None => vret []
  | Some (VArray values) => vret values
  | Some VNull => do+ null key in vret []
  | _ => do+ add key "value is not a valid list" "type_error.list" in vret []
  end.

Definition bounded_list (key : string) (required : bool) (minimum maximum : Z) : V (list Value) :=
  let+ f := asks (λ m, field m key) in
  if negb (is_some f) && required then do+ missing key in vret []
  else
    let+ values := list_ key in
    let+ valid := asks (λ m, field_valid m key) in
    if negb valid then vret []
    else
      let constraint :=
        if len values <? minimum then Some ("at least", "min_items", minimum)
        else if maximum <? len values then Some ("at most", "max_items", maximum)
        else None in
      match constraint with
      | Some (words, kind, limit) =>
          do+ add_at key None ("ensure this value has " +:+ words +:+ " " +:+ show_u128 limit +:+ " items")
                ("value_error.list." +:+ kind) (limit_value limit) in
          vret []
      | None => vret values
      end.

(** The model of the [index]-th element of the list at [key]. *)
Definition child (parent : list Value) (key : string) (idx : Z) (value : Value) : Model :=
  let location := parent ++ [json key; json_n idx] in
  match dictionary value with
  | Some object => mkModel object location []
  | None =>
      let msg := if is_null value then "none is not an allowed value" else "value is not a valid dict" in
      let kind := if is_null value then "type_error.none.not_allowed" else "type_error.dict" in
      mkModel [] location [VObject (json_error location msg kind)]
  end.
Definition objects (key : string) (required : bool) (minimum maximum : Z) : V (list Model) :=
  let+ values := bounded_list key required minimum maximum in
  let+ loc := asks location in
  vret (imap (λ i value, child loc key (Z.of_nat i) value) values).

Fixpoint string_values (key : string) (i : Z) (values : list Value) : V (list string) :=
  match values with
  | [] => vret []
  | v :: values =>
      let+ s := string_value key (Some i) v in
      let+ rest := string_values key (i + 1) values in
      vret (match s with Some s => s :: rest | None => rest end)
  end.
Definition string_list (key : string) (maximum : Z) : V (list string) :=
  let+ values := bounded_list key false 0 maximum in
  string_values key 0 values.
Definition optional_strings (key : string) : V (option (list string)) :=
  let+ f := asks (λ m, field m key) in
  match f with
  | None | Some VNull => vret None
  | Some (VArray values) => let+ l := string_values key 0 values in vret (Some l)
  | _ => do+ add key "value is not a valid list" "type_error.list" in vret None
  end.

Definition required_object (key : string) : V (option Model) :=
  let+ f := asks (λ m, field m key) in
  match f with
  | None => do+ missing key in vret None
  | Some value =>
      if is_null value then do+ null key in vret None
      else match dictionary value with
           | None => do+ add key "value is not a valid dict" "type_error.dict" in vret None
           | Some object =>
               let+ loc := asks location in vret (Some (mkModel object (loc ++ [json key]) []))
           end
  end.
Definition optional_object (key : string) : V (option Model) :=
  let+ f := asks (λ m, field m key) in
  match f with
  | None | Some VNull => vret None
  | Some (VObject object) =>
      let+ loc := asks location in vret (Some (mkModel object (loc ++ [json key]) []))
  | _ => do+ add key "value is not a valid dict" "type_error.dict" in vret None
  end.

Definition keys (m : Model) : list string := map fst (object m).

Definition regex (key pattern : string) (matches : bool) : V unit :=
  let+ valid := asks (λ m, field_valid m key) in
  if valid && negb matches then
    add_at key None
      ("string does not match regex " +:+ str_of_bytes [34] +:+ pattern +:+ str_of_bytes [34])
      "value_error.str.regex" (Some (VObject [("pattern", json pattern)]))
  else vret tt.

Definition merge (child : Model) : V unit := λ m,
  (tt, mkModel (object m) (location m) (errors m ++ errors child)).

Definition literal (key default_ : string) (permitted : list string) : V string :=
  let+ f := asks (λ m, field m key) in
  match f with
  | None => vret default_
  | Some value =>
      if is_null value then do+ null key in vret ""
      else
        match (s ← as_str value; if bool_decide (s ∈ permitted) then Some s else None) with
        | Some s => vret s
        | None =>
            do+ add_at key None
                  ("unexpected value; permitted: "
                   +:+ join ", " (map (λ name, "'" +:+ name +:+ "'") permitted))
                  "value_error.const"
                  (Some (VObject [("given", value); ("permitted", VArray (map json permitted))])) in
            vret ""
        end
  end.

Definition finish (m : Model) : ApiResult unit :=
  if is_valid m then inl tt else inr (Validation (errors m)).
End readers.

(** ** Methods only add errors *)

Section extend.
Context `{L : JsonLibs}.

(** A method keeps the object and the location and only appends errors. *)
Definition extends (m m' : Model) : Prop :=
  object m' = object m ∧ location m' = location m ∧ errors m `prefix_of` errors m'.
#[global] Instance extends_preorder : PreOrder extends.
Proof.
  split.
  - intros m. by split_and!.
  - intros a b c (O1 & L1 & E1) (O2 & L2 & E2). split_and!; [congruence..|by etrans].
Qed.

Lemma extends_antisymm m m' : extends m m' → extends m' m → m' = m.
Proof.
  intros (O & Lo & E) (_ & _ & E'). destruct m as [o l e], m' as [o' l' e']; simpl in *. subst.
  f_equal. by apply (anti_symm prefix).
Qed.

Class Extends {A} (c : V A) := extends_run : ∀ m, extends m (c m).2.

#[global] Instance vret_extends {A} (a : A) : Extends (vret a).
Proof. intros m. reflexivity. Qed.
#[global] Instance asks_extends {A} (f : Model → A) : Extends (asks f).
Proof. intros m. reflexivity. Qed.
#[global] Instance vbind_extends {A B} (c : V A) (k : A → V B) :
  Extends c → (∀ a, Extends (k a)) → Extends (vbind c k).
Proof.
  intros Hc Hk m. unfold vbind. specialize (Hc m). destruct (c m) as [a m1]. simpl in *.
  etrans; [exact Hc|]. apply Hk.
Qed.
#[global] Instance if_extends {A} (b : bool) (c d : V A) :
  Extends c → Extends d → Extends (if b then c else d).
Proof. by destruct b. Qed.
#[global] Instance add_at_extends key idx message kind context :
  Extends (add_at key idx message kind context).
Proof. intros m. split_and!; [done..|]. simpl. by apply prefix_app_r. Qed.
#[global] Instance merge_extends child : Extends (merge child).
Proof. intros m. split_and!; [done..|]. simpl. by apply prefix_app_r. Qed.
#[global] Instance add_extends key message kind : Extends (add key message kind).
Proof. apply _. Qed.
#[global] Instance missing_extends key : Extends (missing key).
Proof. apply _. Qed.
#[global] Instance null_extends key : Extends (null key).
Proof. apply _. Qed.

End extend.

Ltac extends_tac := repeat first
  [apply _ | apply vbind_extends; [|intros ?] | apply if_extends | progress intros | case_match].

Section laws.
Context `{L : JsonLibs}.

#[global] Instance string_value_extends key idx v : Extends (string_value key idx v).
Proof. unfold string_value. extends_tac. Qed.
#[global] Instance required_string_extends key : Extends (required_string key).
Proof. unfold required_string. extends_tac. Qed.
#[global] Instance optional_string_extends key : Extends (optional_string key).
Proof. unfold optional_string. extends_tac. Qed.
#[global] Instance string_length_extends key v mn mx : Extends (string_length key v mn mx).
Proof. unfold string_length. extends_tac. Qed.
#[global] Instance optional_bool_extends key : Extends (optional_bool key).
Proof. unfold optional_bool. extends_tac. Qed.
#[global] Instance required_bool_extends key : Extends (required_bool key).
Proof. unfold required_bool. extends_tac. Qed.
#[global] Instance optional_integer_extends key mn mx : Extends (optional_integer key mn mx).
Proof. unfold optional_integer. extends_tac. Qed.
#[global] Instance required_integer_extends key mn mx : Extends (required_integer key mn mx).
Proof. unfold required_integer. extends_tac. Qed.
#[global] Instance list_extends key : Extends (list_ key).
Proof. unfold list_. extends_tac. Qed.
#[global] Instance bounded_list_extends key r mn mx : Extends (bounded_list key r mn mx).
Proof. unfold bounded_list. extends_tac. Qed.
#[global] Instance objects_extends key r mn mx : Extends (objects key r mn mx).
Proof. unfold objects. extends_tac. Qed.
#[global] Instance string_values_extends key i l : Extends (string_values key i l).
Proof. revert i. induction l as [|v l IH]; intros i; simpl; extends_tac. Qed.
#[global] Instance string_list_extends key mx : Extends (string_list key mx).
Proof. unfold string_list. extends_tac. Qed.
#[global] Instance optional_strings_extends key : Extends (optional_strings key).
Proof. unfold optional_strings. extends_tac. Qed.
#[global] Instance required_object_extends key : Extends (required_object key).
Proof. unfold required_object. extends_tac. Qed.
#[global] Instance optional_object_extends key : Extends (optional_object key).
Proof. unfold optional_object. extends_tac. Qed.
#[global] Instance regex_extends key p b : Extends (regex key p b).
Proof. unfold regex. extends_tac. Qed.
#[global] Instance literal_extends key d p : Extends (literal key d p).
Proof. unfold literal. extends_tac. Qed.

(** ** Runs that add nothing

    When [finish] succeeds no call on the way added an error, so every call left the
    model as it was: [c m = (a, m)]. *)

Lemma settled {A} (c : V A) `{!Extends c} m a m' :
  c m = (a, m') → errors m' = [] → m' = m ∧ errors m = [].
Proof.
  intros E He. pose proof (extends_run m) as X. rewrite E in X. simpl in X.
  destruct X as (O & Lo & P). rewrite He in P. apply prefix_nil_inv in P.
  split; [|done]. destruct m, m'. simpl in *. congruence.
Qed.

Lemma bind_settled {A B} (c : V A) (k : A → V B) m b :
  vbind c k m = (b, m) → Extends c → (∀ a, Extends (k a)) → ∃ a, c m = (a, m) ∧ k a m = (b, m).
Proof.
  unfold vbind. intros Hb Ec Ek. pose proof (Ec m) as X. destruct (c m) as [a m1] eqn:E.
  simpl in X. pose proof (Ek a m1) as Y. rewrite Hb in Y. simpl in Y.
  assert (m1 = m) as -> by by apply extends_antisymm. eauto.
Qed.

Lemma bind_run {A B} (c : V A) (k : A → V B) m a :
  c m = (a, m) → vbind c k m = k a m.
Proof. unfold vbind. by intros ->. Qed.
Lemma asks_run {A B} (f : Model → A) (k : A → V B) m : vbind (asks f) k m = k (f m) m.
Proof. done. Qed.

Lemma add_at_not_settled key idx message kind context m : (add_at key idx message kind context m).2 ≠ m.
Proof.
  intros E%(f_equal errors). simpl in E. apply (f_equal length) in E.
  rewrite length_app in E. simpl in E. lia.
Qed.
Lemma add_then_not_settled {A} (c : V A) `{!Extends c} key idx message kind context m a :
  vbind (add_at key idx message kind context) (λ _, c) m ≠ (a, m).
Proof.
  intros ([] & E & _)%bind_settled; [|extends_tac..].
  apply (add_at_not_settled key idx message kind context m). by rewrite E.
Qed.

(** ** What a reader returns when it adds nothing *)

Lemma error_at_none m key : errors m = [] → existsb (error_at m key) (errors m) = false.
Proof. by intros ->. Qed.
Lemma field_valid_clean m key : errors m = [] → field_valid m key = true.
Proof. intros H. unfold field_valid. by rewrite error_at_none. Qed.
Lemma is_valid_clean m : errors m = [] → is_valid m = true.
Proof. unfold is_valid. by intros ->. Qed.
Lemma is_valid_errors m : is_valid m = true → errors m = [].
Proof. unfold is_valid. destruct (errors m); simpl; [done|lia]. Qed.
Lemma finish_ok m u : finish m = inl u → errors m = [].
Proof. unfold finish. case_match eqn:E; [|done]. intros _. by apply is_valid_errors. Qed.
Lemma finish_clean m : errors m = [] → finish m = inl tt.
Proof. intros H. unfold finish. by rewrite is_valid_clean. Qed.

Lemma merge_settled child m u : merge child m = (u, m) → errors child = [].
Proof.
  destruct m as [o l e]. unfold merge. simpl. intros [= _ H].
  apply (f_equal length) in H. rewrite length_app in H.
  destruct (errors child); [done|simpl in H; lia].
Qed.
Lemma merge_clean child m : errors child = [] → merge child m = (tt, m).
Proof. intros H. unfold merge. rewrite H, app_nil_r. by destruct m. Qed.

Lemma string_length_settled key v mn mx m u :
  errors m = [] → string_length key v mn (Some mx) m = (u, m) → mn ≤ char_count v ≤ mx.
Proof.
  intros Hm. unfold string_length. rewrite asks_run, error_at_none by done.
  destruct (char_count v <? mn) eqn:E1.
  { intros H. exfalso. eapply add_at_not_settled. by rewrite H. }
  destruct (mx <? char_count v) eqn:E2; [|lia].
  intros H. exfalso. eapply add_at_not_settled. by rewrite H.
Qed.
Lemma string_length_run key v mn mx m :
  mn ≤ char_count v ≤ mx → string_length key v mn (Some mx) m = (tt, m).
Proof.
  intros Hv. unfold string_length. rewrite asks_run. case_match; [done|].
  replace (char_count v <? mn) with false by lia. by replace (mx <? char_count v) with false by lia.
Qed.
Lemma required_string_run key m s :
  field m key = Some (VString s) → required_string key m = (s, m).
Proof. intros H. unfold required_string. by rewrite asks_run, H. Qed.

Lemma literal_settled key d p m s :
  literal key d p m = (s, m) → field m key = None ∧ s = d ∨ s ∈ p.
Proof.
  unfold literal. rewrite asks_run. destruct (field m key) as [v|].
  2:{ intros [= <-]. by left. }
  destruct (is_null v). { by intros H%add_then_not_settled; [|apply _]. }
  destruct (s' ← as_str v; _) as [s'|] eqn:E.
  - intros [= <-]. right. destruct (as_str v) as [t|]; [|done]. simpl in E. case_bool_decide; [|done].
    by injection E as <-.
  - by intros H%add_then_not_settled; [|apply _].
Qed.
Lemma literal_run key d p m s :
  field m key = Some (VString s) → s ∈ p → literal key d p m = (s, m).
Proof.
  intros H Hs. unfold literal. rewrite asks_run, H. simpl. by rewrite bool_decide_true.
Qed.
Lemma required_bool_run key m b :
  field m key = Some (VBool b) → required_bool key m = (b, m).
Proof.
  intros H. unfold required_bool, optional_bool. rewrite asks_run, H.
  unfold vbind, asks. by rewrite H.
Qed.

Lemma required_integer_settled key mn mx m n :
  required_integer key mn mx m = (n, m) → mn ≤ n ≤ mx.
Proof.
  unfold required_integer. rewrite asks_run.
  assert (∀ o, optional_integer key mn mx m = (o, m) → field m key ≠ None →
            field m key ≠ Some VNull → ∃ n, o = Some n ∧ mn ≤ n ≤ mx) as Hopt.
  { intros o H Hn Hn'. unfold optional_integer in H. rewrite asks_run in H.
    destruct (field m key) as [v|]; [|done].
    destruct v; try done; (destruct (integer _) as [k|];
      [destruct (k <? mn) eqn:E1; [by apply add_then_not_settled in H; [|apply _]|];
       destruct (mx <? k) eqn:E2; [by apply add_then_not_settled in H; [|apply _]|];
       injection H as <-; exists k; split; [done|lia]
      |by apply add_then_not_settled in H; [|apply _]]). }
  destruct (field m key) as [v|] eqn:Ef.
  2:{ by intros H%add_then_not_settled; [|apply _]. }
  assert (vbind (optional_integer key mn mx) (λ n, vret (default 0 n)) m = (n, m) → v ≠ VNull →
            mn ≤ n ≤ mx) as Hgo.
  { intros (o & Ho & Hr)%bind_settled Hv; [|extends_tac..].
    destruct (Hopt o Ho) as (k & -> & Hk); [done|congruence|]. by injection Hr as <-. }
  destruct v; try (intros H; by apply Hgo). by intros H%add_then_not_settled; [|apply _].
Qed.

Lemma bounded_list_settled key r mn mx m l :
  bounded_list key r mn mx m = (l, m) → errors m = [] →
  (mn ≤ len l ≤ mx) ∧ (field m key = Some (VArray l) ∨ field m key = None ∧ l = [] ∧ r = false).
Proof.
  intros H Hm. unfold bounded_list in H. rewrite asks_run in H.
  destruct (negb (is_some (field m key)) && r) eqn:Er.
  { by apply add_then_not_settled in H; [|apply _]. }
  apply bind_settled in H as (l' & Hl & H); [|extends_tac..].
  rewrite asks_run, field_valid_clean in H by done. simpl in H.
  assert (field m key = Some (VArray l') ∨ field m key = None ∧ l' = [] ∧ r = false) as Hf.
  { unfold list_ in Hl. rewrite asks_run in Hl. destruct (field m key) as [v|].
    - destruct v; try (by apply add_then_not_settled in Hl; [|apply _]). left. by injection Hl as <-.
    - right. injection Hl as <-. simpl in Er. done. }
  destruct (len l' <? mn) eqn:E1. { by apply add_then_not_settled in H; [|apply _]. }
  destruct (mx <? len l') eqn:E2. { by apply add_then_not_settled in H; [|apply _]. }
  injection H as <-. split; [lia|done].
Qed.
Lemma bounded_list_run key r mn mx m l :
  field m key = Some (VArray l) → errors m = [] → mn ≤ len l ≤ mx →
  bounded_list key r mn mx m = (l, m).
Proof.
  intros Hf Hm Hl. unfold bounded_list. rewrite asks_run, Hf. simpl.
  assert (list_ key m = (l, m)) as E. { unfold list_. by rewrite asks_run, Hf. }
  rewrite (bind_run _ _ _ _ E), asks_run, field_valid_clean by done. simpl.
  replace (len l <? mn) with false by lia. by replace (mx <? len l) with false by lia.
Qed.
Lemma objects_settled key r mn mx m cs :
  objects key r mn mx m = (cs, m) → errors m = [] → mn ≤ len cs ≤ mx.
Proof.
  intros H Hm. unfold objects in H. apply bind_settled in H as (l & Hl & H); [|extends_tac..].
  apply bounded_list_settled in Hl as [Hl _]; [|done]. rewrite asks_run in H. injection H as <-.
  by rewrite length_imap.
Qed.
Lemma objects_run key r mn mx m l :
  field m key = Some (VArray l) → errors m = [] → mn ≤ len l ≤ mx →
  objects key r mn mx m = (imap (λ i value, child (location m) key (Z.of_nat i) value) l, m).
Proof.
  intros Hf Hm Hl. unfold objects.
  by rewrite (bind_run _ _ _ _ (bounded_list_run key r mn mx m l Hf Hm Hl)).
Qed.
End laws.
