(* ===== verification/PrivatePolicy.v ===== *)
(** * Private-network policies ([porthub-api/src/domain/private_policy.rs])

    Allow-only rules between machines: their validation, the port lists, the preview
    [evaluate] of one connection and the compilation of the rules to grants, for a whole
    workspace and for one machine. *)

From S2P Require Import Prelude Net RustStr Text Json Input.
Local Open Scope string_scope.
Local Open Scope list_scope.
Local Open Scope Z_scope.

(** The regular expression library: the characters of Unicode's class [Nd]. *)
Class DecimalClass := {
  is_nd : Z → bool;
  is_nd_ascii c : 0 ≤ c < 128 → is_nd c = is_ascii_digit c;
}.

Record Selector := mkSelector { kind : string; sel_id : string }.
Record Rule := mkRule {
  id : string; name : string; sources : list Selector; destinations : list Selector;
  protocol : string; ports_ : string; bidirectional : bool; enabled_ : bool }.
Record Book := mkBook {
  book_name : string; group_id : string; book_enabled : bool; book_rules : list Rule;
  revision : Z }.
Record ConnectionInput := mkConnection {
  source_id : string; destination_id : string; conn_protocol : string; conn_port : Z }.
Record Port := mkPort { start : Z; end_ : Z }.
Record Grant := mkGrant {
  source : string; destination : string; grant_protocol : string; grant_ports : list Port }.
Record Decision := mkDecision {
  allowed : bool; rule_id : option string; book_id : option string; reason : string }.

#[global] Instance Selector_eq_dec : EqDecision Selector.
Proof. solve_decision. Defined.
#[global] Instance Rule_eq_dec : EqDecision Rule.
Proof. solve_decision. Defined.
#[global] Instance Port_eq_dec : EqDecision Port.
Proof. solve_decision. Defined.
#[global] Instance Grant_eq_dec : EqDecision Grant.
Proof. solve_decision. Defined.

Section ports.
Context `{D : DecimalClass}.

(** The digits of the class just below the character: [n] of the loop. *)
Fixpoint digits_below (c : nat) : Z :=
  match c with
  | O => 0
  | S c => if is_nd (Z.of_nat c) then 1 + digits_below c else 0
  end.
Definition decimal (c : string) : option Z :=
  let c := code_point c in
  if is_ascii_digit c then Some (c - 48)
  else if negb (is_nd c) then None
  else Some (digits_below (Z.to_nat c) mod 10).

(** [try_fold(0, |n, c| decimal(c).map(|d| n * 10 + d))] *)
Fixpoint fold_decimal (n : Z) (cs : list string) : option Z :=
  match cs with
  | [] => Some n
  | c :: cs => match decimal c with Some d => fold_decimal (n * 10 + d) cs | None => None end
  end.
Definition number (part : string) : option Z :=
  let part := strip part in
  if (1 <=? char_count part) && (char_count part <=? 5)
  then fold_decimal 0 (str_chars part) else None.

Definition syntax : string := "Use ports such as 22, 443, 8000-8090".

(** One comma-separated entry. *)
Definition port_item (item : string) : res Port :=
  let parts := split "-" item in
  let! start := ok_or (number (default "" (parts !! 0%nat))) syntax in
  let! end_ := ok_or (match parts !! 1%nat with Some p => number p | None => Some start end) syntax in
  if is_some (parts !! 2%nat) then Err syntax
  else if (start =? 0) || (end_ <? start) || (65535 <? end_)
  then Err "Ports must be between 1 and 65535, with ranges in ascending order"
  else Ok (mkPort start end_).
Fixpoint port_items (items : list string) : res (list Port) :=
  match items with
  | [] => Ok []
  | item :: items =>
      let! p := port_item item in
      let! rest := port_items items in
      Ok (p :: rest)
  end.

(** [sort_by_key(|p| (p.start, p.end))] *)
Definition port_cmp (p q : Port) : comparison :=
  match start p ?= start q with Eq => end_ p ?= end_ q | c => c end.
Definition sort_ports (l : list Port) : list Port := sort_by port_cmp l.

(** Unicode lower case; no character but the ASCII letters maps into these words. *)
Definition any_ports (value : string) : bool :=
  bool_decide (to_ascii_lowercase value ∈ [""; "any"; "all"; "*"]).

Definition ports (value : string) : res (list Port) :=
  let value := strip value in
  if any_ports value then Ok []
  else
    let! result := port_items (split "," value) in
    if 64 <? len result then Err "Use no more than 64 port entries"
    else Ok (dedup (sort_ports result)).

Definition format_port (p : Port) : string :=
  if start p =? end_ p then show_u128 (start p)
  else show_u128 (start p) +:+ "-" +:+ show_u128 (end_ p).
Definition format_ports (l : list Port) : string := join ", " (map format_port l).
End ports.

Section parse.
Context `{L : JsonLibs} `{D : DecimalClass}.

Definition model (raw : Value) : ApiResult Model :=
  new (match dictionary raw with Some m => VObject m | None => raw end).

Definition string_ (key : string) (min max : Z) : V string :=
  let+ value := required_string key in
  do+ string_length key value min (Some max) in
  vret value.
Definition boolean (key : string) (default_ : bool) : V bool :=
  let+ f := asks (λ m, field m key) in
  if is_some f then required_bool key else vret default_.

Definition parse_connection (raw : Value) : ApiResult ConnectionInput :=
  match model raw with
  | inr e => inr e
  | inl m =>
      let '(c, m) :=
        (let+ source_id := required_string "source_id" in
         let+ destination_id := required_string "destination_id" in
         let+ protocol := literal "protocol" "tcp" ["tcp"; "udp"; "icmp"] in
         let+ f := asks (λ m, field m "port") in
         let+ port := if is_some f then required_integer "port" 1 65535 else vret 443 in
         vret (mkConnection source_id destination_id protocol port)) m in
      match finish m with inl _ => inl c | inr e => inr e end
  end.

Definition I64_MAX : Z := 2 ^ 63 - 1.
Definition parse_delete (raw : Value) : ApiResult Z :=
  match model raw with
  | inr e => inr e
  | inl m =>
      let '(revision, m) := required_integer "revision" 1 I64_MAX m in
      match finish m with inl _ => inl revision | inr e => inr e end
  end.

(** The body of the loop of [selectors] on one element. *)
Definition selector : V (option Selector) :=
  let+ f := asks (λ m, field m "kind") in
  let+ kind := if negb (is_some f) then required_string "kind"
               else literal "kind" "" ["machine"; "user"; "group"; "all"] in
  let+ id := string_ "id" 1 64 in
  let+ valid := asks (λ m, field_valid m "id") in
  do+ if valid && bool_decide (kind = "all") && negb (bool_decide (id = "machines"))
      then add "id" ("Use id " +:+ str_of_bytes [34] +:+ "machines" +:+ str_of_bytes [34]
                     +:+ " for all machines") "value_error"
      else vret tt in
  let+ ok := asks is_valid in
  vret (if (ok : bool) then Some (mkSelector kind id) else None).
Fixpoint selectors_of (children : list Model) : V (list Selector) :=
  match children with
  | [] => vret []
  | child :: children =>
      if negb (is_valid child) then do+ merge child in selectors_of children
      else
        let '(s, child) := selector child in
        do+ merge child in
        let+ rest := selectors_of children in
        vret (match s with Some s => s :: rest | None => rest end)
  end.
Definition selectors (key : string) : V (list Selector) :=
  let+ children := objects key true 1 32 in
  selectors_of children.

(** The normalized port list of a rule, or the error that goes to the root. *)
Definition normalize (protocol raw_ports : string) : V string :=
  match ports raw_ports with
  | Ok ranges =>
      if negb (len ranges =? 0) && negb (bool_decide (protocol = "tcp"))
         && negb (bool_decide (protocol = "udp"))
      then do+ add "__root__" "Port restrictions require TCP or UDP" "value_error" in vret ""
      else vret (format_ports ranges)
  | Err message => do+ add "__root__" message "value_error" in vret ""
  | Panic => vret ""
  end.
Definition rule : V Rule :=
  let+ id := string_ "id" 1 64 in
  let+ name := string_ "name" 1 80 in
  let+ valid := asks (λ m, field_valid m "name") in
  do+ if valid && str_is_empty (strip name)
      then add "name" "A rule name is required" "value_error" else vret tt in
  let+ sources := selectors "sources" in
  let+ destinations := selectors "destinations" in
  let+ protocol := literal "protocol" "tcp" ["any"; "tcp"; "udp"; "icmp"] in
  let+ f := asks (λ m, field m "ports") in
  let+ raw_ports := if is_some f then string_ "ports" 0 512 else vret "" in
  let+ valid := asks (λ m, field_valid m "ports") in
  let raw_ports := if (valid : bool) then raw_ports else "" in
  let+ bidirectional := boolean "bidirectional" false in
  let+ enabled := boolean "enabled" true in
  let+ normalized := normalize protocol raw_ports in
  vret (mkRule id (strip name) sources destinations protocol normalized bidirectional enabled).
Definition parse_rule (raw : Value) : ApiResult Rule :=
  match model raw with
  | inr e => inr e
  | inl m =>
      let '(result, m) := rule m in
      match finish m with inl _ => inl result | inr e => inr e end
  end.

Fixpoint rules_of (children : list Model) : V (list Rule) :=
  match children with
  | [] => vret []
  | child :: children =>
      let '(r, child) := if is_valid child then (let '(r, c) := rule child in (Some r, c))
                         else (None, child) in
      do+ merge child in
      let+ rest := rules_of children in
      vret (match r with Some r => r :: rest | None => rest end)
  end.

(** [rules.iter().any(|r| !seen.insert(&r.id))] *)
Fixpoint repeated (seen : gset string) (ids : list string) : bool :=
  match ids with
  | [] => false
  | i :: ids => bool_decide (i ∈ seen) || repeated ({[i]} ∪ seen) ids
  end.
Definition book : V Book :=
  let+ name := string_ "name" 1 80 in
  let+ valid := asks (λ m, field_valid m "name") in
  do+ if valid && str_is_empty (strip name)
      then add "name" "A rule-book name is required" "value_error" else vret tt in
  let+ group_id := string_ "group_id" 1 64 in
  let+ enabled := boolean "enabled" true in
  let+ children := objects "rules" false 0 100 in
  let+ rules := rules_of children in
  let+ valid := asks (λ m, field_valid m "rules") in
  do+ if valid && repeated ∅ (map id rules)
      then add "rules" "Rule identifiers must be unique inside a rule book" "value_error"
      else vret tt in
  let+ f := asks (λ m, field m "revision") in
  let+ revision := if is_some f then required_integer "revision" 0 I64_MAX else vret 0 in
  vret (mkBook (strip name) group_id enabled rules revision).
Definition parse_book (raw : Value) : ApiResult Book :=
  match model raw with
  | inr e => inr e
  | inl m =>
      let '(result, m) := book m in
      match finish m with inl _ => inl result | inr e => inr e end
  end.
End parse.

Section evaluate.
Context `{L : JsonLibs} `{D : DecimalClass}.
Abbreviation Groups := (gmap string Value).

Definition field_text (value : Value) (key : string) : string := text (index value key).
Definition enabled (value : Value) : bool :=
  match vget value "enabled" with None => true | Some v => truthy v end.
Definition revoked (value : Value) : bool := truthy (index value "private_owner_revoked").

Definition owner_of (machine : Value) : string :=
  if truthy (index machine "private_owner_id") then field_text machine "private_owner_id"
  else field_text machine "user_id".
Definition group_ids (machine : Value) : list Value :=
  if truthy (index machine "group_ids") then default [] (as_array (index machine "group_ids"))
  else if truthy (index machine "group_id") then [index machine "group_id"]
  else [].
Definition entity_matches (selector : Selector) (machine : Value) (groups : Groups) : bool :=
  if bool_decide (kind selector = "all") then true
  else if bool_decide (kind selector = "machine") then
    bool_decide (field_text machine "_id" = sel_id selector)
  else
    let owner := owner_of machine in
    if bool_decide (kind selector = "user") then bool_decide (owner = sel_id selector)
    else
      match (g ← groups !! sel_id selector;
             if bool_decide (kind selector = "group") then Some g else None) with
      | None => false
      | Some group =>
          existsb (λ id, bool_decide (text id = sel_id selector)) (group_ids machine)
          || existsb (λ id, bool_decide (text id = owner))
               (default [] (as_array (index group "user_ids")))
      end.
Definition matched (selectors : list Selector) (machine : Value) (groups : Groups) : bool :=
  existsb (λ s, entity_matches s machine groups) selectors.

Definition rules (book : Value) : list Rule :=
  omap (λ raw, match parse_rule raw with inl r => Some r | inr _ => None end)
    (default [] (as_array (index book "rules"))).

Definition deny (reason : string) : Decision := mkDecision false None None reason.

Definition book_active (groups : Groups) (book : Value) : bool :=
  enabled book && is_some (groups !! field_text book "group_id").
Definition in_range (ranges : list Port) (port : Z) : bool :=
  (len ranges =? 0) || existsb (λ p, (start p <=? port) && (port <=? end_ p)) ranges.
Definition pair_matched (rule : Rule) (groups : Groups) (a b : Value) : bool :=
  matched (sources rule) a groups && matched (destinations rule) b groups.

Fixpoint evaluate_rules (source destination : Value) (port : Z) (groups : Groups)
    (rules : list Rule) : res (option Rule) :=
  match rules with
  | [] => Ok None
  | rule :: rules =>
      match ports (ports_ rule) with
      | Ok ranges =>
          if negb (in_range ranges port) then
            evaluate_rules source destination port groups rules
          else if pair_matched rule groups source destination
                  || bidirectional rule && pair_matched rule groups destination source
          then Ok (Some rule)
          else evaluate_rules source destination port groups rules
      | _ => Panic
      end
  end.
Definition speaks (protocol_ : string) (r : Rule) : bool :=
  enabled_ r && (bool_decide (protocol r = "any") || bool_decide (protocol r = protocol_)).
Fixpoint evaluate_books (source destination : Value) (protocol : string) (port : Z)
    (groups : Groups) (books : list Value) : res Decision :=
  match books with
  | [] => Ok (deny "No enabled rule allows this connection")
  | book :: books =>
      if book_active groups book && bool_decide (field_text book "user_id" = field_text source "user_id")
      then
        let! found := evaluate_rules source destination port groups
                        (List.filter (speaks protocol) (rules book)) in
        match found with
        | Some rule => Ok (mkDecision true (Some (id rule)) (Some (field_text book "_id")) (name rule))
        | None => evaluate_books source destination protocol port groups books
        end
      else evaluate_books source destination protocol port groups books
  end.
Definition evaluate (source destination : Value) (protocol : string) (port : Z)
    (books : list Value) (groups : Groups) : res Decision :=
  if is_null source || is_null destination
     || value_eqb (index source "enabled") (VBool false)
     || value_eqb (index destination "enabled") (VBool false)
     || revoked source || revoked destination
  then Ok (deny "Both machines must be enabled")
  else if negb (bool_decide (field_text source "user_id" = field_text destination "user_id"))
  then Ok (deny "Machines belong to different workspaces")
  else if negb (bool_decide (protocol ∈ ["tcp"; "udp"; "icmp"]))
  then Ok (deny "Unsupported protocol or invalid port")
  else if negb (bool_decide (protocol = "icmp")) && negb ((1 <=? port) && (port <=? 65535))
  then Ok (deny "Port is outside the supported range")
  else evaluate_books source destination protocol port groups books.

(** ** Compilation *)

Definition seen_key : Type := string * string * string * string.

(** One pair of machines of a rule. *)
Definition grant_pair (rule : Rule) (ranges : list Port) (left right : Value)
    (acc : list Grant * gset seen_key) : list Grant * gset seen_key :=
  let '(grants, seen) := acc in
  if value_eqb (index left "_id") (index right "_id") then acc
  else
    let source := field_text left "_id" in
    let destination := field_text right "_id" in
    let key := (source, destination, protocol rule, ports_ rule) in
    if bool_decide (key ∈ seen) then acc
    else (grants ++ [mkGrant source destination (protocol rule) ranges], {[key]} ∪ seen).

Definition select (active : list Value) (groups : Groups) (book : Value)
    (selectors : list Selector) : list Value :=
  List.filter (λ m, bool_decide (field_text m "user_id" = field_text book "user_id")
                    && matched selectors m groups) active.

Definition in_scope (scope : option string) (m : Value) : bool :=
  match scope with Some id => bool_decide (field_text m "_id" = id) | None => false end.

(** The pairs of a rule in the order of the loops. *)
Definition rule_pairs (active : list Value) (groups : Groups) (scope : option string)
    (book : Value) (rule : Rule) : list (Value * Value) :=
  let sources := select active groups book (sources rule) in
  let destinations := select active groups book (destinations rule) in
  let scoped_destinations := List.filter (in_scope scope) destinations in
  flat_map (λ source,
    flat_map (λ destination,
      if bidirectional rule then [(source, destination); (destination, source)]
      else [(source, destination)])
      (if match scope with None => true | Some _ => in_scope scope source end
       then destinations else scoped_destinations)) sources.

Fixpoint compile_rules (active : list Value) (groups : Groups) (scope : option string)
    (book : Value) (rules : list Rule) (acc : list Grant * gset seen_key)
    : res (list Grant * gset seen_key) :=
  match rules with
  | [] => Ok acc
  | rule :: rules =>
      match ports (ports_ rule) with
      | Ok ranges =>
          compile_rules active groups scope book rules
            (foldl (λ acc '(l, r), grant_pair rule ranges l r acc) acc
               (rule_pairs active groups scope book rule))
      | _ => Panic
      end
  end.
Fixpoint compile_books (active : list Value) (groups : Groups) (scope : option string)
    (books : list Value) (acc : list Grant * gset seen_key) : res (list Grant * gset seen_key) :=
  match books with
  | [] => Ok acc
  | book :: books =>
      if book_active groups book then
        let! acc := compile_rules active groups scope book
                      (List.filter enabled_ (rules book)) acc in
        compile_books active groups scope books acc
      else compile_books active groups scope books acc
  end.
Definition active (m : Value) : bool := enabled m && negb (revoked m).
Definition compile_inner (machines books : list Value) (groups : Groups) (scope : option string)
    : res (list Grant) :=
  let! acc := compile_books (List.filter active machines) groups scope books ([], ∅) in
  Ok acc.1.
Definition compile (machines books : list Value) (groups : Groups) : res (list Grant) :=
  compile_inner machines books groups None.
Definition compile_for (machines books : list Value) (groups : Groups) (machine : string)
    : res (list Grant) :=
  compile_inner machines books groups (Some machine).
End evaluate.

(** ** Port lists *)

Definition port_ok (p : Port) : Prop := 1 ≤ start p ∧ start p ≤ end_ p ∧ end_ p ≤ 65535.
Definition port_lt (p q : Port) : Prop :=
  start p < start q ∨ start p = start q ∧ end_ p < end_ q.
(** What [ports] returns. *)
Definition canonical (l : list Port) : Prop :=
  Forall port_ok l ∧ StronglySorted port_lt l ∧ len l ≤ 64.

Section port_laws.
Context `{D : DecimalClass}.

Lemma port_cmp_spec p q : port_cmp p q ≠ Gt ↔ port_lt p q ∨ p = q.
Proof.
  destruct p as [a b], q as [c d]. unfold port_cmp, port_lt. simpl.
  destruct (Z.compare_spec a c) as [->|?|?]; [destruct (Z.compare_spec b d) as [->|?|?]|..];
    split; intros ?; destruct_or?; simplify_eq; try done; try lia; auto.
Qed.
Lemma port_cmp_total p q : port_cmp p q = Gt → port_cmp q p ≠ Gt.
Proof.
  unfold port_cmp. destruct (Z.compare_spec (start p) (start q)), (Z.compare_spec (end_ p) (end_ q)),
    (Z.compare_spec (start q) (start p)), (Z.compare_spec (end_ q) (end_ p)); try done; lia.
Qed.
Lemma port_lt_trans p q r : port_lt p q → port_lt q r → port_lt p r.
Proof. unfold port_lt. lia. Qed.
Lemma port_lt_irrefl p : ¬ port_lt p p.
Proof. unfold port_lt. lia. Qed.
#[local] Instance port_le_trans : Transitive (λ p q, port_lt p q ∨ p = q).
Proof. intros p q r [H| ->] [H'| ->]; eauto using port_lt_trans. Qed.

Lemma sort_ports_sorted l : StronglySorted (λ p q, port_lt p q ∨ p = q) (sort_ports l).
Proof. apply sort_by_strongly; [exact port_cmp_total|apply _|]. by intros p q ?%port_cmp_spec. Qed.
Lemma dedup_ports_sorted l :
  StronglySorted (λ p q, port_lt p q ∨ p = q) l → StronglySorted port_lt (dedup l).
Proof.
  induction 1 as [|p l Hl IH Hp]; [constructor|]. destruct l as [|q l]; [by repeat constructor|].
  rewrite dedup_cons. case_bool_decide as E; [done|]. constructor; [done|].
  apply Forall_forall. intros r Hr. rewrite dedup_elem in Hr.
  apply StronglySorted_inv in Hl as [_ Hq]. rewrite Forall_forall in Hp, Hq.
  destruct (Hp q ltac:(left)) as [Hpq|]; [|done].
  apply elem_of_cons in Hr as [->|Hr]; [done|]. destruct (Hq r Hr) as [?| <-]; [|done].
  by eapply port_lt_trans.
Qed.

Lemma decimal_nonneg c d : decimal c = Some d → 0 ≤ d.
Proof.
  unfold decimal. destruct (is_ascii_digit (code_point c)) eqn:E.
  - intros [= <-]. unfold is_ascii_digit in E. lia.
  - case_match; [done|]. intros [= <-]. apply Z.mod_pos_bound. lia.
Qed.
Lemma fold_decimal_nonneg cs : ∀ n m, 0 ≤ n → fold_decimal n cs = Some m → 0 ≤ m.
Proof.
  induction cs as [|c cs IH]; simpl; intros n m Hn H; [by injection H as <-|].
  destruct (decimal c) as [d|] eqn:E; [|done]. apply decimal_nonneg in E. eapply IH; [|exact H]. lia.
Qed.
Lemma number_nonneg s n : number s = Some n → 0 ≤ n.
Proof. unfold number. case_match; [|done]. by apply fold_decimal_nonneg. Qed.

Lemma port_item_ok item p : port_item item = Ok p → port_ok p.
Proof.
  unfold port_item. intros Hp. apply rbind_ok in Hp as (s & Hs & Hp).
  apply ok_or_ok, number_nonneg in Hs. apply rbind_ok in Hp as (e & _ & Hp).
  destruct (is_some (split "-" item !! 2%nat)); [done|].
  destruct ((s =? 0) || (e <? s) || (65535 <? e)) eqn:E; [done|]. injection Hp as <-.
  unfold port_ok. simpl. lia.
Qed.
Lemma port_items_ok items l : port_items items = Ok l → Forall port_ok l.
Proof.
  revert l. induction items as [|i items IH]; simpl; intros l H.
  { injection H as <-. done. }
  apply rbind_ok in H as (p & Hp & H). apply rbind_ok in H as (r & Hr & [= <-]).
  constructor; [by eapply port_item_ok|by apply IH].
Qed.
Lemma ports_canonical s l : ports s = Ok l → canonical l.
Proof.
  unfold ports. destruct (any_ports (strip s)).
  { intros [= <-]. split_and!; [constructor..|simpl; lia]. }
  intros H. apply rbind_ok in H as (r & Hr%port_items_ok & H).
  destruct (64 <? len r) eqn:E; [done|]. injection H as <-. split_and!.
  - apply Forall_forall. intros p Hp. unfold sort_ports in Hp. rewrite dedup_elem, sort_by_perm in Hp.
    rewrite Forall_forall in Hr. by apply Hr.
  - apply dedup_ports_sorted, sort_ports_sorted.
  - pose proof (dedup_length (sort_ports r)) as Hd. unfold sort_ports in *.
    rewrite (Permutation_length (sort_by_perm port_cmp r)) in Hd. lia.
Qed.
Lemma ports_not_panic s : ports s ≠ Panic.
Proof.
  unfold ports. case_match; [done|].
  assert (port_items (split "," (strip s)) ≠ Panic) as Hn.
  { generalize (split "," (strip s)) as items. induction items as [|i items IH]; [done|]. simpl.
    assert (port_item i ≠ Panic) as Hi.
    { unfold port_item. destruct (number _) as [n|]; [simpl|done].
      destruct (match _ with Some p => number p | None => Some n end); [simpl|done]. by repeat case_match. }
    destruct (port_item i); [simpl|done..]. by destruct (port_items items). }
  destruct (port_items _); [simpl|done..]. by case_match.
Qed.

(** *** Printing and parsing again *)

Lemma sort_ports_fixed l : StronglySorted port_lt l → sort_ports l = l.
Proof.
  intros H%StronglySorted_Sorted. apply sort_by_id.
  induction H as [|p l Hl IH Hp]; constructor; [done|]. destruct Hp; constructor.
  apply port_cmp_spec. by left.
Qed.
Lemma dedup_ports_fixed l : StronglySorted port_lt l → dedup l = l.
Proof.
  induction 1 as [|p l Hl IH Hp]; [done|]. destruct l as [|q l]; [done|].
  rewrite dedup_cons, IH. rewrite bool_decide_false; [done|]. intros ->.
  apply Forall_cons_1 in Hp as [Hpq _]. by apply port_lt_irrefl in Hpq.
Qed.

Lemma digit_string_chars ds : digit_values ds →
  str_chars (digit_string ds) = map (λ d, String (digit d) "") ds.
Proof.
  intros Hd. rewrite str_chars_ascii; rewrite digit_string_list.
  - by rewrite map_map.
  - apply Forall_map. eapply Forall_impl; [exact Hd|]. intros d H. simpl in H |- *.
    unfold is_ascii. rewrite digit_byte by done. lia.
Qed.
Lemma decimal_digit d : 0 ≤ d < 10 → decimal (String (digit d) "") = Some d.
Proof.
  intros Hd. unfold decimal. change (code_point (String (digit d) "")) with (byte_of (digit d)).
  rewrite digit_byte by done. unfold is_ascii_digit.
  replace ((48 <=? 48 + d) && (48 + d <=? 57)) with true by lia. f_equal. lia.
Qed.
Lemma fold_decimal_digits ds : ∀ n, digit_values ds →
  fold_decimal n (map (λ d, String (digit d) "") ds) = Some (foldl (λ a d, a * 10 + d) n ds).
Proof.
  induction ds as [|d ds IH]; intros n Hd; [done|]. apply Forall_cons_1 in Hd as [Hd Hds].
  simpl. by rewrite decimal_digit, IH.
Qed.

(** A text that starts and ends with a digit is not stripped. *)
Definition digit_ends (s : string) : Prop :=
  ∃ a r b q, s = String a r ∧ str_rev s = String b q ∧
    is_ascii_digit (byte_of a) = true ∧ is_ascii_digit (byte_of b) = true.
Lemma digit_ends_strip s : digit_ends s → strip s = s.
Proof.
  intros (a & r & b & q & -> & E & Ha & Hb). apply strip_fixed.
  - apply strip_any_plain. unfold is_ascii_digit in *. lia.
  - rewrite E. apply strip_any_rev_plain. unfold is_ascii_digit in *. lia.
Qed.

Lemma digit_ends_digits ds : digit_values ds → ds ≠ [] → digit_ends (digit_string ds).
Proof.
  intros Hd Hne. destruct ds as [|d ds]; [done|].
  destruct (exists_last Hne) as (l & e & El).
  assert (str_rev (digit_string (d :: ds)) = String (digit e) (str_rev (digit_string l))) as Er.
  { rewrite El. unfold digit_string. rewrite map_app, string_of_app, str_rev_app. done. }
  exists (digit d), (digit_string ds), (digit e), (str_rev (digit_string l)).
  assert (e ∈ d :: ds) as He by (rewrite El; set_solver).
  unfold digit_values in Hd. rewrite Forall_forall in Hd.
  pose proof (Hd d ltac:(left)) as H1. pose proof (Hd e He) as H2. unfold is_ascii_digit.
  split_and!; [done|done| |]; rewrite digit_byte by done; lia.
Qed.
Lemma digit_ends_app s m t : digit_ends s → digit_ends t → digit_ends (s +:+ (m +:+ t)).
Proof.
  intros (a & r & _ & _ & -> & _ & Ha & _) (_ & _ & b & q & _ & E & _ & Hb).
  exists a, (r +:+ (m +:+ t)), b, (q +:+ str_rev (String a r +:+ m)). split_and!; [done| |done|done].
  rewrite <- str_app_assoc, str_rev_app, E. done.
Qed.
Lemma strip_space s : digit_ends s → strip (String " " s) = s.
Proof.
  intros H. pose proof (digit_ends_strip s H) as E. destruct H as (a & r & b & q & -> & Er & Ha & Hb).
  unfold strip in E |- *.
  assert (strip_start (String " " (String a r)) = strip_start (String a r)) as ->; [|done].
  unfold strip_start. cbn [String.length strip_all].
  change (strip_any strip_set (String " " (String a r))) with (Some (String a r)).
  reflexivity.
Qed.

Lemma str_contains_digits c ds :
  digit_values ds → is_ascii_digit (byte_of c) = false → str_contains c (digit_string ds) = false.
Proof.
  intros Hd Hc. induction Hd as [|d ds Hd Hds IH]; [done|].
  change (digit_string (d :: ds)) with (String (digit d) (digit_string ds)). simpl. rewrite IH, orb_false_r.
  apply bool_decide_false. intros <-. rewrite digit_byte in Hc by done. unfold is_ascii_digit in Hc. lia.
Qed.

(** A port number in print. *)
Lemma show_port n : 1 ≤ n ≤ 65535 →
  number (show_u128 n) = Some n ∧ number (String " " (show_u128 n)) = Some n ∧
  digit_ends (show_u128 n) ∧ str_contains "," (show_u128 n) = false ∧
  str_contains "-" (show_u128 n) = false.
Proof.
  intros Hn. destruct (show_u128_spec n 5) as (ds & -> & Hds & Hne & Hl & Hf); [lia..|].
  pose proof (digit_ends_digits ds Hds Hne) as He.
  assert (∀ s, strip s = digit_string ds → number s = Some n) as Hnum.
  { intros s E. unfold number, char_count. rewrite E, digit_string_chars, length_map by done.
    destruct ds as [|d ds]; [done|].
    replace ((1 <=? len (d :: ds)) && (len (d :: ds) <=? 5)) with true by (simpl length in *; lia).
    rewrite fold_decimal_digits by done. by rewrite Hf. }
  split_and!; [| |done|by apply str_contains_digits..].
  - apply Hnum. by apply digit_ends_strip.
  - apply Hnum. by apply strip_space.
Qed.

#[local] Opaque show_u128.
Lemma format_port_ends p : port_ok p → digit_ends (format_port p).
Proof.
  intros (H1 & H2 & H3). unfold format_port.
  destruct (show_port (start p)) as (_ & _ & Hs & _); [lia|].
  destruct (show_port (end_ p)) as (_ & _ & He & _); [lia|].
  destruct (start p =? end_ p); [exact Hs|]. exact (digit_ends_app _ "-" _ Hs He).
Qed.
Lemma format_port_comma p : port_ok p → str_contains "," (format_port p) = false.
Proof.
  intros (H1 & H2 & H3). unfold format_port.
  destruct (show_port (start p)) as (_ & _ & _ & Hs & _); [lia|].
  destruct (show_port (end_ p)) as (_ & _ & _ & He & _); [lia|].
  destruct (start p =? end_ p); [exact Hs|]. by rewrite !str_contains_app, Hs, He.
Qed.

Lemma port_item_format p item : port_ok p →
  item = format_port p ∨ item = String " " (format_port p) → port_item item = Ok p.
Proof.
  destruct p as [s e]. intros (H1 & H2 & H3) Hi. simpl in *.
  destruct (show_port s) as (Ns & Ns' & _ & _ & Ds); [lia|].
  destruct (show_port e) as (Ne & _ & _ & _ & De); [lia|].
  assert (str_contains "-" (String " " (show_u128 s)) = false) as Ds' by done.
  unfold format_port in Hi. simpl in Hi.
  replace (s =? 0) with false in * by lia.
  destruct (s =? e) eqn:E.
  - apply Z.eqb_eq in E as <-. unfold port_item.
    assert (split "-" item = [item] ∧ number item = Some s) as [-> Hnum].
    { destruct Hi as [->| ->]; split; try done; by apply split_none. }
    simpl. rewrite Hnum. simpl. replace (s =? 0) with false by lia.
    rewrite Z.ltb_irrefl. by replace (65535 <? s) with false by lia.
  - unfold port_item.
    assert (∃ h, split "-" item = [h; show_u128 e] ∧ number h = Some s) as (h & -> & Hnum).
    { destruct Hi as [->| ->].
      - exists (show_u128 s). split; [|done]. change ("-" +:+ ?x) with (String "-" x).
        by rewrite split_app, split_none.
      - exists (String " " (show_u128 s)). split; [|done]. change ("-" +:+ ?x) with (String "-" x).
        change (String " " (show_u128 s +:+ ?x)) with (String " " (show_u128 s) +:+ x).
        by rewrite split_app, split_none. }
    simpl. rewrite Hnum. simpl. rewrite Ne. simpl.
    replace ((s =? 0) || (e <? s) || (65535 <? e)) with false by lia. done.
Qed.

Lemma split_join_comma s l : str_contains "," s = false →
  Forall (λ s, str_contains "," s = false) l →
  split "," (join ", " (s :: l)) = s :: map (String " ") l.
Proof.
  intros Hs Hl. revert s Hs. induction Hl as [|t l Ht Hl IH]; intros s Hs; [by apply split_none|].
  change (join ", " (s :: t :: l)) with (s +:+ String "," (String " " (join ", " (t :: l)))).
  rewrite split_app by done. f_equal.
  change (map (String " ") (t :: l)) with (String " " t :: map (String " ") l).
  cbn [split]. rewrite bool_decide_false by done. by rewrite IH.
Qed.

Lemma join_ends s l : digit_ends s → Forall digit_ends l → digit_ends (join ", " (s :: l)).
Proof.
  intros Hs Hl. revert s Hs. induction Hl as [|t l Ht Hl IH]; intros s Hs; [done|].
  change (join ", " (s :: t :: l)) with (s +:+ (", " +:+ join ", " (t :: l))).
  apply digit_ends_app; [done|]. by apply IH.
Qed.

Lemma port_items_format l : Forall port_ok l →
  port_items (map (λ p, String " " (format_port p)) l) = Ok l.
Proof.
  induction 1 as [|p l Hp Hl IH]; [done|]. cbn [map port_items].
  rewrite (port_item_format p) by eauto. cbn [rbind]. by rewrite IH.
Qed.

Lemma ports_format l : canonical l → ports (format_ports l) = Ok l.
Proof.
  intros (Hok & Hs & Hlen). destruct l as [|p l]; [done|].
  pose proof Hok as [Hp Hl]%Forall_cons_1.
  assert (digit_ends (format_ports (p :: l))) as He.
  { unfold format_ports. cbn [map]. apply join_ends; [by apply format_port_ends|].
    apply Forall_map. eapply Forall_impl; [exact Hl|]. apply format_port_ends. }
  unfold ports. rewrite digit_ends_strip by done.
  assert (any_ports (format_ports (p :: l)) = false) as ->.
  { destruct He as (a & r & b & q & -> & _ & Ha & _). unfold any_ports. apply bool_decide_false. cbn.
    revert Ha. destruct a as [[] [] [] [] [] [] [] []]; intros Ha; try discriminate Ha;
      clear; set_solver. }
  unfold format_ports. cbn [map]. rewrite split_join_comma; [|by apply format_port_comma|].
  2:{ apply Forall_map. eapply Forall_impl; [exact Hl|]. apply format_port_comma. }
  cbn [port_items]. rewrite (port_item_format p) by eauto. cbn [rbind].
  rewrite map_map, port_items_format by done. cbn [rbind].
  replace (64 <? len (p :: l)) with false by lia. by rewrite sort_ports_fixed, dedup_ports_fixed.
Qed.
End port_laws.

(** ** What validation accepts *)

Definition PROTOCOLS : list string := ["any"; "tcp"; "udp"; "icmp"].
Definition selector_ok (s : Selector) : Prop :=
  kind s ∈ ["machine"; "user"; "group"; "all"] ∧ 1 ≤ char_count (sel_id s) ≤ 64 ∧
  (kind s = "all" → sel_id s = "machines").
Definition selectors_ok (l : list Selector) : Prop := Forall selector_ok l ∧ 1 ≤ len l ≤ 32.
(** The canonical port list of a rule: only TCP and UDP have one. *)
Definition ports_ok (protocol ports : string) (l : list Port) : Prop :=
  canonical l ∧ ports = format_ports l ∧ (l ≠ [] → protocol = "tcp" ∨ protocol = "udp").
Definition rule_ok (r : Rule) : Prop :=
  1 ≤ char_count (id r) ≤ 64 ∧
  (name r ≠ "" ∧ strip (name r) = name r ∧ char_count (name r) ≤ 80) ∧
  selectors_ok (sources r) ∧ selectors_ok (destinations r) ∧
  protocol r ∈ PROTOCOLS ∧ ∃ l, ports_ok (protocol r) (ports_ r) l.

Section validation.
Context `{L : JsonLibs} `{D : DecimalClass}.

#[global] Instance string_extends key mn mx : Extends (string_ key mn mx).
Proof. unfold string_. extends_tac. Qed.
#[global] Instance boolean_extends key d : Extends (boolean key d).
Proof. unfold boolean. extends_tac. Qed.
#[global] Instance selector_extends : Extends selector.
Proof. unfold selector. extends_tac. Qed.
#[global] Instance selectors_of_extends cs : Extends (selectors_of cs).
Proof. induction cs as [|c cs IH]; simpl; extends_tac. Qed.
#[global] Instance selectors_extends key : Extends (selectors key).
Proof. unfold selectors. extends_tac. Qed.
#[global] Instance normalize_extends p r : Extends (normalize p r).
Proof. unfold normalize. extends_tac. Qed.
#[global] Instance rule_extends : Extends rule.
Proof. unfold rule. extends_tac. Qed.
#[global] Instance rules_of_extends cs : Extends (rules_of cs).
Proof. induction cs as [|c cs IH]; simpl; extends_tac. Qed.
#[global] Instance book_extends : Extends book.
Proof. unfold book. extends_tac. Qed.

Lemma string_settled key mn mx m s :
  errors m = [] → string_ key mn mx m = (s, m) → mn ≤ char_count s ≤ mx.
Proof.
  intros Hm. unfold string_. intros (s' & _ & H)%bind_settled; [|extends_tac..].
  apply bind_settled in H as (u & Hl%string_length_settled & [= <-]); [done|done|extends_tac..].
Qed.
Lemma string_run key mn mx m s :
  field m key = Some (VString s) → mn ≤ char_count s ≤ mx → string_ key mn mx m = (s, m).
Proof.
  intros Hf Hs. unfold string_. rewrite (bind_run _ _ _ _ (required_string_run key m s Hf)).
  by rewrite (bind_run _ _ _ _ (string_length_run key s mn mx m Hs)).
Qed.

(** A guard that adds an error did not fire. *)
Lemma guard_settled (b : bool) key message kd m u :
  (if b then add key message kd else vret tt) m = (u, m) → b = false.
Proof.
  destruct b; [|done]. intros H. exfalso.
  apply (add_at_not_settled key None message kd None m). unfold add in H. by rewrite H.
Qed.

Lemma selector_settled m s m' :
  selector m = (s, m') → errors m' = [] → ∃ x, s = Some x ∧ selector_ok x.
Proof.
  intros H He. destruct (settled selector m s m' H He) as [-> Hm]. clear He.
  unfold selector in H. rewrite asks_run in H.
  apply bind_settled in H as (k & Hk & H); [|extends_tac..].
  apply bind_settled in H as (i & Hi%string_settled & H); [|done|extends_tac..].
  rewrite asks_run, field_valid_clean in H by done.
  apply bind_settled in H as (u & Hu%guard_settled & H); [|extends_tac..].
  rewrite asks_run, is_valid_clean in H by done. injection H as <-.
  exists (mkSelector k i). split; [done|].
  assert (k ∈ ["machine"; "user"; "group"; "all"]) as Hkk.
  { destruct (field m "kind") as [v|] eqn:Ef; simpl in Hk.
    - apply literal_settled in Hk as [[? _]|?]; [congruence|done].
    - unfold required_string in Hk. rewrite asks_run, Ef in Hk.
      by apply add_then_not_settled in Hk; [|apply _]. }
  split_and!; [done|simpl; lia..|]. simpl. intros ->. rewrite bool_decide_true in Hu by done.
  simpl in Hu. by case_bool_decide.
Qed.

Lemma selectors_of_settled cs : ∀ m l,
  selectors_of cs m = (l, m) → Forall selector_ok l ∧ length l = length cs.
Proof.
  induction cs as [|c cs IH]; simpl; intros m l H; [by injection H as <-|].
  destruct (is_valid c) eqn:Ec; simpl in H.
  2:{ apply bind_settled in H as (u & Hu%merge_settled & _); [|extends_tac..].
      unfold is_valid in Ec. rewrite Hu in Ec. done. }
  destruct (selector c) as [s c'] eqn:Es.
  apply bind_settled in H as (u & Hu%merge_settled & H); [|extends_tac..].
  apply bind_settled in H as (rest & [Hr Hl]%IH & H); [|extends_tac..].
  destruct (selector_settled c s c' Es Hu) as (x & -> & Hx). injection H as <-.
  split; [by constructor|simpl; lia].
Qed.
Lemma selectors_settled key m l : selectors key m = (l, m) → errors m = [] → selectors_ok l.
Proof.
  intros H Hm. unfold selectors in H. apply bind_settled in H as (cs & Hc & H); [|extends_tac..].
  apply objects_settled in Hc; [|done]. apply selectors_of_settled in H as [Hl El].
  split; [done|lia].
Qed.

Lemma normalize_settled p raw m s :
  normalize p raw m = (s, m) → ∃ l, ports raw = Ok l ∧ ports_ok p s l.
Proof.
  unfold normalize. destruct (ports raw) as [l|e|] eqn:E.
  - destruct (negb (len l =? 0) && _ && _) eqn:G.
    { by intros H%add_then_not_settled; [|apply _]. }
    intros [= <-]. exists l. split; [done|]. split_and!; [by eapply ports_canonical|done|].
    intros Hl. destruct l as [|x l]; [done|]. simpl in G.
    destruct (decide (p = "tcp")); [by left|]. destruct (decide (p = "udp")); [by right|].
    rewrite !bool_decide_false in G by done. simpl in G. lia.
  - by intros H%add_then_not_settled; [|apply _].
  - by apply ports_not_panic in E.
Qed.

Lemma rule_settled m r m' : rule m = (r, m') → errors m' = [] → rule_ok r.
Proof.
  intros H He. destruct (settled rule m r m' H He) as [-> Hm]. clear He. unfold rule in H.
  apply bind_settled in H as (i & Hi%string_settled & H); [|done|extends_tac..].
  apply bind_settled in H as (n & Hn%string_settled & H); [|done|extends_tac..].
  rewrite asks_run, field_valid_clean in H by done.
  apply bind_settled in H as (u & Hu%guard_settled & H); [|extends_tac..].
  apply bind_settled in H as (ss & Hs%selectors_settled & H); [|done|extends_tac..].
  apply bind_settled in H as (ds & Hd%selectors_settled & H); [|done|extends_tac..].
  apply bind_settled in H as (p & Hp%literal_settled & H); [|extends_tac..].
  rewrite asks_run in H. apply bind_settled in H as (raw & _ & H); [|extends_tac..].
  rewrite asks_run in H.
  apply bind_settled in H as (b & _ & H); [|extends_tac..].
  apply bind_settled in H as (e & _ & H); [|extends_tac..].
  apply bind_settled in H as (s & (l & _ & Hl)%normalize_settled & [= <-]); [|extends_tac..].
  split_and!; simpl; [lia..| | | |done|done| |by exists l].
  - intros E. simpl in Hu. by rewrite E in Hu.
  - apply strip_idem.
  - pose proof (strip_char_count n). lia.
  - destruct Hp as [[_ ->]|Hp]; [|done]. apply (bool_decide_unpack _). vm_compute. exact I.
Qed.
Lemma parse_rule_settled raw r : parse_rule raw = inl r → rule_ok r.
Proof.
  unfold parse_rule. destruct (model raw) as [m|]; [|done]. destruct (rule m) as [x m'] eqn:E.
  destruct (finish m') as [u|] eqn:F; [|done]. intros [= <-].
  eapply rule_settled; [exact E|]. by eapply finish_ok.
Qed.
End validation.

Definition book_ok (b : Book) : Prop :=
  (book_name b ≠ "" ∧ strip (book_name b) = book_name b ∧ char_count (book_name b) ≤ 80) ∧
  1 ≤ char_count (group_id b) ≤ 64 ∧ Forall rule_ok (book_rules b) ∧ len (book_rules b) ≤ 100 ∧
  NoDup (map id (book_rules b)) ∧ 0 ≤ revision b ≤ I64_MAX.

(** [Serialize] of a rule, as it is stored. *)
Section stored.
Context `{L : JsonLibs}.
Definition selector_value (s : Selector) : Value :=
  VObject [("kind", VString (kind s)); ("id", VString (sel_id s))].
Definition rule_value (r : Rule) : Value :=
  VObject [("id", VString (id r)); ("name", VString (name r));
           ("sources", VArray (map selector_value (sources r)));
           ("destinations", VArray (map selector_value (destinations r)));
           ("protocol", VString (protocol r)); ("ports", VString (ports_ r));
           ("bidirectional", VBool (bidirectional r)); ("enabled", VBool (enabled_ r))].
End stored.

Section books.
Context `{L : JsonLibs} `{D : DecimalClass}.

Lemma rules_of_settled cs : ∀ m l,
  rules_of cs m = (l, m) → Forall rule_ok l ∧ length l = length cs.
Proof.
  induction cs as [|c cs IH]; cbn [rules_of]; intros m l H; [by injection H as <-|].
  destruct (is_valid c) eqn:Ec.
  2:{ apply bind_settled in H as (u & Hu%merge_settled & _); [|extends_tac..].
      unfold is_valid in Ec. rewrite Hu in Ec. done. }
  destruct (rule c) as [r c'] eqn:Er.
  apply bind_settled in H as (u & Hu%merge_settled & H); [|extends_tac..].
  apply bind_settled in H as (rest & [Hr Hl]%IH & H); [|extends_tac..].
  injection H as <-. split; [|simpl; lia]. constructor; [|done]. by eapply rule_settled.
Qed.

Lemma repeated_NoDup ids : ∀ seen, repeated seen ids = false →
  NoDup ids ∧ ∀ i, i ∈ ids → i ∉ seen.
Proof.
  induction ids as [|i ids IH]; simpl; intros seen H.
  { split; [constructor|]. intros i Hi. by apply not_elem_of_nil in Hi. }
  apply orb_false_iff in H as [Hi [Hn Hd]%IH]. apply bool_decide_eq_false in Hi. split.
  - constructor; [|done]. intros Hin. specialize (Hd i Hin). set_solver.
  - intros j [->|Hj]%elem_of_cons; [done|]. specialize (Hd j Hj). set_solver.
Qed.

Lemma book_settled m b m' : book m = (b, m') → errors m' = [] → book_ok b.
Proof.
  intros H He. destruct (settled book m b m' H He) as [-> Hm]. clear He. unfold book in H.
  apply bind_settled in H as (n & Hn%string_settled & H); [|done|extends_tac..].
  rewrite asks_run, field_valid_clean in H by done.
  apply bind_settled in H as (u & Hu%guard_settled & H); [|extends_tac..].
  apply bind_settled in H as (g & Hg%string_settled & H); [|done|extends_tac..].
  apply bind_settled in H as (e & _ & H); [|extends_tac..].
  apply bind_settled in H as (cs & Hc%objects_settled & H); [|done|extends_tac..].
  apply bind_settled in H as (rs & [Hr Hl]%rules_of_settled & H); [|extends_tac..].
  rewrite asks_run, field_valid_clean in H by done.
  apply bind_settled in H as (u' & Hu'%guard_settled & H); [|extends_tac..].
  rewrite asks_run in H. apply bind_settled in H as (v & Hv & [= <-]); [|extends_tac..].
  split_and!; simpl; [| | |lia..|done|lia| | |].
  - intros E. simpl in Hu. by rewrite E in Hu.
  - apply strip_idem.
  - pose proof (strip_char_count n). lia.
  - simpl in Hu'. by apply repeated_NoDup in Hu' as [? _].
  - destruct (is_some _); [apply required_integer_settled in Hv; lia|]. by injection Hv as <-.
  - destruct (is_some _); [apply required_integer_settled in Hv; lia|]. by injection Hv as <-.
Qed.

(** *** Stored rules *)

Lemma dictionary_object m : dictionary (VObject m) = Some m.
Proof. done. Qed.

Lemma selector_run loc key i s :
  selector_ok s →
  selector (child loc key i (selector_value s))
  = (Some s, child loc key i (selector_value s)) ∧
  errors (child loc key i (selector_value s)) = [].
Proof.
  intros (Hk & Hi & Ha). split; [|done]. unfold selector. rewrite asks_run.
  set (m := child loc key i (selector_value s)).
  change (field m "kind") with (Some (VString (kind s))). simpl negb. cbv iota.
  rewrite (bind_run _ _ _ (kind s)) by by apply literal_run.
  rewrite (bind_run _ _ _ (sel_id s)) by by apply string_run.
  rewrite asks_run, field_valid_clean by done.
  rewrite (bind_run _ _ _ tt).
  2:{ case_bool_decide as E; [|done]. by rewrite (bool_decide_true _ (Ha E)). }
  rewrite asks_run, is_valid_clean by done. by destruct s.
Qed.

Lemma selectors_of_run loc key l : ∀ i m, Forall selector_ok l →
  selectors_of (imap (λ j v, child loc key (Z.of_nat (i + j)) v) (map selector_value l)) m = (l, m).
Proof.
  induction l as [|s l IH]; intros i m Hl; [done|]. apply Forall_cons_1 in Hl as [Hs Hl].
  cbn [map imap selectors_of].
  destruct (selector_run loc key (Z.of_nat (i + 0)) s Hs) as [E He].
  rewrite is_valid_clean by done. cbn [negb]. rewrite E.
  rewrite (bind_run _ _ _ tt) by by apply merge_clean.
  rewrite (bind_run _ _ _ l); [done|].
  rewrite (imap_ext _ (λ j v, child loc key (Z.of_nat (S i + j)) v)); [by apply IH|].
  intros j v _. simpl. f_equal. lia.
Qed.
Lemma selectors_run key m l :
  field m key = Some (VArray (map selector_value l)) → errors m = [] → selectors_ok l →
  selectors key m = (l, m).
Proof.
  intros Hf Hm [Hl Hn]. unfold selectors.
  rewrite (bind_run _ _ _ _ (objects_run _ _ _ _ _ _ Hf Hm ltac:(by rewrite length_map))).
  apply (selectors_of_run (location m) key l 0 m Hl).
Qed.

Lemma normalize_run p s l m : ports_ok p s l → normalize p s m = (s, m).
Proof.
  intros (Hc & -> & Hp). unfold normalize. rewrite ports_format by done.
  destruct (negb (len l =? 0) && _ && _) eqn:G; [|done]. exfalso.
  destruct l as [|x l]; [done|]. destruct (Hp ltac:(done)) as [->| ->]; done.
Qed.

Lemma rule_run r :
  rule_ok r → 1 ≤ char_count (name r) → char_count (ports_ r) ≤ 512 →
  let m := mkModel (match rule_value r with VObject o => o | _ => [] end) [json "body"] [] in
  rule m = (r, m).
Proof.
  intros (Hi & (Hn1 & Hn2 & Hn3) & Hs & Hd & Hp & l & Hl) Hn Hlen m. unfold rule.
  rewrite (bind_run _ _ _ (id r)) by by apply string_run.
  rewrite (bind_run _ _ _ (name r)) by (by apply string_run; [|lia]).
  rewrite asks_run, field_valid_clean by done.
  rewrite (bind_run _ _ _ tt).
  2:{ rewrite Hn2. destruct (name r); [done|]. done. }
  rewrite (bind_run _ _ _ (sources r)) by by apply selectors_run.
  rewrite (bind_run _ _ _ (destinations r)) by by apply selectors_run.
  rewrite (bind_run _ _ _ (protocol r)) by by apply literal_run.
  rewrite asks_run. change (field m "ports") with (Some (VString (ports_ r))). cbv iota. simpl is_some. cbv iota.
  rewrite (bind_run _ _ _ (ports_ r)) by (apply string_run; [done|]; split; [apply char_count_nonneg|done]).
  rewrite asks_run, field_valid_clean by done.
  rewrite (bind_run _ _ _ (bidirectional r)).
  2:{ unfold boolean. rewrite asks_run. by apply required_bool_run. }
  rewrite (bind_run _ _ _ (enabled_ r)).
  2:{ unfold boolean. rewrite asks_run. by apply required_bool_run. }
  cbv beta zeta iota. rewrite (bind_run _ _ _ (ports_ r)) by by eapply normalize_run.
  rewrite Hn2. by destruct r.
Qed.
End books.

(** ** Evaluation and compilation *)

Section semantics.
Context `{L : JsonLibs} `{D : DecimalClass}.
Abbreviation Groups := (gmap string Value).

Definition rule_ports (r : Rule) : list Port :=
  match ports (ports_ r) with Ok l => l | _ => [] end.

Lemma rule_ports_ok r : rule_ok r → ports (ports_ r) = Ok (rule_ports r).
Proof.
  intros (_ & _ & _ & _ & _ & l & Hc & E & _). unfold rule_ports. by rewrite E, ports_format.
Qed.
Lemma rules_ok b : Forall rule_ok (rules b).
Proof.
  apply Forall_forall. intros r. unfold rules. rewrite list_elem_of_omap.
  intros (raw & _ & H). destruct (parse_rule raw) as [r'|] eqn:E; [|done].
  injection H as <-. by eapply parse_rule_settled.
Qed.
Lemma filter_rules_ok f b : Forall rule_ok (List.filter f (rules b)).
Proof.
  pose proof (rules_ok b) as H. rewrite Forall_forall in H |- *. intros r Hr.
  apply H. apply list_elem_of_In, filter_In in Hr as [Hr _]. by apply list_elem_of_In.
Qed.

(** *** The first matching rule *)

Definition applies (groups : Groups) (src dst : Value) (port : Z) (r : Rule) : bool :=
  in_range (rule_ports r) port
  && (pair_matched r groups src dst || bidirectional r && pair_matched r groups dst src).

Lemma evaluate_rules_find src dst port groups rs :
  Forall rule_ok rs →
  evaluate_rules src dst port groups rs = Ok (List.find (applies groups src dst port) rs).
Proof.
  induction 1 as [|r rs Hr Hrs IH]; [done|]. cbn [evaluate_rules List.find].
  rewrite rule_ports_ok by done. unfold applies at 1.
  destruct (in_range (rule_ports r) port); cbn [negb andb]; [|done]. by case_match.
Qed.

(** A book of the workspace of [src] with a rule for the connection. *)
Definition grants_access (groups : Groups) (src dst : Value) (proto : string) (port : Z)
    (b : Value) : Prop :=
  book_active groups b = true ∧ field_text b "user_id" = field_text src "user_id" ∧
  ∃ r, r ∈ rules b ∧ speaks proto r = true ∧ applies groups src dst port r = true.

Lemma evaluate_books_spec src dst proto port groups books :
  ∃ d, evaluate_books src dst proto port groups books = Ok d ∧
    (allowed d = true ↔ ∃ b, b ∈ books ∧ grants_access groups src dst proto port b).
Proof.
  induction books as [|b books (d & E & IH)]; cbn [evaluate_books].
  { eexists. split; [done|]. simpl. set_solver. }
  assert ((∃ b', b' ∈ b :: books ∧ grants_access groups src dst proto port b') ↔
          grants_access groups src dst proto port b ∨ allowed d = true) as Hiff.
  { rewrite IH. set_solver. }
  destruct (book_active groups b && _) eqn:G.
  - apply andb_true_iff in G as [Ga Gu%bool_decide_eq_true_1].
    rewrite evaluate_rules_find by apply filter_rules_ok. cbn [rbind].
    destruct (List.find _ _) as [r|] eqn:F.
    + apply find_some in F as [[Hr Hs]%filter_In Happ]. eexists. split; [done|]. rewrite Hiff. simpl.
      split; [|done]. intros _. left. split_and!; [done..|]. exists r.
      split_and!; [by apply list_elem_of_In|done..].
    + exists d. split; [done|]. rewrite Hiff. split; [by right|]. intros [(_ & _ & r & Hr & Hs & Ha)|]; [|done].
      exfalso. eapply find_none in F; [|apply filter_In; split; [by apply list_elem_of_In|exact Hs]].
      congruence.
  - exists d. split; [done|]. rewrite Hiff. split; [by right|]. intros [(Ha & Hu & _)|]; [|done]. exfalso.
    rewrite Ha, bool_decide_true in G by done. done.
Qed.

(** *** The grants in order *)

(** The grants of the pairs in order, each key once. *)
Fixpoint fresh (seen : gset seen_key) (cs : list (seen_key * Grant)) : list Grant :=
  match cs with
  | [] => []
  | (k, g) :: cs => if bool_decide (k ∈ seen) then fresh seen cs else g :: fresh ({[k]} ∪ seen) cs
  end.
Definition candidate (r : Rule) (lr : Value * Value) : seen_key * Grant :=
  let s := field_text lr.1 "_id" in
  let d := field_text lr.2 "_id" in
  ((s, d, protocol r, ports_ r), mkGrant s d (protocol r) (rule_ports r)).
Definition distinct (lr : Value * Value) : bool :=
  negb (value_eqb (index lr.1 "_id") (index lr.2 "_id")).
Definition rule_candidates (act : list Value) (groups : Groups) (scope : option string)
    (b : Value) (r : Rule) : list (seen_key * Grant) :=
  map (candidate r) (List.filter distinct (rule_pairs act groups scope b r)).
Definition book_candidates (act : list Value) (groups : Groups) (scope : option string)
    (b : Value) : list (seen_key * Grant) :=
  if book_active groups b
  then flat_map (rule_candidates act groups scope b) (List.filter enabled_ (rules b)) else [].

Definition grant_step (acc : list Grant * gset seen_key) (c : seen_key * Grant) :=
  if bool_decide (c.1 ∈ acc.2) then acc else (acc.1 ++ [c.2], {[c.1]} ∪ acc.2).

Lemma fold_fresh cs : ∀ gs seen,
  (foldl grant_step (gs, seen) cs).1 = gs ++ fresh seen cs.
Proof.
  induction cs as [|[k g] cs IH]; intros gs seen; simpl; [by rewrite app_nil_r|].
  unfold grant_step at 2. simpl. case_bool_decide; rewrite IH; [done|].
  by rewrite <- (assoc_L (++)).
Qed.
Lemma fold_pairs r pairs acc :
  foldl (λ acc '(l, rt), grant_pair r (rule_ports r) l rt acc) acc pairs
  = foldl grant_step acc (map (candidate r) (List.filter distinct pairs)).
Proof.
  revert acc. induction pairs as [|[l rt] pairs IH]; intros acc; [done|]. cbn [foldl List.filter].
  unfold distinct at 1. cbn [fst snd]. unfold grant_pair at 2.
  destruct acc as [gs seen]. destruct (value_eqb _ _); cbn [negb]; [apply IH|].
  cbn [map foldl]. rewrite <- IH. done.
Qed.
Lemma compile_rules_fold act groups scope b rs : ∀ acc, Forall rule_ok rs →
  compile_rules act groups scope b rs acc
  = Ok (foldl grant_step acc (flat_map (rule_candidates act groups scope b) rs)).
Proof.
  induction rs as [|r rs IH]; intros acc H; [done|]. apply Forall_cons_1 in H as [Hr Hrs].
  cbn [compile_rules flat_map]. rewrite rule_ports_ok, IH, foldl_app by done. by rewrite fold_pairs.
Qed.
Lemma compile_books_fold act groups scope books : ∀ acc,
  compile_books act groups scope books acc
  = Ok (foldl grant_step acc (flat_map (book_candidates act groups scope) books)).
Proof.
  induction books as [|b books IH]; intros acc; [done|]. cbn [compile_books flat_map].
  unfold book_candidates at 1. destruct (book_active groups b); [|apply IH].
  rewrite compile_rules_fold by apply filter_rules_ok. cbn [rbind]. by rewrite IH, foldl_app.
Qed.
Lemma compile_fresh machines books groups scope :
  compile_inner machines books groups scope
  = Ok (fresh ∅ (flat_map (book_candidates (List.filter active machines) groups scope) books)).
Proof.
  unfold compile_inner. rewrite compile_books_fold. cbn [rbind]. by rewrite fold_fresh.
Qed.

(** The key of a candidate decides its grant. *)
Lemma candidate_functional act groups scope books c c' :
  c ∈ flat_map (book_candidates act groups scope) books →
  c' ∈ flat_map (book_candidates act groups scope) books → c.1 = c'.1 → c.2 = c'.2.
Proof.
  assert (∀ c, c ∈ flat_map (book_candidates act groups scope) books →
    ∃ r lr, c = candidate r lr) as Hc.
  { intros x Hx%list_elem_of_In. apply in_flat_map in Hx as (b & _ & Hx).
    unfold book_candidates in Hx. destruct (book_active groups b); [|done].
    apply in_flat_map in Hx as (r & _ & Hx). apply in_map_iff in Hx as (lr & <- & _). eauto. }
  intros (r & lr & ->)%Hc (r' & lr' & ->)%Hc. cbn. intros [= -> -> -> E].
  f_equal. unfold rule_ports. by rewrite E.
Qed.

Lemma fresh_elem cs : ∀ seen g,
  (∀ c c', c ∈ cs → c' ∈ cs → c.1 = c'.1 → c.2 = c'.2) →
  g ∈ fresh seen cs ↔ ∃ c, c ∈ cs ∧ c.2 = g ∧ c.1 ∉ seen.
Proof.
  induction cs as [|[k g'] cs IH]; intros seen g Hf; simpl; [set_solver|].
  assert (∀ c c', c ∈ cs → c' ∈ cs → c.1 = c'.1 → c.2 = c'.2) as Hf'
    by (intros; apply Hf; [by right|by right|done]).
  case_bool_decide as Hk.
  - rewrite IH by done. split.
    + intros (c & ? & ? & ?). exists c. split_and!; [by right|done..].
    + intros (c & [->|?]%elem_of_cons & <- & ?); [done|]. by exists c.
  - rewrite elem_of_cons, IH by done. split.
    + intros [->|(c & ? & ? & ?)]; [exists (k, g'); split_and!; [left|done..]|].
      exists c. split_and!; [by right|done|set_solver].
    + intros (c & Hc & <- & ?). apply elem_of_cons in Hc as [->|Hc]; [by left|].
      destruct (decide (c.1 = k)) as [E|E].
      * left. apply (Hf c (k, g')); [by right|left|done].
      * right. exists c. split_and!; [done..|set_solver].
Qed.

(** *** The scope *)

Lemma filter_flat_map {A B} (f : B → bool) (g : A → list B) l :
  List.filter f (flat_map g l) = flat_map (λ x, List.filter f (g x)) l.
Proof. induction l as [|x l IH]; simpl; [done|]. by rewrite List.filter_app, IH. Qed.
Lemma flat_map_filter {A B} (f : A → bool) (g : A → list B) l :
  flat_map g (List.filter f l) = flat_map (λ x, if f x then g x else []) l.
Proof. induction l as [|x l IH]; simpl; [done|]. destruct (f x); simpl; by rewrite IH. Qed.
Lemma flat_map_ext' {A B} (f g : A → list B) l : (∀ x, f x = g x) → flat_map f l = flat_map g l.
Proof. intros H. induction l as [|x l IH]; simpl; [done|]. by rewrite H, IH. Qed.
Lemma filter_map' {A B} (f : B → bool) (g : A → B) l :
  List.filter f (map g l) = map g (List.filter (λ x, f (g x)) l).
Proof. induction l as [|x l IH]; simpl; [done|]. destruct (f (g x)); simpl; by rewrite IH. Qed.
Lemma filter_comm' {A} (f g : A → bool) l :
  List.filter f (List.filter g l) = List.filter g (List.filter f l).
Proof.
  induction l as [|x l IH]; simpl; [done|].
  destruct (g x) eqn:G, (f x) eqn:F; simpl; rewrite ?G, ?F, IH; done.
Qed.

(** A grant from or to the machine. *)
Definition incident (machine : string) (g : Grant) : bool :=
  bool_decide (source g = machine) || bool_decide (destination g = machine).
Definition incident_pair (machine : string) (lr : Value * Value) : bool :=
  in_scope (Some machine) lr.1 || in_scope (Some machine) lr.2.

Lemma rule_pairs_scoped act groups machine b r :
  rule_pairs act groups (Some machine) b r
  = List.filter (incident_pair machine) (rule_pairs act groups None b r).
Proof.
  unfold rule_pairs. rewrite filter_flat_map. apply flat_map_ext'. intros s. rewrite filter_flat_map.
  destruct (in_scope (Some machine) s) eqn:Es; [|rewrite flat_map_filter]; apply flat_map_ext'; intros d;
    (destruct (bidirectional r); cbn [List.filter]; unfold incident_pair; cbn [fst snd]; rewrite ?Es;
     destruct (in_scope (Some machine) d); reflexivity).
Qed.
Lemma book_candidates_scoped act groups machine b :
  book_candidates act groups (Some machine) b
  = List.filter (λ c, incident machine c.2) (book_candidates act groups None b).
Proof.
  unfold book_candidates. destruct (book_active groups b); [|done].
  rewrite filter_flat_map. apply flat_map_ext'. intros r. unfold rule_candidates.
  rewrite filter_map', rule_pairs_scoped. by rewrite filter_comm'.
Qed.

Lemma fresh_filter machine cs : ∀ seen,
  (∀ c, c ∈ cs → incident machine c.2 = bool_decide (c.1.1.1.1 = machine) || bool_decide (c.1.1.1.2 = machine)) →
  ∀ seen', (∀ k, bool_decide (k.1.1.1 = machine) || bool_decide (k.1.1.2 = machine) = true →
              k ∈ seen' ↔ k ∈ seen) →
  fresh seen' (List.filter (λ c, incident machine c.2) cs)
  = List.filter (incident machine) (fresh seen cs).
Proof.
  induction cs as [|[k g] cs IH]; intros seen Hc seen' Hs; [done|].
  assert (∀ c, c ∈ cs → incident machine c.2
    = bool_decide (c.1.1.1.1 = machine) || bool_decide (c.1.1.1.2 = machine)) as Hc'
    by (intros; apply Hc; by right).
  pose proof (Hc (k, g) ltac:(left)) as Hk. cbn [fst snd] in Hk.
  cbn [List.filter snd fresh]. destruct (incident machine g) eqn:G.
  - cbn [fresh]. rewrite (bool_decide_ext (k ∈ seen') (k ∈ seen)) by (apply Hs; by rewrite <- Hk).
    destruct (bool_decide (k ∈ seen)); [by apply IH|]. cbn [List.filter]. rewrite G. f_equal.
    apply IH; [done|]. intros k' Hk'. specialize (Hs k' Hk'). set_solver.
  - destruct (bool_decide (k ∈ seen)); [by apply IH|]. cbn [List.filter]. rewrite G. apply IH; [done|].
    intros k' Hk'. rewrite (Hs k' Hk'). assert (k' ≠ k) by (intros ->; congruence). set_solver.
Qed.

(** A client's snapshot is the workspace's: for every machine [compile_for] returns
    exactly the grants of [compile] from or to that machine, in the same order, although
    it never builds the others; and neither panics on any stored books. *)
Theorem compile_for_is_filter machines books groups machine :
  ∃ gs, compile machines books groups = Ok gs ∧
    compile_for machines books groups machine = Ok (List.filter (incident machine) gs).
Proof.
  eexists. unfold compile, compile_for. rewrite !compile_fresh. split; [done|]. f_equal.
  rewrite (flat_map_ext' _ _ books (book_candidates_scoped _ _ machine)), <- filter_flat_map.
  apply fresh_filter; [|done]. intros c Hc%list_elem_of_In.
  apply in_flat_map in Hc as (b & _ & Hc). unfold book_candidates in Hc.
  destruct (book_active groups b); [|done]. apply in_flat_map in Hc as (r & _ & Hc).
  by apply in_map_iff in Hc as (lr & <- & _).
Qed.

(** *** Preview and grants *)

Lemma select_elem act groups b sel m :
  In m (select act groups b sel) ↔
  In m act ∧ field_text m "user_id" = field_text b "user_id" ∧ matched sel m groups = true.
Proof.
  unfold select. rewrite filter_In, andb_true_iff, bool_decide_eq_true. tauto.
Qed.
Lemma rule_pairs_elem act groups b r l rt :
  In (l, rt) (rule_pairs act groups None b r) ↔
  In l act ∧ In rt act ∧ field_text l "user_id" = field_text b "user_id" ∧
  field_text rt "user_id" = field_text b "user_id" ∧
  (pair_matched r groups l rt || bidirectional r && pair_matched r groups rt l) = true.
Proof.
  unfold rule_pairs, pair_matched. rewrite in_flat_map.
  setoid_rewrite in_flat_map. setoid_rewrite select_elem. split.
  - intros (s & (Hs & Us & Ms) & d & (Hd & Ud & Md) & Hin).
    destruct (bidirectional r); simpl in Hin; destruct_or? Hin; simplify_eq; try done;
      rewrite Ms, Md; split_and!; try done; rewrite ?orb_true_r; done.
  - intros (Hl & Hr & Ul & Ur & [H|H]%orb_true_iff).
    + apply andb_true_iff in H as [H1 H2]. exists l. split; [done|]. exists rt. split; [done|].
      destruct (bidirectional r); by left.
    + apply andb_true_iff in H as [Hb [H1 H2]%andb_true_iff]. exists rt. split; [done|].
      exists l. split; [done|]. rewrite Hb. right. by left.
Qed.

Definition permits (src dst : Value) (proto : string) (port : Z) (g : Grant) : Prop :=
  source g = field_text src "_id" ∧ destination g = field_text dst "_id" ∧
  (grant_protocol g = "any" ∨ grant_protocol g = proto) ∧ in_range (grant_ports g) port = true.

Lemma compile_elem machines books groups g :
  g ∈ fresh ∅ (flat_map (book_candidates (List.filter active machines) groups None) books) ↔
  ∃ b r lr, b ∈ books ∧ book_active groups b = true ∧ r ∈ rules b ∧ enabled_ r = true ∧
    In lr (rule_pairs (List.filter active machines) groups None b r) ∧ distinct lr = true ∧
    g = (candidate r lr).2.
Proof.
  rewrite fresh_elem by apply candidate_functional. split.
  - intros (c & Hc%list_elem_of_In & <- & _). apply in_flat_map in Hc as (b & Hb & Hc).
    unfold book_candidates in Hc. destruct (book_active groups b) eqn:Ea; [|done].
    apply in_flat_map in Hc as (r & [Hr Hen]%filter_In & Hc).
    apply in_map_iff in Hc as (lr & <- & [Hlr Hd]%filter_In). exists b, r, lr.
    split_and!; try done; by apply list_elem_of_In.
  - intros (b & r & lr & Hb & Ha & Hr & Hen & Hlr & Hd & ->). exists (candidate r lr).
    split_and!; [|done|set_solver]. apply list_elem_of_In, in_flat_map. exists b.
    split; [by apply list_elem_of_In|]. unfold book_candidates. rewrite Ha. apply in_flat_map.
    exists r. split; [apply filter_In; split; [by apply list_elem_of_In|done]|].
    apply in_map_iff. exists lr. split; [done|]. by apply filter_In.
Qed.

Lemma active_not_disabled m : active m = true → value_eqb (index m "enabled") (VBool false) = false.
Proof.
  unfold active, enabled, index. destruct (vget m "enabled") as [v|]; [|done]. simpl.
  by destruct v as [|[]| | | |].
Qed.
Lemma active_not_revoked m : active m = true → revoked m = false.
Proof. unfold active. by intros [_ ?%negb_true_iff]%andb_true_iff. Qed.

(** The preview and the enforced grants agree: for two active machines of the
    inventory, told apart by their identifiers, [evaluate] allows a connection exactly
    when [compile] contains a grant that permits it.  Neither panics. *)
Theorem preview_agrees_with_grants machines books groups src dst proto port :
  src ∈ machines → dst ∈ machines →
  active src = true → active dst = true → is_null src = false → is_null dst = false →
  (∀ m, m ∈ machines → field_text m "_id" = field_text src "_id" → m = src) →
  (∀ m, m ∈ machines → field_text m "_id" = field_text dst "_id" → m = dst) →
  value_eqb (index src "_id") (index dst "_id") = false →
  proto ∈ ["tcp"; "udp"; "icmp"] → proto = "icmp" ∨ 1 ≤ port ≤ 65535 →
  ∃ d gs, evaluate src dst proto port books groups = Ok d ∧
    compile machines books groups = Ok gs ∧
    (allowed d = true ↔ ∃ g, g ∈ gs ∧ permits src dst proto port g).
Proof.
  intros Hs Hd As Ad Ns Nd Us Ud Hne Hp Hport.
  assert (∃ d, evaluate src dst proto port books groups = Ok d ∧
    (allowed d = true ↔ field_text src "user_id" = field_text dst "user_id" ∧
       ∃ b, b ∈ books ∧ grants_access groups src dst proto port b)) as (d & E & Hev).
  { unfold evaluate. rewrite Ns, Nd, !active_not_disabled, !active_not_revoked by done. simpl.
    case_bool_decide as Ew; [|by eexists; split; [done|]; simpl; naive_solver]. simpl.
    rewrite (bool_decide_true (proto ∈ _)) by done. cbn [negb].
    assert (negb (bool_decide (proto = "icmp")) && negb ((1 <=? port) && (port <=? 65535)) = false) as ->.
    { case_bool_decide; [done|]. destruct Hport; [done|]. simpl. lia. }
    destruct (evaluate_books_spec src dst proto port groups books) as (d & -> & Hd'). exists d.
    split; [done|]. rewrite Hd'. naive_solver. }
  exists d. eexists. split; [done|]. unfold compile. rewrite compile_fresh. split; [done|].
  rewrite Hev. setoid_rewrite compile_elem. split.
  - intros (Ew & b & Hb & Ha & Hu & r & Hr & Hsp & Happ).
    unfold speaks in Hsp. apply andb_true_iff in Hsp as [Hen Hpr].
    unfold applies in Happ. apply andb_true_iff in Happ as [Hrg Hpm].
    eexists. split.
    { exists b, r, (src, dst). split_and!; [done..| | |reflexivity].
      - apply rule_pairs_elem. split_and!; [| |congruence..|done];
          apply filter_In; split; [by apply list_elem_of_In|done|by apply list_elem_of_In|done].
      - unfold distinct. cbn [fst snd]. by rewrite Hne. }
    cbn. unfold permits. split_and!; [done..| |done].
    apply orb_true_iff in Hpr as [?%bool_decide_eq_true_1|?%bool_decide_eq_true_1]; auto.
  - intros (g & (b & r & [l rt] & Hb & Ha & Hr & Hen & Hlr & Hdi & ->) & Hsrc & Hdst & Hpr & Hrg).
    apply rule_pairs_elem in Hlr as (Hl & Hrt & Ul & Ur & Hpm).
    apply filter_In in Hl as [Hl%list_elem_of_In _], Hrt as [Hrt%list_elem_of_In _].
    cbn in Hsrc, Hdst. apply Us in Hsrc as ->; [|done]. apply Ud in Hdst as ->; [|done].
    split; [congruence|]. exists b. split; [done|]. split_and!; [done|congruence|]. exists r.
    split_and!; [done| |].
    + unfold speaks. rewrite Hen. cbn in Hpr.
      destruct Hpr as [E'|E']; rewrite (bool_decide_true _ E'); by rewrite ?orb_true_r.
    + unfold applies. cbn in Hrg. by rewrite Hrg, Hpm.
Qed.
End semantics.

Section accepted.
Context `{L : JsonLibs} `{D : DecimalClass}.

(** C16. Every rule book the API accepts is well formed: a trimmed, non-empty name of at
    most 80 characters, at most 100 rules with distinct identifiers, a revision in
    range, and in every rule one to 32 valid selectors on both sides, a known protocol
    and a canonical port list (sorted, without repetitions, at most 64 ranges between 1
    and 65535), which only TCP and UDP rules have. *)
Theorem parse_book_wf raw b : parse_book raw = inl b → book_ok b.
Proof.
  unfold parse_book. destruct (model raw) as [m|]; [|done]. destruct (book m) as [x m'] eqn:E.
  destruct (finish m') as [u|] eqn:F; [|done]. intros [= <-].
  eapply book_settled; [exact E|]. by eapply finish_ok.
Qed.

(** A rule that was validated and stored is read back unchanged, so the policy that
    is evaluated and compiled is the one that was accepted, when its normalized port
    list has at most 512 characters (and its name, which is not empty, has a character). *)
Theorem stored_rule_roundtrip raw r :
  parse_rule raw = inl r → 1 ≤ char_count (name r) → char_count (ports_ r) ≤ 512 →
  parse_rule (rule_value r) = inl r.
Proof.
  intros H%parse_rule_settled Hn Hp. pose proof (rule_run r H Hn Hp) as E.
  unfold parse_rule. change (model (rule_value r)) with
    (@inl Model ApiError (mkModel (match rule_value r with VObject o => o | _ => [] end) [json "body"] [])).
  cbv iota. rewrite E. by rewrite finish_clean.
Qed.
End accepted.

(** ** Examples *)

(** Numbers as integers; only ASCII digits. *)
Definition sample_json : JsonLibs := {|
  Number := Z; number_of := λ n, n; number_text := show_i128;
  number_i64 := Some; number_u64 := λ n, if 0 <=? n then Some n else None;
  is_f64 := λ _, false; f64_is := Z.eqb; f64_trunc := Some; f64_extreme := λ _, false;
  f64_scientific := λ n, (show_i128 n, 0); f64_display := show_i128 |}.
Definition sample_digits : DecimalClass := {|
  is_nd := is_ascii_digit; is_nd_ascii := λ c _, eq_refl |}.


Section samples.
#[local] Existing Instance sample_json.
#[local] Existing Instance sample_digits.

Definition sample_selector (k i : string) : Value :=
  VObject [("kind", VString k); ("id", VString i)].
Definition sample_rule (ports : string) : Value :=
  VObject [("id", VString "r1"); ("name", VString " web ");
           ("sources", VArray [sample_selector "machine" "a"]);
           ("destinations", VArray [sample_selector "all" "machines"]);
           ("ports", VString ports); ("bidirectional", VString "no")].
Definition sample_book (rules : list Value) : Value :=
  VObject [("_id", VString "b1"); ("name", VString "office"); ("group_id", VString "g1");
           ("user_id", VString "u1"); ("rules", VArray rules); ("revision", VNumber 3)].
Definition sample_machine (i : string) : Value :=
  VObject [("_id", VString i); ("user_id", VString "u1"); ("enabled", VBool true)].
Definition sample_groups : gmap string Value := {["g1" := VObject []]}.

Definition parsed_rule : Rule :=
  mkRule "r1" "web" [mkSelector "machine" "a"] [mkSelector "all" "machines"] "tcp"
    "22, 443, 8000-8090" false true.
Definition parsed_book : Book := mkBook "office" "g1" true [parsed_rule] 3.

Lemma parse_book_wf_witness :
  parse_book (sample_book [sample_rule "443, 8000 - 8090,22,443"]) = inl parsed_book ∧
  book_ok parsed_book.
Proof.
  assert (parse_book (sample_book [sample_rule "443, 8000 - 8090,22,443"]) = inl parsed_book) as H
    by by_vm.
  split; [exact H|exact (parse_book_wf _ _ H)].
Defined.

Lemma stored_rule_roundtrip_witness :
  parse_rule (sample_rule "443, 8000 - 8090,22,443") = inl parsed_rule ∧
  parse_rule (rule_value parsed_rule) = inl parsed_rule.
Proof.
  assert (parse_rule (sample_rule "443, 8000 - 8090,22,443") = inl parsed_rule) as H
    by by_vm.
  split; [exact H|]. apply (stored_rule_roundtrip _ _ H); apply (bool_decide_unpack _);
    vm_compute; exact I.
Defined.

Lemma preview_agrees_with_grants_witness :
  let a := sample_machine "a" in
  let b := sample_machine "b" in
  ∃ d gs, evaluate a b "tcp" 443 [sample_book [sample_rule "443"]] sample_groups = Ok d ∧
    compile [a; b] [sample_book [sample_rule "443"]] sample_groups = Ok gs ∧
    (allowed d = true ↔ ∃ g, g ∈ gs ∧ permits a b "tcp" 443 g).
Proof.
  apply preview_agrees_with_grants; try reflexivity.
  - by left.
  - by right; left.
  - intros m Hm. set_unfold in Hm. destruct Hm as [->|[->|[]]]; [done|].
    intros E. vm_compute in E. discriminate E.
  - intros m Hm. set_unfold in Hm. destruct Hm as [->|[->|[]]]; [|done].
    intros E. vm_compute in E. discriminate E.
  - by left.
  - right. lia.
Defined.

(** The accepted rule does grant the connection, and only in its direction. *)
Lemma sample_policy_works :
  let a := sample_machine "a" in
  let b := sample_machine "b" in
  let books := [sample_book [sample_rule "443"]] in
  evaluate a b "tcp" 443 books sample_groups
  = Ok (mkDecision true (Some "r1") (Some "b1") "web") ∧
  evaluate b a "tcp" 443 books sample_groups
  = Ok (deny "No enabled rule allows this connection") ∧
  compile [a; b] books sample_groups = Ok [mkGrant "a" "b" "tcp" [mkPort 443 443]] ∧
  compile_for [a; b] books sample_groups "c" = Ok [].
Proof.
  intros a b books. split_and!; by_vm.
Qed.

(** 42 ranges of five-digit ports, as short as they can be written. *)
Definition long_ports : string :=
  join "," (map (λ i, show_u128 (10000 + 2 * i) +:+ "-" +:+ show_u128 (10001 + 2 * i)) (seqZ 0 42)).
Definition long_rule : Rule :=
  mkRule "r1" "web" [mkSelector "machine" "a"] [mkSelector "all" "machines"] "tcp"
    (format_ports (map (λ i, mkPort (10000 + 2 * i) (10001 + 2 * i)) (seqZ 0 42))) false true.

(** The bound of the round trip is real: a rule with 42 five-digit port ranges is
    accepted (503 characters), is stored normalized with 544 characters, and is then
    dropped when the stored book is read: the book has no rules. *)
Theorem long_port_list_lost :
  parse_rule (sample_rule long_ports) = inl long_rule ∧
  char_count long_ports = 503 ∧ char_count (ports_ long_rule) = 544 ∧
  rules (sample_book [rule_value long_rule]) = [].
Proof. split_and!; by_vm. Qed.
End samples.
