(* ===== verification/History.v ===== *)
(** * Terminal scrollback ([porthub-terminal/src/history.rs], [history/snapshot.rs],
      [history/snapshot_cache.rs])

    [Snapshot] is an immutable copy of a pane's scrollback with the offsets of its lines;
    [SnapshotCache] owns at most one snapshot per attached guest and accounts for its
    storage.  A snapshot's random identity is an argument of [new]; what the multiplexer
    prints is an argument of [parse_capture]. *)

From S2P Require Import Prelude Net RustStr Text Delivery TermProtocol.
Local Open Scope string_scope.
Local Open Scope list_scope.
Local Open Scope Z_scope.

Definition MAX_CAPTURE : Z := 128 * 1024.
Definition MAX_SNAPSHOT : Z := 64 * 1024 * 1024.
Definition MAX_HEADER : Z := 128.

(** ** Snapshots *)

Record CapturedPage := mkPage {
  p_bytes : list Z; p_total : Z; p_lines : Z; p_truncated : bool; p_pane : string }.

Record Snapshot := mkSnapshot {
  s_id : string; s_pane : string; s_bytes : list Z; s_offsets : list Z }.

(** The offset after every newline. *)
Fixpoint newline_offsets (i : Z) (bytes : list Z) : list Z :=
  match bytes with
  | [] => []
  | b :: bytes =>
      if b =? 10 then i + 1 :: newline_offsets (i + 1) bytes else newline_offsets (i + 1) bytes
  end.
Definition line_offsets (bytes : list Z) : list Z :=
  let offsets := 0 :: newline_offsets 0 bytes in
  if bool_decide (last offsets = Some (len bytes)) then offsets else offsets ++ [len bytes].

(** [Snapshot::new] *)
Definition snapshot_new (random : string) (pane : string) (bytes : list Z) : res Snapshot :=
  let! _ := history_request pane 0 1 in
  ensure! negb (str_is_empty pane) else "snapshot requires a resolved pane" in
  ensure! len bytes <=? MAX_SNAPSHOT else "history snapshot exceeds host storage limit" in
  let offsets := line_offsets bytes in
  ensure! len offsets <=? 200001 else "history snapshot exceeds line limit" in
  Ok (mkSnapshot random pane bytes offsets).

(** [(self.offsets.len() - 1) as u32] *)
Definition total (s : Snapshot) : Z := as_u32 (len (s_offsets s) - 1).
Definition storage_bytes (s : Snapshot) : Z := len (s_bytes s) + len (s_offsets s) * 8.

(** [bytes.iter().position(|byte| *byte == b'\n')] *)
Fixpoint newline_position (i : Z) (bytes : list Z) : option Z :=
  match bytes with
  | [] => None
  | b :: bytes => if b =? 10 then Some i else newline_position (i + 1) bytes
  end.

(** ** Captures

    [run] is the multiplexer: the output of a command and whether it succeeded, or the
    error of starting it. *)
Section capture.
Variable run : list string → res (list Z * bool).

Definition capture (arguments : list string) (limit : Z) : res (list Z * bool) :=
  let! '(output, success) := run arguments in
  let data := take (Z.to_nat (limit + 1)) output in
  let truncated := limit <? len data in
  let data := if truncated then take (Z.to_nat limit) data else data in
  ensure! truncated || success else "terminal pane unavailable" in
  Ok (data, truncated).

Definition target (pane : string) : string := if str_is_empty pane then "=workspace:" else pane.

(** What [Snapshot::capture] makes of the output. *)
Definition parse_capture (random : string) (bytes : list Z) (truncated : bool) : res Snapshot :=
  ensure! negb truncated else "history snapshot exceeds host storage limit" in
  let! end_ := ok_or (e ← newline_position 0 bytes; if e <? MAX_HEADER then Some e else None)
                 "history snapshot metadata missing" in
  let! header := ok_or (from_utf8 (take (Z.to_nat end_) bytes)) "invalid utf-8" in
  let fields := split "|" header in
  ensure! bool_decide (fields !! 0%nat = Some "PORTHUB-SNAPSHOT")
    else "pane is outside the shared workspace" in
  let! pane := ok_or (fields !! 1%nat) "snapshot pane missing" in
  let! size := ok_or (fields !! 2%nat) "snapshot size missing" in
  let! count := ok_or (parse_uint U32_MAX size) "invalid digit found in string" in
  ensure! bool_decide (fields !! 3%nat = None) && (count <=? 200000)
    else "invalid snapshot metadata" in
  let! snapshot := snapshot_new random pane (drop (Z.to_nat (end_ + 1)) bytes) in
  ensure! total snapshot =? count else "history changed during capture; refresh to try again" in
  Ok snapshot.

(** [Snapshot::capture] *)
Definition snapshot_capture (random pane : string) : res Snapshot :=
  let! _ := history_request pane 0 1 in
  let target := target pane in
  let body :=
    "display-message -p -t " +:+ target +:+ " 'PORTHUB-SNAPSHOT|#{pane_id}|#{history_size}'; "
    +:+ "if-shell -F -t " +:+ target +:+ " '#{history_size}' 'capture-pane -p -t " +:+ target
    +:+ " -S - -E -1'" in
  let! '(bytes, truncated) :=
    capture ["if-shell"; "-F"; "-t"; target; "#{==:#{session_name},workspace}"; body;
             "display-message -p 'PORTHUB-SNAPSHOT-REJECTED'"] (MAX_SNAPSHOT + MAX_HEADER) in
  parse_capture random bytes truncated.

Definition page_pinned (pane : string) (before lines : Z) : res CapturedPage :=
  let! _ := history_request pane before lines in
  let! '(metadata, truncated) :=
    capture ["display-message"; "-p"; "-t"; target pane;
             "#{session_name}|#{pane_id}|#{history_size}"] 64 in
  ensure! negb truncated else "invalid terminal history metadata" in
  let! metadata := ok_or (from_utf8 metadata) "invalid utf-8" in
  let fields := split "|" (str_trim metadata) in
  ensure! bool_decide (fields !! 0%nat = Some "workspace")
    else "terminal pane is outside the shared workspace" in
  let! resolved_pane := ok_or (fields !! 1%nat) "terminal pane identity missing" in
  ensure! str_starts_with "%" resolved_pane else "terminal pane identity missing" in
  let! _ := history_request resolved_pane before lines in
  let! size := ok_or (fields !! 2%nat) "terminal history size missing" in
  let! total := ok_or (parse_uint U32_MAX size) "invalid digit found in string" in
  ensure! bool_decide (fields !! 3%nat = None) else "invalid terminal history metadata" in
  ensure! total <=? 200000 else "terminal history exceeds configured bound" in
  let available := Z.max 0 (total - before) in
  let count := Z.min available lines in
  if count =? 0 then Ok (mkPage [] total 0 false resolved_pane)
  else
    let! '(bytes, truncated) :=
      capture ["capture-pane"; "-p"; "-t"; resolved_pane; "-S"; show_i128 (- (before + count));
               "-E"; show_i128 (- (before + 1))] MAX_CAPTURE in
    Ok (mkPage bytes total count truncated resolved_pane).

(** [page] *)
Definition live_page (pane : string) (before lines : Z) : res (list Z * Z * Z * bool) :=
  let! p := page_pinned pane before lines in
  Ok (p_bytes p, p_total p, p_lines p, p_truncated p).
End capture.

(** [Snapshot::page] *)
Definition snapshot_page (s : Snapshot) (before lines : Z) : res CapturedPage :=
  let! _ := history_request (s_pane s) before lines in
  let end_ := Z.max 0 (total s - before) in
  let count := Z.min end_ lines in
  let! start := idx (s_offsets s) (end_ - count) in
  let! finish := idx (s_offsets s) end_ in
  let limit := Z.min finish (start + MAX_CAPTURE) in
  let! bytes := slice (s_bytes s) start limit in
  Ok (mkPage bytes (total s) (as_u16 count) (limit <? finish) (s_pane s)).

(** ** The cache *)

Record CaptureReservation := mkReservation { r_cache : string; r_client : Z; r_epoch : Z }.
Record Retained := mkRetained { r_snapshot : Snapshot; r_accessed : Z }.
Record Entry := mkEntry { e_pending : option Z; e_retained : option Retained }.
Record SnapshotCache := mkCache {
  c_identity : string; c_entries : gmap Z Entry; c_epoch : Z; c_used : Z; c_limit : Z; c_idle : Z }.

(** [SnapshotCache::new] *)
Definition cache_new (random : string) (limit idle : Z) : res SnapshotCache :=
  ensure! (0 <? limit) && negb (idle =? 0) else "invalid history snapshot limits" in
  Ok (mkCache random ∅ 0 0 limit idle).

Definition set_entries (f : gmap Z Entry → gmap Z Entry) (c : SnapshotCache) : SnapshotCache :=
  mkCache (c_identity c) (f (c_entries c)) (c_epoch c) (c_used c) (c_limit c) (c_idle c).
Definition set_used (used : Z) (c : SnapshotCache) : SnapshotCache :=
  mkCache (c_identity c) (c_entries c) (c_epoch c) used (c_limit c) (c_idle c).
Definition set_epoch (epoch : Z) (c : SnapshotCache) : SnapshotCache :=
  mkCache (c_identity c) (c_entries c) epoch (c_used c) (c_limit c) (c_idle c).

Definition cache_attach (client : Z) : M SnapshotCache unit :=
  let* c := get in
  ensure* (Z.of_nat (size (c_entries c)) <? MAX_VIEWERS) && bool_decide (c_entries c !! client = None)
    else "invalid snapshot attachment" in
  modify (set_entries <[client := mkEntry None None]>).

Definition cache_detach (client : Z) : M SnapshotCache unit :=
  let* c := get in
  match c_entries c !! client with
  | None => mok tt
  | Some entry =>
      do* modify (set_entries (delete client)) in
      match e_retained entry with
      | None => mok tt
      | Some retained =>
          let* used := lift (usub (c_used c) (storage_bytes (r_snapshot retained))) in
          modify (set_used used)
      end
  end.

(** [now.saturating_duration_since(accessed) >= self.idle] *)
Definition expired (now idle : Z) (r : Retained) : bool := idle <=? Z.max 0 (now - r_accessed r).

Fixpoint reap_entries (now : Z) (entries : list (Z * Entry)) : M SnapshotCache unit :=
  match entries with
  | [] => mok tt
  | (client, entry) :: entries =>
      let* c := get in
      do* match e_retained entry with
          | Some retained =>
              if expired now (c_idle c) retained then
                do* modify (set_entries <[client := mkEntry (e_pending entry) None]>) in
                let* used := lift (usub (c_used c) (storage_bytes (r_snapshot retained))) in
                modify (set_used used)
              else mok tt
          | None => mok tt
          end in
      reap_entries now entries
  end.
(** [SnapshotCache::reap], over the entries in some order. *)
Definition cache_reap (now : Z) : M SnapshotCache unit :=
  let* c := get in
  reap_entries now (map_to_list (c_entries c)).

Definition cache_begin (client : Z) : M SnapshotCache CaptureReservation :=
  let* c := get in
  let* entry := lift (ok_or (c_entries c !! client) "history guest detached") in
  ensure* c_epoch c + 1 <=? U64_MAX else "snapshot generation exhausted" in
  let epoch := c_epoch c + 1 in
  do* modify (set_epoch epoch) in
  do* modify (set_entries <[client := mkEntry (Some epoch) (e_retained entry)]>) in
  mok (mkReservation (c_identity c) client epoch).

Definition retained_bytes (e : Entry) : Z :=
  match e_retained e with Some r => storage_bytes (r_snapshot r) | None => 0 end.

Definition cache_install (r : CaptureReservation) (snapshot : Snapshot) (now : Z)
    : M SnapshotCache unit :=
  let* c := get in
  ensure* bool_decide (r_cache r = c_identity c)
    else "history capture belongs to another attachment generation" in
  do* cache_reap now in
  let* c := get in
  let* entry := lift (ok_or (c_entries c !! r_client r) "history guest detached") in
  ensure* bool_decide (e_pending entry = Some (r_epoch r)) else "history capture superseded" in
  let* next := lift (usub (c_used c) (retained_bytes entry)) in
  ensure* next + storage_bytes snapshot <=? U64_MAX else "snapshot quota exceeded" in
  let next := next + storage_bytes snapshot in
  ensure* next <=? c_limit c
    else "history snapshot storage is busy; try again after another viewer releases history" in
  do* modify (set_entries <[r_client r := mkEntry None (Some (mkRetained snapshot now))]>) in
  modify (set_used next).

Definition cache_get (client : Z) (identity pane : string) (now : Z) : M SnapshotCache Snapshot :=
  ensure* token identity 32 else "invalid history snapshot identity" in
  let* _ := lift (history_request pane 0 1) in
  do* cache_reap now in
  let* c := get in
  match c_entries c !! client with
  | Some (mkEntry pending (Some retained)) =>
      let snapshot := r_snapshot retained in
      ensure* bool_decide (s_id snapshot = identity)
              && (str_is_empty pane || bool_decide (pane = s_pane snapshot))
        else "history snapshot unavailable; refresh history" in
      do* modify (set_entries <[client := mkEntry pending (Some (mkRetained snapshot now))]>) in
      mok snapshot
  | _ => lift (Err "history snapshot expired; refresh history")
  end.

(** ** Lines and pages *)

(** The text cut after every newline. *)
Fixpoint split_lines (bytes : list Z) : list (list Z) :=
  match bytes with
  | [] => []
  | b :: bytes =>
      if b =? 10 then [b] :: split_lines bytes
      else match split_lines bytes with
           | [] => [[b]]
           | l :: ls => (b :: l) :: ls
           end
  end.

(** The page a reader expects: the lines above the last [before] ones, at most [lines] of
    them, cut to the capture limit. *)
Definition expected_page (pane : string) (bytes : list Z) (before lines : Z) : CapturedPage :=
  let ls := split_lines bytes in
  let end_ := Z.max 0 (len ls - before) in
  let count := Z.min end_ lines in
  let text := concat (take (Z.to_nat count) (drop (Z.to_nat (end_ - count)) ls)) in
  mkPage (take (Z.to_nat MAX_CAPTURE) text) (len ls) count (MAX_CAPTURE <? len text) pane.

Fixpoint offsets_of (a : Z) (ls : list (list Z)) : list Z :=
  match ls with [] => [a] | l :: ls => a :: offsets_of (a + len l) ls end.

Lemma split_lines_concat bytes : concat (split_lines bytes) = bytes.
Proof.
  induction bytes as [|b bytes IH]; simpl; [done|]. case_match; simpl; [by rewrite IH|].
  destruct (split_lines bytes) as [|l ls]; simpl in *; by rewrite <- IH.
Qed.
Lemma split_lines_nonempty bytes : bytes ≠ [] → split_lines bytes ≠ [].
Proof. destruct bytes as [|b bytes]; [done|]. simpl. intros _. by repeat case_match. Qed.

Definition offsets_from (i : Z) (bytes : list Z) : list Z :=
  let offsets := i :: newline_offsets i bytes in
  if bool_decide (last offsets = Some (i + len bytes)) then offsets
  else offsets ++ [i + len bytes].
Lemma newline_offsets_above bytes : ∀ i x, x ∈ newline_offsets i bytes → i < x.
Proof.
  induction bytes as [|b bytes IH]; intros i x; simpl; [by intros ?%elem_of_nil|].
  destruct (b =? 10); [intros [->|H]%elem_of_cons; [lia|]|intros H]; apply IH in H; lia.
Qed.
Lemma offsets_from_lines bytes : ∀ i, offsets_from i bytes = offsets_of i (split_lines bytes).
Proof.
  induction bytes as [|b bytes IH]; intros i; unfold offsets_from; cbn [newline_offsets split_lines].
  { simpl. by rewrite bool_decide_true by (f_equal; lia). }
  replace (i + len (b :: bytes)) with (i + 1 + len bytes) by (simpl length; lia).
  destruct (b =? 10).
  - cbn [offsets_of]. rewrite last_cons_cons. change (len [b]) with 1. rewrite <- IH.
    unfold offsets_from. by case_bool_decide.
  - specialize (IH (i + 1)). unfold offsets_from in IH.
    destruct bytes as [|c bytes].
    { simpl. rewrite bool_decide_false; [simpl; do 2 f_equal; lia|]. intros [= ?]. lia. }
    destruct (split_lines (c :: bytes)) as [|l ls] eqn:El.
    { by apply split_lines_nonempty in El. }
    cbn [offsets_of] in IH |- *. replace (i + len (b :: l)) with (i + 1 + len l) by (simpl length; lia).
    assert (∀ j, i ≤ j ≤ i + 1 → bool_decide (last (j :: newline_offsets (i + 1) (c :: bytes)) =
       Some (i + 1 + len (c :: bytes))) = bool_decide (last (newline_offsets (i + 1) (c :: bytes)) =
       Some (i + 1 + len (c :: bytes)))) as E.
    { intros j Hj. destruct (newline_offsets _ _); [|done]. rewrite (bool_decide_false (last [] = _)) by done. apply bool_decide_false.
      intros [= ?]. simpl length in *. lia. }
    rewrite E in IH |- * by lia. case_bool_decide; exact (f_equal (λ l, i :: tail l) IH).
Qed.
Lemma line_offsets_lines bytes : line_offsets bytes = offsets_of 0 (split_lines bytes).
Proof. exact (offsets_from_lines bytes 0). Qed.

Lemma length_offsets_of a ls : length (offsets_of a ls) = S (length ls).
Proof. revert a. induction ls as [|l ls IH]; intros a; simpl; [done|]. by rewrite IH. Qed.
Lemma offsets_of_lookup ls : ∀ a k, (k ≤ length ls)%nat →
  offsets_of a ls !! k = Some (a + len (concat (take k ls))).
Proof.
  induction ls as [|l ls IH]; intros a k Hk; simpl in Hk.
  - assert (k = 0)%nat as -> by lia. simpl. f_equal. lia.
  - destruct k as [|k]; simpl; [f_equal; lia|]. rewrite IH by lia.
    rewrite length_app. f_equal. lia.
Qed.

(** The offsets of a snapshot that was created. *)
Lemma snapshot_new_ok random pane bytes s :
  snapshot_new random pane bytes = Ok s →
  s = mkSnapshot random pane bytes (offsets_of 0 (split_lines bytes)) ∧ pane_ok pane = true ∧
  len bytes ≤ MAX_SNAPSHOT ∧ len (split_lines bytes) ≤ 200000.
Proof.
  unfold snapshot_new, history_request. intros H. rewrite line_offsets_lines, length_offsets_of in H.
  apply rbind_ok in H as (u & Hp & H). apply rbind_ok in Hp as ([] & Hp%ensure_ok & _).
  apply rbind_ok in H as ([] & _ & H). apply rbind_ok in H as ([] & Hl%ensure_ok & H).
  apply rbind_ok in H as ([] & Hn%ensure_ok & [= <-]). split_and!; [done..|lia|lia].
Qed.

Lemma take_add_lines (ls : list (list Z)) k n :
  concat (take (k + n) ls) = concat (take k ls) ++ concat (take n (drop k ls)).
Proof. rewrite <- concat_app. f_equal. rewrite <- (take_take_drop ls k n). done. Qed.

Lemma snapshot_page_expected random pane bytes s before lines :
  snapshot_new random pane bytes = Ok s → 0 ≤ before ≤ 200000 → 1 ≤ lines ≤ 512 →
  snapshot_page s before lines = Ok (expected_page pane bytes before lines).
Proof.
  intros (-> & Hp & Hb & Hn)%snapshot_new_ok Hbe Hl. unfold snapshot_page, expected_page, total.
  cbn [s_offsets s_pane s_bytes]. rewrite length_offsets_of. set (ls := split_lines bytes) in *.
  assert (as_u32 (Z.of_nat (S (length ls)) - 1) = len ls) as ->.
  { unfold as_u32. rewrite Z.mod_small; lia. }
  unfold history_request. rewrite Hp, ensure_true by done. cbn [rbind].
  rewrite ensure_true by lia. cbn [rbind].
  set (e := Z.max 0 (len ls - before)). set (count := Z.min e lines).
  set (k := Z.to_nat (e - count)). set (n := Z.to_nat count).
  unfold idx. replace (0 <=? e - count) with true by lia. replace (0 <=? e) with true by lia.
  rewrite !offsets_of_lookup by lia. cbn [unwrap rbind].
  replace (Z.to_nat e) with (k + n)%nat by lia. fold k. rewrite take_add_lines, length_app.
  rewrite !Z.add_0_l. set (A := concat (take k ls)). set (B := concat (take n (drop k ls))).
  assert (bytes = A ++ B ++ concat (drop n (drop k ls))) as Hbytes.
  { unfold A, B. rewrite <- concat_app, take_drop, <- concat_app, take_drop.
    symmetry. apply split_lines_concat. }
  rewrite Nat2Z.inj_add. set (C := concat (drop n (drop k ls))) in *.
  assert (len bytes = len A + len B + len C) as Hlen by (rewrite Hbytes, !length_app; lia).
  unfold slice, MAX_CAPTURE. replace (_ && _ && _) with true by lia. cbn [rbind].
  rewrite Nat2Z.id. rewrite Hbytes at 1. rewrite drop_app_length. f_equal. f_equal.
  - replace (Z.to_nat (Z.min (len A + len B) (len A + 128 * 1024) - len A))
      with (Nat.min (Z.to_nat (128 * 1024)) (length B)) by lia.
    rewrite <- take_take, take_app_length. done.
  - unfold as_u16. rewrite Z.mod_small; lia.
  - lia.
Qed.

(** Every page of a snapshot is the slice of its text a reader expects: the lines
    above the last [before] ones, at most the number asked for, with the number of lines,
    the total and whether the capture limit cut it.  No request within the limits fails. *)
Theorem page_is_slice random pane bytes s before lines :
  snapshot_new random pane bytes = Ok s → 0 ≤ before ≤ 200000 → 1 ≤ lines ≤ 512 →
  snapshot_page s before lines = Ok (expected_page pane bytes before lines).
Proof. apply snapshot_page_expected. Qed.

(** *** Reading back to the top *)

(** A reader asks for the next older lines until a page has none. *)
Fixpoint scroll (fuel : nat) (s : Snapshot) (before lines : Z) : res (list Z) :=
  match fuel with
  | O => Err "more pages"
  | S fuel =>
      let! p := snapshot_page s before lines in
      if p_lines p =? 0 then Ok []
      else
        let! older := scroll fuel s (before + p_lines p) lines in
        Ok (older ++ p_bytes p)
  end.

Lemma concat_bound (ls : list (list Z)) n m :
  Forall (λ l, len l * n ≤ m) ls → len ls ≤ n → 0 ≤ m → len (concat ls) ≤ m.
Proof.
  intros H Hl Hm. destruct (decide (n ≤ 0)); [destruct ls; simpl in *; lia|].
  assert (len (concat ls) * n ≤ len ls * m) as Hc.
  { clear Hl. induction H as [|l ls Hx _ IH]; cbn [concat]; [simpl; lia|].
    rewrite length_app. simpl length. lia. }
  nia.
Qed.

Lemma scroll_spec random pane bytes s lines :
  snapshot_new random pane bytes = Ok s → 1 ≤ lines ≤ 512 →
  Forall (λ l, len l * lines ≤ MAX_CAPTURE) (split_lines bytes) →
  ∀ fuel before, 0 ≤ before ≤ len (split_lines bytes) →
  len (split_lines bytes) - before + lines ≤ Z.of_nat fuel * lines →
  scroll fuel s before lines
  = Ok (concat (take (length (split_lines bytes) - Z.to_nat before) (split_lines bytes))).
Proof.
  intros Hs Hl Hc fuel. pose proof (snapshot_new_ok _ _ _ _ Hs) as (_ & _ & _ & Hn).
  induction fuel as [|fuel IH]; intros before Hb Hf; [lia|]. cbn [scroll].
  rewrite (snapshot_page_expected random pane bytes) by (done || lia). cbn [rbind].
  set (ls := split_lines bytes) in *. unfold expected_page. fold ls. cbn [p_lines p_bytes].
  replace (Z.max 0 (len ls - before)) with (len ls - before) by lia.
  set (count := Z.min (len ls - before) lines).
  destruct (count =? 0) eqn:E0.
  { replace (length ls - Z.to_nat before)%nat with 0%nat by lia. done. }
  rewrite Nat2Z.inj_succ, Z.mul_succ_l in Hf.
  assert (lines ≤ Z.of_nat fuel * lines) as Hone by (destruct fuel; [lia|nia]).
  rewrite IH by lia. cbn [rbind]. f_equal.
  replace (Z.to_nat (len ls - before - count)) with (length ls - Z.to_nat (before + count))%nat by lia.
  set (k := (length ls - Z.to_nat (before + count))%nat).
  replace (length ls - Z.to_nat before)%nat with (k + Z.to_nat count)%nat by lia.
  rewrite take_add_lines. f_equal. apply take_ge.
  enough (len (concat (take (Z.to_nat count) (drop k ls))) ≤ MAX_CAPTURE) by lia.
  apply (concat_bound _ lines); [by apply Forall_take, Forall_drop| |done].
  rewrite length_take. lia.
Qed.

(** C17. Scrolling back terminates and misses nothing: reading a snapshot from the bottom
    in pages of [lines] lines takes at most one request per page and one for the empty
    page at the top, and the pages are the whole text, each byte once and in order, when
    no page is cut by the capture limit. *)
Theorem scroll_complete random pane bytes s lines :
  snapshot_new random pane bytes = Ok s → 1 ≤ lines ≤ 512 →
  Forall (λ l, len l * lines ≤ MAX_CAPTURE) (split_lines bytes) →
  scroll (Z.to_nat ((len (split_lines bytes) + lines - 1) / lines) + 1) s 0 lines = Ok bytes.
Proof.
  intros Hs Hl Hc. rewrite (scroll_spec random pane bytes); [|done..|lia|].
  - rewrite Nat.sub_0_r, firstn_all. by rewrite split_lines_concat.
  - set (n := len (split_lines bytes)). pose proof (Z.div_mod (n + lines - 1) lines).
    pose proof (Z.mod_pos_bound (n + lines - 1) lines).
    assert (0 ≤ (n + lines - 1) / lines) by (apply Z.div_pos; lia).
    rewrite Nat2Z.inj_add, Z2Nat.id by done. nia.
Qed.

Definition sample_text : list Z := bytes_of "one
two
three".
Definition sample_snapshot : Snapshot :=
  mkSnapshot "00000000000000000000000000000001" "%1" sample_text [0; 4; 8; 13].
Lemma page_is_slice_witness :
  snapshot_new "00000000000000000000000000000001" "%1" sample_text = Ok sample_snapshot ∧
  snapshot_page sample_snapshot 1 1 = Ok (expected_page "%1" sample_text 1 1) ∧
  p_bytes (expected_page "%1" sample_text 1 1) = [116; 119; 111; 10].
Proof.
  assert (snapshot_new "00000000000000000000000000000001" "%1" sample_text = Ok sample_snapshot) as H
    by (vm_compute; reflexivity).
  split; [exact H|]. split; [|vm_compute; reflexivity].
  apply (page_is_slice _ _ _ _ 1 1 H); lia.
Defined.
Lemma scroll_complete_witness :
  scroll (Z.to_nat ((len (split_lines sample_text) + 2 - 1) / 2) + 1) sample_snapshot 0 2
  = Ok sample_text.
Proof.
  apply (scroll_complete "00000000000000000000000000000001" "%1"); [vm_compute; reflexivity|lia|].
  apply (bool_decide_unpack _). vm_compute. exact I.
Defined.

(** ** The cache accounts for what it keeps *)

Definition stored (m : gmap Z Entry) : Z := zsum (λ y, retained_bytes y.2) (map_to_list m).

Record cache_ok (c : SnapshotCache) : Prop := {
  ck_used : c_used c = stored (c_entries c);
  ck_limit : c_used c ≤ c_limit c;
  ck_size : Z.of_nat (size (c_entries c)) ≤ MAX_VIEWERS;
  ck_pending client e p : c_entries c !! client = Some e → e_pending e = Some p → p ≤ c_epoch c;
  ck_epoch : 0 ≤ c_epoch c ≤ U64_MAX;
}.

Lemma storage_nonneg s : 0 ≤ storage_bytes s.
Proof. unfold storage_bytes. lia. Qed.
Lemma retained_nonneg e : 0 ≤ retained_bytes e.
Proof. unfold retained_bytes. case_match; [apply storage_nonneg|done]. Qed.

Lemma stored_delete m client e :
  m !! client = Some e → stored (delete client m) = stored m - retained_bytes e.
Proof.
  intros H. unfold stored. rewrite <- (zsum_perm _ _ _ (map_to_list_delete m client e H)). simpl. lia.
Qed.
Lemma stored_fresh m client e :
  m !! client = None → stored (<[client := e]> m) = stored m + retained_bytes e.
Proof.
  intros H. unfold stored. rewrite (zsum_perm _ _ _ (map_to_list_insert m client e H)). simpl. lia.
Qed.
Lemma stored_replace m client e e' :
  m !! client = Some e → stored (<[client := e']> m) = stored m - retained_bytes e + retained_bytes e'.
Proof.
  intros H. rewrite <- insert_delete_eq, stored_fresh by apply lookup_delete_eq.
  by rewrite (stored_delete _ _ _ H).
Qed.
Lemma stored_nonneg m : 0 ≤ stored m.
Proof.
  unfold stored. induction (map_to_list m) as [|y l IH]; simpl; [done|].
  pose proof (retained_nonneg y.2). lia.
Qed.
Lemma stored_entry m client e : m !! client = Some e → retained_bytes e ≤ stored m.
Proof.
  intros H. pose proof (stored_nonneg (delete client m)). rewrite (stored_delete _ _ _ H) in *. lia.
Qed.

(** An entry changes what it keeps, not more than before or within the limit. *)
Lemma replace_entry_ok c client e e' used :
  cache_ok c → c_entries c !! client = Some e → e_pending e' = e_pending e ∨ e_pending e' = None →
  used = c_used c - retained_bytes e + retained_bytes e' → used ≤ c_limit c →
  cache_ok (set_used used (set_entries <[client := e']> c)).
Proof.
  intros [H1 H2 H3 H4 H5] He Hp Hu Hl. split; simpl.
  - by rewrite (stored_replace _ _ _ _ He), Hu, H1.
  - done.
  - by rewrite map_size_insert_Some.
  - intros i x p [[<- <-]|[Hne Hx]]%lookup_insert_Some Hxp; [|by eauto].
    destruct Hp as [Hp|Hp]; rewrite Hp in Hxp; [by eauto|done].
  - done.
Qed.

Definition reap_entry (now idle : Z) (e : Entry) : Entry :=
  mkEntry (e_pending e)
    (match e_retained e with
     | Some r => if expired now idle r then None else Some r
     | None => None
     end).
(** The cache after reaping: the expired snapshots are gone. *)
Definition reaped (now : Z) (c c' : SnapshotCache) : Prop :=
  c_identity c' = c_identity c ∧ c_epoch c' = c_epoch c ∧ c_limit c' = c_limit c ∧
  c_idle c' = c_idle c ∧ c_entries c' = reap_entry now (c_idle c) <$> c_entries c.

Lemma reap_entries_spec now l : ∀ c, cache_ok c → NoDup l.*1 →
  (∀ client e, (client, e) ∈ l → c_entries c !! client = Some e) →
  ∃ c', reap_entries now l c = (Ok tt, c') ∧ cache_ok c' ∧
    c_identity c' = c_identity c ∧ c_epoch c' = c_epoch c ∧ c_limit c' = c_limit c ∧
    c_idle c' = c_idle c ∧
    ∀ client, c_entries c' !! client =
      if bool_decide (client ∈ l.*1) then reap_entry now (c_idle c) <$> c_entries c !! client
      else c_entries c !! client.
Proof.
  induction l as [|[i e] l IH]; intros c Hc Hl He.
  { exists c. by split_and!. }
  apply NoDup_cons in Hl as [Hi Hl].
  pose proof (He i e ltac:(left)) as Hie.
  assert (∃ c1, (match e_retained e with
     | Some retained =>
         if expired now (c_idle c) retained then
           do* modify (set_entries <[i := mkEntry (e_pending e) None]>) in
           let* used := lift (usub (c_used c) (storage_bytes (r_snapshot retained))) in
           modify (set_used used)
         else mok tt
     | None => mok tt
     end) c = (Ok tt, c1) ∧ cache_ok c1 ∧
    c_identity c1 = c_identity c ∧ c_epoch c1 = c_epoch c ∧ c_limit c1 = c_limit c ∧
    c_idle c1 = c_idle c ∧ c_entries c1 = <[i := reap_entry now (c_idle c) e]> (c_entries c))
    as (c1 & E1 & Hc1 & F1 & F2 & F3 & F4 & F5).
  { unfold reap_entry. destruct e as [pend ret]. simpl in *.
    destruct ret as [r|]; [destruct (expired now (c_idle c) r)|].
    - assert (storage_bytes (r_snapshot r) ≤ c_used c) as Hle.
      { rewrite (ck_used _ Hc). apply (stored_entry _ _ _ Hie). }
      unfold usub. replace (_ <=? _) with true by lia.
      eexists. split; [reflexivity|]. split; [|by split_and!].
      apply (replace_entry_ok c i (mkEntry pend (Some r)) (mkEntry pend None));
        [done..|by left|unfold retained_bytes; simpl; lia|].
      pose proof (storage_nonneg (r_snapshot r)). pose proof (ck_limit _ Hc). lia.
    - exists c. by rewrite (insert_id _ _ _ Hie).
    - exists c. by rewrite (insert_id _ _ _ Hie). }
  destruct (IH c1) as (c' & E' & Hc' & G1 & G2 & G3 & G4 & G5); [done..| |].
  { intros k x Hkx. rewrite F5, lookup_insert_ne; [apply He; by right|].
    intros ->. apply Hi. by apply (list_elem_of_fmap_2 fst _ (k, x)). }
  exists c'. split; [exact (eq_trans (run_bind _ _ _ _ _ E1) E')|].
  split_and!; [done|congruence..|]. intros k. rewrite G5, F4, F5. cbn [fmap list_fmap fst].
  destruct (decide (k = i)) as [->|Hk].
  - rewrite (bool_decide_false (i ∈ l.*1)) by done. rewrite bool_decide_true by (left).
    by rewrite lookup_insert_eq, Hie.
  - rewrite lookup_insert_ne by done. do 2 case_bool_decide; try done; set_solver.
Qed.

Lemma cache_reap_spec now c : cache_ok c →
  ∃ c', cache_reap now c = (Ok tt, c') ∧ cache_ok c' ∧ reaped now c c'.
Proof.
  intros Hc. destruct (reap_entries_spec now (map_to_list (c_entries c)) c Hc) as
    (c' & E & Hc' & F1 & F2 & F3 & F4 & F5).
  - apply NoDup_fst_map_to_list.
  - intros i e. apply elem_of_map_to_list.
  - exists c'. split; [exact E|]. split; [done|]. split_and!; [done..|].
    apply map_eq. intros i. rewrite F5, lookup_fmap. case_bool_decide as Hi; [done|].
    destruct (c_entries c !! i) as [e|] eqn:Ei; [|done]. exfalso. apply Hi.
    apply (list_elem_of_fmap_2 fst _ (i, e)). by apply elem_of_map_to_list.
Qed.

(** ** Runs of the cache *)

Inductive cache_op :=
| Attach (client : Z)
| Detach (client : Z)
| Reap (now : Z)
| Begin (client : Z)
| Install (r : CaptureReservation) (s : Snapshot) (now : Z)
| Get (client : Z) (identity pane : string) (now : Z).
Definition cache_step (op : cache_op) : M SnapshotCache unit :=
  match op with
  | Attach client => cache_attach client
  | Detach client => cache_detach client
  | Reap now => cache_reap now
  | Begin client => do* cache_begin client in mok tt
  | Install r s now => cache_install r s now
  | Get client identity pane now => do* cache_get client identity pane now in mok tt
  end.
Definition cache_run (ops : list cache_op) (c : SnapshotCache) : SnapshotCache :=
  foldl (λ c op, (cache_step op c).2) c ops.

(** What a call may change: the epoch grows, and a capture pending afterwards was pending
    before or began with a new epoch. *)
Record evolves (c c' : SnapshotCache) : Prop := {
  ev_identity : c_identity c' = c_identity c;
  ev_limit : c_limit c' = c_limit c;
  ev_epoch : c_epoch c ≤ c_epoch c';
  ev_pending client e' p : c_entries c' !! client = Some e' → e_pending e' = Some p →
    (∃ e, c_entries c !! client = Some e ∧ e_pending e = Some p) ∨ c_epoch c < p;
}.
#[global] Instance evolves_preorder : PreOrder evolves.
Proof.
  split.
  - intros c. split; try done; eauto.
  - intros a b c [A1 A2 A3 A4] [B1 B2 B3 B4]. split; [congruence..|lia|].
    intros i e p Hi Hp. destruct (B4 i e p Hi Hp) as [(e' & H1 & H2)|]; [|right; lia].
    by eapply A4.
Qed.

Definition good (c : SnapshotCache) {A} (r : res A) (c' : SnapshotCache) : Prop :=
  cache_ok c' ∧ evolves c c' ∧ r ≠ Panic.
Lemma good_here {A} c (r : res A) : cache_ok c → r ≠ Panic → good c r c.
Proof. by split. Qed.

Lemma reaped_evolves now c c' : reaped now c c' → evolves c c'.
Proof.
  intros (R1 & R2 & R3 & R4 & R5). split; [done..|lia|]. intros i e p Hi Hp.
  rewrite R5, lookup_fmap in Hi. destruct (c_entries c !! i) as [x|] eqn:Ex; [|done].
  injection Hi as <-. left. by exists x.
Qed.

Lemma attach_good client c : cache_ok c → wp (cache_attach client) (good c) c.
Proof.
  intros Hc. unfold cache_attach. apply wp_get, wp_lift_ensure; [|intros _; by apply good_here].
  intros [Hs Hn%bool_decide_eq_true_1]%andb_true_iff. destruct Hc as [H1 H2 H3 H4 H5].
  split; [|split; [|done]].
  - split; simpl; [|done| | |done].
    + rewrite stored_fresh by done. unfold retained_bytes. simpl. lia.
    + rewrite map_size_insert_None by done. lia.
    + intros i e p [[<- <-]|[? ?]]%lookup_insert_Some ?; [done|eauto].
  - split; simpl; [done..|lia|]. intros i e p [[<- <-]|[? ?]]%lookup_insert_Some ?; [done|eauto].
Qed.
Lemma detach_good client c : cache_ok c → wp (cache_detach client) (good c) c.
Proof.
  intros Hc. unfold cache_detach. apply wp_get.
  destruct (c_entries c !! client) as [e|] eqn:He; [|by apply good_here].
  pose proof (stored_entry _ _ _ He) as Hle. pose proof (stored_delete _ _ _ He) as Hd.
  destruct Hc as [H1 H2 H3 H4 H5]. apply wp_modify.
  assert (∀ used, used = c_used c - retained_bytes e →
            cache_ok (set_used used (set_entries (delete client) c)) ∧
            evolves c (set_used used (set_entries (delete client) c))) as Hgo.
  { intros used Hu. pose proof (retained_nonneg e). split.
    - split; simpl; [lia|lia| | |done].
      + rewrite map_size_delete, He. lia.
      + intros i x p [? ?]%lookup_delete_Some ?. eauto.
    - split; simpl; [done..|lia|]. intros i x p [? ?]%lookup_delete_Some ?. eauto. }
  unfold retained_bytes in *. destruct (e_retained e) as [r|].
  - rewrite usub_ok by lia. destruct (Hgo (c_used c - storage_bytes (r_snapshot r))); done.
  - destruct (Hgo (c_used c)); [lia|]. unfold good, set_used, set_entries in *. simpl in *. done.
Qed.
Lemma wp_reap {B} now c (k : unit → M SnapshotCache B) Q :
  cache_ok c → (∀ c1, cache_ok c1 → reaped now c c1 → wp (k tt) Q c1) →
  wp (mbindM (cache_reap now) k) Q c.
Proof.
  intros Hc Hk. destruct (cache_reap_spec now c Hc) as (c1 & E & Hc1 & Hr).
  unfold wp. rewrite (run_bind _ _ _ _ _ E). by apply Hk.
Qed.
Lemma begin_good client c : cache_ok c → wp (cache_begin client) (good c) c.
Proof.
  intros Hc. unfold cache_begin. apply wp_get, wp_lift; [|by intros; apply good_here..|by destruct (_ !! _)].
  intros e He%ok_or_ok. apply wp_lift_ensure; [|by intros; apply good_here]. intros Hb.
  destruct Hc as [H1 H2 H3 H4 H5]. split; [|split; [|done]].
  - split; simpl; [| done | | |lia].
    + rewrite (stored_replace _ _ _ _ He). unfold retained_bytes. simpl. lia.
    + by rewrite map_size_insert_Some.
    + intros i x p [[<- <-]|[? ?]]%lookup_insert_Some Hp; [injection Hp; lia|].
      specialize (H4 i x p). naive_solver lia.
  - split; simpl; [done..|lia|]. intros i x p [[<- <-]|[? ?]]%lookup_insert_Some Hp; [|eauto].
    injection Hp as <-. right. lia.
Qed.
Lemma install_good r s now c : cache_ok c → wp (cache_install r s now) (good c) c.
Proof.
  intros Hc. unfold cache_install. apply wp_get, wp_lift_ensure; [|by intros; apply good_here]. intros _.
  apply wp_reap; [done|]. intros c1 Hc1 Hr%reaped_evolves. apply wp_get.
  assert (∀ x : string, good c (A := unit) (Err x) c1) as Herr by (intros x; by split).
  apply wp_lift; [|naive_solver|by destruct (_ !! _)]. intros e He%ok_or_ok.
  apply wp_lift_ensure; [|naive_solver]. intros Hp%bool_decide_eq_true_1.
  pose proof (stored_entry _ _ _ He) as Hle. rewrite <- (ck_used _ Hc1) in Hle.
  rewrite usub_ok by done. change (wp (mbindM (lift (Ok ?a)) ?k) ?Q ?w) with (wp (k a) Q w).
  apply wp_lift_ensure; [|naive_solver]. intros _.
  apply wp_lift_ensure; [|naive_solver]. intros Hl.
  set (used := c_used c1 - retained_bytes e + storage_bytes s) in *.
  set (e' := mkEntry None (Some (mkRetained s now))). split; [|split; [|done]].
  - apply (replace_entry_ok c1 (r_client r) e e' used); [done..|by right|done|lia].
  - etrans; [exact Hr|]. split; simpl; [done..|lia|].
    intros i x p [[<- <-]|[? ?]]%lookup_insert_Some Hxp; [done|eauto].
Qed.
Lemma get_good client identity pane now c : cache_ok c →
  wp (cache_get client identity pane now) (good c) c.
Proof.
  intros Hc. unfold cache_get. apply wp_lift_ensure; [|by intros; apply good_here]. intros _.
  apply wp_lift; [|by intros; apply good_here|].
  2:{ unfold history_request, ensure. by repeat case_match. }
  intros _ _. apply wp_reap; [done|]. intros c1 Hc1 Hr%reaped_evolves. apply wp_get.
  assert (∀ x : string, good c (A := Snapshot) (Err x) c1) as Herr by (intros x; by split).
  destruct (c_entries c1 !! client) as [[pending [ret|]]|] eqn:He; [|by apply Herr..].
  apply wp_lift_ensure; [|naive_solver]. intros _.
  set (e' := mkEntry pending (Some (mkRetained (r_snapshot ret) now))).
  assert (cache_ok (set_entries <[client := e']> c1)) as Hok.
  { pose proof (replace_entry_ok c1 client _ e' (c_used c1) Hc1 He) as H.
    unfold set_used in H. simpl in H. apply H; [by left|unfold retained_bytes; simpl; lia|].
    apply (ck_limit _ Hc1). }
  split; [exact Hok|split; [|done]]. etrans; [exact Hr|]. split; simpl; [done..|lia|].
  intros i x p [[<- <-]|[? ?]]%lookup_insert_Some Hxp; eauto.
Qed.

Lemma step_good op c : cache_ok c → wp (cache_step op) (good c) c.
Proof.
  intros Hc. destruct op as [cl|cl|now|cl|r s now|cl i p now]; simpl.
  - by apply attach_good.
  - by apply detach_good.
  - destruct (cache_reap_spec now c Hc) as (c1 & E & Hc1 & Hr%reaped_evolves).
    unfold wp. rewrite E. by split.
  - apply wp_bind. eapply wp_mono; [|by apply begin_good]. by intros [x|x|] c' (? & ? & ?).
  - by apply install_good.
  - apply wp_bind. eapply wp_mono; [|by apply get_good]. by intros [x|x|] c' (? & ? & ?).
Qed.
Lemma run_good ops : ∀ c, cache_ok c → cache_ok (cache_run ops c) ∧ evolves c (cache_run ops c).
Proof.
  induction ops as [|op ops IH]; intros c Hc; [by split|]. simpl.
  destruct (step_good op c Hc) as (H1 & H2 & _). destruct (IH _ H1) as (H3 & H4).
  split; [done|]. by etrans.
Qed.
Lemma cache_new_ok random limit idle c : cache_new random limit idle = Ok c → cache_ok c.
Proof.
  unfold cache_new. intros H. apply rbind_ok in H as ([] & Hl%ensure_ok & [= <-]).
  split; simpl; try done; unfold U64_MAX; lia.
Qed.

(** The snapshot cache never miscounts: whatever guests attach, leave, capture and
    read, the bytes in use are the sum of the snapshots kept and stay within the limit,
    at most 32 guests are attached, and no call panics (the subtractions never underflow). *)
Theorem cache_accounts random limit idle c ops op :
  cache_new random limit idle = Ok c →
  cache_ok (cache_run ops c) ∧ c_limit (cache_run ops c) = limit ∧
  (cache_step op (cache_run ops c)).1 ≠ Panic.
Proof.
  intros Hn. pose proof (cache_new_ok _ _ _ _ Hn) as Hc. destruct (run_good ops c Hc) as [H1 H2].
  split; [done|]. split.
  - rewrite (ev_limit _ _ H2). unfold cache_new in Hn.
    apply rbind_ok in Hn as ([] & _ & [= <-]). done.
  - apply (step_good op _ H1).
Qed.

(** ** Captures that are too late *)

(** The reservation is the one its guest is waiting for. *)
Definition live (r : CaptureReservation) (c : SnapshotCache) : Prop :=
  r_cache r = c_identity c ∧
  ∃ e, c_entries c !! r_client r = Some e ∧ e_pending e = Some (r_epoch r).

Lemma dead_stays_dead r c c' :
  evolves c c' → r_epoch r ≤ c_epoch c → ¬ live r c → ¬ live r c'.
Proof.
  intros [E1 E2 E3 E4] Hr Hl (Hi & e & He & Hp). destruct (E4 _ _ _ He Hp) as [(x & ? & ?)|]; [|lia].
  apply Hl. split; [congruence|]. eauto.
Qed.
Lemma install_live r s now c u c' :
  cache_ok c → cache_install r s now c = (Ok u, c') →
  live r c ∧ c_entries c' !! r_client r = Some (mkEntry None (Some (mkRetained s now))) ∧
  ∃ c1, reaped now c c1 ∧ ∀ i, i ≠ r_client r → c_entries c' !! i = c_entries c1 !! i.
Proof.
  intros Hc H. unfold cache_install in H. unfold mbindM at 1, get in H.
  destruct (decide (r_cache r = c_identity c)) as [Hi|Hi].
  2:{ rewrite bool_decide_false in H by done. done. }
  rewrite bool_decide_true in H by done. cbn [ensure lift] in H.
  destruct (cache_reap_spec now c Hc) as (c1 & E1 & Hc1 & Hr).
  unfold mbindM at 1, lift at 1 in H. rewrite (run_bind _ _ _ _ _ E1) in H.
  unfold mbindM at 1, get in H. destruct (c_entries c1 !! r_client r) as [e|] eqn:He; [|done].
  cbn [ok_or lift] in H. unfold mbindM at 1, lift at 1 in H.
  destruct (decide (e_pending e = Some (r_epoch r))) as [Hp|Hp].
  2:{ rewrite bool_decide_false in H by done. done. }
  rewrite bool_decide_true in H by done. cbn [ensure] in H. unfold mbindM at 1, lift at 1 in H.
  destruct (usub _ _) as [next|?|]; [|done..]. unfold mbindM at 1, lift at 1 in H.
  destruct (_ <=? U64_MAX); [|done]. cbn [ensure] in H. unfold mbindM at 1, lift at 1 in H.
  destruct (_ <=? c_limit c1); [|done]. cbn [ensure] in H.
  unfold mbindM, lift, modify in H. injection H as _ <-. split_and!.
  - split; [done|]. destruct Hr as (_ & _ & _ & _ & R5). rewrite R5, lookup_fmap in He.
    destruct (c_entries c !! r_client r) as [x|] eqn:Ex; [|done]. injection He as <-. by exists x.
  - simpl. by rewrite lookup_insert_eq.
  - exists c1. split; [done|]. intros i Hne. simpl. by rewrite lookup_insert_ne.
Qed.

(** A call after which the reservation is no longer awaited: its guest leaves, begins
    another capture, or has this one installed. *)
Definition supersedes (op : cache_op) (r : CaptureReservation) (c : SnapshotCache) : Prop :=
  match op with
  | Detach client => client = r_client r
  | Begin client => client = r_client r ∧ is_ok (cache_begin client c).1 = true
  | Install r' s now => r' = r ∧ (cache_install r s now c).1 = Ok tt
  | _ => False
  end.

Lemma begin_ok client c r c' :
  cache_begin client c = (Ok r, c') →
  r = mkReservation (c_identity c) client (c_epoch c + 1) ∧ c_epoch c' = c_epoch c + 1 ∧
  ∃ e, c_entries c !! client = Some e ∧
    c_entries c' = <[client := mkEntry (Some (c_epoch c + 1)) (e_retained e)]> (c_entries c).
Proof.
  unfold cache_begin. unfold mbindM at 1, get. destruct (c_entries c !! client) as [e|] eqn:He; [|done].
  cbn [ok_or]. unfold mbindM at 1, lift at 1. destruct (_ <=? U64_MAX); [|done]. cbn [ensure].
  unfold mbindM, lift, modify, mok. intros [= <- <-]. split_and!; [done..|]. by exists e.
Qed.
Lemma detach_entries client c : cache_ok c →
  c_entries (cache_detach client c).2 = delete client (c_entries c).
Proof.
  intros Hc. unfold cache_detach. unfold mbindM at 1, get.
  destruct (c_entries c !! client) as [e|] eqn:He.
  2:{ simpl. by rewrite delete_id. }
  pose proof (stored_entry _ _ _ He) as Hle. rewrite <- (ck_used _ Hc) in Hle.
  unfold mbindM at 1, modify. unfold retained_bytes in Hle. destruct (e_retained e); [|done].
  by rewrite usub_ok.
Qed.

Lemma superseded_dead op r c : cache_ok c → r_epoch r ≤ c_epoch c → supersedes op r c →
  ¬ live r (cache_step op c).2.
Proof.
  intros Hc Hr Hs (_ & e & He & Hp). destruct op as [cl|cl|now|cl|r' s now|cl i p now]; try done; simpl in *.
  - subst cl. rewrite detach_entries, lookup_delete_eq in He by done. done.
  - destruct Hs as [-> Hb]. destruct (cache_begin (r_client r) c) as [[r'|x|] c'] eqn:E; try done.
    rewrite (run_bind _ _ _ _ _ E) in He. destruct (begin_ok _ _ _ _ E) as (_ & _ & x & _ & Ee).
    simpl in He. rewrite Ee, lookup_insert_eq in He. injection He as <-. injection Hp. lia.
  - destruct Hs as [-> Hi]. apply run_eq in Hi. apply install_live in Hi as (_ & Hx & _); [|done].
    rewrite Hx in He. by injection He as <-.
Qed.

(** A slow capture cannot resurrect a guest or replace a newer one: once the guest of
    a reservation left, began another capture or had this one installed, installing with
    that reservation fails, whatever happens before and in between. *)
Theorem superseded_capture_fenced random limit idle c0 ops0 client r c1 ops1 op ops2 s now :
  cache_new random limit idle = Ok c0 →
  cache_begin client (cache_run ops0 c0) = (Ok r, c1) →
  supersedes op r (cache_run ops1 c1) →
  ∃ e, (cache_install r s now (cache_run (op :: ops2) (cache_run ops1 c1))).1 = Err e.
Proof.
  intros Hn%cache_new_ok Hb Hs. destruct (run_good ops0 c0 Hn) as [Hc _].
  pose proof (begin_good client _ Hc) as Hg. unfold wp in Hg. rewrite Hb in Hg.
  destruct Hg as (Hc1 & _ & _). destruct (begin_ok _ _ _ _ Hb) as (-> & He & _).
  destruct (run_good ops1 c1 Hc1) as [Hc2 Hev]. set (c2 := cache_run ops1 c1) in *.
  set (r := mkReservation _ _ _) in *.
  assert (r_epoch r ≤ c_epoch c2) as Hr by (rewrite <- (ev_epoch _ _ Hev), He; done).
  pose proof (superseded_dead op r c2 Hc2 Hr Hs) as Hd.
  destruct (step_good op c2 Hc2) as (Hc3 & Hev3 & _).
  change (cache_run (op :: ops2) c2) with (cache_run ops2 (cache_step op c2).2).
  destruct (run_good ops2 _ Hc3) as [Hc4 Hev4].
  assert (¬ live r (cache_run ops2 (cache_step op c2).2)) as Hd4.
  { apply (dead_stays_dead r _ _ Hev4); [|done]. pose proof (ev_epoch _ _ Hev3). lia. }
  destruct (install_good r s now _ Hc4) as (_ & _ & Hp).
  destruct (cache_install _ _ _ _) as [[u|e|] c'] eqn:E; [|by exists e|done].
  by apply install_live in E as [? _].
Qed.

(** ** Whose snapshot a guest reads *)

(** The guest itself had the snapshot installed and did not leave since. *)
Definition installed_by (client : Z) (s : Snapshot) (c0 : SnapshotCache) (ops : list cache_op) : Prop :=
  ∃ pre r now post, ops = pre ++ Install r s now :: post ∧ r_client r = client ∧
    (cache_install r s now (cache_run pre c0)).1 = Ok tt ∧ Forall (λ op, op ≠ Detach client) post.

Lemma installed_by_snoc client s c0 ops op :
  installed_by client s c0 ops → op ≠ Detach client → installed_by client s c0 (ops ++ [op]).
Proof.
  intros (pre & r & now & post & -> & Hr & Hi & Hp) Ho. exists pre, r, now, (post ++ [op]).
  split_and!; [by rewrite <- (assoc_L (++))|done..|]. apply Forall_app. by split; [|constructor].
Qed.

(** Every snapshot the guest has in [c'] it had in [c]. *)
Definition kept_from (client : Z) (c c' : SnapshotCache) : Prop :=
  ∀ e ret, c_entries c' !! client = Some e → e_retained e = Some ret →
  ∃ e0 ret0, c_entries c !! client = Some e0 ∧ e_retained e0 = Some ret0 ∧
    r_snapshot ret0 = r_snapshot ret.
#[global] Instance kept_from_preorder client : PreOrder (kept_from client).
Proof.
  split; [intros c e ret; eauto|]. intros a b c Hab Hbc e ret He Hret.
  destruct (Hbc e ret He Hret) as (e1 & r1 & H1 & H2 & <-). by eapply Hab.
Qed.
Lemma reaped_kept client now c c1 : reaped now c c1 → kept_from client c c1.
Proof.
  intros (_ & _ & _ & _ & R5) x y Hx Hy. rewrite R5, lookup_fmap in Hx.
  destruct (c_entries c !! client) as [e0|]; [|done]. injection Hx as <-. exists e0.
  unfold reap_entry in Hy. simpl in Hy. destruct (e_retained e0) as [r0|]; [|done].
  destruct (expired _ _ _); [done|]. injection Hy as <-. eauto.
Qed.
Lemma insert_kept client c cl e e' c' :
  c_entries c !! cl = Some e → c_entries c' = <[cl := e']> (c_entries c) →
  (∀ ret, e_retained e' = Some ret → ∃ ret0, e_retained e = Some ret0 ∧ r_snapshot ret0 = r_snapshot ret) →
  kept_from client c c'.
Proof.
  intros He Ec Hr x ret Hx Hret. rewrite Ec in Hx.
  apply lookup_insert_Some in Hx as [[<- <-]|[_ Hx]]; [|eauto].
  destruct (Hr ret Hret) as (r0 & ? & ?). eauto.
Qed.

(** A snapshot kept after a call was kept before it, or the call installed it. *)
Definition origin (op : cache_op) (client : Z) (c : SnapshotCache) (u : res unit)
    (c' : SnapshotCache) : Prop :=
  (op ≠ Detach client ∧ kept_from client c c') ∨ c_entries c' !! client = None ∨
  ∃ r s now, op = Install r s now ∧ r_client r = client ∧ u = Ok tt ∧
    c_entries c' !! client = Some (mkEntry None (Some (mkRetained s now))).
Lemma origin_here op client c u : op ≠ Detach client → origin op client c u c.
Proof. left. by split. Qed.

Lemma step_origin op client c : cache_ok c → wp (cache_step op) (origin op client c) c.
Proof.
  intros Hc. destruct op as [cl|cl|now|cl|r s now|cl i p now]; simpl.
  - unfold cache_attach. apply wp_get, wp_lift_ensure; [|by intros; apply origin_here].
    intros _. left. split; [done|]. intros e ret. simpl.
    intros [[<- <-]|[? ?]]%lookup_insert_Some ?; [done|eauto].
  - unfold wp. destruct (decide (cl = client)) as [->|Hne].
    + right. left. by rewrite detach_entries, lookup_delete_eq.
    + left. split; [congruence|]. intros e ret. rewrite detach_entries by done.
      intros [? ?]%lookup_delete_Some ?. eauto.
  - destruct (cache_reap_spec now c Hc) as (c1 & E & _ & Hr). unfold wp. rewrite E. left.
    split; [done|]. by eapply reaped_kept.
  - unfold cache_begin. apply wp_bind, wp_get, wp_lift; [|by intros; apply origin_here..].
    intros e He%ok_or_ok. apply wp_lift_ensure; [|by intros; apply origin_here]. intros _.
    left. split; [done|]. eapply insert_kept; [exact He|done|]. simpl. eauto.
  - unfold cache_install. apply wp_get, wp_lift_ensure; [|by intros; apply origin_here]. intros _.
    apply wp_reap; [done|]. intros c1 Hc1 Hr%(reaped_kept client). apply wp_get.
    assert (∀ u, origin (Install r s now) client c u c1) as Ho by (intros u; by left).
    apply wp_lift; [|naive_solver..]. intros e _. apply wp_lift_ensure; [intros _|naive_solver].
    apply wp_lift; [|naive_solver..]. intros next _. apply wp_lift_ensure; [intros _|naive_solver].
    apply wp_lift_ensure; [intros _|naive_solver]. apply wp_modify. cbn.
    destruct (decide (r_client r = client)) as [<-|Hne].
    + right. right. exists r, s, now. split_and!; [done..|]. simpl. by rewrite lookup_insert_eq.
    + left. split; [done|]. etrans; [exact Hr|]. intros e' ret. simpl. rewrite lookup_insert_ne by done. eauto.
  - unfold cache_get. apply wp_bind, wp_lift_ensure; [intros _|by intros; apply origin_here].
    apply wp_lift; [intros _ _|by intros; apply origin_here..].
    apply wp_reap; [done|]. intros c1 Hc1 Hr%(reaped_kept client). apply wp_get.
    assert (∀ u, origin (Get cl i p now) client c u c1) as Ho by (intros u; by left).
    destruct (c_entries c1 !! cl) as [[pending [ret|]]|] eqn:He; [|by apply Ho..].
    apply wp_lift_ensure; [intros _|intros; by apply Ho]. left. split; [done|].
    etrans; [exact Hr|]. eapply insert_kept; [exact He|done|]. simpl. intros ? [= <-]. eauto.
Qed.

Lemma run_origin c0 client ops : cache_ok c0 → c_entries c0 = ∅ → ∀ e ret,
  c_entries (cache_run ops c0) !! client = Some e → e_retained e = Some ret →
  installed_by client (r_snapshot ret) c0 ops.
Proof.
  intros Hc H0. induction ops as [|op ops IH] using rev_ind; intros e ret He Hret.
  { simpl in He. by rewrite H0, lookup_empty in He. }
  unfold cache_run in He. rewrite foldl_app in He. cbn [foldl] in He.
  fold (cache_run ops c0) in He. destruct (run_good ops c0 Hc) as [Hc1 _].
  destruct (step_origin op client _ Hc1) as [(Ho & Hk)|[Hn|(r & s & now & -> & Hr & Hu & Hs)]].
  - destruct (Hk e ret He Hret) as (e0 & r0 & H1 & H2 & <-).
    apply installed_by_snoc; [|done]. by eapply IH.
  - congruence.
  - rewrite Hs in He. injection He as <-. injection Hret as <-. exists ops, r, now, [].
    split_and!; [done..|constructor].
Qed.

(** A guest reads only its own snapshots: what [get] returns was installed for that
    guest's own reservation during its current attachment, and has the identity and, when
    one is named, the pane that were asked for. *)
Theorem get_returns_own random limit idle c0 ops client identity pane now s c' :
  cache_new random limit idle = Ok c0 →
  cache_get client identity pane now (cache_run ops c0) = (Ok s, c') →
  installed_by client s c0 ops ∧ s_id s = identity ∧ (pane = "" ∨ pane = s_pane s).
Proof.
  intros Hn Hg. pose proof (cache_new_ok _ _ _ _ Hn) as Hc.
  assert (c_entries c0 = ∅) as H0.
  { unfold cache_new in Hn. by apply rbind_ok in Hn as ([] & _ & [= <-]). }
  destruct (run_good ops c0 Hc) as [Hc1 _]. set (c := cache_run ops c0) in *.
  assert (wp (cache_get client identity pane now) (λ r _, ∀ s, r = Ok s →
    (∃ e ret, c_entries c !! client = Some e ∧ e_retained e = Some ret ∧ r_snapshot ret = s) ∧
    s_id s = identity ∧ (pane = "" ∨ pane = s_pane s)) c) as H.
  { unfold cache_get. apply wp_lift_ensure; [intros _|done]. apply wp_lift; [intros _ _|done..].
    apply wp_reap; [done|]. intros c1 Hc2 Hr%(reaped_kept client). apply wp_get.
    destruct (c_entries c1 !! client) as [[pending [ret|]]|] eqn:He; [|done..].
    apply wp_lift_ensure; [|done]. intros [Hi Hp]%andb_true_iff. intros x [= <-].
    split; [by eapply Hr|]. split; [by apply bool_decide_eq_true_1 in Hi|].
    apply orb_true_iff in Hp as [Hp|Hp%bool_decide_eq_true_1]; [left|by right].
    by destruct pane. }
  unfold wp in H. rewrite Hg in H. destruct (H s eq_refl) as ((e & ret & He & Hr & <-) & Hrest).
  split; [|done]. by eapply run_origin.
Qed.

(** ** Examples *)

Definition sample_cache : SnapshotCache := mkCache "cache" ∅ 0 0 1024 (from_secs 60).
Definition sample_reservation : CaptureReservation := mkReservation "cache" 1 1.
Lemma sample_cache_new : cache_new "cache" 1024 (from_secs 60) = Ok sample_cache.
Proof. reflexivity. Qed.

Lemma cache_accounts_witness :
  cache_ok (cache_run [Attach 1; Begin 1; Install sample_reservation sample_snapshot 5] sample_cache)
  ∧ (cache_step (Detach 1)
      (cache_run [Attach 1; Begin 1; Install sample_reservation sample_snapshot 5] sample_cache)).1 ≠ Panic.
Proof.
  destruct (cache_accounts _ _ _ _ [Attach 1; Begin 1; Install sample_reservation sample_snapshot 5]
    (Detach 1) sample_cache_new) as (H1 & _ & H2).
  split; [exact H1|exact H2].
Defined.
Lemma superseded_capture_fenced_witness :
  ∃ e, (cache_install sample_reservation sample_snapshot 9
    (cache_run [Detach 1; Attach 1] (cache_run [] (cache_begin 1 (cache_run [Attach 1] sample_cache)).2))).1
    = Err e.
Proof.
  apply (superseded_capture_fenced _ _ _ _ [Attach 1] 1 sample_reservation _ [] (Detach 1) [Attach 1]
    sample_snapshot 9 sample_cache_new); [|reflexivity].
  apply run_eq. vm_compute. reflexivity.
Defined.
Lemma get_returns_own_witness :
  installed_by 1 sample_snapshot sample_cache
    [Attach 1; Begin 1; Install sample_reservation sample_snapshot 5].
Proof.
  refine (proj1 (get_returns_own _ _ _ _ [Attach 1; Begin 1; Install sample_reservation sample_snapshot 5]
    1 (s_id sample_snapshot) "" 6 sample_snapshot _ sample_cache_new _)).
  apply run_eq. vm_compute. reflexivity.
Defined.
