(* ===== verification/Pager.v ===== *)
(** * The viewer's scrollback pager ([porthub-terminal/src/viewer_history.rs])

    A read-only viewer's navigation state: keys move through the history, [request] asks
    the gateway for a page, [page] collects the chunks of the answer and draws the screen.
    Grapheme segmentation and display width are the class [TextLibs]; the clock is an
    argument. *)

From S2P Require Import Prelude Net RustStr Text Delivery TermProtocol Hub Json History.
Local Open Scope string_scope.
Local Open Scope list_scope.
Local Open Scope Z_scope.

(** [graphemes(true)] with the display width of each cluster. *)
Class TextLibs := { graphemes : string → list (string * Z) }.
(** Clusters are whole characters, and together they are the text. *)
Class TextLibsOk (T : TextLibs) : Prop := {
  graphemes_concat s : (chars_from s).1 = "" → String.concat "" (map fst (graphemes s)) = s;
  graphemes_whole s g : (chars_from s).1 = "" → g ∈ map fst (graphemes s) → (chars_from g).1 = "";
}.

Record Pager := mkPager {
  active : bool; cols : Z; rows : Z; before : Z; total : Z; shown : option Z; serial : Z;
  pending : option (Z * list Z * Z); last_request : option Z; keys : list Z; pane : string;
  snapshots : bool; snapshot : option string; response_snapshot : option string }.

Definition set_active v p := mkPager v (cols p) (rows p) (before p) (total p) (shown p) (serial p)
  (pending p) (last_request p) (keys p) (pane p) (snapshots p) (snapshot p) (response_snapshot p).
Definition set_before v p := mkPager (active p) (cols p) (rows p) v (total p) (shown p) (serial p)
  (pending p) (last_request p) (keys p) (pane p) (snapshots p) (snapshot p) (response_snapshot p).
Definition set_total v p := mkPager (active p) (cols p) (rows p) (before p) v (shown p) (serial p)
  (pending p) (last_request p) (keys p) (pane p) (snapshots p) (snapshot p) (response_snapshot p).
Definition set_shown v p := mkPager (active p) (cols p) (rows p) (before p) (total p) v (serial p)
  (pending p) (last_request p) (keys p) (pane p) (snapshots p) (snapshot p) (response_snapshot p).
Definition set_serial v p := mkPager (active p) (cols p) (rows p) (before p) (total p) (shown p) v
  (pending p) (last_request p) (keys p) (pane p) (snapshots p) (snapshot p) (response_snapshot p).
Definition set_pending v p := mkPager (active p) (cols p) (rows p) (before p) (total p) (shown p)
  (serial p) v (last_request p) (keys p) (pane p) (snapshots p) (snapshot p) (response_snapshot p).
Definition set_last_request v p := mkPager (active p) (cols p) (rows p) (before p) (total p) (shown p)
  (serial p) (pending p) v (keys p) (pane p) (snapshots p) (snapshot p) (response_snapshot p).
Definition set_keys v p := mkPager (active p) (cols p) (rows p) (before p) (total p) (shown p)
  (serial p) (pending p) (last_request p) v (pane p) (snapshots p) (snapshot p) (response_snapshot p).
Definition set_pane v p := mkPager (active p) (cols p) (rows p) (before p) (total p) (shown p)
  (serial p) (pending p) (last_request p) (keys p) v (snapshots p) (snapshot p) (response_snapshot p).
Definition set_snapshot v p := mkPager (active p) (cols p) (rows p) (before p) (total p) (shown p)
  (serial p) (pending p) (last_request p) (keys p) (pane p) (snapshots p) v (response_snapshot p).
Definition set_response_snapshot v p := mkPager (active p) (cols p) (rows p) (before p) (total p)
  (shown p) (serial p) (pending p) (last_request p) (keys p) (pane p) (snapshots p) (snapshot p) v.

Definition new (cols rows : Z) : Pager :=
  mkPager false cols rows 0 0 None 0 None None [] "" false None None.
Definition capabilities (snapshots : bool) (p : Pager) : Pager :=
  mkPager (active p) (cols p) (rows p) (before p) (total p) (shown p) (serial p) (pending p)
    (last_request p) (keys p) (pane p) snapshots None (response_snapshot p).
Definition resize (cols rows : Z) (p : Pager) : Pager :=
  mkPager (active p) cols rows (before p) (total p) (if active p then None else shown p) (serial p)
    (pending p) (last_request p) (keys p) (pane p) (snapshots p) (snapshot p) (response_snapshot p).

(** [self.rows.saturating_sub(3).clamp(1, 197)] *)
Definition page_lines (p : Pager) : Z := Z.min (Z.max (Z.max 0 (rows p - 3)) 1) 197.

(** [saturating_add(step).min(200000)] and [saturating_sub(step)] on [u32]. *)
Definition back (step : Z) (p : Pager) : Pager :=
  set_before (Z.min (Z.min (before p + step) U32_MAX) 200000) p.
Definition forward (step : Z) (p : Pager) : Pager := set_before (Z.max 0 (before p - step)) p.

(** ** Keys *)

(** ["\x1b["] followed by the text. *)
Definition escape (s : string) : list Z := 27 :: 91 :: bytes_of s.
Definition F7 : list Z := escape "18~".
Definition home (key : list Z) : bool := bool_decide (key ∈ [escape "H"; escape "1~"]).
Definition end_key (key : list Z) : bool := bool_decide (key ∈ [escape "F"; escape "4~"]).
Definition older (key : list Z) : bool := bool_decide (key ∈ [escape "5~"; escape "A"]).
Definition newer (key : list Z) : bool := bool_decide (key ∈ [escape "6~"; escape "B"]).
Definition known : list (list Z) :=
  [F7; escape "5~"; escape "6~"; escape "A"; escape "B"; escape "H"; escape "1~"; escape "F"; escape "4~"].

(** The mouse button of ["\x1b[<button;column;rowM"]. *)
Definition mouse_button (keys : list Z) : option Z :=
  text ← from_utf8 (take (length keys - 4) (drop 3 keys));
  value ← head (split ";" text);
  parse_uint (2 ^ 16 - 1) value.

(** One key byte: the pager after it and whether the live screen is to be drawn again. *)
Definition feed_byte (byte : Z) (p : Pager) : Pager * bool :=
  if bool_decide (keys p = []) then
    if byte =? 27 then (set_keys (keys p ++ [byte]) p, false)
    else if active p && (byte =? 114) then
      (set_pending None (set_shown None (set_before 0
         (set_response_snapshot None (set_snapshot None p)))), false)
    else if active p && (byte =? 113) then (set_pending None (set_active false p), true)
    else (p, false)
  else
    let p := set_keys (keys p ++ [byte]) p in
    let key := keys p in
    if bool_decide (key = F7) then
      let p := set_active (negb (active p)) p in
      let p := if active p then set_snapshot None (set_pane "" p) else p in
      let p := set_pending None (set_shown None (set_before 0 p)) in
      (set_keys [] p, negb (active p))
    else if home key || end_key key then
      let p :=
        if active p then
          set_before
            (if home key then
               if total p =? 0 then 200000 else Z.max 0 (total p - page_lines p)
             else 0) p
        else p in
      (set_keys [] p, false)
    else if older key then
      let p := if active p then back (if bool_decide (key = escape "A") then 1 else page_lines p) p
               else p in
      (set_keys [] p, false)
    else if newer key then
      let p := if active p then forward (if bool_decide (key = escape "B") then 1 else page_lines p) p
               else p in
      (set_keys [] p, false)
    else if starts_with (escape "<") key && ((byte =? 77) || (byte =? 109)) then
      let p :=
        if active p then
          match mouse_button key with
          | Some button => if button =? 64 then back 3 p else if button =? 65 then forward 3 p else p
          | None => p
          end
        else p in
      (set_keys [] p, false)
    else if (64 <=? len key)
            || negb (existsb (starts_with key) known) && negb (starts_with (escape "<") key)
    then (set_keys [] p, false)
    else (p, false).

Fixpoint feed (bytes : list Z) (p : Pager) : Pager * bool :=
  match bytes with
  | [] => (p, false)
  | byte :: bytes =>
      let '(p, redraw) := feed_byte byte p in
      let '(p, redraw') := feed bytes p in
      (p, redraw || redraw')
  end.

(** ** Requests *)

(** A request that was not answered in three seconds is given up. *)
Definition expire (now : Z) (p : Pager) : Pager :=
  match pending p with
  | Some (_, _, at_) => if from_secs 3 <? elapsed now at_ then set_pending None p else p
  | None => p
  end.
Definition request (now : Z) (p : Pager) : Pager * option ViewerInput :=
  if negb (active p) then (p, None)
  else
    let p := expire now p in
    if bool_decide (is_Some (pending p)) || bool_decide (shown p = Some (before p))
       || match last_request p with
          | Some at_ => elapsed now at_ <? from_millis 500
          | None => false
          end
    then (p, None)
    else
      let p := set_serial (as_u32 (serial p + 1)) p in
      let p := set_pending (Some (serial p, [], now)) p in
      let p := set_response_snapshot (snapshot p) p in
      let p := set_last_request (Some now) p in
      (p, Some (ViHistory (snapshots p) (snapshot p) (serial p) (pane p) (before p) (page_lines p))).

(** ** Drawing *)

Definition esc : string := str_of_bytes [27].
Definition crlf : string := str_of_bytes [13; 10].
(** U+00B7, the separator of the status lines. *)
Definition dot : string := " " +:+ str_of_bytes [194; 183] +:+ " ".

Section draw.
Context `{L : TermLibs} `{T : TextLibs}.

Fixpoint clip_clusters (width limit : Z) (gs : list (string * Z)) : string :=
  match gs with
  | [] => ""
  | (g, size) :: gs =>
      if limit <? width + size then "" else g +:+ clip_clusters (width + size) limit gs
  end.
(** [text.chars().filter(|ch| !ch.is_control())] *)
Definition without_controls (text : string) : string :=
  String.concat "" (List.filter (λ c, negb (is_control (code_point c))) (str_chars text)).
Definition clip (text : string) (cols : Z) : string :=
  clip_clusters 0 (Z.max 0 (cols - 1)) (graphemes (without_controls text)).

(** The body of the screen. *)
Definition body (p : Pager) (bytes : list Z) : string :=
  if bool_decide (bytes = []) then clip "No retained scrollback yet." (cols p)
  else
    String.concat ""
      (map (λ line, clip line (cols p) +:+ (esc +:+ "[K" +:+ crlf))
         (take (Z.to_nat (page_lines p)) (str_lines (from_utf8_lossy bytes)))).
Definition screen (p : Pager) (page : HistoryChunk) (bytes : list Z) : string :=
  esc +:+ "[?25l" +:+ esc +:+ "[2J" +:+ esc +:+ "[H"
  +:+ clip ("Scrollback" +:+ dot +:+ show_u128 (hc_before page) +:+ " lines back / "
            +:+ show_u128 (hc_total page) +:+ " retained") (cols p)
  +:+ crlf +:+ body p bytes
  +:+ esc +:+ "[" +:+ show_u128 (rows p) +:+ ";1H" +:+ esc +:+ "[7m"
  +:+ clip ("F7 or q live" +:+ dot +:+ "Wheel/PgUp/PgDn" +:+ dot +:+ "Home/End" +:+ dot
            +:+ "r refresh" +:+ dot +:+ "selection") (cols p)
  +:+ esc +:+ "[0m".
Definition status (p : Pager) (error : string) : string :=
  esc +:+ "[" +:+ show_u128 (rows p) +:+ ";1H" +:+ esc +:+ "[2K"
  +:+ clip (error +:+ dot +:+ "r refresh" +:+ dot +:+ "F7 live") (cols p).

(** The anchor check of an answer without an error. *)
Definition check_snapshot (page : HistoryChunk) : M Pager unit :=
  let* p := get in
  match hc_error page with
  | Some _ => mok tt
  | None =>
      if snapshots p then
        ensure* bool_decide (is_Some (hc_snapshot page)) else "history snapshot missing" in
        ensure* match response_snapshot p with
                | Some id => bool_decide (Some id = hc_snapshot page)
                | None => true
                end else "history snapshot changed" in
        modify (set_response_snapshot (hc_snapshot page))
      else
        ensure* bool_decide (hc_snapshot page = None) else "unexpected history snapshot" in
        mok tt
  end.

Definition page (chunk : HistoryChunk) : M Pager (option string) :=
  do* lift (validate_chunk chunk) in
  let* p := get in
  if negb (active p) then mok None
  else
    match pending p with
    | None => mok None
    | Some (request, bytes, at_) =>
        if negb (request =? hc_request chunk) then mok None
        else
          do* check_snapshot chunk in
          let* data := lift (decode_data (hc_data chunk)) in
          ensure* len bytes + len data <=? 131072 else "history response exceeds limit" in
          let bytes := bytes ++ data in
          do* modify (set_pending (Some (request, bytes, at_))) in
          if negb (hc_done chunk) then mok None
          else
            do* modify (set_pending None) in
            match hc_error chunk with
            | Some error =>
                do* modify (λ p, set_shown (Some (before p)) p) in
                let* p := get in
                mok (Some (status p error))
            | None =>
                do* modify (λ p, set_response_snapshot None (set_snapshot (response_snapshot p) p)) in
                do* match hc_pane chunk with
                    | Some pane => modify (set_pane pane)
                    | None => mok tt
                    end in
                do* modify (set_total (hc_total chunk)) in
                do* modify (set_shown (Some (hc_before chunk))) in
                do* if (hc_total chunk <=? hc_before chunk) && (0 <? hc_total chunk)
                    then modify (λ p, set_shown None
                           (set_before (Z.max 0 (hc_total chunk - page_lines p)) p))
                    else mok tt in
                let* p := get in
                mok (Some (screen p chunk bytes))
            end
    end.
End draw.

(** ** Runs *)

Section laws.
Context `{L : TermLibs} `{T : TextLibs}.

Inductive pager_op :=
| Feed (bytes : list Z)
| Resize (cols rows : Z)
| Request (now : Z)
| Page (chunk : HistoryChunk).
Definition pager_step (p : Pager) (op : pager_op) : Pager :=
  match op with
  | Feed bytes => (feed bytes p).1
  | Resize cols rows => resize cols rows p
  | Request now => (request now p).1
  | Page chunk => (page chunk p).2
  end.
Definition pager_run (ops : list pager_op) (p : Pager) : Pager := foldl pager_step p ops.

Record pager_ok (p : Pager) : Prop := {
  po_before : 0 ≤ before p ≤ 200000;
  po_total : total p ≤ 200000;
  po_pane : pane_ok (pane p) = true;
  po_snapshot id : snapshot p = Some id → snapshots p = true ∧ token id 32 = true;
  po_response id : response_snapshot p = Some id → snapshots p = true ∧ token id 32 = true;
  po_pending r b a : pending p = Some (r, b, a) → len b ≤ 131072;
}.

Lemma page_lines_range p : 1 ≤ page_lines p ≤ 197.
Proof. unfold page_lines. lia. Qed.

Ltac pager_fields :=
  match goal with |- pager_ok _ => split; cbn; try done; try lia; eauto end.

Lemma back_ok step p : 0 ≤ step → pager_ok p → pager_ok (back step p).
Proof. intros Hs [H1 H2 H3 H4 H5 H6]. unfold back, U32_MAX. pager_fields. Qed.
Lemma forward_ok step p : 0 ≤ step → pager_ok p → pager_ok (forward step p).
Proof. intros Hs [H1 H2 H3 H4 H5 H6]. unfold forward. pager_fields. Qed.
Lemma keys_ok keys p : pager_ok p → pager_ok (set_keys keys p).
Proof. intros [H1 H2 H3 H4 H5 H6]. pager_fields. Qed.
Lemma home_ok n p : 0 ≤ n ≤ 200000 → pager_ok p → pager_ok (set_before n p).
Proof. intros Hn [H1 H2 H3 H4 H5 H6]. pager_fields. Qed.
Lemma toggle_ok p : pager_ok p →
  let p := set_active (negb (active p)) p in
  let p := if active p then set_snapshot None (set_pane "" p) else p in
  pager_ok (set_pending None (set_shown None (set_before 0 p))).
Proof. intros [H1 H2 H3 H4 H5 H6]. cbn. destruct (negb (active p)); pager_fields. Qed.

Lemma feed_byte_ok byte p :
  pager_ok p → len (keys p) < 64 →
  pager_ok (feed_byte byte p).1 ∧ len (keys (feed_byte byte p).1) < 64.
Proof.
  intros Hp Hk. unfold feed_byte. pose proof (page_lines_range p) as Hl.
  destruct (bool_decide (keys p = [])) eqn:E0.
  { apply bool_decide_eq_true_1 in E0. destruct (byte =? 27).
    { split; [by apply keys_ok|]. cbn. rewrite E0. done. }
    destruct (active p && (byte =? 114)).
    { split; [|done]. destruct Hp as [H1 H2 H3 H4 H5 H6]. pager_fields. }
    destruct (active p && (byte =? 113)); [|done].
    split; [|done]. destruct Hp as [H1 H2 H3 H4 H5 H6]. pager_fields. }
  set (p1 := set_keys (keys p ++ [byte]) p).
  assert (pager_ok p1) as Hp1 by by apply keys_ok.
  assert (page_lines p1 = page_lines p) as Hpl by done.
  destruct (bool_decide (keys p1 = F7)). { split; [|done]. by apply keys_ok, toggle_ok. }
  destruct (home (keys p1) || end_key (keys p1)).
  { split; [|done]. apply keys_ok. destruct (active p1); [|done]. apply home_ok; [|done].
    pose proof (po_total _ Hp1). repeat case_match; lia. }
  destruct (older (keys p1)).
  { split; [|done]. apply keys_ok. destruct (active p1); [|done]. apply back_ok; [|done].
    case_match; lia. }
  destruct (newer (keys p1)).
  { split; [|done]. apply keys_ok. destruct (active p1); [|done]. apply forward_ok; [|done].
    case_match; lia. }
  destruct (starts_with (escape "<") (keys p1) && _).
  { split; [|done]. apply keys_ok. destruct (active p1); [|done].
    destruct (mouse_button _) as [b|]; [|done]. destruct (b =? 64); [by apply back_ok|].
    destruct (b =? 65); [by apply forward_ok|done]. }
  destruct (64 <=? len (keys p1)) eqn:E64; cbn [orb]; [by split; [apply keys_ok|]|].
  case_match; [by split; [apply keys_ok|]|]. split; [done|]. cbn [fst]. lia.
Qed.
Lemma feed_ok bytes : ∀ p, pager_ok p → len (keys p) < 64 →
  pager_ok (feed bytes p).1 ∧ len (keys (feed bytes p).1) < 64.
Proof.
  induction bytes as [|b bytes IH]; intros p Hp Hk; [done|]. cbn [feed].
  destruct (feed_byte_ok b p Hp Hk) as [H1 H2]. destruct (feed_byte b p) as [p1 r1]. simpl in *.
  destruct (IH p1 H1 H2). by destruct (feed bytes p1).
Qed.
Lemma request_ok now p : pager_ok p → pager_ok (request now p).1 ∧ keys (request now p).1 = keys p.
Proof.
  intros Hp. unfold request. destruct (active p); [|done]. cbn [negb].
  assert (pager_ok (expire now p) ∧ keys (expire now p) = keys p) as [Hp1 Hk].
  { assert (expire now p = p ∨ expire now p = set_pending None p) as [->| ->]; [|done|].
    - unfold expire. repeat case_match; auto.
    - split; [|done]. destruct Hp as [H1 H2 H3 H4 H5 H6]. pager_fields. }
  set (p1 := expire now p) in *. clearbody p1. case_match; [done|]. split; [|done]. destruct Hp1 as [H1 H2 H3 H4 H5 H6].
  pager_fields. intros r b a [= <- <- <-]. simpl. lia.
Qed.

(** A valid answer names a token and a pane the requests may use. *)
Lemma validate_chunk_ok c u : validate_chunk c = Ok u →
  (∀ id, hc_snapshot c = Some id → token id 32 = true) ∧
  (∀ pane, hc_pane c = Some pane → pane_ok pane = true) ∧ hc_total c ≤ 200000.
Proof.
  unfold validate_chunk. intros H. apply rbind_ok in H as ([] & H1%ensure_ok & H).
  apply rbind_ok in H as ([] & H2 & H). apply rbind_ok in H as ([] & H3%ensure_ok & _). split_and!.
  - intros id E. rewrite E in H1. by apply andb_true_iff in H1 as [? _].
  - intros pn E. rewrite E in H2. apply rbind_ok in H2 as ([] & _ & H2).
    unfold history_request in H2. by apply rbind_ok in H2 as ([] & ?%ensure_ok & _).
  - rewrite !andb_true_iff in H3. lia.
Qed.

(** The page keeps the invariant; it never touches the keys. *)
Definition page_good (p : Pager) {A} (r : res A) (p' : Pager) : Prop :=
  pager_ok p' ∧ keys p' = keys p.

Lemma check_snapshot_ok chunk u p :
  validate_chunk chunk = Ok u → pager_ok p →
  wp (check_snapshot chunk) (page_good p) p ∧ pending (check_snapshot chunk p).2 = pending p.
Proof.
  intros (Ht & _ & _)%validate_chunk_ok Hp. unfold check_snapshot.
  split.
  - apply wp_get. destruct (hc_error chunk); [by split|].
    destruct (snapshots p) eqn:Es; apply wp_lift_ensure; try (intros _; by split).
    + intros _. apply wp_lift_ensure; [|intros _; by split]. intros _. split; [|done].
      destruct Hp as [H1 H2 H3 H4 H5 H6]. pager_fields.
  - unfold mbindM, get, lift, modify. destruct (hc_error chunk); [done|].
    destruct (snapshots p); repeat (destruct (ensure _ _); try done).
Qed.

Lemma set_pending_ok v p : (∀ r b a, v = Some (r, b, a) → len b ≤ 131072) →
  pager_ok p → pager_ok (set_pending v p).
Proof. intros Hv [H1 H2 H3 H4 H5 H6]. pager_fields. Qed.

Lemma page_ok chunk p : pager_ok p → wp (page chunk) (page_good p) p.
Proof.
  intros Hp. unfold page. apply wp_lift; [|by split..]. intros u Hv. apply wp_get.
  destruct (active p); [|by split]. cbn [negb].
  destruct (pending p) as [[[r b] a]|] eqn:Ep; [|by split].
  destruct (r =? hc_request chunk); [|by split]. cbn [negb]. apply wp_bind.
  destruct (check_snapshot_ok chunk u p Hv Hp) as [Hc _].
  eapply wp_mono; [|exact Hc]. intros [[]|e|] p1 [Hp1 Hk1]; [|by split..]. cbn [wp_k].
  apply wp_lift; [|by split..]. intros data _. apply wp_lift_ensure; [|by split]. intros Hlen.
  apply wp_modify.
  assert (pager_ok (set_pending (Some (r, b ++ data, a)) p1)) as Hp2.
  { apply set_pending_ok; [|done]. intros ? ? ? [= <- <- <-]. rewrite length_app. lia. }
  destruct (hc_done chunk); [|by split]. cbn [negb]. apply wp_modify.
  assert (pager_ok (set_pending None (set_pending (Some (r, b ++ data, a)) p1))) as Hp3
    by by apply set_pending_ok.
  set (p3 := set_pending None _) in *. assert (keys p3 = keys p) as Hk3 by done. clearbody p3.
  pose proof (validate_chunk_ok _ _ Hv) as (_ & Hpane & Htot).
  destruct (hc_error chunk) as [error|].
  { apply wp_modify, wp_get. split; [|done]. destruct Hp3 as [H1 H2 H3 H4 H5 H6]. pager_fields. }
  apply wp_modify, wp_bind.
  assert (∀ p4, pager_ok p4 → keys p4 = keys p →
    wp (do* modify (set_total (hc_total chunk)) in
        do* modify (set_shown (Some (hc_before chunk))) in
        do* if (hc_total chunk <=? hc_before chunk) && (0 <? hc_total chunk)
            then modify (λ p, set_shown None
                   (set_before (Z.max 0 (hc_total chunk - page_lines p)) p))
            else mok tt in
        let* p := get in mok (Some (screen p chunk (b ++ data)))) (page_good p) p4) as Hgo.
  { intros p4 [H1 H2 H3 H4 H5 H6] Hk4. apply wp_modify, wp_modify, wp_bind.
    destruct (_ && _).
    - split; [|done]. set (p5 := set_shown _ _). pose proof (page_lines_range p5). pager_fields.
    - split; [|done]. pager_fields. }
  destruct Hp3 as [H1 H2 H3 H4 H5 H6].
  destruct (hc_pane chunk) as [pn|]; apply (Hgo _); try done; pager_fields.
Qed.

Lemma pager_step_ok op p : pager_ok p → len (keys p) < 64 →
  pager_ok (pager_step p op) ∧ len (keys (pager_step p op)) < 64.
Proof.
  intros Hp Hk. destruct op as [bytes|c r|now|chunk]; simpl.
  - by apply feed_ok.
  - split; [|done]. destruct Hp as [H1 H2 H3 H4 H5 H6]. pager_fields.
  - destruct (request_ok now p Hp) as [? ->]. done.
  - destruct (page_ok chunk p Hp) as [? ->]. done.
Qed.
Lemma run_ok ops : ∀ p, pager_ok p → len (keys p) < 64 →
  pager_ok (pager_run ops p) ∧ len (keys (pager_run ops p)) < 64.
Proof.
  induction ops as [|op ops IH]; intros p Hp Hk; [done|]. simpl.
  destruct (pager_step_ok op p Hp Hk). by apply IH.
Qed.
Lemma start_ok b c r : pager_ok (capabilities b (new c r)) ∧ len (keys (capabilities b (new c r))) < 64.
Proof. split; [pager_fields|simpl; lia]. Qed.

(** Whatever a guest types and whatever pages arrive, every request of the pager is
    one the gateway accepts: its pane, position, size and snapshot pass the checks of the
    hub, which answers or forwards it and never drops the viewer for it; and the pager
    keeps at most 63 bytes of an unfinished key and 128 KiB of an unfinished page. *)
Theorem pager_requests_accepted b c r ops now p' i direct hub_snapshots client viewer at_ clock :
  request now (pager_run ops (capabilities b (new c r))) = (p', Some i) →
  (∃ reaction, react direct hub_snapshots client viewer i at_ clock = Ok reaction) ∧
  len (keys p') < 64 ∧ (∀ n bytes t, pending p' = Some (n, bytes, t) → len bytes ≤ 131072).
Proof.
  intros Hr. destruct (start_ok b c r) as [Hs Hk].
  destruct (run_ok ops _ Hs Hk) as [Hp Hkp]. set (p := pager_run _ _) in *. clearbody p.
  destruct (request_ok now p Hp) as [Hp' Hk']. rewrite Hr in Hp', Hk'. simpl in Hp', Hk'.
  split; [|split; [by rewrite Hk'|apply (po_pending _ Hp')]].
  assert (i = ViHistory (snapshots p') (snapshot p') (serial p') (pane p') (before p') (page_lines p')) as ->.
  { unfold request in Hr. destruct (active p); [|done]. cbn [negb] in Hr.
    set (p1 := expire now p) in *. clearbody p1.
    destruct (_ || _ || _); [done|]. by injection Hr as <- <-. }
  unfold react, history_request. rewrite (po_pane _ Hp'). cbn [ensure rbind].
  pose proof (page_lines_range p'). pose proof (po_before _ Hp').
  rewrite ensure_true by lia. cbn [rbind].
  rewrite ensure_true.
  2:{ destruct (snapshot p') as [id|] eqn:Es; [|done].
      destruct (po_snapshot _ Hp' id Es) as [-> ->]. done. }
  cbn [rbind]. destruct (_ && _); [eauto|]. destruct (v_history_started viewer); [|eauto].
  destruct (_ || _); eauto.
Qed.

(** A late answer changes nothing: while no request is pending, or for another
    request than the pending one, [page] leaves the pager as it is and draws nothing. *)
Theorem stale_page_ignored chunk p :
  (∀ bytes t, pending p ≠ Some (hc_request chunk, bytes, t)) →
  (page chunk p).2 = p ∧ ∀ s, (page chunk p).1 ≠ Ok (Some s).
Proof.
  intros Hn. change (wp (page chunk) (λ r p', p' = p ∧ ∀ s, r ≠ Ok (Some s)) p). unfold page.
  apply wp_lift; [|done..]. intros u _. apply wp_get. destruct (active p); [|done]. cbn [negb].
  destruct (pending p) as [[[r b] a]|]; [|done].
  destruct (r =? hc_request chunk) eqn:E; [|done].
  apply Z.eqb_eq in E as ->. by edestruct Hn.
Qed.
End laws.

(** ** What is drawn *)

(** A text without control characters. *)
Definition printable (s : string) : Prop := Forall (λ c, is_control (code_point c) = false) (str_chars s).
(** The control sequences of the pager itself. *)
Definition controls (rows : Z) : list string :=
  [esc +:+ "[?25l"; esc +:+ "[2J"; esc +:+ "[H"; crlf; esc +:+ "[K"; esc +:+ "[7m"; esc +:+ "[0m";
   esc +:+ "[2K"; esc +:+ "[" +:+ show_u128 rows +:+ ";1H"].
Definition drawn (rows : Z) (out : string) : Prop :=
  ∃ ps, out = String.concat "" ps ∧ Forall (λ s, s ∈ controls rows ∨ printable s) ps.

Lemma without_controls_chars text :
  chars_from (without_controls text)
  = ("", List.filter (λ c, negb (is_control (code_point c))) (str_chars text)).
Proof.
  unfold without_controls. apply chars_from_concat. destruct (chars_from_chars text) as [_ H].
  rewrite Forall_forall in H |- *. intros c Hc. apply H.
  by apply list_elem_of_In, filter_In in Hc as [Hc%list_elem_of_In _].
Qed.

Section draws.
Context `{L : TermLibs} `{T : TextLibs} `{!TextLibsOk T}.

Lemma clip_clusters_prefix limit gs : ∀ width,
  ∃ k, clip_clusters width limit gs = String.concat "" (take k (map fst gs)).
Proof.
  induction gs as [|[g size] gs IH]; intros width; simpl; [by exists 0%nat|].
  destruct (limit <? width + size); [by exists 0%nat|]. destruct (IH (width + size)) as [k ->].
  exists (S k). cbn [take]. by rewrite str_concat_cons.
Qed.
Lemma clip_printable text cols : printable (clip text cols).
Proof.
  unfold clip. set (s := without_controls text).
  pose proof (without_controls_chars text) as Hs. fold s in Hs.
  assert ((chars_from s).1 = "") as Hb by by rewrite Hs.
  assert (Forall (λ g, (chars_from g).1 = "") (map fst (graphemes s))) as Hw.
  { apply Forall_forall. intros g. by apply graphemes_whole. }
  destruct (clip_clusters_prefix (Z.max 0 (cols - 1)) (graphemes s) 0) as [k ->].
  pose proof (graphemes_concat s Hb) as Hc. rewrite <- (take_drop k (map fst (graphemes s))) in Hc, Hw.
  apply Forall_app in Hw as [Hw1 Hw2]. rewrite str_concat_app in Hc.
  assert (printable s) as Hp.
  { unfold printable, str_chars. rewrite Hs. apply Forall_forall. intros c. simpl.
    intros [_ Hc']%list_elem_of_In%filter_In. by apply negb_true_iff in Hc'. }
  unfold printable, str_chars in *. rewrite <- Hc in Hp.
  rewrite chars_from_app in Hp by by apply whole_concat. by apply Forall_app in Hp as [? _].
Qed.

Lemma drawn_piece rows s : s ∈ controls rows ∨ printable s → drawn rows s.
Proof. intros H. exists [s]. split; [done|]. by apply Forall_singleton. Qed.
Lemma drawn_app rows s t : drawn rows s → drawn rows t → drawn rows (s +:+ t).
Proof.
  intros (l & -> & Hl) (k & -> & Hk). exists (l ++ k). split; [by rewrite str_concat_app|].
  by apply Forall_app.
Qed.
Lemma drawn_control rows s : bool_decide (s ∈ take 8 (controls rows)) = true → drawn rows s.
Proof.
  intros H%bool_decide_eq_true_1. apply drawn_piece. left.
  rewrite <- (take_drop 8 (controls rows)). set_solver.
Qed.
Lemma drawn_move rows s :
  drawn rows s → drawn rows (esc +:+ ("[" +:+ (show_u128 rows +:+ (";1H" +:+ s)))).
Proof.
  intros H. rewrite <- (str_app_assoc (show_u128 rows)), <- (str_app_assoc "["), <- (str_app_assoc esc).
  apply drawn_app; [|done]. apply drawn_piece. left. unfold controls. set_solver.
Qed.
Lemma drawn_clip rows text cols : drawn rows (clip text cols).
Proof. apply drawn_piece. right. apply clip_printable. Qed.

Lemma body_drawn p bytes : drawn (rows p) (body p bytes).
Proof.
  unfold body. case_bool_decide; [apply drawn_clip|].
  induction (take _ _) as [|line l IH]; [by exists []|].
  cbn [map]. rewrite str_concat_cons. apply drawn_app; [|exact IH].
  apply drawn_app; [apply drawn_clip|]. rewrite <- str_app_assoc.
  apply drawn_app; by apply drawn_control.
Qed.
Lemma screen_drawn p chunk bytes : drawn (rows p) (screen p chunk bytes).
Proof.
  unfold screen. rewrite <- (str_app_assoc esc "[?25l"), <- (str_app_assoc esc "[2J"),
    <- (str_app_assoc esc "[H").
  do 3 (apply drawn_app; [by apply drawn_control|]). apply drawn_app; [apply drawn_clip|].
  apply drawn_app; [by apply drawn_control|]. apply drawn_app; [apply body_drawn|].
  apply drawn_move. rewrite <- (str_app_assoc esc "[7m").
  apply drawn_app; [by apply drawn_control|]. apply drawn_app; [apply drawn_clip|].
  by apply drawn_control.
Qed.
Lemma status_drawn p error : drawn (rows p) (status p error).
Proof.
  unfold status. apply drawn_move. rewrite <- (str_app_assoc esc "[2K").
  apply drawn_app; [by apply drawn_control|apply drawn_clip].
Qed.

(** What a page draws never carries terminal controls of the session: whatever bytes
    the host sent, the output is made of the pager's own control sequences and of texts
    without control characters. *)
Theorem drawing_is_safe chunk p out p' :
  page chunk p = (Ok (Some out), p') → drawn (rows p) out.
Proof.
  intros H.
  assert (wp (page chunk) (λ r _, ∀ out, r = Ok (Some out) → drawn (rows p) out) p) as Hw.
  { unfold page. apply wp_lift; [|done..]. intros u Hv. apply wp_get. destruct (active p); [|done].
    cbn [negb]. destruct (pending p) as [[[r b] a]|]; [|done].
    destruct (r =? hc_request chunk); [|done]. cbn [negb]. apply wp_bind.
    eapply (wp_mono _ (λ _ p1, rows p1 = rows p)).
    2:{ unfold check_snapshot. apply wp_get. destruct (hc_error chunk); [done|].
        destruct (snapshots p); apply wp_lift_ensure; try done. intros _. by apply wp_lift_ensure. }
    intros [[]|e|] p1 Hr; [|done..]. cbn [wp_k]. apply wp_lift; [|done..]. intros data _.
    apply wp_lift_ensure; [|done]. intros _. apply wp_modify. destruct (hc_done chunk); [|done].
    cbn [negb]. apply wp_modify. destruct (hc_error chunk) as [error|].
    { apply wp_modify, wp_get. intros out' [= <-]. rewrite <- Hr.
      match goal with |- drawn _ (status ?q _) => exact (status_drawn q error) end. }
    apply wp_modify, wp_bind.
    eapply (wp_mono _ (λ r p2, r ≠ Panic ∧ rows p2 = rows p)); [|by destruct (hc_pane chunk)].
    intros [[]|e|] p2 [_ Hr2]; [|done..]. cbn [wp_k]. apply wp_modify, wp_modify, wp_bind.
    eapply (wp_mono _ (λ r p2, rows p2 = rows p)); [|by destruct (_ && _)].
    intros [[]|e|] p3 Hr3; [|done..]. cbn [wp_k]. apply wp_get. intros out' [= <-]. rewrite <- Hr3.
    apply screen_drawn. }
  unfold wp in Hw. rewrite H in Hw. by apply Hw.
Qed.
End draws.

(** ** Examples *)

(** Every character is a cluster of width one. *)
#[global] Instance sample_text_libs : TextLibs := {
  graphemes s := map (λ c, (c, 1)) (str_chars s) }.
#[global] Instance sample_text_libs_ok : TextLibsOk sample_text_libs.
Proof.
  split.
  - intros s Hs. cbn. rewrite map_map, map_id. symmetry. rewrite (chars_concat s) at 1. by rewrite Hs.
  - intros s g _. cbn. rewrite map_map, map_id. intros Hg. destruct (chars_from_chars s) as [_ H].
    rewrite Forall_forall in H. unfold str_chars in Hg. by rewrite (H g Hg).
Qed.

Definition sample_pager : Pager := (request 1 (pager_run [Feed F7] (capabilities false (new 80 24)))).1.
Definition sample_viewer : Viewer :=
  mkViewer 0 None None None None None None None None 0 0 0 true 80 24 "xterm" 0.
(** One line that tries to set the clipboard. *)
Definition sample_chunk : HistoryChunk :=
  mkHistoryChunk None 1 None (base64_encode (27 :: bytes_of "]52;c;x")) true 1 0 1 false None.

Lemma pager_requests_accepted_witness :
  request 1 (pager_run [Feed F7] (capabilities false (new 80 24)))
  = (sample_pager, Some (ViHistory false None 1 "" 0 21)) ∧
  ∃ reaction, react true true 5 sample_viewer (ViHistory false None 1 "" 0 21) 0 0 = Ok reaction.
Proof.
  assert (request 1 (pager_run [Feed F7] (capabilities false (new 80 24)))
    = (sample_pager, Some (ViHistory false None 1 "" 0 21))) as H by (vm_compute; reflexivity).
  split; [exact H|].
  exact (proj1 (pager_requests_accepted false 80 24 [Feed F7] 1 _ _ true true 5 sample_viewer 0 0 H)).
Defined.
Lemma stale_page_ignored_witness :
  (page (history_failed 7 0 "late") sample_pager).2 = sample_pager.
Proof.
  refine (proj1 (stale_page_ignored (history_failed 7 0 "late") sample_pager _)).
  intros bytes t. vm_compute. discriminate.
Defined.
Lemma drawing_is_safe_witness :
  ∃ out, (page sample_chunk sample_pager).1 = Ok (Some out) ∧ drawn 24 out.
Proof.
  destruct (page sample_chunk sample_pager) as [[[out|]|e|] p'] eqn:E;
    try (exfalso; apply (f_equal fst) in E; vm_compute in E; discriminate E).
  exists out. split; [reflexivity|]. exact (drawing_is_safe sample_chunk sample_pager out p' E).
Defined.
