(* ===== verification/Http.v ===== *)
(** * HTTP messages

    What the gateway's sources use of the crates [http], [url] and [hyper]: header maps,
    request targets and bodies are the class [HttpLibs], with the documented behaviour of
    a header map as laws.  A header value is the bytes it holds; [to_str] and the parser
    of header values both accept visible ASCII.  The lemmas on the [Cookie] header are
    shared by the access gate and the affinity cookie. *)

From S2P Require Import Prelude Net RustStr Text.
Local Open Scope string_scope.
Local Open Scope list_scope.
Local Open Scope Z_scope.

(** A visible ASCII byte or a tab. *)
Definition visible_byte (b : Z) : bool := (32 <=? b) && (b <? 127) || (b =? 9).

Class HttpLibs := {
  (** [http::HeaderMap]: the values of a name, in their order. *)
  Headers : Type;
  no_headers : Headers;
  get_all : string → Headers → list string;
  remove_header : string → Headers → Headers;
  insert_header : string → string → Headers → Headers;
  append_header : string → string → Headers → Headers;
  get_all_none n : get_all n no_headers = [];
  get_all_remove n m h :
    get_all n (remove_header m h) = if eq_ignore_ascii_case n m then [] else get_all n h;
  get_all_insert n m v h :
    get_all n (insert_header m v h) = if eq_ignore_ascii_case n m then [v] else get_all n h;
  get_all_append n m v h :
    get_all n (append_header m v h)
    = if eq_ignore_ascii_case n m then get_all n h ++ [v] else get_all n h;
  (** [HeaderValue::to_str], and the parser of a value. *)
  is_text : string → bool;
  is_text_spec s : is_text s = all_bytes visible_byte s;
  (** [http::Uri] *)
  Uri : Type;
  Authority : Type;
  parse_uri : string → option Uri;
  uri_path : Uri → string;
  uri_query : Uri → option string;
  uri_scheme : Uri → option string;
  uri_authority : Uri → option Authority;
  parse_authority : string → option Authority;
  authority_host : Authority → string;
  authority_str : Authority → string;
  (** Streamed bodies. *)
  Body : Type;
  no_body : Body;
  is_end_stream : Body → bool;
  no_body_ends : is_end_stream no_body = true;
}.

Section http.
Context `{H : HttpLibs}.

Record Request := mkRequest {
  q_method : string; q_uri : Uri; q_version : string; q_headers : Headers; q_body : Body }.
(** The body of an answer: a text of the gateway, its access page, or what a service sends. *)
Inductive Content :=
  | Text (s : string)
  | AccessPage (pin : bool) (error nonce : string)
  | Streamed (b : Body).
Record Response := mkResponse { p_status : Z; p_headers : Headers; p_content : Content }.

Definition set_uri u q := mkRequest (q_method q) u (q_version q) (q_headers q) (q_body q).
Definition set_version v q := mkRequest (q_method q) (q_uri q) v (q_headers q) (q_body q).
Definition set_headers h q := mkRequest (q_method q) (q_uri q) (q_version q) h (q_body q).
Definition set_body b q := mkRequest (q_method q) (q_uri q) (q_version q) (q_headers q) b.

(** [headers.get(n)], [headers.contains_key(n)], [headers.get(n).and_then(to_str)] *)
Definition get_header (n : string) (h : Headers) : option string := head (get_all n h).
Definition contains_key (n : string) (h : Headers) : bool := negb (len (get_all n h) =? 0).
Definition to_str (v : string) : option string := if is_text v then Some v else None.
Definition get_text (n : string) (h : Headers) : option string := v ← get_header n h; to_str v.
(** [headers.get_all(n).iter().filter_map(to_str)] *)
Definition header_texts (n : string) (h : Headers) : list string :=
  List.filter is_text (get_all n h).
(** The parts of all cookie headers that are text. *)
Definition cookie_parts (h : Headers) : list string :=
  map str_trim (flat_map (split ";") (header_texts "cookie" h)).

(** ** Lemmas *)

Lemma get_all_remove_same n h : get_all n (remove_header n h) = [].
Proof. rewrite get_all_remove. unfold eq_ignore_ascii_case. by rewrite bool_decide_true. Qed.
Lemma get_all_insert_same n v h : get_all n (insert_header n v h) = [v].
Proof. rewrite get_all_insert. unfold eq_ignore_ascii_case. by rewrite bool_decide_true. Qed.
Lemma get_all_remove_ne n m h :
  eq_ignore_ascii_case n m = false → get_all n (remove_header m h) = get_all n h.
Proof. intros E. by rewrite get_all_remove, E. Qed.
Lemma get_all_insert_ne n m v h :
  eq_ignore_ascii_case n m = false → get_all n (insert_header m v h) = get_all n h.
Proof. intros E. by rewrite get_all_insert, E. Qed.
Lemma get_all_remove_list n ms h :
  get_all n (foldl (λ h m, remove_header m h) h ms)
  = if existsb (eq_ignore_ascii_case n) ms then [] else get_all n h.
Proof.
  revert h. induction ms as [|m ms IH]; intros h; [done|]. cbn [foldl existsb]. rewrite IH.
  rewrite get_all_remove. by destruct (eq_ignore_ascii_case n m), (existsb _ ms).
Qed.

Lemma is_text_app s t : is_text (s +:+ t) = is_text s && is_text t.
Proof. rewrite !is_text_spec. apply all_bytes_app. Qed.
Lemma is_text_cons a s : is_text (String a s) = visible_byte (byte_of a) && is_text s.
Proof. rewrite !is_text_spec. apply all_bytes_cons. Qed.
Lemma is_text_trim s : is_text s = true → is_text (str_trim s) = true.
Proof.
  destruct (str_trim_around s) as (p & q & E). rewrite E at 1. rewrite !is_text_app.
  by intros [_ [? _]%andb_true_iff]%andb_true_iff.
Qed.
Lemma split_text c s : is_text s = true → Forall (λ p, is_text p = true) (split c s).
Proof.
  assert (is_text "" = true) as H0 by by rewrite is_text_spec.
  induction s as [|a s IH]; cbn [split]; [by repeat constructor|].
  rewrite is_text_cons. intros [Ha Hs]%andb_true_iff. specialize (IH Hs).
  case_bool_decide; [by constructor|].
  destruct (split c s) as [|f fs]; [by constructor; [rewrite is_text_cons, Ha|]|].
  apply Forall_cons_1 in IH as [Hf Hfs]. constructor; [|done]. by rewrite is_text_cons, Ha.
Qed.
End http.

Lemma split_no_sep c s : Forall (λ p, str_contains c p = false) (split c s).
Proof.
  induction s as [|a s IH]; simpl; [by repeat constructor|]. case_bool_decide as E; [by constructor|].
  destruct (split c s) as [|f fs]; simpl; [by constructor; [simpl; rewrite bool_decide_false|]|].
  apply Forall_cons_1 in IH as [Hf Hfs]. constructor; [|done]. simpl. by rewrite bool_decide_false.
Qed.
Lemma str_trim_no_sep c s : str_contains c s = false → str_contains c (str_trim s) = false.
Proof.
  destruct (str_trim_around s) as (p & q & E). rewrite E at 1. rewrite !str_contains_app.
  by intros [_ [? _]%orb_false_iff]%orb_false_iff.
Qed.
Lemma str_trim_space s : str_trim (String " " s) = str_trim s.
Proof. reflexivity. Qed.

Lemma split_join_cookies p ps :
  Forall (λ p, str_contains ";" p = false) (p :: ps) →
  split ";" (join "; " (p :: ps)) = p :: map (String " ") ps.
Proof.
  intros [Hp Hps]%Forall_cons_1. revert p Hp. induction Hps as [|t ps Ht Hps IH]; intros p Hp.
  { by apply split_none. }
  change (join "; " (p :: t :: ps)) with (p +:+ String ";" (String " " (join "; " (t :: ps)))).
  rewrite split_app by done. f_equal.
  change (map (String " ") (t :: ps)) with (String " " t :: map (String " ") ps).
  cbn [split]. rewrite bool_decide_false by done. by rewrite IH.
Qed.

(** ** Cookies *)

Section cookies.
Context `{H : HttpLibs}.

(** A part of a cookie header as [cookie_parts] yields it. *)
Definition cookie_part_ok (p : string) : Prop :=
  str_contains ";" p = false ∧ str_trim p = p ∧ is_text p = true.

Lemma cookie_parts_ok h : Forall cookie_part_ok (cookie_parts h).
Proof.
  apply Forall_forall. intros p Hp. unfold cookie_parts in Hp.
  apply list_elem_of_In, in_map_iff in Hp as (x & <- & Hx).
  apply in_flat_map in Hx as (c & Hc & Hx). unfold header_texts in Hc.
  apply filter_In in Hc as [_ Hc]. apply list_elem_of_In in Hx.
  pose proof (split_no_sep ";" c) as Hs. pose proof (split_text ";" c Hc) as Ht.
  rewrite Forall_forall in Hs, Ht. split_and!.
  - by apply str_trim_no_sep, Hs.
  - apply str_trim_idem.
  - by apply is_text_trim, Ht.
Qed.

Lemma join_text ps : Forall cookie_part_ok ps → is_text (join "; " ps) = true.
Proof.
  induction 1 as [|p ps (_ & _ & Hp) Hps IH]; [by rewrite is_text_spec|].
  destruct ps as [|t ps]; [done|].
  change (join "; " (p :: t :: ps)) with (p +:+ "; " +:+ join "; " (t :: ps)).
  rewrite !is_text_app, Hp, IH. by rewrite is_text_spec.
Qed.

(** A cookie header joined from parts is read back as these parts. *)
Lemma cookie_parts_join ps h :
  ps ≠ [] → Forall cookie_part_ok ps → get_all "cookie" h = [join "; " ps] → cookie_parts h = ps.
Proof.
  intros Hne Hps E. unfold cookie_parts, header_texts. rewrite E. cbn [List.filter].
  rewrite join_text by done. cbn [flat_map]. rewrite app_nil_r. destruct ps as [|p ps]; [done|].
  rewrite split_join_cookies by (eapply Forall_impl; [exact Hps|]; by intros x (? & _)).
  apply Forall_cons_1 in Hps as [(_ & Hp & _) Hps]. cbn [map]. f_equal; [done|].
  clear E Hne. induction Hps as [|t ps (_ & Ht & _) Hps IH]; [done|]. cbn [map].
  f_equal; [|exact IH]. exact (eq_trans (str_trim_space t) Ht).
Qed.
Lemma cookie_parts_ext h h' : get_all "cookie" h = get_all "cookie" h' → cookie_parts h = cookie_parts h'.
Proof. intros E. unfold cookie_parts, header_texts. by rewrite E. Qed.
Lemma cookie_parts_none h : get_all "cookie" h = [] → cookie_parts h = [].
Proof. intros E. unfold cookie_parts, header_texts. by rewrite E. Qed.
End cookies.

(** ** A header map *)

(** Header maps as finite maps, to evaluate samples. *)
Module MapHeaders.
Notation t := (gmap string (list string)).
Definition values (n : string) (h : t) : list string := default [] (h !! to_ascii_lowercase n).
Definition set (n : string) (vs : list string) (h : t) : t := <[to_ascii_lowercase n := vs]> h.
Lemma values_set n m vs h :
  values n (set m vs h) = if eq_ignore_ascii_case n m then vs else values n h.
Proof.
  unfold values, set, eq_ignore_ascii_case. case_bool_decide as E.
  - by rewrite E, lookup_insert_eq.
  - by rewrite lookup_insert_ne.
Qed.
Lemma values_append n m v h :
  values n (set m (values m h ++ [v]) h)
  = if eq_ignore_ascii_case n m then values n h ++ [v] else values n h.
Proof.
  rewrite values_set. destruct (eq_ignore_ascii_case n m) eqn:E; [|done].
  unfold eq_ignore_ascii_case in E. apply bool_decide_eq_true in E. unfold values. by rewrite E.
Qed.
End MapHeaders.
(** Targets are their paths, bodies are whether they have ended. *)
Definition sample_http : HttpLibs.
Proof.
  refine {| Headers := gmap string (list string); no_headers := ∅;
    get_all := MapHeaders.values; remove_header n := MapHeaders.set n [];
    insert_header n v := MapHeaders.set n [v];
    append_header n v h := MapHeaders.set n (MapHeaders.values n h ++ [v]) h;
    is_text := all_bytes visible_byte; Uri := string; Authority := string;
    parse_uri := Some; uri_path u := u; uri_query _ := None; uri_scheme _ := Some "http";
    uri_authority _ := Some "service"; parse_authority := Some; authority_host a := a; authority_str a := a;
    Body := bool; no_body := true; is_end_stream b := b |}.
  - intros n. unfold MapHeaders.values. by rewrite lookup_empty.
  - intros n m h. apply MapHeaders.values_set.
  - intros n m v h. apply MapHeaders.values_set.
  - intros n m v h. apply MapHeaders.values_append.
  - done.
  - done.
Defined.
