(* ===== verification/Gate.v ===== *)
(** * The access gate ([porthub-runtime/src/public_access.rs])

    A gate lets a request through with a session cookie it issued, with the key in its own
    header or with a bearer key, and takes its credentials off the request.  [authorize]
    awaits a login's body, the semaphore of the verifier and the verifier; between two
    awaits it is one of the functions [arrive], [body_read], [permitted], [checked], and
    [Task] is what a request holds while it waits.  bcrypt, SHA-256 and the form parser
    are the class [GateLibs]; tokens, nonces and the salt are arguments.  Instants are
    nanoseconds. *)

From S2P Require Import Prelude Net RustStr Text Http.
Local Open Scope string_scope.
Local Open Scope list_scope.
Local Open Scope Z_scope.

Class GateLibs := {
  hash_cost : string → option Z;
  (** [bcrypt::verify(credential, verifier).unwrap_or(false)] *)
  bcrypt_verify : string → string → bool;
  sha256 : list Z → list Z;
  sha256_len l : len (sha256 l) = 32;
  form_pairs : list Z → list (string * string);
}.

Section gate.
Context `{H : HttpLibs} `{L : GateLibs}.

Record AccessConfig := mkAccess { verifier : string; pin : bool }.
(** The permits of the two semaphores that are left, and the digest of the credential
    that was verified last. *)
Record Gate := mkGate {
  g_config : AccessConfig; g_cookie : string; sessions : gmap string Z; verifying : Z;
  waiting : Z; credential_salt : list Z; verified : option (list Z) }.
Definition set_sessions v g := mkGate (g_config g) (g_cookie g) v (verifying g) (waiting g)
  (credential_salt g) (verified g).
Definition set_verifying v g := mkGate (g_config g) (g_cookie g) (sessions g) v (waiting g)
  (credential_salt g) (verified g).
Definition set_waiting v g := mkGate (g_config g) (g_cookie g) (sessions g) (verifying g) v
  (credential_salt g) (verified g).
Definition set_verified v g := mkGate (g_config g) (g_cookie g) (sessions g) (verifying g) (waiting g)
  (credential_salt g) v.

Definition MAX_WAITING : Z := 64.
Definition MAX_SESSIONS : Z := 4096.

Definition gate_new (id : string) (config : AccessConfig) (uuid : list Z) : res Gate :=
  let! cost := ok_or (hash_cost (verifier config)) "invalid verifier" in
  ensure! (10 <=? cost) && (cost <=? 14) else "invalid access verifier cost" in
  let digest := sha256 (bytes_of id) in
  let! head := slice digest 0 8 in
  Ok (mkGate config ("porthub_access_" +:+ join "" (map show_hex head)) ∅ 1 MAX_WAITING uuid None).

(** ** Answers *)

Definition response (status : Z) (message : string) : Response :=
  mkResponse status
    (append_header "x-content-type-options" "nosniff"
      (append_header "content-type" "text/plain; charset=utf-8"
        (append_header "cache-control" "no-store" no_headers)))
    (Text message).
Definition access_page (pin : bool) (error nonce : string) : Response :=
  mkResponse 401
    (append_header "content-security-policy"
       ("default-src 'none'; style-src 'nonce-" +:+ nonce
        +:+ "'; form-action 'self'; frame-ancestors 'none'; base-uri 'none'")
      (append_header "referrer-policy" "no-referrer"
        (append_header "x-content-type-options" "nosniff"
          (append_header "content-type" "text/html; charset=utf-8"
            (append_header "cache-control" "no-store" no_headers)))))
    (AccessPage pin error nonce).
Definition prompt (pin : bool) (nonce : string) : Response := access_page pin "" nonce.
Definition denied (login : bool) (g : Gate) (nonce : string) : Response :=
  if login then access_page (pin (g_config g)) "That credential was not accepted. Please try again." nonce
  else response 401 "Access denied".

(** ** One request *)

(** A credential that is being checked, with the request it came with. *)
Record Attempt := mkAttempt {
  a_request : Request; a_now : Z; a_secure : bool; a_login : bool; a_consumes : bool;
  a_credential : string; a_digest : list Z }.
(** What an unfinished request waits for: the body of a login, the semaphore (it holds a
    waiting permit), the verifier (it holds a permit of both). *)
Inductive Task :=
  | Reading (q : Request) (now : Z) (secure : bool)
  | Waiting (a : Attempt)
  | Verifying (a : Attempt).
Inductive Progress :=
  | Forwarded (q : Request)
  | Answered (r : Response)
  | Pending (t : Task).

(** The loop over the parts of the cookie headers: whether a session is live, and the
    cookies of the application. *)
Fixpoint scan_parts (cookie : string) (live : gmap string Z) (ok : bool) (remaining : list string)
    (parts : list string) : bool * list string :=
  match parts with
  | [] => (ok, remaining)
  | part :: parts =>
      match split_once "=" part with
      | Some (name, value) =>
          if bool_decide (name = cookie)
          then scan_parts cookie live (ok || bool_decide (is_Some (live !! value))) remaining parts
          else scan_parts cookie live ok (remaining ++ [part]) parts
      | None => scan_parts cookie live ok remaining parts
      end
  end.

Definition bearer (h : Headers) : option string :=
  value ← get_text "authorization" h;
  '(scheme, value) ← split_once " " value;
  if eq_ignore_ascii_case scheme "bearer" && negb (str_is_empty value) then Some value else None.

(** The credential of a request that is not a login. *)
Definition offered (h : Headers) : option string :=
  match get_text "x-porthub-key" h with Some c => Some c | None => bearer h end.
(** The credential of a login. *)
Definition login_key (body : list Z) : option string :=
  snd <$> List.find (λ x, bool_decide (x.1 = "key")) (form_pairs body).

Definition well_formed (pin : bool) (credential : string) : bool :=
  negb (str_is_empty credential) && (slen credential <=? 72)
  && (negb pin || (slen credential =? 6) && all_bytes is_ascii_digit credential).

Definition digest_of (g : Gate) (credential : string) : list Z :=
  sha256 (credential_salt g ++ bytes_of credential).
Definition cached (digest : list Z) (g : Gate) : bool := bool_decide (verified g = Some digest).

(** The bearer key that opened the gate is not the application's. *)
Definition unbear (consumes : bool) (q : Request) : Request :=
  if consumes then set_headers (remove_header "authorization" (q_headers q)) q else q.
(** The end of [authorize], for a credential that was accepted. *)
Definition finish (a : Attempt) (token : string) (g : Gate) : Progress * Gate :=
  if a_login a then
    if MAX_SESSIONS <=? Z.of_nat (size (sessions g)) then (Answered (response 429 "Session limit reached"), g)
    else
      let g := set_sessions (<[token := a_now a + from_secs (8 * 3600)]> (sessions g)) g in
      let r := response 303 "Access granted" in
      (Answered (mkResponse (p_status r)
         (insert_header "set-cookie"
            (g_cookie g +:+ "=" +:+ token +:+ "; Path=/; HttpOnly; SameSite=Strict; Max-Age=28800"
             +:+ (if a_secure a then "; Secure" else ""))
            (insert_header "location" "/" (p_headers r))) (p_content r)), g)
  else
    (Forwarded (unbear (a_consumes a) (a_request a)), g).

(** A credential was found or not. *)
Definition try_credential (q : Request) (now : Z) (secure login consumes : bool)
    (credential : option string) (token nonce : string) (g : Gate) : Progress * Gate :=
  match credential with
  | None => (Answered (prompt (pin (g_config g)) nonce), g)
  | Some credential =>
      if negb (well_formed (pin (g_config g)) credential) then (Answered (denied login g nonce), g)
      else
        let a := mkAttempt q now secure login consumes credential (digest_of g credential) in
        if cached (a_digest a) g then finish a token g
        else if waiting g =? 0 then (Answered (response 429 "Try again shortly"), g)
        else (Pending (Waiting a), set_waiting (waiting g - 1) g)
  end.

(** The cookies of the request: whether one names a live session, and the headers with the
    cookies of the application. *)
Definition take_cookies (g : Gate) (h : Headers) : bool * Headers :=
  let '(session_ok, remaining) := scan_parts (g_cookie g) (sessions g) false [] (cookie_parts h) in
  let headers := remove_header "cookie" h in
  (session_ok,
   if (len remaining =? 0) || negb (is_text (join "; " remaining)) then headers
   else insert_header "cookie" (join "; " remaining) headers).
Definition arrive (q : Request) (now : Z) (secure : bool) (token nonce : string) (g : Gate)
    : Progress * Gate :=
  let g := set_sessions (filter (λ x, now < x.2) (sessions g)) g in
  let '(session_ok, headers) := take_cookies g (q_headers q) in
  let supplied := get_text "x-porthub-key" headers in
  let q := set_headers (remove_header "x-porthub-key" headers) q in
  let login := bool_decide (uri_path (q_uri q) = "/_porthub/access") && bool_decide (q_method q = "POST") in
  if session_ok && negb login then (Forwarded q, g)
  else
    let bearer :=
      if bool_decide (supplied = None) && negb login then bearer (q_headers q) else None in
    if login then (Pending (Reading q now secure), g)
    else
      try_credential q now secure login (bool_decide (is_Some bearer))
        (match supplied with Some c => Some c | None => bearer end) token nonce g.

(** The first 2048 bytes of the body of a login, or why they did not come. *)
Inductive BodyRead := ReadTimeout | ReadError | ReadBytes (bytes : list Z).
Definition body_read (q : Request) (now : Z) (secure : bool) (r : BodyRead) (token nonce : string) (g : Gate)
    : Progress * Gate :=
  let q := set_body no_body q in
  match r with
  | ReadTimeout => (Answered (response 408 "Access request timed out"), g)
  | ReadError => (Answered (response 400 "Invalid access request"), g)
  | ReadBytes bytes =>
      try_credential q now secure true false
        (login_key bytes) token nonce g
  end.

(** The semaphore of the verifier after at most three seconds. *)
Inductive PermitResult := Acquired | PermitTimeout | PermitClosed.
#[export] Instance PermitResult_eq_dec : EqDecision PermitResult.
Proof. solve_decision. Defined.
Definition permitted (a : Attempt) (r : PermitResult) (token : string) (g : Gate) : Progress * Gate :=
  match r with
  | PermitTimeout => (Answered (response 429 "Try again shortly"), set_waiting (waiting g + 1) g)
  | PermitClosed => (Answered (response 503 "Access verification unavailable"), set_waiting (waiting g + 1) g)
  | Acquired =>
      if cached (a_digest a) g then finish a token (set_waiting (waiting g + 1) g)
      else (Pending (Verifying a), set_verifying (verifying g - 1) g)
  end.

(** The verifier has answered, or its thread failed. *)
Definition checked (a : Attempt) (joined : bool) (token nonce : string) (g : Gate) : Progress * Gate :=
  let g := set_waiting (waiting g + 1) (set_verifying (verifying g + 1) g) in
  if negb joined then (Answered (response 503 "Access verification unavailable"), g)
  else if negb (bcrypt_verify (a_credential a) (verifier (g_config g))) then
    (Answered (denied (a_login a) g nonce), g)
  else finish a token (set_verified (Some (a_digest a)) g).

(** ** The whole call *)

(** What a call of [authorize] meets: the clock, the results of its awaits, what it draws,
    and what other requests do to the gate during its awaits. *)
Record GateEnv := mkGateEnv {
  ge_now : Z; ge_body : BodyRead; ge_permit : PermitResult; ge_joined : bool; ge_token : string;
  ge_nonce : string; ge_others : Task → Gate → Gate }.

Definition resume (env : GateEnv) (t : Task) (g : Gate) : Progress * Gate :=
  match t with
  | Reading q now secure => body_read q now secure (ge_body env) (ge_token env) (ge_nonce env) g
  | Waiting a => permitted a (ge_permit env) (ge_token env) g
  | Verifying a => checked a (ge_joined env) (ge_token env) (ge_nonce env) g
  end.
(** Every await is resumed at most once: a body, then the semaphore, then the verifier. *)
Fixpoint settle (fuel : nat) (env : GateEnv) (r : Progress * Gate) : res ((Request + Response) * Gate) :=
  match r with
  | (Forwarded q, g) => Ok (inl q, g)
  | (Answered r, g) => Ok (inr r, g)
  | (Pending t, g) => match fuel with O => Panic | S fuel => settle fuel env (resume env t (ge_others env t g)) end
  end.
Definition authorize (env : GateEnv) (q : Request) (secure : bool) (g : Gate)
    : res ((Request + Response) * Gate) :=
  settle 3 env (arrive q (ge_now env) secure (ge_token env) (ge_nonce env) g).

(** ** The gate and the requests in flight *)

(** An entry of the history of a gate: the request and the instant it came, the credential
    that was looked at, the token that was drawn, and what became of the request. *)
Record Entry := mkEntry {
  en_origin : Request; en_now : Z; en_credential : option string; en_token : string;
  en_result : Progress }.
Record World := mkWorld {
  w_gate : Gate; w_tasks : gmap nat (Request * Task); w_orphans : nat; w_log : list Entry }.
Inductive Input :=
  | Arrive (id : nat) (q : Request) (now : Z) (secure : bool)
  | BodyOf (id : nat) (r : BodyRead)
  | PermitOf (id : nat) (r : PermitResult)
  | VerdictOf (id : nat) (joined : bool)
  | Cancel (id : nat)
  | OrphanDone.

(** The world after a phase of request [id]; the newest entry of the log comes first. *)
Definition record (id : nat) (q : Request) (now : Z) (credential : option string) (token : string)
    (r : Progress * Gate) (w : World) : World :=
  mkWorld r.2
    (match r.1 with Pending t => <[id := (q, t)]> (w_tasks w) | _ => delete id (w_tasks w) end)
    (w_orphans w) (mkEntry q now credential token r.1 :: w_log w).

(** A client that goes away drops what its task holds, but a verification that runs keeps
    its permit until it ends. *)
Definition cancel (t : Task) (w : World) (id : nat) : World :=
  let g := w_gate w in
  match t with
  | Reading _ _ _ => mkWorld g (delete id (w_tasks w)) (w_orphans w) (w_log w)
  | Waiting _ => mkWorld (set_waiting (waiting g + 1) g) (delete id (w_tasks w)) (w_orphans w) (w_log w)
  | Verifying _ => mkWorld (set_waiting (waiting g + 1) g) (delete id (w_tasks w)) (S (w_orphans w)) (w_log w)
  end.

Definition step (w : World) (i : Input * string * string) : World :=
  let '(i, token, nonce) := i in
  let g := w_gate w in
  match i with
  | Arrive id q now secure =>
      if bool_decide (w_tasks w !! id = None)
      then record id q now (offered (q_headers q)) token (arrive q now secure token nonce g) w else w
  | BodyOf id r =>
      match w_tasks w !! id with
      | Some (q, Reading q' now secure) =>
          record id q now (match r with ReadBytes b => login_key b | _ => None end) token
            (body_read q' now secure r token nonce g) w
      | _ => w
      end
  | PermitOf id r =>
      match w_tasks w !! id with
      | Some (q, Waiting a) =>
          if bool_decide (r = Acquired) && (verifying g <=? 0) then w
          else record id q (a_now a) (Some (a_credential a)) token (permitted a r token g) w
      | _ => w
      end
  | VerdictOf id joined =>
      match w_tasks w !! id with
      | Some (q, Verifying a) =>
          record id q (a_now a) (Some (a_credential a)) token (checked a joined token nonce g) w
      | _ => w
      end
  | Cancel id =>
      match w_tasks w !! id with Some (_, t) => cancel t w id | None => w end
  | OrphanDone =>
      match w_orphans w with
      | S n => mkWorld (set_verifying (verifying g + 1) g) (w_tasks w) n (w_log w)
      | O => w
      end
  end.
Definition run (g : Gate) (inputs : list (Input * string * string)) : World :=
  foldl step (mkWorld g ∅ 0 []) inputs.

(** ** What a phase does to the gate *)

(** A credential the verifier accepts, and one that has the same salted digest. *)
Definition genuine (g : Gate) (c : string) : Prop := bcrypt_verify c (verifier (g_config g)) = true.
Definition accepted (g : Gate) (c : string) : Prop :=
  ∃ c', genuine g c' ∧ digest_of g c' = digest_of g c.
Definition is_login (r : Progress) : bool :=
  match r with Answered r => p_status r =? 303 | _ => false end.
Definition lifetime : Z := from_secs (8 * 3600).

(** What never changes in a gate. *)
Definition same_gate (g g' : Gate) : Prop :=
  g_config g' = g_config g ∧ g_cookie g' = g_cookie g ∧ credential_salt g' = credential_salt g.
Lemma same_accepted g g' c : same_gate g g' → accepted g' c ↔ accepted g c.
Proof. intros (E1 & _ & E3). unfold accepted, genuine, digest_of. by rewrite E1, E3. Qed.
#[global] Instance same_gate_refl : Reflexive same_gate.
Proof. done. Qed.
#[global] Instance same_gate_trans : Transitive same_gate.
Proof. intros g g' g'' (? & ? & ?) (? & ? & ?). split_and!; congruence. Qed.

(** The cached digest is the digest of a credential the verifier accepted. *)
Definition verified_ok (g : Gate) : Prop :=
  ∀ d, verified g = Some d → ∃ c, genuine g c ∧ d = digest_of g c.
Lemma cached_accepted g c : verified_ok g → cached (digest_of g c) g = true → accepted g c.
Proof. intros Hv Hc%bool_decide_eq_true. destruct (Hv _ Hc) as (c' & ? & ?). by exists c'. Qed.

(** The effect of a phase with a result, for the credential it looked at. *)
Record effect (g : Gate) (now : Z) (credential : option string) (token : string)
    (r : Progress) (g' : Gate) : Prop := {
  ef_same : same_gate g g';
  ef_verified : verified_ok g';
  ef_sessions tok e : sessions g' !! tok = Some e →
    sessions g !! tok = Some e ∨
    tok = token ∧ e = now + lifetime ∧ is_login r = true ∧ ∃ c, credential = Some c ∧ accepted g c;
  ef_size : Z.of_nat (size (sessions g')) ≤ Z.max MAX_SESSIONS (Z.of_nat (size (sessions g))) }.

Lemma effect_idle g now credential token r g' :
  verified_ok g → same_gate g g' → verified g' = verified g → sessions g' = sessions g →
  effect g now credential token r g'.
Proof.
  intros Hv Hs Ev Es. split; [done| | |].
  - intros d Hd. rewrite Ev in Hd. destruct (Hv d Hd) as (c & ? & ?). exists c.
    destruct Hs as (E1 & _ & E3). unfold genuine, digest_of. by rewrite E1, E3.
  - rewrite Es. by left.
  - rewrite Es. lia.
Qed.
(** What a phase decides once the credential is known to be right. *)
Lemma finish_effect g now a token :
  verified_ok g → accepted g (a_credential a) → a_now a = now →
  effect g now (Some (a_credential a)) token (finish a token g).1 (finish a token g).2 ∧
  waiting (finish a token g).2 = waiting g ∧ verifying (finish a token g).2 = verifying g ∧
  (∀ t, (finish a token g).1 ≠ Pending t) ∧
  (∀ q, (finish a token g).1 = Forwarded q → a_login a = false ∧ q = unbear (a_consumes a) (a_request a)).
Proof.
  intros Hv Ha <-. unfold finish. destruct (a_login a); [destruct (MAX_SESSIONS <=? _) eqn:En|].
  1,3: split; [by apply effect_idle|]; split_and!; try done.
  { by intros q [= <-]. }
  split; [|done]. split; [done|done| |].
  - intros tok e. cbn [snd sessions set_sessions]. intros [[-> <-]|[_ He]]%lookup_insert_Some; [|by left].
    right. split_and!; [done|done|done|]. by exists (a_credential a).
  - cbn [snd sessions set_sessions]. rewrite map_size_insert. unfold id. case_match; lia.
Qed.

Definition holds_waiting (t : Task) : bool := match t with Reading _ _ _ => false | _ => true end.
Definition holds_verifying (t : Task) : bool := match t with Verifying _ => true | _ => false end.
Definition held (f : Task → bool) (r : Progress) : Z :=
  match r with Pending t => Z.b2z (f t) | _ => 0 end.

Lemma try_credential_effect q now secure login consumes credential token nonce g :
  verified_ok g → 0 ≤ waiting g →
  let r := try_credential q now secure login consumes credential token nonce g in
  effect g now credential token r.1 r.2 ∧
  (0 ≤ waiting r.2 ∧ waiting r.2 + held holds_waiting r.1 = waiting g) ∧
  (verifying r.2 = verifying g ∧ held holds_verifying r.1 = 0) ∧
  (∀ q', r.1 = Forwarded q' → ∃ c, credential = Some c ∧ accepted g c ∧ login = false ∧
    q' = unbear consumes q) ∧
  (∀ t, r.1 = Pending t → ∃ c, credential = Some c ∧
    t = Waiting (mkAttempt q now secure login consumes c (digest_of g c))).
Proof.
  intros Hv Hw. cbv zeta. unfold try_credential. destruct credential as [c|].
  2:{ split_and!; try done; [by apply effect_idle|simpl; lia]. }
  destruct (well_formed _ _); cbn [negb].
  2:{ unfold denied. split_and!; [by apply effect_idle|simpl; lia..| | |]; done. }
  set (a := mkAttempt _ _ _ _ _ _ _). destruct (cached _ _) eqn:Ec.
  - pose proof (cached_accepted g c Hv Ec) as Ha.
    destruct (finish_effect g now a token Hv Ha eq_refl) as (He & Ew & Evf & Hp & Hq).
    destruct (finish a token g) as [r g']. cbn [fst snd] in *.
    split_and!; [done|lia| |done| | |]; try (destruct r as [| |t]; try done; by destruct (Hp t)).
    + destruct r as [| |t]; simpl; [lia..|]. by destruct (Hp t).
    + intros q' E. destruct (Hq q' E) as [? ->]. by exists c.
  - destruct (waiting g =? 0) eqn:E0.
    { split_and!; try done; [by apply effect_idle|simpl; lia]. }
    split_and!; try done; [by apply effect_idle|simpl; lia..|].
    intros t [= <-]. by exists c.
Qed.

(** ** What is forwarded *)

(** A part of a cookie header the gate passes on, and one that names a live session. *)
Definition keeps (cookie part : string) : bool :=
  match split_once "=" part with Some (n, _) => negb (bool_decide (n = cookie)) | None => false end.
Definition names_session (cookie : string) (live : gmap string Z) (part : string) : bool :=
  match split_once "=" part with
  | Some (n, v) => bool_decide (n = cookie) && bool_decide (is_Some (live !! v))
  | None => false
  end.
Lemma scan_parts_spec cookie live parts : ∀ ok remaining,
  scan_parts cookie live ok remaining parts
  = (ok || existsb (names_session cookie live) parts, remaining ++ List.filter (keeps cookie) parts).
Proof.
  induction parts as [|p parts IH]; intros ok remaining; cbn [scan_parts existsb List.filter].
  { by rewrite orb_false_r, app_nil_r. }
  unfold names_session at 1, keeps at 1. destruct (split_once "=" p) as [[n v]|]; [|apply IH].
  case_bool_decide; rewrite IH; cbn [negb andb]; [by rewrite orb_assoc|]. by rewrite <- app_assoc.
Qed.

(** The request without the credentials of the gate: nothing else changes. *)
Record stripped (cookie : string) (q q' : Request) : Prop := {
  st_line : q_method q' = q_method q ∧ q_uri q' = q_uri q ∧ q_version q' = q_version q;
  st_body : q_body q' = q_body q;
  st_key : get_all "x-porthub-key" (q_headers q') = [];
  st_cookies : cookie_parts (q_headers q') = List.filter (keeps cookie) (cookie_parts (q_headers q));
  st_others n : existsb (eq_ignore_ascii_case n) ["cookie"; "x-porthub-key"; "authorization"] = false →
    get_all n (q_headers q') = get_all n (q_headers q) }.
Definition same_authorization (q q' : Request) : Prop :=
  get_all "authorization" (q_headers q') = get_all "authorization" (q_headers q).


Lemma take_cookies_spec g h :
  (take_cookies g h).1 = existsb (names_session (g_cookie g) (sessions g)) (cookie_parts h) ∧
  (∀ n, eq_ignore_ascii_case n "cookie" = false → get_all n (take_cookies g h).2 = get_all n h) ∧
  cookie_parts (remove_header "x-porthub-key" (take_cookies g h).2)
  = List.filter (keeps (g_cookie g)) (cookie_parts h).
Proof.
  unfold take_cookies. rewrite scan_parts_spec. cbn [fst snd app orb].
  set (ps := List.filter (keeps (g_cookie g)) (cookie_parts h)).
  assert (Forall cookie_part_ok ps) as Hps.
  { apply Forall_forall. intros p [Hp _]%list_elem_of_In%filter_In.
    pose proof (cookie_parts_ok h) as H0. rewrite Forall_forall in H0. by apply H0, list_elem_of_In. }
  rewrite join_text by done. cbn [negb]. rewrite orb_false_r. split; [done|].
  destruct (len ps =? 0) eqn:E0; split; try (intros n En; rewrite ?get_all_insert_ne by done;
    by rewrite get_all_remove_ne).
  - apply Z.eqb_eq in E0. destruct ps; [|simpl in E0; lia]. apply cookie_parts_none.
    rewrite get_all_remove_ne by done. apply get_all_remove_same.
  - apply cookie_parts_join; [by intros ->|done|]. rewrite get_all_remove_ne by done.
    apply get_all_insert_same.
Qed.

(** The credential of a request opens the gate, and the bearer key is then taken off. *)
Definition opens (q : Request) (c : string) (consumes : bool) : Prop :=
  get_text "x-porthub-key" (q_headers q) = Some c ∧ consumes = false ∨
  get_text "x-porthub-key" (q_headers q) = None ∧ bearer (q_headers q) = Some c ∧ consumes = true.
Definition by_credential (g : Gate) (q q' : Request) : Prop :=
  ∃ c, accepted g c ∧
    (get_text "x-porthub-key" (q_headers q) = Some c ∧ same_authorization q q' ∨
     get_text "x-porthub-key" (q_headers q) = None ∧ bearer (q_headers q) = Some c ∧
     get_all "authorization" (q_headers q') = []).
(** A part of its cookies names a session of the gate that has not expired. *)
Definition presents (g : Gate) (q : Request) (token : string) : Prop :=
  ∃ part, part ∈ cookie_parts (q_headers q) ∧ split_once "=" part = Some (g_cookie g, token).
Definition by_session (g : Gate) (now : Z) (q q' : Request) : Prop :=
  same_authorization q q' ∧
  ∃ token e, presents g q token ∧ sessions g !! token = Some e ∧ now < e.

Definition attempt_ok (g : Gate) (q : Request) (a : Attempt) : Prop :=
  a_digest a = digest_of g (a_credential a) ∧
  (a_login a = false → stripped (g_cookie g) q (a_request a) ∧ same_authorization q (a_request a) ∧
     opens q (a_credential a) (a_consumes a)).
Definition task_ok (g : Gate) (q : Request) (t : Task) : Prop :=
  match t with Reading _ _ _ => True | Waiting a | Verifying a => attempt_ok g q a end.

Lemma unbear_stripped cookie q q' b : stripped cookie q q' → stripped cookie q (unbear b q').
Proof.
  intros [H1 H2 H3 H4 H5]. destruct b; [|done]. split; cbn [q_headers set_headers unbear]; try done.
  - by rewrite get_all_remove_ne.
  - rewrite <- H4. unfold cookie_parts, header_texts. by rewrite get_all_remove_ne.
  - intros n En. rewrite get_all_remove_ne; [by apply H5|].
    cbn [existsb] in En. rewrite !orb_false_iff in En. apply En.
Qed.
Lemma attempt_forward g q a :
  attempt_ok g q a → a_login a = false → accepted g (a_credential a) →
  stripped (g_cookie g) q (unbear (a_consumes a) (a_request a)) ∧
  by_credential g q (unbear (a_consumes a) (a_request a)).
Proof.
  intros [_ Ha] El Hc. destruct (Ha El) as (Hs & Hauth & Ho). split; [by apply unbear_stripped|].
  exists (a_credential a). split; [done|]. destruct Ho as [[? ->]|(? & ? & ->)]; [by left|right].
  split_and!; [done..|]. apply get_all_remove_same.
Qed.

(** What one phase of the request [q0] does: whether it is the first one, and the permits
    [hw] and [hv] the request held. *)
Record phase (first : bool) (g : Gate) (q0 : Request) (now : Z) (credential : option string) (token : string)
    (hw hv : Z) (r : Progress * Gate) : Prop := {
  ph_effect : effect g now credential token r.1 r.2;
  ph_nonneg : 0 ≤ waiting r.2 ∧ 0 ≤ verifying r.2;
  ph_waiting : waiting r.2 + held holds_waiting r.1 = waiting g + hw;
  ph_verifying : verifying r.2 + held holds_verifying r.1 = verifying g + hv;
  ph_forward q' : r.1 = Forwarded q' →
    stripped (g_cookie g) q0 q' ∧
    (first = true ∧ by_session g now q0 q' ∨ by_credential g q0 q');
  ph_task t : r.1 = Pending t → task_ok g q0 t }.

Definition gate_ready (g : Gate) : Prop := verified_ok g ∧ 0 ≤ waiting g ∧ 0 ≤ verifying g.

Lemma try_credential_phase first q0 q now secure login consumes credential token nonce g :
  gate_ready g →
  (login = false → stripped (g_cookie g) q0 q ∧ same_authorization q0 q ∧
     ∀ c, credential = Some c → opens q0 c consumes) →
  phase first g q0 now credential token 0 0 (try_credential q now secure login consumes credential token nonce g).
Proof.
  intros (Hv & Hw & Hvf) Hq.
  destruct (try_credential_effect q now secure login consumes credential token nonce g Hv Hw)
    as (He & [Hw1 Hw2] & [Hv1 Hv2] & Hf & Ht).
  split; [done|lia|lia|lia| |].
  - intros q' E. destruct (Hf q' E) as (c & -> & Hc & El & ->).
    destruct (Hq El) as (H1 & H2 & H3). specialize (H3 c eq_refl).
    destruct (attempt_forward g q0 (mkAttempt q now secure login consumes c (digest_of g c))); [|done..|].
    { by split. }
    split; [done|by right].
  - intros t E. destruct (Ht t E) as (c & -> & ->). split; [done|]. intros El.
    destruct (Hq El) as (H1 & H2 & H3). by split_and!; [| |apply H3].
Qed.

(** A phase that follows the removal of sessions. *)
Lemma phase_purged first (f : gmap string Z) g q0 now credential token hw hv r :
  f ⊆ sessions g → phase first (set_sessions f g) q0 now credential token hw hv r →
  phase first g q0 now credential token hw hv r.
Proof.
  intros Hf [[Hs Hv Hss Hn] Hnn Hw Hvf Hfw Ht]. split; try done.
  - split; try done.
    + intros tok e E. destruct (Hss tok e E) as [E'|E']; [left|by right]. by eapply lookup_weaken.
    + pose proof (map_subseteq_size _ _ Hf). cbn [sessions set_sessions] in Hn. lia.
  - intros q' E. destruct (Hfw q' E) as [H1 [(H0 & H2 & tok & e & H3 & H4 & H5)|H2]]; split; try done.
    + left. do 2 (split; [done|]). exists tok, e. split_and!; try done. by eapply lookup_weaken.
    + by right.
Qed.

Lemma arrive_phase q now secure token nonce g :
  gate_ready g →
  phase true g q now (offered (q_headers q)) token 0 0 (arrive q now secure token nonce g).
Proof.
  intros Hg. unfold arrive. set (g1 := set_sessions _ g).
  assert (gate_ready g1) as Hg1 by done.
  destruct (take_cookies_spec g1 (q_headers q)) as (Hok & Hh & Hc).
  destruct (take_cookies g1 (q_headers q)) as [ok h] eqn:Et. cbn [fst snd] in *.
  assert (get_text "x-porthub-key" h = get_text "x-porthub-key" (q_headers q)) as ->.
  { unfold get_text, get_header. by rewrite Hh. }
  set (q1 := set_headers (remove_header "x-porthub-key" h) q).
  assert (stripped (g_cookie g) q q1) as Hs.
  { split; try done; [apply get_all_remove_same|].
    intros n. cbn [existsb]. rewrite !orb_false_iff. intros (E1 & E2 & _). cbn [q_headers set_headers q1].
    rewrite get_all_remove_ne by done. by apply Hh. }
  assert (same_authorization q q1) as Ha.
  { unfold same_authorization. cbn [q_headers set_headers q1]. rewrite get_all_remove_ne by done. by apply Hh. }
  assert (bearer (q_headers q1) = bearer (q_headers q)) as Hb.
  { unfold bearer, get_text, get_header. by rewrite Ha. }
  clearbody q1. apply (phase_purged true (sessions g1)); [apply map_filter_subseteq|]. fold g1.
  change (g_cookie g) with (g_cookie g1) in Hs. set (login := bool_decide _ && _).
  destruct (ok && negb login) eqn:Eok; [|destruct login eqn:El].
  - apply andb_true_iff in Eok as [-> _]. symmetry in Hok.
    apply existsb_exists in Hok as (part & Hp & Hn). apply list_elem_of_In in Hp.
    unfold names_session in Hn. destruct (split_once "=" part) as [[n v]|] eqn:Ep; [|done].
    apply andb_true_iff in Hn as [->%bool_decide_eq_true Hn]. apply bool_decide_eq_true in Hn as [e He].
    split; cbn [fst snd]; try (simpl; lia || done).
    + apply effect_idle; [apply Hg1|done..].
    + by destruct Hg1 as (_ & ? & ?).
    + intros q' [= <-]. split; [done|]. left. do 2 (split; [done|]). exists v, e. split_and!; [|done|].
      * by exists part.
      * cbn [sessions g1 set_sessions] in He. by apply map_lookup_filter_Some in He as [_ He].
  - split; cbn [fst snd]; try (simpl; lia || done).
    + apply effect_idle; [apply Hg1|done..].
    + by destruct Hg1 as (_ & ? & ?).
    + by intros t [= <-].
  - rewrite Hb. unfold offered. destruct (get_text "x-porthub-key" (q_headers q)) as [c|] eqn:Ek.
    + rewrite (bool_decide_false (Some c = None)) by done.
      apply try_credential_phase; [done|]. intros _. split_and!; try done. intros c' [= <-]. by left.
    + rewrite (bool_decide_true (None = None)) by done. cbn [andb negb].
      apply try_credential_phase; [done|]. intros _. split_and!; try done.
      intros c' Ec. right. by rewrite Ec.
Qed.

Lemma body_read_phase q0 q now secure r token nonce g :
  gate_ready g →
  phase false g q0 now (match r with ReadBytes b => login_key b | _ => None end) token 0 0
    (body_read q now secure r token nonce g).
Proof.
  intros Hg. destruct r; cbn [body_read].
  3: by apply try_credential_phase.
  all: split; cbn [fst snd]; try (simpl; lia || done); [apply effect_idle; [apply Hg|done..]|by destruct Hg].
Qed.

(** The end of an attempt whose credential is accepted, after its permits were given back. *)
Lemma finish_phase g g' q0 a token hw hv :
  gate_ready g → same_gate g g' → verified_ok g' → sessions g' = sessions g →
  attempt_ok g q0 a → accepted g (a_credential a) →
  0 ≤ waiting g' → 0 ≤ verifying g' → waiting g' = waiting g + hw → verifying g' = verifying g + hv →
  phase false g q0 (a_now a) (Some (a_credential a)) token hw hv (finish a token g').
Proof.
  intros Hg Hs Hv' Es Ha Hc Hw Hvf Ew Ev.
  assert (accepted g' (a_credential a)) as Hc' by by apply (same_accepted g g').
  destruct (finish_effect g' (a_now a) a token Hv' Hc' eq_refl) as ([E1 E2 E3 E4] & E5 & E6 & E7 & E8).
  destruct (finish a token g') as [r g'']. cbn [fst snd] in *.
  assert (held holds_waiting r = 0 ∧ held holds_verifying r = 0) as [Hh1 Hh2].
  { destruct r as [| |t]; try done. by destruct (E7 t). }
  split; cbn [fst snd]; try lia.
  - split; [by etrans|done| |by rewrite Es in E4].
    intros tok e E. destruct (E3 tok e E) as [E'|(-> & -> & ? & c & ? & ?)]; [left; by rewrite Es in E'|right].
    split_and!; try done. exists c. split; [done|]. by apply (same_accepted g g').
  - intros q' ->. destruct (E8 q' eq_refl) as [El ->].
    destruct (attempt_forward g q0 a Ha El Hc). split; [done|by right].
  - intros t ->. by destruct (E7 t).
Qed.

Lemma permitted_phase q0 a r token g :
  gate_ready g → attempt_ok g q0 a → (r = Acquired → 0 < verifying g) →
  phase false g q0 (a_now a) (Some (a_credential a)) token 1 0 (permitted a r token g).
Proof.
  intros Hg Ha Hr. pose proof Hg as (Hv & Hw & Hvf). destruct r; cbn [permitted].
  - destruct (cached (a_digest a) g) eqn:Ec.
    + apply (finish_phase g); cbn [waiting verifying set_waiting]; try done; try lia.
      apply cached_accepted; [done|]. by rewrite <- (proj1 Ha).
    + specialize (Hr eq_refl). split; cbn [fst snd]; try (simpl; lia || done).
      * by apply effect_idle.
      * by intros t [= <-].
  - split; cbn [fst snd]; try (simpl; lia || done). by apply effect_idle.
  - split; cbn [fst snd]; try (simpl; lia || done). by apply effect_idle.
Qed.

Lemma checked_phase q0 a joined token nonce g :
  gate_ready g → attempt_ok g q0 a →
  phase false g q0 (a_now a) (Some (a_credential a)) token 1 1 (checked a joined token nonce g).
Proof.
  intros Hg Ha. pose proof Hg as (Hv & Hw & Hvf). unfold checked.
  destruct joined; cbn [negb].
  2:{ split; cbn [fst snd]; try (simpl; lia || done). by apply effect_idle. }
  destruct (bcrypt_verify _ _) eqn:Eb; cbn [negb g_config set_waiting set_verifying] in *.
  2:{ split; cbn [fst snd]; try (simpl; lia || done). by apply effect_idle. }
  apply (finish_phase g); cbn [waiting verifying set_waiting set_verifying set_verified]; try done; try lia.
  - intros d [= <-]. exists (a_credential a). split; [done|apply Ha].
  - by exists (a_credential a).
Qed.

(** ** The invariant of the gate and its requests *)

Definition count (f : Task → bool) (m : gmap nat (Request * Task)) : Z :=
  Z.of_nat (size (filter (λ x, f x.2.2 = true) m)).
Lemma count_delete f id q t m :
  m !! id = Some (q, t) → count f (delete id m) = count f m - Z.b2z (f t).
Proof.
  intros E. unfold count. rewrite map_filter_delete. destruct (f t) eqn:Ef.
  - assert (filter (λ x, f x.2.2 = true) m !! id = Some (q, t)) as Hl by by apply map_lookup_filter_Some.
    pose proof (map_size_delete_Some id _ (mk_is_Some _ _ Hl)) as H0.
    pose proof (map_size_ne_0_lookup_2 _ id (mk_is_Some _ _ Hl)). simpl. lia.
  - rewrite delete_id; [simpl; lia|]. apply map_lookup_filter_None. right. intros x Hx.
    rewrite E in Hx. injection Hx as <-. simpl. congruence.
Qed.
Lemma count_insert f id q t m :
  m !! id = None → count f (<[id := (q, t)]> m) = count f m + Z.b2z (f t).
Proof.
  intros E. unfold count. destruct (f t) eqn:Ef.
  - rewrite map_filter_insert_True by done. rewrite map_size_insert_None; [simpl; lia|].
    apply map_lookup_filter_None. by left.
  - rewrite map_filter_insert_False by (simpl; congruence). rewrite delete_id by done. simpl. lia.
Qed.

(** The tasks after a phase hold what the phase leaves. *)
Lemma count_record f id q r m :
  count f (match r with Pending t => <[id := (q, t)]> m | _ => delete id m end)
  = count f (delete id m) + held f r.
Proof.
  destruct r as [| |t]; simpl; try lia. rewrite <- insert_delete_eq. apply count_insert, lookup_delete_eq.
Qed.

(** The request of an entry was forwarded rightly: by a session some earlier login opened
    less than eight hours before, or by its own credential. *)
Definition authorised (g : Gate) (older : list Entry) (e : Entry) (q' : Request) : Prop :=
  (same_authorization (en_origin e) q' ∧
   ∃ login c, presents g (en_origin e) (en_token login) ∧ login ∈ older ∧ is_login (en_result login) = true ∧
     en_credential login = Some c ∧ accepted g c ∧ en_now e < en_now login + lifetime) ∨
  by_credential g (en_origin e) q'.
Definition entry_ok (g : Gate) (older : list Entry) (e : Entry) : Prop :=
  ∀ q', en_result e = Forwarded q' → stripped (g_cookie g) (en_origin e) q' ∧ authorised g older e q'.
Fixpoint log_ok (g : Gate) (log : list Entry) : Prop :=
  match log with [] => True | e :: older => entry_ok g older e ∧ log_ok g older end.

Record world_ok (g : Gate) (w : World) : Prop := {
  wo_same : same_gate g (w_gate w);
  wo_ready : gate_ready (w_gate w);
  wo_tasks id q t : w_tasks w !! id = Some (q, t) → task_ok g q t;
  wo_sessions tok e : sessions (w_gate w) !! tok = Some e →
    ∃ login c, login ∈ w_log w ∧ is_login (en_result login) = true ∧ en_token login = tok ∧
      e = en_now login + lifetime ∧ en_credential login = Some c ∧ accepted g c;
  wo_log : log_ok g (w_log w);
  wo_size : Z.of_nat (size (sessions (w_gate w))) ≤ MAX_SESSIONS;
  wo_waiting : waiting (w_gate w) + count holds_waiting (w_tasks w) = MAX_WAITING;
  wo_verifying : verifying (w_gate w) + count holds_verifying (w_tasks w) + Z.of_nat (w_orphans w) = 1 }.

Lemma same_task g g' q t : same_gate g g' → task_ok g' q t ↔ task_ok g q t.
Proof. intros (E1 & E2 & E3). destruct t; unfold task_ok, attempt_ok, digest_of; by rewrite ?E2, ?E3. Qed.

Lemma record_ok g first w id q now credential token hw hv r :
  world_ok g w → phase first (w_gate w) q now credential token hw hv r →
  count holds_waiting (delete id (w_tasks w)) = count holds_waiting (w_tasks w) - hw →
  count holds_verifying (delete id (w_tasks w)) = count holds_verifying (w_tasks w) - hv →
  world_ok g (record id q now credential token r w).
Proof.
  intros [Hs (Hv & _) Ht Hss Hl Hn Hw Hvf] [[E1 E2 E3 E4] Hnn Ew Ev Hfw Htask] Hcw Hcv.
  split; cbn [record w_gate w_tasks w_orphans w_log].
  - by etrans.
  - by split.
  - intros id' q' t'. assert (delete id (w_tasks w) !! id' = Some (q', t') → task_ok g q' t') as Hold.
    { intros [_ E]%lookup_delete_Some. by apply (Ht id'). }
    destruct r as [[| |t] g']; cbn [fst snd] in *; try exact Hold.
    rewrite <- insert_delete_eq. intros [[<- [= <- <-]]|[_ E]]%lookup_insert_Some; [|by apply Hold].
    apply (same_task g (w_gate w)); [done|]. by apply Htask.
  - intros tok e E. destruct (E3 tok e E) as [E'|(-> & -> & Hi & c & -> & Hc)].
    + destruct (Hss tok e E') as (login & c & ? & H0). exists login, c. split; [by right|done].
    + exists (mkEntry q now (Some c) token r.1), c. split_and!; try done; [by left|].
      by apply (same_accepted g (w_gate w)).
  - split; [|done]. intros q' Eq. cbn [en_result en_origin] in *. destruct (Hfw q' Eq) as [Hst Hby].
    pose proof Hs as (Ec & Ek & Ep). split; [by rewrite Ek in Hst|].
    destruct Hby as [(_ & Ha & tok & e & (part & Hp & Hpt) & Hlive & He)|(c & Hc & Hby)].
    + destruct (Hss tok e Hlive) as (login & c & ? & ? & <- & -> & ? & ?). left. split; [done|].
      exists login, c. split_and!; try done. exists part. by rewrite Ek in Hpt.
    + right. exists c. split; [by apply (same_accepted g (w_gate w))|done].
  - lia.
  - rewrite count_record. lia.
  - rewrite count_record. lia.
Qed.

Lemma count_nonneg f m : 0 ≤ count f m.
Proof. unfold count. lia. Qed.

Lemma cancel_ok g w id q t :
  world_ok g w → w_tasks w !! id = Some (q, t) → world_ok g (cancel t w id).
Proof.
  intros [Hs (Hv & Hw0 & Hv0) Ht Hss Hl Hn Hw Hvf] E.
  pose proof (count_delete holds_waiting id q t (w_tasks w) E) as Ew.
  pose proof (count_delete holds_verifying id q t (w_tasks w) E) as Ev.
  assert (∀ id' q' t', delete id (w_tasks w) !! id' = Some (q', t') → task_ok g q' t') as Hold.
  { intros id' q' t' [_ E']%lookup_delete_Some. by apply (Ht id'). }
  destruct t; cbn [holds_waiting holds_verifying Z.b2z] in Ew, Ev; cbn [cancel];
    (split; cbn [w_gate w_tasks w_orphans w_log waiting verifying set_waiting sessions]; try done; try lia);
    split_and!; try done; cbn [waiting verifying set_waiting]; lia.
Qed.

Lemma gate_step_ok g w i : world_ok g w → world_ok g (step w i).
Proof.
  destruct i as [[i token] nonce]. intros Hok. pose proof Hok as [Hs Hr Ht _ _ _ _ Hvf].
  assert (∀ id q t, w_tasks w !! id = Some (q, t) → task_ok (w_gate w) q t) as Ht'.
  { intros id q t E. apply (same_task g (w_gate w)); [done|]. by apply (Ht id). }
  destruct i as [id q now secure|id r|id r|id joined|id|]; cbn [step].
  - case_bool_decide as E; [|done]. apply (record_ok g true w id q now _ token 0 0); [done|by apply arrive_phase|..];
      rewrite delete_id by done; lia.
  - destruct (w_tasks w !! id) as [[q [q' now secure| |]]|] eqn:E; try done.
    apply (record_ok g false w id q now _ token 0 0); [done|by apply body_read_phase|..];
      rewrite (count_delete _ id q _ _ E); simpl; lia.
  - destruct (w_tasks w !! id) as [[q [|a|]]|] eqn:E; try done.
    destruct (bool_decide (r = Acquired) && _) eqn:Eb; [done|].
    apply (record_ok g false w id q _ _ token 1 0); [done| |rewrite (count_delete _ id q _ _ E); simpl; lia..].
    apply permitted_phase; [done|exact (Ht' id q _ E)|]. intros ->.
    rewrite bool_decide_true in Eb by done. cbn [andb] in Eb. lia.
  - destruct (w_tasks w !! id) as [[q [| |a]]|] eqn:E; try done.
    apply (record_ok g false w id q _ _ token 1 1); [done| |rewrite (count_delete _ id q _ _ E); simpl; lia..].
    apply checked_phase; [done|exact (Ht' id q _ E)].
  - destruct (w_tasks w !! id) as [[q t]|] eqn:E; [|done]. by eapply cancel_ok.
  - destruct (w_orphans w) as [|n] eqn:Eo; [done|]. destruct Hok. rewrite Eo in *.
    split; cbn [w_gate w_tasks w_orphans w_log]; try done.
    + destruct Hr as (? & ? & ?). split_and!; cbn; try done. lia.
    + cbn [verifying set_verifying]. lia.
Qed.

Lemma gate_new_ready id config uuid g :
  gate_new id config uuid = Ok g → gate_ready g ∧ g = mkGate config (g_cookie g) ∅ 1 MAX_WAITING uuid None.
Proof.
  unfold gate_new. intros E. apply rbind_ok in E as (cost & _ & E). apply rbind_ok in E as (_ & _ & E).
  apply rbind_ok in E as (hd & _ & E). injection E as <-. by split.
Qed.
Lemma gate_run_ok id config uuid g inputs :
  gate_new id config uuid = Ok g → world_ok g (run g inputs).
Proof.
  intros Hn. unfold run. assert (world_ok g (mkWorld g ∅ 0 [])) as H0.
  { apply gate_new_ready in Hn as [Hr ->]. by split. }
  revert H0. generalize (mkWorld g ∅ 0 []). induction inputs as [|i inputs IH]; intros w Hw; [done|].
  cbn [foldl]. apply IH. by apply gate_step_ok.
Qed.

(** ** One call of [authorize] *)

(** What others may do meanwhile, as long as they are requests of this gate. *)
Definition env_ok (env : GateEnv) (g0 : Gate) : Prop :=
  ∀ t g, same_gate g0 g → gate_ready g →
    same_gate g0 (ge_others env t g) ∧ gate_ready (ge_others env t g) ∧
    (ge_permit env = Acquired → 0 < verifying (ge_others env t g)).

(** How many awaits are left. *)
Definition rank (r : Progress) : nat :=
  match r with
  | Pending (Reading _ _ _) => 3
  | Pending (Waiting _) => 2
  | Pending (Verifying _) => 1
  | _ => 0
  end.
Lemma finish_rank a token g : rank (finish a token g).1 = 0%nat.
Proof. unfold finish. by repeat case_match. Qed.
Lemma try_credential_rank q now secure login consumes c token nonce g :
  (rank (try_credential q now secure login consumes c token nonce g).1 ≤ 2)%nat.
Proof. unfold try_credential. repeat case_match; rewrite ?finish_rank; simpl; lia. Qed.
Lemma resume_rank env t g : (rank (resume env t g).1 < rank (Pending t))%nat.
Proof.
  destruct t; cbn [resume rank].
  - unfold body_read. case_match; simpl; try lia. pose proof try_credential_rank as Hle.
    eapply Nat.le_lt_trans; [apply Hle|lia].
  - unfold permitted. repeat case_match; rewrite ?finish_rank; simpl; lia.
  - unfold checked. repeat case_match; rewrite ?finish_rank; simpl; lia.
Qed.

Lemma resume_phase env t g q0 :
  gate_ready g → task_ok g q0 t → (ge_permit env = Acquired → 0 < verifying g) →
  ∃ now c tok hw hv, phase false g q0 now c tok hw hv (resume env t g).
Proof.
  intros Hg Ht Hp. destruct t as [q now secure|a|a]; cbn [resume task_ok] in *; do 5 eexists.
  - by apply body_read_phase.
  - by apply permitted_phase.
  - by apply checked_phase.
Qed.

Lemma settle_ok env g0 q0 fuel : ∀ r,
  env_ok env g0 → (rank r.1 ≤ fuel)%nat → same_gate g0 r.2 → gate_ready r.2 →
  (∀ t, r.1 = Pending t → task_ok g0 q0 t) →
  ∃ x g', settle fuel env r = Ok (x, g') ∧ same_gate g0 g' ∧ gate_ready g' ∧
    (∀ q', x = inl q' → r.1 = Forwarded q' ∨ stripped (g_cookie g0) q0 q' ∧ by_credential g0 q0 q').
Proof.
  induction fuel as [|fuel IH]; intros [[q|p|t] g] He Hf Hs Hr Ht; cbn [settle fst snd] in *.
  1,4: exists (inl q), g; split_and!; try done; intros q' [= ->]; by left.
  1,3: by exists (inr p), g.
  { destruct t; simpl in Hf; lia. }
  pose proof (resume_rank env t (ge_others env t g)) as Hlt.
  destruct (He t g Hs Hr) as (Hs' & Hr' & Hp). specialize (Ht t eq_refl).
  apply (same_task g0 (ge_others env t g)) in Ht; [|done].
  destruct (resume_phase env t (ge_others env t g) q0 Hr' Ht Hp) as (now & c & tok & hw & hv & [E Hn _ _ Hfw Htk]).
  destruct (IH (resume env t (ge_others env t g))) as (x & g' & -> & Hs2 & Hr2 & Hx); [done|lia| | | |].
  - etrans; [exact Hs'|apply E].
  - split; [apply E|done].
  - intros t' E'. apply (same_task g0 (ge_others env t g)); [done|]. by apply Htk.
  - exists x, g'. split_and!; try done. intros q' ->. right. destruct (Hx q' eq_refl) as [E'|?]; [|done].
    destruct (Hfw q' E') as [H1 [[? _]|(c' & H2 & H3)]]; [done|]. pose proof Hs' as (_ & Ek & _).
    rewrite Ek in H1. split; [done|]. exists c'. split; [by apply (same_accepted g0 (ge_others env t g))|done].
Qed.

(** [authorize] always answers, and forwards only what its gate allows. *)
Lemma authorize_ok env q secure g :
  gate_ready g → env_ok env g →
  ∃ x g', authorize env q secure g = Ok (x, g') ∧ same_gate g g' ∧ gate_ready g' ∧
    (∀ q', x = inl q' → stripped (g_cookie g) q q' ∧ (by_session g (ge_now env) q q' ∨ by_credential g q q')).
Proof.
  intros Hg He. unfold authorize.
  destruct (arrive_phase q (ge_now env) secure (ge_token env) (ge_nonce env) g Hg) as [E Hn _ _ Hfw Ht].
  set (r := arrive _ _ _ _ _ _) in *.
  assert (rank r.1 ≤ 3)%nat as Hr by (destruct r.1 as [| |[]]; simpl; lia).
  destruct (settle_ok env g q 3 r) as (x & g' & -> & Hs & Hr' & Hx); [done..| | | |].
  - apply E.
  - split; [apply E|done].
  - intros t Et. apply (same_task g g); [done|]. by apply Ht.
  - exists x, g'. split_and!; try done. intros q' ->. destruct (Hx q' eq_refl) as [Eq|[? ?]]; [|by split; [|right]].
    destruct (Hfw q' Eq) as [Hst [[_ ?]|?]]; (split; [exact Hst|]); [by left|by right].
Qed.

(** ** Properties *)

Lemma log_ok_app g newer e older : log_ok g (newer ++ e :: older) → entry_ok g older e.
Proof. induction newer as [|x newer IH]; cbn; [by intros [? _]|]. intros [_ ?]. by apply IH. Qed.

(** C23. The access gate: in every run of a gate, with any interleaving of requests, verifier
    answers and cancellations, a request that is forwarded either names a session opened
    less than eight hours before by a login with an accepted credential, or carries an
    accepted credential itself; and it leaves without the gate's cookie and key and, when
    its bearer key opened the gate, without that, but otherwise unchanged. *)
Theorem gate_authorises id config uuid g inputs newer e older q' :
  gate_new id config uuid = Ok g →
  w_log (run g inputs) = newer ++ e :: older → en_result e = Forwarded q' →
  stripped (g_cookie g) (en_origin e) q' ∧ authorised g older e q'.
Proof.
  intros Hn El Er. destruct (gate_run_ok id config uuid g inputs Hn) as [_ _ _ _ Hlog _ _ _].
  rewrite El in Hlog. by apply (log_ok_app g newer e older).
Qed.

(** The work a gate takes on is bounded: in every run at most one verification runs at a
    time, also counting those whose client is gone, at most 64 requests hold a place in
    front of the verifier and at most 4096 sessions are kept; and once no request is in
    flight every permit is back. *)
Theorem gate_bounded id config uuid g inputs :
  gate_new id config uuid = Ok g →
  let w := run g inputs in
  count holds_verifying (w_tasks w) + Z.of_nat (w_orphans w) ≤ 1 ∧
  count holds_waiting (w_tasks w) ≤ 64 ∧
  Z.of_nat (size (sessions (w_gate w))) ≤ 4096 ∧
  (w_tasks w = ∅ → w_orphans w = O → waiting (w_gate w) = 64 ∧ verifying (w_gate w) = 1).
Proof.
  intros Hn w. destruct (gate_run_ok id config uuid g inputs Hn) as [_ (_ & Hw & Hv) _ _ _ Hs Ew Ev].
  fold w in Hw, Hv, Hs, Ew, Ev. change MAX_WAITING with 64 in Ew. change MAX_SESSIONS with 4096 in Hs. split_and!; [lia..|].
  intros Et Eo. unfold count in Ew, Ev. rewrite Et, map_filter_empty, map_size_empty in Ew, Ev.
  rewrite Eo in Ev. simpl in Ew, Ev. lia.
Qed.
End gate.

(** ** Witnesses *)

Module Samples.
#[export] Existing Instance sample_http.
(** A verifier that compares, a digest that keeps the first bytes. *)
Definition pad (l : list Z) : list Z := take 32 (l ++ replicate 32 0).
Lemma pad_len l : len (pad l) = 32.
Proof. unfold pad. rewrite length_take, length_app, length_replicate. lia. Qed.
#[export] Instance libs : GateLibs := {
  hash_cost _ := Some 10; bcrypt_verify := String.eqb; sha256 := pad; sha256_len := pad_len;
  form_pairs b := [("key", str_of_bytes b)] }.
Definition config : AccessConfig := mkAccess "123456" true.
Definition gate : Gate := mkGate config ("porthub_access_" +:+ "6162000000000000") ∅ 1 64 [] None.
Definition login : Request := mkRequest "POST" "/_porthub/access" "HTTP/1.1" ∅ false.
Definition visit : Request :=
  mkRequest "GET" "/" "HTTP/1.1" (insert_header "cookie" "porthub_access_6162000000000000=t; a=b" ∅) true.
(** A login, and a visit with the token it got. *)
Definition inputs : list (Input * string * string) :=
  [(Arrive 0 login 0 true, "t", ""); (BodyOf 0 (ReadBytes (bytes_of "123456")), "t", "");
   (PermitOf 0 Acquired, "t", ""); (VerdictOf 0 true, "t", ""); (Arrive 1 visit 5 true, "u", "")].
Definition forwarded : Request :=
  mkRequest "GET" "/" "HTTP/1.1"
    (remove_header "x-porthub-key" (insert_header "cookie" "a=b" (remove_header "cookie" (q_headers visit)))) true.
Definition entry : Entry := mkEntry visit 5 None "u" (Forwarded forwarded).
End Samples.
#[local] Existing Instances sample_http Samples.libs.

Lemma gate_authorises_witness :
  stripped (g_cookie Samples.gate) Samples.visit Samples.forwarded ∧
  authorised Samples.gate (tail (w_log (run Samples.gate Samples.inputs)))
    Samples.entry Samples.forwarded.
Proof.
  apply (gate_authorises "ab" Samples.config [] Samples.gate Samples.inputs [] Samples.entry).
  - by_vm.
  - by_vm.
  - reflexivity.
Defined.

Lemma gate_bounded_witness :
  count holds_verifying (w_tasks (run Samples.gate Samples.inputs))
    + Z.of_nat (w_orphans (run Samples.gate Samples.inputs)) ≤ 1 ∧
  count holds_waiting (w_tasks (run Samples.gate Samples.inputs)) ≤ 64 ∧
  Z.of_nat (size (sessions (w_gate (run Samples.gate Samples.inputs)))) ≤ 4096 ∧
  (w_tasks (run Samples.gate Samples.inputs) = ∅ → w_orphans (run Samples.gate Samples.inputs) = O →
   waiting (w_gate (run Samples.gate Samples.inputs)) = 64 ∧
   verifying (w_gate (run Samples.gate Samples.inputs)) = 1).
Proof. apply (gate_bounded "ab" Samples.config [] Samples.gate Samples.inputs). by_vm. Defined.
