(* ===== verification/HttpProxy.v ===== *)
(** * The streaming HTTP proxy ([porthub-runtime/src/proxy.rs])

    A proxy rewrites a request for its service (target, version, hop-by-hop headers,
    [Host] and [Authorization]) and gives back what the service answers.  URLs are the
    class [UrlLibs]; what the HTTP client does with the rewritten request is an argument. *)

From S2P Require Import Prelude Net RustStr Text Http Gate.
Local Open Scope string_scope.
Local Open Scope list_scope.
Local Open Scope Z_scope.

Class UrlLibs `{H : HttpLibs} := {
  Url : Type;
  url_parse : string → option Url;
  url_scheme : Url → string;
  url_has_host : Url → bool;
  url_username : Url → string;
  url_password : Url → option string;
  without_fragment : Url → Url;
  set_username : string → Url → option Url;
  set_password : option string → Url → option Url;
  url_str : Url → string;
  (** [percent_decode_str(s).decode_utf8()] and standard Base64 of a text *)
  percent_decode : string → option string;
  base64_encode : string → string;
  (** [uri.path_and_query()], [hyperlocal::Uri::new] *)
  path_and_query : Uri → option string;
  unix_uri : string → string → Uri;
  (** The setters keep the host; the URI of a URL with a host has a scheme and an authority. *)
  without_fragment_host u : url_has_host (without_fragment u) = url_has_host u;
  set_username_host s u v : set_username s u = Some v → url_has_host v = url_has_host u;
  set_password_host s u v : set_password s u = Some v → url_has_host v = url_has_host u;
  url_uri u b : url_has_host u = true → parse_uri (url_str u) = Some b →
    is_Some (uri_scheme b) ∧ is_Some (uri_authority b);
}.

(** [ForwardError], with its [reason]. *)
Inductive ForwardError := Transport | ResponseTimeout.
Definition error_reason (e : ForwardError) : string :=
  match e with Transport => "connection_error" | ResponseTimeout => "response_timeout" end.

Section proxy.
Context `{H : HttpLibs} `{U : !UrlLibs} `{L : GateLibs}.

Inductive Target :=
  | Unix (path : string)
  | Network (base : Uri) (pass_host : bool) (authorization : option string).
Record HttpProxy := mkProxy { hp_target : Target; hp_access : option Gate }.

(** ** Construction *)

Definition unix (path : string) : HttpProxy := mkProxy (Unix path) None.
Definition basic_authorization (u : Url) : res (option string) :=
  if negb (str_is_empty (url_username u)) || bool_decide (is_Some (url_password u)) then
    let! username := ok_or (percent_decode (url_username u)) "utf8" in
    let! password := ok_or (percent_decode (default "" (url_password u))) "utf8" in
    let value := "Basic " +:+ base64_encode (username +:+ ":" +:+ password) in
    ensure! is_text value else "invalid header value" in
    Ok (Some value)
  else Ok None.
Definition web (base : string) (pass_host : bool) : res HttpProxy :=
  let! url := ok_or (url_parse base) "invalid URL" in
  ensure! (bool_decide (url_scheme url = "http") || bool_decide (url_scheme url = "https"))
          && url_has_host url
    else "web upstream must use HTTP or HTTPS" in
  let url := without_fragment url in
  let! authorization := basic_authorization url in
  let! url := ok_or (set_username "" url) "invalid upstream credentials" in
  let! url := ok_or (set_password None url) "invalid upstream credentials" in
  let! base := ok_or (parse_uri (url_str url)) "invalid URI" in
  Ok (mkProxy (Network base pass_host authorization) None).
Definition tcp (base : string) : res HttpProxy :=
  let! uri := ok_or (parse_uri base) "invalid URI" in
  ensure! bool_decide (uri_scheme uri = Some "http") && bool_decide (is_Some (uri_authority uri))
          && bool_decide (uri_path uri = "/") && bool_decide (uri_query uri = None)
    else "internal TCP proxy requires an HTTP origin without a path" in
  web base true.
Definition with_access (id : string) (config : option AccessConfig) (uuid : list Z) (p : HttpProxy)
    : res HttpProxy :=
  let! access := match config with
                 | Some c => let! g := gate_new id c uuid in Ok (Some g)
                 | None => Ok None
                 end in
  Ok (mkProxy (hp_target p) access).

(** ** Headers *)

Definition is_upgrade (h : Headers) : bool :=
  contains_key "upgrade" h
  && existsb (λ v, existsb (λ t, eq_ignore_ascii_case (str_trim t) "upgrade") (split "," v))
       (header_texts "connection" h).
Definition hop_headers : list string :=
  ["connection"; "keep-alive"; "proxy-authenticate"; "proxy-authorization"; "te"; "trailer";
   "transfer-encoding"; "upgrade"].
(** The headers the [Connection] headers name. *)
Definition named_headers (h : Headers) : list string :=
  flat_map (λ v, map str_trim (split "," v)) (header_texts "connection" h).
Definition strip_hop_headers (h : Headers) : Headers :=
  let h := foldl (λ h name, remove_header name h) h (named_headers h) in
  foldl (λ h name, remove_header name h) h hop_headers.

(** ** Forwarding *)

Definition join_paths (root incoming : string) : res string :=
  match str_ends_with "/" root, str_starts_with "/" incoming with
  | true, true => let! rest := unwrap (strip_prefix "/" incoming) in Ok (root +:+ rest)
  | false, false => Ok (root +:+ "/" +:+ incoming)
  | _, _ => Ok (root +:+ incoming)
  end.
Definition join_queries (a b : option string) : string :=
  join "&" (List.filter (λ q, negb (str_is_empty q)) (omap (λ q, q) [a; b])).
(** The target of a request to a network service. *)
Definition target_string (base : Uri) (u : Uri) : res string :=
  let! joined := join_paths (uri_path base) (uri_path u) in
  let query := join_queries (uri_query base) (uri_query u) in
  let! scheme := unwrap (uri_scheme base) in
  let! authority := unwrap (uri_authority base) in
  Ok (scheme +:+ "://" +:+ authority_str authority +:+ joined
      +:+ (if str_is_empty query then "" else "?") +:+ query).

(** [if let Some(v) = v { headers.insert(n, v); }] *)
Definition set_some (n : string) (v : option string) (h : Headers) : Headers :=
  match v with Some v => insert_header n v h | None => h end.
(** What [try_forward] hands to the client; [None] is a transport error before it. *)
Definition prepare (p : HttpProxy) (q : Request) : res (option Request) :=
  let upgrade := is_upgrade (q_headers q) in
  let path := default "/" (path_and_query (q_uri q)) in
  let! uri := match hp_target p with
              | Unix socket => Ok (Some (unix_uri socket path))
              | Network base _ _ => let! target := target_string base (q_uri q) in Ok (parse_uri target)
              end in
  match uri with
  | None => Ok None
  | Some uri =>
      let q := set_version "HTTP/1.1" (set_uri uri q) in
      let protocol := if upgrade then get_header "upgrade" (q_headers q) else None in
      let h := strip_hop_headers (q_headers q) in
      let h := set_some "upgrade" protocol (set_some "connection" (protocol ≫= λ _, Some "Upgrade") h) in
      match hp_target p with
      | Unix _ => Ok (Some (set_headers h q))
      | Network base pass_host authorization =>
          let! host := if pass_host then Ok (Some None)
                       else let! a := unwrap (uri_authority base) in
                            Ok (if is_text (authority_str a) then Some (Some (authority_str a)) else None) in
          match host with
          | None => Ok None
          | Some host =>
              Ok (Some (set_headers (set_some "authorization" authorization (set_some "host" host h)) q))
          end
      end
  end.

(** The client: an answer, a transport error, or no answer in time after the upload. *)
Inductive SendResult := Responded (r : Response) | SendFailed | SendTimedOut.
Definition receive (upgrade : bool) (r : SendResult) : Response + ForwardError :=
  match r with
  | SendFailed => inr Transport
  | SendTimedOut => inr ResponseTimeout
  | Responded r =>
      if p_status r =? 101 then if upgrade then inl r else inr Transport
      else inl (mkResponse (p_status r) (strip_hop_headers (p_headers r)) (p_content r))
  end.
(** [try_forward]: what left, and what came back. *)
Definition try_forward (p : HttpProxy) (q : Request) (r : SendResult)
    : res (option Request * (Response + ForwardError)) :=
  let! wire := prepare p q in
  Ok (wire, match wire with Some _ => receive (is_upgrade (q_headers q)) r | None => inr Transport end).

Definition failure : Response := mkResponse 502 no_headers (Text "Upstream unavailable").
(** [HttpProxy::forward_with_security]: what left, the answer, and the proxy with its gate. *)
Definition proxy_forward_with_security (env : GateEnv) (r : SendResult) (q : Request) (secure : bool)
    (p : HttpProxy) : res (option Request * Response * HttpProxy) :=
  let! '(x, p) := match hp_access p with
                  | Some g => let! '(x, g) := authorize env q secure g in
                              Ok (x, mkProxy (hp_target p) (Some g))
                  | None => Ok (inl q, p)
                  end in
  match x with
  | inr r => Ok (None, r, p)
  | inl q =>
      let! '(wire, result) := try_forward p q r in
      Ok (wire, match result with inl r => r | inr _ => failure end, p)
  end.
Definition proxy_forward (env : GateEnv) (r : SendResult) (q : Request) (p : HttpProxy)
    : res (option Request * Response * HttpProxy) :=
  proxy_forward_with_security env r q false p.

(** ** Lemmas *)

(** A proxy that can forward without a panic: its base has a scheme and an authority. *)
Definition proxy_ok (p : HttpProxy) : Prop :=
  match hp_target p with
  | Unix _ => True
  | Network base _ _ => is_Some (uri_scheme base) ∧ is_Some (uri_authority base)
  end.

Lemma web_ok base pass_host p : web base pass_host = Ok p → proxy_ok p.
Proof.
  unfold web. intros E. res_inv.
  match goal with E : _ && url_has_host _ = true |- _ => apply andb_true_iff in E as [_ Hh] end.
  cbn. eapply url_uri; [|eassumption].
  erewrite set_password_host by eassumption. erewrite set_username_host by eassumption.
  by rewrite without_fragment_host.
Qed.

Lemma join_paths_ok root incoming : ∃ p, join_paths root incoming = Ok p.
Proof.
  unfold join_paths. destruct (str_ends_with "/" root), (str_starts_with "/" incoming) eqn:E; try by eexists.
  apply str_starts_with_spec in E as [r E]. apply strip_prefix_spec in E. rewrite E. by eexists.
Qed.
Lemma target_string_ok base u :
  is_Some (uri_scheme base) → is_Some (uri_authority base) → ∃ t, target_string base u = Ok t.
Proof.
  intros [s Es] [a Ea]. unfold target_string. destruct (join_paths_ok (uri_path base) (uri_path u)) as [p ->].
  rewrite Es, Ea. by eexists.
Qed.
Lemma prepare_ok p q : proxy_ok p → ∃ w, prepare p q = Ok w.
Proof.
  unfold proxy_ok, prepare. destruct (hp_target p) as [s|base pass_host auth]; cbn [rbind].
  - by eexists.
  - intros [Hs Ha]. destruct (target_string_ok base (q_uri q) Hs Ha) as [t ->]. cbn [rbind].
    destruct (parse_uri t); [|by eexists]. destruct Ha as [a ->]. cbn [unwrap rbind].
    destruct pass_host; cbn [rbind]; [by eexists|]. destruct (is_text _); by eexists.
Qed.
Lemma try_forward_ok p q r : proxy_ok p → ∃ w x, try_forward p q r = Ok (w, x).
Proof. intros Hp. unfold try_forward. destruct (prepare_ok p q Hp) as [w ->]. by do 2 eexists. Qed.

(** [strip_hop_headers] removes the hop-by-hop headers and those that are named. *)
Lemma get_all_strip n h :
  get_all n (strip_hop_headers h)
  = if existsb (eq_ignore_ascii_case n) (named_headers h ++ hop_headers) then [] else get_all n h.
Proof.
  unfold strip_hop_headers. rewrite !get_all_remove_list, existsb_app.
  by destruct (existsb _ (named_headers h)), (existsb _ hop_headers).
Qed.

Lemma get_all_set_some n m v h :
  get_all n (set_some m v h)
  = if eq_ignore_ascii_case n m then match v with Some v => [v] | None => get_all n h end else get_all n h.
Proof. destruct v; cbn [set_some]; [apply get_all_insert|by destruct (eq_ignore_ascii_case n m)]. Qed.

Lemma get_all_set_some_ne n m v h :
  eq_ignore_ascii_case n m = false → get_all n (set_some m v h) = get_all n h.
Proof. intros E. by rewrite get_all_set_some, E. Qed.
Lemma get_all_set_some_same n v h :
  get_all n (set_some n v h) = match v with Some v => [v] | None => get_all n h end.
Proof. rewrite get_all_set_some. unfold eq_ignore_ascii_case. by rewrite bool_decide_true. Qed.

(** The headers [prepare] sets itself, with the values it gives them. *)
Definition own_upgrade (q : Request) : option string :=
  if is_upgrade (q_headers q) then get_header "upgrade" (q_headers q) else None.
Definition own_host (p : HttpProxy) : option string :=
  match hp_target p with Network base false _ => authority_str <$> uri_authority base | _ => None end.
Definition own_authorization (p : HttpProxy) : option string :=
  match hp_target p with Network _ _ a => a | _ => None end.
(** The target the proxy is for. *)
Definition expected_uri (p : HttpProxy) (q : Request) (u : Uri) : Prop :=
  match hp_target p with
  | Unix socket => u = unix_uri socket (default "/" (path_and_query (q_uri q)))
  | Network base _ _ => ∃ t, target_string base (q_uri q) = Ok t ∧ parse_uri t = Some u
  end.
Definition own_headers (p : HttpProxy) (q : Request) (h : Headers) : Headers :=
  set_some "authorization" (own_authorization p) (set_some "host" (own_host p)
    (set_some "upgrade" (own_upgrade q)
       (set_some "connection" (own_upgrade q ≫= λ _, Some "Upgrade") h))).

Lemma prepare_spec p q w :
  prepare p q = Ok (Some w) →
  expected_uri p q (q_uri w) ∧
  w = mkRequest (q_method q) (q_uri w) "HTTP/1.1" (own_headers p q (strip_hop_headers (q_headers q))) (q_body q).
Proof.
  unfold prepare, expected_uri, own_headers, own_upgrade, own_host, own_authorization.
  destruct (hp_target p) as [socket|base pass_host auth].
  { intros [= <-]. by split. }
  intros E. res_inv. destruct (parse_uri _) as [uri|] eqn:Eu; [|done]. destruct pass_host; res_inv.
  { split; [by eexists|done]. }
  destruct (is_text _); [|done]. injection E as <-.
  match goal with E : uri_authority base = Some _ |- _ => rewrite E end. split; [by eexists|done].
Qed.

(** A header that [prepare] does not set. *)
Lemma prepare_get p q w n :
  prepare p q = Ok (Some w) →
  existsb (eq_ignore_ascii_case n) ["connection"; "upgrade"; "host"; "authorization"] = false →
  get_all n (q_headers w)
  = if existsb (eq_ignore_ascii_case n) (named_headers (q_headers q) ++ hop_headers) then []
    else get_all n (q_headers q).
Proof.
  intros E. apply prepare_spec in E as [_ ->]. cbn [q_headers]. unfold own_headers.
  intros En. cbn [existsb] in En. rewrite !orb_false_iff in En. destruct En as (E1 & E2 & E3 & E4 & _).
  do 4 rewrite get_all_set_some_ne by done. apply get_all_strip.
Qed.

(** ** Properties *)

(** What a service receives: method and body of the request; none of the hop-by-hop
    headers and none that a [Connection] header names, except the [Upgrade] of a real
    upgrade; the configured [Host] and credentials in place of the client's; every other
    header as it came. *)
Theorem wire_request p q w :
  prepare p q = Ok (Some w) →
  q_method w = q_method q ∧ q_body w = q_body q ∧ q_version w = "HTTP/1.1" ∧
  get_all "connection" (q_headers w) = (if own_upgrade q then ["Upgrade"] else []) ∧
  get_all "upgrade" (q_headers w) = option_list (own_upgrade q) ∧
  (∀ v, own_host p = Some v → get_all "host" (q_headers w) = [v]) ∧
  (∀ v, own_authorization p = Some v → get_all "authorization" (q_headers w) = [v]) ∧
  ∀ n, existsb (eq_ignore_ascii_case n) ["connection"; "upgrade"; "host"; "authorization"] = false →
    get_all n (q_headers w)
    = if existsb (eq_ignore_ascii_case n) (named_headers (q_headers q) ++ hop_headers) then []
      else get_all n (q_headers q).
Proof.
  intros E. pose proof (λ n, prepare_get p q w n E) as Hget.
  apply prepare_spec in E as [_ Ew].
  assert (∀ n, existsb (eq_ignore_ascii_case n) hop_headers = true →
    get_all n (strip_hop_headers (q_headers q)) = []) as Hhop.
  { intros n En. by rewrite get_all_strip, existsb_app, En, orb_true_r. }
  split_and!; [..|exact Hget]; rewrite Ew; cbn [q_method q_body q_version q_headers]; unfold own_headers; try done.
  - do 3 rewrite get_all_set_some_ne by done. rewrite get_all_set_some_same, Hhop by done.
    by destruct (own_upgrade q).
  - do 2 rewrite get_all_set_some_ne by done. rewrite get_all_set_some_same.
    rewrite get_all_set_some_ne, Hhop by done. by destruct (own_upgrade q).
  - intros v Ev. rewrite get_all_set_some_ne, get_all_set_some_same by done. by rewrite Ev.
  - intros v Ev. rewrite get_all_set_some_same. by rewrite Ev.
Qed.

(** A request cannot leave its service: whatever path and query it asks for, the target
    begins with the scheme and the authority of the configured base and continues with a
    slash, so the path and the query of a client never reach into the authority. *)
Theorem target_stays base u t :
  str_starts_with "/" (uri_path base) = true → target_string base u = Ok t →
  ∃ scheme authority rest, uri_scheme base = Some scheme ∧ uri_authority base = Some authority ∧
    t = scheme +:+ "://" +:+ authority_str authority +:+ String "/" rest.
Proof.
  intros [r Hr]%str_starts_with_spec. unfold target_string, join_paths. intros E.
  destruct (str_ends_with _ _), (str_starts_with _ _); res_inv; rewrite Hr in *.
  all: do 3 eexists; split_and!; [eassumption..|]; cbn [String.append]; rewrite ?str_app_assoc; done.
Qed.
End proxy.

(** ** Witnesses *)

Module Samples.
#[export] Existing Instance sample_http.
#[export] Instance libs : UrlLibs.
Proof.
  refine {|
  Url := string; url_parse := Some; url_scheme _ := "http"; url_has_host _ := true;
  url_username _ := ""; url_password _ := None; without_fragment u := u; set_username _ u := Some u;
  set_password _ u := Some u; url_str u := u; percent_decode := Some; base64_encode s := s;
  path_and_query := Some; unix_uri _ path := path |}.
  - done.
  - done.
  - done.
  - intros u b _ _. by split; eexists.
Defined.
Definition proxy : HttpProxy := mkProxy (Network "/app" false (Some "Basic eA==")) None.
(** A client that names a header to be removed. *)
Definition request : Request :=
  mkRequest "GET" "/x" "HTTP/2.0"
    (insert_header "x-a" "1" (insert_header "x-b" "2" (insert_header "connection" "close, X-A" ∅))) true.
End Samples.
#[local] Existing Instances sample_http Samples.libs.

Lemma wire_request_witness :
  ∃ w, prepare Samples.proxy Samples.request = Ok (Some w) ∧
  get_all "connection" (q_headers w) = [] ∧ get_all "authorization" (q_headers w) = ["Basic eA=="] ∧
  get_all "x-a" (q_headers w) = [] ∧ get_all "x-b" (q_headers w) = ["2"].
Proof.
  eexists. split; [reflexivity|].
  match goal with |- context [q_headers ?w] =>
    destruct (wire_request Samples.proxy Samples.request w eq_refl) as (_ & _ & _ & H1 & _ & _ & H2 & H3) end.
  split_and!; [exact H1|by apply H2|by apply H3|by apply H3].
Defined.

Lemma target_stays_witness :
  ∃ scheme authority rest, uri_scheme (HttpLibs:=sample_http) "/app" = Some scheme ∧
    uri_authority (HttpLibs:=sample_http) "/app" = Some authority ∧
    "http://service/app/x" = scheme +:+ "://" +:+ authority_str authority +:+ String "/" rest.
Proof. apply (target_stays (H:=sample_http) "/app" "/x"); reflexivity. Defined.
