(* ===== verification/Upstreams.v ===== *)
(** * Health-aware upstream selection ([porthub-runtime/src/upstreams.rs])

    A proxy passes a request through its access gate, chooses one of its endpoints,
    remembers what happened to them and retries safe requests within a budget.  While the
    gate, a reply or a probe is awaited other requests and probes may change the shared
    state: every await comes with an arbitrary such change.  Instants are nanoseconds; the
    mutexes and atomics of one call are taken in the order of the code. *)

From S2P Require Import Prelude Net RustStr Text Http Gate HttpProxy.
Local Open Scope string_scope.
Local Open Scope list_scope.
Local Open Scope Z_scope.

Inductive Strategy := RoundRobin | WeightedRoundRobin | LeastConnections.
Inductive Mode := Priority | Balance.
Inductive PriorityPolicy := Manual | HealthFirst.
#[global] Instance Strategy_eq_dec : EqDecision Strategy.
Proof. solve_decision. Defined.
#[global] Instance Mode_eq_dec : EqDecision Mode.
Proof. solve_decision. Defined.
#[global] Instance PriorityPolicy_eq_dec : EqDecision PriorityPolicy.
Proof. solve_decision. Defined.

Record HealthConfig := mkHealthConfig {
  hc_enabled : bool; hc_path : string; interval_seconds : Z; timeout_seconds : Z;
  unhealthy_after : Z; healthy_after : Z; cooldown_seconds : Z;
  expected_status_min : Z; expected_status_max : Z }.
Record Binding := mkBinding {
  b_id : string; target_url : string; pass_host : bool; b_enabled : bool; b_priority : Z;
  b_weight : Z; health_path : option string }.
Record Routing := mkRouting {
  r_mode : Mode; priority_policy : PriorityPolicy; strategy : Strategy; max_attempts : Z;
  sticky_sessions : bool; r_health : HealthConfig; response_timeout_seconds : Z }.

Definition health_default : HealthConfig := mkHealthConfig true "/" 10 3 2 2 10 200 399.
Definition routing_default : Routing := mkRouting Priority Manual RoundRobin 4 false health_default 310.

Record Health := mkHealth {
  down : bool; successes : Z; failures : Z; checked : bool; retry_at : Z;
  checked_at : option Z; latency : option Z; h_status : option Z; h_error : option string }.

Section upstreams.
Context `{HL : HttpLibs} `{UL : !UrlLibs} `{GL : GateLibs}.

Record Endpoint := mkEndpoint {
  e_config : Binding; e_proxy : HttpProxy; e_health : Health; e_requests : Z; e_failures : Z;
  e_active : Z }.
Record Upstreams := mkUpstreams {
  u_config : Routing; u_endpoints : list Endpoint; u_cursor : Z; u_weighted : gmap string Z;
  u_next_probe : Z; u_probing : bool; u_gate : option Gate; u_cookie_name : string;
  u_probe_host : string }.

(** ** Validation *)

Definition in_range (lo hi n : Z) : bool := (lo <=? n) && (n <=? hi).

Definition validate_health (h : HealthConfig) : res unit :=
  ensure! str_starts_with "/" (hc_path h) && negb (str_starts_with "//" (hc_path h))
          && (slen (hc_path h) <=? 2048)
          && negb (str_contains (ascii_of_N 13) (hc_path h))
          && negb (str_contains (ascii_of_N 10) (hc_path h)) && negb (str_contains "#" (hc_path h))
    else "Health path must be a relative path starting with /" in
  ensure! in_range 1 300 (interval_seconds h) else "Health interval must be 1–300 seconds" in
  ensure! in_range 1 30 (timeout_seconds h) else "Health timeout must be 1–30 seconds" in
  ensure! in_range 1 10 (unhealthy_after h) && in_range 1 10 (healthy_after h)
    else "Health thresholds must be 1–10 checks" in
  ensure! in_range 1 300 (cooldown_seconds h) else "Cooldown must be 1–300 seconds" in
  ensure! in_range 200 599 (expected_status_min h)
          && (expected_status_min h <=? expected_status_max h) && (expected_status_max h <=? 599)
    else "Invalid healthy status range" in
  ensure! bool_decide (is_Some (parse_uri (hc_path h))) else "Invalid health path" in
  Ok tt.
Definition validate_routing (r : Routing) : res unit :=
  let! _ := validate_health (r_health r) in
  ensure! negb (bool_decide (r_mode r = Priority))
          || negb (bool_decide (priority_policy r = HealthFirst)) || hc_enabled (r_health r)
    else "Health priority requires active health checks" in
  ensure! in_range 1 128 (max_attempts r) else "Attempt limit must be 1–128" in
  ensure! in_range 1 310 (response_timeout_seconds r) else "Response timeout must be 1–310 seconds" in
  Ok tt.

Definition with_path (path : string) (h : HealthConfig) : HealthConfig :=
  mkHealthConfig (hc_enabled h) path (interval_seconds h) (timeout_seconds h) (unhealthy_after h)
    (healthy_after h) (cooldown_seconds h) (expected_status_min h) (expected_status_max h).
Definition binding_id_ok (id : string) : bool :=
  negb (str_is_empty id) && (slen id <=? 80)
  && all_bytes (λ c, is_ascii_alphanumeric c || (c =? 45) || (c =? 95)) id.
Fixpoint new_endpoints (config : Routing) (now : Z) (ids : gset string) (bindings : list Binding)
    : res (list Endpoint) :=
  match bindings with
  | [] => Ok []
  | b :: bindings =>
      ensure! binding_id_ok (b_id b) && negb (bool_decide (b_id b ∈ ids))
        else "Binding IDs must be unique identifiers" in
      ensure! in_range 1 10000 (b_priority b) && in_range 1 100 (b_weight b)
        else "Priority must be 1–10000 and weight 1–100" in
      let! _ := match health_path b with
                | Some path => validate_health (with_path path (r_health config))
                | None => Ok tt
                end in
      let! proxy := web (target_url b) (pass_host b) in
      let! rest := new_endpoints config now ({[b_id b]} ∪ ids) bindings in
      Ok (mkEndpoint b proxy (mkHealth false 0 0 false now None None None None) 0 0 0 :: rest)
  end.
Definition cookie_char (b : Z) : ascii :=
  if is_ascii_alphanumeric b then ascii_of_N (Z.to_N b) else "_".
Definition new (id : string) (hosts : list string) (bindings : list Binding) (config : Routing)
    (access : option AccessConfig) (uuid : list Z) (now : Z) : res Upstreams :=
  let! _ := validate_routing config in
  ensure! negb (len bindings =? 0) && (len bindings <=? 128)
    else "A proxy must contain 1–128 bindings" in
  let! endpoints := new_endpoints config now ∅ bindings in
  let endpoints :=
    sort_by (λ a b, b_priority (e_config a) ?= b_priority (e_config b)) endpoints in
  let cookie_name :=
    "ph_upstream_" +:+ String.string_of_list_ascii (map cookie_char (bytes_of id)) in
  let! gate := match access with
               | Some a => let! g := gate_new id a uuid in Ok (Some g)
               | None => Ok None
               end in
  Ok (mkUpstreams config endpoints 0 ∅ now false gate cookie_name (default "" (head hosts))).

(** ** State changes *)

Definition set_endpoints v u := mkUpstreams (u_config u) v (u_cursor u) (u_weighted u)
  (u_next_probe u) (u_probing u) (u_gate u) (u_cookie_name u) (u_probe_host u).
Definition set_cursor v u := mkUpstreams (u_config u) (u_endpoints u) v (u_weighted u)
  (u_next_probe u) (u_probing u) (u_gate u) (u_cookie_name u) (u_probe_host u).
Definition set_weighted v u := mkUpstreams (u_config u) (u_endpoints u) (u_cursor u) v
  (u_next_probe u) (u_probing u) (u_gate u) (u_cookie_name u) (u_probe_host u).
Definition set_probe next probing u := mkUpstreams (u_config u) (u_endpoints u) (u_cursor u)
  (u_weighted u) next probing (u_gate u) (u_cookie_name u) (u_probe_host u).
Definition set_gate g u := mkUpstreams (u_config u) (u_endpoints u) (u_cursor u) (u_weighted u)
  (u_next_probe u) (u_probing u) g (u_cookie_name u) (u_probe_host u).
Definition set_health h e := mkEndpoint (e_config e) (e_proxy e) h (e_requests e) (e_failures e) (e_active e).
Definition count_failure e := mkEndpoint (e_config e) (e_proxy e) (e_health e) (e_requests e)
  (as_u64 (e_failures e + 1)) (e_active e).
Definition start_request e := mkEndpoint (e_config e) (e_proxy e) (e_health e)
  (as_u64 (e_requests e + 1)) (e_failures e) (as_u64 (e_active e + 1)).
Definition end_lease e := mkEndpoint (e_config e) (e_proxy e) (e_health e) (e_requests e)
  (e_failures e) (as_u64 (e_active e - 1)).
(** [self.0.endpoints[i]] shared through its [Arc]. *)
Definition on_endpoint (i : nat) (f : Endpoint → Endpoint) (u : Upstreams) : Upstreams :=
  set_endpoints (alter f i (u_endpoints u)) u.

(** ** Candidates *)

Definition passive_single (u : Upstreams) : bool :=
  negb (hc_enabled (r_health (u_config u)))
  && (len (take 2 (List.filter (λ e, b_enabled (e_config e)) (u_endpoints u))) =? 1).

Definition eligible (u : Upstreams) (excluded : gset string) (now : Z) (e : Endpoint) : bool :=
  b_enabled (e_config e) && negb (bool_decide (b_id (e_config e) ∈ excluded))
  && (passive_single u || negb (down (e_health e))
      || negb (hc_enabled (r_health (u_config u))) && (retry_at (e_health e) <=? now)).
(** An endpoint with its index. *)
Definition Candidate : Type := nat * Endpoint.
Definition c_id (c : Candidate) : string := b_id (e_config c.2).

Definition health_key_cmp (a b : Candidate) : comparison :=
  match failures (e_health a.2) ?= failures (e_health b.2) with
  | Eq => default U64_MAX (latency (e_health a.2)) ?= default U64_MAX (latency (e_health b.2))
  | c => c
  end.

Fixpoint position {A} (f : A → bool) (l : list A) : option nat :=
  match l with
  | [] => None
  | x :: l => if f x then Some O else S <$> position f l
  end.

Definition I64_MIN : Z := - 2 ^ 63.
(** The loop of smooth weighted round robin: the scores, the total, the best index. *)
Fixpoint weigh (i : nat) (l : list Candidate) (scores : gmap string Z) (total : Z)
    (best : nat) (best_score : Z) : gmap string Z * Z * nat :=
  match l with
  | [] => (scores, total, best)
  | c :: l =>
      let weight := b_weight (e_config c.2) in
      let score := default 0 (scores !! c_id c) + weight in
      let scores := <[c_id c := score]> scores in
      if best_score <? score then weigh (S i) l scores (total + weight) i score
      else weigh (S i) l scores (total + weight) best best_score
  end.
Definition weighted_pick (l : list Candidate) (scores : gmap string Z) : res (nat * gmap string Z) :=
  let scores := filter (λ x, x.1 ∈ map c_id l) scores in
  let '(scores, total, best) := weigh 0 l scores 0 0 I64_MIN in
  let! c := unwrap (l !! best) in
  let! score := unwrap (scores !! c_id c) in
  Ok (best, <[c_id c := score - total]> scores).

(** [min_by_key] over the rotation that starts at [start]: the first minimum. *)
Fixpoint min_active (l : list Candidate) (order : list nat) : option nat :=
  match order with
  | [] => None
  | i :: order =>
      match min_active l order, l !! i with
      | Some j, Some c =>
          match l !! j with
          | Some d => if e_active d.2 <? e_active c.2 then Some j else Some i
          | None => Some i
          end
      | None, _ => Some i
      | Some j, None => Some j
      end
  end.

Definition strategy_pick (l : list Candidate) (u : Upstreams) : res (nat * Upstreams) :=
  let start := Z.to_nat (u_cursor u mod len l) in
  let next := set_cursor (as_u64 (u_cursor u + 1)) u in
  match strategy (u_config u) with
  | RoundRobin => Ok (start, next)
  | WeightedRoundRobin =>
      let! '(best, scores) := weighted_pick l (u_weighted u) in
      Ok (best, set_weighted scores u)
  | LeastConnections =>
      Ok (default O (min_active l (map (λ n, ((start + n) mod length l)%nat) (seq 0 (length l)))), next)
  end.

(** [list.swap(0, pick)] *)
Definition swap_first {A} (pick : nat) (l : list A) : res (list A) :=
  let! a := unwrap (head l) in
  let! b := unwrap (l !! pick) in
  Ok (<[O := b]> (<[pick := a]> l)).

Definition eligible_list (excluded : gset string) (now : Z) (u : Upstreams) : list Candidate :=
  List.filter (λ c, eligible u excluded now c.2) (imap pair (u_endpoints u)).
Definition candidates (excluded : gset string) (sticky : option string) (now : Z) (u : Upstreams)
    : res (list Candidate * Upstreams) :=
  let ready := eligible_list excluded now u in
  if len ready =? 0 then Ok (ready, u)
  else if bool_decide (r_mode (u_config u) = Priority) then
    Ok (if bool_decide (priority_policy (u_config u) = HealthFirst)
        then sort_by health_key_cmp ready else ready, u)
  else
    let! '(pick, u) :=
      match (id ← sticky; position (λ c, bool_decide (c_id c = id)) ready) with
      | Some pick => Ok (pick, u)
      | None => strategy_pick ready u
      end in
    let! ready := swap_first pick ready in
    Ok (ready, u).

(** ** Outcomes *)

(** The moving average of the probe latency. *)
Definition average (previous latency : Z) : Z :=
  as_u64 (Z.min U64_MAX (previous * 3) + latency) / 4.

(** [outcome] on the health of the endpoint. *)
Definition health_outcome (c : HealthConfig) (success : bool) (status : option Z) (lat : Z)
    (probe : bool) (reason : option string) (now at_ : Z) (h : Health) : Health :=
  let lat := if probe then Some (match latency h with Some p => average p lat | None => lat end)
             else latency h in
  if success then
    let succ := Z.min U32_MAX (successes h + 1) in
    let up := negb (down h) || negb probe || (healthy_after c <=? succ) in
    mkHealth (if up then false else down h) succ 0 true (retry_at h) (Some at_) lat status None
  else
    let fail := Z.min U32_MAX (failures h + 1) in
    let fall := negb probe || (unhealthy_after c <=? fail) in
    mkHealth (if fall then true else down h) 0 fail true
      (if fall then now + from_secs (cooldown_seconds c) else retry_at h) (Some at_) lat status
      (Some (default (if bool_decide (is_Some status) then "unexpected_status"
                      else "connection_or_timeout") reason)).
Definition outcome (i : nat) (success : bool) (status : option Z) (lat : Z) (probe : bool)
    (reason : option string) (now at_ : Z) (u : Upstreams) : Upstreams :=
  on_endpoint i (λ e,
    let e := set_health (health_outcome (r_health (u_config u)) success status lat probe reason now at_
                           (e_health e)) e in
    if negb success && negb probe then count_failure e else e) u.

Definition application_error (i : nat) (status at_ : Z) (u : Upstreams) : Upstreams :=
  on_endpoint i (λ e,
    let h := e_health e in
    count_failure (set_health (mkHealth (down h) (successes h) (failures h) true (retry_at h)
      (Some at_) (latency h) (Some status) (Some "upstream_response")) e)) u.

Record BindingStatus := mkStatus {
  bs_id : string; bs_state : string; bs_requests : Z; bs_failures : Z; bs_active : Z;
  bs_checked_at : option Z; bs_latency : option Z; bs_status : option Z; bs_error : option string }.
Definition endpoint_state (e : Endpoint) : string :=
  let h := e_health e in
  if negb (b_enabled (e_config e)) then "disabled"
  else if down h then "unhealthy"
  else if negb (checked h) then "unknown"
  else if (0 <? failures h) || bool_decide (is_Some (h_error h)) then "degraded"
  else "healthy".
Definition status (u : Upstreams) : list BindingStatus :=
  map (λ e, mkStatus (b_id (e_config e)) (endpoint_state e) (e_requests e) (e_failures e) (e_active e)
              (checked_at (e_health e)) (latency (e_health e)) (h_status (e_health e))
              (h_error (e_health e))) (u_endpoints u).

(** ** Probes *)

(** A probe of an endpoint: what the client answers, [None] for the timeout, its latency,
    the time when it is done, and what others did meanwhile. *)
Record ProbeReply := mkProbeReply {
  pr_send : option SendResult; pr_latency : Z; pr_now : Z; pr_at : Z;
  pr_others : Upstreams → Upstreams }.

Definition probe_request (u : Upstreams) (e : Endpoint) : res Request :=
  let path := default (hc_path (r_health (u_config u))) (health_path (e_config e)) in
  let! uri := unwrap (parse_uri path) in
  let! host := unwrap (to_str (u_probe_host u)) in
  Ok (mkRequest "GET" uri "HTTP/1.1"
        (append_header "user-agent" "PortHub-Health/1" (append_header "host" host no_headers)) no_body).
Fixpoint probe_all (order : list nat) (start : nat → Z) (replies : nat → ProbeReply) (u : Upstreams)
    : res Upstreams :=
  match order with
  | [] => Ok u
  | i :: order =>
      let! u :=
        match u_endpoints u !! i with
        | Some e =>
            if down (e_health e) && (start i <? retry_at (e_health e)) then Ok u
            else
              let r := replies i in
              let c := r_health (u_config u) in
              let! q := probe_request u e in
              let! '(_, result) := try_forward (e_proxy e) q (default SendTimedOut (pr_send r)) in
              let st := match pr_send r, result with Some _, inl r => Some (p_status r) | _, _ => None end in
              let success := match st with
                             | Some s => in_range (expected_status_min c) (expected_status_max c) s
                             | None => false
                             end in
              Ok (outcome i success st (pr_latency r) true None (pr_now r) (pr_at r) (pr_others r u))
        | None => Ok u
        end in
      probe_all order start replies u
  end.
(** [check_health]: at most one run at a time, not before the interval has passed; the
    enabled endpoints are probed in the order their probes finish. *)
Definition check_health (now : Z) (order : list nat) (start : nat → Z) (replies : nat → ProbeReply)
    (u : Upstreams) : res Upstreams :=
  if negb (hc_enabled (r_health (u_config u))) then Ok u
  else if (now <? u_next_probe u) || u_probing u then Ok u
  else
    let u := set_probe (now + from_secs (interval_seconds (r_health (u_config u)))) true u in
    let order := List.filter (λ i, match u_endpoints u !! i with
                                   | Some e => b_enabled (e_config e)
                                   | None => false
                                   end) order in
    let! u := probe_all order start replies u in
    Ok (set_probe (u_next_probe u) false u).

(** ** Forwarding *)

(** One attempt: the endpoint, the request for its proxy, and what left. *)
Record Sent := mkSent { s_endpoint : nat; s_request : Request; s_wire : option Request }.
(** Its reply: what the client answers, the latency, the times after it, and what other
    requests and probes did to the shared state while it was awaited. *)
Record Reply := mkReply {
  rp_send : SendResult; rp_latency : Z; rp_now : Z; rp_at : Z; rp_others : Upstreams → Upstreams }.

Definition is_cookie (name part : string) : bool :=
  match split_once "=" part with Some (k, _) => bool_decide (k = name) | None => false end.
Definition strip_cookie (name : string) (h : Headers) : Headers :=
  let value := join "; " (List.filter (λ s, negb (is_cookie name s)) (cookie_parts h)) in
  let h := remove_header "cookie" h in
  if negb (str_is_empty value) && is_text value then insert_header "cookie" value h else h.

(** The endpoint named by the affinity cookie of the first cookie header. *)
Fixpoint find_cookie (name : string) (parts : list string) : option string :=
  match parts with
  | [] => None
  | v :: parts =>
      match split_once "=" (str_trim v) with
      | Some (k, v) => if bool_decide (k = name) then Some v else find_cookie name parts
      | None => find_cookie name parts
      end
  end.
Definition sticky_id (u : Upstreams) (q : Request) : option string :=
  if sticky_sessions (u_config u) then
    s ← get_text "cookie" (q_headers q); find_cookie (u_cookie_name u) (split ";" s)
  else None.

Definition replayable (q : Request) : bool :=
  (bool_decide (q_method q = "GET") || bool_decide (q_method q = "HEAD"))
  && is_end_stream (q_body q) && negb (contains_key "upgrade" (q_headers q)).

Definition unavailable : Response :=
  mkResponse 503 (append_header "retry-after" "5" no_headers) (Text "No healthy upstream is available").
Definition affinity_cookie (u : Upstreams) (id : string) (secure : bool) : string :=
  u_cookie_name u +:+ "=" +:+ id +:+ "; Path=/; HttpOnly; SameSite=Lax; Max-Age=86400"
  +:+ (if secure then "; Secure" else "").
Definition gateway_failure (status : Z) : bool :=
  (status =? 502) || (status =? 503) || (status =? 504).
Definition single_enabled (u : Upstreams) : bool :=
  len (take 2 (List.filter (λ e, b_enabled (e_config e)) (u_endpoints u))) =? 1.

(** What is left of a request: the endpoints tried, the client's body if it was not sent
    yet, and the attempts so far. *)
Record Progress := mkProgress { excluded : gset string; body_ : option Body; trace : list Sent }.

(** The request of one attempt. *)
Definition attempt_request (u : Upstreams) (q : Request) (body : Body) : Request :=
  mkRequest (q_method q) (q_uri q) (q_version q)
    (if sticky_sessions (u_config u) then strip_cookie (u_cookie_name u) (q_headers q) else q_headers q)
    body.

Section forward.
Variable replies : nat → nat → Reply.
Variable clock : nat → Z.
Variables (q : Request) (secure : bool) (sticky : option string) (single : bool) (attempts : nat).

Fixpoint forward_loop (fuel : nat) (attempt : nat) (p : Progress) (u : Upstreams)
    : res (list Sent * Response * Upstreams) :=
  match fuel with
  | O => Ok (trace p, unavailable, u)
  | S fuel =>
      let! '(list, u) := candidates (excluded p) sticky (clock attempt) u in
      match list with
      | [] => Ok (trace p, unavailable, u)
      | (i, e) :: _ =>
          let id := b_id (e_config e) in
          let excl := {[id]} ∪ excluded p in
          let u := on_endpoint i start_request u in
          let! '(body, kept) := if replayable q then Ok (no_body, body_ p)
                                else let! b := unwrap (body_ p) in Ok (b, None) in
          let request := attempt_request u q body in
          let r := replies attempt i in
          let! '(wire, result) := try_forward (e_proxy e) request (rp_send r) in
          let p := mkProgress excl kept (trace p ++ [mkSent i request wire]) in
          let u := rp_others r u in
          match result with
          | inl response =>
              let st := p_status response in
              let failed := gateway_failure st in
              let u := if failed && single_enabled u then application_error i st (rp_at r) u
                       else outcome i (negb failed) (Some st) (rp_latency r) false None
                              (rp_now r) (rp_at r) u in
              let! '(again, u) :=
                if failed && replayable q then
                  let! '(list, u) := candidates excl None (rp_now r) u in
                  Ok (negb (len list =? 0), u)
                else Ok (false, u) in
              if (again : bool) then
                forward_loop fuel (S attempt) p (on_endpoint i end_lease u)
              else
                let! headers :=
                  if sticky_sessions (u_config u) && bool_decide (r_mode (u_config u) = Balance) then
                    let! value := unwrap (to_str (affinity_cookie u id secure)) in
                    Ok (append_header "set-cookie" value (p_headers response))
                  else Ok (p_headers response) in
                Ok (trace p, mkResponse st headers (p_content response), u)
          | inr error =>
              let u := outcome i false None (rp_latency r) false (Some (error_reason error))
                         (rp_now r) (rp_at r) u in
              let u := on_endpoint i end_lease u in
              if negb (replayable q) then Ok (trace p, unavailable, u)
              else
                let transport := match error with Transport => true | ResponseTimeout => false end in
                let p := if single && transport && (S attempt <? attempts)%nat
                         then mkProgress (excluded p ∖ {[id]}) (body_ p) (trace p) else p in
                forward_loop fuel (S attempt) p u
          end
      end
  end.
End forward.

(** What a call meets: the awaits of the gate, what others do to the state during them, the
    replies to its attempts and the clock of each attempt. *)
Record ForwardEnv := mkForwardEnv {
  fe_gate : GateEnv; fe_meanwhile : Upstreams → Upstreams; fe_replies : nat → nat → Reply;
  fe_clock : nat → Z }.

(** [forward_with_security]: what was sent, the answer, and the state when its body is
    handed to the client. *)
Definition forward_with_security (env : ForwardEnv) (q : Request) (secure : bool) (u : Upstreams)
    : res (list Sent * Response * Upstreams) :=
  let! '(x, u) := match u_gate u with
                  | Some g =>
                      let! '(x, g) := authorize (fe_gate env) q secure g in
                      Ok (x, set_gate (Some g) (fe_meanwhile env u))
                  | None => Ok (inl q, u)
                  end in
  match x with
  | inr r => Ok ([], r, u)
  | inl q =>
      let single := passive_single u in
      let attempts := Nat.min (if single then 2 else length (u_endpoints u))
                        (Z.to_nat (max_attempts (u_config u))) in
      forward_loop (fe_replies env) (fe_clock env) q secure (sticky_id u q) single attempts attempts 0
        (mkProgress ∅ (Some (q_body q)) []) u
  end.
Definition forward (env : ForwardEnv) (q : Request) (u : Upstreams)
    : res (list Sent * Response * Upstreams) :=
  forward_with_security env q false u.
End upstreams.

(** ** Smooth weighted round robin *)

Section weighted.
Context `{HL : HttpLibs} `{UL : !UrlLibs} `{GL : GateLibs}.

Definition weight (c : Candidate) : Z := b_weight (e_config c.2).
Definition total_weight (l : list Candidate) : Z := zsum weight l.
Definition score (scores : gmap string Z) (c : Candidate) : Z := default 0 (scores !! c_id c).

(** The candidates of one choice: told apart by their ids, with positive weights. *)
Definition candidates_ok (l : list Candidate) : Prop :=
  NoDup (map c_id l) ∧ Forall (λ c, 1 ≤ weight c ≤ 100) l ∧ l ≠ [].

(** The scores after the loop: every candidate gained its weight, the best is a maximum. *)
Lemma weigh_spec l : ∀ i scores total best best_score scores' total' best',
  NoDup (map c_id l) →
  weigh i l scores total best best_score = (scores', total', best') →
  total' = total + total_weight l ∧
  (∀ c, c ∈ l → scores' !! c_id c = Some (score scores c + weight c)) ∧
  (∀ k, k ∉ map c_id l → scores' !! k = scores !! k) ∧
  ((best' = best ∧ ∀ c, c ∈ l → score scores c + weight c ≤ best_score) ∨
   ∃ j c, best' = (i + j)%nat ∧ l !! j = Some c ∧ best_score < score scores c + weight c ∧
     ∀ d, d ∈ l → score scores d + weight d ≤ score scores c + weight c).
Proof.
  induction l as [|c l IH]; intros i scores total best bs scores' total' best' Hn H.
  { injection H as <- <- <-. split_and!; [simpl; unfold total_weight; simpl; lia|..]; try done.
    - by intros c ?%elem_of_nil.
    - left. split; [done|]. by intros c ?%elem_of_nil. }
  cbn [map] in Hn. apply NoDup_cons in Hn as [Hc Hn]. cbn [weigh] in H.
  fold (score scores c) (weight c) in H. set (s := score scores c + weight c) in *.
  assert (∀ d, d ∈ l → score (<[c_id c := s]> scores) d = score scores d) as Hsc.
  { intros d Hd. unfold score. rewrite lookup_insert_ne; [done|]. intros E. apply Hc. rewrite E.
    by apply (list_elem_of_fmap_2 c_id). }
  assert (total_weight (c :: l) = weight c + total_weight l) as Htw by done.
  assert (scores' !! c_id c = Some s ∧ total' = total + weight c + total_weight l ∧
    (∀ d, d ∈ l → scores' !! c_id d = Some (score scores d + weight d)) ∧
    (∀ k, k ∉ map c_id (c :: l) → scores' !! k = scores !! k)) as (Hs & Ht & Hd & Hk).
  { destruct (bs <? s); apply IH in H as (-> & H1 & H2 & _); try done.
    all: split_and!; [by rewrite H2, lookup_insert_eq|lia| |].
    all: try (intros d Hd; by rewrite H1, Hsc).
    all: intros k; cbn [map]; rewrite not_elem_of_cons; intros [? ?];
      by rewrite H2, lookup_insert_ne. }
  split_and!; [lia| |done|].
  { intros d [->|Hdl]%elem_of_cons; [done|by apply Hd]. }
  destruct (bs <? s) eqn:Eb; apply IH in H as (_ & _ & _ & [(-> & H)|(j & d & -> & Hj & Hlt & H)]); try done.
  - right. exists 0%nat, c. split_and!; [lia|done|lia|]. intros d [->|Hdl]%elem_of_cons; [lia|].
    rewrite <- Hsc by done. by apply H.
  - right. exists (S j), d. pose proof (list_elem_of_lookup_2 _ _ _ Hj) as Hdl. rewrite Hsc in * by done.
    split_and!; [lia|done|lia|]. intros x [->|Hx]%elem_of_cons; [fold s; lia|].
    rewrite <- (Hsc x) by done. by apply H.
  - left. split; [done|]. intros d [->|Hdl]%elem_of_cons; [fold s; lia|].
    rewrite <- Hsc by done. by apply H.
  - right. exists (S j), d. pose proof (list_elem_of_lookup_2 _ _ _ Hj) as Hdl. rewrite Hsc in * by done.
    split_and!; [lia|done|lia|]. intros x [->|Hx]%elem_of_cons; [fold s; lia|].
    rewrite <- (Hsc x) by done. by apply H.
Qed.

Lemma zsum_add {A} (f g : A → Z) l : zsum (λ x, f x + g x) l = zsum f l + zsum g l.
Proof. induction l as [|x l IH]; simpl; [done|]. rewrite IH. lia. Qed.
Lemma zsum_bound {A} (f : A → Z) l : (∀ x, x ∈ l → f x ≤ 0) → zsum f l ≤ 0.
Proof.
  induction l as [|x l IH]; simpl; intros H; [done|].
  pose proof (H x ltac:(left)). enough (zsum f l ≤ 0) by lia. apply IH. intros y Hy. apply H. by right.
Qed.
(** Nonnegative terms with a sum of zero are zero. *)
Lemma zsum_zero {A} (f : A → Z) l : (∀ x, x ∈ l → 0 ≤ f x) → zsum f l = 0 → ∀ x, x ∈ l → f x = 0.
Proof.
  induction l as [|y l IH]; simpl; intros H Hs x; [by intros ?%elem_of_nil|].
  pose proof (H y ltac:(left)) as Hy.
  assert (∀ z, z ∈ l → 0 ≤ f z) as Hl by (intros z Hz; apply H; by right).
  assert (0 ≤ zsum f l) as Hn.
  { clear -Hl. induction l as [|z l IH]; simpl; [done|].
    pose proof (Hl z ltac:(left)). enough (0 ≤ zsum f l) by lia. apply IH. intros. apply Hl. by right. }
  intros [->|Hx]%elem_of_cons; [lia|]. apply IH; [done|lia|done].
Qed.

Lemma ids_inj l c d : NoDup (map c_id l) → c ∈ l → d ∈ l → c_id c = c_id d → c = d.
Proof.
  intros Hn [i Hi]%list_elem_of_lookup_1 [j Hj]%list_elem_of_lookup_1 E.
  assert (i = j) as ->; [|congruence].
  eapply NoDup_lookup; [exact Hn|..]; rewrite list_lookup_fmap; [rewrite Hi; done|].
  rewrite Hj. simpl. by rewrite E.
Qed.
Lemma candidates_nodup l : candidates_ok l → NoDup l.
Proof. intros (H & _). by apply NoDup_fmap_1 in H. Qed.
Lemma total_weight_pos l : candidates_ok l → 1 ≤ total_weight l.
Proof.
  intros (_ & Hw & Hne). destruct l as [|c l]; [done|]. apply Forall_cons_1 in Hw as [Hc Hl].
  unfold total_weight. cbn [zsum foldr]. enough (0 ≤ zsum weight l) by (unfold zsum in *; lia).
  clear -Hl. induction Hl as [|d l Hd Hl IH]; simpl; [done|]. lia.
Qed.

(** One choice: the chosen candidate has the highest score and pays the total. *)
Lemma weighted_pick_spec l scores :
  candidates_ok l → (∀ c, c ∈ l → - total_weight l < score scores c) →
  total_weight l < 2 ^ 62 →
  ∃ best scores' c, weighted_pick l scores = Ok (best, scores') ∧ l !! best = Some c ∧
    score scores' c = score scores c + weight c - total_weight l ∧
    (∀ d, d ∈ l → d ≠ c → score scores' d = score scores d + weight d) ∧
    ∀ d, d ∈ l → score scores d + weight d ≤ score scores c + weight c.
Proof.
  intros Hl Hlow Htw. pose proof Hl as (Hn & Hw & Hne). unfold weighted_pick.
  set (kept := filter _ scores).
  assert (∀ c, c ∈ l → score kept c = score scores c) as Hkept.
  { intros c Hc. unfold score, kept. f_equal.
    destruct (scores !! c_id c) as [x|] eqn:E.
    - apply map_lookup_filter_Some. split; [done|]. by apply (list_elem_of_fmap_2 c_id).
    - apply map_lookup_filter_None. by left. }
  destruct (weigh 0 l kept 0 0 I64_MIN) as [[sc tot] best] eqn:E.
  destruct (weigh_spec l _ _ _ _ _ _ _ _ Hn E) as (Ht & Hs & _ & Hb).
  destruct Hb as [(-> & Hb)|(j & c & -> & Hj & _ & Hmax)].
  { exfalso. destruct l as [|c l]; [done|]. specialize (Hb c ltac:(left)).
    rewrite Hkept in Hb by left. specialize (Hlow c ltac:(left)).
    apply Forall_cons_1 in Hw as [Hwc _]. unfold I64_MIN in Hb. lia. }
  pose proof (list_elem_of_lookup_2 _ _ _ Hj) as Hc.
  exists j, (<[c_id c := score kept c + weight c - tot]> sc), c. cbn [Nat.add].
  rewrite Hj. cbn [unwrap rbind]. rewrite (Hs c Hc). cbn [unwrap rbind]. split_and!; [done|done| | |].
  - unfold score at 1. rewrite lookup_insert_eq. simpl. rewrite Hkept by done. lia.
  - intros d Hd Hdc. unfold score at 1. rewrite lookup_insert_ne.
    + rewrite Hs by done. simpl. by rewrite Hkept.
    + intros Eid. apply Hdc. symmetry. by eapply ids_inj.
  - intros d Hd. rewrite <- !Hkept by done. by apply Hmax.
Qed.

(** Several choices in a row from the same candidates. *)
Fixpoint picks (n : nat) (l : list Candidate) (scores : gmap string Z) : res (list nat * gmap string Z) :=
  match n with
  | O => Ok ([], scores)
  | S n =>
      let! '(ps, scores) := picks n l scores in
      let! '(best, scores) := weighted_pick l scores in
      Ok (ps ++ [best], scores)
  end.
Definition times (j : nat) (ps : list nat) : Z := len (List.filter (Nat.eqb j) ps).

Lemma times_snoc j ps b : times j (ps ++ [b]) = times j ps + (if Nat.eqb j b then 1 else 0).
Proof.
  unfold times. rewrite List.filter_app, length_app. simpl. destruct (Nat.eqb j b); simpl; lia.
Qed.

Lemma picks_spec l scores n :
  candidates_ok l → total_weight l < 2 ^ 62 → (∀ c, c ∈ l → score scores c = 0) →
  ∃ ps scores', picks n l scores = Ok (ps, scores') ∧
    (∀ j c, l !! j = Some c →
       score scores' c = Z.of_nat n * weight c - total_weight l * times j ps) ∧
    (∀ c, c ∈ l → - total_weight l < score scores' c) ∧ zsum (score scores') l = 0.
Proof.
  intros Hl Htw H0. pose proof (total_weight_pos l Hl) as Hpos. pose proof (candidates_nodup l Hl) as Hnd.
  induction n as [|n (ps & sc & E & Hf & Hlow & Hsum)].
  { exists [], scores. split; [done|]. split_and!.
    - intros j c Hj. rewrite H0 by by eapply list_elem_of_lookup_2. unfold times. simpl. lia.
    - intros c Hc. rewrite H0 by done. lia.
    - rewrite (zsum_ext _ (λ _, 0)) by done. clear. induction l; simpl; lia. }
  destruct (weighted_pick_spec l sc Hl Hlow Htw) as (b & sc' & c & Eb & Hb & Hc & Ho & Hmax).
  pose proof (list_elem_of_lookup_2 _ _ _ Hb) as Hcl.
  exists (ps ++ [b]), sc'. cbn [picks]. rewrite E. cbn [rbind]. rewrite Eb. cbn [rbind].
  split; [done|].
  assert (0 < score sc c + weight c) as Hbest.
  { destruct (decide (0 < score sc c + weight c)); [done|]. exfalso.
    assert (zsum (λ d, score sc d + weight d) l ≤ 0) as Hz.
    { apply zsum_bound. intros d Hd. specialize (Hmax d Hd). lia. }
    rewrite zsum_add, Hsum in Hz. unfold total_weight in Hpos. lia. }
  split_and!.
  - intros j d Hj. rewrite times_snoc, Nat2Z.inj_succ. destruct (Nat.eqb j b) eqn:Ej.
    + apply Nat.eqb_eq in Ej as ->. rewrite Hb in Hj. injection Hj as <-.
      rewrite Hc, (Hf b c Hb). lia.
    + apply Nat.eqb_neq in Ej. rewrite Ho, (Hf j d Hj); [lia|by eapply list_elem_of_lookup_2|].
      intros ->. apply Ej. by eapply NoDup_lookup.
  - intros d Hd. destruct (decide (c_id d = c_id c)) as [Eid|Hdc].
    { assert (d = c) as -> by (eapply ids_inj; [apply Hl|done..]). lia. }
    rewrite Ho by (done || congruence).
    destruct Hl as (_ & Hw & _). rewrite Forall_forall in Hw.
    specialize (Hw d Hd). specialize (Hlow d Hd). simpl in Hw. lia.
  - rewrite (zsum_change (score sc') (λ d, score sc d + weight d) l c (- total_weight l)); [|done|done| |lia].
    + rewrite zsum_add, Hsum. unfold total_weight. lia.
    + intros d Hd Hdc. by apply Ho.
Qed.

(** C18. Smooth weighted round robin is fair: from fresh scores, while the eligible
    endpoints stay the same, every block of as many choices as the sum of their weights
    chooses each endpoint exactly as often as its weight says, and leaves all scores at
    zero for the next block. *)
Theorem weighted_fair l scores :
  candidates_ok l → total_weight l < 2 ^ 62 → (∀ c, c ∈ l → score scores c = 0) →
  ∃ ps scores', picks (Z.to_nat (total_weight l)) l scores = Ok (ps, scores') ∧
    ∀ j c, l !! j = Some c → times j ps = weight c ∧ score scores' c = 0.
Proof.
  intros Hl Htw H0. pose proof (total_weight_pos l Hl) as Hpos.
  destruct (picks_spec l scores (Z.to_nat (total_weight l)) Hl Htw H0) as (ps & sc & E & Hf & Hlow & Hsum).
  exists ps, sc. split; [done|]. rewrite Z2Nat.id in Hf by lia.
  assert (∀ c, c ∈ l → 0 ≤ score sc c) as Hnn.
  { intros c Hc. pose proof (Hlow c Hc) as Hlc. apply list_elem_of_lookup_1 in Hc as [j Hj].
    rewrite (Hf j c Hj) in Hlc |- *. set (W := total_weight l) in *.
    assert (0 ≤ weight c - times j ps) by nia. nia. }
  intros j c Hj. pose proof (zsum_zero _ _ Hnn Hsum c (list_elem_of_lookup_2 _ _ _ Hj)) as Hz.
  split; [|done]. rewrite (Hf j c Hj) in Hz. nia.
Qed.
End weighted.

(** ** Candidates *)

Section candidates.
Context `{HL : HttpLibs} `{UL : !UrlLibs} `{GL : GateLibs}.

(** The endpoints by index never change: their configuration and their proxy. *)
Definition cfgs (u : Upstreams) : list (Binding * HttpProxy) :=
  map (λ e, (e_config e, e_proxy e)) (u_endpoints u).
(** A gate stays the same gate and in order. *)
Definition gate_evolves (a b : option Gate) : Prop :=
  match a, b with
  | Some g, Some g' => same_gate g g' ∧ (gate_ready g → gate_ready g')
  | None, None => True
  | _, _ => False
  end.
#[global] Instance gate_evolves_preorder : PreOrder gate_evolves.
Proof.
  split; [by intros [g|]|]. intros [a|] [b|] [c|]; try done.
  intros [H1 H2] [H3 H4]. split; [by etrans|]. intros Hr. by apply H4, H2.
Qed.
(** What the calls in this file keep: the configuration, the endpoints and the gate. *)
Definition same_config (u u' : Upstreams) : Prop :=
  u_config u' = u_config u ∧ u_cookie_name u' = u_cookie_name u ∧ u_probe_host u' = u_probe_host u ∧
  cfgs u' = cfgs u ∧ gate_evolves (u_gate u) (u_gate u').
#[global] Instance same_config_preorder : PreOrder same_config.
Proof.
  split; [intros u; by split_and!|]. intros a b c (?&?&?&?&?) (?&?&?&?&?).
  unfold same_config in *. split_and!; try congruence. by etrans.
Qed.

Lemma on_endpoint_config i f u :
  (∀ e, e_config (f e) = e_config e ∧ e_proxy (f e) = e_proxy e) → same_config u (on_endpoint i f u).
Proof.
  intros Hf. split_and!; try done. unfold cfgs, on_endpoint, set_endpoints. cbn.
  apply list_eq. intros j. rewrite !list_lookup_fmap, list_lookup_alter.
  destruct (decide (i = j)) as [->|]; [|done]. destruct (u_endpoints u !! j) as [e|]; simpl; [|done].
  by destruct (Hf e) as [-> ->].
Qed.

Lemma swap_first_perm {A} pick (l k : list A) : swap_first pick l = Ok k → k ≡ₚ l.
Proof.
  unfold swap_first. intros H. apply rbind_ok in H as (a & Ha & H). apply rbind_ok in H as (b & Hb & [= <-]).
  destruct l as [|x l]; [done|]. injection Ha as ->. destruct pick as [|n]; simpl in *.
  { by injection Hb as <-. }
  destruct (l !! n) as [y|] eqn:Hy; [|done]. injection Hb as ->.
  rewrite (insert_take_drop l n a) by by eapply lookup_lt_Some.
  rewrite <- (take_drop_middle l n b Hy) at 3. rewrite <- !Permutation_middle. apply perm_swap.
Qed.
Lemma swap_first_ok {A} pick (l : list A) : l ≠ [] → (pick < length l)%nat →
  ∃ k x, swap_first pick l = Ok k ∧ l !! pick = Some x ∧ head k = Some x.
Proof.
  intros Hne Hp. destruct l as [|a l]; [done|]. unfold swap_first. cbn [head unwrap rbind].
  destruct (lookup_lt_is_Some_2 _ _ Hp) as [x Hx]. rewrite Hx. cbn [unwrap rbind].
  eexists _, x. split; [done|]. split; [done|]. by destruct pick.
Qed.
Lemma position_some {A} (f : A → bool) l n : position f l = Some n → ∃ x, l !! n = Some x ∧ f x = true.
Proof.
  revert n. induction l as [|x l IH]; intros n; simpl; [done|]. destruct (f x) eqn:E.
  { intros [= <-]. by exists x. }
  destruct (position f l) as [k|]; [|done]. intros [= <-]. by apply IH.
Qed.

Lemma min_active_lt l order j : Forall (λ i, (i < length l)%nat) order →
  min_active l order = Some j → (j < length l)%nat.
Proof.
  intros H. revert j. induction H as [|i order Hi Ho IH]; intros j; simpl; [done|].
  destruct (min_active l order) as [k|].
  - destruct (l !! i); [|intros [= <-]; by apply IH]. destruct (l !! k); [case_match|];
      intros [= <-]; first [done|by apply IH].
  - by intros [= <-].
Qed.

Lemma weigh_best l : ∀ i scores total best bs scores' total' best',
  weigh i l scores total best bs = (scores', total', best') →
  (best' = best ∨ i ≤ best' < i + length l)%nat ∧
  (∀ k, is_Some (scores !! k) → is_Some (scores' !! k)) ∧
  (∀ c, c ∈ l → is_Some (scores' !! c_id c)).
Proof.
  induction l as [|c l IH]; intros i scores total best bs scores' total' best' H.
  { injection H as <- <- <-. split_and!; [by left|done|]. by intros c ?%elem_of_nil. }
  cbn [weigh] in H.
  destruct (bs <? _); apply IH in H as (H1 & H2 & H3); simpl length; (split_and!; [lia| |]).
  all: try (intros k Hk; apply H2; rewrite lookup_insert_is_Some'; by right).
  all: intros d [->|Hd]%elem_of_cons; [apply H2; rewrite lookup_insert_eq; eauto|by apply H3].
Qed.

Lemma strategy_pick_ok l u : l ≠ [] →
  ∃ pick u', strategy_pick l u = Ok (pick, u') ∧ (pick < length l)%nat ∧ same_config u u' ∧
    u_endpoints u' = u_endpoints u.
Proof.
  intros Hne. assert (0 < length l)%nat as Hpos by (destruct l; [done|simpl; lia]).
  assert (Z.to_nat (u_cursor u mod len l) < length l)%nat as Hstart.
  { pose proof (Z.mod_pos_bound (u_cursor u) (len l)). lia. }
  unfold strategy_pick. destruct (strategy (u_config u)).
  - eexists _, _. split; [done|]. by split_and!.
  - unfold weighted_pick. destruct (weigh _ _ _ _ _ _) as [[sc tot] best] eqn:E.
    apply weigh_best in E as (Hb & _ & Hs). assert (best < length l)%nat as Hlt by lia.
    destruct (lookup_lt_is_Some_2 _ _ Hlt) as [c Hc]. rewrite Hc. cbn [unwrap rbind].
    destruct (Hs c) as [x Hx]; [by eapply list_elem_of_lookup_2|]. rewrite Hx. cbn [unwrap rbind].
    eexists _, _. split; [done|]. by split_and!.
  - eexists _, _. split; [done|]. split; [|by split_and!].
    destruct (min_active _ _) as [j|] eqn:E; [|done]. simpl. eapply min_active_lt; [|exact E].
    apply Forall_map, Forall_forall. intros n _. apply Nat.mod_upper_bound. lia.
Qed.

(** The choice never fails: a rearrangement of the eligible endpoints, first the sticky
    one when it is eligible in balance mode. *)
Lemma candidates_spec excluded sticky now u :
  ∃ l u', candidates excluded sticky now u = Ok (l, u') ∧ l ≡ₚ eligible_list excluded now u ∧
    same_config u u' ∧ u_endpoints u' = u_endpoints u ∧
    (r_mode (u_config u) = Balance → ∀ id, sticky = Some id →
       id ∈ map c_id (eligible_list excluded now u) → c_id <$> head l = Some id).
Proof.
  unfold candidates. cbv zeta. set (l := eligible_list excluded now u).
  destruct (len l =? 0) eqn:E0.
  { exists l, u. assert (l = []) as El by (destruct l; [done|simpl in E0; lia]). rewrite El.
    split_and!; try done. intros _ id _ Hid. by apply elem_of_nil in Hid. }
  assert (l ≠ []) as Hne by by destruct l.
  destruct (bool_decide (r_mode (u_config u) = Priority)) eqn:Em.
  { apply bool_decide_eq_true_1 in Em. eexists _, u. split; [reflexivity|]. split_and!; try done.
    - case_bool_decide; [apply sort_by_perm|done].
    - intros Hb. congruence. }
  set (found := id ← sticky; position _ l).
  assert (∃ pick u', (match found with Some pick => Ok (pick, u) | None => strategy_pick l u end)
     = Ok (pick, u') ∧ (pick < length l)%nat ∧ same_config u u' ∧ u_endpoints u' = u_endpoints u ∧
     (∀ n, found = Some n → pick = n)) as (pick & u' & -> & Hp & Hc & He & Hf).
  { destruct found as [n|] eqn:Ef.
    - exists n, u. split_and!; try done; [|congruence]. unfold found in Ef.
      destruct sticky as [id|]; [|done]. simpl in Ef. apply position_some in Ef as (x & Hx & _).
      by eapply lookup_lt_Some.
    - destruct (strategy_pick_ok l u Hne) as (pick & u' & -> & ? & ? & ?). exists pick, u'. by split_and!. }
  cbn [rbind]. destruct (swap_first_ok pick l Hne Hp) as (k & x & Ek & Hx & Hk).
  rewrite Ek. cbn [rbind]. exists k, u'. split_and!; try done; [by eapply swap_first_perm|].
  intros _ id -> Hid. rewrite Hk. simpl. f_equal.
  assert (∃ n, found = Some n ∧ ∀ y, l !! n = Some y → c_id y = id) as (n & Hn & Hy).
  { unfold found. cbn. clear -Hid. induction l as [|c l IH]; [by apply elem_of_nil in Hid|].
    cbn [position]. case_bool_decide as E.
    - exists 0%nat. split; [done|]. intros y [= <-]. done.
    - apply elem_of_cons in Hid as [?|Hid]; [by subst|]. destruct (IH Hid) as (n & -> & Hy).
      exists (S n). by split. }
  apply Hy. by rewrite <- (Hf n Hn).
Qed.

Lemma eligible_list_elem excluded now u i e :
  (i, e) ∈ eligible_list excluded now u ↔
  u_endpoints u !! i = Some e ∧ eligible u excluded now e = true.
Proof.
  unfold eligible_list. rewrite list_elem_of_In, filter_In, <- list_elem_of_In, elem_of_lookup_imap. simpl.
  naive_solver.
Qed.
End candidates.

(** ** Forwarding *)

Section forwarding.
Context `{HL : HttpLibs} `{UL : !UrlLibs} `{GL : GateLibs}.

Lemma outcome_config i ok st lat probe reason now at_ u :
  same_config u (outcome i ok st lat probe reason now at_ u).
Proof. apply on_endpoint_config. intros e. by case_match. Qed.
Lemma application_error_config i st at_ u : same_config u (application_error i st at_ u).
Proof. by apply on_endpoint_config. Qed.

Lemma same_config_cfgs u u' : same_config u u' → cfgs u' = cfgs u.
Proof. by intros (_ & _ & _ & ? & _). Qed.

Lemma candidates_head excluded sticky now u :
  ∃ l u', candidates excluded sticky now u = Ok (l, u') ∧ same_config u u' ∧
    ∀ i e, head l = Some (i, e) →
      cfgs u !! i = Some (e_config e, e_proxy e) ∧ b_enabled (e_config e) = true ∧
      b_id (e_config e) ∉ excluded.
Proof.
  destruct (candidates_spec excluded sticky now u) as (l & u' & E & Hp & Hc & _ & _).
  exists l, u'. split; [done|]. split; [done|]. intros i e Hh.
  assert ((i, e) ∈ eligible_list excluded now u) as Hin.
  { rewrite <- Hp. destruct l as [|c l]; [done|]. injection Hh as ->. by left. }
  apply eligible_list_elem in Hin as [Hi He]. unfold eligible in He.
  apply andb_true_iff in He as [[He Hx]%andb_true_iff _]. unfold cfgs. rewrite list_lookup_fmap, Hi.
  split_and!; [done|done|]. by apply negb_true_iff, bool_decide_eq_false in Hx.
Qed.

(** One attempt of the trace: an enabled endpoint; the request for its proxy carries the body
    exactly when it is not replayed; what left is that request as the proxy prepares it. *)
Definition sent_ok (u : Upstreams) (q : Request) (s : Sent) : Prop :=
  ∃ b p, cfgs u !! s_endpoint s = Some (b, p) ∧ b_enabled b = true ∧
    s_request s = attempt_request u q (if replayable q then no_body else q_body q) ∧
    prepare p (s_request s) = Ok (s_wire s).
Definition tried (u : Upstreams) (excluded : gset string) (s : Sent) : Prop :=
  ∃ b p, cfgs u !! s_endpoint s = Some (b, p) ∧ b_id b ∈ excluded.

Record progress_ok (u : Upstreams) (q : Request) (single : bool) (p : Progress) : Prop := {
  pk_body : replayable q = false → trace p = [] ∧ body_ p = Some (q_body q);
  pk_sent : Forall (sent_ok u q) (trace p);
  pk_tried : single = false → Forall (tried u (excluded p)) (trace p);
  pk_nodup : single = false → NoDup (map s_endpoint (trace p));
}.
Record trace_ok (u : Upstreams) (q : Request) (single : bool) (t : list Sent) : Prop := {
  tk_once : replayable q = false → (length t ≤ 1)%nat;
  tk_sent : Forall (sent_ok u q) t;
  tk_nodup : single = false → NoDup (map s_endpoint t);
}.

Lemma sent_ok_config u u' q s : same_config u u' → sent_ok u' q s ↔ sent_ok u q s.
Proof. intros (E1 & E2 & _ & E4 & _). unfold sent_ok, attempt_request. by rewrite E1, E2, E4. Qed.
Lemma progress_config u u' q single p :
  same_config u u' → progress_ok u q single p → progress_ok u' q single p.
Proof.
  intros Hc [H1 H2 H3 H4]. split; try done.
  - eapply Forall_impl; [exact H2|]. intros s. by apply sent_ok_config.
  - intros Hs. eapply Forall_impl; [exact (H3 Hs)|]. intros s. unfold tried. by rewrite (same_config_cfgs _ _ Hc).
Qed.
Lemma trace_config u u' q single t :
  same_config u u' → trace_ok u' q single t → trace_ok u q single t.
Proof.
  intros Hc [H1 H2 H3]. split; try done. eapply Forall_impl; [exact H2|]. intros s.
  by apply (sent_ok_config u u').
Qed.

Lemma progress_trace u q single p : progress_ok u q single p → trace_ok u q single (trace p).
Proof.
  intros [H1 H2 H3 H4]. split; try done. intros Hr. destruct (H1 Hr) as [-> _]. simpl. lia.
Qed.

(** The progress after another attempt. *)
Lemma attempt_ok u q single p i b px kept wire :
  progress_ok u q single p → cfgs u !! i = Some (b, px) → b_enabled b = true → b_id b ∉ excluded p →
  let request := attempt_request u q (if replayable q then no_body else q_body q) in
  prepare px request = Ok wire →
  let p' := mkProgress ({[b_id b]} ∪ excluded p) kept (trace p ++ [mkSent i request wire]) in
  trace_ok u q single (trace p') ∧ (replayable q = true → progress_ok u q single p').
Proof.
  intros [H1 H2 H3 H4] Hi He Hx request Hw p'.
  assert (Forall (sent_ok u q) (trace p')) as Hs.
  { apply Forall_app. split; [done|]. apply Forall_singleton. by exists b, px. }
  assert (single = false → NoDup (map s_endpoint (trace p'))) as Hn.
  { intros Hf. unfold p'. cbn [trace]. rewrite map_app. apply NoDup_app. split_and!; [by apply H4| |].
    - intros j Hj Hj'. apply list_elem_of_singleton in Hj' as ->. apply Hx.
      apply list_elem_of_fmap in Hj as (s & Es & Hin). specialize (H3 Hf). rewrite Forall_forall in H3.
      destruct (H3 s Hin) as (b' & p2 & Hb' & ?). simpl in Es. rewrite <- Es, Hi in Hb'. by injection Hb' as <- <-.
    - apply NoDup_singleton. }
  split.
  - split; [|done|done]. intros Hr. unfold p'. cbn [trace]. destruct (H1 Hr) as [-> _]. simpl. lia.
  - intros Hr. split; [congruence|done| |done]. intros Hf. unfold p'. cbn [trace excluded].
    apply Forall_app. split.
    + eapply Forall_impl; [by apply H3|]. intros s (b' & p2 & ? & ?). exists b', p2. set_solver.
    + apply Forall_singleton. exists b, px. set_solver.
Qed.

(** A state that [new] builds can forward without a panic. *)
Definition pool_ok (u : Upstreams) : Prop :=
  is_text (u_cookie_name u) = true ∧
  Forall (λ c, is_text (b_id c.1) = true ∧ proxy_ok c.2) (cfgs u).
Lemma pool_config u u' : same_config u u' → pool_ok u → pool_ok u'.
Proof. intros (_ & E2 & _ & E4 & _). unfold pool_ok. by rewrite E2, E4. Qed.
Lemma affinity_cookie_text u id secure :
  is_text (u_cookie_name u) = true → is_text id = true → is_text (affinity_cookie u id secure) = true.
Proof.
  intros H1 H2. unfold affinity_cookie. rewrite !is_text_app, H1, H2.
  rewrite !is_text_spec. by destruct secure.
Qed.

Section loop.
Variables (replies : nat → nat → Reply) (clock : nat → Z) (q : Request) (secure : bool)
  (sticky : option string) (single : bool) (attempts : nat).
Hypothesis others_keep : ∀ a i u, same_config u (rp_others (replies a i) u).

Lemma forward_loop_spec fuel : ∀ attempt p u,
  pool_ok u → progress_ok u q single p →
  ∃ sent response u', forward_loop replies clock q secure sticky single attempts fuel attempt p u
    = Ok (sent, response, u') ∧ trace_ok u q single sent ∧
    (length sent ≤ length (trace p) + fuel)%nat ∧ same_config u u'.
Proof.
  induction fuel as [|fuel IH]; intros attempt p u Hok Hp.
  { exists (trace p), unavailable, u. split_and!; [done|by apply progress_trace|lia|done..]. }
  cbn [forward_loop].
  destruct (candidates_head (excluded p) sticky (clock attempt) u) as (l & u1 & E & Hc1 & Hh).
  rewrite E. cbn [rbind]. destruct l as [|[i e] l].
  { exists (trace p), unavailable, u1. split_and!; [done|by apply progress_trace|lia|apply Hc1..]. }
  destruct (Hh i e eq_refl) as (Hi & Hen & Hx). clear Hh.
  set (u2 := on_endpoint i start_request u1).
  assert (same_config u u2) as Hc2 by (etrans; [exact Hc1|by apply on_endpoint_config]).
  set (bd := if replayable q then no_body else q_body q).
  assert (∃ kept, (if replayable q then Ok (no_body, body_ p) else let! b := unwrap (body_ p) in Ok (b, None))
    = Ok (bd, kept)) as [kept ->].
  { unfold bd. destruct (replayable q) eqn:Er; [by eexists|].
    destruct (pk_body _ _ _ _ Hp Er) as [_ ->]. by eexists. }
  cbn [rbind]. set (r := replies attempt i).
  assert (is_text (b_id (e_config e)) = true ∧ proxy_ok (e_proxy e)) as [Hid Hpx].
  { destruct Hok as [_ Hok]. rewrite Forall_forall in Hok.
    exact (Hok _ (list_elem_of_lookup_2 _ _ _ Hi)). }
  assert (attempt_request u2 q bd = attempt_request u q bd) as ->.
  { destruct Hc2 as (E1 & E2 & _). unfold attempt_request. by rewrite E1, E2. }
  set (request := attempt_request u q bd). unfold try_forward.
  destruct (prepare_ok (e_proxy e) request Hpx) as [wire Hw]. rewrite Hw. cbn [rbind].
  set (u3 := rp_others r u2).
  assert (same_config u u3) as Hc3 by (etrans; [exact Hc2|apply others_keep]).
  destruct (attempt_ok u q single p i (e_config e) (e_proxy e) kept wire Hp Hi Hen Hx Hw) as (Ht & Hgo).
  fold bd request in Ht, Hgo. set (p' := mkProgress _ _ _) in *.
  assert (length (trace p') = S (length (trace p))) as Hlen.
  { unfold p'. cbn [trace]. rewrite length_app. simpl. lia. }
  destruct (match wire with Some _ => _ | None => _ end) as [response|err].
  - set (st := p_status response). set (failed := gateway_failure st).
    set (u4 := if failed && single_enabled u3 then _ else _).
    assert (same_config u u4) as Hc4.
    { etrans; [exact Hc3|]. unfold u4.
      destruct (failed && single_enabled u3); [apply application_error_config|apply outcome_config]. }
    assert (∃ again u5, (if failed && replayable q then
        let! '(list, u) := candidates ({[b_id (e_config e)]} ∪ excluded p) None (rp_now r) u4 in
        Ok (negb (len list =? 0), u) else Ok (false, u4)) = Ok (again, u5) ∧ same_config u u5 ∧
        (again = true → replayable q = true)) as (again & u5 & -> & Hc5 & Ha).
    { destruct (failed && replayable q) eqn:Ef.
      - destruct (candidates_head ({[b_id (e_config e)]} ∪ excluded p) None (rp_now r) u4)
          as (l2 & u5 & E2 & Hc5 & _).
        rewrite E2. cbn [rbind]. eexists _, u5. split; [done|]. split; [by etrans|].
        intros _. by apply andb_true_iff in Ef as [_ ?].
      - exists false, u4. by split_and!. }
    cbn [rbind]. destruct again.
    + set (u6 := on_endpoint i end_lease u5).
      assert (same_config u u6) as Hc6 by (etrans; [exact Hc5|by apply on_endpoint_config]).
      destruct (IH (S attempt) p' u6) as (sent & resp & u' & E' & H1 & H2 & H3).
      { by apply (pool_config u). }
      { apply (progress_config u); [done|]. by apply Hgo, Ha. }
      exists sent, resp, u'. split_and!; [done|by apply (trace_config u u6)|lia|..]; by etrans.
    + assert (∃ h, (if sticky_sessions (u_config u5) && bool_decide (r_mode (u_config u5) = Balance) then
          let! value := unwrap (to_str (affinity_cookie u5 (b_id (e_config e)) secure)) in
          Ok (append_header "set-cookie" value (p_headers response)) else Ok (p_headers response)) = Ok h) as [h ->].
      { destruct (sticky_sessions _ && _); [|by eexists]. unfold to_str.
        rewrite affinity_cookie_text; [by eexists| |done]. by apply (pool_config u u5) in Hok as [? _]. }
      cbn [rbind]. eexists _, _, u5. split; [done|]. split_and!; [done|lia|apply Hc5..].
  - set (u4 := on_endpoint i end_lease _).
    assert (same_config u u4) as Hc4.
    { etrans; [exact Hc3|]. etrans; [apply outcome_config|]. by apply on_endpoint_config. }
    destruct (replayable q) eqn:Er; cbn [negb].
    2:{ eexists _, _, u4. split; [done|]. split_and!; [done|lia|apply Hc4..]. }
    set (p2 := if single && _ && _ then _ else p').
    assert (progress_ok u q single p2 ∧ length (trace p2) = length (trace p')) as [Hp2 Hl2].
    { unfold p2. destruct (single && _ && _) eqn:Es; [|by split; [apply Hgo|]]. split; [|done].
      apply andb_true_iff in Es as [[Es _]%andb_true_iff _]. destruct (Hgo eq_refl) as [H1 H2 H3 H4].
      split; try done; congruence. }
    destruct (IH (S attempt) p2 u4) as (sent & resp & u' & E' & H1 & H2 & H3).
    { by apply (pool_config u). }
    { by apply (progress_config u). }
    exists sent, resp, u'. split_and!; [done|by apply (trace_config u u4)|lia|..]; by etrans.
Qed.
End loop.

Lemma passive_single_config u u' : same_config u u' → passive_single u' = passive_single u.
Proof.
  intros (E1 & _ & _ & E4 & _). unfold passive_single. rewrite E1. f_equal. f_equal.
  assert (∀ u, length (take 2 (List.filter (λ e, b_enabled (e_config e)) (u_endpoints u)))
    = length (take 2 (List.filter (λ c : Binding * HttpProxy, b_enabled c.1) (cfgs u)))) as Hl.
  { intros v. unfold cfgs. rewrite !length_take. f_equal. induction (u_endpoints v) as [|e es IH]; [done|].
    cbn [map List.filter fst]. destruct (b_enabled (e_config e)); simpl; by rewrite IH. }
  by rewrite (Hl u), (Hl u'), E4.
Qed.

(** What the access gate of the proxy lets through. *)
Definition let_through (env : ForwardEnv) (u : Upstreams) (q q' : Request) : Prop :=
  match u_gate u with
  | Some g => stripped (g_cookie g) q q' ∧
              (by_session g (ge_now (fe_gate env)) q q' ∨ by_credential g q q')
  | None => q' = q
  end.
(** What the other requests of the proxy may do meanwhile. *)
Record env_fine (env : ForwardEnv) (u : Upstreams) : Prop := {
  ev_gate g : u_gate u = Some g → gate_ready g ∧ env_ok (fe_gate env) g;
  ev_meanwhile v : same_config v (fe_meanwhile env v);
  ev_replies a i v : same_config v (rp_others (fe_replies env a i) v) }.

Lemma upstreams_forward_ok env q secure u :
  pool_ok u → env_fine env u →
  ∃ q' sent response u',
    forward_with_security env q secure u = Ok (sent, response, u') ∧ same_config u u' ∧
    (sent = [] ∨ let_through env u q q') ∧
    Z.of_nat (length sent) ≤ Z.max 0 (max_attempts (u_config u)) ∧
    trace_ok u q' (passive_single u) sent.
Proof.
  intros Hok [Hg Hm Ho]. unfold forward_with_security.
  assert (∃ x v, match u_gate u with
      | Some g => let! '(x, g) := authorize (fe_gate env) q secure g in
                  Ok (x, set_gate (Some g) (fe_meanwhile env u))
      | None => Ok (inl q, u)
      end = Ok (x, v) ∧ same_config u v ∧ (∀ q', x = inl q' → let_through env u q q'))
    as (x & v & -> & Hc & Hx).
  { unfold let_through. destruct (u_gate u) as [g|] eqn:Eg.
    - destruct (Hg g eq_refl) as [Hr He].
      destruct (authorize_ok (fe_gate env) q secure g Hr He) as (x & g' & -> & Hs & Hr' & Hx).
      eexists x, _. split; [done|]. split; [|done]. destruct (Hm u) as (E1 & E2 & E3 & E4 & _).
      split_and!; try done. by rewrite Eg.
    - exists (inl q), u. split_and!; try done. by intros q' [= <-]. }
  cbn [rbind]. destruct x as [q'|resp].
  2:{ exists q, [], resp, v. split_and!; [done|done|by left|simpl; lia|]. split; [simpl; lia|done|intros; constructor]. }
  cbv zeta. set (attempts := Nat.min _ _). set (p := mkProgress _ _ _).
  destruct (forward_loop_spec (fe_replies env) (fe_clock env) q' secure (sticky_id v q') (passive_single v)
    attempts Ho attempts 0 p v) as (sent & resp & u' & E & Ht & Hl & Hc').
  { by apply (pool_config u). }
  { split; try done. intros; constructor. }
  apply (trace_config u) in Ht; [|done].
  exists q', sent, resp, u'. rewrite E. rewrite (passive_single_config u v Hc) in *.
  split_and!; [done|by etrans|right; by apply Hx| |done]. destruct Hc as (E1 & _). rewrite <- E1.
  simpl in Hl. lia.
Qed.

(** C19. A request is forwarded safely, whatever the replies and whatever other requests
    and probes do meanwhile: the loop never panics, makes at most the configured number of
    attempts, only for a request the gate let through, tries only enabled endpoints, and no
    endpoint twice unless a sole passive one; a request that is not a bodiless GET or HEAD
    leaves at most once, with its body, while a replayed one never carries it. *)
Theorem forward_safe env q secure u :
  pool_ok u → env_fine env u →
  ∃ q' sent response u',
    forward_with_security env q secure u = Ok (sent, response, u') ∧
    (sent = [] ∨ let_through env u q q') ∧
    Z.of_nat (length sent) ≤ Z.max 0 (max_attempts (u_config u)) ∧
    (replayable q' = false → (length sent ≤ 1)%nat) ∧
    Forall (sent_ok u q') sent ∧
    (passive_single u = false → NoDup (map s_endpoint sent)).
Proof.
  intros Hok He. destruct (upstreams_forward_ok env q secure u Hok He) as (q' & sent & r & u' & E & _ & Hl & Hn & [H1 H2 H3]).
  by exists q', sent, r, u'.
Qed.

(** ** Construction *)

Lemma text_of_bytes_class (f : Z → bool) s :
  (∀ b, f b = true → visible_byte b = true) → all_bytes f s = true → is_text s = true.
Proof.
  intros Hf Hs. rewrite is_text_spec. unfold all_bytes in *. rewrite forallb_forall in *.
  intros b Hb. by apply Hf, Hs.
Qed.
Lemma validate_health_path c u : validate_health c = Ok u → is_Some (parse_uri (hc_path c)).
Proof. unfold validate_health. intros E. res_inv. by eapply bool_decide_eq_true_1. Qed.
(** The path of a probe is a target. *)
Definition path_ok (b : Binding) : Prop := ∀ path, health_path b = Some path → is_Some (parse_uri path).
Definition probe_ok (u : Upstreams) : Prop :=
  is_text (u_probe_host u) = true ∧ is_Some (parse_uri (hc_path (r_health (u_config u)))) ∧
  Forall (λ c, path_ok c.1) (cfgs u).
Definition fresh_gate (access : option AccessConfig) (g : option Gate) : Prop :=
  match access, g with
  | Some a, Some g => g_config g = a ∧ gate_ready g ∧ sessions g = ∅ ∧ verified g = None
  | None, None => True
  | _, _ => False
  end.

Lemma new_endpoints_ok config now bindings : ∀ ids es,
  new_endpoints config now ids bindings = Ok es →
  Forall (λ e, (is_text (b_id (e_config e)) = true ∧ proxy_ok (e_proxy e)) ∧ path_ok (e_config e)) es ∧
  map e_config es = bindings ∧ NoDup (map b_id bindings) ∧ Forall (λ b, b_id b ∉ ids) bindings.
Proof.
  induction bindings as [|b bindings IH]; intros ids es E; cbn [new_endpoints] in E.
  { injection E as <-. split_and!; try constructor. }
  res_inv. match goal with E : web _ _ = Ok _ |- _ => apply web_ok in E as Hp end.
  match goal with E : new_endpoints _ _ _ _ = Ok _ |- _ => apply IH in E as (H1 & H2 & H3 & H4) end.
  match goal with E : binding_id_ok _ && _ = true |- _ => apply andb_true_iff in E as [Hid Hn] end.
  apply negb_true_iff, bool_decide_eq_false in Hn.
  split_and!.
  - constructor; [|done]. split; [split; [|done]|].
    + unfold binding_id_ok in Hid. apply andb_true_iff in Hid as [_ Hid].
      eapply text_of_bytes_class; [|exact Hid]. intros x.
      unfold visible_byte, is_ascii_alphanumeric, is_ascii_digit, is_ascii_uppercase, is_ascii_lowercase. lia.
    + intros path Epath. cbn [e_config] in Epath.
      match goal with E : match health_path b with _ => _ end = Ok _ |- _ => rewrite Epath in E;
        exact (validate_health_path _ _ E) end.
  - cbn. by f_equal.
  - cbn. apply NoDup_cons. split; [|done]. intros (c & Ec & Hc)%list_elem_of_fmap.
    rewrite Forall_forall in H4. apply (H4 c Hc). set_solver.
  - constructor; [done|]. eapply Forall_impl; [exact H4|]. intros c. set_solver.
Qed.
Lemma new_ok id hosts bindings config access uuid now u :
  new id hosts bindings config access uuid now = Ok u →
  pool_ok u ∧ u_config u = config ∧ map e_config (u_endpoints u) ≡ₚ bindings ∧
  NoDup (map b_id bindings) ∧ u_probe_host u = default "" (head hosts) ∧
  fresh_gate access (u_gate u) ∧ (is_text (u_probe_host u) = true → probe_ok u).
Proof.
  unfold new. intros E. res_inv.
  match goal with E : new_endpoints _ _ _ _ = Ok _ |- _ => apply new_endpoints_ok in E as (H1 & H2 & H3 & _) end.
  match goal with E : match access with _ => _ end = Ok ?g |- _ => rename g into gate; rename E into Hg end.
  unfold pool_ok, probe_ok, cfgs. cbn [u_config u_endpoints u_cookie_name u_gate u_probe_host].
  assert (Permutation (sort_by (λ a b : Endpoint, b_priority (e_config a) ?= b_priority (e_config b)) v1) v1)
    as Hperm by apply sort_by_perm.
  split_and!; try done.
  - rewrite is_text_app. apply andb_true_iff. split; [by rewrite is_text_spec|].
    eapply (text_of_bytes_class visible_byte); [done|]. generalize (bytes_of id). intros l.
    induction l as [|b l IH]; [done|]. cbn [map String.string_of_list_ascii]. rewrite all_bytes_cons, IH, andb_true_r.
    unfold cookie_char. destruct (is_ascii_alphanumeric b) eqn:Eb; [|done].
    assert (0 ≤ b < 256) as Hb.
    { unfold is_ascii_alphanumeric, is_ascii_digit, is_ascii_uppercase, is_ascii_lowercase in Eb. lia. }
    unfold byte_of. rewrite N_ascii_embedding by lia. rewrite Z2N.id by lia.
    unfold visible_byte, is_ascii_alphanumeric, is_ascii_digit, is_ascii_uppercase, is_ascii_lowercase in *. lia.
  - apply Forall_map. rewrite Hperm. eapply Forall_impl; [exact H1|]. by intros e [? _].
  - rewrite Hperm. by rewrite H2.
  - unfold fresh_gate. destruct access as [a|]; res_inv; [|done].
    match goal with E : gate_new _ _ _ = Ok _ |- _ => apply gate_new_ready in E as [? ->] end. by split_and!.
  - intros Ht. split_and!; [done| |].
    + unfold validate_routing in *. res_inv. by eapply validate_health_path.
    + apply Forall_map. rewrite Hperm. eapply Forall_impl; [exact H1|]. by intros e [_ ?].
Qed.

(** ** Probing *)

Lemma probe_config u u' : same_config u u' → probe_ok u → probe_ok u'.
Proof. intros (E1 & _ & E3 & E4 & _). unfold probe_ok. by rewrite E1, E3, E4. Qed.
Lemma probe_all_ok start replies order : ∀ u,
  (∀ i v, same_config v (pr_others (replies i) v)) → pool_ok u → probe_ok u →
  ∃ u', probe_all order start replies u = Ok u' ∧ same_config u u'.
Proof.
  induction order as [|i order IH]; intros u Ho Hok Hp; cbn [probe_all]; [by exists u|].
  assert (∃ v, match u_endpoints u !! i with
    | Some e => if down (e_health e) && (start i <? retry_at (e_health e)) then Ok u
        else let! q := probe_request u e in
             let! '(_, result) := try_forward (e_proxy e) q (default SendTimedOut (pr_send (replies i))) in
             let st := match pr_send (replies i), result with Some _, inl r => Some (p_status r) | _, _ => None end in
             let success := match st with
                            | Some s => in_range (expected_status_min (r_health (u_config u)))
                                          (expected_status_max (r_health (u_config u))) s
                            | None => false end in
             Ok (outcome i success st (pr_latency (replies i)) true None (pr_now (replies i)) (pr_at (replies i))
                   (pr_others (replies i) u))
    | None => Ok u end = Ok v ∧ same_config u v) as (v & Ev & Hc).
  { destruct (u_endpoints u !! i) as [e|] eqn:Ei; [|by exists u]. destruct (_ && _); [by exists u|].
    assert (cfgs u !! i = Some (e_config e, e_proxy e)) as Ec.
    { unfold cfgs. by rewrite list_lookup_fmap, Ei. }
    apply list_elem_of_lookup_2 in Ec. destruct Hok as [_ Hok], Hp as (Ht & Hpath & Hps).
    rewrite Forall_forall in Hok, Hps. destruct (Hok _ Ec) as [_ Hpx]. pose proof (Hps _ Ec) as Hpp. cbn in Hpx, Hpp.
    unfold probe_request. assert (is_Some (parse_uri (default (hc_path (r_health (u_config u))) (health_path (e_config e)))))
      as [uri ->].
    { unfold path_ok in Hpp. destruct (health_path (e_config e)); [by apply Hpp|done]. }
    cbn [unwrap rbind]. unfold to_str at 1. rewrite Ht. cbn [unwrap rbind].
    set (q := mkRequest _ _ _ _ _).
    destruct (try_forward_ok (e_proxy e) q (default SendTimedOut (pr_send (replies i))) Hpx) as (w & x & ->).
    cbn [rbind]. eexists. split; [done|]. etrans; [apply (Ho i)|apply outcome_config]. }
  cbv zeta in Ev |- *. rewrite Ev. cbn [rbind]. destruct (IH v Ho) as (u' & -> & Hc').
  - by apply (pool_config u).
  - by apply (probe_config u).
  - exists u'. split; [done|]. by etrans.
Qed.
Lemma check_health_ok now order start replies u :
  (∀ i v, same_config v (pr_others (replies i) v)) → pool_ok u → probe_ok u →
  ∃ u', check_health now order start replies u = Ok u' ∧ same_config u u'.
Proof.
  intros Ho Hok Hp. unfold check_health. do 2 (case_match; [by exists u|]).
  set (v := set_probe _ true u). assert (same_config u v) as Hv by by split_and!.
  destruct (probe_all_ok start replies (List.filter (λ i, match u_endpoints v !! i with
    | Some e => b_enabled (e_config e) | None => false end) order) v) as (u' & -> & Hc); try done.
  cbn [rbind]. eexists. split; [done|]. etrans; [exact Hv|]. etrans; [exact Hc|]. by split_and!.
Qed.
End forwarding.

(** ** The affinity cookie *)

Section cookies.
Context `{HL : HttpLibs}.

Lemma find_cookie_none name parts :
  Forall (λ p, is_cookie name p = false) (map str_trim parts) → find_cookie name parts = None.
Proof.
  induction parts as [|p parts IH]; [done|]. cbn [map find_cookie]. intros [Hp Hps]%Forall_cons_1.
  unfold is_cookie in Hp. destruct (split_once "=" (str_trim p)) as [[k v]|]; [rewrite Hp|]; by apply IH.
Qed.
(** The first cookie header contributes its parts. *)
Lemma first_cookie_parts h s :
  get_text "cookie" h = Some s → ∃ rest, cookie_parts h = map str_trim (split ";" s) ++ rest.
Proof.
  unfold get_text, get_header, cookie_parts, header_texts. destruct (get_all "cookie" h) as [|v vs]; [done|].
  cbn. unfold to_str. destruct (is_text v); [|done]. intros [= <-]. cbn. rewrite map_app. by eexists.
Qed.
Lemma join_nonempty ps p : p ∈ ps → p ≠ "" → str_is_empty (join "; " ps) = false.
Proof.
  intros Hp Hne. destruct ps as [|x [|y ps]].
  - by apply elem_of_nil in Hp.
  - apply list_elem_of_singleton in Hp as ->. by destruct x.
  - change (join "; " (x :: y :: ps)) with (x +:+ "; " +:+ join "; " (y :: ps)). by destruct x.
Qed.

(** The cookies that are left. *)
Lemma strip_cookie_parts name h :
  let ps := List.filter (λ s, negb (is_cookie name s)) (cookie_parts h) in
  cookie_parts (strip_cookie name h) = if str_is_empty (join "; " ps) then [] else ps.
Proof.
  cbv zeta. unfold strip_cookie. set (ps := List.filter _ _).
  assert (Forall cookie_part_ok ps) as Hok.
  { apply Forall_forall. intros p [Hp _]%list_elem_of_In%filter_In. pose proof (cookie_parts_ok h) as H0.
    rewrite Forall_forall in H0. by apply H0, list_elem_of_In. }
  rewrite join_text, andb_true_r by done. destruct (str_is_empty (join "; " ps)) eqn:E; cbn [negb].
  - apply cookie_parts_none, get_all_remove_same.
  - apply cookie_parts_join; [by intros E'; rewrite E' in E|done|apply get_all_insert_same].
Qed.
Lemma strip_cookie_elem name h p :
  p ∈ cookie_parts (strip_cookie name h) → p ∈ cookie_parts h ∧ is_cookie name p = false.
Proof.
  rewrite strip_cookie_parts. destruct (str_is_empty _); [by intros ?%elem_of_nil|].
  by rewrite list_elem_of_In, filter_In, negb_true_iff, <- list_elem_of_In.
Qed.
Lemma strip_cookie_other name n h :
  eq_ignore_ascii_case n "cookie" = false → get_all n (strip_cookie name h) = get_all n h.
Proof.
  intros En. unfold strip_cookie. destruct (negb _ && _); [rewrite get_all_insert_ne by done|];
    by rewrite get_all_remove_ne.
Qed.

(** The affinity cookie never reaches an application: in the headers that are forwarded no
    part of a cookie names it, also not in the reading that finds it in a request; the
    other cookies stay, and so do all other headers. *)
Theorem affinity_cookie_stripped name h :
  let h' := strip_cookie name h in
  Forall (λ p, is_cookie name p = false) (cookie_parts h') ∧
  (∀ s, get_text "cookie" h' = Some s → find_cookie name (split ";" s) = None) ∧
  (∀ p, p ∈ cookie_parts h → is_cookie name p = false → p ≠ "" → p ∈ cookie_parts h') ∧
  (∀ n, eq_ignore_ascii_case n "cookie" = false → get_all n h' = get_all n h).
Proof.
  cbv zeta. assert (Forall (λ p, is_cookie name p = false) (cookie_parts (strip_cookie name h))) as Hall.
  { apply Forall_forall. by intros p [_ ?]%strip_cookie_elem. }
  split_and!; [done| | |by intros n; apply strip_cookie_other].
  - intros s Hs. apply find_cookie_none. destruct (first_cookie_parts _ s Hs) as [rest E].
    rewrite E in Hall. by apply Forall_app in Hall as [? _].
  - intros p Hp Hc Hne. rewrite strip_cookie_parts.
    assert (p ∈ List.filter (λ s, negb (is_cookie name s)) (cookie_parts h)) as Hin.
    { by rewrite list_elem_of_In, filter_In, negb_true_iff, <- list_elem_of_In. }
    by rewrite (join_nonempty _ p).
Qed.
End cookies.

(** ** Health with hysteresis *)

(** What happened to an endpoint, newest first: the arguments of [outcome]. *)
Record Event := mkEvent {
  ev_success : bool; ev_status : option Z; ev_latency : Z; ev_probe : bool;
  ev_reason : option string; ev_now : Z; ev_at : Z }.
Definition fresh_health (now : Z) : Health := mkHealth false 0 0 false now None None None None.
Definition health_run (c : HealthConfig) (now : Z) (log : list Event) : Health :=
  foldr (λ e, health_outcome c (ev_success e) (ev_status e) (ev_latency e) (ev_probe e) (ev_reason e)
                (ev_now e) (ev_at e)) (fresh_health now) log.

(** The length of the newest run of successes, or of failures. *)
Fixpoint run_length (success : bool) (log : list Event) : Z :=
  match log with
  | e :: log => if Bool.eqb (ev_success e) success then 1 + run_length success log else 0
  | [] => 0
  end.
(** The newest event takes the endpoint out: a request failed, or enough probes in a row. *)
Definition falls (c : HealthConfig) (log : list Event) : Prop :=
  ∃ e older, log = e :: older ∧ ev_success e = false ∧
    (ev_probe e = false ∨ unhealthy_after c ≤ run_length false log).
(** The newest event brings it back: a request succeeded, or enough probes in a row. *)
Definition rises (c : HealthConfig) (log : list Event) : Prop :=
  ∃ e older, log = e :: older ∧ ev_success e = true ∧
    (ev_probe e = false ∨ healthy_after c ≤ run_length true log).

Lemma run_length_nonneg b log : 0 ≤ run_length b log.
Proof. induction log as [|e log IH]; simpl; [done|]. case_match; lia. Qed.

Lemma health_counts c now log :
  failures (health_run c now log) = Z.min U32_MAX (run_length false log) ∧
  successes (health_run c now log) = Z.min U32_MAX (run_length true log).
Proof.
  induction log as [|e log [IHf IHs]]; [done|].
  pose proof (run_length_nonneg true log). pose proof (run_length_nonneg false log).
  cbn [health_run foldr]. fold (health_run c now log). unfold health_outcome.
  destruct (ev_success e) eqn:E; cbn [failures successes run_length]; rewrite E; cbn [Bool.eqb].
  all: rewrite ?IHf, ?IHs; split; unfold U32_MAX; lia.
Qed.

(** One event: down after it exactly when it takes the endpoint out, or it was down and the
    event does not bring it back. *)
Lemma down_step c now e log :
  healthy_after c ≤ U32_MAX → unhealthy_after c ≤ U32_MAX →
  down (health_run c now (e :: log)) = true ↔
  falls c (e :: log) ∨ (down (health_run c now log) = true ∧ ¬ rises c (e :: log)).
Proof.
  intros Hh Hu. destruct (health_counts c now (e :: log)) as [Hf Hs].
  assert (∀ P : Event → list Event → Prop, (∃ e' older, e :: log = e' :: older ∧ P e' older) ↔ P e log) as Hex.
  { intros P. split; [|by exists e, log]. by intros (e' & older & [= <- <-] & H). }
  unfold falls, rises. rewrite !Hex. clear Hex.
  cbn [health_run foldr] in *. fold (health_run c now log) in *. unfold health_outcome in *.
  destruct (ev_success e) eqn:E; cbn [failures successes down] in *.
  - rewrite Hs. destruct (down (health_run c now log)), (ev_probe e); cbn [negb orb];
      first [case_match; naive_solver lia|naive_solver].
  - rewrite Hf. destruct (ev_probe e); cbn [negb orb]; [|naive_solver].
    destruct (unhealthy_after c <=? _) eqn:El; naive_solver lia.
Qed.

(** ** The rotation *)

Section rotation.
Context `{HL : HttpLibs} `{UL : !UrlLibs} `{GL : GateLibs}.

(** The newest event that took the endpoint out, with no later one that brought it back:
    the endpoint is out, and its cooldown ends at [t]. *)
Definition out_until (c : HealthConfig) (log : list Event) (t : Z) : Prop :=
  ∃ newer e older, log = newer ++ e :: older ∧ falls c (e :: older) ∧
    (∀ a b, newer = a ++ b → b ≠ [] → ¬ falls c (b ++ e :: older) ∧ ¬ rises c (b ++ e :: older)) ∧
    t = ev_now e + from_secs (cooldown_seconds c).

(** What requests and probes do to the shared state of a service, one critical section at
    a time. *)
Inductive Change :=
  | Outcome (i : nat) (e : Event)
  | ApplicationError (i : nat) (code at_ : Z)
  | Started (i : nat)
  | Ended (i : nat)
  | Chosen (excluded : gset string) (sticky : option string) (now : Z)
  | Probing (next : Z) (probing : bool)
  | Gated (g : option Gate).
Definition change (x : Change) (u : Upstreams) : Upstreams :=
  match x with
  | Outcome i e => outcome i (ev_success e) (ev_status e) (ev_latency e) (ev_probe e) (ev_reason e)
                     (ev_now e) (ev_at e) u
  | ApplicationError i code at_ => application_error i code at_ u
  | Started i => on_endpoint i start_request u
  | Ended i => on_endpoint i end_lease u
  | Chosen excluded sticky now =>
      match candidates excluded sticky now u with Ok (_, u') => u' | _ => u end
  | Probing next probing => set_probe next probing u
  | Gated g => set_gate g u
  end.
(** The state after the changes, newest first, and the events of one endpoint. *)
Definition changed (u : Upstreams) (xs : list Change) : Upstreams := foldr change u xs.
Definition log_of (i : nat) (xs : list Change) : list Event :=
  omap (λ x, match x with Outcome j e => if decide (i = j) then Some e else None | _ => None end) xs.

(** Requests and probes do nothing but such changes, if what happens while they wait
    consists of them. *)
Definition changes (u u' : Upstreams) : Prop := ∃ xs, u' = changed u xs.
#[local] Instance changes_preorder : PreOrder changes.
Proof.
  split; [by exists []|]. intros a b c [xs ->] [ys ->]. exists (ys ++ xs). symmetry. apply foldr_app.
Qed.
Lemma changes_one x u : changes u (change x u).
Proof. by exists [x]. Qed.
Lemma outcome_changes i ok st lat probe reason now at_ u :
  changes u (outcome i ok st lat probe reason now at_ u).
Proof. exact (changes_one (Outcome i (mkEvent ok st lat probe reason now at_)) u). Qed.
Lemma candidates_changes excluded sticky now u l u' :
  candidates excluded sticky now u = Ok (l, u') → changes u u'.
Proof. intros E. exists [Chosen excluded sticky now]. cbn. by rewrite E. Qed.

Lemma forward_loop_changes replies clock q secure sticky single attempts fuel :
  (∀ a i u, changes u (rp_others (replies a i) u)) → ∀ attempt p u sent response u',
  forward_loop replies clock q secure sticky single attempts fuel attempt p u = Ok (sent, response, u') →
  changes u u'.
Proof.
  intros Ho. induction fuel as [|fuel IH]; intros attempt p u sent response u' E.
  { by injection E as <- <- <-. }
  cbn [forward_loop] in E. apply rbind_ok in E as ([l u1] & E1 & E).
  etrans; [by eapply candidates_changes|]. clear E1. destruct l as [|[i e] l].
  { by injection E as <- <- <-. }
  apply rbind_ok in E as ([body kept] & _ & E). apply rbind_ok in E as ([wire result] & _ & E).
  etrans; [apply (changes_one (Started i))|]. etrans; [apply (Ho attempt i)|]. cbn [change].
  destruct result as [r|error].
  - set (u4 := if _ && single_enabled _ then _ else _) in E.
    trans u4.
    { unfold u4. destruct (_ && single_enabled _);
        [exact (changes_one (ApplicationError _ _ _) _)|eapply outcome_changes]. }
    clearbody u4. apply rbind_ok in E as ([again u6] & E6 & E). trans u6.
    { destruct (gateway_failure _ && replayable q); [|by injection E6 as <- <-].
      apply rbind_ok in E6 as ([l2 u7] & E7 & E6). injection E6 as <- <-. by eapply candidates_changes. }
    destruct again.
    + etrans; [apply (changes_one (Ended i))|]. by eapply IH.
    + apply rbind_ok in E as (h & _ & E). by injection E as <- <- <-.
  - etrans; [eapply outcome_changes|].
    etrans; [eapply (changes_one (Ended i))|]. cbn [change].
    destruct (negb (replayable q)); [by injection E as <- <- <-|]. by eapply IH.
Qed.
Lemma forward_changes env q secure u sent response u' :
  (∀ v, changes v (fe_meanwhile env v)) → (∀ a i v, changes v (rp_others (fe_replies env a i) v)) →
  forward_with_security env q secure u = Ok (sent, response, u') → changes u u'.
Proof.
  intros Hm Ho E. unfold forward_with_security in E. apply rbind_ok in E as ([x v] & E1 & E). trans v.
  - destruct (u_gate u); [|by injection E1 as <- <-]. apply rbind_ok in E1 as ([y g'] & _ & E1).
    injection E1 as <- <-. etrans; [apply Hm|]. eapply (changes_one (Gated _)).
  - destruct x as [q'|r]; [|by injection E as <- <- <-]. by eapply forward_loop_changes.
Qed.
Lemma check_health_changes now order start replies u u' :
  (∀ i v, changes v (pr_others (replies i) v)) →
  check_health now order start replies u = Ok u' → changes u u'.
Proof.
  intros Ho E. unfold check_health in E. do 2 (case_match; [by injection E as <-|]).
  apply rbind_ok in E as (v & E & Hv). injection Hv as <-.
  etrans; [exact (changes_one (Probing (now + from_secs (interval_seconds (r_health (u_config u)))) true) u)|].
  etrans; [|eapply (changes_one (Probing _ _))]. cbn [change].
  clear -E Ho. revert E. generalize (set_probe (now + from_secs (interval_seconds (r_health (u_config u)))) true u).
  intros w. generalize (List.filter (λ i, match u_endpoints w !! i with
    | Some e => b_enabled (e_config e) | None => false end) order). clear order. intros order. revert w.
  induction order as [|i order IH]; intros w E; cbn [probe_all] in E; [by injection E as <-|].
  apply rbind_ok in E as (x & E1 & E). etrans; [|by apply IH]. clear E.
  case_match; [|by injection E1 as <-]. case_match; [by injection E1 as <-|].
  apply rbind_ok in E1 as (q & _ & E1). apply rbind_ok in E1 as ([wire result] & _ & E1). injection E1 as <-.
  etrans; [apply (Ho i)|]. eapply outcome_changes.
Qed.

Lemma out_until_cons c e log t :
  out_until c (e :: log) t ↔
  (falls c (e :: log) ∧ t = ev_now e + from_secs (cooldown_seconds c)) ∨
  (¬ falls c (e :: log) ∧ ¬ rises c (e :: log) ∧ out_until c log t).
Proof.
  split.
  - intros ([|x newer] & f & older & E & Hf & Hn & ->); injection E as <- ->; [by left|right].
    destruct (Hn [] (e :: newer) eq_refl) as [H1 H2]; [done|]. split_and!; [done..|].
    exists newer, f, older. split_and!; [done..| |done]. intros a b -> Hb. by apply (Hn (e :: a) b).
  - intros [[Hf ->]|(H1 & H2 & newer & f & older & -> & Hf & Hn & ->)].
    + exists [], e, log. split_and!; [done..| |done]. intros a b E. by destruct a, b.
    + exists (e :: newer), f, older. split_and!; [done..| |done]. intros [|x a] b E Hb.
      * simpl in E. subst b. by split.
      * injection E as <- ->. by apply (Hn a).
Qed.

(** [down] and [retry_at] after any events. *)
Lemma out_until_down c now log t :
  healthy_after c ≤ U32_MAX → unhealthy_after c ≤ U32_MAX →
  out_until c log t ↔ down (health_run c now log) = true ∧ t = retry_at (health_run c now log).
Proof.
  intros Hh Hu. revert t. induction log as [|e log IH]; intros t.
  { split; [|by intros []]. intros (newer & f & older & E & _). by destruct newer. }
  rewrite out_until_cons, IH, down_step by done. clear IH.
  destruct (health_counts c now (e :: log)) as [Hf Hs].
  assert (retry_at (health_run c now (e :: log)) = ev_now e + from_secs (cooldown_seconds c) ∧ falls c (e :: log)
    ∨ retry_at (health_run c now (e :: log)) = retry_at (health_run c now log) ∧ ¬ falls c (e :: log)) as Hr.
  { unfold falls. cbn [health_run foldr] in *. fold (health_run c now log) in *.
    unfold health_outcome in *. destruct (ev_success e) eqn:E; cbn [failures successes retry_at] in *.
    - right. split; [done|]. intros (? & ? & [= <- <-] & ? & _). congruence.
    - destruct (ev_probe e) eqn:Ep; cbn [negb orb] in *; [|left; split; [done|]; naive_solver].
      rewrite Hf. destruct (unhealthy_after c <=? _) eqn:El; [left|right]; (split; [done|]).
      + exists e, log. split_and!; [done..|]. right. lia.
      + intros (? & ? & [= <- <-] & _ & [?|?]); [congruence|lia]. }
  assert (falls c (e :: log) → ¬ rises c (e :: log)) as Hx.
  { intros (? & ? & [= <- <-] & H1 & _) (? & ? & [= <- <-] & H2 & _). congruence. }
  destruct Hr as [[-> Hr]|[-> Hr]]; naive_solver.
Qed.

(** The parts of the health that decide: the counters, the flag and the cooldown. *)
Definition same_verdict (h h' : Health) : Prop :=
  down h = down h' ∧ successes h = successes h' ∧ failures h = failures h' ∧ retry_at h = retry_at h'.
Lemma outcome_verdict c b st lat p r now at_ h h' :
  same_verdict h h' →
  same_verdict (health_outcome c b st lat p r now at_ h) (health_outcome c b st lat p r now at_ h').
Proof.
  intros (H1 & H2 & H3 & H4). unfold health_outcome. rewrite H1, H2, H3, H4.
  destruct b; by split_and!.
Qed.

(** Every endpoint keeps its configuration, and its verdict is that of its events. *)
Definition tracks (c : HealthConfig) (now : Z) (e0 e : Endpoint) (log : list Event) : Prop :=
  e_config e = e_config e0 ∧ same_verdict (e_health e) (health_run c now log).
Lemma changed_tracks c now u0 xs :
  r_health (u_config u0) = c →
  (∀ i e, u_endpoints u0 !! i = Some e → e_health e = fresh_health now) →
  u_config (changed u0 xs) = u_config u0 ∧
  ∀ i, match u_endpoints u0 !! i, u_endpoints (changed u0 xs) !! i with
       | Some e0, Some e => tracks c now e0 e (log_of i xs)
       | None, None => True
       | _, _ => False
       end.
Proof.
  intros Hc Hfresh. induction xs as [|x xs [IHc IH]].
  { split; [done|]. intros i. cbn. destruct (_ !! i) as [e|] eqn:Ei; [|done].
    split; [done|]. rewrite (Hfresh i e Ei). by split_and!. }
  cbn [changed foldr]. fold (changed u0 xs). set (u := changed u0 xs) in *.
  assert (∀ j f, (∀ e, e_config (f e) = e_config e) →
    (∀ e, same_verdict (e_health (f e)) (e_health e)) → ∀ i,
    match u_endpoints u0 !! i, u_endpoints (on_endpoint j f u) !! i with
    | Some e0, Some e => tracks c now e0 e (log_of i xs) | None, None => True | _, _ => False end) as Hon.
  { intros j f Hf1 Hf2 i. specialize (IH i). cbn. rewrite list_lookup_alter.
    destruct (decide (j = i)) as [->|]; [|done].
    destruct (u_endpoints u0 !! i), (u_endpoints u !! i); simpl; try done.
    destruct IH as (H1 & H2). split; [by rewrite Hf1|].
    destruct (Hf2 e0) as (?&?&?&?), H2 as (?&?&?&?). split_and!; congruence. }
  destruct x; cbn [change log_of omap list_omap].
  - split; [done|]. intros j. specialize (IH j). unfold outcome. cbn. rewrite IHc, Hc, list_lookup_alter.
    fold (log_of j xs). destruct (decide (i = j)) as [->|].
    + rewrite decide_True by done. destruct (u_endpoints u0 !! j), (u_endpoints u !! j); simpl; try done.
      destruct IH as (H1 & H2). split; [by case_match|]. cbn [health_run foldr].
      fold (health_run c now (log_of j xs)).
      pose proof (outcome_verdict c (ev_success e) (ev_status e) (ev_latency e) (ev_probe e) (ev_reason e)
        (ev_now e) (ev_at e) _ _ H2). by case_match.
    + by rewrite decide_False by done.
  - split; [done|]. apply Hon; [done|]. intros e. by split_and!.
  - split; [done|]. apply Hon; [done|]. intros e. by split_and!.
  - split; [done|]. apply Hon; [done|]. intros e. by split_and!.
  - match goal with |- context [candidates ?a ?b ?d u] =>
      destruct (candidates_spec a b d u) as (l & u' & -> & _ & (-> & _) & -> & _) end. by split.
  - by split.
  - by split.
Qed.

Lemma tracks_configs c now u0 u (log : nat → list Event) :
  (∀ i, match u_endpoints u0 !! i, u_endpoints u !! i with
        | Some e0, Some e => tracks c now e0 e (log i)
        | None, None => True
        | _, _ => False
        end) → map e_config (u_endpoints u) = map e_config (u_endpoints u0).
Proof.
  intros H. apply list_eq. intros i. rewrite !list_lookup_fmap. specialize (H i).
  destruct (u_endpoints u0 !! i), (u_endpoints u !! i); try done. destruct H as [E _]. simpl. by rewrite E.
Qed.

Lemma new_endpoints_fresh config now bindings : ∀ ids es,
  new_endpoints config now ids bindings = Ok es → Forall (λ e, e_health e = fresh_health now) es.
Proof.
  induction bindings as [|b bindings IH]; intros ids es E; cbn [new_endpoints] in E; res_inv; eauto.
Qed.
Lemma new_fresh id hosts bindings config access uuid now u :
  new id hosts bindings config access uuid now = Ok u →
  u_config u = config ∧ validate_health (r_health config) = Ok tt ∧
  map e_config (u_endpoints u) ≡ₚ bindings ∧
  ∀ i e, u_endpoints u !! i = Some e → e_health e = fresh_health now.
Proof.
  intros E. pose proof E as (_ & Hc & Hb & _)%new_ok. unfold new in E. res_inv. split_and!; try done.
  - unfold validate_routing in *. res_inv. match goal with x : () |- _ => by destruct x end.
  - intros i e Hi. cbn in Hi. apply list_elem_of_lookup_2 in Hi. rewrite sort_by_perm in Hi.
    match goal with E : new_endpoints _ _ _ _ = Ok _ |- _ => apply new_endpoints_fresh in E as Hall end.
    rewrite Forall_forall in Hall. auto.
Qed.

(** Health checks are off and a single endpoint is enabled. *)
Definition sole (config : Routing) (bindings : list Binding) : Prop :=
  hc_enabled (r_health config) = false ∧ length (List.filter b_enabled bindings) = 1%nat.
Lemma filter_length_perm {A} (f : A → bool) l k :
  l ≡ₚ k → length (List.filter f l) = length (List.filter f k).
Proof. induction 1; simpl; repeat case_match; simpl; congruence. Qed.
Lemma passive_single_sole u bindings :
  map e_config (u_endpoints u) ≡ₚ bindings → passive_single u = true ↔ sole (u_config u) bindings.
Proof.
  intros Hb. unfold passive_single, sole.
  assert (length (List.filter (λ e, b_enabled (e_config e)) (u_endpoints u))
          = length (List.filter b_enabled bindings)) as E.
  { rewrite <- (filter_length_perm b_enabled _ _ Hb). clear. induction (u_endpoints u) as [|e es IH]; [done|].
    simpl. destruct (b_enabled _); simpl; auto. }
  rewrite andb_true_iff, negb_true_iff, Z.eqb_eq, length_take, E. split; (intros []; split; [done|lia]).
Qed.

Lemma eligible_rotation u excluded now e :
  eligible u excluded now e = true ↔
  b_enabled (e_config e) = true ∧ b_id (e_config e) ∉ excluded ∧
  (passive_single u = true ∨
   (down (e_health e) = true → hc_enabled (r_health (u_config u)) = false ∧ retry_at (e_health e) ≤ now)).
Proof.
  unfold eligible. rewrite !andb_true_iff, !orb_true_iff, andb_true_iff, !negb_true_iff, bool_decide_eq_false, Z.leb_le.
  destruct (down (e_health e)); naive_solver.
Qed.
Lemma validate_thresholds c :
  validate_health c = Ok tt → healthy_after c ≤ U32_MAX ∧ unhealthy_after c ≤ U32_MAX.
Proof.
  intros Hv. unfold validate_health in Hv. apply rbind_ok in Hv as (_ & _ & Hv).
  do 2 apply rbind_ok in Hv as (_ & _ & Hv). apply rbind_ok in Hv as (? & Ht & _).
  apply ensure_ok in Ht. unfold in_range in Ht. unfold U32_MAX. lia.
Qed.
End rotation.

(** C20. Health has hysteresis, and rotation follows it.  Whatever a service has been
    through, a choice offers an endpoint exactly if it is enabled, was not tried before and
    is not out.  It is out from an event that takes it out (a failed request, or as many
    failed probes in a row as configured) until one brings it back (a successful request,
    or as many good probes in a row): no single probe flips it.  Without active health checks
    an endpoint that is out is offered again when its cooldown is over, counted from the
    newest event that took it out, and the only enabled endpoint is always offered. *)
Theorem health_hysteresis `{HL : HttpLibs} `{UL : !UrlLibs} `{GL : GateLibs}
    id hosts bindings config access uuid start u0 xs excluded sticky now l u i e0 :
  new id hosts bindings config access uuid start = Ok u0 →
  candidates excluded sticky now (changed u0 xs) = Ok (l, u) →
  u_endpoints u0 !! i = Some e0 →
  i ∈ l.*1 ↔
  b_enabled (e_config e0) = true ∧ b_id (e_config e0) ∉ excluded ∧
  (sole config bindings ∨
   ∀ t, out_until (r_health config) (log_of i xs) t → hc_enabled (r_health config) = false ∧ t ≤ now).
Proof.
  intros Hnew Hcand Hi. destruct (new_fresh _ _ _ _ _ _ _ _ Hnew) as (Hc & Hv & Hb & Hfresh).
  destruct (validate_thresholds _ Hv) as [Hh Hu].
  destruct (changed_tracks (r_health config) start u0 xs) as [Hc' Ht]; [by rewrite Hc|done|].
  pose proof (Ht i) as Hti. rewrite Hi in Hti.
  destruct (u_endpoints (changed u0 xs) !! i) as [e|] eqn:Ee; [|done]. destruct Hti as (He & Hd & _ & _ & Hr).
  destruct (candidates_spec excluded sticky now (changed u0 xs)) as (l' & u' & E & Hl & _).
  rewrite Hcand in E. injection E as -> ->.
  assert (i ∈ l'.*1 ↔ eligible (changed u0 xs) excluded now e = true) as ->.
  { rewrite list_elem_of_fmap. setoid_rewrite Hl. split.
    - intros ([j e'] & -> & Hj). apply eligible_list_elem in Hj as [Hj ?]. simpl in *. by simplify_eq.
    - intros H. exists (i, e). split; [done|]. by apply eligible_list_elem. }
  rewrite eligible_rotation, (passive_single_sole _ bindings), He, Hc', Hc, Hd, Hr;
    [|by rewrite (tracks_configs _ _ _ _ _ Ht)].
  setoid_rewrite (out_until_down _ start _ _ Hh Hu). naive_solver.
Qed.

(** ** Witnesses *)

Module Samples.
Definition binding (id : string) (weight : Z) : Binding := mkBinding id id false true 1 weight None.
Definition endpoint (id : string) (weight : Z) : @Endpoint sample_http :=
  mkEndpoint (binding id weight) (HttpProxy.unix id) (fresh_health 0) 0 0 0.
Definition pool : list (@Candidate sample_http) :=
  [(0%nat, endpoint "a" 5); (1%nat, endpoint "b" 1); (2%nat, endpoint "c" 1)].
Definition service : @Upstreams sample_http :=
  mkUpstreams routing_default [endpoint "a" 5; endpoint "b" 1; endpoint "c" 1] 0 ∅ 0 false
    (Some Gate.Samples.gate) "ph" "".
(** A gate that stays, a client that is always refused. *)
Definition gate_env : @GateEnv sample_http :=
  mkGateEnv 0 ReadTimeout PermitTimeout true "t" "n" (λ _ g, g).
Definition env : @ForwardEnv sample_http :=
  mkForwardEnv gate_env (λ u, u) (λ _ _, mkReply SendFailed 1 1 1 (λ u, u)) (λ _, 0).
Definition cookies : @Headers sample_http :=
  @insert_header sample_http "cookie" "ph=a; k=v" (@no_headers sample_http).
Definition pair : list Binding :=
  [mkBinding "a" "http://10.0.0.1" false true 1 1 None; mkBinding "b" "http://10.0.0.2" false true 1 1 None].
Definition passive : Routing :=
  mkRouting Priority Manual RoundRobin 4 false (mkHealthConfig false "/" 10 3 2 2 10 200 399) 310.
Definition failed_request : Event := mkEvent false None 1 false None 5 5.
End Samples.
#[local] Existing Instances sample_http HttpProxy.Samples.libs Gate.Samples.libs.

Lemma weighted_fair_witness :
  ∃ ps scores', picks 7 Samples.pool ∅ = Ok (ps, scores') ∧
    ∀ j c, Samples.pool !! j = Some c → times j ps = weight c ∧ score scores' c = 0.
Proof.
  apply (weighted_fair Samples.pool ∅).
  - split_and!; [|repeat constructor; by compute|done].
    change (NoDup ["a"; "b"; "c"]). by apply (bool_decide_unpack _).
  - done.
  - intros c _. unfold score. by rewrite lookup_empty.
Defined.

Lemma forward_safe_witness :
  ∃ q' sent response u',
    forward_with_security Samples.env Gate.Samples.visit false Samples.service = Ok (sent, response, u') ∧
    (sent = [] ∨ let_through Samples.env Samples.service Gate.Samples.visit q') ∧
    Z.of_nat (length sent) ≤ 4 ∧
    (replayable q' = false → (length sent ≤ 1)%nat) ∧
    Forall (sent_ok Samples.service q') sent ∧
    (passive_single Samples.service = false → NoDup (map s_endpoint sent)).
Proof.
  apply (forward_safe Samples.env Gate.Samples.visit false Samples.service).
  - split; [reflexivity|]. repeat constructor.
  - split; [|done|done]. intros g [= <-]. split; [by split_and!|]. by intros t g ? ?.
Defined.

Lemma affinity_cookie_stripped_witness :
  get_text "cookie" (strip_cookie "ph" Samples.cookies) = Some "k=v" ∧ find_cookie "ph" (split ";" "k=v") = None.
Proof. split; [reflexivity|]. by apply (affinity_cookie_stripped "ph" Samples.cookies). Defined.

(** A passive service of two endpoints: after a failed request the first is left out until
    its cooldown of ten seconds is over. *)
Lemma health_hysteresis_witness :
  ∃ u0 l u l' u',
    new "svc" ["h"] Samples.pair Samples.passive None [] 0 = Ok u0 ∧
    candidates ∅ None 6 (changed u0 [Outcome 0 Samples.failed_request]) = Ok (l, u) ∧ 0%nat ∉ l.*1 ∧
    candidates ∅ None (5 + from_secs 10) (changed u0 [Outcome 0 Samples.failed_request]) = Ok (l', u') ∧
    0%nat ∈ l'.*1.
Proof.
  assert (match new "svc" ["h"] Samples.pair Samples.passive None [] 0 with
          | Ok u0 => map e_config (u_endpoints u0) = Samples.pair | _ => False end) as Hu0
    by (vm_compute; reflexivity).
  destruct (new "svc" ["h"] Samples.pair Samples.passive None [] 0) as [u0| |] eqn:E0; [|done..].
  destruct (u_endpoints u0) as [|e0 es] eqn:Ei; [done|]. injection Hu0 as He0 _.
  apply (f_equal (lookup 0%nat)) in Ei. simpl in Ei.
  destruct (candidates_spec ∅ None 6 (changed u0 [Outcome 0 Samples.failed_request])) as (l & u & E & _).
  destruct (candidates_spec ∅ None (5 + from_secs 10) (changed u0 [Outcome 0 Samples.failed_request]))
    as (l' & u' & E' & _).
  exists u0, l, u, l', u'. split; [done|].
  pose proof (health_hysteresis _ _ _ _ _ _ _ _ _ _ _ _ _ _ _ _ E0 E Ei) as Before.
  pose proof (health_hysteresis _ _ _ _ _ _ _ _ _ _ _ _ _ _ _ _ E0 E' Ei) as After.
  assert (out_until (r_health Samples.passive) [Samples.failed_request] (5 + from_secs 10)) as Hout.
  { exists [], Samples.failed_request, []. split_and!; [done|..|done].
    - exists Samples.failed_request, []. split_and!; [done|done|by left].
    - intros a b Eab. by destruct a, b. }
  split_and!; [done| |done|].
  - intros Hin. apply Before in Hin as (_ & _ & [[_ Hs]|Ht]); [done|].
    destruct (Ht _ Hout) as [_ Ht']. by vm_compute in Ht'.
  - apply After. split_and!.
    + by rewrite He0.
    + set_solver.
    + right. intros t Ht. split; [done|].
      apply (out_until_down _ 0) in Ht as [_ ->]; [|by vm_compute..]. by vm_compute.
Defined.
