(* ===== verification/WebRoutes.v ===== *)
(** * Hostname routes ([porthub-runtime/src/web_routes.rs])

    A routing snapshot maps the hosts of every route to its upstreams.  [reload] builds the
    next snapshot from a configuration and swaps it in at the end; [select] finds the
    upstreams of a request.  An [Arc<Prepared>] is a handle into the store [w_pools], so an
    unchanged route and requests in flight keep the upstreams they share.  The drawn UUID of
    a handle's gate is an argument; [select] returns what it tells the counter of [Activity]. *)

From S2P Require Import Prelude Net RustStr Http Gate HttpProxy Upstreams.
Local Open Scope string_scope.
Local Open Scope list_scope.
Local Open Scope Z_scope.

Record Route := mkRoute {
  r_id : string; r_hosts : list string; r_target_url : string; r_bindings : list Binding;
  r_routing : option Routing; r_pass_host : bool; r_http : bool; r_https : bool;
  r_access : option AccessConfig }.
#[global] Instance AccessConfig_eq_dec : EqDecision AccessConfig.
Proof. solve_decision. Defined.
#[global] Instance HealthConfig_eq_dec : EqDecision HealthConfig.
Proof. solve_decision. Defined.
#[global] Instance Binding_eq_dec : EqDecision Binding.
Proof. solve_decision. Defined.
#[global] Instance Routing_eq_dec : EqDecision Routing.
Proof. solve_decision. Defined.
#[global] Instance Route_eq_dec : EqDecision Route.
Proof. solve_decision. Defined.

Definition set_hosts v r := mkRoute (r_id r) v (r_target_url r) (r_bindings r) (r_routing r)
  (r_pass_host r) (r_http r) (r_https r) (r_access r).

(** [trim().to_ascii_lowercase()] of every host, the first of equal ones. *)
Fixpoint first_hosts (seen : gset string) (hosts : list string) : list string :=
  match hosts with
  | [] => []
  | h :: hosts =>
      let h := to_ascii_lowercase (str_trim h) in
      if bool_decide (h ∈ seen) then first_hosts seen hosts else h :: first_hosts ({[h]} ∪ seen) hosts
  end.

Definition valid_label (label : string) : bool :=
  negb (str_is_empty label) && (slen label <=? 63)
  && negb (str_starts_with "-" label) && negb (str_ends_with "-" label)
  && all_bytes (λ b, is_ascii_alphanumeric b || (b =? 45)) label.
Definition valid_host (host : string) : bool :=
  negb (str_is_empty host) && (slen host <=? 253) && forallb valid_label (split "." host).

(** The bindings and the routing of a route. *)
Definition primary (r : Route) : Binding :=
  mkBinding "primary" (r_target_url r) (r_pass_host r) true 1 1 None.
Definition passive (r : Routing) : Routing :=
  let h := r_health r in
  mkRouting (r_mode r) (priority_policy r) (strategy r) (max_attempts r) (sticky_sessions r)
    (mkHealthConfig false (hc_path h) (interval_seconds h) (timeout_seconds h) (unhealthy_after h)
       (healthy_after h) (cooldown_seconds h) (expected_status_min h) (expected_status_max h))
    (response_timeout_seconds r).
Definition route_parts (r : Route) : list Binding * Routing :=
  let routing := default routing_default (r_routing r) in
  if len (r_bindings r) =? 0 then ([primary r], passive routing) else (r_bindings r, routing).

Section web_routes.
Context `{HL : HttpLibs} `{UL : !UrlLibs} `{GL : GateLibs}.

Record Prepared := mkPrepared { p_route : Route; p_pool : nat }.
Record Snapshot := mkSnapshot { by_id : gmap string Prepared; hosts : gmap string Prepared }.
Record WebRoutes := mkWebRoutes {
  w_snapshot : Snapshot; w_pools : gmap nat Upstreams; w_next : nat; w_gateways : gset string;
  w_activity : bool }.

Definition with_gateway_hosts (gateways : list string) : WebRoutes :=
  mkWebRoutes (mkSnapshot ∅ ∅) ∅ 0 (list_to_set (map to_ascii_lowercase gateways)) false.
Definition with_activity (w : WebRoutes) : WebRoutes :=
  mkWebRoutes (w_snapshot w) (w_pools w) (w_next w) (w_gateways w) true.

(** ** Reloading *)

Fixpoint check_hosts (gateways : gset string) (taken : gmap string Prepared) (l : list string) : res unit :=
  match l with
  | [] => Ok tt
  | host :: l =>
      ensure! valid_host host else "invalid web route host" in
      ensure! negb (bool_decide (host ∈ gateways)) else "web route conflicts with the gateway domain" in
      ensure! negb (bool_decide (is_Some (taken !! host))) else "duplicate web route host" in
      check_hosts gateways taken l
  end.
(** The old route if it is the same, else new upstreams under a fresh handle. *)
Definition prepare_route (uuid : nat → list Z) (now : Z) (previous : Snapshot) (route : Route)
    (pools : gmap nat Upstreams) (next : nat) : res (Prepared * gmap nat Upstreams * nat) :=
  match (old ← by_id previous !! r_id route; if bool_decide (p_route old = route) then Some old else None) with
  | Some old => Ok (old, pools, next)
  | None =>
      let '(bindings, routing) := route_parts route in
      let! u := new (r_id route) (r_hosts route) bindings routing (r_access route) (uuid next) now in
      Ok (mkPrepared route next, <[next := u]> pools, S next)
  end.
Fixpoint reload_routes (uuid : nat → list Z) (now : Z) (gateways : gset string) (previous : Snapshot)
    (routes : list Route) (s : Snapshot) (pools : gmap nat Upstreams) (next : nat)
    : res (Snapshot * gmap nat Upstreams * nat) :=
  match routes with
  | [] => Ok (s, pools, next)
  | route :: routes =>
      ensure! negb (str_is_empty (r_id route)) && (slen (r_id route) <=? 128)
        else "web route ID must contain 1 to 128 bytes" in
      ensure! negb (bool_decide (is_Some (by_id s !! r_id route))) else "duplicate web route ID" in
      ensure! negb (len (r_hosts route) =? 0) else "web route must have hosts" in
      let route := set_hosts (first_hosts ∅ (r_hosts route)) route in
      let! _ := check_hosts gateways (hosts s) (r_hosts route) in
      let! '(p, pools, next) := prepare_route uuid now previous route pools next in
      let s := mkSnapshot (<[r_id (p_route p) := p]> (by_id s))
                 (foldl (λ m h, <[h := p]> m) (hosts s) (r_hosts (p_route p))) in
      reload_routes uuid now gateways previous routes s pools next
  end.
(** [reload]: the snapshot changes only when every route was accepted. *)
Definition reload (uuid : nat → list Z) (now : Z) (config : list Route) : M WebRoutes unit := λ w,
  match reload_routes uuid now (w_gateways w) (w_snapshot w) config (mkSnapshot ∅ ∅) (w_pools w) (w_next w) with
  | Ok (s, pools, next) => (Ok tt, mkWebRoutes s pools next (w_gateways w) (w_activity w))
  | Err e => (Err e, w)
  | Panic => (Panic, w)
  end.

(** ** Selection *)

Inductive Selection := Proxy (pool : nat) | Disabled | Unmatched.

Definition trim_matches (f : ascii → bool) (s : string) : string := trim_end f (trim_start f s).
Definition is_dot (a : ascii) : bool := bool_decide (a = ".")%char.
Definition is_bracket (a : ascii) : bool := bool_decide (a = "[")%char || bool_decide (a = "]")%char.
Definition request_authority (q : Request) : option Authority :=
  match (h ← get_text "host" (q_headers q); parse_authority h) with
  | Some a => Some a
  | None => uri_authority (q_uri q)
  end.
Definition request_host (a : Authority) : string :=
  to_ascii_lowercase (trim_end is_dot (authority_host a)).
(** The hosts of the portal itself. *)
Definition gateway_host (w : WebRoutes) (host : string) : bool :=
  bool_decide (host ∈ w_gateways w) || bool_decide (host = "localhost")
  || is_ip_addr (trim_matches is_bracket host).
(** [select], with the route and the host it reports to the activity journal. *)
Definition select (q : Request) (secure : bool) (w : WebRoutes) : Selection * option (string * string) :=
  match request_authority q with
  | None => (Unmatched, None)
  | Some a =>
      let host := request_host a in
      match hosts (w_snapshot w) !! host with
      | None => (if gateway_host w host then Unmatched else Disabled, None)
      | Some p =>
          if secure && r_https (p_route p) || negb secure && r_http (p_route p) then
            (Proxy (p_pool p), if w_activity w then Some (r_id (p_route p), host) else None)
          else (Disabled, None)
      end
  end.

(** ** Health *)

Definition set_pools v w := mkWebRoutes (w_snapshot w) v (w_next w) (w_gateways w) (w_activity w).
Definition health_snapshot (w : WebRoutes) : gmap string (list BindingStatus) :=
  omap (λ p, status <$> w_pools w !! p_pool p) (by_id (w_snapshot w)).
(** What one pool's check meets: its clock, the order its probes finish in, their starts and
    replies. *)
Record CheckEnv := mkCheckEnv {
  ce_now : Z; ce_order : list nat; ce_start : nat → Z; ce_replies : nat → ProbeReply }.
Fixpoint check_pools (env : nat → CheckEnv) (l : list nat) (pools : gmap nat Upstreams)
    : res (gmap nat Upstreams) :=
  match l with
  | [] => Ok pools
  | h :: l =>
      let! pools :=
        match pools !! h with
        | Some u =>
            let e := env h in
            let! u := check_health (ce_now e) (ce_order e) (ce_start e) (ce_replies e) u in
            Ok (<[h := u]> pools)
        | None => Ok pools
        end in
      check_pools env l pools
  end.
Definition check_all (env : nat → CheckEnv) (w : WebRoutes) : res WebRoutes :=
  let! pools := check_pools env (map (λ x, p_pool x.2) (map_to_list (by_id (w_snapshot w)))) (w_pools w) in
  Ok (set_pools pools w).

(** ** The snapshot agrees with the store *)

Definition route_ok (gateways : gset string) (r : Route) : Prop :=
  r_hosts r ≠ [] ∧ Forall (λ h, valid_host h = true ∧ h ∉ gateways) (r_hosts r).
(** The upstreams of a route: its configuration and endpoints, behind a gate exactly when
    the route has one. *)
Record pool_for (r : Route) (u : Upstreams) : Prop := {
  pf_pool : pool_ok u;
  pf_probe : probe_ok u;
  pf_config : u_config u = (route_parts r).2;
  pf_bindings : map fst (cfgs u) ≡ₚ (route_parts r).1;
  pf_gate : match r_access r, u_gate u with
            | Some a, Some g => g_config g = a ∧ gate_ready g
            | None, None => True
            | _, _ => False
            end }.
Record snapshot_ok (gateways : gset string) (s : Snapshot) (pools : gmap nat Upstreams) : Prop := {
  so_hosts h p : hosts s !! h = Some p →
    by_id s !! r_id (p_route p) = Some p ∧ h ∈ r_hosts (p_route p);
  so_ids id p : by_id s !! id = Some p →
    r_id (p_route p) = id ∧ route_ok gateways (p_route p) ∧
    (∀ h, h ∈ r_hosts (p_route p) → hosts s !! h = Some p) ∧
    ∃ u, pools !! p_pool p = Some u ∧ pool_for (p_route p) u }.

Lemma first_hosts_nonempty l : l ≠ [] → first_hosts ∅ l ≠ [].
Proof. destruct l as [|h l]; [done|]. intros _. cbn [first_hosts]. by rewrite bool_decide_false by set_solver. Qed.
Lemma first_hosts_head l : l ≠ [] → head (first_hosts ∅ l) = (λ h, to_ascii_lowercase (str_trim h)) <$> head l.
Proof. destruct l as [|h l]; [done|]. intros _. cbn [first_hosts]. by rewrite bool_decide_false by set_solver. Qed.

Lemma check_hosts_ok gateways taken l u : check_hosts gateways taken l = Ok u →
  Forall (λ h, valid_host h = true ∧ h ∉ gateways) l ∧ Forall (λ h, taken !! h = None) l.
Proof.
  induction l as [|h l IH]; cbn [check_hosts]; intros E; [by split|]. res_inv.
  match goal with E : check_hosts _ _ _ = Ok _ |- _ => apply IH in E as [? ?] end.
  repeat match goal with E : negb (bool_decide _) = true |- _ => apply negb_true_iff, bool_decide_eq_false in E end.
  split; constructor; try done. by apply eq_None_not_Some.
Qed.
Lemma lookup_foldl_insert {A} (p : A) l : ∀ m : gmap string A, ∀ k,
  foldl (λ m h, <[h:=p]> m) m l !! k = if decide (k ∈ l) then Some p else m !! k.
Proof.
  induction l as [|h l IH]; intros m k; cbn [foldl]; [done|]. rewrite IH.
  destruct (decide (k ∈ l)), (decide (k ∈ h :: l)); try done; try set_solver.
  - assert (k = h) as -> by set_solver. by rewrite lookup_insert_eq.
  - rewrite lookup_insert_ne; [done|]. set_solver.
Qed.

(** A valid host is visible ASCII. *)
Lemma split_text_join c s :
  visible_byte (byte_of c) = true → Forall (λ p, is_text p = true) (split c s) → is_text s = true.
Proof.
  intros Hc. induction s as [|a s IH]; cbn [split]; [intros _; by rewrite is_text_spec|].
  rewrite is_text_cons. case_bool_decide as E.
  - intros [_ H]%Forall_cons_1. subst a. by rewrite Hc, IH.
  - destruct (split c s) as [|f fs] eqn:Es; [by destruct (split_nonempty c s)|].
    intros [Hf Hfs]%Forall_cons_1. rewrite is_text_cons in Hf. apply andb_true_iff in Hf as [-> Hf].
    apply IH. by constructor.
Qed.
Lemma valid_host_text host : valid_host host = true → is_text host = true.
Proof.
  unfold valid_host. intros [_ Hl]%andb_true_iff. apply (split_text_join "."); [done|].
  rewrite forallb_forall in Hl. apply Forall_forall. intros p Hp%list_elem_of_In. specialize (Hl p Hp).
  unfold valid_label in Hl. apply andb_true_iff in Hl as [_ Hl].
  eapply text_of_bytes_class; [|exact Hl]. intros b.
  unfold visible_byte, is_ascii_alphanumeric, is_ascii_digit, is_ascii_uppercase, is_ascii_lowercase. lia.
Qed.

(** What [prepare_route] gives: the same handle for the same route, or a fresh one. *)
Lemma prepare_route_ok uuid now gateways previous route pools next p pools' next' :
  snapshot_ok gateways previous pools → route_ok gateways route →
  (∀ h, is_Some (pools !! h) → (h < next)%nat) →
  prepare_route uuid now previous route pools next = Ok (p, pools', next') →
  p_route p = route ∧ (∃ u, pools' !! p_pool p = Some u ∧ pool_for route u) ∧
  (∀ h u, pools !! h = Some u → pools' !! h = Some u) ∧
  (∀ h u, pools' !! h = Some u → pools !! h = Some u ∨ ∃ r, pool_for r u) ∧
  (∀ h, is_Some (pools' !! h) → (h < next')%nat) ∧ (next ≤ next')%nat ∧
  (by_id previous !! r_id route = Some p ∨
   (∀ old, by_id previous !! r_id route = Some old → p_route old ≠ route) ∧ (next ≤ p_pool p)%nat ∧
   ∃ u, pools' !! p_pool p = Some u ∧ fresh_gate (r_access route) (u_gate u)).
Proof.
  intros [_ Hids] Hr Hf. unfold prepare_route. destruct (_ ≫= _) as [old|] eqn:Eo.
  - intros [= <- <- <-]. apply bind_Some in Eo as (old' & Eo & Ed). case_bool_decide as Er; [|done].
    injection Ed as ->. destruct (Hids _ _ Eo) as (_ & _ & _ & Hu). rewrite Er in Hu.
    split_and!; try done; by left.
  - intros E. destruct (route_parts route) as [bindings routing] eqn:Ep. res_inv.
    match goal with E : new _ _ _ _ _ _ _ = Ok ?x |- _ => rename x into u; apply new_ok in E as (H1 & H2 & H3 & _ & H5 & H6 & H7) end.
    assert (pool_for route u) as Hpf.
    { split; try done.
      - apply H7. rewrite H5. destruct Hr as [Hne Hv]. destruct (r_hosts route) as [|h l]; [done|].
        cbn. apply valid_host_text. by apply Forall_cons_1 in Hv as [[? _] _].
      - by rewrite Ep.
      - rewrite Ep. unfold cfgs. rewrite map_map. exact H3.
      - unfold fresh_gate in H6. destruct (r_access route), (u_gate u); try done. by destruct H6 as (? & ? & _). }
    split_and!; try done; cbn [p_pool p_route].
    + exists u. by rewrite lookup_insert_eq.
    + intros h v Hh. rewrite lookup_insert_ne; [done|]. intros <-. pose proof (Hf _ (mk_is_Some _ _ Hh)). lia.
    + intros h v [[<- <-]|[_ Hh]]%lookup_insert_Some; [right|by left]. by exists route.
    + intros h [->|[_ Hh]]%lookup_insert_is_Some; [lia|]. specialize (Hf h Hh). lia.
    + lia.
    + right. split_and!; [|done|].
      * intros old Eo' Er. rewrite Eo' in Eo. cbn in Eo. by rewrite bool_decide_true in Eo.
      * exists u. by rewrite lookup_insert_eq.
Qed.

Definition normal (r : Route) : Route := set_hosts (first_hosts ∅ (r_hosts r)) r.
(** What a route of the next snapshot is: the old one, or one with fresh upstreams. *)
Definition kept_or_fresh (previous : Snapshot) (next : nat) (pools : gmap nat Upstreams) (p : Prepared)
    : Prop :=
  by_id previous !! r_id (p_route p) = Some p ∨
  (∀ old, by_id previous !! r_id (p_route p) = Some old → p_route old ≠ p_route p) ∧
  (next ≤ p_pool p)%nat ∧ ∃ u, pools !! p_pool p = Some u ∧ fresh_gate (r_access (p_route p)) (u_gate u).

Lemma snapshot_mono gateways s pools pools' :
  (∀ h u, pools !! h = Some u → pools' !! h = Some u) →
  snapshot_ok gateways s pools → snapshot_ok gateways s pools'.
Proof.
  intros Hp [H1 H2]. split; [done|]. intros id p E. destruct (H2 id p E) as (? & ? & ? & u & ? & ?).
  split_and!; try done. exists u. split; [by apply Hp|done].
Qed.

(** A snapshot with one more route. *)
Lemma snapshot_insert gateways s pools p :
  snapshot_ok gateways s pools → route_ok gateways (p_route p) →
  by_id s !! r_id (p_route p) = None → Forall (λ h, hosts s !! h = None) (r_hosts (p_route p)) →
  (∃ u, pools !! p_pool p = Some u ∧ pool_for (p_route p) u) →
  snapshot_ok gateways
    (mkSnapshot (<[r_id (p_route p) := p]> (by_id s))
       (foldl (λ m h, <[h := p]> m) (hosts s) (r_hosts (p_route p)))) pools.
Proof.
  intros [H1 H2] Hr Hid Hh Hu. rewrite Forall_forall in Hh. split; cbn [by_id hosts].
  - intros h q. rewrite lookup_foldl_insert. destruct (decide (h ∈ r_hosts (p_route p))) as [Hin|Hin].
    + intros [= <-]. by rewrite lookup_insert_eq.
    + intros E. destruct (H1 h q E) as [Eq ?]. split; [|done]. rewrite lookup_insert_ne; [done|].
      intros E'. by rewrite <- E', Hid in Eq.
  - intros id q. rewrite lookup_insert_Some. intros [[<- <-]|[Hne E]].
    + split_and!; try done. intros h Hin. rewrite lookup_foldl_insert. by rewrite decide_True.
    + destruct (H2 id q E) as (? & ? & Hq & ?). split_and!; try done. intros h Hin.
      rewrite lookup_foldl_insert. destruct (decide _) as [Hin'|]; [|by apply Hq].
      specialize (Hq h Hin). by rewrite (Hh h Hin') in Hq.
Qed.

Lemma reload_routes_ok uuid now gateways previous first routes : ∀ s pools next s' pools' next',
  snapshot_ok gateways previous pools → snapshot_ok gateways s pools →
  (∀ h, is_Some (pools !! h) → (h < next)%nat) → (first ≤ next)%nat →
  reload_routes uuid now gateways previous routes s pools next = Ok (s', pools', next') →
  snapshot_ok gateways s' pools' ∧ (∀ h, is_Some (pools' !! h) → (h < next')%nat) ∧
  (∀ h u, pools !! h = Some u → pools' !! h = Some u) ∧
  (∀ h u, pools' !! h = Some u → pools !! h = Some u ∨ ∃ r, pool_for r u) ∧
  (∀ id p, by_id s' !! id = Some p → by_id s !! id = Some p ∨
     kept_or_fresh previous first pools' p ∧ ∃ r, r ∈ routes ∧ p_route p = normal r) ∧
  (∀ id p, by_id s !! id = Some p → by_id s' !! id = Some p) ∧
  (∀ r, r ∈ routes → ∃ p, by_id s' !! r_id r = Some p ∧ p_route p = normal r).
Proof.
  induction routes as [|r routes IH]; intros s pools next s' pools' next' Hprev Hs Hf Hn E.
  { cbn in E. injection E as <- <- <-. split_and!; try done; [by left|by left|]. by intros r ?%elem_of_nil. }
  cbn [reload_routes] in E. apply rbind_ok in E as (_ & _ & E). apply rbind_ok in E as (u1 & Hid%ensure_ok & E).
  apply rbind_ok in E as (u2 & Hne%ensure_ok & E). cbv zeta in E. fold (normal r) in E.
  apply rbind_ok in E as (u3 & Hc & E). apply check_hosts_ok in Hc as [Hv Hh].
  apply rbind_ok in E as ([[p pools1] next1] & Hp & E).
  apply negb_true_iff, bool_decide_eq_false in Hid. apply eq_None_not_Some in Hid.
  assert (route_ok gateways (normal r)) as Hr.
  { split; [|done]. apply first_hosts_nonempty. intros Enil. by rewrite Enil in Hne. }
  apply (prepare_route_ok uuid now gateways) in Hp as (Er & Hu & Hk1 & Hk2 & Hf1 & Hn1 & Hkf); [|done..].
  apply IH in E as (H1 & H2 & H3 & H4 & H5 & H6 & H7);
    [|by apply (snapshot_mono _ _ pools)| |done|lia].
  2:{ apply snapshot_insert; rewrite ?Er; try done. by apply (snapshot_mono _ _ pools). }
  cbn [by_id] in *. split_and!; try done.
  - intros h u Eh. by apply H3, Hk1.
  - intros h u Eh. destruct (H4 h u Eh) as [E1|?]; [|by right].
    by apply Hk2.
  - intros id q Eq. destruct (H5 id q Eq) as [E1|(? & r' & ? & ?)].
    + apply lookup_insert_Some in E1 as [[<- <-]|[_ E1]]; [|by left]. right. split.
      * rewrite <- Er in Hkf. destruct Hkf as [?|(? & ? & u & Eu & ?)]; [by left|right].
        split_and!; [done|lia|]. exists u. split; [by apply H3|done].
      * exists r. split; [by left|done].
    + right. split; [done|]. exists r'. split; [by right|done].
  - intros id q Eq. apply H6. rewrite lookup_insert_ne; [done|]. intros <-. rewrite Er in Eq.
    change (r_id (normal r)) with (r_id r) in Eq. by rewrite Hid in Eq.
  - intros r' [->|Hin]%elem_of_cons; [|by apply H7]. exists p. split; [|done]. apply H6. rewrite Er. apply lookup_insert_eq.
Qed.

(** ** Every state a gateway can reach *)

Definition routes_ok (w : WebRoutes) : Prop :=
  snapshot_ok (w_gateways w) (w_snapshot w) (w_pools w) ∧
  (∀ h, is_Some (w_pools w !! h) → (h < w_next w)%nat) ∧
  (∀ h u, w_pools w !! h = Some u → ∃ r, pool_for r u).

(** The steps of a gateway: a reload, a forwarded request on a pool that was selected before,
    perhaps from an older snapshot, and a round of probes. *)
Inductive wstep : WebRoutes → WebRoutes → Prop :=
  | ws_reload w uuid now config : wstep w (reload uuid now config w).2
  | ws_forward w h u env q secure sent r u' :
      w_pools w !! h = Some u → env_fine env u →
      forward_with_security env q secure u = Ok (sent, r, u') →
      wstep w (set_pools (<[h := u']> (w_pools w)) w)
  | ws_check w env w' :
      (∀ h i v, same_config v (pr_others (ce_replies (env h) i) v)) →
      check_all env w = Ok w' → wstep w w'.
Definition reachable (gateways : list string) : WebRoutes → Prop :=
  rtc wstep (with_gateway_hosts gateways).

Lemma pool_for_config r u u' : same_config u u' → pool_for r u → pool_for r u'.
Proof.
  intros Hc [H1 H2 H3 H4 H5]. pose proof Hc as (E1 & _ & _ & E4 & Eg). split.
  - by apply (pool_config u).
  - by apply (probe_config u).
  - by rewrite E1.
  - by rewrite E4.
  - unfold gate_evolves in Eg. destruct (r_access r), (u_gate u), (u_gate u'); try done.
    destruct H5 as [<- Hr], Eg as [(-> & _) Hg]. split; [done|]. by apply Hg.
Qed.
Lemma set_pool_ok w h u u' :
  routes_ok w → w_pools w !! h = Some u → same_config u u' →
  routes_ok (set_pools (<[h := u']> (w_pools w)) w).
Proof.
  intros ([H1 H2] & H3 & H4) Hu Hc. unfold routes_ok. cbn [w_snapshot w_pools w_gateways w_next set_pools].
  split_and!.
  - split; [done|]. intros id p E. destruct (H2 id p E) as (? & ? & ? & v & Hv & Hpv). split_and!; try done.
    destruct (decide (p_pool p = h)) as [E'|].
    + exists u'. rewrite E', lookup_insert_eq. split; [done|]. rewrite E' in Hv. rewrite Hu in Hv.
      injection Hv as <-. by apply (pool_for_config _ u).
    + exists v. by rewrite lookup_insert_ne.
  - intros k [->|[_ Hk]]%lookup_insert_is_Some; [by apply H3; eexists|by apply H3].
  - intros k v [[<- <-]|[_ Hk]]%lookup_insert_Some; [|by eapply H4].
    destruct (H4 h u Hu) as [r Hr]. exists r. by apply (pool_for_config _ u).
Qed.

Lemma check_pools_ok env l : ∀ w,
  (∀ h i v, same_config v (pr_others (ce_replies (env h) i) v)) → routes_ok w →
  ∃ pools, check_pools env l (w_pools w) = Ok pools ∧ routes_ok (set_pools pools w).
Proof.
  induction l as [|h l IH]; intros w He Hw; cbn [check_pools].
  { exists (w_pools w). split; [done|]. by destruct w. }
  destruct (w_pools w !! h) as [u|] eqn:Eu; cbn [rbind]; [|by apply IH].
  destruct (proj2 (proj2 Hw) h u Eu) as [r [Hp Hpr _ _ _]].
  destruct (check_health_ok (ce_now (env h)) (ce_order (env h)) (ce_start (env h)) (ce_replies (env h)) u)
    as (u' & -> & Hc); [by intros i v; apply He|done..|].
  cbn [rbind]. destruct (IH (set_pools (<[h := u']> (w_pools w)) w)) as (pools & E & Hok);
    [done|by apply (set_pool_ok w h u)|]. by exists pools.
Qed.

Lemma reload_ok uuid now config w : routes_ok w → routes_ok (reload uuid now config w).2.
Proof.
  intros Hw. pose proof Hw as (H1 & H2 & H3). unfold reload.
  destruct (reload_routes _ _ _ _ _ _ _ _) as [[[s pools] next]| |] eqn:E; [|done..].
  apply (reload_routes_ok _ _ _ _ (w_next w)) in E as (E1 & E2 & _ & E4 & _); try done.
  { split_and!; [done|done|]. intros h u Eh. destruct (E4 h u Eh) as [?|?]; [|done]. by apply (H3 h). }
Qed.

Lemma step_routes_ok w w' : wstep w w' → routes_ok w → routes_ok w'.
Proof.
  intros [v uuid now config|v h u env q secure sent r u' Hu He Ef|v env v' He Ec] Hw.
  - by apply reload_ok.
  - apply (set_pool_ok v h u); [done|done|]. destruct (proj2 (proj2 Hw) h u Hu) as [rt [Hp _ _ _ _]].
    destruct (upstreams_forward_ok env q secure u Hp He) as (q' & sent' & r' & u2 & Ef' & Hc & _).
    rewrite Ef in Ef'. by injection Ef' as <- <- <-.
  - unfold check_all in Ec. destruct (check_pools_ok env (map (λ x, p_pool x.2)
      (map_to_list (by_id (w_snapshot v)))) v He Hw) as (pools & E & Hok).
    rewrite E in Ec. by injection Ec as <-.
Qed.
Lemma reachable_routes_ok gateways w : reachable gateways w → routes_ok w.
Proof.
  unfold reachable. revert w. apply rtc_ind_r; [|by intros v v' _ Hs; apply step_routes_ok].
  split_and!.
  - split; intros ? ?; cbn; by rewrite lookup_empty.
  - intros h [u Hu]. cbn in Hu. by rewrite lookup_empty in Hu.
  - intros h u Hu. cbn in Hu. by rewrite lookup_empty in Hu.
Qed.

(** Where a request is sent in a state. *)
(** No route has the host. *)
Definition unrouted (w : WebRoutes) (host : string) : Prop :=
  ∀ id p, by_id (w_snapshot w) !! id = Some p → host ∉ r_hosts (p_route p).
Definition selected (w : WebRoutes) (q : Request) (secure : bool) (s : Selection) : Prop :=
  match s with
  | Proxy h =>
      ∃ a p u, request_authority q = Some a ∧ by_id (w_snapshot w) !! r_id (p_route p) = Some p ∧
        request_host a ∈ r_hosts (p_route p) ∧ route_ok (w_gateways w) (p_route p) ∧
        (if secure then r_https (p_route p) else r_http (p_route p)) = true ∧
        p_pool p = h ∧ w_pools w !! h = Some u ∧ pool_for (p_route p) u ∧
        (∀ id p', by_id (w_snapshot w) !! id = Some p' → request_host a ∈ r_hosts (p_route p') → p' = p)
  | Unmatched =>
      request_authority q = None ∨
      ∃ a, request_authority q = Some a ∧ gateway_host w (request_host a) = true ∧
        unrouted w (request_host a)
  | Disabled =>
      ∃ a, request_authority q = Some a ∧
        (gateway_host w (request_host a) = false ∧ unrouted w (request_host a) ∨
         ∃ id p, by_id (w_snapshot w) !! id = Some p ∧ request_host a ∈ r_hosts (p_route p) ∧
           (if secure then r_https (p_route p) else r_http (p_route p)) = false)
  end.
Lemma route_selected gateways w q secure :
  reachable gateways w → selected w q secure (select q secure w).1.
Proof.
  intros Hr%reachable_routes_ok. destruct Hr as ([H1 H2] & _ & _). unfold selected, select.
  destruct (request_authority q) as [a|]; [|by left]. cbv zeta.
  destruct (hosts (w_snapshot w) !! request_host a) as [p|] eqn:E.
  - destruct (H1 _ _ E) as [Hp Hin]. destruct (H2 _ _ Hp) as (_ & Hrt & _ & u & Hu & Hpf).
    destruct (secure && _ || _) eqn:Es; cbn [fst].
    + exists a, p, u. split_and!; try done.
      * destruct secure; simpl in Es; [by rewrite orb_false_r in Es|done].
      * intros id p' Hp' Hin'. destruct (H2 _ _ Hp') as (_ & _ & Hh & _). specialize (Hh _ Hin').
        rewrite E in Hh. by injection Hh.
    + exists a. split; [done|]. right. exists (r_id (p_route p)), p. split_and!; [done..|].
      destruct secure; simpl in Es; [by rewrite orb_false_r in Es|done].
  - assert (unrouted w (request_host a)) as Hun.
    { intros id p Hp Hin. destruct (H2 _ _ Hp) as (_ & _ & Hh & _). by rewrite (Hh _ Hin) in E. }
    destruct (gateway_host w (request_host a)) eqn:Eg; cbn [fst]; [right|]; exists a; auto.
Qed.

(** ** Properties *)

(** C24. Routing is sound in every reachable state: a request is proxied only to the upstreams
    of the one configured route that has its host and admits its scheme, with the
    endpoints and the access gate of that route; a request that names a host reaches the
    portal only for a host of the gateway which no route has; every other named host is
    refused, also after its route is removed, as is a scheme its route does not admit.  A
    request that names no host, in a [Host] header that parses or in its target, is the
    portal's. *)
Theorem route_select_sound gateways w q secure :
  reachable gateways w →
  match (select q secure w).1 with
  | Proxy h =>
      ∃ a p u, request_authority q = Some a ∧ by_id (w_snapshot w) !! r_id (p_route p) = Some p ∧
        request_host a ∈ r_hosts (p_route p) ∧ route_ok (w_gateways w) (p_route p) ∧
        (if secure then r_https (p_route p) else r_http (p_route p)) = true ∧
        p_pool p = h ∧ w_pools w !! h = Some u ∧ pool_for (p_route p) u ∧
        (∀ id p', by_id (w_snapshot w) !! id = Some p' → request_host a ∈ r_hosts (p_route p') → p' = p)
  | Unmatched =>
      request_authority q = None ∨
      ∃ a, request_authority q = Some a ∧ gateway_host w (request_host a) = true ∧
        unrouted w (request_host a)
  | Disabled =>
      ∃ a, request_authority q = Some a ∧
        (gateway_host w (request_host a) = false ∧ unrouted w (request_host a) ∨
         ∃ id p, by_id (w_snapshot w) !! id = Some p ∧ request_host a ∈ r_hosts (p_route p) ∧
           (if secure then r_https (p_route p) else r_http (p_route p)) = false)
  end.
Proof. exact (route_selected gateways w q secure). Qed.

(** A reload is atomic and touches only what changed: when it fails nothing changes;
    when it succeeds the routes are exactly those of the configuration, a route whose
    definition is the same keeps its upstreams with their health, counters and sessions,
    and any other route has upstreams nobody else has and, with a gate, no session and no
    cached credential, so replacing the verifier revokes every session. *)
Theorem reload_keeps_unchanged gateways w uuid now config r w' :
  reachable gateways w → reload uuid now config w = (r, w') →
  match r with
  | Ok _ =>
      (∀ h u, w_pools w !! h = Some u → w_pools w' !! h = Some u) ∧
      (∀ route, route ∈ config → ∃ p, by_id (w_snapshot w') !! r_id route = Some p ∧ p_route p = normal route) ∧
      ∀ id p, by_id (w_snapshot w') !! id = Some p →
        (∃ route, route ∈ config ∧ p_route p = normal route) ∧
        (by_id (w_snapshot w) !! id = Some p ∨
         (∀ old, by_id (w_snapshot w) !! id = Some old → p_route old ≠ p_route p) ∧
         w_pools w !! p_pool p = None ∧
         ∃ u, w_pools w' !! p_pool p = Some u ∧ fresh_gate (r_access (p_route p)) (u_gate u))
  | _ => w' = w
  end.
Proof.
  intros Hr%reachable_routes_ok. destruct Hr as (H1 & H2 & H3). unfold reload.
  destruct (reload_routes _ _ _ _ _ _ _ _) as [[[s pools] next]| |] eqn:E; intros [= <- <-]; [|done..].
  apply (reload_routes_ok _ _ _ _ (w_next w)) in E as (E1 & E2 & E3 & _ & E5 & _ & E7); try done.
  split_and!; [done|done|]. intros id p Hp. cbn [w_snapshot w_pools] in *.
  destruct (so_ids _ _ _ E1 id p Hp) as (Hid & _).
  destruct (E5 id p Hp) as [Hn|[Hk Hc]]; [cbn in Hn; by rewrite lookup_empty in Hn|].
  split; [done|]. unfold kept_or_fresh in Hk. rewrite Hid in Hk. destruct Hk as [?|(Ho & Hn & Hu)]; [by left|right].
  split_and!; [done| |done]. destruct (w_pools w !! p_pool p) eqn:Ep; [|done].
  pose proof (H2 _ (mk_is_Some _ _ Ep)). lia.
Qed.
End web_routes.

(** ** Witnesses *)

#[local] Existing Instances sample_http HttpProxy.Samples.libs Gate.Samples.libs.
Module Samples.
Definition route : Route :=
  mkRoute "r" ["App.example "; "app.example"] "http://service" [] None true false true
    (Some Gate.Samples.config).
Definition uuid (n : nat) : list Z := [].
Definition start : WebRoutes := with_gateway_hosts ["gw"].
Definition routes : WebRoutes := (reload uuid 0 [route] start).2.
Definition visit (host : string) : Request :=
  mkRequest "GET" "/" "HTTP/1.1" (insert_header "host" host no_headers) true.
End Samples.

Lemma sample_reload : reload Samples.uuid 0 [Samples.route] Samples.start = (Ok tt, Samples.routes).
Proof. apply run_eq. by_vm. Qed.
Lemma routes_reachable : reachable ["gw"] Samples.routes.
Proof. apply rtc_once. apply ws_reload. Qed.
Lemma sample_select : (select (Samples.visit "app.example") true Samples.routes).1 = Proxy 0.
Proof. by_vm. Qed.

(** The sample's host over HTTPS, and a host nobody has. *)
Lemma route_select_sound_witness :
  (∃ p u, by_id (w_snapshot Samples.routes) !! r_id (p_route p) = Some p ∧
    w_pools Samples.routes !! 0%nat = Some u ∧ pool_for (p_route p) u) ∧
  (∃ a, request_authority (Samples.visit "other.example") = Some a ∧
    (gateway_host Samples.routes (request_host a) = false ∧ unrouted Samples.routes (request_host a) ∨
     ∃ id p, by_id (w_snapshot Samples.routes) !! id = Some p ∧ request_host a ∈ r_hosts (p_route p) ∧
       r_https (p_route p) = false)).
Proof.
  split.
  - pose proof (route_select_sound ["gw"] Samples.routes (Samples.visit "app.example") true routes_reachable) as Hs.
    rewrite sample_select in Hs. destruct Hs as (a & p & u & _ & Hp & _ & _ & _ & _ & Hu & Hpf & _).
    by exists p, u.
  - pose proof (route_select_sound ["gw"] Samples.routes (Samples.visit "other.example") true routes_reachable) as Hs.
    assert ((select (Samples.visit "other.example") true Samples.routes).1 = Disabled) as E by by_vm.
    rewrite E in Hs. exact Hs.
Defined.

Lemma reload_keeps_unchanged_witness :
  ∃ p, by_id (w_snapshot Samples.routes) !! "r" = Some p ∧ p_route p = normal Samples.route.
Proof.
  destruct (reload_keeps_unchanged ["gw"] Samples.start Samples.uuid 0 [Samples.route] (Ok tt) Samples.routes)
    as (_ & Hr & _); [apply rtc_refl|exact sample_reload|].
  apply (Hr Samples.route). by left.
Defined.
