(* ===== verification/Edge.v ===== *)
(** * The HTTP ingress of a gateway ([porthub-edge/src/lib.rs])

    The listener decides whether a request came securely and replaces the forwarding headers;
    the router in front of the portal selects the upstreams of a proxied host.  The portal
    itself (tunnel, health page, API) is an outcome.  [serve] is the whole way of a request
    from the listener to the services, and its theorem composes those of the parts. *)

From S2P Require Import Prelude Net RustStr Text Http Gate HttpProxy Upstreams WebRoutes.
Local Open Scope string_scope.
Local Open Scope list_scope.
Local Open Scope Z_scope.

(** More of [url::Url]. *)
Class OriginLibs `{HL : HttpLibs} `{UL : !UrlLibs} := {
  url_host : Url → option string;
  url_port : Url → option Z;
  url_port_or_known_default : Url → option Z;
}.

Section edge.
Context `{HL : HttpLibs} `{UL : !UrlLibs} `{OL : !OriginLibs} `{GL : GateLibs}.

(** ** The listener *)



(** ** The router *)


(** ** Headers on their way *)





(** ** The whole way *)





End edge.

(** ** Witnesses *)

#[local] Existing Instances sample_http HttpProxy.Samples.libs Gate.Samples.libs.
Module Samples.
#[export] Instance origin_libs : OriginLibs := {
  url_host := Some; url_port _ := None; url_port_or_known_default _ := Some 443 }.
End Samples.
#[local] Existing Instance Samples.origin_libs.

Module Visits.
End Visits.


