(* ===== verification/Activity.v ===== *)
(** * Request counts of the web gateway ([porthub-runtime/src/web_activity.rs], first part)

    [WebActivity] counts the requests of every route in memory: one record for each route,
    month and, with a visitor fingerprint, client and minute.  [take] hands the records
    over in batches of at most 512.  The hash is the class [ActivityLibs], with the
    calendar of [chrono]; [now] is a time in milliseconds and the batch identity an
    argument.  A [BTreeMap] is its entries in the order of the keys. *)

From S2P Require Import Prelude Net RustStr Http.
Local Open Scope string_scope.
Local Open Scope list_scope.
Local Open Scope Z_scope.

Definition MAX_RECORDS : nat := 512.
Definition MAX_PENDING : Z := 16384.
Definition I64_MAX : Z := 2 ^ 63 - 1.

(** The published ingress ranges of Cloudflare, parsed. *)
Definition RANGES : list (IpAddr * Z) :=
  [(V4 (ipv4_new 173 245 48 0), 20); (V4 (ipv4_new 103 21 244 0), 22);
   (V4 (ipv4_new 103 22 200 0), 22); (V4 (ipv4_new 103 31 4 0), 22);
   (V4 (ipv4_new 141 101 64 0), 18); (V4 (ipv4_new 108 162 192 0), 18);
   (V4 (ipv4_new 190 93 240 0), 20); (V4 (ipv4_new 188 114 96 0), 20);
   (V4 (ipv4_new 197 234 240 0), 22); (V4 (ipv4_new 198 41 128 0), 17);
   (V4 (ipv4_new 162 158 0 0), 15); (V4 (ipv4_new 104 16 0 0), 13);
   (V4 (ipv4_new 104 24 0 0), 14); (V4 (ipv4_new 172 64 0 0), 13);
   (V4 (ipv4_new 131 0 72 0), 22);
   (V6 (ipv6_of [0x2400; 0xcb00; 0; 0; 0; 0; 0; 0]), 32);
   (V6 (ipv6_of [0x2606; 0x4700; 0; 0; 0; 0; 0; 0]), 32);
   (V6 (ipv6_of [0x2803; 0xf800; 0; 0; 0; 0; 0; 0]), 32);
   (V6 (ipv6_of [0x2405; 0xb500; 0; 0; 0; 0; 0; 0]), 32);
   (V6 (ipv6_of [0x2405; 0x8100; 0; 0; 0; 0; 0; 0]), 32);
   (V6 (ipv6_of [0x2a06; 0x98c0; 0; 0; 0; 0; 0; 0]), 29);
   (V6 (ipv6_of [0x2c0f; 0xf248; 0; 0; 0; 0; 0; 0]), 32)].

(** [MAX.checked_shl(width - bits).unwrap_or(0)] *)
Definition mask_of (width bits : Z) : Z :=
  if width - bits <? width then (2 ^ width - 1) * 2 ^ (width - bits) mod 2 ^ width else 0.

Definition cloudflare_peer (ip : IpAddr) : bool :=
  existsb (λ '(network, bits),
    match to_canonical ip, network with
    | V4 ip, V4 network => Z.land ip (mask_of 32 bits) =? Z.land network (mask_of 32 bits)
    | V6 ip, V6 network => Z.land ip (mask_of 128 bits) =? Z.land network (mask_of 128 bits)
    | _, _ => false
    end) RANGES.

(** ** Records and their keys *)

Record Record_ := mkRecord {
  route_id : string; count : Z; timestamp : Z; host : string;
  client : option string; first_timestamp : option Z }.
Record Batch := mkBatch {
  version : Z; b_id : string; coverage_warning : bool; records : list Record_ }.

#[global] Instance Record_eq_dec : EqDecision Record_.
Proof. solve_decision. Defined.
#[global] Instance Batch_eq_dec : EqDecision Batch.
Proof. solve_decision. Defined.

(** [(String, i32, Option<(String, i64)>)] and its order *)
Definition Key : Type := string * Z * option (string * Z).
Definition option_cmp {A} (cmp : A → A → comparison) (a b : option A) : comparison :=
  match a, b with
  | None, None => Eq
  | None, Some _ => Lt
  | Some _, None => Gt
  | Some a, Some b => cmp a b
  end.
Definition pair_cmp {A B} (f : A → A → comparison) (g : B → B → comparison) (a b : A * B) :
    comparison :=
  then_cmp (f a.1 b.1) (g a.2 b.2).
Definition key_cmp : Key → Key → comparison :=
  pair_cmp (pair_cmp String.compare Z.compare) (option_cmp (pair_cmp String.compare Z.compare)).

(** [counts.contains_key(&key)]; [counts.entry(key)] with [f] applied to the entry. *)
Definition has_key (k : Key) (l : list (Key * Record_)) : bool :=
  existsb (λ e, match key_cmp k e.1 with Eq => true | _ => false end) l.
Fixpoint upsert (k : Key) (f : option Record_ → Record_) (l : list (Key * Record_)) :
    list (Key * Record_) :=
  match l with
  | [] => [(k, f None)]
  | (k', r) :: l' =>
      match key_cmp k k' with
      | Lt => (k, f None) :: l
      | Eq => (k', f (Some r)) :: l'
      | Gt => (k', r) :: upsert k f l'
      end
  end.

Record Pending := mkPending { counts : list (Key * Record_); warning : bool }.
Record WebActivity := mkActivity { pending : Pending; visitor_key : option (list Z) }.
Definition set_pending p a := mkActivity p (visitor_key a).

Class ActivityLibs := {
  sha256 : list Z → list Z;
  (** [DateTime::year], [DateTime::month] of a time in milliseconds *)
  year : Z → Z;
  month : Z → Z;
}.

Section activity.
Context `{HL : HttpLibs} `{AL : ActivityLibs}.

(** [WebActivity::default()], [WebActivity::requests_only()] *)
Definition activity_default : WebActivity := mkActivity (mkPending [] false) None.
Definition requests_only : WebActivity := mkActivity (mkPending [] true) None.

(** A counted request: the route, the host it was asked for, the time, the fingerprint. *)
Record Event := mkEvent {
  ev_route : string; ev_host : string; ev_now : Z; ev_client : option string }.

Definition key_of (e : Event) : Key :=
  (ev_route e, year (ev_now e) * 100 + month (ev_now e),
   (λ c, (c, ev_now e / 60000)) <$> ev_client e).

(** The record a new entry starts from, and the update of an entry. *)
Definition new_record (e : Event) : Record_ :=
  mkRecord (ev_route e) 0 0 "" (ev_client e) ((λ _, ev_now e) <$> ev_client e).
Definition bump (e : Event) (entry : option Record_) : Record_ :=
  let r := default (new_record e) entry in
  let later := timestamp r <=? ev_now e in
  mkRecord (route_id r) (Z.min (count r + 1) I64_MAX)
    (if later then ev_now e else timestamp r) (if later then ev_host e else host r)
    (client r) (Z.min (ev_now e) <$> first_timestamp r).

Definition record_at_with_client (e : Event) (a : WebActivity) : WebActivity :=
  let p := pending a in
  let key := key_of e in
  if (MAX_PENDING <=? len (counts p)) && negb (has_key key (counts p))
  then set_pending (mkPending (counts p) true) a
  else set_pending (mkPending (upsert key (bump e) (counts p)) (warning p)) a.

Definition record (route host : string) (now : Z) : WebActivity → WebActivity :=
  record_at_with_client (mkEvent route host now None).

(** The fingerprint of a visitor; [peer] is the address of the connection, when known. *)
Definition visitor_address (peer : IpAddr) (headers : Headers) : IpAddr :=
  let peer := to_canonical peer in
  if cloudflare_peer peer
  then default peer (v ← get_text "cf-connecting-ip" headers; to_canonical <$> parse_ip v)
  else peer.
Definition fingerprint (key : list Z) (route : string) (peer : IpAddr) (headers : Headers) : string :=
  let agent :=
    match get_header "user-agent" headers with
    | Some agent => take 512 (bytes_of agent)
    | None => []
    end in
  String.concat "" (map show_hex (sha256
    (key ++ to_be 8 (slen route) ++ bytes_of route
      ++ bytes_of (show_ip (visitor_address peer headers)) ++ [0] ++ agent))).
Definition record_request (route host : string) (peer : option IpAddr) (headers : Headers)
    (now : Z) (a : WebActivity) : WebActivity :=
  let client :=
    key ← visitor_key a; peer ← peer; Some (fingerprint key route peer headers) in
  record_at_with_client (mkEvent route host now client) a.

(** [take]: the first records in the order of the keys, at most 512. *)
Definition take_batch (id : string) (a : WebActivity) : option Batch * WebActivity :=
  let p := pending a in
  match counts p with
  | [] => (None, a)
  | _ =>
      (Some (mkBatch 2 id (warning p) (map snd (take MAX_RECORDS (counts p)))),
       set_pending (mkPending (drop MAX_RECORDS (counts p)) (warning p)) a)
  end.

End activity.

(** ** The order of the keys *)

(** What an [Ord] promises. *)
Record total_cmp {A} (cmp : A → A → comparison) : Prop := {
  cmp_eq a b : cmp a b = Eq ↔ a = b;
  cmp_trans a b c : cmp a b = Lt → cmp b c = Lt → cmp a c = Lt;
  cmp_flip a b : cmp a b = Gt → cmp b a = Lt;
}.

Lemma total_str : total_cmp String.compare.
Proof.
  split.
  - split; [apply String.compare_eq_iff|intros ->; apply str_compare_refl].
  - apply str_lt_trans.
  - intros a b. apply str_compare_flip.
Qed.
Lemma total_Z : total_cmp Z.compare.
Proof. split; intros *; rewrite ?Z.compare_eq_iff, ?Z.compare_lt_iff, ?Z.compare_gt_iff; lia. Qed.
Lemma total_pair {A B} (f : A → A → comparison) (g : B → B → comparison) :
  total_cmp f → total_cmp g → total_cmp (pair_cmp f g).
Proof.
  intros [fe ft ff] [ge gt gf]. unfold pair_cmp. split.
  - intros [a1 b1] [a2 b2]. simpl. specialize (fe a1 a2). specialize (ge b1 b2).
    destruct (f a1 a2); simpl; naive_solver.
  - intros [a1 b1] [a2 b2] [a3 b3]. simpl. specialize (gt b1 b2 b3).
    destruct (f a1 a2) eqn:E1, (f a2 a3) eqn:E2; simpl; try done;
      rewrite ?fe in *; subst; rewrite ?E1, ?E2; simpl; try done.
    + rewrite (proj2 (fe a3 a3) eq_refl). simpl. done.
    + by rewrite (ft _ _ _ E1 E2).
  - intros [a1 b1] [a2 b2]. simpl. specialize (gf b1 b2).
    destruct (f a1 a2) eqn:E; simpl; try done.
    + apply fe in E as ->. rewrite (proj2 (fe a2 a2) eq_refl). done.
    + by rewrite (ff _ _ E).
Qed.
Lemma total_option {A} (f : A → A → comparison) : total_cmp f → total_cmp (option_cmp f).
Proof.
  intros [fe ft ff]. split.
  - intros [a|] [b|]; simpl; rewrite ?fe; naive_solver.
  - intros [a|] [b|] [c|]; simpl; try done. apply ft.
  - intros [a|] [b|]; simpl; try done. apply ff.
Qed.
Lemma total_key : total_cmp key_cmp.
Proof. repeat apply total_pair || apply total_option || apply total_str || apply total_Z. Qed.

(** An entry is updated in place or a new one inserted. *)
Lemma upsert_cases (k : Key) f (l : list (Key * Record_)) :
  (∃ l1 r l2, l = l1 ++ (k, r) :: l2 ∧ upsert k f l = l1 ++ (k, f (Some r)) :: l2)
  ∨ (∃ l1 l2, l = l1 ++ l2 ∧ upsert k f l = l1 ++ (k, f None) :: l2).
Proof.
  induction l as [|[k' r] l IH]; simpl; [right; by exists [], []|].
  destruct (key_cmp k k') eqn:E.
  - apply (cmp_eq _ total_key) in E as <-. left. by exists [], r, l.
  - right. by exists [], ((k', r) :: l).
  - destruct IH as [(l1 & r' & l2 & -> & ->)|(l1 & l2 & -> & ->)].
    + left. by exists ((k', r) :: l1), r', l2.
    + right. by exists ((k', r) :: l1), l2.
Qed.

(** The entries are in the strict order of their keys. *)
Definition key_lt (a b : Key * Record_) : Prop := key_cmp a.1 b.1 = Lt.

Lemma upsert_sorted k f l : StronglySorted key_lt l → StronglySorted key_lt (upsert k f l).
Proof.
  induction 1 as [|[k' r] l Hl IH Hr]; simpl; [by repeat constructor|].
  destruct (key_cmp k k') eqn:E.
  - by constructor.
  - constructor; [by constructor|]. constructor; [done|].
    eapply Forall_impl; [exact Hr|]. intros [k2 r2] H. by eapply (cmp_trans _ total_key).
  - constructor; [done|].
    destruct (upsert_cases k f l) as [(l1 & r1 & l2 & -> & ->)|(l1 & l2 & -> & ->)];
      apply Forall_app in Hr as [H1 H2]; apply Forall_app; split; try done.
    + apply Forall_cons in H2 as [H2 H3]. by constructor.
    + constructor; [by apply (cmp_flip _ total_key)|done].
Qed.

Lemma has_key_elem k l : has_key k l = true ↔ ∃ r, (k, r) ∈ l.
Proof.
  unfold has_key. rewrite existsb_exists. split.
  - intros ((k' & r) & Hin & H). simpl in H. case_match eqn:E; try done.
    apply (cmp_eq _ total_key) in E as <-. exists r. by apply list_elem_of_In.
  - intros (r & H). exists (k, r). split; [by apply list_elem_of_In|]. simpl.
    by rewrite (proj2 (cmp_eq _ total_key k k) eq_refl).
Qed.

Lemma upsert_present k f l :
  StronglySorted key_lt l → has_key k l = true → length (upsert k f l) = length l.
Proof.
  induction 1 as [|[k' r] l Hl IH Hr]; [done|]. rewrite has_key_elem. intros (r1 & H).
  simpl. destruct (key_cmp k k') eqn:E; simpl; [done| |].
  - exfalso. apply elem_of_cons in H as [[= -> ->]|H].
    + by rewrite (proj2 (cmp_eq _ total_key k' k') eq_refl) in E.
    + pose proof (proj1 (Forall_forall _ _) Hr _ H) as H1.
      pose proof (cmp_trans _ total_key _ _ _ E H1) as H2. simpl in H2.
      by rewrite (proj2 (cmp_eq _ total_key k k) eq_refl) in H2.
  - f_equal. apply IH. rewrite has_key_elem.
    apply elem_of_cons in H as [[= -> ->]|H]; [|by exists r1].
    by rewrite (proj2 (cmp_eq _ total_key k' k') eq_refl) in E.
Qed.

Lemma upsert_length k f l : (length (upsert k f l) ≤ S (length l))%nat.
Proof.
  destruct (upsert_cases k f l) as [(l1 & r & l2 & -> & ->)|(l1 & l2 & -> & ->)];
    rewrite !length_app; simpl; lia.
Qed.

(** ** Every request is counted once

    A run of a gateway's counter: requests, and the batches the journal takes. *)

Section counting.
Context `{HL : HttpLibs} `{AL : ActivityLibs}.

Inductive activity_op := Count (e : Event) | Take (id : string).

(** The counter, the batches taken, and the requests that were counted and that were not. *)
Record Run := mkRun {
  r_activity : WebActivity; r_batches : list Batch; r_counted : list Event; r_lost : list Event }.
Definition run_op (r : Run) (o : activity_op) : Run :=
  match o with
  | Count e =>
      let a := record_at_with_client e (r_activity r) in
      let p := pending (r_activity r) in
      if (MAX_PENDING <=? len (counts p)) && negb (has_key (key_of e) (counts p))
      then mkRun a (r_batches r) (r_counted r) (r_lost r ++ [e])
      else mkRun a (r_batches r) (r_counted r ++ [e]) (r_lost r)
  | Take id =>
      let '(b, a) := take_batch id (r_activity r) in
      mkRun a (r_batches r ++ option_list b) (r_counted r) (r_lost r)
  end.
Definition run_ops (ops : list activity_op) : Run :=
  foldl run_op (mkRun activity_default [] [] []) ops.
Definition events_of (ops : list activity_op) : list Event :=
  omap (λ o, match o with Count e => Some e | Take _ => None end) ops.

(** The record [r] says of the requests [es], in their order, what it should: they have
    one key, it has their number, the time and host of the latest and the first time. *)
Record summarises (k : Key) (es : list Event) (r : Record_) : Prop := {
  sm_key : Forall (λ e, key_of e = k) es;
  sm_route : k.1.1 = route_id r ∧ fst <$> k.2 = client r;
  sm_count : count r = Z.min (len es) I64_MAX;
  sm_last : ∃ i e, es !! i = Some e ∧ timestamp r = ev_now e ∧ host r = ev_host e ∧
    ∀ j e', es !! j = Some e' → ev_now e' ≤ ev_now e ∧ (ev_now e' = ev_now e → (j ≤ i)%nat);
  sm_first : match client r with
    | None => first_timestamp r = None
    | Some _ => ∃ e, e ∈ es ∧ first_timestamp r = Some (ev_now e)
                  ∧ ∀ e', e' ∈ es → ev_now e ≤ ev_now e'
    end;
}.

Lemma summarises_new e : 0 ≤ ev_now e → summarises (key_of e) [e] (bump e None).
Proof.
  intros Hn. unfold bump, key_of. simpl. rewrite (proj2 (Z.leb_le 0 _) Hn). split; simpl.
  - by repeat constructor.
  - split; [done|]. by destruct (ev_client e).
  - done.
  - exists 0%nat, e. split_and!; try done. intros [|j] e'; simpl; [|done].
    intros [= <-]. lia.
  - destruct (ev_client e); simpl; [|done]. exists e. rewrite Z.min_id.
    split_and!; [by left|done|]. intros e' He. apply list_elem_of_singleton in He as ->. lia.
Qed.

Lemma summarises_bump k es e r :
  summarises k es r → key_of e = k → summarises k (es ++ [e]) (bump e (Some r)).
Proof.
  intros [Hk Hr Hc (i & l & Hi & Ht & Hh & Hl) Hf] He. split; simpl.
  - apply Forall_app. by repeat constructor.
  - done.
  - rewrite Hc, length_app. simpl. unfold I64_MAX. lia.
  - assert (∀ j e', (es ++ [e]) !! j = Some e' → es !! j = Some e' ∨ j = length es ∧ e' = e)
      as Hs.
    { intros j e' [Hj|[Hj1 Hj2]]%lookup_app_Some; [by left|]. right.
      apply list_lookup_singleton_Some in Hj2 as [? ->]. split; [lia|done]. }
    apply lookup_lt_Some in Hi as Hlen.
    destruct (timestamp r <=? ev_now e) eqn:E.
    + exists (length es), e. split_and!; try done; [by apply list_lookup_middle|].
      intros j e' [Hj|[-> ->]]%Hs; [|lia]. apply lookup_lt_Some in Hj as Hj2.
      destruct (Hl _ _ Hj). lia.
    + exists i, l. split_and!; try done; [by apply lookup_app_l_Some|].
      intros j e' [Hj|[-> ->]]%Hs; [by eapply Hl|lia].
  - destruct (client r); [|by rewrite Hf].
    destruct Hf as (f & Hf & -> & Hm). simpl.
    destruct (decide (ev_now e < ev_now f)).
    + exists e. split_and!; [apply elem_of_app; right; by left|f_equal; lia|].
      intros e' [H|H%list_elem_of_singleton]%elem_of_app; [apply Hm in H; lia|subst; lia].
    + exists f. split_and!; [apply elem_of_app; by left|f_equal; lia|].
      intros e' [H|H%list_elem_of_singleton]%elem_of_app; [by apply Hm|subst; lia].
Qed.

Record run_ok (r : Run) : Prop := {
  ro_counted : ∃ segs psegs,
    Forall2 (λ es x, ∃ k, summarises k es x) segs (concat (map records (r_batches r)))
    ∧ Forall2 (λ es e, summarises e.1 es e.2) psegs (counts (pending (r_activity r)))
    ∧ concat segs ++ concat psegs ≡ₚ r_counted r
    ∧ Forall (λ es, es `sublist_of` r_counted r) (segs ++ psegs);
  ro_sorted : StronglySorted key_lt (counts (pending (r_activity r)));
  ro_bound : len (counts (pending (r_activity r))) ≤ MAX_PENDING;
  ro_lost : r_lost r = []
    ∨ warning (pending (r_activity r)) = true ∧ MAX_PENDING ≤ len (r_counted r);
}.

(** Every pending record counts a request. *)
Lemma pending_counted psegs l (es : list Event) :
  Forall2 (λ es e, summarises e.1 es e.2) psegs l → concat psegs ⊆+ es → len l ≤ len es.
Proof.
  intros H Hs. apply submseteq_length in Hs. enough (len l ≤ len (concat psegs)) by lia. clear Hs.
  induction H as [|s [k x] psegs l [_ _ _ (i & e & Hi & _) _] _ IH]; [done|].
  apply lookup_lt_Some in Hi. simpl. rewrite length_app. simpl in IH. lia.
Qed.

Lemma sublists_grow es (l : list (list Event)) e :
  Forall (λ s, s `sublist_of` es) l → Forall (λ s, s `sublist_of` (es ++ [e])) l.
Proof. intros H. eapply Forall_impl; [exact H|]. intros s Hs. by apply sublist_inserts_r. Qed.

Lemma count_ok r e : 0 ≤ ev_now e → run_ok r → run_ok (run_op r (Count e)).
Proof.
  intros Hn [(segs & psegs & Hb & Hp & Hc & Hs) Hso Hl Hw]. simpl.
  unfold record_at_with_client.
  case_match eqn:E.
  { split; simpl; [by exists segs, psegs|done|done|]. right. split; [done|].
    apply andb_true_iff in E as [E _]. enough (len (counts (pending (r_activity r))) ≤ len (r_counted r)) by lia.
    eapply pending_counted; [exact Hp|]. rewrite <- Hc. by apply submseteq_inserts_l. }
  split; simpl; [|by apply upsert_sorted| |].
  - destruct (upsert_cases (key_of e) (bump e) (counts (pending (r_activity r))))
      as [(l1 & x & l2 & Hl1 & ->)|(l1 & l2 & Hl1 & ->)]; rewrite Hl1 in Hp;
      apply Forall2_app_inv_r in Hp as (p1 & p2 & Hp1 & Hp2 & ->).
    + inversion Hp2 as [|es y p3 l3 Hy Hp3]; subst. exists segs, (p1 ++ (es ++ [e]) :: p3).
      rewrite !Forall_app, Forall_cons in *. destruct Hs as (Hs1 & Hs2 & Hs3 & Hs4).
      split_and!; try (by apply sublists_grow); [done| | |].
      * apply Forall2_app; [done|]. constructor; [|done]. by apply summarises_bump.
      * rewrite <- Hc, !concat_app. simpl. solve_Permutation.
      * by apply sublist_app.
    + exists segs, (p1 ++ [e] :: p2). rewrite !Forall_app, Forall_cons in *.
      destruct Hs as (Hs1 & Hs2 & Hs3).
      split_and!; try (by apply sublists_grow); [done| | |].
      * apply Forall2_app; [done|]. constructor; [|done]. by apply summarises_new.
      * rewrite <- Hc, !concat_app. simpl. solve_Permutation.
      * by apply sublist_inserts_l.
  - apply andb_false_iff in E as [E|E].
    + pose proof (upsert_length (key_of e) (bump e) (counts (pending (r_activity r)))). lia.
    + apply negb_false_iff in E. by rewrite upsert_present.
  - rewrite length_app. destruct Hw as [?|[? ?]]; [by left|right; split; [done|lia]].
Qed.

Lemma take_ok r id : run_ok r → run_ok (run_op r (Take id)).
Proof.
  intros [(segs & psegs & Hb & Hp & Hc & Hs) Hso Hl Hw]. simpl. unfold take_batch.
  destruct (counts (pending (r_activity r))) as [|e0 l0] eqn:El.
  { split; simpl; rewrite ?El, ?app_nil_r; try done. by exists segs, psegs. }
  rewrite <- El in *. clear e0 l0 El. set (l := counts _) in *.
  rewrite <- (take_drop MAX_RECORDS l) in Hp, Hso.
  apply Forall2_app_inv_r in Hp as (p1 & p2 & Hp1 & Hp2 & ->).
  split; simpl; [| |rewrite length_drop; lia|done].
  - exists (segs ++ p1), p2.
    rewrite map_app, concat_app. simpl. rewrite app_nil_r, <- (assoc_L (++)). split_and!; try done.
    + apply Forall2_app; [done|]. rewrite Forall2_fmap_r. eapply Forall2_impl; [exact Hp1|].
      intros es [k x] H. by exists k.
    + rewrite <- Hc, !concat_app. by rewrite (assoc_L (++)).
  - clear -Hso. induction (take MAX_RECORDS l) as [|x t IH]; [done|]. simpl in Hso.
    apply StronglySorted_inv in Hso as [H _]. by apply IH.
Qed.

Lemma run_ops_ok ops :
  Forall (λ e, 0 ≤ ev_now e) (events_of ops) →
  run_ok (run_ops ops) ∧ r_counted (run_ops ops) ++ r_lost (run_ops ops) ≡ₚ events_of ops.
Proof.
  unfold run_ops. induction ops as [|o ops IH] using rev_ind; intros Hn.
  { split; [|done]. split; simpl; try done; [|by constructor|by left]. by exists [], []. }
  unfold events_of in *. rewrite omap_app in *. apply Forall_app in Hn as [Hn Ho].
  specialize (IH Hn) as [IH1 IH2]. rewrite foldl_app. simpl.
  set (r := foldl _ _ _) in *.
  destruct o as [e|id].
  - apply Forall_cons in Ho as [Ho _]. split; [by apply count_ok|]. rewrite <- IH2. simpl.
    case_match; simpl; solve_Permutation.
  - split; [by apply take_ok|]. rewrite <- IH2. simpl. rewrite app_nil_r.
    by destruct (take_batch id _).
Qed.

(** Whatever requests and batches interleave, every request that the full
    table did not refuse is counted in exactly one record, of a taken batch or pending;
    a record has the number, the latest time and host and the first time of its requests,
    which have one route, month, client and minute.  At most 16384 records are pending, no
    two with one key, and a refused request raises the coverage warning. *)
Theorem requests_counted_once ops :
  Forall (λ e, 0 ≤ ev_now e) (events_of ops) →
  let r := run_ops ops in
  let p := pending (r_activity r) in
  (∃ segs psegs,
    Forall2 (λ es x, ∃ k, summarises k es x) segs (concat (map records (r_batches r)))
    ∧ Forall2 (λ es e, summarises e.1 es e.2) psegs (counts p)
    ∧ concat segs ++ concat psegs ≡ₚ r_counted r
    ∧ Forall (λ es, es `sublist_of` r_counted r) (segs ++ psegs))
  ∧ r_counted r ++ r_lost r ≡ₚ events_of ops
  ∧ StronglySorted key_lt (counts p) ∧ len (counts p) ≤ MAX_PENDING
  ∧ (r_lost r = [] ∨ warning p = true).
Proof.
  intros Hn r p. destruct (run_ops_ok ops Hn) as [[? ? ? Hl] ?]. split_and!; try done.
  destruct Hl as [?|[? _]]; [by left|by right].
Qed.

End counting.

(** ** A concrete run *)

Module Samples.
#[local] Existing Instance sample_http.

(** A calendar of one month; the hash is not used. *)
Definition libs : ActivityLibs := {| sha256 := λ l, l; year := λ _, 2026; month := λ _, 9 |}.
#[local] Existing Instance libs.

Definition visit (route host : string) (now : Z) : activity_op :=
  Count (mkEvent route host now None).
Definition ops : list activity_op :=
  [visit "a" "old.example" 10; visit "b" "b.example" 20; visit "a" "new.example" 30;
   Take "first"; visit "a" "new.example" 40].

Lemma requests_counted_once_witness :
  r_batches (run_ops ops)
  = [mkBatch 2 "first" false [mkRecord "a" 2 30 "new.example" None None;
                              mkRecord "b" 1 20 "b.example" None None]]
  ∧ len (counts (pending (r_activity (run_ops ops)))) ≤ MAX_PENDING.
Proof.
  split; [by_vm|]. refine (proj1 (proj2 (proj2 (proj2 (requests_counted_once ops _))))).
  repeat constructor; simpl; lia.
Defined.
End Samples.
