(* ===== verification/Journal.v ===== *)
(** * The activity journal ([porthub-runtime/src/web_activity.rs], second part)

    The writer appends one line for each batch to a file and rotates it at 10 MiB, keeping
    two older segments; readers in another process follow it with a checkpoint.  Files are
    inodes with names, so an open file stays what it was when it is renamed.  Every call
    to the file system takes its outcome from a script of faults in the [World].  The JSON
    of a batch, UUIDs and the range of [chrono] times are the class [JournalLibs]. *)

From stdpp Require Import countable pretty.
From S2P Require Import Prelude Net RustStr Http Activity.
Local Open Scope string_scope.
Local Open Scope list_scope.
Local Open Scope Z_scope.

Definition ROTATE_BYTES : Z := 10 * 1024 * 1024.
Definition MAX_READ : Z := 2 * 1024 * 1024.

Class JournalLibs := {
  (** [serde_json::to_vec], [serde_json::from_slice] *)
  encode : Batch → list Z;
  decode : list Z → option Batch;
  (** [Uuid::parse_str(..).is_ok()], [DateTime::from_timestamp_millis(..).is_some()] *)
  is_uuid : string → bool;
  is_time : Z → bool;
  (** The device and the number of an inode, as text. *)
  inode_name : nat → string;
}.

(** Compact JSON has no line break, and what is written is read back. *)
Class JournalLibsOk (L : JournalLibs) : Prop := {
  decode_encode b : decode (encode b) = Some b;
  encode_line b : 10 ∉ encode b;
  encode_nonempty b : encode b ≠ [];
  inode_name_inj : Inj (=) (=) inode_name;
}.

(** ** Reading *)

Record Checkpoint := mkCheckpoint { identity : string; offset : Z }.
Record Read := mkRead { checkpoint : Checkpoint; batches : list Batch; gap : bool; more : bool }.

(** An opened segment: its device and inode, its length at that time, and what a read
    finds in it, which may have grown. *)
Record Opened := mkOpened { o_identity : string; o_length : Z; o_content : list Z }.

Section reader.
Context `{L : JournalLibs}.

Definition record_valid (version : Z) (r : Record_) : bool :=
  negb (str_is_empty (route_id r)) && (slen (route_id r) <=? 128) && (slen (host r) <=? 253)
  && (0 <=? count r)
  && match client r, first_timestamp r with
     | None, None => true
     | Some c, Some first =>
         (version =? 2) && (0 <? count r) && (slen c =? 64) && all_bytes is_ascii_hexdigit c
         && (first <=? timestamp r) && (Z.min (timestamp r - first) I64_MAX <? 60000)
         && is_time first
     | _, _ => false
     end
  && is_time (timestamp r).
Definition batch_valid (b : Batch) : bool :=
  ((version b =? 1) || (version b =? 2)) && is_uuid (b_id b)
  && (len (records b) <=? Z.of_nat MAX_RECORDS) && forallb (record_valid (version b)) (records b).

(** [bytes.split(|byte| byte == 10)]; the position after the last line break. *)
Fixpoint split_lines (l : list Z) : list (list Z) :=
  match l with
  | [] => [[]]
  | b :: l =>
      if b =? 10 then [] :: split_lines l
      else match split_lines l with [] => [[b]] | s :: ss => (b :: s) :: ss end
  end.
Fixpoint line_end (l : list Z) : nat :=
  match l with
  | [] => O
  | b :: l => match line_end l with O => if b =? 10 then 1%nat else O | S e => S (S e) end
  end.

(** The lines of [bytes[..end]]: the valid batches, and whether some line is not one. *)
Definition read_lines (bytes : list Z) : list Batch * bool :=
  foldl (λ '(batches, gap) line,
    match decode line with
    | Some b => if batch_valid b then (batches ++ [b], gap) else (batches, true)
    | None => (batches, true)
    end) ([], false) (filter (λ line, line ≠ []) (split_lines (take (line_end bytes) bytes))).

(** The variables of the loop over the segments. *)
Record Reading := mkReading {
  rd_gap : bool; rd_remaining : Z; rd_batches : list Batch;
  rd_result : option Checkpoint; rd_more : bool }.

(** The body of the loop for one segment; the last component is [break]. *)
Definition read_file (last : bool) (start : Z) (f : Opened) (st : Reading) : Reading * bool :=
  let length := o_length f in
  let '(gap, offset) := if length <? start then (true, 0) else (rd_gap st, start) in
  let rest := drop (Z.to_nat offset) (o_content f) in
  let bytes := take (Z.to_nat (Z.min (rd_remaining st) (len rest))) rest in
  let e := Z.of_nat (line_end bytes) in
  let '(lines, bad) := read_lines bytes in
  let whole := (e =? 0) && (len bytes =? MAX_READ) in
  let offset := offset + (if whole then len bytes else e) in
  let remaining := Z.max 0 (rd_remaining st - len bytes) in
  let torn := negb last && (offset <? length) && (len bytes <? MAX_READ) && (0 <? remaining) in
  let offset := if torn then length else offset in
  let result b := mkReading (gap || bad || whole || torn) remaining (rd_batches st ++ lines)
                    (Some (mkCheckpoint (o_identity f) offset)) b in
  if offset <? length then (result (remaining =? 0), true)
  else if remaining =? 0 then (result (negb last), true)
  else (result (rd_more st), false).

(** The loop from a segment on, [start] is where to read in the first one. *)
Fixpoint read_files (start : Z) (files : list Opened) (st : Reading) : Reading :=
  match files with
  | [] => st
  | f :: files =>
      let '(st, stop) := read_file (bool_decide (files = [])) start f st in
      if stop then st else read_files 0 files st
  end.

(** [files.iter().position(|(_, identity, _)| identity == &checkpoint.identity)] *)
Fixpoint position (id : string) (files : list Opened) : option nat :=
  match files with
  | [] => None
  | f :: files => if bool_decide (o_identity f = id) then Some O else S <$> position id files
  end.

Definition read_batch (files : list Opened) (cp : option Checkpoint) : option Read :=
  match files with
  | [] => None
  | _ =>
      let found := c ← cp; position (identity c) files in
      let gap := bool_decide (is_Some cp) && bool_decide (found = None) in
      let start := default O found in
      let st := read_files (match found, cp with Some _, Some c => offset c | _, _ => 0 end)
                  (drop start files) (mkReading gap MAX_READ [] None false) in
      c ← rd_result st; Some (mkRead c (rd_batches st) (rd_gap st) (rd_more st))
  end.

End reader.

(** ** What a reader finds in the text of batches *)

Section text.
Context {L : JournalLibs} {JL : JournalLibsOk L}.

Definition line (b : Batch) : list Z := encode b ++ [10].
Definition text (bs : list Batch) : list Z := concat (map line bs).

(** A batch the writer may write: valid for the reader, and its line fits one read. *)
Definition writable (b : Batch) : Prop := batch_valid b = true ∧ len (line b) ≤ MAX_READ.

Lemma text_app bs cs : text (bs ++ cs) = text bs ++ text cs.
Proof. unfold text. by rewrite map_app, concat_app. Qed.
Lemma text_cons b bs : text (b :: bs) = line b ++ text bs.
Proof. done. Qed.

Lemma line_end_none t : 10 ∉ t → line_end t = O.
Proof.
  induction t as [|b t IH]; intros H; [done|]. simpl. apply not_elem_of_cons in H as [H1 H2].
  rewrite (IH H2). case_match; [lia|done].
Qed.
Lemma line_end_break l t : 10 ∉ t → line_end (l ++ 10 :: t) = S (length l).
Proof.
  intros Ht. induction l as [|b l IH]; simpl; [by rewrite line_end_none|]. by rewrite IH.
Qed.
Lemma text_snoc bs : bs = [] ∨ ∃ l, text bs = l ++ [10].
Proof.
  destruct bs as [|b cs _] using rev_ind; [by left|]. right.
  exists (text cs ++ encode b). rewrite text_app. unfold text at 2, line. simpl.
  by rewrite app_nil_r, <- (assoc_L (++)).
Qed.
Lemma line_end_text bs t : 10 ∉ t → line_end (text bs ++ t) = length (text bs).
Proof.
  intros Ht. destruct (text_snoc bs) as [->|(l & ->)]; [by apply line_end_none|].
  rewrite <- (assoc_L (++)). simpl. rewrite line_end_break, length_app by done. simpl. lia.
Qed.

Lemma split_lines_line l t : 10 ∉ l → split_lines (l ++ 10 :: t) = l :: split_lines t.
Proof.
  induction l as [|b l IH]; intros H; simpl; [done|].
  apply not_elem_of_cons in H as [H1 H2]. rewrite (IH H2). case_match; [lia|done].
Qed.
Lemma split_lines_text bs : split_lines (text bs) = map encode bs ++ [[]].
Proof.
  induction bs as [|b bs IH]; [done|]. rewrite text_cons. unfold line.
  rewrite <- (assoc_L (++)). simpl. rewrite split_lines_line, IH by apply encode_line. done.
Qed.

Lemma read_lines_text bs t :
  10 ∉ t → Forall writable bs → read_lines (text bs ++ t) = (bs, false).
Proof.
  intros Ht Hw. unfold read_lines.
  rewrite line_end_text, take_app_length, split_lines_text, filter_app by done.
  replace (filter _ [[]]) with ([] : list (list Z)) by done. rewrite app_nil_r.
  cut (∀ acc, foldl (λ '(batches, gap) line,
    match decode line with
    | Some b => if batch_valid b then (batches ++ [b], gap) else (batches, true)
    | None => (batches, true)
    end) (acc, false) (filter (λ line, line ≠ []) (map encode bs)) = (acc ++ bs, false)).
  { intros H. by rewrite H. }
  induction Hw as [|b bs [Hb _] _ IH]; intros acc; simpl; [by rewrite app_nil_r|].
  rewrite filter_cons, decide_True by apply encode_nonempty. simpl.
  rewrite decode_encode, Hb, IH, <- (assoc_L (++)). done.
Qed.

(** A prefix of a text is a text and the beginning of the next line. *)
Lemma take_text n bs t :
  10 ∉ t → ∃ cs ds t', bs = cs ++ ds ∧ take n (text bs ++ t) = text cs ++ t' ∧ 10 ∉ t'
    ∧ match ds with
      | [] => t' = take (n - length (text bs)) t
      | d :: _ => (n < length (text cs) + length (line d))%nat
      end.
Proof.
  intros Ht. revert n. induction bs as [|b bs IH]; intros n.
  - exists [], [], (take n t). split_and!; [done|done| |by rewrite Nat.sub_0_r].
    intros H. by apply Ht, (subseteq_take n t).
  - destruct (decide (n < length (line b))%nat) as [Hn|Hn].
    + exists [], (b :: bs), (take n (encode b)).
      assert (n ≤ length (encode b))%nat by (unfold line in Hn; rewrite length_app in Hn; simpl in Hn; lia).
      split_and!; [done| | |done].
      * rewrite text_cons. unfold line. rewrite <- !(assoc_L (++)). by rewrite take_app_le.
      * intros H1. by apply (encode_line b), (subseteq_take n (encode b)).
    + destruct (IH (n - length (line b))%nat) as (cs & ds & t' & -> & Htk & Ht' & Hd).
      exists (b :: cs), ds, t'. split_and!; try done.
      * rewrite !text_cons, <- !(assoc_L (++)), take_app_ge by lia. by rewrite Htk.
      * destruct ds; rewrite (text_cons b), length_app; [|lia]. rewrite Hd. f_equal. lia.
Qed.

Lemma length_line_pos b : (0 < length (line b))%nat.
Proof. unfold line. rewrite length_app. simpl. lia. Qed.

(** One segment: [cs] is delivered and the checkpoint moves behind it. *)
Lemma read_file_text last pre bs t f st :
  o_content f = text (pre ++ bs) ++ t → 10 ∉ t → len t < MAX_READ →
  (last = false → t = [] ∧ o_length f = len (o_content f)) →
  len (text pre) ≤ o_length f →
  Forall writable bs → 0 < rd_remaining st ≤ MAX_READ →
  let '(st', stop) := read_file last (len (text pre)) f st in
  ∃ cs ds, bs = cs ++ ds
    ∧ rd_batches st' = rd_batches st ++ cs ∧ rd_gap st' = rd_gap st
    ∧ rd_result st' = Some (mkCheckpoint (o_identity f) (len (text (pre ++ cs))))
    ∧ (stop = false → ds = [] ∧ rd_more st' = rd_more st ∧ 0 < rd_remaining st' ≤ MAX_READ
         ∧ (bs = [] → t = [] → rd_remaining st' = rd_remaining st))
    ∧ (stop = true → rd_more st' = false →
         ds = [] ∨ last = true ∧ o_length f ≤ len (text (pre ++ cs)))
    ∧ (stop = true → last = false →
         rd_more st' = true ∧ (rd_remaining st = MAX_READ → cs ≠ []))
    ∧ (rd_remaining st = MAX_READ → cs = [] → ds = []
         ∧ (rd_more st = false → rd_more st' = false)).
Proof.
  intros Hc Ht Hlt Hl Hs Hw Hr. unfold read_file.
  rewrite (proj2 (Z.ltb_ge _ _)) by lia. rewrite Hc, Nat2Z.id.
  assert (drop (length (text pre)) (text (pre ++ bs) ++ t) = text bs ++ t) as Hdrop.
  { by rewrite text_app, <- (assoc_L (++)), drop_app_length. }
  rewrite Hdrop. set (n := Z.to_nat _).
  assert (Z.of_nat n = Z.min (rd_remaining st) (len (text bs) + len t)) as Hn.
  { unfold n. rewrite length_app. lia. }
  clearbody n.
  destruct (take_text n bs t Ht) as (cs & ds & t' & -> & Htk & Ht' & Hd).
  pose proof (length_take (text (cs ++ ds) ++ t) n) as Hlen. rewrite Htk in *.
  apply Forall_app in Hw as [Hw Hwd].
  rewrite line_end_text, read_lines_text by done.
  assert (ds = [] ∧ length (text ds) = O ∨ length (text cs) + length (text ds) > n)%nat as Hds.
  { destruct ds as [|d ds]; [by left|]. right. rewrite text_cons, length_app. lia. }
  rewrite !text_app, !length_app in *.
  assert ((Z.of_nat (length (text cs)) =? 0)
    && (Z.of_nat (length (text cs) + length t') =? MAX_READ) = false) as ->.
  { destruct ds as [|d ds]; [|apply Forall_cons in Hwd as [[_ Hwd] _]; lia].
    assert (length t' ≤ length t)%nat by (rewrite Hd, length_take; lia). lia. }
  assert (negb last && (len (text pre) + Z.of_nat (length (text cs)) <? o_length f)
    && (Z.of_nat (length (text cs) + length t') <? MAX_READ)
    && (0 <? Z.max 0 (rd_remaining st - Z.of_nat (length (text cs) + length t'))) = false) as ->.
  { destruct last; [done|]. destruct Hl as [-> Hl]; [done|]. rewrite Hc in Hl.
    rewrite !length_app in Hl. simpl length in *. lia. }
  rewrite !orb_false_r. simpl.
  assert (rd_remaining st = MAX_READ → cs = [] → ds = []
    ∧ (0 `max` (rd_remaining st - Z.of_nat (length (text cs) + length t')) =? 0) = false) as Hpro.
  { intros HR ->. destruct Hds as [[-> Hz]|Hds]; [split; [done|]; simpl length in *; lia|].
    destruct ds as [|d ds]; [simpl length in *; lia|].
    apply Forall_cons in Hwd as [[_ Hwd] _]. simpl length in *. lia. }
  assert (¬ Z.of_nat n = rd_remaining st → ds = []) as Hall by (destruct Hds as [[-> _]|?]; [done|lia]).
  assert (text (pre ++ cs) = text pre ++ text cs) as Hpc by apply text_app.
  destruct (_ <? o_length f) eqn:E1; [|destruct (_ =? 0) eqn:E2]; simpl; exists cs, ds;
    rewrite Hpc, length_app; simpl; split_and!; try done; try (by f_equal; f_equal; lia);
    try (intros HR Hcs; destruct (Hpro HR Hcs); split; by intros).
  - intros _ HR. left. apply Hall. lia.
  - intros _ ->. destruct Hl as [-> Hl]; [done|]. rewrite Hc, !length_app in Hl.
    simpl length in *. split; [lia|]. intros HR ->. destruct (Hpro HR eq_refl) as [-> ?].
    simpl in *. lia.
  - intros _ ->. split; [done|]. destruct Hl as [-> Hl]; [done|].
    intros HR ->. destruct (Hpro HR eq_refl) as [-> ?]. simpl in *. lia.
  - intros _. split_and!; [apply Hall; lia|done|lia|lia|].
    intros Hb ->. assert (len (text cs) = 0) by (apply app_nil in Hb as [-> _]; done).
    apply app_nil in Hb as [-> ->]. simpl in *. lia.
Qed.

(** ** Segments *)

Record Segment := mkSegment { sg_id : string; sg_batches : list Batch }.

(** The files opened from the segments: older ones are complete, the last one may end in
    the beginning [t] of a line and may have grown after it was opened, or lost the
    beginning of a line that was there then. *)
Fixpoint shows (segs : list Segment) (t : list Z) (files : list Opened) : Prop :=
  match segs, files with
  | [s], [f] =>
      o_identity f = sg_id s ∧ o_content f = text (sg_batches s) ++ t
      ∧ 0 ≤ o_length f
  | s :: segs, f :: files =>
      o_identity f = sg_id s ∧ o_content f = text (sg_batches s)
      ∧ o_length f = len (o_content f) ∧ shows segs t files
  | _, _ => False
  end.

(** Behind the checkpoint the batches [rest] of the segments are left to read. *)
Definition ahead (segs : list Segment) (cp : Checkpoint) (rest : list Batch) : Prop :=
  ∃ before s after pre post, segs = before ++ s :: after ∧ sg_batches s = pre ++ post
    ∧ cp = mkCheckpoint (sg_id s) (len (text pre))
    ∧ rest = post ++ concat (map sg_batches after).

(** What the loop does to the batches [rest] ahead of it. *)
Record advances (segs : list Segment) (files : list Opened) (rest : list Batch) (st st' : Reading) :
    Prop := {
  ad_gap : rd_gap st' = rd_gap st;
  ad_rest : ∃ now later c, rest = now ++ later ∧ rd_batches st' = rd_batches st ++ now
    ∧ rd_result st' = Some c ∧ ahead segs c later
    ∧ (rd_more st' = false →
         later = [] ∨ ∃ f, last files = Some f ∧ o_length f < len (o_content f))
    ∧ (rd_remaining st = MAX_READ → now = [] →
         later = [] ∧ (rd_more st = false → rd_more st' = false));
}.

Lemma ahead_later s segs c rest : ahead segs c rest → ahead (s :: segs) c rest.
Proof. intros (b & s' & a & pre & post & -> & H). by exists (s :: b), s', a, pre, post. Qed.

Lemma shows_length s segs t f files : shows (s :: segs) t (f :: files) → 0 ≤ o_length f.
Proof. destruct segs, files; simpl; intros H; try done; destruct H as (_ & _ & ?); lia. Qed.

Lemma read_files_text t : 10 ∉ t → len t < MAX_READ → ∀ segs s f files st pre bs,
  shows (s :: segs) t (f :: files) → sg_batches s = pre ++ bs →
  len (text pre) ≤ o_length f → Forall (λ s, Forall writable (sg_batches s)) (s :: segs) →
  0 < rd_remaining st ≤ MAX_READ → rd_more st = false →
  advances (s :: segs) (f :: files) (bs ++ concat (map sg_batches segs)) st
    (read_files (len (text pre)) (f :: files) st).
Proof.
  intros Ht Hlt segs. induction segs as [|s2 segs IH]; intros s f files st pre bs Hs Hb Hp Hw HR Hm.
  - destruct files as [|f2 files]; [|by destruct Hs as (_ & _ & _ & [])].
    destruct Hs as (Hi & Hc & Hl).
    rewrite Hb in Hc. apply Forall_cons in Hw as [Hw _]. rewrite Hb, Forall_app in Hw.
    pose proof (read_file_text true pre bs t f st Hc Ht Hlt ltac:(done) ltac:(lia) (proj2 Hw) HR) as H.
    simpl. destruct (read_file true _ f st) as [st' stop].
    destruct H as (cs & ds & -> & H1 & H2 & H3 & H4 & H5 & H7 & H6).
    rewrite app_nil_r. assert (advances [s] [f] (cs ++ ds) st st') as Ha.
    { split; [done|]. exists cs, ds, (mkCheckpoint (sg_id s) (len (text (pre ++ cs)))).
      rewrite <- Hi. split_and!; try done.
      - exists [], s, [], (pre ++ cs), ds. rewrite app_nil_r, <- (assoc_L (++)), <- Hi. done.
      - intros Hr. destruct stop; [|left; by apply H4].
        destruct (H5 eq_refl Hr) as [->|[_ Hle]]; [by left|].
        destruct ds as [|d ds]; [by left|]. right. exists f. split; [done|].
        rewrite Hc, !text_app, text_cons, !length_app in *. pose proof (length_line_pos d). lia. }
    by destruct stop.
  - destruct files as [|f2 files]; [by destruct Hs as (_ & _ & _ & Hs), segs|].
    destruct Hs as (Hi & Hc & Hl & Hs).
    rewrite Hb in Hc. apply Forall_cons in Hw as [Hw Hw2]. rewrite Hb, Forall_app in Hw.
    pose proof (read_file_text false pre bs [] f st) as H. rewrite app_nil_r in H.
    specialize (H Hc (not_elem_of_nil _) ltac:(done) ltac:(done) ltac:(lia) (proj2 Hw) HR).
    cbn [read_files]. rewrite bool_decide_eq_false_2 by done.
    destruct (read_file false _ f st) as [st' stop].
    destruct H as (cs & ds & -> & H1 & H2 & H3 & H4 & H5 & H7 & H6). destruct stop.
    + split; [done|].
      exists cs, (ds ++ concat (map sg_batches (s2 :: segs))),
        (mkCheckpoint (sg_id s) (len (text (pre ++ cs)))).
      rewrite <- Hi, (assoc_L (++)). split_and!; try done.
      * exists [], s, (s2 :: segs), (pre ++ cs), ds. rewrite <- (assoc_L (++)), <- Hi. done.
      * intros Hr. destruct (H7 eq_refl eq_refl). congruence.
      * intros HM ->. by destruct (proj2 (H7 eq_refl eq_refl) HM).
    + destruct (H4 eq_refl) as (-> & Hm' & HR' & Hsame). rewrite app_nil_r.
      specialize (IH s2 f2 files st' [] (sg_batches s2) Hs eq_refl (shows_length _ _ _ _ _ Hs) Hw2 HR' ltac:(congruence)).
      change (len (text [])) with 0 in IH.
      destruct IH as [Hg (now & later & c & He & Hbs & Hc' & Ha & Hmore & Hpro)].
      split; [by rewrite <- H2|].
      exists (cs ++ now), later, c. rewrite <- (assoc_L (++)), <- He. split_and!; try done.
      * etrans; [exact Hbs|]. by rewrite H1, <- (assoc_L (++)).
      * by apply ahead_later.
      * intros HM [-> ->]%app_nil. rewrite <- Hm'. apply Hpro; [|done]. by rewrite Hsame.
Qed.

(** ** Polling *)

Lemma shows_at before s after t files :
  shows (before ++ s :: after) t files → NoDup (map sg_id (before ++ s :: after)) →
  position (sg_id s) files = Some (length before)
  ∧ shows (s :: after) t (drop (length before) files).
Proof.
  revert files. induction before as [|b before IH]; intros files Hs Hn; simpl in *.
  - destruct files as [|f files]; [by destruct after|]. split; [|done]. simpl.
    rewrite bool_decide_eq_true_2; [done|]. by destruct after, files; destruct Hs as [? _].
  - destruct files as [|f files]; [by destruct (before ++ s :: after)|].
    apply NoDup_cons in Hn as [Hn1 Hn2].
    assert (shows (before ++ s :: after) t files ∧ o_identity f = sg_id b) as [Hs' Hi].
    { destruct (before ++ s :: after) eqn:E; [by destruct before|].
      destruct files; destruct Hs as (? & _ & _ & ?); done. }
    destruct (IH files Hs' Hn2) as [Hp Hd]. split; [|done]. simpl.
    rewrite bool_decide_eq_false_2, Hp; [done|]. rewrite Hi. intros Heq. apply Hn1. rewrite Heq.
    rewrite map_app. apply elem_of_app. right. by left.
Qed.

(** A journal as a reader sees it, and its checkpoint with what is left to read; without
    a checkpoint it starts with the oldest segment. *)
Record visible (segs : list Segment) (t : list Z) (files : list Opened) : Prop := {
  vi_shows : shows segs t files;
  vi_some : segs ≠ [];
  vi_ids : NoDup (map sg_id segs);
  vi_writable : Forall (λ s, Forall writable (sg_batches s)) segs;
  vi_tail : 10 ∉ t ∧ len t < MAX_READ;
}.
Definition unread (segs : list Segment) (files : list Opened) (cp : option Checkpoint)
    (rest : list Batch) : Prop :=
  match cp with
  | None => rest = concat (map sg_batches segs)
  | Some c => ahead segs c rest ∧ ∀ f, f ∈ files → o_identity f = identity c → offset c ≤ o_length f
  end.

Lemma ahead_app before segs c rest : ahead segs c rest → ahead (before ++ segs) c rest.
Proof. intros H. induction before; simpl; [done|]. by apply ahead_later. Qed.

Lemma read_batch_ahead segs t files cp rest :
  visible segs t files → unread segs files cp rest →
  ∃ r later, read_batch files cp = Some r ∧ gap r = false ∧ rest = batches r ++ later
    ∧ ahead segs (checkpoint r) later
    ∧ (more r = false → later = [] ∨ ∃ f, last files = Some f ∧ o_length f < len (o_content f))
    ∧ (batches r = [] → later = [] ∧ more r = false).
Proof.
  intros [Hs Hne Hn Hw [Ht Hlt]] Hu.
  assert (∃ before s after pre post, segs = before ++ s :: after ∧ sg_batches s = pre ++ post
    ∧ rest = post ++ concat (map sg_batches after)
    ∧ default O (c ← cp; position (identity c) files) = length before
    ∧ bool_decide (is_Some cp) && bool_decide ((c ← cp; position (identity c) files) = None) = false
    ∧ match (c ← cp; position (identity c) files), cp with Some _, Some c => offset c | _, _ => 0 end
      = len (text pre)
    ∧ ∀ f, f ∈ files → o_identity f = sg_id s → 0 ≤ o_length f → len (text pre) ≤ o_length f)
    as (before & s & after & pre & post & -> & Hb & -> & Hstart & Hgap & Hoff & Hlen).
  { destruct cp as [c|]; simpl in *.
    - destruct Hu as [(b & s & a & pre & post & -> & Hb & -> & ->) Ho].
      destruct (shows_at _ _ _ _ _ Hs Hn) as [Hp _]. exists b, s, a, pre, post. simpl.
      rewrite Hp. split_and!; auto.
    - subst rest. destruct segs as [|s a]; [done|]. by exists [], s, a, [], (sg_batches s). }
  destruct (shows_at _ _ _ _ _ Hs Hn) as [_ Hd].
  apply Forall_app in Hw as [_ Hw].
  assert (∃ f1 fs, drop (length before) files = f1 :: fs) as (f1 & fs & Ed).
  { destruct (drop _ _); [by destruct after|eauto]. }
  rewrite Ed in Hd. pose proof (shows_length _ _ _ _ _ Hd) as H0.
  assert (len (text pre) ≤ o_length f1) as H1.
  { apply Hlen; [|by destruct after, fs; destruct Hd as [? _]|done].
    eapply (subseteq_drop (length before) files). rewrite Ed. by left. }
  pose proof (read_files_text t Ht Hlt after s f1 fs (mkReading false MAX_READ [] None false)
    pre post Hd Hb H1 Hw ltac:(done) eq_refl) as [Hg (now & later & c & He & Hbs & Hc & Ha & Hm & Hp)].
  unfold read_batch. destruct files as [|f0 files]; [by destruct (length before)|].
  rewrite Hstart, Hgap, Hoff, Ed. set (st' := read_files _ _ _) in *. clearbody st'.
  rewrite Hc. simpl. eexists _, later. split_and!; try done.
  - by rewrite Hbs.
  - simpl. by apply ahead_app.
  - intros Hmore. destruct (Hm Hmore) as [|(f & Hf & Hlt')]; [by left|]. right. exists f.
    split; [|done]. rewrite <- (take_drop (length before) (f0 :: files)), Ed. by rewrite last_app, Hf.
  - simpl. rewrite Hbs. simpl. intros ->. destruct (Hp eq_refl eq_refl). auto.
Qed.

End text.

(** ** The writer *)

(** Inodes with their bytes, the names [path], [path.1] and [path.2] with their inodes, the
    marker of an unclean exit, the next new inode and the outcomes of the next calls:
    [Some n] is a failure, of a write after [n] bytes. *)
Record World := mkWorld {
  w_inodes : gmap nat (list Z); w_path : option nat; w_one : option nat; w_two : option nat;
  w_marker : bool; w_next : nat; w_faults : list (option Z) }.
Definition set_faults x w := mkWorld (w_inodes w) (w_path w) (w_one w) (w_two w) (w_marker w) (w_next w) x.
Definition set_inodes x w := mkWorld x (w_path w) (w_one w) (w_two w) (w_marker w) (w_next w) (w_faults w).
Definition set_names p o t w := mkWorld (w_inodes w) p o t (w_marker w) (w_next w) (w_faults w).
Definition set_marker x w := mkWorld (w_inodes w) (w_path w) (w_one w) (w_two w) x (w_next w) (w_faults w).
Definition data (i : nat) (w : World) : list Z := default [] (w_inodes w !! i).

(** The writer's open file, and where an unfinished append began. *)
Record Journal := mkJournal { j_file : nat; j_unclean : bool; j_start : option Z }.

(** A system call: a failing one has no effect. *)
Definition call {A} (f : M World A) : M World A := λ w,
  match w_faults w with
  | [] => f w
  | None :: rest => f (set_faults rest w)
  | Some _ :: rest => (Err "I/O error", set_faults rest w)
  end.

Definition file_len (i : nat) : M World Z := call (λ w, (Ok (len (data i w)), w)).
Definition sync_data (i : nat) : M World unit := call (mok tt).
(** [File::open(parent)?.sync_all()?] *)
Definition sync_parent : M World unit := do* call (mok tt) in call (mok tt).
Definition set_len (i : nat) (n : Z) : M World unit :=
  call (modify (λ w, set_inodes (<[i := take (Z.to_nat n) (data i w)]> (w_inodes w)) w)).
(** The file is open for appending. *)
Definition append_data (i : nat) (bytes : list Z) (w : World) : World :=
  set_inodes (<[i := data i w ++ bytes]> (w_inodes w)) w.
Definition write_all (i : nat) (bytes : list Z) : M World unit := λ w,
  match w_faults w with
  | [] => (Ok tt, append_data i bytes w)
  | None :: rest => (Ok tt, append_data i bytes (set_faults rest w))
  | Some n :: rest =>
      (Err "I/O error", append_data i (take (Z.to_nat n) bytes) (set_faults rest w))
  end.
(** [remove_file(&two)], a missing file is no error; [one.exists()], an error is [false]. *)
Definition remove_two : M World unit :=
  call (modify (λ w, set_names (w_path w) (w_one w) None w)).
Definition one_exists : M World bool := λ w,
  match w_faults w with
  | [] => (Ok (bool_decide (is_Some (w_one w))), w)
  | None :: rest => (Ok (bool_decide (is_Some (w_one w))), set_faults rest w)
  | Some _ :: rest => (Ok false, set_faults rest w)
  end.
Definition rename_one_two : M World unit := call (λ w,
  match w_one w with
  | Some i => (Ok tt, set_names (w_path w) None (Some i) w)
  | None => (Err "not found", w)
  end).
Definition rename_path_one : M World unit := call (λ w,
  match w_path w with
  | Some i => (Ok tt, set_names None (Some i) (w_two w) w)
  | None => (Err "not found", w)
  end).
(** [Journal::file]: opens for appending, creating the file. *)
Definition open_file : M World nat := call (λ w,
  match w_path w with
  | Some i => (Ok i, w)
  | None =>
      let i := w_next w in
      (Ok i, mkWorld (<[i := []]> (w_inodes w)) (Some i) (w_one w) (w_two w) (w_marker w) (S i)
               (w_faults w))
  end).

(** A step of [Journal], which also has its own state. *)
Definition on_world {A} (c : M World A) : M (World * Journal) A := λ '(w, j),
  let '(r, w) := c w in (r, (w, j)).
Definition set_file (i : nat) : M (World * Journal) unit :=
  modify (λ '(w, j), (w, mkJournal i (j_unclean j) (j_start j))).
Definition set_start (s : option Z) : M (World * Journal) unit :=
  modify (λ '(w, j), (w, mkJournal (j_file j) (j_unclean j) s)).

Definition rotate : M (World * Journal) unit :=
  let* s := get in
  do* on_world (sync_data (j_file s.2)) in
  do* on_world remove_two in
  let* present := on_world one_exists in
  do* (if (present : bool) then on_world rename_one_two else mok tt) in
  do* on_world rename_path_one in
  let* i := on_world open_file in
  do* set_file i in
  on_world sync_parent.

Definition begin_append : M (World * Journal) unit :=
  let* s := get in
  match j_start s.2 with
  | Some _ => mok tt
  | None =>
      let* size := on_world (file_len (j_file s.2)) in
      do* (if ROTATE_BYTES <=? size then rotate else mok tt) in
      let* s := get in
      let* size := on_world (file_len (j_file s.2)) in
      set_start (Some size)
  end.

Section writer.
Context `{L : JournalLibs}.

Definition finish_append (i : nat) (start : Z) (b : Batch) : M (World * Journal) unit :=
  do* on_world (set_len i start) in
  do* on_world (write_all i (encode b ++ [10])) in
  do* on_world (sync_data i) in
  set_start None.
Definition append (b : Batch) : M (World * Journal) unit :=
  do* begin_append in
  let* s := get in
  let* start := lift (unwrap (j_start s.2)) in
  finish_append (j_file s.2) start b.

End writer.

(** [Journal::open] after the lock is taken: the marker of an unclean exit is read and
    written, the file opened. *)
Definition open_journal : M World Journal :=
  let* w := get in
  let unclean := w_marker w in
  let* i := open_file in
  do* call (mok tt) in
  do* call (modify (set_marker true)) in
  do* sync_parent in
  do* sync_parent in
  mok (mkJournal i unclean None).
Definition finish (j : Journal) : M World unit :=
  do* sync_data (j_file j) in
  do* call (modify (set_marker false)) in
  sync_parent.

(** ** Appending with retries *)

Section appending.
Context {L : JournalLibs} {JL : JournalLibsOk L}.

(** [run] hands a failed batch to [append] again, until it succeeds. *)
Fixpoint retry (n : nat) (b : Batch) : M (World * Journal) unit := λ s,
  match append b s, n with
  | (Err _, s'), S n => retry n b s'
  | r, _ => r
  end.

Definition faults_left (s : World * Journal) : nat := length (w_faults s.1).

(** An append to the text [base] may begin, or one has begun and left [base] alone. *)
Definition appending (base : list Z) (s : World * Journal) : Prop :=
  match j_start s.2 with
  | None => data (j_file s.2) s.1 = base ∧ len base < ROTATE_BYTES
  | Some n => n = len base ∧ ∃ more, data (j_file s.2) s.1 = base ++ more
  end.

(** Only the file [i], the start of the append and the script of faults differ. *)
Record only_file (i : nat) (s s' : World * Journal) : Prop := {
  of_names : w_path s'.1 = w_path s.1 ∧ w_one s'.1 = w_one s.1 ∧ w_two s'.1 = w_two s.1;
  of_rest : w_marker s'.1 = w_marker s.1 ∧ w_next s'.1 = w_next s.1;
  of_others k : k ≠ i → w_inodes s'.1 !! k = w_inodes s.1 !! k;
  of_file : j_file s'.2 = j_file s.2 ∧ j_unclean s'.2 = j_unclean s.2;
  of_faults : (length (w_faults s'.1) ≤ length (w_faults s.1))%nat;
}.
#[global] Instance only_file_refl i : Reflexive (only_file i).
Proof. by split. Qed.
#[global] Instance only_file_trans i : Transitive (only_file i).
Proof.
  intros s1 s2 s3 [[? [? ?]] [? ?] Ha [? ?] ?] [[? [? ?]] [? ?] Hb [? ?] ?].
  split; [| |intros k Hk; rewrite Hb, Ha by done; done| |]; split_and?; (congruence || lia).
Qed.

(** What one attempt leaves: the line is there, or the text before it still is. *)
Definition attempted (base : list Z) (b : Batch) (s : World * Journal) (r : res unit)
    (s' : World * Journal) : Prop :=
  only_file (j_file s.2) s s' ∧
  (r = Ok tt ∧ data (j_file s.2) s'.1 = base ++ line b ∧ j_start s'.2 = None
   ∨ (∃ e, r = Err e) ∧ appending base s' ∧ (faults_left s' < faults_left s)%nat).

Ltac only_file_step E :=
  split; simpl; try done;
    first [by intros; rewrite ?lookup_insert_ne by done | rewrite ?E; simpl; lia].
Ltac data_step := unfold data; simpl; rewrite ?lookup_insert_eq; simpl; rewrite ?lookup_insert_eq.

Lemma data_set_faults i fs w : data i (set_faults fs w) = data i w.
Proof. done. Qed.

(** Behind [begin_append] the line is written after [base]. *)
Lemma write_line base more b w j :
  data (j_file j) w = base ++ more → j_start j = Some (len base) →
  let r := finish_append (j_file j) (len base) b (w, j) in
  attempted base b (w, j) r.1 r.2.
Proof.
  intros Hd Hs. unfold finish_append, mbindM, on_world, set_len, write_all, sync_data, call, modify, append_data.
  assert (∀ w', only_file (j_file j) (w, j) (w', j) → (∃ l, data (j_file j) w' = base ++ l) →
    (length (w_faults w') < length (w_faults w))%nat →
    attempted base b (w, j) (Err "I/O error") (w', j)) as Hfail.
  { intros w' Ho Hl Hf. split; [done|]. right. split_and!; [eauto| |done].
    unfold appending. simpl. by rewrite Hs. }
  destruct (w_faults w) as [|[n1|] [|[n2|] [|[n3|] fs]]] eqn:E; simpl; repeat (rewrite E; simpl);
    rewrite ?data_set_faults, ?Hd, ?Nat2Z.id, ?take_app_length;
    try (apply Hfail; [only_file_step E| |rewrite ?E; simpl; lia];
         first [by exists more | eexists; data_step; reflexivity | exists []; data_step; by rewrite app_nil_r]).
  all: split; [only_file_step E|left; split_and!; [done| |done]; data_step; done].
Qed.

Lemma attempted_after base b s s1 r s' :
  only_file (j_file s.2) s s1 → attempted base b s1 r s' → attempted base b s r s'.
Proof.
  intros Ho [H1 H2]. destruct (of_file _ _ _ Ho) as [Hj _]. rewrite Hj in *.
  split; [by etrans|]. destruct H2 as [?|(? & ? & ?)]; [by left|right].
  split_and!; try done. pose proof (of_faults _ _ _ Ho). unfold faults_left in *. lia.
Qed.

Lemma append_begun b s w j n :
  begin_append s = (Ok tt, (w, j)) → j_start j = Some n →
  append b s = finish_append (j_file j) n b (w, j).
Proof.
  intros H Hs. unfold append. rewrite (run_bind _ _ _ _ _ H).
  unfold mbindM at 1 2, get, lift. simpl. by rewrite Hs.
Qed.
Lemma append_not_begun b s e s' : begin_append s = (Err e, s') → append b s = (Err e, s').
Proof. intros H. unfold append, mbindM at 1. by rewrite H. Qed.

Lemma begin_append_cases base w j :
  j_start j = None → data (j_file j) w = base → len base < ROTATE_BYTES →
  (∃ fs, (length fs ≤ length (w_faults w))%nat ∧ begin_append (w, j)
     = (Ok tt, (set_faults fs w, mkJournal (j_file j) (j_unclean j) (Some (len base)))))
  ∨ ∃ fs, (length fs < length (w_faults w))%nat
     ∧ begin_append (w, j) = (Err "I/O error", (set_faults fs w, j)).
Proof.
  intros Hs Hd Hl. assert (ROTATE_BYTES <=? len base = false) as Hfull by lia.
  unfold begin_append, mbindM, get, on_world, file_len, call. simpl. rewrite Hs.
  destruct (w_faults w) as [|[n1|] [|[n2|] fs]] eqn:E; simpl;
    repeat (rewrite ?Hd, ?Hfull, ?data_set_faults, ?E; simpl).
  - left. exists []. split; [done|]. do 2 f_equal. by destruct w; simpl in *; subst.
  - right. eexists. split; [|done]. simpl. lia.
  - right. eexists. split; [|done]. simpl. lia.
  - right. eexists. split; [|done]. simpl. lia.
  - left. eexists. split; [|done]. simpl. lia.
  - right. eexists. split; [|done]. simpl. lia.
  - left. eexists. split; [|done]. simpl. lia.
Qed.

(** One attempt at a journal that is not full. *)
Lemma append_attempted base b s :
  appending base s → attempted base b s (append b s).1 (append b s).2.
Proof.
  destruct s as [w j]. unfold appending. simpl. destruct (j_start j) as [n|] eqn:Hs.
  - intros [-> (more & Hd)]. rewrite (append_begun b (w, j) w j (len base)); [|unfold begin_append, mbindM, get, mok|done].
    + by apply (write_line base more).
    + simpl. by rewrite Hs.
  - intros [Hd Hl]. destruct (begin_append_cases base w j Hs Hd Hl) as [(fs & Hf & E)|(fs & Hf & E)].
    + rewrite (append_begun _ _ _ _ _ E eq_refl).
      eapply attempted_after; [|apply (write_line base []); [by rewrite app_nil_r|done]].
      by split.
    + rewrite (append_not_begun _ _ _ _ E). split; [split; simpl; try done; lia|]. right.
      split_and!; [eauto| |done]. unfold appending. simpl. by rewrite Hs.
Qed.

Lemma retry_appends n base b s :
  (faults_left s ≤ n)%nat → appending base s →
  ∃ s', retry n b s = (Ok tt, s') ∧ data (j_file s.2) s'.1 = base ++ line b
    ∧ j_start s'.2 = None ∧ only_file (j_file s.2) s s'.
Proof.
  revert s. induction n as [|n IH]; intros s Hn Ha;
    destruct (append_attempted base b s Ha) as [Ho [(Hr & Hd & Hs)|([e Hr] & Ha' & Hf)]];
    simpl; destruct (append b s) as [r s1]; simpl in *; subst r; try lia; try by exists s1.
  destruct (IH s1) as (s' & E & Hd & Hs & Ho'); [lia|done|].
  destruct (of_file _ _ _ Ho) as [Hj _]. rewrite Hj in *. exists s'. split_and!; try done.
  by etrans.
Qed.

(** However often calls to the file system fail, and wherever a write breaks
    off, retrying the append of a batch to a journal below the rotation size succeeds after
    at most one attempt for each failure, and then the file is the old text and one line of
    the batch: no torn line, no line twice, and no other file touched. *)
Theorem append_exactly_once base b s :
  appending base s →
  ∃ s', retry (faults_left s) b s = (Ok tt, s')
    ∧ data (j_file s.2) s'.1 = base ++ line b ∧ j_start s'.2 = None
    ∧ only_file (j_file s.2) s s'.
Proof. intros H. by apply retry_appends. Qed.

(** ** Rotation *)

Lemma data_insert i l ino p o t mk nx fs : data i (mkWorld (<[i := l]> ino) p o t mk nx fs) = l.
Proof. unfold data. simpl. by rewrite lookup_insert_eq. Qed.

(** A full journal, all calls succeed: the segments move on, the line starts a new one. *)
Lemma append_rotates b w j i :
  w_path w = Some i → j_file j = i → j_start j = None → w_faults w = [] → i ≠ w_next w →
  ROTATE_BYTES ≤ len (data i w) →
  append b (w, j)
  = (Ok tt, (mkWorld (<[w_next w := line b]> (w_inodes w)) (Some (w_next w)) (Some i) (w_one w)
               (w_marker w) (S (w_next w)) [],
             mkJournal (w_next w) (j_unclean j) None)).
Proof.
  intros Hp Hj Hs Hf Hi Hl.
  destruct w as [ino p o t mk nx fs], j as [file un st]. simpl in *. subst.
  assert (ROTATE_BYTES <=? len (data i (mkWorld ino (Some i) o t mk nx [])) = true) as Hb by lia.
  erewrite append_begun.
  2: { unfold begin_append, rotate, mbindM, get, on_world, file_len, sync_data, remove_two,
         one_exists, rename_one_two, rename_path_one, open_file, sync_parent, call, set_file,
         set_start, modify, mok. cbn -[data ROTATE_BYTES].
       rewrite Hb. destruct o; cbn -[data ROTATE_BYTES]; reflexivity. }
  2: done.
  simpl. rewrite data_insert.
  unfold finish_append, mbindM, on_world, set_len, write_all, sync_data, call, modify, append_data,
    set_start, set_inodes. simpl. by rewrite !data_insert, !insert_insert_eq.
Qed.

(** The path is gone and nothing fails any more. *)
Definition wedged (i : nat) (s : World * Journal) : Prop :=
  w_path s.1 = None ∧ j_file s.2 = i ∧ j_start s.2 = None ∧ w_faults s.1 = []
  ∧ ROTATE_BYTES ≤ len (data i s.1).

Lemma wedged_append b i s :
  wedged i s → ∃ s', append b s = (Err "not found", s') ∧ wedged i s'
    ∧ w_one s'.1 = None ∧ w_two s'.1 = w_one s.1.
Proof.
  destruct s as [[ino p o t mk nx fs] [file un st]]. unfold wedged. simpl.
  intros (-> & -> & -> & -> & Hl).
  assert (ROTATE_BYTES <=? len (data i (mkWorld ino None o t mk nx [])) = true) as Hb by lia.
  eexists. split; [apply append_not_begun|].
  - unfold begin_append, rotate, mbindM, get, on_world, file_len, sync_data, remove_two,
      one_exists, rename_one_two, rename_path_one, call, modify, mok. cbn -[data ROTATE_BYTES].
    rewrite Hb. destruct o; cbn -[data ROTATE_BYTES]; reflexivity.
  - by destruct o.
Qed.

(** When the new file of a rotation cannot be created, no retry ever succeeds:
    the journal is wedged until a restart, although no call fails again, and the second
    retry has removed the two full segments as well, read or not. *)
Theorem failed_rotation_wedges b w j i a :
  w_path w = Some i → w_one w = Some a → j_file j = i → j_start j = None →
  ROTATE_BYTES ≤ len (data i w) →
  w_faults w = [None; None; None; None; None; None; Some 0] →
  ∃ s, append b (w, j) = (Err "I/O error", s) ∧ ∀ n, ∃ s',
    retry n b s = (Err "not found", s') ∧ w_path s'.1 = None ∧
    (1 ≤ n → w_one s'.1 = None ∧ w_two s'.1 = None)%nat.
Proof.
  destruct w as [ino p o t mk nx fs], j as [file un st]. simpl. intros -> -> -> -> Hl ->.
  assert (ROTATE_BYTES <=? len (data i (mkWorld ino (Some i) (Some a) t mk nx [])) = true) as Hb
    by exact (proj2 (Z.leb_le _ _) Hl).
  eexists. split.
  - apply append_not_begun.
    unfold begin_append, rotate, mbindM, get, on_world, file_len, sync_data, remove_two,
      one_exists, rename_one_two, rename_path_one, open_file, call, modify, mok.
    cbn -[data ROTATE_BYTES]. unfold data in *. simpl in *. rewrite Hb. reflexivity.
  - intros n. set (s := (_, _)). assert (wedged i s) as Hw by done. clearbody s.
    destruct (wedged_append b i s Hw) as (s1 & E & Hw1 & Ho & _). clear Hw.
    assert (∀ n s1, wedged i s1 → w_one s1.1 = None → ∃ s', retry n b s1 = (Err "not found", s')
      ∧ w_path s'.1 = None ∧ w_one s'.1 = None ∧ w_two s'.1 = None) as Hind.
    { clear -JL. induction n as [|n IH]; intros s1 Hw1 Ho;
        destruct (wedged_append b i s1 Hw1) as (s2 & E & Hw2 & Ho2 & Ht); simpl; rewrite E.
      - exists s2. rewrite Ht. split_and!; try done. apply Hw2.
      - by apply IH. }
    destruct n as [|n]; simpl; rewrite E.
    + exists s1. split_and!; [done|apply Hw1|lia].
    + destruct (Hind n s1 Hw1 Ho) as (s' & ? & ? & ? & ?). by exists s'.
Qed.

End appending.

(** ** Concrete runs *)

Module Samples.

#[global] Instance Record_countable : Countable Record_ := inj_countable'
  (λ r, (route_id r, count r, timestamp r, host r, client r, first_timestamp r))
  (λ '(a, b, c, d, e, f), mkRecord a b c d e f) ltac:(by intros []).
#[global] Instance Batch_countable : Countable Batch := inj_countable'
  (λ b, (version b, b_id b, coverage_warning b, records b))
  (λ '(a, b, c, d), mkBatch a b c d) ltac:(by intros []).

(** A text format without line breaks: the binary digits of the batch's number. *)
Fixpoint digits (p : positive) : list Z :=
  match p with xH => [49] | xO p => 48 :: digits p | xI p => 50 :: digits p end.
Fixpoint number (l : list Z) : option positive :=
  match l with
  | [49] => Some xH
  | 48 :: l => xO <$> number l
  | 50 :: l => xI <$> number l
  | _ => None
  end.
Lemma number_digits p : number (digits p) = Some p.
Proof. induction p as [p IH|p IH|]; simpl; rewrite ?IH; done. Qed.
Lemma digits_line p : 10 ∉ digits p.
Proof. induction p; simpl; set_solver by lia. Qed.

#[global] Instance libs : JournalLibs := {|
  encode b := digits (countable.encode b);
  decode l := p ← number l; countable.decode p;
  is_uuid _ := true; is_time t := (0 <=? t) && (t <? 2 ^ 60);
  inode_name i := pretty i |}.
#[global] Instance libs_ok : JournalLibsOk libs.
Proof.
  split; simpl.
  - intros b. rewrite number_digits. simpl. apply countable.decode_encode.
  - intros b. apply digits_line.
  - intros b H. by destruct (countable.encode b).
  - apply _.
Qed.

Definition b1 : Batch := mkBatch 2 "one" false [mkRecord "a" 2 30 "new.example" None None].
Definition b2 : Batch := mkBatch 2 "two" false [mkRecord "a" 1 40 "new.example" None None].

(** The file system fails four times, one write breaks off after five bytes. *)
Definition faulty : World * Journal :=
  (mkWorld (<[O := []]> ∅) (Some O) None None true 1
     [None; None; None; Some 5; Some 0; None; None; Some 0; Some 0], mkJournal O false None).

Lemma append_exactly_once_witness :
  (∃ s', retry (faults_left faulty) b1 faulty = (Ok tt, s') ∧ data O s'.1 = line b1)
  ∧ (append b1 faulty).1 = Err "I/O error".
Proof.
  split; [|by_vm].
  destruct (append_exactly_once [] b1 faulty ltac:(done)) as (s' & H1 & H2 & _).
  exists s'. split; [exact H1|exact H2].
Defined.

(** A full journal, whose new file cannot be created. *)
Definition full_data : list Z := repeat 0 (Z.to_nat ROTATE_BYTES).
Definition full : World * Journal :=
  (mkWorld (<[O := full_data]> ∅) (Some O) (Some 5%nat) None true 7
     [None; None; None; None; None; None; Some 0], mkJournal O false None).

Lemma failed_rotation_wedges_witness :
  ∃ s, append b1 full = (Err "I/O error", s) ∧ ∃ s',
    retry 100 b1 s = (Err "not found", s') ∧ w_path s'.1 = None ∧ w_one s'.1 = None
    ∧ w_two s'.1 = None.
Proof.
  destruct (failed_rotation_wedges b1 full.1 full.2 O 5 eq_refl eq_refl eq_refl eq_refl)
    as (s & H1 & H2).
  - unfold full. cbn [fst]. rewrite data_insert. unfold full_data. rewrite repeat_length. lia.
  - reflexivity.
  - exists s. split; [exact H1|]. destruct (H2 100%nat) as (s' & H3 & H4 & H5). exists s'.
    split; [exact H3|]. split; [exact H4|]. apply H5. lia.
Defined.

End Samples.
