(* ===== verification/JournalFollow.v ===== *)
(** * A reader follows the journal ([porthub-runtime/src/web_activity.rs], third part)

    The writer, its journal and a polling reader as one system of steps: what the reader
    gets is what the writer wrote.  A poll is a step for each name it opens and for each
    file it reads, and the writer goes on between them.  The last part joins the counter to
    the journal: the batches it hands over pass the checks of the reader. *)

From S2P Require Import Prelude Net RustStr Http Activity Journal.
Local Open Scope string_scope.
Local Open Scope list_scope.
Local Open Scope Z_scope.

(** ** A reader follows the writer *)

Section follow.
Context {L : JournalLibs} {JL : JournalLibsOk L}.

(** [segments]: the names, the oldest first. *)
Definition segment_names (w : World) : list (option nat) := [w_two w; w_one w; w_path w].

(** A file [read_batch] has opened: its inode and its length at that time. *)
Record Handle := mkHandle { h_inode : nat; h_length : Z }.

(** What a file holds while the writer is in the middle of a line: [t] is the beginning of
    the line, in the file in use. *)
Definition holds (i : nat) (t : list Z) (s : World * Journal) : list Z :=
  data i s.1 ++ (if bool_decide (i = j_file s.2) then t else []).

(** The body of the first loop of [read_batch], a missing file is left out; the reading of
    one file. *)
Definition open_file (name : option nat) (t : list Z) (s : World * Journal) : list Handle :=
  match name with Some i => [mkHandle i (len (holds i t s))] | None => [] end.
Definition read_handle (h : Handle) (t : list Z) (s : World * Journal) : Opened :=
  mkOpened (inode_name (h_inode h)) (h_length h) (holds (h_inode h) t s).

(** What a poll finds when the writer rests. *)
Definition open_segments (s : World * Journal) : list Opened :=
  map (λ h, read_handle h [] s) (concat (map (λ name, open_file name [] s) (segment_names s.1))).
(** The batches of the files that have a name. *)
Definition disk_batches (w : World) : list Batch :=
  concat (map (λ name, match name with Some i => (read_lines (data i w)).1 | None => [] end)
            (segment_names w)).

(** A poll: how many names it has tried and the files it has opened; then the files it has
    read and those that are left. *)
Inductive Poll :=
  | Resting
  | Opening (n : nat) (files : list Handle)
  | Reading (past : list Opened) (todo : list Handle).

(** The writer and the batches it has written; the reader: its poll, its checkpoint and
    what it has read.  [fo_missed] are the batches that were in no file any more when the
    reader's first poll began. *)
Record Follow := mkFollow {
  fo_state : World * Journal; fo_written : list Batch;
  fo_poll : Poll; fo_checkpoint : option Checkpoint; fo_read : list Batch;
  fo_missed : list Batch }.
Definition set_writer s bs f :=
  mkFollow s bs (fo_poll f) (fo_checkpoint f) (fo_read f) (fo_missed f).
Definition set_poll p f :=
  mkFollow (fo_state f) (fo_written f) p (fo_checkpoint f) (fo_read f) (fo_missed f).
Definition dropped (f : Follow) : list Batch :=
  take (length (fo_written f) - length (disk_batches (fo_state f).1)) (fo_written f).
(** The batches the reader does not get: those dropped before its first poll. *)
Definition missed (f : Follow) : list Batch :=
  match fo_checkpoint f with Some _ => fo_missed f | None => dropped f end.

Definition is_opening (p : Poll) : bool := match p with Opening _ _ => true | _ => false end.

(** A batch is appended, with any faults while there is room; the journal rotates without
    faults and while no poll is opening its files ([racing_poll_skips] is why).  The steps
    of a poll see the beginning of the next line at most.  A poll that reports a gap, or
    fails, is given up. *)
Inductive follow_step (f : Follow) : Follow → Prop :=
  | f_faults fs :
      follow_step f (set_writer (set_faults fs (fo_state f).1, (fo_state f).2) (fo_written f) f)
  | f_append b s' : writable b →
      len (data (j_file (fo_state f).2) (fo_state f).1) < ROTATE_BYTES
      ∨ w_faults (fo_state f).1 = [] ∧ is_opening (fo_poll f) = false →
      retry (faults_left (fo_state f)) b (fo_state f) = (Ok tt, s') →
      follow_step f (set_writer s' (fo_written f ++ [b]) f)
  | f_begin : fo_poll f = Resting →
      follow_step f (mkFollow (fo_state f) (fo_written f) (Opening 0 []) (fo_checkpoint f) (fo_read f)
        (missed f))
  | f_open n files name t : fo_poll f = Opening n files →
      segment_names (fo_state f).1 !! n = Some name →
      let files := files ++ open_file name t (fo_state f) in
      follow_step f (set_poll (if decide (n = 2%nat) then Reading [] files else Opening (S n) files) f)
  | f_read past h h' todo t : fo_poll f = Reading past (h :: h' :: todo) →
      10 ∉ t → len t < MAX_READ →
      follow_step f (set_poll (Reading (past ++ [read_handle h t (fo_state f)]) (h' :: todo)) f)
  | f_finish past h t r : fo_poll f = Reading past [h] →
      10 ∉ t → len t < MAX_READ →
      read_batch (past ++ [read_handle h t (fo_state f)]) (fo_checkpoint f) = Some r → gap r = false →
      follow_step f (mkFollow (fo_state f) (fo_written f) Resting (Some (checkpoint r))
        (fo_read f ++ batches r) (fo_missed f))
  | f_give_up : follow_step f (set_poll Resting f).

(** A new journal: one empty file. *)
Definition follow_start (i : nat) : Follow :=
  mkFollow (mkWorld (<[i := []]> ∅) (Some i) None None true (S i) [], mkJournal i false None)
    [] Resting None [] [].

(** Polling until nothing more is there; the second component is whether a gap was seen. *)
Fixpoint collect (n : nat) (files : list Opened) (cp : option Checkpoint) : option (list Batch * bool) :=
  match n with
  | O => None
  | S n =>
      r ← read_batch files cp;
      if more r then '(bs, g) ← collect n files (Some (checkpoint r)); Some (batches r ++ bs, gap r || g)
      else Some (batches r, gap r)
  end.

Lemma ahead_identity segs c rest : ahead segs c rest → identity c ∈ map sg_id segs.
Proof.
  intros (b & s & a & pre & post & -> & _ & -> & _). rewrite map_app. apply elem_of_app. right. by left.
Qed.

Lemma shows_elem segs t files f :
  shows segs t files → f ∈ files →
  ∃ s u, s ∈ segs ∧ o_identity f = sg_id s ∧ o_content f = text (sg_batches s) ++ u.
Proof.
  revert files. induction segs as [|s segs IH]; intros files Hs Hf; [by destruct files|].
  destruct segs as [|s2 segs].
  - destruct files as [|f1 [|f2 files]]; [by apply elem_of_nil in Hf| |by destruct Hs as (_ & _ & _ & [])].
    apply list_elem_of_singleton in Hf as ->. destruct Hs as (Hi & Hc & _).
    exists s, t. split_and!; [by left|done|done].
  - destruct files as [|f1 files]; [by apply elem_of_nil in Hf|].
    destruct Hs as (Hi & Hc & _ & Hs). apply elem_of_cons in Hf as [->|Hf].
    + exists s, []. rewrite app_nil_r. split_and!; [by left|done|done].
    + destruct (IH files Hs Hf) as (s' & u & Hin & ?). exists s', u. split; [by right|done].
Qed.

(** A checkpoint lies within the file of its segment. *)
Lemma ahead_within segs t files c rest f :
  shows segs t files → NoDup (map sg_id segs) → ahead segs c rest →
  f ∈ files → o_identity f = identity c → offset c ≤ len (o_content f).
Proof.
  intros Hs Hn (b & s & a & pre & post & -> & Hb & -> & _) Hf Hi.
  destruct (shows_elem _ _ _ _ Hs Hf) as (s' & u & Hin & Hi' & ->). simpl in *.
  assert (s' = s) as ->.
  { apply list_elem_of_lookup in Hin as (k & Hk).
    assert (k = length b) as ->.
    { eapply (NoDup_lookup (map sg_id (b ++ s :: a))); [done| |].
      - rewrite list_lookup_fmap, Hk. simpl. by rewrite <- Hi', Hi.
      - rewrite list_lookup_fmap, list_lookup_middle by done. done. }
    rewrite list_lookup_middle in Hk by done. by injection Hk. }
  rewrite Hb, text_app, !length_app. lia.
Qed.

(** Files that have not grown since they were opened are read to the end. *)
Lemma collect_drains segs t files :
  visible segs t files → (∀ f, f ∈ files → o_length f = len (o_content f)) →
  ∀ n cp rest, unread segs files cp rest → (length rest < n)%nat →
  collect n files cp = Some (rest, false).
Proof.
  intros Hv Hl. induction n as [|n IH]; intros cp rest Hu Hn; [lia|]. simpl.
  destruct (read_batch_ahead segs t files cp rest Hv Hu)
    as (r & later & -> & Hg & -> & Ha & Hm & Hp). simpl. rewrite length_app in Hn.
  destruct (more r) eqn:Hmore.
  - rewrite (IH (Some (checkpoint r)) later); simpl.
    + by rewrite Hg.
    + split; [done|]. intros f Hf Hi. rewrite Hl by done.
      destruct Hv as [Hs _ Hn' _ _]. by eapply ahead_within.
    + destruct (batches r) eqn:E; [by destruct Hp|]. simpl in *. lia.
  - rewrite Hg. do 2 f_equal. destruct (Hm eq_refl) as [->|(f & Hf & Hlt)]; [by rewrite app_nil_r|].
    specialize (Hl f). rewrite Hl in Hlt; [lia|]. by apply last_Some_elem_of.
Qed.

(** The segments on the disk, the older ones [older] and the one in use, as inodes. *)
Record on_disk (older : list (nat * list Batch)) (i : nat) (bs : list Batch) (s : World * Journal) :
    Prop := {
  od_names : match older with
    | [] => w_two s.1 = None ∧ w_one s.1 = None
    | [x] => w_two s.1 = None ∧ w_one s.1 = Some x.1
    | [x; y] => w_two s.1 = Some x.1 ∧ w_one s.1 = Some y.1
    | _ => False
    end;
  od_path : w_path s.1 = Some i ∧ j_file s.2 = i ∧ j_start s.2 = None;
  od_data : Forall (λ x, data x.1 s.1 = text x.2) (older ++ [(i, bs)]);
  od_fresh : Forall (λ x, (x.1 < w_next s.1)%nat) (older ++ [(i, bs)]);
  od_ids : NoDup (map fst (older ++ [(i, bs)]));
  od_writable : Forall (λ x, Forall writable x.2) (older ++ [(i, bs)]);
}.
Definition segments_of (l : list (nat * list Batch)) : list Segment :=
  map (λ x, mkSegment (inode_name x.1) x.2) l.


(** One more line in the file in use. *)
Lemma on_disk_append older i bs b s s' :
  on_disk older i bs s → writable b → only_file i s s' →
  data i s'.1 = text bs ++ line b → j_start s'.2 = None →
  on_disk older i (bs ++ [b]) s'.
Proof.
  intros [Hn [Hp [Hj Hs]] Hd Hf Hi Hw] Hb [[Hp' [Ho Ht]] [_ Hx] Hk [Hj' _] _] Hd' Hs'.
  split.
  - by rewrite Ho, Ht.
  - split_and!; congruence.
  - rewrite map_app in Hi. apply NoDup_app in Hi as (_ & Hi & _).
    apply Forall_app in Hd as [Hd _]. apply Forall_app. split.
    + rewrite Forall_forall in *. intros x Hin. rewrite <- (Hd x Hin). unfold data.
      rewrite Hk; [done|]. intros Hx'. apply (Hi x.1); [by apply list_elem_of_fmap_2|].
      rewrite Hx'. by left.
    + constructor; [|done]. simpl. rewrite Hd', text_app. unfold text at 3. simpl.
      by rewrite app_nil_r.
  - rewrite Hx. apply Forall_app in Hf as [Hf1 Hf2]. apply Forall_app. split; [done|].
    apply Forall_cons in Hf2 as [Hf2 _]. by repeat constructor.
  - by rewrite map_app in *.
  - apply Forall_app in Hw as [Hw1 Hw2]. apply Forall_cons in Hw2 as [Hw2 _].
    apply Forall_app. split; [done|]. constructor; [|done]. simpl. apply Forall_app.
    split; [done|]. by constructor.
Qed.

(** Of three segments the oldest is dropped when the journal rotates. *)
Definition shift (older : list (nat * list Batch)) : list (nat * list Batch) :=
  match older with [x; y] => [y] | _ => older end.

Lemma on_disk_rotate older i bs b s :
  on_disk older i bs s → writable b → w_faults s.1 = [] →
  ROTATE_BYTES ≤ len (data i s.1) →
  ∃ s', append b s = (Ok tt, s')
    ∧ on_disk (shift older ++ [(i, bs)]) (w_next s.1) [b] s'.
Proof.
  destruct s as [w j]. intros [Hn [Hp [Hj Hs]] Hd Hf Hi Hw] Hb Hfs Hl. simpl in *.
  assert (i ≠ w_next w) as Hne.
  { apply Forall_app in Hf as [_ Hf]. apply Forall_cons in Hf as [Hf _]. simpl in Hf. lia. }
  eexists. split; [by apply (append_rotates b w j i)|].
  assert (∀ P, Forall P (older ++ [(i, bs)]) → Forall P (shift older ++ [(i, bs)])) as Hsub.
  { intros P HP. destruct older as [|x [|y [|z older]]]; try done. by apply Forall_cons in HP as [_ ?]. }
  split; simpl.
  - by destruct older as [|x [|y [|z older]]]; simpl in *; naive_solver.
  - done.
  - apply Forall_app. split.
    + apply Hsub in Hd. apply Hsub in Hf. rewrite Forall_forall in *. intros x Hx.
      rewrite <- (Hd x Hx). specialize (Hf x Hx). unfold data. simpl.
      rewrite lookup_insert_ne by lia. done.
    + repeat constructor. simpl. rewrite data_insert. unfold text. simpl. by rewrite app_nil_r.
  - apply Forall_app. split; [|repeat constructor].
    apply Hsub. eapply Forall_impl; [exact Hf|]. simpl. lia.
  - rewrite map_app. apply NoDup_app. split_and!.
    + destruct older as [|x [|y [|z older]]]; try done. by apply NoDup_cons in Hi as [_ ?].
    + intros k (x & -> & Hx)%list_elem_of_fmap Hk. apply list_elem_of_singleton in Hk.
      apply Hsub in Hf. rewrite Forall_forall in Hf. specialize (Hf x Hx).
      simpl in *. lia.
    + apply NoDup_singleton.
  - apply Forall_app. split; [by apply Hsub|]. constructor; [|done]. by constructor.
Qed.

(** All segments there ever were, those without a name first. *)
Record history (gone older : list (nat * list Batch)) (i : nat) (bs : list Batch) (s : World * Journal) :
    Prop := {
  hi_disk : on_disk older i bs s;
  hi_gone : (length older < 2)%nat → gone = [];
  hi_data : Forall (λ x, data x.1 s.1 = text x.2 ∧ (x.1 < w_next s.1)%nat ∧ Forall writable x.2) gone;
  hi_ids : NoDup (map fst (gone ++ older ++ [(i, bs)]));
}.
Definition batches_of (l : list (nat * list Batch)) : list Batch := concat (map snd l).

(** What an opened file of a closed segment is, and what is read from it. *)
Definition closed (x : nat * list Batch) : Handle := mkHandle x.1 (len (text x.2)).
Definition whole (x : nat * list Batch) : Opened := mkOpened (inode_name x.1) (len (text x.2)) (text x.2).

(** A poll under way: [c] is not behind the end of the last file. *)
Definition poll_ok (all gone older : list (nat * list Batch)) (cp : option Checkpoint)
    (skipped : list Batch) (p : Poll) : Prop :=
  match p with
  | Resting => True
  | Opening n files =>
      files = map closed (match n with
                          | O => []
                          | 1%nat => match older with [x; y] => [x] | _ => [] end
                          | _ => older
                          end) ∧
      (cp = None → skipped = batches_of gone)
  | Reading past todo =>
      ∃ before vd vt x after l,
        all = before ++ (vd ++ vt ++ [x]) ++ after ∧ past = map whole vd ∧
        todo = map closed vt ++ [mkHandle x.1 l] ∧ 0 ≤ l ∧
        (∀ c, cp = Some c → identity c = inode_name x.1 → offset c ≤ l) ∧
        (cp = None → skipped = batches_of before)
  end.
(** The reader's place: behind what it has read stands what is left. *)
Definition placed (segs : list Segment) (written skipped read : list Batch) (cp : option Checkpoint) : Prop :=
  match cp with
  | None => read = []
  | Some c => ∃ rest, written = skipped ++ read ++ rest ∧ ahead segs c rest
  end.
Record follow_ok (f : Follow) (gone older : list (nat * list Batch)) (i : nat) (bs : list Batch) :
    Prop := {
  fk_history : history gone older i bs (fo_state f);
  fk_written : fo_written f = batches_of (gone ++ older ++ [(i, bs)]);
  fk_placed : placed (segments_of (gone ++ older ++ [(i, bs)])) (fo_written f) (fo_missed f) (fo_read f)
                (fo_checkpoint f);
  fk_poll : poll_ok (gone ++ older ++ [(i, bs)]) gone older (fo_checkpoint f) (fo_missed f) (fo_poll f);
}.

(** ** The history of the journal *)

Lemma history_last gone older i bs s :
  history gone older i bs s → data i s.1 = text bs ∧ j_file s.2 = i ∧ Forall writable bs.
Proof.
  intros [[_ (_ & Hj & _) Hd _ _ Hw] _ _ _]. apply Forall_app in Hd as [_ Hd]. apply Forall_app in Hw as [_ Hw].
  apply Forall_cons in Hd as [Hd _]. by apply Forall_cons in Hw as [Hw _].
Qed.
Lemma history_data gone older i bs s :
  history gone older i bs s →
  Forall (λ x, data x.1 s.1 = text x.2 ∧ (x.1 < w_next s.1)%nat ∧ Forall writable x.2)
    (gone ++ older ++ [(i, bs)]).
Proof.
  intros [[_ _ Hd Hf _ Hw] _ Hg _]. apply Forall_app. split; [done|].
  rewrite Forall_forall in *. intros x Hx. auto.
Qed.
(** Only the last segment is in use. *)
Lemma history_closed gone older i bs s before x y after :
  history gone older i bs s → gone ++ older ++ [(i, bs)] = before ++ x :: y :: after → x.1 ≠ i.
Proof.
  intros [_ _ _ Hn] E Heq. rewrite (assoc_L (++)) in E, Hn. destruct after as [|z after _] using rev_ind.
  - change (before ++ [x; y]) with (before ++ [x] ++ [y]) in E. rewrite (assoc_L (++)) in E.
    apply app_inj_tail in E as [E _]. rewrite E, !map_app in Hn. apply NoDup_app in Hn as (_ & Hn & _).
    apply (Hn x.1); [|rewrite Heq; by left]. rewrite elem_of_app. right. by left.
  - rewrite !app_comm_cons, (assoc_L (++)) in E. apply app_inj_tail in E as [E _].
    rewrite E, !map_app in Hn. apply NoDup_app in Hn as (_ & Hn & _).
    apply (Hn x.1); [|rewrite Heq; by left]. rewrite elem_of_app. right. by left.
Qed.

Lemma history_append gone older i bs b s s' :
  history gone older i bs s → writable b → only_file i s s' →
  data i s'.1 = text bs ++ line b → j_start s'.2 = None →
  history gone older i (bs ++ [b]) s'.
Proof.
  intros [Hd Hg Hf Hn] Hb Ho Hl Hs. split; [by eapply on_disk_append|done| |].
  - rewrite map_app in Hn. apply NoDup_app in Hn as (_ & Hn & _).
    rewrite Forall_forall in *. intros x Hx. destruct (Hf x Hx) as (H1 & H2 & H3).
    destruct (of_rest _ _ _ Ho) as [_ ->]. split_and!; [|done..]. rewrite <- H1. unfold data.
    rewrite (of_others _ _ _ Ho); [done|]. intros Heq. apply (Hn x.1); [by apply list_elem_of_fmap_2|].
    rewrite Heq, map_app. apply elem_of_app. right. by left.
  - by rewrite !map_app in *.
Qed.

Definition oldest (older : list (nat * list Batch)) : list (nat * list Batch) :=
  match older with [x; y] => [x] | _ => [] end.
Lemma oldest_shift older : oldest older ++ shift older = older.
Proof. by destruct older as [|x [|y [|]]]. Qed.

Lemma history_rotate gone older i bs b s :
  history gone older i bs s → writable b → w_faults s.1 = [] → ROTATE_BYTES ≤ len (data i s.1) →
  ∃ s', append b s = (Ok tt, s') ∧
    history (gone ++ oldest older) (shift older ++ [(i, bs)]) (w_next s.1) [b] s'.
Proof.
  intros [Hd Hg Hf Hn] Hb Hfs Hl.
  destruct (on_disk_rotate older i bs b s Hd Hb Hfs Hl) as (s' & E & Hd').
  pose proof (history_data gone older i bs s (Build_history _ _ _ _ _ Hd Hg Hf Hn)) as Hall.
  exists s'. split; [done|].
  assert (∀ x, (x < w_next s.1)%nat → data x s'.1 = data x s.1 ∧ (x < w_next s'.1)%nat) as Hk.
  { destruct s as [w j]. pose proof (od_path _ _ _ _ Hd) as (Hp & Hj & Hst). cbn [fst snd] in *.
    pose proof (od_fresh _ _ _ _ Hd) as Hfr. apply Forall_app in Hfr as [_ Hfr].
    apply Forall_cons in Hfr as [Hfr _]. cbn [fst] in Hfr.
    rewrite (append_rotates b w j i) in E by (done || lia). injection E as <-. intros x Hx.
    cbn [fst w_next]. unfold data. cbn [w_inodes]. rewrite lookup_insert_ne by lia. split; [done|lia]. }
  split; [done| | |].
  - rewrite length_app. simpl. destruct older as [|x [|y [|z older]]]; simpl; intros H.
    + rewrite app_nil_r. apply Hg. simpl. lia.
    + lia.
    + lia.
    + pose proof (od_names _ _ _ _ Hd) as []. 
  - rewrite Forall_forall in *. intros x Hx. assert (x ∈ gone ++ older ++ [(i, bs)]) as Hin.
    { rewrite <- (oldest_shift older). set_solver. }
    destruct (Hall x Hin) as (H1 & H2 & H3). destruct (Hk x.1 H2) as [-> ?]. by split_and!.
  - assert ((gone ++ oldest older) ++ (shift older ++ [(i, bs)]) ++ [(w_next s.1, [b])]
            = (gone ++ older ++ [(i, bs)]) ++ [(w_next s.1, [b])]) as ->.
    { rewrite <- (oldest_shift older) at 3. by rewrite !(assoc_L (++)). }
    rewrite map_app. apply NoDup_app. split_and!; [done| |apply NoDup_singleton].
    intros k (x & -> & Hx)%list_elem_of_fmap Hin. apply list_elem_of_singleton in Hin.
    rewrite Forall_forall in Hall. destruct (Hall x Hx) as (_ & H2 & _). simpl in Hin. lia.
Qed.

(** ** Segments and checkpoints *)

Lemma nodup_split {A B} (f : A → B) l1 x l2 k1 y k2 :
  NoDup (map f (l1 ++ x :: l2)) → l1 ++ x :: l2 = k1 ++ y :: k2 → f x = f y → l1 = k1 ∧ x = y ∧ l2 = k2.
Proof.
  intros Hn E Hf. assert (length l1 = length k1) as Hl.
  { eapply (NoDup_lookup _ _ _ (f x) Hn).
    - by rewrite list_lookup_fmap, list_lookup_middle.
    - by rewrite E, list_lookup_fmap, list_lookup_middle, Hf. }
  apply app_inj_1 in E as [-> E]; [|done]. by injection E as -> ->.
Qed.

Lemma ahead_window before view after c rest :
  NoDup (map sg_id (before ++ view ++ after)) → ahead (before ++ view ++ after) c rest →
  identity c ∈ map sg_id view →
  ∃ rv, ahead view c rv ∧ rest = rv ++ concat (map sg_batches after).
Proof.
  intros Hn (b & s & a & pre & post & E & Hb & -> & ->) Hin. simpl in Hin.
  apply list_elem_of_fmap in Hin as (s' & Hs & Hin). apply list_elem_of_split in Hin as (v1 & v2 & ->).
  rewrite E in Hn. destruct (nodup_split sg_id b s a (before ++ v1) s' (v2 ++ after) Hn) as (-> & -> & ->);
    [by rewrite <- E, <- !(assoc_L (++))|done|].
  exists (post ++ concat (map sg_batches v2)). split; [by exists v1, s', v2, pre, post|].
  by rewrite map_app, concat_app, (assoc_L (++)).
Qed.
Lemma ahead_widen before view after c rest :
  ahead view c rest → ahead (before ++ view ++ after) c (rest ++ concat (map sg_batches after)).
Proof.
  intros (b & s & a & pre & post & -> & Hb & -> & ->).
  exists (before ++ b), s, (a ++ after), pre, post. rewrite <- !(assoc_L (++)). split_and!; try done.
  by rewrite map_app, concat_app.
Qed.
Lemma segments_app l k : segments_of (l ++ k) = segments_of l ++ segments_of k.
Proof. apply map_app. Qed.
Lemma segments_batches l : concat (map sg_batches (segments_of l)) = batches_of l.
Proof. unfold segments_of, batches_of. by rewrite map_map. Qed.
Lemma batches_app l k : batches_of (l ++ k) = batches_of l ++ batches_of k.
Proof. unfold batches_of. by rewrite map_app, concat_app. Qed.
Lemma batches_one i bs : batches_of [(i, bs)] = bs.
Proof. apply app_nil_r. Qed.
Lemma segments_ids gone older i bs s :
  history gone older i bs s → NoDup (map sg_id (segments_of (gone ++ older ++ [(i, bs)]))).
Proof.
  intros [_ _ _ Hn]. unfold segments_of. rewrite map_map. simpl.
  rewrite <- (map_map fst inode_name). apply NoDup_fmap; [apply inode_name_inj|done].
Qed.

Lemma ahead_append l i bs b c rest :
  ahead (segments_of (l ++ [(i, bs)])) c rest →
  ahead (segments_of (l ++ [(i, bs ++ [b])])) c (rest ++ [b]).
Proof.
  unfold segments_of. rewrite !map_app. simpl.
  intros (before & s & after & pre & post & E & Hb & -> & ->).
  destruct after as [|a after _] using rev_ind.
  - apply app_inj_tail in E as [-> <-]. simpl in *. subst bs.
    eexists before, _, [], pre, (post ++ [b]). split_and!; [done| |done|by rewrite !app_nil_r].
    simpl. by rewrite (assoc_L (++)).
  - rewrite app_comm_cons, (assoc_L (++)) in E. apply app_inj_tail in E as [-> <-].
    exists before, s, (after ++ [mkSegment (inode_name i) (bs ++ [b])]), pre, post.
    split_and!; [by rewrite <- (assoc_L (++))|done|done|].
    rewrite !map_app, !concat_app. simpl. by rewrite !app_nil_r, !(assoc_L (++)).
Qed.

Lemma placed_append l i bs b written skipped read cp :
  placed (segments_of (l ++ [(i, bs)])) written skipped read cp →
  placed (segments_of (l ++ [(i, bs ++ [b])])) (written ++ [b]) skipped read cp.
Proof.
  destruct cp as [c|]; [|done]. intros (rest & -> & H). exists (rest ++ [b]).
  rewrite <- !(assoc_L (++)). split; [done|by apply ahead_append].
Qed.
Lemma placed_new x segs written skipped read cp :
  placed segs written skipped read cp → placed (segs ++ [x]) (written ++ sg_batches x) skipped read cp.
Proof.
  destruct cp as [c|]; [|done]. intros (rest & -> & H). exists (rest ++ sg_batches x).
  rewrite <- !(assoc_L (++)). split; [done|].
  pose proof (ahead_widen [] segs [x] c rest H) as H'. simpl in H'. by rewrite app_nil_r in H'.
Qed.

(** ** The writer's steps *)

Lemma poll_append gone older i bs b cp skipped p :
  poll_ok (gone ++ older ++ [(i, bs)]) gone older cp skipped p →
  poll_ok (gone ++ older ++ [(i, bs ++ [b])]) gone older cp skipped p.
Proof.
  destruct p as [|n files|past todo]; [done|done|].
  intros (before & vd & vt & x & after & l & E & H). simpl.
  destruct after as [|y after _] using rev_ind.
  - rewrite app_nil_r, !(assoc_L (++)) in E. apply app_inj_tail in E as [E <-].
    exists before, vd, vt, (i, bs ++ [b]), [], l. split; [|done].
    by rewrite app_nil_r, !(assoc_L (++)), E.
  - rewrite !(assoc_L (++)) in E. apply app_inj_tail in E as [E <-].
    exists before, vd, vt, x, (after ++ [(i, bs ++ [b])]), l. split; [|done].
    by rewrite !(assoc_L (++)), E.
Qed.
Lemma poll_rotate all y gone older gone' older' cp skipped p :
  is_opening p = false → poll_ok all gone older cp skipped p → poll_ok (all ++ [y]) gone' older' cp skipped p.
Proof.
  destruct p as [|n files|past todo]; [done|done|]. intros _ (before & vd & vt & x & after & l & -> & H).
  exists before, vd, vt, x, (after ++ [y]), l. split; [|done]. by rewrite !(assoc_L (++)).
Qed.

Lemma append_step_ok f gone older i bs b s' :
  follow_ok f gone older i bs → writable b →
  len (data (j_file (fo_state f).2) (fo_state f).1) < ROTATE_BYTES
  ∨ w_faults (fo_state f).1 = [] ∧ is_opening (fo_poll f) = false →
  retry (faults_left (fo_state f)) b (fo_state f) = (Ok tt, s') →
  ∃ gone' older' i' bs', follow_ok (set_writer s' (fo_written f ++ [b]) f) gone' older' i' bs'.
Proof.
  intros [Hh Hw Hp Hpoll] Hb Hroom Hr.
  destruct (history_last _ _ _ _ _ Hh) as (Ht & Hj & _). pose proof (hi_disk _ _ _ _ _ Hh) as Hd.
  destruct (od_path _ _ _ _ Hd) as (_ & _ & Hs). rewrite Hj in *.
  destruct (decide (len (data i (fo_state f).1) < ROTATE_BYTES)) as [Hl|Hl].
  - assert (appending (text bs) (fo_state f)) as Ha.
    { unfold appending. rewrite Hs, Hj, <- Ht. done. }
    destruct (retry_appends _ _ b _ (le_n _) Ha) as (s1 & E & Hd1 & Hs1 & Ho).
    rewrite Hr in E. injection E as <-. rewrite Hj in *. exists gone, older, i, (bs ++ [b]). split; cbn.
    + by eapply history_append.
    + by rewrite Hw, !batches_app, !batches_one, !(assoc_L (++)).
    + rewrite (assoc_L (++)) in *. by apply placed_append.
    + by apply poll_append.
  - destruct Hroom as [|[Hf Ho]]; [done|].
    destruct (history_rotate gone older i bs b _ Hh Hb Hf ltac:(lia)) as (s1 & E & Hh1).
    unfold faults_left in Hr. rewrite Hf in Hr. simpl in Hr. rewrite E in Hr. injection Hr as <-.
    exists (gone ++ oldest older), (shift older ++ [(i, bs)]), (w_next (fo_state f).1), [b].
    assert ((gone ++ oldest older) ++ (shift older ++ [(i, bs)]) ++ [(w_next (fo_state f).1, [b])]
            = (gone ++ older ++ [(i, bs)]) ++ [(w_next (fo_state f).1, [b])]) as Eall.
    { rewrite <- (oldest_shift older) at 3. by rewrite !(assoc_L (++)). }
    split; cbn; [done|rewrite Eall..].
    + by rewrite batches_app, Hw, batches_one.
    + rewrite segments_app. by apply (placed_new (mkSegment _ [b])).
    + by eapply poll_rotate.
Qed.

Lemma read_file_gap last start f st :
  rd_gap st = true → rd_gap (read_file last start f st).1 = true.
Proof.
  intros H. unfold read_file. destruct (o_length f <? start); rewrite ?H;
    destruct (read_lines _); simpl; destruct (_ <? o_length f); try done; by destruct (_ =? 0).
Qed.
Lemma read_files_gap files : ∀ start st,
  rd_gap st = true → rd_gap (read_files start files st) = true.
Proof.
  induction files as [|f files IH]; intros start st H; [done|]. simpl.
  pose proof (read_file_gap (bool_decide (files = [])) start f st H) as Hg.
  destruct (read_file _ start f st) as [st' []]; [done|by apply IH].
Qed.

Lemma read_batch_lost segs t files c r :
  shows segs t files → identity c ∉ map sg_id segs → read_batch files (Some c) = Some r →
  gap r = true.
Proof.
  intros Hs Hc. assert (position (identity c) files = None) as Hp.
  { assert (∀ g, g ∈ files → o_identity g ≠ identity c) as Hne.
    { intros g Hg Heq. destruct (shows_elem _ _ _ _ Hs Hg) as (s & u & Hin & Hi & _).
      apply Hc. rewrite <- Heq, Hi. by apply list_elem_of_fmap_2. }
    clear Hs. induction files as [|g files IH]; [done|]. simpl.
    rewrite bool_decide_eq_false_2 by (apply Hne; by left).
    rewrite IH; [done|]. intros x Hx. apply Hne. by right. }
  unfold read_batch. simpl. rewrite Hp. destruct files as [|f files]; [done|].
  set (st := read_files _ _ _). assert (rd_gap st = true) as Hgap by by apply read_files_gap.
  clearbody st. destruct (rd_result st); simpl; [|done]. by intros [= <-].
Qed.

(** ** The reader's steps *)

Lemma holds_text gone older i bs s x t :
  history gone older i bs s → x ∈ gone ++ older ++ [(i, bs)] →
  holds x.1 t s = text x.2 ++ (if decide (x.1 = i) then t else []).
Proof.
  intros Hh Hx. destruct (history_last _ _ _ _ _ Hh) as (_ & Hj & _).
  pose proof (history_data _ _ _ _ _ Hh) as Hd. rewrite Forall_forall in Hd.
  unfold holds. rewrite Hj. destruct (Hd x Hx) as (-> & _). case_bool_decide; by case_decide.
Qed.
(** A segment behind which there is another. *)
Lemma read_closed gone older i bs s before x y after t :
  history gone older i bs s → gone ++ older ++ [(i, bs)] = before ++ x :: y :: after →
  read_handle (closed x) t s = whole x ∧ open_file (Some x.1) t s = [closed x].
Proof.
  intros Hh E. assert (x ∈ gone ++ older ++ [(i, bs)]) as Hx by (rewrite E; set_solver).
  unfold read_handle, closed, whole, open_file. cbn [h_inode h_length].
  rewrite (holds_text _ _ _ _ _ _ t Hh Hx), decide_False by by eapply history_closed.
  by rewrite app_nil_r.
Qed.

(** The disk holds the newest batches. *)
Lemma disk_batches_ok gone older i bs s :
  history gone older i bs s → disk_batches s.1 = batches_of (older ++ [(i, bs)]).
Proof.
  intros Hh. pose proof (history_data _ _ _ _ _ Hh) as Hd. apply Forall_app in Hd as [_ Hd].
  destruct (hi_disk _ _ _ _ _ Hh) as [Hn [Hp _] _ _ _ _].
  assert (∀ x, x ∈ older ++ [(i, bs)] → (read_lines (data x.1 s.1)).1 = x.2) as Hr.
  { rewrite Forall_forall in Hd. intros x Hx. destruct (Hd x Hx) as (-> & _ & Hw).
    pose proof (read_lines_text x.2 [] (not_elem_of_nil _) Hw) as H. rewrite app_nil_r in H. by rewrite H. }
  pose proof (Hr (i, bs) ltac:(set_solver)) as Hri. simpl in Hri.
  unfold disk_batches, segment_names, batches_of. simpl. rewrite Hp, Hri.
  destruct older as [|x [|y [|z older]]]; destruct Hn as [-> ->] || done; simpl; rewrite ?app_nil_r.
  - done.
  - by rewrite (Hr x) by set_solver.
  - by rewrite (Hr x), (Hr y) by set_solver.
Qed.
Lemma dropped_ok f gone older i bs :
  follow_ok f gone older i bs → dropped f = batches_of gone.
Proof.
  intros [Hh Hw _ _]. unfold dropped. rewrite (disk_batches_ok _ _ _ _ _ Hh), Hw, batches_app, length_app.
  rewrite Nat.add_sub, take_app_length. done.
Qed.

(** A checkpoint in a segment lies within its text. *)
Lemma ahead_offset segs c rest s :
  NoDup (map sg_id segs) → ahead segs c rest → s ∈ segs → identity c = sg_id s →
  offset c ≤ len (text (sg_batches s)).
Proof.
  intros Hn (b & s' & a & pre & post & -> & Hb & -> & _) Hs Hi. simpl in Hi.
  apply list_elem_of_split in Hs as (l1 & l2 & E).
  destruct (nodup_split sg_id _ _ _ _ _ _ Hn E Hi) as (_ & -> & _).
  rewrite Hb, text_app, length_app. simpl. lia.
Qed.
Lemma fk_offset f gone older i bs c x :
  follow_ok f gone older i bs → fo_checkpoint f = Some c → x ∈ gone ++ older ++ [(i, bs)] →
  identity c = inode_name x.1 → offset c ≤ len (text x.2).
Proof.
  intros [Hh _ Hp _] Hc Hx Hi. rewrite Hc in Hp. destruct Hp as (rest & _ & Ha).
  apply (ahead_offset _ c rest (mkSegment (inode_name x.1) x.2) (segments_ids _ _ _ _ _ Hh) Ha); [|done].
  unfold segments_of. by apply (list_elem_of_fmap_2 (λ x, mkSegment (inode_name x.1) x.2)).
Qed.

Lemma open_step_ok f gone older i bs n files name t :
  follow_ok f gone older i bs → fo_poll f = Opening n files →
  segment_names (fo_state f).1 !! n = Some name →
  let files := files ++ open_file name t (fo_state f) in
  follow_ok (set_poll (if decide (n = 2%nat) then Reading [] files else Opening (S n) files) f)
    gone older i bs.
Proof.
  intros Hok Hpoll Hname files'. pose proof Hok as [Hh Hw Hp Hpk].
  split; [done..|]. cbn [fo_poll set_poll fo_checkpoint fo_missed].
  rewrite Hpoll in Hpk. destruct Hpk as [-> Hskip]. subst files'.
  destruct (hi_disk _ _ _ _ _ Hh) as [Hn [Hpath _] _ _ _ _].
  assert (open_file name t (fo_state f)
    = match n with
      | O => map closed (oldest older)
      | 1%nat => map closed (shift older)
      | _ => [mkHandle i (len (holds i t (fo_state f)))]
      end ∧ (n ≤ 2)%nat) as [-> Hn2].
  { unfold segment_names in Hname.
    destruct n as [|[|[|n]]]; [..|by destruct n]; injection Hname as <-; (split; [|lia]).
    - destruct older as [|x [|y [|z older]]]; destruct Hn as [-> ?] || done; simpl; try done.
      by apply (read_closed gone [x; y] i bs (fo_state f) gone x y [(i, bs)] t Hh).
    - destruct older as [|x [|y [|z older]]]; destruct Hn as [? Hn] || done; simpl in *; rewrite Hn; try done.
      + by apply (read_closed gone [x] i bs (fo_state f) gone x (i, bs) [] t Hh).
      + apply (read_closed gone [x; y] i bs (fo_state f) (gone ++ [x]) y (i, bs) [] t Hh).
        by rewrite <- (assoc_L (++)).
    - by rewrite Hpath. }
  destruct (decide (n = 2%nat)) as [->|Hne]; simpl.
  - exists gone, [], older, (i, bs), [], (len (holds i t (fo_state f))).
    rewrite app_nil_r. split_and!; try done; [lia|]. intros c Hc Hi.
    assert ((i, bs) ∈ gone ++ older ++ [(i, bs)]) as Hin by set_solver.
    pose proof (fk_offset f _ _ _ _ c (i, bs) Hok Hc Hin Hi). 
    change i with (i, bs).1 at 1. rewrite (holds_text _ _ _ _ _ _ t Hh Hin), length_app. simpl in *. lia.
  - split; [|done]. destruct n as [|[|n]]; [| |lia]; [by destruct older as [|x [|y []]]|].
    etrans; [symmetry; apply map_app|]. f_equal. exact (oldest_shift older).
Qed.

Lemma read_step_ok f gone older i bs past h h' todo t :
  follow_ok f gone older i bs → fo_poll f = Reading past (h :: h' :: todo) →
  follow_ok (set_poll (Reading (past ++ [read_handle h t (fo_state f)]) (h' :: todo)) f) gone older i bs.
Proof.
  intros [Hh Hw Hp Hpk] Hpoll. split; [done..|]. cbn [fo_poll set_poll fo_checkpoint fo_missed].
  rewrite Hpoll in Hpk. destruct Hpk as (before & vd & vt & x & after & l & E & -> & Et & Hl & Hc & Hs).
  destruct vt as [|y vt]; [done|]. simpl in Et. injection Et as -> Et.
  assert (∃ z after', vt ++ [x] = z :: after') as (z & after' & Ez).
  { destruct vt as [|z vt]; simpl; eauto. }
  assert (read_handle (closed y) t (fo_state f) = whole y) as ->.
  { apply (read_closed gone older i bs (fo_state f) (before ++ vd) y z (after' ++ after) t Hh).
    rewrite E. rewrite <- !(assoc_L (++)). simpl. do 3 f_equal.
    by rewrite app_comm_cons, <- Ez, <- (assoc_L (++)). }
  exists before, (vd ++ [y]), vt, x, after, l. split_and!; try done.
  - rewrite E. by rewrite <- !(assoc_L (++)).
  - by rewrite map_app.
Qed.

(** The window a poll has read, its last file [h] of length [l]. *)
Lemma window_visible gone older i bs s before vd x after l t :
  history gone older i bs s → gone ++ older ++ [(i, bs)] = before ++ (vd ++ [x]) ++ after →
  0 ≤ l → 10 ∉ t → len t < MAX_READ →
  visible (segments_of (vd ++ [x])) (if decide (x.1 = i) then t else [])
    (map whole vd ++ [read_handle (mkHandle x.1 l) t s]).
Proof.
  intros Hh E Hl Ht Hlt. pose proof (history_data _ _ _ _ _ Hh) as Hd.
  pose proof (segments_ids _ _ _ _ _ Hh) as Hn.
  assert (x ∈ gone ++ older ++ [(i, bs)]) as Hx by (rewrite E; set_solver).
  rewrite E in Hd, Hn. split.
  - unfold read_handle. cbn [h_inode h_length]. rewrite (holds_text _ _ _ _ _ _ t Hh Hx).
    clear -Hl. induction vd as [|y vd IH]; simpl; [by split_and!|].
    destruct vd; simpl in *; by split_and!.
  - by destruct vd.
  - rewrite !segments_app, !map_app in Hn. apply NoDup_app in Hn as (_ & _ & Hn).
    apply NoDup_app in Hn as (Hn & _). by rewrite segments_app, map_app.
  - apply Forall_app in Hd as [_ Hd]. apply Forall_app in Hd as [Hd _].
    apply Forall_map. eapply Forall_impl; [exact Hd|]. by intros y (_ & _ & ?).
  - case_decide; [done|]. split; [apply not_elem_of_nil|done].
Qed.

Lemma finish_step_ok f gone older i bs past h t r :
  follow_ok f gone older i bs → fo_poll f = Reading past [h] → 10 ∉ t → len t < MAX_READ →
  read_batch (past ++ [read_handle h t (fo_state f)]) (fo_checkpoint f) = Some r → gap r = false →
  follow_ok (mkFollow (fo_state f) (fo_written f) Resting (Some (checkpoint r))
    (fo_read f ++ batches r) (fo_missed f)) gone older i bs.
Proof.
  intros [Hh Hw Hp Hpk] Hpoll Ht Hlt Hr Hg. split; [done..| |done]. cbn [fo_checkpoint fo_written fo_missed fo_read].
  rewrite Hpoll in Hpk. destruct Hpk as (before & vd & vt & x & after & l & E & -> & Et & Hl & Hc & Hs).
  destruct vt as [|y [|]]; [|done..]. injection Et as ->. simpl in E.
  pose proof (window_visible _ _ _ _ _ _ _ _ _ l t Hh E Hl Ht Hlt) as Hv.
  set (files := map whole vd ++ _) in *. set (view := segments_of (vd ++ [x])) in *.
  pose proof (segments_ids _ _ _ _ _ Hh) as Hn. rewrite E in Hn, Hp, Hw |- *.
  rewrite !segments_app, <- segments_app in Hn, Hp |- *. fold view in Hn, Hp |- *.
  assert (∃ rv, unread view files (fo_checkpoint f) rv ∧
    fo_written f = fo_missed f ++ fo_read f ++ rv ++ batches_of after) as (rv & Hu & Hwr).
  { destruct (fo_checkpoint f) as [c|]; simpl in Hp |- *.
    - destruct Hp as (rest & Hwr & Ha). pose proof (vi_shows _ _ _ Hv) as Hshows.
      destruct (decide (identity c ∈ map sg_id view)) as [Hin|Hout];
        [|by rewrite (read_batch_lost _ _ _ _ _ Hshows Hout Hr) in Hg].
      destruct (ahead_window _ _ _ _ _ Hn Ha Hin) as (rv & Hrv & ->). rewrite segments_batches in Hwr.
      exists rv. split; [split; [done|]|done]. intros g Hgf Hi.
      apply elem_of_app in Hgf as [Hgf| ->%list_elem_of_singleton]; [|by apply (Hc c)].
      apply list_elem_of_fmap in Hgf as (y & -> & Hy). simpl in Hi |- *.
      apply (ahead_offset view c rv (mkSegment (inode_name y.1) y.2)); [apply Hv|done| |done].
      apply (list_elem_of_fmap_2 (λ x, mkSegment (inode_name x.1) x.2)). set_solver.
    - exists (concat (map sg_batches view)). split; [done|]. rewrite Hs, Hp, Hw by done.
      unfold view. by rewrite segments_batches, !batches_app. }
  destruct (read_batch_ahead _ _ _ _ _ Hv Hu) as (r' & later & Er & _ & -> & Ha & _).
  rewrite Hr in Er. injection Er as <-. exists (later ++ batches_of after).
  rewrite <- segments_batches. split; [by rewrite Hwr, <- segments_batches, !(assoc_L (++))|].
  by apply ahead_widen.
Qed.

Lemma follow_start_ok i : follow_ok (follow_start i) [] [] i [].
Proof.
  unfold follow_start. split; [|done..]. cbn [fo_state]. split; [split| |done|]; cbn.
  - done.
  - done.
  - constructor; [|done]. simpl. by rewrite data_insert.
  - constructor; [|done]. simpl. lia.
  - apply NoDup_singleton.
  - constructor; [|done]. by constructor.
  - done.
  - apply NoDup_singleton.
Qed.

Lemma follow_step_ok f f' gone older i bs :
  follow_ok f gone older i bs → follow_step f f' →
  ∃ gone' older' i' bs', follow_ok f' gone' older' i' bs'.
Proof.
  intros Hok [fs|b s' Hb Hroom Hr|Hp|n files name t Hp Hn|past h h' todo t Hp Ht Hl|past h t r Hp Ht Hl Hr Hg|].
  - exists gone, older, i, bs. destruct Hok as [[[]] ? ? ?]. by split.
  - by eapply append_step_ok.
  - exists gone, older, i, bs. pose proof (dropped_ok _ _ _ _ _ Hok) as Hd. destruct Hok as [Hh Hw Hpl _].
    split; [done..| |]; cbn [fo_checkpoint fo_missed fo_poll fo_written fo_read].
    + unfold missed. by destruct (fo_checkpoint f).
    + split; [done|]. intros Hc. unfold missed. by rewrite Hc.
  - exists gone, older, i, bs. by apply open_step_ok.
  - exists gone, older, i, bs. by apply read_step_ok.
  - exists gone, older, i, bs. by eapply finish_step_ok.
  - exists gone, older, i, bs. by destruct Hok.
Qed.

(** What a poll finds when the writer rests. *)
Lemma open_segments_ok gone older i bs s :
  history gone older i bs s →
  open_segments s = map whole (older ++ [(i, bs)]) ∧
  visible (segments_of (older ++ [(i, bs)])) [] (open_segments s).
Proof.
  intros Hh. assert (∀ x, x ∈ gone ++ older ++ [(i, bs)] →
    read_handle (mkHandle x.1 (len (holds x.1 [] s))) [] s = whole x) as Hf.
  { intros x Hx. unfold read_handle, whole. cbn [h_inode h_length].
    rewrite (holds_text _ _ _ _ _ _ [] Hh Hx). case_decide; by rewrite app_nil_r. }
  assert (open_segments s = map whole (older ++ [(i, bs)])) as E.
  { destruct (hi_disk _ _ _ _ _ Hh) as [Hn [Hp _] _ _ _ _].
    pose proof (Hf (i, bs) ltac:(set_solver)) as Hi.
    unfold open_segments, segment_names. rewrite Hp.
    destruct older as [|x [|y [|z older]]]; destruct Hn as [-> ->] || done;
      cbn [map concat app open_file fst] in *; rewrite Hi; [done|..].
    - by rewrite (Hf x) by set_solver.
    - by rewrite (Hf x), (Hf y) by set_solver. }
  split; [done|]. rewrite E.
  pose proof (window_visible gone older i bs s gone older (i, bs) [] (len (text bs)) [] Hh
    ltac:(by rewrite app_nil_r) ltac:(lia) (not_elem_of_nil _) ltac:(done)) as Hv.
  assert (map whole older ++ [read_handle (mkHandle i (len (text bs))) [] s] = map whole (older ++ [(i, bs)]))
    as Ef.
  { rewrite map_app. do 2 f_equal. unfold read_handle, whole. simpl. f_equal.
    pose proof (holds_text _ _ _ _ _ (i, bs) [] Hh ltac:(set_solver)) as H. simpl in H.
    rewrite H. case_decide; by rewrite app_nil_r. }
  simpl in Hv. rewrite Ef in Hv. by destruct (decide (i = i)).
Qed.

(** If the journal rotates between the opens of one poll, a whole segment may be passed
    over without a gap: here the reader is at the end of [y], has opened [path.2] and
    [path.1] before the rotation, and [path] after it; it gets none of [bs]. *)
Lemma racing_poll_skips gone x y i bs b s :
  history gone [x; y] i bs s → writable b → w_faults s.1 = [] → ROTATE_BYTES ≤ len (data i s.1) →
  ∃ s' r, append b s = (Ok tt, s') ∧
    read_batch
      (map (λ h, read_handle h [] s')
         (open_file (w_two s.1) [] s ++ open_file (w_one s.1) [] s ++ open_file (w_path s'.1) [] s'))
      (Some (mkCheckpoint (inode_name y.1) (len (text y.2)))) = Some r ∧
    gap r = false ∧ batches r = [b].
Proof.
  intros Hh Hb Hf Hl. destruct (history_rotate gone [x; y] i bs b s Hh Hb Hf Hl) as (s' & E & Hh').
  exists s'. set (n := w_next s.1) in *. cbn [oldest shift app] in Hh'.
  destruct (hi_disk _ _ _ _ _ Hh) as [[Htwo Hone] _ _ _ _ _].
  destruct (hi_disk _ _ _ _ _ Hh') as [_ [Hpath _] _ _ _ _].
  rewrite Htwo, Hone, Hpath.
  destruct (read_closed gone [x; y] i bs s gone x y [(i, bs)] [] Hh eq_refl) as [_ ->].
  destruct (read_closed gone [x; y] i bs s (gone ++ [x]) y (i, bs) [] [] Hh
    ltac:(by rewrite <- (assoc_L (++)))) as [_ ->].
  set (all := (gone ++ [x]) ++ [y; (i, bs)] ++ [(n, [b])]) in *.
  destruct (read_closed _ _ _ _ s' gone x y [(i, bs); (n, [b])] [] Hh'
    ltac:(by rewrite <- !(assoc_L (++)))) as [Hx _].
  destruct (read_closed _ _ _ _ s' (gone ++ [x]) y (i, bs) [(n, [b])] [] Hh' eq_refl) as [Hy _].
  pose proof (holds_text _ _ _ _ _ (n, [b]) [] Hh' ltac:(set_solver)) as Hn. cbn [fst snd] in Hn.
  rewrite decide_True, app_nil_r in Hn by done.
  cbn [map app open_file]. rewrite Hx, Hy, Hn.
  assert (visible (segments_of [x; y; (n, [b])]) []
    [whole x; whole y; read_handle (mkHandle n (len (text [b]))) [] s']) as Hv.
  { pose proof (history_data _ _ _ _ _ Hh') as Hd. pose proof (segments_ids _ _ _ _ _ Hh') as Hi.
    rewrite <- !(assoc_L (++)) in Hd, Hi. apply Forall_app in Hd as [_ Hd].
    rewrite segments_app, map_app in Hi. apply NoDup_app in Hi as (_ & _ & Hi). cbn in Hd, Hi.
    rewrite !Forall_cons in Hd. destruct Hd as ((_ & _ & D1) & (_ & _ & D2) & _ & (_ & _ & D3) & _).
    split; [|done| | |split; [apply not_elem_of_nil|done]].
    - cbn. unfold read_handle. cbn [h_inode h_length o_identity o_content o_length].
      rewrite Hn. split_and!; (done || lia || by rewrite app_nil_r).
    - cbn. apply NoDup_cons in Hi as [H1 Hi]. apply NoDup_cons in Hi as [H2 _].
      repeat (apply NoDup_cons; split; [set_solver|]). constructor.
    - do 3 (constructor; [done|]). constructor. }
  assert (unread (segments_of [x; y; (n, [b])])
    [whole x; whole y; read_handle (mkHandle n (len (text [b]))) [] s']
    (Some (mkCheckpoint (inode_name y.1) (len (text y.2)))) [b]) as Hu.
  { split.
    - exists (segments_of [x]), (mkSegment (inode_name y.1) y.2), (segments_of [(n, [b])]), y.2, [].
      split_and!; [done|by rewrite app_nil_r|done|done].
    - pose proof (vi_ids _ _ _ Hv) as Hi. cbn in Hi. apply NoDup_cons in Hi as [H1 Hi].
      apply NoDup_cons in Hi as [H2 _].
      intros f Hfin Hid. cbn in Hid. rewrite !elem_of_cons in Hfin.
      destruct Hfin as [->|[->|[->|[]%elem_of_nil]]]; cbn in Hid |- *; [set_solver|lia|set_solver]. }
  destruct (read_batch_ahead _ _ _ _ _ Hv Hu) as (r & later & Er & Hg & Hr & _ & _ & Hz).
  exists r. split_and!; [done..|]. destruct (batches r) as [|z []]; simpl in Hr; [|congruence..].
  by destruct (Hz eq_refl) as [-> _].
Qed.

(** C25. Whatever the writer appends and retries, however it rotates outside the opens of a
    poll, and however much of the next line the opens and the reads of a poll see, a reader
    whose polls report no gap has read every batch once and in order, except those that
    the journal had dropped before its first successful poll began: of what was written they are all
    but the batches in the files, which are the newest, and none as long as fewer than three
    files exist.  And as long as the segment of its checkpoint exists, polling on yields all
    the batches written since, without a gap, after at most one poll for each and one
    more. *)
Theorem reader_follows i f :
  rtc follow_step (follow_start i) f →
  fo_written f = dropped f ++ disk_batches (fo_state f).1 ∧
  (w_two (fo_state f).1 = None → dropped f = []) ∧
  ∃ rest, fo_written f = missed f ++ fo_read f ++ rest ∧
    ((∀ c, fo_checkpoint f = Some c →
        ∃ o, o ∈ open_segments (fo_state f) ∧ o_identity o = identity c) →
     collect (S (length rest)) (open_segments (fo_state f)) (fo_checkpoint f) = Some (rest, false)).
Proof.
  intros Hr.
  assert (∃ gone older i' bs, follow_ok f gone older i' bs) as (gone & older & i' & bs & Hok).
  { revert f Hr. apply rtc_ind_r; [by eexists _, _, _, _; apply follow_start_ok|].
    intros f f' _ Hs (gone & older & i' & bs & Hok). by eapply follow_step_ok. }
  pose proof (dropped_ok _ _ _ _ _ Hok) as Hdrop. pose proof Hok as [Hh Hw Hp _].
  rewrite (disk_batches_ok _ _ _ _ _ Hh), Hdrop, Hw, batches_app. split; [done|]. split.
  { intros Htwo. rewrite (hi_gone _ _ _ _ _ Hh); [done|]. pose proof (od_names _ _ _ _ (hi_disk _ _ _ _ _ Hh)).
    destruct older as [|x [|y [|]]]; simpl in *; [lia|lia|naive_solver..]. }
  destruct (open_segments_ok _ _ _ _ _ Hh) as [Efiles Hv].
  assert (∀ o, o ∈ open_segments (fo_state f) → o_length o = len (o_content o)) as Hlen.
  { rewrite Efiles. by intros o (x & -> & _)%list_elem_of_fmap. }
  rewrite <- batches_app. unfold missed. destruct (fo_checkpoint f) as [c|] eqn:Ec; simpl in Hp.
  - destruct Hp as (rest & Hwr & Ha). exists rest. split; [by rewrite <- Hw|]. intros Hc.
    destruct (Hc c eq_refl) as (o & Ho & Hi). eapply collect_drains; [done|done| |lia].
    rewrite segments_app in Ha.
    pose proof (segments_ids _ _ _ _ _ Hh) as Hn. rewrite segments_app in Hn.
    rewrite <- (app_nil_r (segments_of (older ++ [(i', bs)]))) in Ha, Hn.
    assert (identity c ∈ map sg_id (segments_of (older ++ [(i', bs)]))) as Hin.
    { rewrite Efiles in Ho. apply list_elem_of_fmap in Ho as (x & -> & Hx). rewrite <- Hi.
      unfold segments_of. rewrite map_map. by apply (list_elem_of_fmap_2 (λ x, inode_name x.1)). }
    destruct (ahead_window _ _ _ _ _ Hn Ha Hin) as (rv & Hrv & ->). rewrite app_nil_r.
    split; [done|]. intros g Hg Hgi. rewrite Hlen by done. destruct Hv as [Hs _ Hn' _ _].
    by eapply ahead_within.
  - exists (batches_of (older ++ [(i', bs)])). rewrite Hp, Hdrop. split; [by rewrite batches_app|].
    intros _. eapply collect_drains; [done|done| |lia]. simpl. by rewrite segments_batches.
Qed.

End follow.

(** ** What the counter hands over is what a reader accepts *)

Section accepted.
Context `{HL : HttpLibs} `{AL : ActivityLibs} `{L : JournalLibs}.

(** A request the gateway may count: a route identifier and host within the limits, a
    time the calendar knows, and a fingerprint of 64 hexadecimal digits. *)
Definition event_ok (e : Event) : Prop :=
  1 ≤ slen (ev_route e) ≤ 128 ∧ slen (ev_host e) ≤ 253 ∧ 0 ≤ ev_now e ∧ is_time (ev_now e) = true
  ∧ match ev_client e with
    | Some c => slen c = 64 ∧ all_bytes is_ascii_hexdigit c = true
    | None => True
    end.
Definition op_ok (o : activity_op) : Prop :=
  match o with Count e => event_ok e | Take id => is_uuid id = true end.

Lemma summarises_valid k es r :
  summarises k es r → Forall event_ok es → record_valid 2 r = true.
Proof.
  intros [Hk [Hr Hc] Hn (i & e & Hi & Ht & Hh & _) Hf] Hes. rewrite Forall_forall in Hk, Hes.
  assert (e ∈ es) as He by by eapply list_elem_of_lookup_2.
  pose proof (Hk e He) as Hke. destruct (Hes e He) as ((H1 & H2) & H3 & H4 & H5 & H6).
  assert (1 ≤ len es) by (destruct es; [by apply elem_of_nil in He|simpl; lia]).
  unfold record_valid. rewrite <- Hr, <- Hke, Ht, Hh. cbn [fst key_of].
  rewrite H5, Hn. unfold str_is_empty, I64_MAX.
  assert (match client r, first_timestamp r with
    | None, None => true
    | Some c, Some first => (2 =? 2) && (0 <? Z.min (len es) (2 ^ 63 - 1)) && (slen c =? 64)
        && all_bytes is_ascii_hexdigit c && (first <=? ev_now e)
        && (Z.min (ev_now e - first) (2 ^ 63 - 1) <? 60000) && is_time first
    | _, _ => false
    end = true) as Hm.
  { rewrite <- Hke in Hc. cbn [key_of snd] in Hc.
    destruct (client r) as [c|]; [|by rewrite Hf].
    destruct (ev_client e) as [c'|] eqn:Ec; [|done]. simpl in Hc. injection Hc as <-.
    destruct Hf as (f & Hfin & -> & Hmin). destruct H6 as [H6 ->].
    destruct (Hes f Hfin) as (_ & _ & _ & -> & _).
    specialize (Hk f Hfin). rewrite <- Hke in Hk. unfold key_of in Hk. rewrite Ec in Hk.
    specialize (Hmin e He).
    assert (ev_now f / 60000 = ev_now e / 60000).
    { destruct (ev_client f); simpl in Hk; congruence. }
    zlia. }
  rewrite Hm. lia.
Qed.

Lemma taken_shape ops :
  Forall op_ok ops →
  Forall (λ b, version b = 2 ∧ is_uuid (b_id b) = true ∧ (length (records b) ≤ MAX_RECORDS)%nat)
    (r_batches (run_ops ops)).
Proof.
  unfold run_ops. induction ops as [|o ops IH] using rev_ind; intros Ho; [by constructor|].
  apply Forall_app in Ho as [Ho Hl]. apply Forall_cons in Hl as [Hl _]. specialize (IH Ho).
  rewrite foldl_app. simpl. set (r := foldl _ _ _) in *. destruct o as [e|id]; simpl.
  - by case_match.
  - unfold take_batch. destruct (counts _) as [|x l]; cbn -[take]; [by rewrite app_nil_r|].
    apply Forall_app. split; [done|]. constructor; [|done]. split_and!; try done.
    cbn -[take]. rewrite length_map, length_take. lia.
Qed.

(** Every batch taken from the counter passes all checks of the journal's
    reader, whatever requests were counted: it has version 2, at most 512 records, and every
    record has a positive count and a first time less than a minute before its last. *)
Theorem taken_batches_valid ops :
  Forall op_ok ops → Forall (λ b, batch_valid b = true) (r_batches (run_ops ops)).
Proof.
  intros Ho. pose proof (taken_shape ops Ho) as Hs.
  assert (Forall event_ok (events_of ops)) as He.
  { unfold events_of. clear Hs. induction Ho as [|o ops Hok _ IH]; [done|].
    destruct o; simpl; [by constructor|done]. }
  destruct (run_ops_ok ops) as [[(segs & psegs & Hb & _ & Hc & Hsub) _ _ _] Hperm].
  { eapply Forall_impl; [exact He|]. intros e (_ & _ & H & _). done. }
  apply Forall_forall. intros b Hin. rewrite Forall_forall in Hs.
  destruct (Hs b Hin) as (Hv & Hu & Hn). unfold batch_valid. rewrite Hv, Hu.
  assert (forallb (record_valid 2) (records b) = true) as ->; [|simpl; lia].
  apply forallb_forall. intros x Hx%list_elem_of_In.
  assert (x ∈ concat (map records (r_batches (run_ops ops)))) as Hxin.
  { apply list_elem_of_In, in_concat. exists (records b).
    split; apply list_elem_of_In; [by apply list_elem_of_fmap_2|done]. }
  apply list_elem_of_lookup in Hxin as (n & Hxn).
  destruct (Forall2_lookup_r _ _ _ _ _ Hb Hxn) as (es & Hes & k & Hsum).
  eapply summarises_valid; [done|]. apply Forall_forall. intros e Hein.
  rewrite Forall_forall in He. apply He. rewrite <- Hperm. apply elem_of_app. left.
  rewrite Forall_forall in Hsub. eapply elem_of_submseteq; [exact Hein|].
  apply sublist_submseteq, Hsub, elem_of_app. left. by eapply list_elem_of_lookup_2.
Qed.

End accepted.

(** ** Concrete runs *)

Module Samples.
Import Journal.Samples.
#[local] Existing Instances Journal.Samples.libs Journal.Samples.libs_ok.

(** The reader opens the journal while the second batch is being written, and reads it
    when it is there. *)
Definition f0 : Follow := follow_start O.
Definition f1 : Follow := set_writer (retry O b1 (fo_state f0)).2 (fo_written f0 ++ [b1]) f0.
Definition f2 : Follow :=
  mkFollow (fo_state f1) (fo_written f1) (Opening 0 []) (fo_checkpoint f1) (fo_read f1) (missed f1).
Definition f3 : Follow := set_poll (Opening 1 ([] ++ [])) f2.
Definition f4 : Follow := set_poll (Opening 2 (([] ++ []) ++ [])) f3.
Definition opened : list Handle := (([] ++ []) ++ []) ++ open_file (Some O) [48; 48] (fo_state f4).
Definition f5 : Follow := set_poll (Reading [] opened) f4.
Definition f6 : Follow := set_writer (retry O b2 (fo_state f5)).2 (fo_written f5 ++ [b2]) f5.
Definition poll1 : Read :=
  default (mkRead (mkCheckpoint "" 0) [] true false)
    (read_batch ([] ++ [read_handle (default (mkHandle O 0) (head opened)) [48] (fo_state f6)]) None).
Definition f7 : Follow :=
  mkFollow (fo_state f6) (fo_written f6) Resting (Some (checkpoint poll1)) (fo_read f6 ++ batches poll1)
    (fo_missed f6).

Lemma writable_sample b : batch_valid b = true → (len (line b) <=? MAX_READ) = true → writable b.
Proof. intros H1 H2. split; [done|lia]. Qed.
Lemma append_sample f b :
  batch_valid b = true → (len (line b) <=? MAX_READ) = true → w_faults (fo_state f).1 = [] →
  (len (data (j_file (fo_state f).2) (fo_state f).1) <? ROTATE_BYTES) = true →
  (retry O b (fo_state f)).1 = Ok tt →
  follow_step f (set_writer (retry O b (fo_state f)).2 (fo_written f ++ [b]) f).
Proof.
  intros H1 H2 H3 H4 H5. apply f_append; [by apply writable_sample|left; lia|].
  unfold faults_left. rewrite H3. apply run_eq, H5.
Qed.
Lemma sample_follows : rtc follow_step f0 f7.
Proof.
  eapply rtc_l; [apply (append_sample f0 b1); by_vm|].
  eapply rtc_l; [apply (f_begin f1); reflexivity|].
  eapply rtc_l; [apply (f_open f2 0 [] None []); reflexivity|].
  eapply rtc_l; [apply (f_open f3 1 ([] ++ []) None []); reflexivity|].
  eapply rtc_l; [apply (f_open f4 2 (([] ++ []) ++ []) (Some O) [48; 48]); reflexivity|].
  eapply rtc_l; [apply (append_sample f5 b2); by_vm|]. apply rtc_once.
  apply (f_finish f6 [] (default (mkHandle O 0) (head opened)) [48] poll1);
    [reflexivity|set_solver by lia|done| |by_vm].
  unfold poll1. by_vm.
Qed.

Lemma reader_follows_witness :
  fo_read f7 = [b1; b2] ∧ dropped f7 = [] ∧ fo_written f7 = dropped f7 ++ disk_batches (fo_state f7).1.
Proof.
  destruct (reader_follows O f7 sample_follows) as (H & Hd & _).
  split; [by_vm|]. split; [by apply Hd|exact H].
Defined.

#[local] Existing Instances sample_http Activity.Samples.libs.
Definition counted : list activity_op :=
  [Count (mkEvent "a" "new.example" 30 None); Take "first"; Count (mkEvent "b" "b.example" 40 None);
   Take "second"].
Lemma taken_batches_valid_witness :
  len (r_batches (run_ops counted)) = 2
  ∧ Forall (λ b, batch_valid b = true) (r_batches (run_ops counted)).
Proof.
  split; [by_vm|]. apply taken_batches_valid. unfold counted, op_ok, event_ok.
  repeat (apply Forall_cons; split); try done; simpl; split_and!; first [lia | by_vm | done].
Defined.

End Samples.
