(* ===== verification/JournalRun.v ===== *)
(** * The journal task ([run] of [porthub-runtime/src/web_activity.rs])

    The task of the gateway that takes batches from the counter and appends them until it
    is told to stop.  Between two awaits requests go on being counted; what happens at
    the awaits of a round, and the identities it draws, is [RoundEnv]. *)

From S2P Require Import Prelude Net RustStr Http Activity Journal.
Local Open Scope string_scope.
Local Open Scope list_scope.
Local Open Scope Z_scope.

Section run.
Context `{HL : HttpLibs} `{AL : ActivityLibs} `{L : JournalLibs}.








End run.

(** ** Nothing counted is left behind *)

Section complete.
Context `{HL : HttpLibs} `{AL : ActivityLibs} {L : JournalLibs} {JL : JournalLibsOk L}.













End complete.

(** ** A concrete run *)

Module Samples.
#[local] Existing Instances sample_http Activity.Samples.libs Journal.Samples.libs
  Journal.Samples.libs_ok.


End Samples.
