(* ===== verification/FileNames.v ===== *)
(** * File names from the network ([porthub-transfer/src/download.rs], [upload.rs])

    A download is stored under a name the server suggests and an upload under a name the
    client sends.  [filename] makes the first one harmless on every platform, [safe_relative]
    and [safe_name] accept only paths that stay below their root.  Paths are those of a Unix
    build: [components] is [Path::components], a [PathBuf] of plain names is their list. *)

From S2P Require Import Prelude Net RustStr Text.
Local Open Scope string_scope.
Local Open Scope list_scope.
Local Open Scope Z_scope.

(** ** [std::str] and [std::path] *)

Definition upper (a : ascii) : ascii :=
  if is_ascii_lowercase (byte_of a) then ascii_of_N (N_of_ascii a - 32) else a.
Fixpoint to_ascii_uppercase (s : string) : string :=
  match s with
  | EmptyString => ""
  | String a s => String (upper a) (to_ascii_uppercase s)
  end.
(** [s.rsplit(f).next()] for a predicate on ASCII characters. *)
Fixpoint until (f : ascii → bool) (s : string) : string :=
  match s with
  | EmptyString => ""
  | String a s => if f a then "" else String a (until f s)
  end.
Definition last_field (f : ascii → bool) (s : string) : string := str_rev (until f (str_rev s)).
(** [s.split(c).next()] *)
Definition first_field (c : ascii) (s : string) : string := until (λ a, bool_decide (a = c)) s.

Inductive Component := RootDir | CurDir | ParentDir | Normal (name : string).
#[global] Instance component_eq_dec : EqDecision Component.
Proof. solve_decision. Defined.

(** A field between separators; a dot counts only at the start of a relative path. *)
Definition component (s : string) : option Component :=
  if str_is_empty s then None
  else if bool_decide (s = ".") then None
  else if bool_decide (s = "..") then Some ParentDir
  else Some (Normal s).
Definition is_absolute (s : string) : bool := str_starts_with "/" s.
Definition components (s : string) : list Component :=
  (if is_absolute s then [RootDir]
   else if bool_decide (head (split "/" s) = Some ".") then [CurDir] else [])
  ++ omap component (split "/" s).

(** [Path::file_stem] and [Path::extension] of a path of one name. *)
Definition file_stem (name : string) : string :=
  match rsplit_once "." name with
  | Some (before, _) => if str_is_empty before || bool_decide (name = "..") then name else before
  | None => name
  end.
Definition extension (name : string) : option string :=
  match rsplit_once "." name with
  | Some (before, after) =>
      if str_is_empty before || bool_decide (name = "..") then None else Some after
  | None => None
  end.

(** ** Libraries *)

(** [url::Url] and [percent_encoding]. *)
Class NameLibs := {
  Url : Type;
  path : Url → string;
  host_str : Url → option string;
  percent_decode_str : string → list Z;
}.
(** A decoded text is bytes; a serialised host is ASCII. *)
Class NameLibsOk (L : NameLibs) : Prop := {
  percent_decode_bytes s : bytes_ok (percent_decode_str s);
  host_ascii u h : host_str u = Some h → ascii_string h;
}.

(** ** The name in a [Content-Disposition] header *)

Definition quote : string := str_of_bytes [34].
Definition backslash : string := str_of_bytes [92].

Record Scan := mkScan {
  sc_parameters : list string; sc_current : string; sc_quoted : bool; sc_escaped : bool }.
Definition scan (st : Scan) (c : string) : Scan :=
  let '(mkScan parameters current quoted escaped) := st in
  if escaped then mkScan parameters (current +:+ c) quoted false
  else if quoted && bool_decide (c = backslash) then mkScan parameters (current +:+ c) quoted true
  else if bool_decide (c = quote) then mkScan parameters (current +:+ c) (negb quoted) escaped
  else if bool_decide (c = ";") && negb quoted then mkScan (parameters ++ [current]) "" quoted escaped
  else mkScan parameters (current +:+ c) quoted escaped.
Definition parameters (header : string) : list string :=
  let st := foldl scan (mkScan [] "" false false) (str_chars header) in
  sc_parameters st ++ [sc_current st].

(** The text of a quoted string, without its escapes. *)
Definition unescape (st : string * bool) (c : string) : string * bool :=
  let '(output, escaped) := st in
  if (escaped : bool) then (output +:+ c, false)
  else if bool_decide (c = backslash) then (output, true)
  else (output +:+ c, escaped).
(** [&value[1..value.len() - 1]] *)
Definition inside (value : string) : string :=
  match value with
  | String _ s => match str_rev s with String _ r => str_rev r | EmptyString => "" end
  | EmptyString => ""
  end.
Definition unquoted (value : string) : string :=
  if str_starts_with quote value && str_ends_with quote value && (2 <=? slen value)
  then (foldl unescape ("", false) (str_chars (inside value))).1
  else value.

Section names.
Context `{L : NameLibs}.

(** The value of [filename*], of the form [utf-8'lang'encoded]. *)
Definition extended (value : string) : option string :=
  '(charset, rest) ← split_once "'" value;
  if eq_ignore_ascii_case charset "utf-8" then
    '(_, encoded) ← split_once "'" rest;
    decoded ← from_utf8 (percent_decode_str encoded);
    if str_is_empty decoded then None else Some decoded
  else None.
Fixpoint find_filename (plain : option string) (ps : list string) : option string :=
  match ps with
  | [] => plain
  | parameter :: ps =>
      match split_once "=" (str_trim parameter) with
      | None => find_filename plain ps
      | Some (key, value) =>
          let value := unquoted (str_trim value) in
          if eq_ignore_ascii_case (str_trim key) "filename*" then
            match extended value with
            | Some decoded => Some decoded
            | None => find_filename plain ps
            end
          else if eq_ignore_ascii_case (str_trim key) "filename" && negb (str_is_empty value)
          then find_filename (Some value) ps
          else find_filename plain ps
      end
  end.
Definition disposition_filename (header : string) : option string :=
  find_filename None (drop 1 (parameters header)).

(** ** The name of a download *)

Definition is_slash (a : ascii) : bool := bool_decide (a = "/"%char).
Definition is_separator (a : ascii) : bool := is_slash a || (byte_of a =? 92).
Definition unsafe_chars : list string := map str_of_bytes [[60]; [62]; [58]; [34]; [124]; [63]; [42]; [47]; [92]].

Definition candidate (url : Url) (disposition : option string) : string :=
  match d ← disposition; disposition_filename d with
  | Some name => last_field is_separator (trim_end is_separator name)
  | None =>
      from_utf8_lossy (percent_decode_str (last_field is_slash (trim_end is_slash (path url))))
  end.
Definition harmless (c : string) : string :=
  if is_control (code_point c) || bool_decide (c ∈ unsafe_chars) then "_" else c.
Fixpoint sanitise (safe : string) (cs : list string) : string :=
  match cs with
  | [] => safe
  | c :: cs =>
      let c := harmless c in
      if 180 <? slen safe + slen c then safe else sanitise (safe +:+ c) cs
  end.
Definition is_dot (a : ascii) : bool := bool_decide (a = "."%char).
Definition is_dot_or_space (a : ascii) : bool := is_dot a || bool_decide (a = " "%char).
(** The device names of Windows. *)
Definition reserved (name : string) : bool :=
  let stem := to_ascii_uppercase (first_field "." name) in
  bool_decide (stem ∈ ["CON"; "PRN"; "AUX"; "NUL"])
  || (slen stem =? 4) && (str_starts_with "COM" stem || str_starts_with "LPT" stem)
     && match bytes_of stem with [_; _; _; d] => (49 <=? d) && (d <=? 57) | _ => false end.
Definition filename (url : Url) (disposition : option string) : string :=
  let safe := sanitise "" (str_chars (candidate url disposition)) in
  let safe := trim_end is_dot_or_space (trim_start is_dot safe) in
  if str_is_empty safe then "download.bin"
  else if reserved safe then "_" +:+ safe else safe.

(** The folder of a downloaded directory: at the root of a server, its host name. *)
Definition directory_name (url : Url) (suggested : string) : string :=
  let path_name := last_field is_slash (trim_end is_slash (path url)) in
  if negb (str_is_empty path_name) then suggested
  else
    let host := default "download" (host_str url) in
    let plain := String.concat "" (map (λ c, if bool_decide (c = quote) then "_" else c) (str_chars host)) in
    filename url (Some ("attachment; filename=" +:+ quote +:+ plain +:+ quote)).
End names.

(** ** Relative paths *)

Fixpoint all_normal (msg : string) (cs : list Component) : res (list string) :=
  match cs with
  | [] => Ok []
  | Normal name :: cs => let! clean := all_normal msg cs in Ok (name :: clean)
  | _ :: _ => Err msg
  end.
Definition has_byte (bad : list Z) (s : string) : bool := negb (all_bytes (λ b, bool_decide (b ∉ bad)) s).

(** [safe_relative] of a directory manifest *)
Definition safe_relative (value : string) : res (list string) :=
  ensure! negb (str_is_empty value) && negb (has_byte [92; 0] value)
    else "directory manifest contains an unsafe path" in
  ensure! negb (is_absolute value) else "directory manifest path must be relative" in
  let! clean := all_normal "directory manifest contains an unsafe path" (components value) in
  ensure! negb (bool_decide (clean = [])) else "directory manifest path is empty" in
  Ok clean.
(** [safe_name] of an upload *)
Definition safe_name (name : string) : res (list string) :=
  ensure! negb (str_is_empty name) && negb (is_absolute name) && negb (has_byte [92; 58; 0] name)
    else "upload name must be relative" in
  let! clean := all_normal "upload path contains an unsafe component" (components name) in
  ensure! negb (bool_decide (clean = [])) else "upload name is empty" in
  Ok clean.

(** [valid_id] of an upload session *)
Definition valid_id (id : string) : bool := (slen id =? 64) && all_bytes is_ascii_hexdigit id.

(** [content_range] *)
Definition content_range (value : string) : option (Z * Z * Z) :=
  rest ← strip_prefix "bytes " value;
  '(range, total) ← split_once "/" rest;
  '(start, end_) ← split_once "-" range;
  start ← parse_uint U64_MAX start;
  end_ ← parse_uint U64_MAX end_;
  total ← parse_uint U64_MAX total;
  Some (start, end_, total).

(** ** Lemmas on trimming and fields *)

Lemma ascii_string_app s t : ascii_string (s +:+ t) ↔ ascii_string s ∧ ascii_string t.
Proof. unfold ascii_string. by rewrite list_ascii_app, Forall_app. Qed.
Lemma list_ascii_rev s : String.list_ascii_of_string (str_rev s) = rev (String.list_ascii_of_string s).
Proof. unfold str_rev. apply String.list_ascii_of_string_of_list_ascii. Qed.

Definition all_ascii (f : ascii → bool) (s : string) : Prop :=
  Forall (λ a, f a = true) (String.list_ascii_of_string s).
Lemma all_ascii_rev f s : all_ascii f s → all_ascii f (str_rev s).
Proof. unfold all_ascii. rewrite list_ascii_rev. by intros H%Forall_rev. Qed.

Lemma trim_start_spec f s : ∃ p, s = p +:+ trim_start f s ∧ all_ascii f p.
Proof.
  induction s as [|a s (p & E & Hp)]; simpl; [by exists ""; split; [|constructor]|].
  destruct (f a) eqn:Ea; [|by exists ""; split; [|constructor]].
  exists (String a p). split; [|by constructor]. exact (f_equal (String a) E).
Qed.
Lemma trim_start_head f s a r : trim_start f s = String a r → f a = false.
Proof.
  induction s as [|b s IH]; simpl; [done|]. destruct (f b) eqn:Eb; [done|]. by intros [= <- <-].
Qed.
Lemma trim_end_spec f s : ∃ q, s = trim_end f s +:+ q ∧ all_ascii f q.
Proof.
  destruct (trim_start_spec f (str_rev s)) as (p & E & Hp). exists (str_rev p). split.
  - unfold trim_end. by rewrite <- str_rev_app, <- E, str_rev_involutive.
  - by apply all_ascii_rev.
Qed.
Lemma trim_end_last f s r a : trim_end f s = r +:+ String a "" → f a = false.
Proof.
  unfold trim_end. intros H%(f_equal str_rev). rewrite str_rev_involutive, str_rev_app in H.
  by eapply (trim_start_head f (str_rev s)), H.
Qed.
Lemma until_spec f s : until f s = s ∨ ∃ a r, f a = true ∧ s = until f s +:+ String a r.
Proof.
  induction s as [|b s IH]; simpl; [by left|]. destruct (f b) eqn:Eb; [by right; exists b, s|].
  destruct IH as [->|(a & r & Ha & E)]; [by left|]. right. exists a, r. split; [done|].
  exact (f_equal (String b) E).
Qed.
Lemma last_field_spec f s : last_field f s = s ∨ ∃ r a, f a = true ∧ s = r +:+ String a (last_field f s).
Proof.
  unfold last_field. destruct (until_spec f (str_rev s)) as [->|(a & r & Ha & E)].
  - left. apply str_rev_involutive.
  - right. exists (str_rev r), a. split; [done|]. apply (f_equal str_rev) in E.
    rewrite str_rev_involutive in E. rewrite E at 1. rewrite str_rev_app.
    change (String a r) with (String a "" +:+ r). rewrite str_rev_app, str_app_assoc. done.
Qed.
Lemma split_once_Some c s l r : split_once c s = Some (l, r) → s = l +:+ String c r.
Proof.
  revert l. induction s as [|a s IH]; intros l; simpl; [done|]. case_bool_decide as Ea.
  - intros [= <- <-]. by subst.
  - destruct (split_once c s) as [[l' r']|]; [|done]. intros [= <- ->].
    exact (f_equal (String a) (IH l' eq_refl)).
Qed.
Lemma utf8_after p a t : is_ascii a = true → utf8 (p +:+ String a t) → utf8 t.
Proof.
  intros Ha H. apply (utf8_cons a t Ha). unfold utf8, str_chars in *. rewrite chars_from_app in H.
  - simpl in H |- *. destruct (chars_from t) as [pd cs]. rewrite ascii_not_continuation in * by done.
    simpl in *. destruct H as [_ [_ H]%Forall_app]. done.
  - simpl. destruct (chars_from t) as [pd cs]. by rewrite ascii_not_continuation.
Qed.

(** ** The name a header gives is valid text *)

Lemma ascii_char_of s c : ascii_string s → c ∈ str_chars s → ascii_string c.
Proof.
  intros Hs. rewrite str_chars_ascii by done. intros (a & -> & Ha)%list_elem_of_fmap.
  constructor; [|constructor]. by apply (proj1 (Forall_forall _ _) Hs).
Qed.
Lemma ascii_chars_Forall s : ascii_string s → Forall ascii_string (str_chars s).
Proof. intros Hs. apply Forall_forall. intros c. by apply ascii_char_of. Qed.
Lemma ascii_between p s q : ascii_string (p +:+ (s +:+ q)) → ascii_string s.
Proof. by rewrite !ascii_string_app; intros (_ & ? & _). Qed.
Lemma ascii_trim s : ascii_string s → ascii_string (str_trim s).
Proof. destruct (str_trim_around s) as (p & q & E). rewrite E at 1. apply ascii_between. Qed.
Lemma ascii_split_once c s l r : ascii_string s → split_once c s = Some (l, r) →
  ascii_string l ∧ ascii_string r.
Proof.
  intros Hs ->%split_once_Some. apply ascii_string_app in Hs as [Hl Hr].
  by apply Forall_cons in Hr as [_ Hr].
Qed.
Lemma parameters_ascii header : ascii_string header → Forall ascii_string (parameters header).
Proof.
  intros H%ascii_chars_Forall. unfold parameters.
  assert (∀ st, Forall ascii_string (sc_parameters st) ∧ ascii_string (sc_current st) →
    let st' := foldl scan st (str_chars header) in
    Forall ascii_string (sc_parameters st') ∧ ascii_string (sc_current st')) as Hf.
  { induction H as [|c cs Hc Hcs IH]; intros st Hst; [done|]. apply IH.
    destruct st as [ps cur q e], Hst as [Hps Hcur]. unfold scan.
    repeat case_match; simpl in *;
      (split; [|first [by apply ascii_string_app|constructor]]; try done).
    apply Forall_app. split; [done|]. by apply Forall_singleton. }
  destruct (Hf (mkScan [] "" false false)) as [H1 H2]; [by split; constructor|].
  apply Forall_app. split; [done|]. by apply Forall_singleton.
Qed.
Lemma inside_ascii v : ascii_string v → ascii_string (inside v).
Proof.
  unfold inside. destruct v as [|a s]; [done|]. intros [_ Hs]%Forall_cons.
  destruct (str_rev s) as [|b r] eqn:E; [constructor|]. change (Forall _ _) with (ascii_string s) in Hs.
  rewrite <- (str_rev_involutive s), E in Hs. change (String b r) with (String b "" +:+ r) in Hs.
  rewrite str_rev_app in Hs. by apply ascii_string_app in Hs as [? _].
Qed.
Lemma unquoted_ascii v : ascii_string v → ascii_string (unquoted v).
Proof.
  intros Hv. unfold unquoted. destruct (_ && _); [|done].
  pose proof (ascii_chars_Forall _ (inside_ascii v Hv)) as H.
  assert (∀ st : string * bool, ascii_string st.1 →
    ascii_string (foldl unescape st (str_chars (inside v))).1) as Hf; [|by apply Hf; constructor].
  induction H as [|c cs Hc Hcs IH]; intros [o e] Ho; [done|]. apply IH. unfold unescape.
  repeat case_match; try done; by apply ascii_string_app.
Qed.

Section laws.
Context `{L : NameLibs} `{LO : !NameLibsOk L}.

Lemma disposition_utf8 header name :
  ascii_string header → disposition_filename header = Some name → utf8 name.
Proof.
  intros H%parameters_ascii. unfold disposition_filename.
  apply (Forall_drop _ 1) in H. revert H. generalize (drop 1 (parameters header)). intros ps Hps.
  assert (∀ plain, (∀ p, plain = Some p → ascii_string p) →
    find_filename plain ps = Some name → utf8 name) as Hf; [|by apply Hf].
  induction Hps as [|p ps Hp Hps IH]; intros plain Hpl; simpl.
  { intros ->. by apply ascii_utf8, Hpl. }
  destruct (split_once "=" (str_trim p)) as [[key value]|] eqn:E; [|by apply IH].
  apply ascii_split_once in E as [_ Hv%ascii_trim%unquoted_ascii]; [|by apply ascii_trim].
  destruct (eq_ignore_ascii_case (str_trim key) "filename*").
  - destruct (extended _) as [d|] eqn:Ed; [|by apply IH]. intros [= <-]. unfold extended in Ed.
    destruct (split_once "'" _) as [[? rest]|]; [|done]. cbn in Ed.
    destruct (eq_ignore_ascii_case _ _); [|done].
    destruct (split_once "'" rest) as [[? encoded]|]; [|done]. cbn in Ed.
    destruct (from_utf8 _) as [t|] eqn:Es; [|done]. cbn in Ed. destruct (str_is_empty t); [done|].
    injection Ed as <-. eapply from_utf8_utf8; [apply percent_decode_bytes|done].
  - destruct (_ && _); [|by apply IH]. apply IH. by intros ? [= <-].
Qed.

Lemma separator_ascii a : is_separator a = true → is_ascii a = true.
Proof.
  unfold is_separator, is_slash, is_ascii. case_bool_decide as E; [by subst|]. cbn [orb]. lia.
Qed.
Lemma candidate_utf8 url disposition :
  (∀ d, disposition = Some d → ascii_string d) → utf8 (candidate url disposition).
Proof.
  intros Hd. unfold candidate.
  destruct (d ← disposition; disposition_filename d) as [name|] eqn:E.
  2:{ apply from_utf8_lossy_utf8, percent_decode_bytes. }
  destruct disposition as [d|]; [|done]. cbn in E. apply disposition_utf8 in E; [|by apply Hd].
  destruct (trim_end_spec is_separator name) as (q & Eq & Hq).
  assert (utf8 (trim_end is_separator name)) as Ht.
  { rewrite Eq in E. apply utf8_take_ascii in E as [? _]; [done|].
    eapply Forall_impl; [exact Hq|]. apply separator_ascii. }
  destruct (last_field_spec is_separator (trim_end is_separator name)) as [->|(r & a & Ha & Er)]; [done|].
  rewrite Er in Ht. eapply utf8_after; [|exact Ht]. by apply separator_ascii.
Qed.

(** ** What [filename] promises *)

Definition plain_char (c : string) : Prop := is_control (code_point c) = false ∧ c ∉ unsafe_chars.
Lemma harmless_plain c : valid_char c → plain_char (harmless c) ∧ valid_char (harmless c).
Proof.
  intros Hc. unfold harmless.
  destruct (is_control (code_point c)) eqn:E; cbn [orb].
  - split; [|by apply ascii_char]. split; [done|]. by apply (bool_decide_unpack _).
  - case_bool_decide as Eu; [|by split].
    split; [|by apply ascii_char]. split; [done|]. by apply (bool_decide_unpack _).
Qed.
Definition plain_text (s : string) : Prop := utf8 s ∧ Forall plain_char (str_chars s).
Lemma sanitise_plain cs : ∀ safe, Forall valid_char cs → plain_text safe → slen safe ≤ 180 →
  plain_text (sanitise safe cs) ∧ slen (sanitise safe cs) ≤ 180.
Proof.
  induction cs as [|c cs IH]; intros safe Hcs [Hu Hp] Hs; [done|]. apply Forall_cons in Hcs as [Hc Hcs].
  simpl. destruct (180 <? _) eqn:El; [done|]. destruct (harmless_plain c Hc) as [Hh Hv].
  apply IH; [done| |rewrite slen_app; lia].
  destruct (utf8_concat [harmless c]) as [Hu' Ec]; [by apply Forall_singleton|]. simpl in Hu', Ec.
  destruct (utf8_app safe (harmless c) Hu Hu') as [? Ea]. split; [done|]. rewrite Ea, Ec.
  apply Forall_app. split; [done|]. by apply Forall_singleton.
Qed.
Lemma plain_trim f s : (∀ a, f a = true → is_ascii a = true) → plain_text s →
  plain_text (trim_start f s) ∧ plain_text (trim_end f s).
Proof.
  intros Hf [Hu Hp]. split.
  - destruct (trim_start_spec f s) as (p & E & Hq). rewrite E in Hu, Hp.
    apply utf8_drop_ascii in Hu as [? Ea]; [|by eapply Forall_impl].
    rewrite Ea in Hp. apply Forall_app in Hp as [_ ?]. done.
  - destruct (trim_end_spec f s) as (q & E & Hq). rewrite E in Hu, Hp.
    apply utf8_take_ascii in Hu as [? Ea]; [|by eapply Forall_impl].
    rewrite Ea in Hp. apply Forall_app in Hp as [? _]. done.
Qed.
Lemma dot_ascii a : is_dot_or_space a = true → is_ascii a = true.
Proof. unfold is_dot_or_space, is_dot. repeat case_bool_decide; subst; done. Qed.

Definition str_tail (s : string) : string := match s with String _ r => r | EmptyString => "" end.
(** A name that is one visible file on Unix and on Windows. *)
Record safe_file_name (s : string) : Prop := {
  sf_nonempty : s ≠ "";
  sf_length : slen s ≤ 181;
  sf_text : plain_text s;
  sf_hidden r : s ≠ String "." r;
  sf_dot r : s ≠ r +:+ ".";
  sf_space r : s ≠ r +:+ " ";
  sf_reserved : reserved s = false }.

Lemma reserved_underscore s : reserved ("_" +:+ s) = false.
Proof.
  unfold reserved. change (to_ascii_uppercase (first_field "." ("_" +:+ s)))
    with (String "_" (to_ascii_uppercase (first_field "." s))).
  rewrite bool_decide_false by set_solver. simpl. by rewrite andb_false_r.
Qed.
Lemma plain_underscore s : plain_text s → plain_text ("_" +:+ s).
Proof.
  intros [Hu Hp]. destruct (utf8_app "_" s (ascii_utf8 "_" ltac:(by repeat constructor)) Hu) as [? E].
  split; [done|]. rewrite E. apply Forall_app. split; [|done].
  apply (bool_decide_unpack _). vm_compute. exact I.
Qed.
Lemma filename_spec url disposition :
  (∀ d, disposition = Some d → ascii_string d) → safe_file_name (filename url disposition).
Proof.
  intros Hd. destruct (candidate_utf8 url disposition Hd) as [_ Hc]. unfold filename.
  destruct (sanitise_plain _ "" Hc) as [Ht Hl]; [split; [exact utf8_empty|constructor]|done|].
  set (t := sanitise "" _) in *. clearbody t.
  apply (plain_trim is_dot) in Ht as [Ht _].
  2:{ intros a Ha. apply dot_ascii. unfold is_dot_or_space. by rewrite Ha. }
  apply (plain_trim is_dot_or_space) in Ht as [_ Ht]; [|exact dot_ascii].
  destruct (trim_start_spec is_dot t) as (p & Ep & _), (trim_end_spec is_dot_or_space (trim_start is_dot t)) as (q & Eq & _).
  pose proof (trim_start_head is_dot t) as Hhead.
  pose proof (trim_end_last is_dot_or_space (trim_start is_dot t)) as Hlast.
  set (u := trim_start is_dot t) in *. set (v := trim_end is_dot_or_space u) in *.
  assert (slen v ≤ 180) as Hv.
  { apply (f_equal slen) in Ep, Eq. rewrite slen_app in Ep, Eq. unfold slen in *. lia. }
  clearbody v u. destruct (str_is_empty v) eqn:En.
  { split; try done; try (apply (bool_decide_unpack _); vm_compute; exact I).
    - split; [apply ascii_utf8|]; apply (bool_decide_unpack _); vm_compute; exact I.
    - intros r Er%(f_equal str_rev). by rewrite str_rev_app in Er.
    - intros r Er%(f_equal str_rev). by rewrite str_rev_app in Er. }
  assert (v ≠ "") as Hne by (by intros ->).
  assert (∀ w, v = w ∨ "_" +:+ v = w → ∀ r a, w = r +:+ String a "" → is_dot_or_space a = false) as Hend.
  { intros w Hw r a E. destruct Hw as [<-|<-]; [exact (Hlast _ _ E)|].
    destruct r as [|b r]; [|apply (f_equal str_tail) in E; exact (Hlast _ _ E)].
    by injection E as _ E. }
  destruct (reserved v) eqn:Er.
  - split; [done|rewrite slen_app; change (slen "_") with 1; lia|by apply plain_underscore|
      intros r E; discriminate E| | |apply reserved_underscore].
    + intros r E. by apply (Hend _ (or_intror eq_refl)) in E.
    + intros r E. by apply (Hend _ (or_intror eq_refl)) in E.
  - split; [done|lia|done| | | |done].
    + intros r ->. change (String "." r +:+ q) with (String "." (r +:+ q)) in Eq.
      by apply Hhead in Eq.
    + intros r E. by apply (Hend _ (or_introl eq_refl)) in E.
    + intros r E. by apply (Hend _ (or_introl eq_refl)) in E.
Qed.
End laws.

(** ** Relative paths stay below their root *)

(** Where a path leads from a folder, without symbolic links. *)
Fixpoint resolve (root : list string) (cs : list Component) : list string :=
  match cs with
  | [] => root
  | RootDir :: cs => resolve [] cs
  | CurDir :: cs => resolve root cs
  | ParentDir :: cs => resolve (removelast root) cs
  | Normal name :: cs => resolve (root ++ [name]) cs
  end.
Definition single (name : string) : Prop :=
  name ≠ "" ∧ name ≠ "." ∧ name ≠ ".." ∧ str_contains "/" name = false.

Lemma split_fields c s : Forall (λ f, str_contains c f = false) (split c s).
Proof.
  induction s as [|a s IH]; simpl; [by constructor|]. case_bool_decide as Ea; [by constructor|].
  destruct (split c s) as [|f fs]; [constructor; [|done]|apply Forall_cons in IH as [H IH]; constructor; [|done]];
    simpl; by rewrite bool_decide_false.
Qed.
Lemma component_normal s name : component s = Some (Normal name) → name = s ∧ s ≠ "" ∧ s ≠ "." ∧ s ≠ "..".
Proof.
  unfold component. destruct (str_is_empty s) eqn:E; [done|]. repeat case_bool_decide; try done.
  intros [= <-]. split_and!; try done. by intros ->.
Qed.
Lemma all_normal_spec msg cs p : all_normal msg cs = Ok p → cs = map Normal p.
Proof.
  revert p. induction cs as [|[| | |n] cs IH]; intros p; simpl; try done; [by intros [= <-]|].
  destruct (all_normal msg cs) as [q| |]; try done. intros [= <-]. by rewrite (IH q).
Qed.
Lemma all_normal_map msg p : all_normal msg (map Normal p) = Ok p.
Proof. induction p as [|n p IH]; simpl; [done|]. by rewrite IH. Qed.
Lemma resolve_normal root p : resolve root (map Normal p) = root ++ p.
Proof.
  revert root. induction p as [|n p IH]; intros root; simpl; [by rewrite app_nil_r|].
  rewrite IH. by rewrite <- app_assoc.
Qed.
Lemma normal_single s p : components s = map Normal p → Forall single p.
Proof.
  unfold components. intros E.
  assert (omap component (split "/" s) = map Normal p) as E'.
  { destruct (is_absolute s); [by destruct p|]. case_bool_decide; [by destruct p|]. done. }
  clear E. pose proof (split_fields "/" s) as Hf. revert p E'.
  induction Hf as [|f fs Hf Hfs IH]; intros p; simpl; [by destruct p|].
  destruct (component f) as [c|] eqn:Ec; [|by apply IH]. destruct p as [|n p]; [done|].
  cbn [map]. intros [= -> E]. apply component_normal in Ec as (-> & ? & ? & ?).
  constructor; [by split_and!|]. by apply IH.
Qed.
Lemma component_single n : single n → component n = Some (Normal n).
Proof.
  intros (H1 & H2 & H3 & _). unfold component. destruct (str_is_empty n) eqn:E; [by destruct n|].
  by rewrite !bool_decide_false.
Qed.
Lemma components_join p : Forall single p → p ≠ [] → components (join "/" p) = map Normal p.
Proof.
  intros Hp Hne. unfold components. rewrite (split_join "/"); [| |done].
  2:{ eapply Forall_impl; [exact Hp|]. by intros n (_ & _ & _ & ?). }
  assert (is_absolute (join "/" p) = false) as ->.
  { unfold is_absolute. destruct p as [|[|a n] p]; [done|by apply Forall_cons in Hp as [[? _] _]|].
    apply Forall_cons in Hp as [(_ & _ & _ & Hn) _]. simpl in Hn. apply orb_false_iff in Hn as [Ha _].
    destruct (str_starts_with "/" _) eqn:E; [|done]. apply str_starts_with_spec in E as [r E].
    assert (a = "/"%char) as ->; [|by case_bool_decide].
    destruct p; simpl in E; by injection E. }
  rewrite bool_decide_false; [|destruct p as [|n p]; [done|]; apply Forall_cons in Hp as [(_ & H & _) _]; intros [= ->]; done].
  simpl. clear Hne. induction Hp as [|n p Hn Hp IH]; [done|]. simpl. rewrite component_single by done.
  by f_equal.
Qed.

Lemma components_confined msg value p root : all_normal msg (components value) = Ok p →
  Forall single p ∧ resolve root (components value) = root ++ p.
Proof.
  intros H%all_normal_spec. split; [by eapply normal_single|]. by rewrite H, resolve_normal.
Qed.
Lemma safe_name_inv name p : safe_name name = Ok p →
  p ≠ [] ∧ has_byte [92; 58; 0] name = false ∧
  all_normal "upload path contains an unsafe component" (components name) = Ok p.
Proof.
  unfold safe_name. intros H. res_inv. apply negb_true_iff, bool_decide_eq_false in E1.
  apply andb_true_iff in E as [_ E%negb_true_iff]. done.
Qed.
Lemma safe_relative_inv value p : safe_relative value = Ok p →
  p ≠ [] ∧ has_byte [92; 0] value = false ∧
  all_normal "directory manifest contains an unsafe path" (components value) = Ok p.
Proof.
  unfold safe_relative. intros H. res_inv. apply negb_true_iff, bool_decide_eq_false in E2.
  apply andb_true_iff in E as [_ E%negb_true_iff]. done.
Qed.
(** The wire form of a plain path is accepted and means that path. *)
Lemma safe_name_join p : p ≠ [] → Forall single p → has_byte [92; 58; 0] (join "/" p) = false →
  safe_name (join "/" p) = Ok p.
Proof.
  intros Hne Hp Hb. unfold safe_name. rewrite components_join, all_normal_map, Hb by done.
  pose proof (components_join p Hp Hne) as Hc.
  assert (is_absolute (join "/" p) = false) as ->.
  { unfold components in Hc. destruct (is_absolute _); [|done]. by destruct p. }
  assert (str_is_empty (join "/" p) = false) as ->.
  { destruct (str_is_empty (join "/" p)) eqn:E; [|done]. unfold str_is_empty, slen in E.
    destruct (join "/" p); [by destruct p|]. simpl in E. lia. }
  simpl. by rewrite bool_decide_false.
Qed.

(** ** The theorems *)

(** C27. Whatever a server suggests, in its URL or its [Content-Disposition] header, the name
    of a download is one visible file on every platform: not empty, at most 181 bytes, valid
    text without control characters, separators or the characters Windows refuses, not
    hidden, not ending in a dot or a space, not a device name. *)
Theorem download_name_safe `{L : NameLibs} `{LO : !NameLibsOk L} url disposition :
  (∀ d, disposition = Some d → ascii_string d) → safe_file_name (filename url disposition).
Proof. apply filename_spec. Qed.

(** A path of a directory manifest and the name of an upload are accepted only when they
    are plain names one below the other, so they lead from any root to a path below it. *)
Theorem paths_confined value p root :
  safe_relative value = Ok p ∨ safe_name value = Ok p →
  p ≠ [] ∧ Forall single p ∧ resolve root (components value) = root ++ p.
Proof.
  intros [(? & _ & H)%safe_relative_inv|(? & _ & H)%safe_name_inv];
    by destruct (components_confined _ _ _ root H).
Qed.

(** ** Examples *)

(** URLs as their path; percent decoding of nothing. *)
#[global] Instance sample_name_libs : NameLibs := {
  Url := string; path u := u; host_str u := None; percent_decode_str s := bytes_of s }.
#[global] Instance sample_name_libs_ok : NameLibsOk sample_name_libs.
Proof.
  split; [|done]. intros s. apply Forall_map, Forall_forall. intros a _. simpl.
  pose proof (N_ascii_bounded a). unfold u8. lia.
Qed.

Definition sample_disposition : string :=
  "attachment; filename=" +:+ quote +:+ "../..\.ssh/COM1.txt. " +:+ quote.
Example suggested_name : filename "/files/x" (Some sample_disposition) = "_COM1.txt".
Proof. by_vm. Qed.
Example extended_name :
  filename "/x" (Some "inline; filename=a;filename*=UTF-8'en'b:c") = "b_c".
Proof. by_vm. Qed.
Example url_name : filename "/files/.bashrc/" None = "bashrc".
Proof. by_vm. Qed.
Example absolute_refused : is_err (safe_relative "/etc/passwd") = true ∧ is_err (safe_name "a/../b") = true.
Proof. split; by_vm. Qed.

Lemma download_name_safe_witness :
  filename "/files/x" (Some sample_disposition) = "_COM1.txt" ∧
  safe_file_name (filename "/files/x" (Some sample_disposition)).
Proof.
  split; [by_vm|]. apply download_name_safe. intros d [= <-].
  apply (bool_decide_unpack _). vm_compute. exact I.
Defined.
Lemma paths_confined_witness :
  safe_relative "a/./b.txt" = Ok ["a"; "b.txt"] ∧
  ["srv"] ++ ["a"; "b.txt"] = resolve ["srv"] (components "a/./b.txt").
Proof.
  assert (safe_relative "a/./b.txt" = Ok ["a"; "b.txt"]) as H by (vm_compute; reflexivity).
  split; [exact H|].
  destruct (paths_confined "a/./b.txt" ["a"; "b.txt"] ["srv"] (or_introl H)) as (_ & _ & E). by rewrite E.
Defined.
