(* ===== verification/Download.v ===== *)
(** * Resumable downloads ([porthub-transfer/src/download.rs])

    The data of a download and its functions: the probe, the plan a checkpoint leads to, one
    range request ([piece_run]), one plain request ([single]), the checksum.  A request is a
    function of the server's reply; what it does to the partial file and to the coordinator
    is the list of its effects, in order, so that [DownloadRun] can stop it anywhere and
    interleave it with others.  A reply is its status, its headers that are text, and its
    body as the chunks arrive; the end of the list is the end of the body. *)

From S2P Require Import Prelude Net RustStr Text FileNames.
Local Open Scope string_scope.
Local Open Scope list_scope.
Local Open Scope Z_scope.

Definition MANIFEST_VERSION : string := "1".

Section download.
Context `{L : NameLibs}.

Inductive Event := Data (bytes : list Z) | Broken.
Record Reply := mkReply {
  r_status : Z; r_header : string → option string; r_length : option Z; r_url : Url;
  r_body : list Event }.
(** The range asked for, and the validator in [If-Range]. *)
Record Request := mkRequest { q_start : Z; q_end : Z; q_if_range : option string }.

Record Options := mkOptions { connections : Z; piece_size : Z; sha256 : option string }.
Record Remote := mkRemote {
  size : option Z; ranges : bool; etag : option string; modified : option string;
  name : string; directory : bool; resolved_url : Url }.
Record Checkpoint := mkCheckpoint {
  cp_version : Z; cp_url : string; cp_size : option Z; cp_etag : option string;
  cp_modified : option string; cp_piece_size : Z; cp_complete : list bool }.

(** ** The probe *)

Definition not_encoded (r : Reply) : bool :=
  match r_header r "content-encoding" with
  | Some value => eq_ignore_ascii_case value "identity"
  | None => true
  end.
(** The body of the probe: one byte. *)
Fixpoint probe_body (total : Z) (body : list Event) : res unit :=
  match body with
  | [] => ensure (total =? 1) "invalid probe response length"
  | Broken :: _ => Err "connection closed before message completed"
  | Data bytes :: body =>
      let total := total + len bytes in
      ensure! total <=? 1 else "invalid probe response length" in
      probe_body total body
  end.
Definition probe_size (r : Reply) : res (option Z * bool) :=
  if r_status r =? 206 then
    let! '(start, end_, total) :=
      ok_or (range ← r_header r "content-range"; content_range range) "invalid probe Content-Range" in
    ensure! (start =? 0) && (end_ =? 0) && (0 <? total) else "server returned the wrong probe range" in
    Ok (Some total, true)
  else if r_status r =? 200 then Ok (r_length r, false)
  else if (r_status r =? 416) && bool_decide (r_header r "content-range" = Some "bytes */0") then
    Ok (Some 0, false)
  else Err "download probe returned HTTP status".
Definition probe (reply : res Reply) : res Remote :=
  let! r := reply in
  ensure! not_encoded r else "server encoded a byte-range response" in
  let etag := match r_header r "etag" with
              | Some e => if str_starts_with "W/" e then None else Some e
              | None => None
              end in
  let name := filename (r_url r) (r_header r "content-disposition") in
  let directory := bool_decide (r_header r "x-porthub-directory" = Some "1")
    || bool_decide (r_header r "x-porthub-manifest-version" = Some MANIFEST_VERSION) in
  let! '(size, ranges) := probe_size r in
  let! _ := (if ranges then probe_body 0 (r_body r) else Ok tt) in
  Ok (mkRemote size ranges etag (r_header r "last-modified") name directory (r_url r)).

(** ** The destination *)

Definition sidecar (target suffix : string) : string := target +:+ suffix.
Definition numbered (name : string) (index : Z) : string :=
  if index =? 0 then name
  else file_stem name +:+ "." +:+ show_u128 index
       +:+ match extension name with Some ext => "." +:+ ext | None => "" end.
(** [try_exists] of the names in the folder and the checkpoint a control file holds are
    arguments; [fuel] counts the names left of the ten thousand. *)
Fixpoint destination_from (try_exists : string → res bool) (checkpoint : string → option Checkpoint)
    (name url : string) (fuel : nat) (index : Z) : res string :=
  match fuel with
  | O => Err "cannot choose an unused destination filename"
  | S fuel =>
      let next := destination_from try_exists checkpoint name url fuel (index + 1) in
      let target := numbered name index in
      let! taken := try_exists target in
      if (taken : bool) then next
      else
        let part := sidecar target ".porthub-part" in
        let control := sidecar target ".porthub-part.json" in
        let! part_exists := try_exists part in
        let! control_exists := (if (part_exists : bool) then Ok true else try_exists control) in
        if negb control_exists then Ok target
        else match checkpoint control with
             | Some cp => if bool_decide (cp_url cp = url) then Ok target else next
             | None => next
             end
  end.
Definition destination try_exists checkpoint (name url : string) : res string :=
  destination_from try_exists checkpoint name url (Z.to_nat 10000) 0.

(** ** The plan *)

Definition has_validator (remote : Remote) : bool :=
  bool_decide (is_Some (etag remote)) || bool_decide (is_Some (modified remote)).
(** Ranges are used. *)
Definition parallel (remote : Remote) : bool :=
  ranges remote && negb (default 0 (size remote) =? 0) && has_validator remote.

(** The checkpoint of an earlier run that this one continues. *)
Definition usable (url : string) (remote : Remote) (part_len : option Z) (state : Checkpoint) : bool :=
  let size' := default 0 (size remote) in
  (cp_version state =? 1) && bool_decide (cp_url state = url)
  && bool_decide (cp_size state = size remote) && bool_decide (cp_etag state = etag remote)
  && bool_decide (cp_modified state = modified remote) && ranges remote && (0 <? size')
  && (0 <? cp_piece_size state) && (len (cp_complete state) <=? 4096)
  && (len (cp_complete state) =? div_ceil size' (cp_piece_size state))
  && has_validator remote && bool_decide (part_len = Some size').
Definition prepare (o : Options) (url : string) (remote : Remote) (control : option Checkpoint)
    (part_len : option Z) : Checkpoint :=
  let size' := default 0 (size remote) in
  let piece := Z.max (Z.max (piece_size o) (div_ceil size' 4096)) 1 in
  let pieces := if ranges remote then div_ceil size' piece else 0 in
  let fresh := mkCheckpoint 1 url (size remote) (etag remote) (modified remote) piece
                 (replicate (Z.to_nat pieces) false) in
  match control with
  | Some state => if usable url remote part_len state then state else fresh
  | None => fresh
  end.

(** The pieces left, and their runs. *)
Fixpoint missing_from (i : Z) (complete : list bool) : list Z :=
  match complete with
  | [] => []
  | done :: complete =>
      if (done : bool) then missing_from (i + 1) complete else i :: missing_from (i + 1) complete
  end.
Definition missing (complete : list bool) : list Z := missing_from 0 complete.

Definition saturating_add (a b : Z) : Z := Z.min U64_MAX (a + b).
Definition add_to_runs (limit : Z) (runs : list (Z * Z)) (index : Z) : list (Z * Z) :=
  match last runs with
  | Some (first, last) =>
      if (index =? saturating_add last 1) && (last - first + 1 <? limit)
      then removelast runs ++ [(first, index)] else runs ++ [(index, index)]
  | None => runs ++ [(index, index)]
  end.
Definition run_limit (pending : list Z) (connections : Z) : Z :=
  Z.max (div_ceil (len pending) (Z.max connections 1)) 1.
Definition contiguous_runs (pending : list Z) (connections : Z) : list (Z * Z) :=
  foldl (add_to_runs (run_limit pending connections)) [] pending.

(** ** Requests and their effects *)

Inductive Effect :=
  | Truncate
  | Write (offset : Z) (bytes : list Z)
  (** [work.received.fetch_add] *)
  | Count (n : Z)
  (** [flush] and [sync_data] *)
  | Sync
  (** [completed.send(index)]; then [committed] is [boundary] *)
  | Send (index boundary : Z).

Definition Out (A : Type) : Type := list Effect * res A.
Definition ret {A} (a : A) : Out A := ([], Ok a).
Definition emit (e : Effect) : Out unit := ([e], Ok tt).
Definition olift {A} (r : res A) : Out A := ([], r).
Definition obind {A B} (c : Out A) (k : A → Out B) : Out B :=
  match c with
  | (es, Ok a) => let '(es', r) := k a in (es ++ es', r)
  | (es, Err e) => (es, Err e)
  | (es, Panic) => (es, Panic)
  end.
End download.

Notation "'let>' x := c 'in' k" := (obind c (λ x, k))
  (at level 200, x name, c at level 100, k at level 200) : porthub_scope.
Notation "'let>' ' p := c 'in' k" := (obind c (λ p, k))
  (at level 200, p strict pattern, c at level 100, k at level 200) : porthub_scope.
Notation "'do>' c 'in' k" := (obind c (λ _, k))
  (at level 200, c at level 100, k at level 200) : porthub_scope.

Section requests.
Context `{L : NameLibs}.

Record Work := mkWork { w_remote : Remote; w_size : Z; w_piece_size : Z }.

Definition checked_mul (a b : Z) : res Z :=
  ensure! a * b <=? U64_MAX else "segment offset overflow" in Ok (a * b).

(** Every piece but the last of the run, once all its bytes arrived. *)
Fixpoint publish_pieces (fuel : nat) (w : Work) (start last received index : Z) : Out Z :=
  match fuel with
  | O => ret index
  | S fuel =>
      if index <? last then
        let> next := olift (checked_mul (index + 1) (w_piece_size w)) in
        let> boundary := olift (usub next start) in
        if received <? boundary then ret index
        else
          do> emit Sync in
          do> emit (Send index boundary) in
          publish_pieces fuel w start last received (index + 1)
      else ret index
  end.
Fixpoint receive (w : Work) (start end_ last received index : Z) (body : list Event) : Out (Z * Z) :=
  match body with
  | [] => ret (received, index)
  | Broken :: _ => olift (Err "error decoding response body")
  | Data bytes :: body =>
      let> span := olift (usub end_ start) in
      let> room := olift (usub (span + 1) received) in
      do> olift (ensure (len bytes <=? room) "server sent bytes beyond the requested range") in
      do> emit (Write (start + received) bytes) in
      let received := received + len bytes in
      do> emit (Count (len bytes)) in
      let> index := publish_pieces (Z.to_nat (last - index)) w start last received index in
      receive w start end_ last received index body
  end.
(** The validator asked for is still the one of the reply. *)
Definition same_validator (r : Reply) (name : string) (expected : option string) : bool :=
  match expected with
  | Some _ => bool_decide (r_header r name = expected)
  | None => true
  end.
Definition piece_run (w : Work) (serve : Request → res Reply) (index last : Z) : Out unit :=
  let> start := olift (checked_mul index (w_piece_size w)) in
  let> tail := olift (checked_mul last (w_piece_size w)) in
  let> end_ := olift (usub (Z.min (saturating_add tail (w_piece_size w)) (w_size w)) 1) in
  let validator := match etag (w_remote w) with Some e => Some e | None => modified (w_remote w) end in
  let> r := olift (serve (mkRequest start end_ validator)) in
  do> olift (ensure (r_status r =? 206)
    "server stopped honoring byte ranges or the remote file changed") in
  do> olift (ensure (bool_decide ((range ← r_header r "content-range"; content_range range)
    = Some (start, end_, w_size w))) "server returned an unexpected Content-Range") in
  do> olift (ensure (not_encoded r) "server encoded a byte-range response") in
  do> olift (ensure (same_validator r "etag" (etag (w_remote w))
                     && same_validator r "last-modified" (modified (w_remote w)))
    "remote file validator changed during download") in
  let> '(received, index) := receive w start end_ last 0 index (r_body r) in
  let> span := olift (usub end_ start) in
  do> olift (ensure (received =? span + 1) "range response ended before all bytes arrived") in
  do> emit Sync in
  emit (Send index received).

(** One plain request. *)
Fixpoint save_body (expected : option Z) (size : Z) (body : list Event) : Out unit :=
  match body with
  | [] =>
      olift (match expected with
             | Some expected => ensure (size =? expected) "download ended before all bytes arrived"
             | None => Ok tt
             end)
  | Broken :: _ => olift (Err "error decoding response body")
  | Data bytes :: body =>
      do> emit (Write size bytes) in
      let size := size + len bytes in
      do> emit (Count (len bytes)) in
      do> olift (match expected with
                 | Some expected => ensure (size <=? expected) "remote file size changed"
                 | None => Ok tt
                 end) in
      save_body expected size body
  end.
Definition single (reply : res Reply) (expected : option Z) : Out unit :=
  let> r := olift reply in
  do> olift (ensure (r_status r =? 200) "download returned HTTP status") in
  do> emit Truncate in
  do> save_body expected 0 (r_body r) in
  emit Sync.

(** [checksum], with the hash as an argument: its digest in lower-case hexadecimal. *)
Definition checksum (digest : list Z → string) (file : list Z) (expected : string) : res unit :=
  ensure! (slen expected =? 64) && all_bytes is_ascii_hexdigit expected
    else "SHA256 must be 64 hexadecimal characters" in
  ensure! eq_ignore_ascii_case (digest file) expected
    else "SHA256 mismatch; partial file kept for inspection" in
  Ok tt.
End requests.

(** ** Lemmas on the plan *)

Section plan.
Context `{L : NameLibs}.

Definition expand (run : Z * Z) : list Z := seqZ run.1 (run.2 - run.1 + 1).
Definition run_ok (limit : Z) (run : Z * Z) : Prop := 0 ≤ run.1 ≤ run.2 ∧ run.2 - run.1 + 1 ≤ limit.

Lemma expand_snoc first last : first ≤ last → expand (first, last + 1) = expand (first, last) ++ [last + 1].
Proof.
  intros H. unfold expand. simpl. replace (last + 1 - first + 1) with (last - first + 1 + 1) by lia.
  rewrite seqZ_app by lia. f_equal. replace (first + (last - first + 1)) with (last + 1) by lia. done.
Qed.
Lemma add_to_runs_ok limit runs index : 1 ≤ limit → 0 ≤ index ≤ U64_MAX →
  Forall (run_ok limit) runs → Forall (λ r, r.2 < U64_MAX) runs →
  Forall (run_ok limit) (add_to_runs limit runs index) ∧
  flat_map expand (add_to_runs limit runs index) = flat_map expand runs ++ [index].
Proof.
  intros Hl Hi Hr Hm. unfold add_to_runs.
  assert (Forall (run_ok limit) (runs ++ [(index, index)]) ∧
    flat_map expand (runs ++ [(index, index)]) = flat_map expand runs ++ [index]) as Hnew.
  { split; [apply Forall_app; split; [done|]; apply Forall_singleton; unfold run_ok; simpl; lia|].
    rewrite flat_map_app. f_equal. unfold expand. simpl. rewrite Z.sub_diag. done. }
  destruct (last runs) as [[first la]|] eqn:E; [|exact Hnew].
  destruct ((index =? _) && _) eqn:Ec; [|exact Hnew]. clear Hnew.
  apply last_Some in E as [rs ->]. rewrite removelast_last.
  apply Forall_app in Hr as [Hr [Hf _]%Forall_cons], Hm as [_ [Hm _]%Forall_cons].
  unfold run_ok in Hf. simpl in Hf, Hm. apply andb_true_iff in Ec as [Ei%Z.eqb_eq Ec].
  unfold saturating_add in Ei. assert (index = la + 1) as -> by lia. split.
  - apply Forall_app. split; [done|]. apply Forall_singleton. unfold run_ok. simpl. lia.
  - rewrite !flat_map_app. rewrite <- app_assoc. f_equal. simpl. rewrite !app_nil_r.
    apply expand_snoc. lia.
Qed.

Lemma expand_last run : run.1 ≤ run.2 → run.2 ∈ expand run.
Proof. intros H. apply elem_of_seqZ. lia. Qed.
Lemma runs_below rs m : Forall (λ r : Z * Z, r.1 ≤ r.2) rs → Forall (λ i, i < m) (flat_map expand rs) →
  Forall (λ r : Z * Z, r.2 < m) rs.
Proof.
  intros Hr Hm. apply Forall_forall. intros r Hin.
  apply (proj1 (Forall_forall _ _) Hm), list_elem_of_In, in_flat_map. exists r.
  split; [by apply list_elem_of_In|]. apply list_elem_of_In, expand_last.
  by apply (proj1 (Forall_forall _ _) Hr).
Qed.

(** The runs are the pending pieces, in order, cut where they are not adjacent and where a
    run would take more than one connection's share. *)
Lemma contiguous_runs_spec pending connections : Forall (λ i, 0 ≤ i < U64_MAX) pending →
  Forall (run_ok (run_limit pending connections)) (contiguous_runs pending connections) ∧
  flat_map expand (contiguous_runs pending connections) = pending.
Proof.
  unfold contiguous_runs. set (limit := run_limit _ _).
  assert (1 ≤ limit) as Hl by (unfold limit, run_limit; lia). clearbody limit.
  intros Hp. induction pending as [|i pending IH] using rev_ind; [by split|].
  apply Forall_app in Hp as [Hp [Hi _]%Forall_cons]. destruct (IH Hp) as [Hr E].
  rewrite foldl_app. cbn [foldl].
  destruct (add_to_runs_ok limit (foldl (add_to_runs limit) [] pending) i) as [Hr' E'];
    [done|lia|done| |].
  - apply runs_below; [by eapply Forall_impl; [exact Hr|]; intros r [? _]; lia|].
    rewrite E. eapply Forall_impl; [exact Hp|]. simpl. lia.
  - by rewrite E', E.
Qed.

Lemma missing_from_spec k i complete :
  i ∈ missing_from k complete ↔ k ≤ i ∧ complete !! Z.to_nat (i - k) = Some false.
Proof.
  revert k. induction complete as [|b complete IH]; intros k; simpl.
  { split; [by intros ?%not_elem_of_nil|by intros [_ ?]]. }
  assert (∀ P, (k + 1 ≤ i ∧ complete !! Z.to_nat (i - (k + 1)) = Some false ↔ P) →
    (i ∈ missing_from (k + 1) complete ↔ P)) as H by (intros P <-; apply IH).
  destruct (decide (i = k)) as [->|Hne].
  - rewrite Z.sub_diag. simpl. destruct b.
    + apply H. split; [lia|by intros [_ ?]].
    + split; [intros _; split; [lia|done]|intros _; left].
  - assert (k ≤ i ∧ (b :: complete) !! Z.to_nat (i - k) = Some false
      ↔ k + 1 ≤ i ∧ complete !! Z.to_nat (i - (k + 1)) = Some false) as E.
    { split; intros [Hi E].
      - replace (Z.to_nat (i - k)) with (S (Z.to_nat (i - (k + 1)))) in E by lia. split; [lia|done].
      - replace (Z.to_nat (i - k)) with (S (Z.to_nat (i - (k + 1)))) by lia. split; [lia|done]. }
    rewrite E, <- (IH (k + 1)). destruct b; [done|]. rewrite elem_of_cons. intuition congruence.
Qed.
Lemma missing_spec i complete : i ∈ missing complete ↔ 0 ≤ i ∧ complete !! Z.to_nat i = Some false.
Proof. unfold missing. rewrite missing_from_spec. by rewrite Z.sub_0_r. Qed.
End plan.

(** ** What a range request does *)

(** The bytes of a body up to the end or the first error. *)
Fixpoint data (body : list Event) : list Z :=
  match body with
  | Data bytes :: body => bytes ++ data body
  | _ => []
  end.

Section trace.
Context `{L : NameLibs} (w : Work) (C : list Z → Prop) (start last : Z).

(** The effects of a request write bytes of contents in [C] from [start] on without a gap, and announce
    one piece after the other, each once a sync followed the last of its bytes.  [r] bytes are
    written, [s] of them synced, [i] is the next piece; a request that succeeds announces all
    pieces of its run. *)
Fixpoint traced (ok : bool) (r s i : Z) (es : list Effect) : Prop :=
  match es with
  | [] => if ok then i = last + 1 else i ≤ last
  | e :: es =>
      i ≤ last ∧
      match e with
      | Truncate => False
      | Write offset bytes =>
          offset = start + r ∧ (∃ c, C c ∧ bytes `prefix_of` drop (Z.to_nat offset) c) ∧
          traced ok (r + len bytes) s i es
      | Count _ => traced ok r s i es
      | Sync => traced ok r r i es
      | Send k _ =>
          k = i ∧ Z.min ((i + 1) * w_piece_size w) (w_size w) ≤ start + s ∧ traced ok r s (i + 1) es
      end
  end.
Definition valid_out (r s i : Z) (o : Out unit) : Prop := traced (is_ok o.2) r s i o.1 ∧ o.2 ≠ Panic.

Lemma valid_olift {A} (x : res A) k r s i : i ≤ last → x ≠ Panic →
  (∀ a, x = Ok a → valid_out r s i (k a)) → valid_out r s i (obind (olift x) k).
Proof.
  intros Hi Hx Hk. destruct x as [a|e|]; [|by split|done]. specialize (Hk a eq_refl). simpl.
  by destruct (k a).
Qed.
Lemma valid_emit e k r s i : i ≤ last →
  match e with
  | Truncate => False
  | Write offset bytes =>
      offset = start + r ∧ (∃ c, C c ∧ bytes `prefix_of` drop (Z.to_nat offset) c) ∧
      valid_out (r + len bytes) s i (k tt)
  | Count _ => valid_out r s i (k tt)
  | Sync => valid_out r r i (k tt)
  | Send j _ =>
      j = i ∧ Z.min ((i + 1) * w_piece_size w) (w_size w) ≤ start + s ∧ valid_out r s (i + 1) (k tt)
  end → valid_out r s i (obind (emit e) k).
Proof.
  intros Hi H. unfold valid_out, obind, emit in *. destruct (k tt) as [es o].
  cbn [fst snd app traced] in *. destruct e; tauto.
Qed.
Lemma obind_assoc {A B D} (x : Out A) (f : A → Out B) (g : B → Out D) :
  obind (obind x f) g = obind x (λ a, obind (f a) g).
Proof.
  destruct x as [es [a|e|]]; simpl; [|done..]. destruct (f a) as [es' [b|e|]]; simpl; [|done..].
  destruct (g b) as [es'' o]. by rewrite app_assoc.
Qed.
Lemma ret_bind {A B} (a : A) (k : A → Out B) : obind (ret a) k = k a.
Proof. simpl. by destruct (k a). Qed.

Lemma checked_mul_ok a b x : checked_mul a b = Ok x → x = a * b.
Proof. unfold checked_mul. intros H. by res_inv. Qed.
Lemma checked_mul_not_panic a b : checked_mul a b ≠ Panic.
Proof. unfold checked_mul. by destruct (_ <=? _). Qed.

(** No complete piece of the run is left to announce. *)
Definition announced (r i : Z) : Prop := i < last → r < (i + 1) * w_piece_size w - start.

Lemma publish_valid fuel r k : ∀ s i,
  last - i ≤ Z.of_nat fuel → i ≤ last → start ≤ i * w_piece_size w → 0 < w_piece_size w →
  (∀ s' i', i ≤ i' ≤ last → announced r i' → valid_out r s' i' (k i')) →
  valid_out r s i (obind (publish_pieces fuel w start last r i) k).
Proof.
  induction fuel as [|fuel IH]; intros s i Hf Hi Hs Hps Hk; cbn [publish_pieces].
  { rewrite ret_bind. apply Hk; [lia|]. unfold announced. lia. }
  destruct (Z.ltb_spec i last) as [Hlt|Hge]; [|rewrite ret_bind; apply Hk; [lia|unfold announced; lia]].
  rewrite obind_assoc. apply valid_olift; [done|apply checked_mul_not_panic|].
  intros next ->%checked_mul_ok. rewrite obind_assoc.
  rewrite usub_ok by nia. apply valid_olift; [done..|]. intros b [= <-].
  destruct (Z.ltb_spec r ((i + 1) * w_piece_size w - start)) as [Hr|Hr].
  { rewrite ret_bind. apply Hk; [lia|]. unfold announced. lia. }
  rewrite obind_assoc. apply valid_emit; [done|]. rewrite obind_assoc. apply valid_emit; [done|].
  split_and!; [done|lia|]. apply IH; [lia|lia|nia|done|]. intros s' i' Hi' Ha. apply Hk; [lia|done].
Qed.

Lemma prefix_data bytes rest off n (l : list Z) : 0 ≤ off → len bytes ≤ n →
  take (Z.to_nat n) (bytes ++ rest) `prefix_of` drop (Z.to_nat off) l →
  bytes `prefix_of` drop (Z.to_nat off) l ∧
  take (Z.to_nat (n - len bytes)) rest `prefix_of` drop (Z.to_nat (off + len bytes)) l.
Proof.
  intros Ho Hn. rewrite take_app_ge by lia.
  replace (Z.to_nat n - length bytes)%nat with (Z.to_nat (n - len bytes)) by lia.
  intros [t E]. rewrite <- app_assoc in E. split; [by eexists|]. exists t.
  replace (Z.to_nat (off + len bytes)) with (Z.to_nat off + length bytes)%nat by lia.
  rewrite <- drop_drop, E. apply drop_app_length.
Qed.

(** Bytes after the range are refused, so only those of the range matter. *)
Lemma receive_valid c end_ k body : C c → ∀ r s i,
  0 ≤ start ≤ end_ → 0 ≤ r ≤ end_ - start + 1 → i ≤ last → start ≤ i * w_piece_size w →
  0 < w_piece_size w → announced r i →
  take (Z.to_nat (end_ - start + 1 - r)) (data body) `prefix_of` drop (Z.to_nat (start + r)) c →
  (∀ r' s' i', i ≤ i' ≤ last → announced r' i' → valid_out r' s' i' (k (r', i'))) →
  valid_out r s i (obind (receive w start end_ last r i body) k).
Proof.
  intros Hc. induction body as [|[bytes|] body IH]; intros r s i Hse Hr Hi Hs Hps Ha Hd Hk; cbn [receive].
  - rewrite ret_bind. apply Hk; [lia|done].
  - rewrite obind_assoc, usub_ok by lia. apply valid_olift; [done..|]. intros ? [= <-].
    rewrite obind_assoc, usub_ok by lia. apply valid_olift; [done..|]. intros ? [= <-].
    rewrite obind_assoc. apply valid_olift; [done|apply ensure_not_panic|].
    intros [] Hlen%ensure_ok%Z.leb_le. cbn [data] in Hd. apply prefix_data in Hd as [Hb Hd]; [|lia..].
    rewrite obind_assoc. apply valid_emit; [done|].
    split; [done|]. split; [by exists c|]. rewrite obind_assoc. apply valid_emit; [done|]. rewrite obind_assoc.
    apply publish_valid; [lia..|]. intros s' i' Hi' Ha'.
    apply IH; [lia|lia|lia|nia|done|done| |].
    + by rewrite Z.add_assoc, Z.sub_add_distr.
    + intros r' s'' i'' Hi'' Ha''. apply Hk; [lia|done].
  - by apply valid_olift.
Qed.
End trace.

(** ** What servers have *)

(** What a file is asked for by: strong entity tag, date and size. *)
Definition Key : Type := option string * option string * option Z.

Section source.
Context `{L : NameLibs}.

Definition remote_key (remote : Remote) : Key := (etag remote, modified remote, size remote).
Definition checkpoint_key (cp : Checkpoint) : Key := (cp_etag cp, cp_modified cp, cp_size cp).
Definition reply_range (r : Reply) : option (Z * Z * Z) := range ← r_header r "content-range"; content_range range.

(** [source k] are the contents a server may have under [k]. *)
Context (source : Key → list Z → Prop).

(** A part that is sent under [k] is a part of such a content, perhaps cut short. *)
Definition from_source (r : Reply) : Prop := ∀ remote a b t,
  r_status r = 206 → not_encoded r = true → reply_range r = Some (a, b, t) → 0 ≤ a ≤ b → b < t →
  size remote = Some t → has_validator remote = true →
  same_validator r "etag" (etag remote) && same_validator r "last-modified" (modified remote) = true →
  ∃ c, source (remote_key remote) c ∧
    take (Z.to_nat (b - a + 1)) (data (r_body r)) `prefix_of` drop (Z.to_nat a) c.
Definition answers (serve : Request → res Reply) : Prop :=
  ∀ q, serve q ≠ Panic ∧ ∀ r, serve q = Ok r → from_source r.

(** What a range request writes are bytes of such contents, in place. *)
Lemma piece_run_valid w serve index last (C := source (remote_key (w_remote w))) :
  has_validator (w_remote w) = true → answers serve →
  size (w_remote w) = Some (w_size w) → w_size w ≤ U64_MAX → 0 < w_piece_size w →
  0 ≤ index ≤ last → last * w_piece_size w < w_size w →
  valid_out w C (index * w_piece_size w) last 0 0 index (piece_run w serve index last).
Proof.
  intros Hv Hserve Hsize Hmax Hps Hi Hlast. unfold piece_run.
  assert (index * w_piece_size w ≤ last * w_piece_size w) as Hil by nia.
  apply valid_olift; [lia|apply checked_mul_not_panic|]. intros start ->%checked_mul_ok.
  apply valid_olift; [lia|apply checked_mul_not_panic|]. intros tail ->%checked_mul_ok.
  assert (Z.min (saturating_add (last * w_piece_size w) (w_piece_size w)) (w_size w)
    = Z.min ((last + 1) * w_piece_size w) (w_size w)) as -> by (unfold saturating_add; lia).
  set (stop := Z.min _ (w_size w)).
  assert (index * w_piece_size w < stop ∧ stop ≤ w_size w) as [Hstop1 Hstop2] by (unfold stop; nia).
  rewrite usub_ok by nia. apply valid_olift; [lia|done|]. intros end_ [= <-].
  set (q := mkRequest _ _ _). destruct (Hserve q) as [Hnp Hfrom].
  apply valid_olift; [lia|done|]. intros r Er. specialize (Hfrom r Er).
  apply valid_olift; [lia|apply ensure_not_panic|]. intros [] Hst%ensure_ok%Z.eqb_eq.
  apply valid_olift; [lia|apply ensure_not_panic|]. intros [] Hrange%ensure_ok%bool_decide_eq_true.
  apply valid_olift; [lia|apply ensure_not_panic|]. intros [] Henc%ensure_ok.
  apply valid_olift; [lia|apply ensure_not_panic|]. intros [] Hval%ensure_ok.
  destruct (Hfrom (w_remote w) _ _ _ Hst Henc Hrange) as (c & Hc & Hdata); [nia|lia|done..|].
  apply (receive_valid w C _ _ c); [exact Hc|nia|lia|lia|lia|done|unfold announced; nia| |].
  { rewrite Z.add_0_r, Z.sub_0_r. exact Hdata. }
  intros r' s' i' Hi' Ha. rewrite usub_ok by nia. apply valid_olift; [lia|done|]. intros ? [= <-].
  apply valid_olift; [lia|apply ensure_not_panic|]. intros [] Hr%ensure_ok%Z.eqb_eq.
  apply valid_emit; [lia|].
  assert (i' = last) as ->.
  { destruct (decide (i' = last)) as [|Hne]; [done|]. unfold announced in Ha. unfold stop in *. nia. }
  unfold valid_out. cbn. split_and!; try done; lia.
Qed.
End source.

(** ** Servers *)

(** A version of the remote file. *)
Record Version := mkVersion {
  v_etag : option string; v_modified : option string; v_content : list Z }.
Definition strong (e : string) : bool := negb (str_starts_with "W/" e).

Section server.
Context `{L : NameLibs}.

(** The end of the body is told from an end of the connection: by a length or by chunks. *)
Definition delimited (r : Reply) : bool :=
  bool_decide (is_Some (r_length r)) || bool_decide (r_header r "transfer-encoding" = Some "chunked").
(** A reply that comes from a version.  Its headers tell the validators.  A part starts with
    the bytes of its range, as far as it goes; a full body that ends without an error is the
    start of the content, and all of it if its end is told. *)
Record honest (v : Version) (r : Reply) : Prop := {
  h_etag : r_header r "etag" = v_etag v;
  h_modified : r_header r "last-modified" = v_modified v;
  h_partial a b t : r_status r = 206 → not_encoded r = true → reply_range r = Some (a, b, t) →
    0 ≤ a ≤ b → b < t →
    t = len (v_content v) ∧
    take (Z.to_nat (b - a + 1)) (data (r_body r)) `prefix_of` drop (Z.to_nat a) (v_content v);
  h_full : r_status r = 200 → not_encoded r = true → Broken ∉ r_body r →
    data (r_body r) `prefix_of` v_content v ∧ (delimited r = true → data (r_body r) = v_content v) }.
(** [published] are the versions the server ever had under the URL. *)
Definition served (published : Version → Prop) (reply : res Reply) : Prop :=
  reply ≠ Panic ∧ ∀ r, reply = Ok r → ∃ v, published v ∧ honest v r.
(** What makes a tag strong: no two contents share it. *)
Definition unique_tags (published : Version → Prop) : Prop := ∀ v v' e,
  published v → published v' → strong e = true → v_etag v = Some e → v_etag v' = Some e →
  v_content v = v_content v'.

(** The contents of the versions with the validators and the size of [k]. *)
Definition versions (published : Version → Prop) (k : Key) (c : list Z) : Prop :=
  let '(e, m, n) := k in
  ∃ v, published v ∧ c = v_content v ∧ n = Some (len c) ∧
    (∀ t, e = Some t → v_etag v = Some t) ∧ (∀ d, m = Some d → v_modified v = Some d).
Lemma served_answers published serve : (∀ q, served published (serve q)) → answers (versions published) serve.
Proof.
  intros Hs q. destruct (Hs q) as [Hnp Hr]. split; [done|]. intros r Er.
  destruct (Hr r Er) as (v & Hp & Hh). intros remote a b t Hst Henc Hrange Hab Hbt Hsize _ Hval.
  destruct (h_partial _ _ Hh a b t Hst Henc Hrange Hab Hbt) as [-> Hd].
  exists (v_content v). split; [|done]. exists v.
  apply andb_true_iff in Hval as [He Hm]. rewrite <- (h_etag _ _ Hh), <- (h_modified _ _ Hh).
  split_and!; try done; intros x Ex; [rewrite Ex in He; by apply bool_decide_eq_true in He|].
  rewrite Ex in Hm. by apply bool_decide_eq_true in Hm.
Qed.
End server.

Section size_bounds.
Context `{L : NameLibs}.
Lemma parse_uint_bounds max s n : 0 ≤ max → parse_uint max s = Some n → 0 ≤ n ≤ max.
Proof.
  intros Hm. unfold parse_uint. destruct (parse_digits _) as [k|] eqn:E; [|done]. cbn.
  destruct (Z.leb_spec k max) as [Hk|]; [|done]. intros [= <-]. split; [|done].
  unfold parse_digits in E. destruct (_ || _) eqn:Eb; [done|]. injection E as <-.
  apply orb_false_iff in Eb as [_ Eb%negb_false_iff]. unfold all_bytes in Eb.
  assert (∀ l acc, 0 ≤ acc → forallb is_ascii_digit l = true →
    0 ≤ foldl (λ acc b, acc * 10 + (b - 48)) acc l) as H; [|by apply H].
  induction l as [|b l IH]; simpl; intros acc Ha; [done|]. intros [Hb Hl]%andb_true_iff.
  apply IH; [|done]. unfold is_ascii_digit in Hb. lia.
Qed.
Lemma content_range_bounds s a b t : content_range s = Some (a, b, t) → 0 ≤ t ≤ U64_MAX.
Proof.
  unfold content_range. intros H. destruct (strip_prefix _ s) as [rest|]; [|done]. cbn in H.
  destruct (split_once "/" rest) as [[range total]|]; [|done]. cbn in H.
  destruct (split_once "-" range) as [[x y]|]; [|done]. cbn in H.
  destruct (parse_uint U64_MAX x); [|done]. cbn in H. destruct (parse_uint U64_MAX y); [|done]. cbn in H.
  destruct (parse_uint U64_MAX total) as [n|] eqn:E; [|done]. cbn in H. injection H as <- <- <-.
  by apply parse_uint_bounds in E.
Qed.
Lemma probe_ranges reply remote : probe reply = Ok remote → ranges remote = true →
  ∃ n, size remote = Some n ∧ 0 ≤ n ≤ U64_MAX.
Proof.
  destruct reply as [r| |]; [|done..]. unfold probe. cbn [rbind]. intros H Hr. res_inv.
  match goal with E : probe_size r = Ok ?p |- _ => destruct p as [sz rg]; rename E into Es end.
  res_inv. simpl in *. subst. unfold probe_size in Es. destruct (r_status r =? 206).
  - res_inv. match goal with E : mbind _ _ = Some ?p |- _ => destruct p as [[a b] t]; rename E into Er end.
    res_inv. eexists. split; [done|]. destruct (r_header r "content-range"); [|done].
    by eapply content_range_bounds.
  - destruct (r_status r =? 200); [done|]. by destruct (_ && _).
Qed.
Lemma probe_strong r remote e : probe (Ok r) = Ok remote → etag remote = Some e →
  str_starts_with "W/" e = false ∧ r_header r "etag" = Some e.
Proof.
  unfold probe. cbn [rbind]. intros H He. res_inv.
  match goal with E : probe_size r = Ok ?p |- _ => destruct p end. res_inv. cbn [etag] in He.
  destruct (r_header r "etag") as [e'|]; [|done]. destruct (str_starts_with "W/" e') eqn:Ew; [done|].
  by injection He as <-.
Qed.
Lemma probe_weak r remote e : probe (Ok r) = Ok remote → etag remote = None → r_header r "etag" = Some e →
  str_starts_with "W/" e = true.
Proof.
  unfold probe. cbn [rbind]. intros H He Hr. res_inv.
  match goal with E : probe_size r = Ok ?p |- _ => destruct p end. res_inv. cbn [etag] in He.
  rewrite Hr in He. by destruct (str_starts_with "W/" e).
Qed.
Lemma probe_modified r remote : probe (Ok r) = Ok remote → modified remote = r_header r "last-modified".
Proof.
  unfold probe. cbn [rbind]. intros H. res_inv.
  match goal with E : probe_size r = Ok ?p |- _ => destruct p end. by res_inv.
Qed.
End size_bounds.

(** ** A server that answers every range *)

Section answers.
Context `{L : NameLibs}.

Definition range_text (start end_ total : Z) : string :=
  "bytes " +:+ (show_u128 start +:+ "-" +:+ show_u128 end_) +:+ "/" +:+ show_u128 total.
Lemma content_range_text a b t : u64 a → u64 b → u64 t → content_range (range_text a b t) = Some (a, b, t).
Proof.
  unfold u64. intros Ha Hb Ht. unfold content_range, range_text.
  change (strip_prefix "bytes " ("bytes " +:+ ?s)) with (Some s). cbn [mbind option_bind].
  assert (∀ n c, 0 ≤ n < 2 ^ 64 → is_ascii_digit (byte_of c) = false → str_contains c (show_u128 n) = false) as Hno.
  { intros n c Hn. apply show_u128_no. lia. }
  change ("/" +:+ show_u128 t) with (String "/" (show_u128 t)). rewrite split_once_app.
  2:{ rewrite !str_contains_app, !Hno by done. done. }
  cbn [mbind option_bind]. change ("-" +:+ show_u128 b) with (String "-" (show_u128 b)).
  rewrite split_once_app by by apply Hno. cbn [mbind option_bind].
  rewrite !parse_show_uint by (unfold U64_MAX; lia). done.
Qed.

(** The reply with the bytes asked for, in the given chunks. *)
Definition answer (url : Url) (v : Version) (start end_ : Z) (body : list Event) : Reply :=
  mkReply 206 (λ name,
      if bool_decide (name = "content-range") then Some (range_text start end_ (len (v_content v)))
      else if bool_decide (name = "etag") then v_etag v
      else if bool_decide (name = "last-modified") then v_modified v
      else None)
    None url body.
Lemma answer_honest url v start end_ body : u64 start → u64 end_ → u64 (len (v_content v)) →
  data body `prefix_of` drop (Z.to_nat start) (v_content v) → honest v (answer url v start end_ body).
Proof.
  intros Hs He Hl Hd. split; try done. intros a b t _ _.
  change (reply_range _) with (content_range (range_text start end_ (len (v_content v)))).
  rewrite content_range_text by done. intros [= <- <- <-] _ _. split; [done|].
  trans (data body); [|done]. eexists. symmetry. apply take_drop.
Qed.
End answers.
