(* ===== verification/DownloadRun.v ===== *)
(** * Downloads that are stopped and resumed ([porthub-transfer/src/download.rs])

    The state of a download is what is on disk (the partial file, the checkpoint beside it,
    the published file) and the session of the process, if one runs: its workers, the channel
    of finished pieces and the coordinator that saves the checkpoint.  [act] is one step; what
    the scheduler, the server and the operating system decide is in the action.  A file has
    the content a reader sees and the content that survives a power failure, of which a crash
    leaves any mixture; every request may fail at any effect, a session may end at any point,
    and the next one may find another version of the remote file. *)

From S2P Require Import Prelude Net RustStr Text FileNames Download.
Local Open Scope string_scope.
Local Open Scope list_scope.
Local Open Scope Z_scope.

(** ** Files *)

Record Disk := mkDisk { durable : list Z; cached : list Z }.
Definition set_len (n : Z) (f : list Z) : list Z := resize (Z.to_nat n) 0 f.
Definition exec_file (e : Effect) (file : option Disk) : option Disk :=
  match e, file with
  | Truncate, Some d => Some (mkDisk (durable d) [])
  | Truncate, None => Some (mkDisk [] [])
  | Write offset bytes, Some d => Some (mkDisk (durable d) (write_at offset bytes (cached d)))
  | Sync, Some d => Some (mkDisk (cached d) (cached d))
  | _, _ => file
  end.
(** Every byte of [f] is the durable one or the cached one. *)
Definition mixture (d : Disk) (f : list Z) : bool :=
  forallb (λ j, bool_decide (f !! j = durable d !! j) || bool_decide (f !! j = cached d !! j))
    (seq 0 (Nat.max (length f) (Nat.max (length (durable d)) (length (cached d))))).

Section run.
Context `{L : NameLibs}.
(** The URL of the download and SHA-256. *)
Variable url : string.
Variable digest : list Z → string.

(** ** State *)

Inductive Phase :=
  (** about to take the next run *)
  | Fetching
  | Asking (index last attempt : Z)
  | Running (index last attempt received committed : Z) (todo : list Effect) (outcome : res unit)
  | Stopped (outcome : res unit)
  | Joined.
Record Coordinator := mkCoordinator {
  co_work : Work; co_state : Checkpoint; co_pending : list (Z * Z); co_next : nat;
  co_received : Z; co_queue : list Z; co_capacity : Z; co_workers : list Phase }.
Inductive Stage :=
  (** the checkpoint is written *)
  | Opening (state : Checkpoint)
  | Single (received : Z) (todo : list Effect) (outcome : res unit)
  | Parallel (co : Coordinator)
  (** the transfer returned [Ok] *)
  | Complete
  | Published.
Record World := mkWorld {
  part : option Disk; control : option Checkpoint; target : option (list Z);
  session : option (Options * Remote * Stage) }.

Definition set_workers (ws : list Phase) (co : Coordinator) : Coordinator :=
  mkCoordinator (co_work co) (co_state co) (co_pending co) (co_next co) (co_received co)
    (co_queue co) (co_capacity co) ws.
Definition set_worker (n : nat) (p : Phase) (co : Coordinator) : Coordinator :=
  set_workers (<[n := p]> (co_workers co)) co.
Definition set_next (next : nat) (co : Coordinator) : Coordinator :=
  mkCoordinator (co_work co) (co_state co) (co_pending co) next (co_received co)
    (co_queue co) (co_capacity co) (co_workers co).
Definition add_received (n : Z) (co : Coordinator) : Coordinator :=
  mkCoordinator (co_work co) (co_state co) (co_pending co) (co_next co) (co_received co + n)
    (co_queue co) (co_capacity co) (co_workers co).
Definition set_queue (q : list Z) (co : Coordinator) : Coordinator :=
  mkCoordinator (co_work co) (co_state co) (co_pending co) (co_next co) (co_received co)
    q (co_capacity co) (co_workers co).
Definition with_complete (complete : list bool) (cp : Checkpoint) : Checkpoint :=
  mkCheckpoint (cp_version cp) (cp_url cp) (cp_size cp) (cp_etag cp) (cp_modified cp)
    (cp_piece_size cp) complete.
Definition set_complete (complete : list bool) (co : Coordinator) : Coordinator :=
  mkCoordinator (co_work co) (with_complete complete (co_state co)) (co_pending co) (co_next co)
    (co_received co) (co_queue co) (co_capacity co) (co_workers co).

(** ** Workers *)

(** [worker]: the next run, if one is left. *)
Definition take_run (n : nat) (co : Coordinator) : Coordinator :=
  let phase := match co_pending co !! co_next co with
               | Some (index, last) => Asking index last 0
               | None => Stopped (Ok tt)
               end in
  set_next (S (co_next co)) (set_worker n phase co).
(** A failed request: its unannounced bytes no longer count; six attempts. *)
Definition fail_run (n : nat) (index last attempt received committed : Z) (co : Coordinator) : Coordinator :=
  set_worker n (if attempt =? 5 then Stopped (Err "segment failed") else Asking index last (attempt + 1))
    (add_received (committed - received) co).

(** ** Steps *)

Inductive Action :=
  | Start (o : Options) (reply : res Reply)
  | Open (reply : res Reply)
  | Take (n : nat)
  | Ask (n : nat) (serve : Request → res Reply)
  | Exec (n : nat)
  (** The first effect fails; of a write, [k] bytes took effect. *)
  | Fault (n k : nat)
  | Return (n : nat)
  | Receive
  | Join (n : nat)
  | Drain
  | ExecSingle
  | FinishSingle
  | Publish
  | Cleanup
  (** The operating system writes back some bytes. *)
  | Flush (f : list Z)
  (** Cancelled, or stopped by an error. *)
  | Abandon
  | Crash (f : list Z).

Definition set_part (p : option Disk) (w : World) : World := mkWorld p (control w) (target w) (session w).
Definition set_control (c : option Checkpoint) (w : World) : World := mkWorld (part w) c (target w) (session w).
Definition set_session (s : option (Options * Remote * Stage)) (w : World) : World :=
  mkWorld (part w) (control w) (target w) s.

(** [get_with_client] up to the writing of the checkpoint. *)
Definition start (o : Options) (reply : res Reply) (w : World) : option World :=
  if (1 <=? connections o) && (connections o <=? 128) && (0 <? piece_size o)
     && bool_decide (session w = None ∧ target w = None)
  then match probe reply with
       | Ok remote =>
           if directory remote then None
           else
             let state := prepare o url remote (control w) ((λ d, len (cached d)) <$> part w) in
             Some (set_session (Some (o, remote, Opening state)) (set_control (Some state) w))
       | _ => None
       end
  else None.
(** The transfer: one plain request, or the partial file at its full length and the workers. *)
Definition new_coordinator (o : Options) (remote : Remote) (state : Checkpoint) (already : Z) : Coordinator :=
  let size' := default 0 (size remote) in
  let pending := contiguous_runs (missing (cp_complete state)) (connections o) in
  mkCoordinator (mkWork remote size' (cp_piece_size state)) state pending 0 already []
    (connections o * 2)
    (replicate (Z.to_nat (Z.min (connections o) (len pending))) Fetching).
Definition checkpoint_bytes (size' : Z) (state : Checkpoint) : Z :=
  zsum (λ i, Z.min (cp_piece_size state) (size' - i * cp_piece_size state))
    (List.filter (λ i, bool_decide (cp_complete state !! Z.to_nat i = Some true))
       (seqZ 0 (len (cp_complete state)))).
Definition open (reply : res Reply) (w : World) : option World :=
  match session w with
  | Some (o, remote, Opening state) =>
      let size' := default 0 (size remote) in
      if parallel remote then
        let file := set_len size' (default [] (cached <$> part w)) in
        Some (set_part (Some (mkDisk (default [] (durable <$> part w)) file))
          (set_session (Some (o, remote,
             Parallel (new_coordinator o remote state (checkpoint_bytes size' state)))) w))
      else
        let '(todo, outcome) := single reply (size remote) in
        Some (set_session (Some (o, remote, Single 0 todo outcome)) w)
  | _ => None
  end.

(** A step of worker [n]. *)
Definition worker_step (a : Action) (co : Coordinator) (file : option Disk) : option (Coordinator * option Disk) :=
  match a with
  | Take n =>
      match co_workers co !! n with
      | Some Fetching => Some (take_run n co, file)
      | _ => None
      end
  | Ask n serve =>
      match co_workers co !! n with
      | Some (Asking index last attempt) =>
          let '(todo, outcome) := piece_run (co_work co) serve index last in
          Some (set_worker n (Running index last attempt 0 0 todo outcome) co, file)
      | _ => None
      end
  | Exec n =>
      match co_workers co !! n with
      | Some (Running index last attempt received committed (e :: todo) outcome) =>
          match e with
          | Send i boundary =>
              if len (co_queue co) <? co_capacity co then
                Some (set_worker n (Running (index + 1) last attempt received boundary todo outcome)
                        (set_queue (co_queue co ++ [i]) co), file)
              else None
          | Count m =>
              Some (set_worker n (Running index last attempt (received + m) committed todo outcome)
                      (add_received m co), file)
          | _ =>
              Some (set_worker n (Running index last attempt received committed todo outcome) co,
                    exec_file e file)
          end
      | _ => None
      end
  | Fault n k =>
      match co_workers co !! n with
      | Some (Running index last attempt received committed (e :: _) _) =>
          Some (fail_run n index last attempt received committed co,
                match e with
                | Write offset bytes => exec_file (Write offset (take k bytes)) file
                | _ => file
                end)
      | _ => None
      end
  | Return n =>
      match co_workers co !! n with
      | Some (Running index last attempt received committed [] outcome) =>
          match outcome with
          | Ok _ => Some (set_worker n Fetching co, file)
          | Err _ => Some (fail_run n index last attempt received committed co, file)
          | Panic => Some (set_worker n (Stopped Panic) co, file)
          end
      | _ => None
      end
  | _ => None
  end.

(** A step of the coordinator: a piece arrives, a worker ends, or the last one has. *)
Definition store_all (q : list Z) (complete : list bool) : res (list bool) :=
  foldl (λ acc i, let! complete := acc in store complete i true) (Ok complete) q.
Definition is_joined (p : Phase) : bool := match p with Joined => true | _ => false end.
Definition coordinator_step (a : Action) (o : Options) (remote : Remote) (co : Coordinator) (w : World) : option World :=
  match a with
  | Receive =>
      match co_queue co with
      | i :: q =>
          match store (cp_complete (co_state co)) i true with
          | Ok complete =>
              let co := set_complete complete (set_queue q co) in
              Some (set_control (Some (co_state co)) (set_session (Some (o, remote, Parallel co)) w))
          | _ => None
          end
      | [] => None
      end
  | Join n =>
      match co_workers co !! n with
      | Some (Stopped (Ok _)) => Some (set_session (Some (o, remote, Parallel (set_worker n Joined co))) w)
      | Some (Stopped _) => Some (set_session None w)
      | _ => None
      end
  | Drain =>
      if forallb is_joined (co_workers co) then
        match store_all (co_queue co) (cp_complete (co_state co)) with
        | Ok complete =>
            let co := set_complete complete (set_queue [] co) in
            let w := set_control (Some (co_state co)) w in
            Some (set_session (if forallb id complete then Some (o, remote, Complete) else None) w)
        | _ => None
        end
      else None
  | _ => None
  end.

(** The checksum and the publication, which replaces no file; then the checkpoint goes. *)
Definition publish (o : Options) (remote : Remote) (w : World) : option World :=
  match part w, target w with
  | Some d, None =>
      match sha256 o with
      | Some expected =>
          if is_ok (checksum digest (cached d) expected)
          then Some (mkWorld None (control w) (Some (cached d)) (Some (o, remote, Published)))
          else Some (set_session None w)
      | None => Some (mkWorld None (control w) (Some (cached d)) (Some (o, remote, Published)))
      end
  | _, _ => None
  end.

Definition session_step (a : Action) (o : Options) (remote : Remote) (s : Stage) (w : World) : option World :=
  match a, s with
  | ExecSingle, Single received (e :: todo) outcome =>
      let received := match e with Count m => received + m | _ => received end in
      Some (set_part (exec_file e (part w)) (set_session (Some (o, remote, Single received todo outcome)) w))
  | FinishSingle, Single _ [] outcome =>
      Some (set_session (if is_ok outcome then Some (o, remote, Complete) else None) w)
  | Publish, Complete => publish o remote w
  | Cleanup, Published => Some (set_control None (set_session None w))
  | (Receive | Join _ | Drain), Parallel co => coordinator_step a o remote co w
  | _, Parallel co =>
      match worker_step a co (part w) with
      | Some (co, file) => Some (set_part file (set_session (Some (o, remote, Parallel co)) w))
      | None => None
      end
  | _, _ => None
  end.
Definition act (a : Action) (w : World) : option World :=
  match a with
  | Start o reply => start o reply w
  | Open reply => open reply w
  | Flush f =>
      match part w with
      | Some d => if mixture d f then Some (set_part (Some (mkDisk f (cached d))) w) else None
      | None => None
      end
  | Abandon => Some (set_session None w)
  | Crash f =>
      match part w with
      | Some d => if mixture d f then Some (mkWorld (Some (mkDisk f f)) (control w) (target w) None) else None
      | None => Some (set_session None w)
      end
  | _ =>
      match session w with
      | Some (o, remote, s) => session_step a o remote s w
      | None => None
      end
  end.
Fixpoint run (actions : list Action) (w : World) : option World :=
  match actions with
  | [] => Some w
  | a :: actions => w ← act a w; run actions w
  end.
(** Nothing on disk yet. *)
Definition nothing : World := mkWorld None None None None.
End run.

(** ** Lemmas on files *)

(** The bytes from [a] to [b] are each that of one of the contents in [C] at the same place. *)
Definition good (C : list Z → Prop) (f : list Z) (a b : Z) : Prop :=
  ∀ j : nat, a ≤ Z.of_nat j < b → ∃ c x, C c ∧ c !! j = Some x ∧ f !! j = Some x.
Definition good_both (C : list Z → Prop) (d : Disk) (a b : Z) : Prop :=
  good C (cached d) a b ∧ good C (durable d) a b.
(** From [d] to [d'] the contents in [C] only spread. *)
Record advances (C : list Z → Prop) (d d' : Disk) : Prop := {
  ad_cached a b : good C (cached d) a b → good C (cached d') a b;
  ad_both a b : good_both C d a b → good_both C d' a b;
  ad_len : length (cached d') = length (cached d) }.

Lemma advances_refl C d : advances C d d.
Proof. by split. Qed.
Lemma good_sub C f a b a' b' : good C f a b → a ≤ a' → b' ≤ b → good C f a' b'.
Proof. intros H Ha Hb j Hj. apply H. lia. Qed.
Lemma good_both_sub C d a b a' b' : good_both C d a b → a ≤ a' → b' ≤ b → good_both C d a' b'.
Proof. intros [H1 H2] Ha Hb. split; by eapply good_sub. Qed.
Lemma good_join C f a m b : good C f a m → good C f m b → good C f a b.
Proof.
  intros H1 H2 j Hj. destruct (decide (Z.of_nat j < m)); [apply H1|apply H2]; lia.
Qed.
Lemma good_empty C f a b : b ≤ a → good C f a b.
Proof. intros H j Hj. lia. Qed.

(** A write of bytes of a content in place. *)
Lemma write_at_spec (C : list Z → Prop) c off bytes f : C c → 0 ≤ off → length f = length c →
  bytes `prefix_of` drop (Z.to_nat off) c →
  length (write_at off bytes f) = length f ∧
  good C (write_at off bytes f) off (off + len bytes) ∧
  ∀ a b, good C f a b → good C (write_at off bytes f) a b.
Proof.
  intros Hc Ho Hl Hp. unfold write_at. case_bool_decide as Hb.
  { subst. split_and!; [done|apply good_empty; simpl; lia|done]. }
  pose proof (prefix_length _ _ Hp) as Hlen. rewrite length_drop in Hlen.
  assert (Z.to_nat off + length bytes ≤ length f)%nat as Hin by (destruct bytes; [done|]; simpl in *; lia).
  rewrite Nat.max_l, resize_all by lia.
  assert (good C (list_inserts (Z.to_nat off) bytes f) off (off + len bytes)) as Hnew.
  { intros j Hj. destruct (lookup_lt_is_Some_2 bytes (j - Z.to_nat off)) as [x Ex]; [lia|].
    exists c, x. split; [done|]. rewrite list_lookup_inserts by lia. split; [|done].
    destruct Hp as [t E]. apply (lookup_app_l_Some _ t) in Ex. rewrite <- E, lookup_drop in Ex.
    rewrite <- Ex. f_equal. lia. }
  split_and!; [apply length_inserts|exact Hnew|].
  intros a b Hg j Hj. destruct (decide (off ≤ Z.of_nat j < off + len bytes)); [by apply Hnew|].
  destruct (Hg j Hj) as (c' & x & Hc' & Ec & Ef). exists c', x. split_and!; [done..|]. rewrite <- Ef.
  destruct (decide (Z.of_nat j < off)).
  - apply list_lookup_inserts_lt. lia.
  - apply list_lookup_inserts_ge. lia.
Qed.

Lemma mixture_spec d f : mixture d f = true →
  ∀ j : nat, f !! j = durable d !! j ∨ f !! j = cached d !! j.
Proof.
  unfold mixture. rewrite forallb_forall. intros H j.
  destruct (decide (j < Nat.max (length f) (Nat.max (length (durable d)) (length (cached d))))%nat) as [Hj|Hj].
  - assert (In j (seq 0 (Nat.max (length f) (Nat.max (length (durable d)) (length (cached d)))))) as Hin
      by (apply in_seq; lia).
    apply H, orb_true_iff in Hin as [?%bool_decide_eq_true|?%bool_decide_eq_true]; auto.
  - left. rewrite !lookup_ge_None_2 by lia. done.
Qed.
Lemma mixture_good C d f a b : mixture d f = true → good_both C d a b → good C f a b.
Proof.
  intros Hm [H1 H2] j Hj. destruct (mixture_spec d f Hm j) as [->| ->]; [by apply H2|by apply H1].
Qed.
Lemma flush_advances C d f : mixture d f = true → advances C d (mkDisk f (cached d)).
Proof.
  intros Hm. split; simpl; [done| |done]. intros a b H. split; [by destruct H|]. by eapply mixture_good.
Qed.

(** ** The invariant of a session *)

Section invariant.
Context `{L : NameLibs}.

(** The contents the remote file may have under the validators of the session, of one size. *)
Context (C : list Z → Prop) (n : Z) (sized : ∀ c, C c → len c = n).

(** An effect of a request that writes bytes of such a content. *)
Definition writes_of (e : Effect) : Prop :=
  match e with
  | Truncate => False
  | Write off bytes => 0 ≤ off ∧ ∃ c, C c ∧ bytes `prefix_of` drop (Z.to_nat off) c
  | _ => True
  end.
Lemma exec_file_advances e d : len (cached d) = n → writes_of e →
  ∃ d', exec_file e (Some d) = Some d' ∧ advances C d d'.
Proof.
  intros Hl He. destruct e as [|off bytes|m| |k b]; simpl in *; try (eexists; split; [done|apply advances_refl]).
  - done.
  - destruct He as (Ho & c & Hc & Hp). pose proof (sized c Hc).
    destruct (write_at_spec C c off bytes (cached d) Hc Ho) as (Hlen & _ & Hg); [lia|done|].
    eexists. split; [done|]. split; simpl; [done| |done]. intros a b [H1 H2]. split; [by apply Hg|done].
  - eexists. split; [done|]. split; simpl; [done| |done]. by intros a b [H1 H2].
Qed.

(** Piece [i] is in the partial file, also after a crash. *)
Definition stored (ps : Z) (d : Disk) (i : Z) : Prop := good_both C d (i * ps) (Z.min ((i + 1) * ps) n).

Definition worker_ok (w : Work) (d : Disk) (p : Phase) : Prop :=
  match p with
  | Fetching | Joined => True
  | Asking index last attempt => 0 ≤ index ≤ last ∧ last * w_piece_size w < n ∧ 0 ≤ attempt ≤ 5
  | Running index last attempt _ _ todo outcome =>
      outcome ≠ Panic ∧ 0 ≤ index ∧ 0 ≤ attempt ≤ 5 ∧ last * w_piece_size w < n ∧
      ∃ start r s, 0 ≤ start ≤ index * w_piece_size w ∧ 0 ≤ s ≤ r ∧
        good C (cached d) start (start + r) ∧ good_both C d start (start + s) ∧
        traced w C start last (is_ok outcome) r s index todo
  | Stopped outcome => outcome ≠ Panic
  end.

(** What a coordinator knows. *)
Record co_ok (d : Disk) (co : Coordinator) : Prop := {
  ck_capacity : 0 < co_capacity co;
  ck_size : w_size (co_work co) = n;
  ck_max : n ≤ U64_MAX;
  ck_piece : 0 < w_piece_size (co_work co);
  ck_state : cp_piece_size (co_state co) = w_piece_size (co_work co);
  ck_len : len (cached d) = n;
  ck_cover : n ≤ len (cp_complete (co_state co)) * w_piece_size (co_work co);
  ck_last i : i < len (cp_complete (co_state co)) → i * w_piece_size (co_work co) < n;
  ck_workers : Forall (worker_ok (co_work co) d) (co_workers co);
  ck_queue : Forall (λ i, 0 ≤ i < len (cp_complete (co_state co)) ∧
               stored (w_piece_size (co_work co)) d i) (co_queue co);
  ck_complete (i : nat) : cp_complete (co_state co) !! i = Some true →
    stored (w_piece_size (co_work co)) d (Z.of_nat i);
  ck_pending : Forall (λ r, 0 ≤ r.1 ≤ r.2 ∧ r.2 < len (cp_complete (co_state co))) (co_pending co) }.

Lemma stored_advances ps d d' i : advances C d d' → stored ps d i → stored ps d' i.
Proof. intros Ha. apply (ad_both _ _ _ Ha). Qed.
Lemma worker_advances w d d' p : advances C d d' → worker_ok w d p → worker_ok w d' p.
Proof.
  intros Ha. destruct p; simpl; try done.
  intros (? & ? & ? & ? & start & r & s & ? & ? & Hg & Hb & ?). split_and!; try done; try lia.
  exists start, r, s. split_and!; try done; try lia; [by apply (ad_cached _ _ _ Ha)|by apply (ad_both _ _ _ Ha)].
Qed.
Lemma co_advances d d' co : advances C d d' → co_ok d co → co_ok d' co.
Proof.
  intros Ha [H0 H1 H2 H3 H4 H5 H6 H7 H8 H9 H10 H11]. split; try done.
  - by rewrite (ad_len _ _ _ Ha).
  - eapply Forall_impl; [exact H8|]. intros p. by apply worker_advances.
  - eapply Forall_impl; [exact H9|]. intros i [? ?]. split; [done|]. by eapply stored_advances.
  - intros i Hi. eapply stored_advances; [done|]. by apply H10.
Qed.

(** Changes of the coordinator that keep what it knows. *)
Lemma co_set_worker d co k p : co_ok d co → worker_ok (co_work co) d p → co_ok d (set_worker k p co).
Proof.
  intros [H0 H1 H2 H3 H4 H5 H6 H7 H8 H9 H10 H11] Hp. split; try done. simpl. by apply Forall_insert.
Qed.
Lemma co_add_received d co m : co_ok d co → co_ok d (add_received m co).
Proof. by intros []. Qed.
Lemma co_set_next d co m : co_ok d co → co_ok d (set_next m co).
Proof. by intros []. Qed.
Lemma co_set_queue d co q : co_ok d co →
  Forall (λ i, 0 ≤ i < len (cp_complete (co_state co)) ∧ stored (w_piece_size (co_work co)) d i) q →
  co_ok d (set_queue q co).
Proof. by intros [] Hq. Qed.
Lemma co_set_complete d co complete : co_ok d co → length complete = length (cp_complete (co_state co)) →
  (∀ i : nat, complete !! i = Some true → stored (w_piece_size (co_work co)) d (Z.of_nat i)) →
  co_ok d (set_complete complete co).
Proof.
  intros [H0 H1 H2 H3 H4 H5 H6 H7 H8 H9 H10 H11] Hl Hc. split; simpl; rewrite ?Hl; done.
Qed.

Lemma fail_run_ok d co k index last attempt received committed :
  co_ok d co → 0 ≤ index ≤ last → last * w_piece_size (co_work co) < n → 0 ≤ attempt ≤ 5 →
  co_ok d (fail_run k index last attempt received committed co).
Proof.
  intros H Hi Hl Ha. unfold fail_run. apply (co_set_worker d (add_received _ co)).
  - by apply co_add_received.
  - destruct (Z.eqb_spec attempt 5); [done|]. split; [done|]. split; [done|lia].
Qed.

(** A step of a worker keeps the invariant. *)
Lemma exec_ok d co k co' file' :
  co_ok d co → worker_step (Exec k) co (Some d) = Some (co', file') →
  ∃ d', file' = Some d' ∧ advances C d d' ∧ co_ok d' co'.
Proof.
  intros H. cbn [worker_step]. destruct (co_workers co !! k) as [ph|] eqn:En; [|done].
  pose proof (proj1 (Forall_lookup _ _) (ck_workers _ _ H) k ph En) as Hw.
  destruct ph as [| |index last attempt received committed [|e todo] outcome| |]; try done.
  destruct Hw as (Ho & Hi & Hatt & Hl & start & r & s & Hst & Hrs & Hg & Hb & Hil & Ht).
  destruct e as [|off bytes|m| |j b]; [done| | | |].
  - destruct Ht as (-> & (c & Hc & Hpre) & Ht). intros [= <- <-].
    destruct (exec_file_advances (Write (start + r) bytes) d) as (d' & E & Ha);
      [by apply (ck_len _ _ H)|split; [lia|by exists c]|].
    exists d'. split; [exact E|]. split; [done|]. apply co_set_worker; [by eapply co_advances|].
    simpl. do 4 (split; [done|]). exists start, (r + len bytes), s. split_and!; try done; try lia.
    + eapply good_join; [by apply (ad_cached _ _ _ Ha)|]. simpl in E. injection E as <-. simpl.
      replace (start + (r + len bytes)) with (start + r + len bytes) by lia.
      pose proof (sized c Hc). pose proof (ck_len _ _ H).
      by destruct (write_at_spec C c (start + r) bytes (cached d) Hc) as (_ & Hw & _); [lia..|done|].
    + by apply (ad_both _ _ _ Ha).
  - intros [= <- <-]. exists d. split; [done|]. split; [apply advances_refl|].
    apply (co_set_worker _ (add_received m co)); [by apply co_add_received|]. simpl.
    do 4 (split; [done|]). by exists start, r, s.
  - intros [= <- <-].
    destruct (exec_file_advances Sync d) as (d' & E & Ha); [by apply (ck_len _ _ H)|done|].
    exists d'. split; [exact E|]. split; [done|]. apply co_set_worker; [by eapply co_advances|].
    simpl. do 4 (split; [done|]). exists start, r, r. split_and!; try done; try lia.
    + by apply (ad_cached _ _ _ Ha).
    + simpl in E. by injection E as <-.
  - destruct Ht as (-> & Hmin & Ht). destruct (_ <? _); [|done]. intros [= <- <-].
    exists d. split; [done|]. split; [apply advances_refl|].
    apply (co_set_worker _ (set_queue _ co)).
    + apply co_set_queue; [done|]. apply Forall_app. split; [apply (ck_queue _ _ H)|].
      apply Forall_cons. split; [|constructor]. pose proof (ck_piece _ _ H). split.
      * pose proof (ck_cover _ _ H). nia.
      * unfold stored. rewrite <- (ck_size _ _ H). eapply good_both_sub; [exact Hb|lia|lia].
    + simpl. split; [done|]. split; [lia|]. split; [done|]. split; [done|]. exists start, r, s. pose proof (ck_piece _ _ H).
      split_and!; try done; lia.
Qed.
Lemma fault_ok d co k m co' file' :
  co_ok d co → worker_step (Fault k m) co (Some d) = Some (co', file') →
  ∃ d', file' = Some d' ∧ advances C d d' ∧ co_ok d' co'.
Proof.
  intros H. cbn [worker_step]. destruct (co_workers co !! k) as [ph|] eqn:En; [|done].
  pose proof (proj1 (Forall_lookup _ _) (ck_workers _ _ H) k ph En) as Hw.
  destruct ph as [| |index last attempt received committed [|e todo] outcome| |]; try done.
  destruct Hw as (Ho & Hi & Hatt & Hl & start & r & s & Hst & Hrs & Hg & Hb & Hil & Ht). intros [= <- <-].
  assert (∃ d', match e with
      | Write offset bytes => exec_file (Write offset (take m bytes)) (Some d) | _ => Some d end = Some d' ∧
    advances C d d') as (d' & E & Ha).
  { destruct e as [|off bytes|x| |j b]; try (eexists; split; [done|apply advances_refl]).
    destruct Ht as (-> & (c & Hc & t & Ec) & _). apply exec_file_advances; [by apply (ck_len _ _ H)|].
    split; [lia|]. exists c. split; [done|]. exists (drop m bytes ++ t). by rewrite Ec, app_assoc, take_drop. }
  exists d'. split; [exact E|]. split; [done|]. apply fail_run_ok; [by eapply co_advances|lia|done|done].
Qed.
Lemma return_ok d co k co' file' :
  co_ok d co → worker_step (Return k) co (Some d) = Some (co', file') → file' = Some d ∧ co_ok d co'.
Proof.
  intros H. cbn [worker_step]. destruct (co_workers co !! k) as [ph|] eqn:En; [|done].
  pose proof (proj1 (Forall_lookup _ _) (ck_workers _ _ H) k ph En) as Hw.
  destruct ph as [| |index last attempt received committed [|e todo] outcome| |]; try done.
  destruct Hw as (Ho & Hi & Hatt & Hl & start & r & s & Hst & Hrs & Hg & Hb & Ht).
  destruct outcome as [u|e|]; [| |done]; intros [= <- <-]; (split; [done|]).
  - by apply co_set_worker.
  - apply fail_run_ok; [done| |done|done]. simpl in Ht. lia.
Qed.
Lemma take_piece_ok d co k co' file' :
  co_ok d co → worker_step (Take k) co (Some d) = Some (co', file') → file' = Some d ∧ co_ok d co'.
Proof.
  intros H. cbn [worker_step]. destruct (co_workers co !! k) as [[]|]; try done.
  intros [= <- <-]. split; [done|]. unfold take_run. apply co_set_next, co_set_worker; [done|].
  destruct (co_pending co !! co_next co) as [[index last]|] eqn:E; [|done].
  pose proof (proj1 (Forall_lookup _ _) (ck_pending _ _ H) _ _ E) as [Hr Hlast].
  split; [done|]. split; [by apply (ck_last _ _ H)|done].
Qed.
End invariant.

Section asking.
Context `{L : NameLibs} (source : Key → list Z → Prop) (sized : ∀ k c, source k c → k.2 = Some (len c)).

Lemma ask_ok remote n d co k serve co' file' (C := source (remote_key remote)) :
  w_remote (co_work co) = remote → has_validator remote = true → size remote = Some n →
  answers source serve →
  co_ok C n d co → worker_step (Ask k serve) co (Some d) = Some (co', file') →
  file' = Some d ∧ co_ok C n d co'.
Proof.
  intros Hr Hv Hz Hs H. cbn [worker_step]. destruct (co_workers co !! k) as [ph|] eqn:En; [|done].
  pose proof (proj1 (Forall_lookup _ _) (ck_workers _ _ _ _ H) k ph En) as Hw.
  destruct ph as [|index last attempt| | |]; try done. destruct Hw as (Hi & Hl & Hatt).
  pose proof (ck_size _ _ _ _ H) as Hn. pose proof (ck_piece _ _ _ _ H) as Hp.
  destruct (piece_run_valid source (co_work co) serve index last) as [Ht Ho];
    [by rewrite Hr|done|by rewrite Hr, Hn|rewrite Hn; apply (ck_max _ _ _ _ H)|done|done|by rewrite Hn|].
  destruct (piece_run _ serve index last) as [todo outcome]. intros [= <- <-]. split; [done|].
  apply co_set_worker; [done|]. simpl in *. rewrite Hr in Ht.
  split; [done|]. split; [lia|]. split; [done|]. split; [done|].
  exists (index * w_piece_size (co_work co)), 0, 0.
  split; [nia|]. split; [done|]. split; [apply good_empty; lia|]. split; [split; apply good_empty; lia|done].
Qed.
(** What the run knows of the replies: whole bodies satisfy [whole], parts come from
    [source], and what a probe finds satisfies [found]. *)
Context (whole : list Z → Prop) (found : Remote → Prop).
Definition sound_action (a : Action) : Prop :=
  match a with
  | Start _ reply => ∀ remote, probe reply = Ok remote → found remote
  | Open (Ok r) => r_status r = 200 → Broken ∉ r_body r → whole (data (r_body r))
  | Ask _ serve => answers source serve
  | _ => True
  end.
Lemma worker_step_ok remote n a d co co' file' (C := source (remote_key remote)) :
  w_remote (co_work co) = remote → has_validator remote = true → size remote = Some n → sound_action a →
  co_ok C n d co → worker_step a co (Some d) = Some (co', file') →
  ∃ d', file' = Some d' ∧ advances C d d' ∧ co_ok C n d' co'.
Proof.
  intros Hr Hv Hz Ha H E.
  assert (∀ c, C c → len c = n) as Hsized.
  { intros c Hc%sized. cbn in Hc. rewrite Hz in Hc. by injection Hc. }
  assert (file' = Some d ∧ co_ok C n d co' →
    ∃ d', file' = Some d' ∧ advances C d d' ∧ co_ok C n d' co') as Hsame.
  { intros [-> ?]. exists d. split; [done|]. split; [apply advances_refl|done]. }
  destruct a; try done.
  - apply Hsame. by eapply take_piece_ok.
  - apply Hsame. by eapply ask_ok.
  - by eapply exec_ok.
  - by eapply fault_ok.
  - apply Hsame. by eapply return_ok.
Qed.
(** Workers change neither the plan nor the pieces that are marked. *)
Lemma worker_step_frame a file co co' file' : worker_step a co file = Some (co', file') →
  co_work co' = co_work co ∧ co_state co' = co_state co.
Proof.
  unfold worker_step, take_run, fail_run. intros E. repeat case_match; simplify_eq; by simpl.
Qed.
End asking.

(** ** The invariant of the disk and the session *)

Section world.
Context `{L : NameLibs} (url : string) (digest : list Z → string).
Context (source : Key → list Z → Prop) (sized : ∀ k c, source k c → k.2 = Some (len c)).
Context (whole : list Z → Prop) (found : Remote → Prop).

Definition no_flags (cp : Checkpoint) : Prop := ∀ i, cp_complete cp !! i ≠ Some true.
(** The pieces of [cp] that are marked are in the file, with contents [cp] stands for. *)
Definition flags_ok (cp : Checkpoint) (d : Disk) : Prop := ∀ i : nat, cp_complete cp !! i = Some true →
  stored (source (checkpoint_key cp)) (default 0 (cp_size cp)) (cp_piece_size cp) d (Z.of_nat i).
(** A session downloads what a probe found. *)
Definition probed (remote : Remote) : Prop :=
  found remote ∧ (ranges remote = true → ∃ n, size remote = Some n ∧ 0 ≤ n ≤ U64_MAX).
(** Every byte is that of a content under the validators and the size of [remote]. *)
Definition assembled (remote : Remote) (f : list Z) : Prop :=
  parallel remote = true ∧ size remote = Some (len f) ∧ good (source (remote_key remote)) f 0 (len f).
Definition target_ok (f : list Z) : Prop := whole f ∨ ∃ remote, found remote ∧ assembled remote f.

Definition stage_ok (w : World) (o : Options) (remote : Remote) (s : Stage) : Prop :=
  match s with
  | Opening state =>
      1 ≤ connections o ∧
      control w = Some state ∧ checkpoint_key state = remote_key remote ∧ probed remote ∧
      (if parallel remote then
         0 < cp_piece_size state ∧
         len (cp_complete state) = div_ceil (default 0 (size remote)) (cp_piece_size state) ∧
         (no_flags state ∨ ∃ d, part w = Some d ∧ len (cached d) = default 0 (size remote))
       else no_flags state)
  | Single _ todo outcome =>
      (∃ cp, control w = Some cp ∧ no_flags cp) ∧
      (is_ok outcome = true → ∃ d,
         foldl (λ f e, exec_file e f) (part w) todo = Some d ∧ whole (cached d))
  | Parallel co =>
      ∃ d cp n, part w = Some d ∧ probed remote ∧ parallel remote = true ∧ size remote = Some n ∧
        w_remote (co_work co) = remote ∧ checkpoint_key (co_state co) = remote_key remote ∧
        control w = Some cp ∧ checkpoint_key cp = remote_key remote ∧
        co_ok (source (remote_key remote)) n d co
  | Complete => ∃ d, part w = Some d ∧ target_ok (cached d)
  | Published => True
  end.
Record world_ok (w : World) : Prop := {
  wo_control cp d : control w = Some cp → part w = Some d → flags_ok cp d;
  wo_target f : target w = Some f → target_ok f;
  wo_free o remote s : session w = Some (o, remote, s) → s ≠ Published → target w = None;
  wo_session o remote s : session w = Some (o, remote, s) → stage_ok w o remote s }.

Lemma no_flags_ok cp d : no_flags cp → flags_ok cp d.
Proof. intros H i E. by destruct (H i). Qed.
Lemma flags_advances cp d d' : advances (source (checkpoint_key cp)) d d' → flags_ok cp d → flags_ok cp d'.
Proof. intros Ha H i Hi. eapply stored_advances; [exact Ha|]. by apply H. Qed.
Lemma flags_crash cp d f : mixture d f = true → flags_ok cp d → flags_ok cp (mkDisk f f).
Proof.
  intros Hx H i Hi. specialize (H i Hi). unfold stored in *. split; simpl; by eapply mixture_good.
Qed.
Lemma parallel_validator remote : parallel remote = true → has_validator remote = true.
Proof. by intros [_ ?]%andb_true_iff. Qed.
Lemma parallel_size remote : probed remote → parallel remote = true →
  ∃ n, size remote = Some n ∧ 0 < n ≤ U64_MAX.
Proof.
  intros [_ Hr] Hp. unfold parallel in Hp. apply andb_true_iff in Hp as [[Hr'%Hr Hn]%andb_true_iff _].
  destruct Hr' as (n & E & Hb). rewrite E in Hn. simpl in Hn. exists n. split; [done|lia].
Qed.

Lemma prepare_start_spec o remote control' part_len (st := prepare o url remote control' part_len) :
  checkpoint_key st = remote_key remote ∧ 0 < cp_piece_size st ∧
  (parallel remote = true → 0 ≤ default 0 (size remote) →
     len (cp_complete st) = div_ceil (default 0 (size remote)) (cp_piece_size st)) ∧
  (no_flags st ∨ parallel remote = true ∧ control' = Some st ∧ part_len = Some (default 0 (size remote))).
Proof.
  set (size' := default 0 (size remote)).
  set (piece := Z.max (Z.max (piece_size o) (div_ceil size' 4096)) 1).
  set (fresh := mkCheckpoint 1 url (size remote) (etag remote) (modified remote) piece
    (replicate (Z.to_nat (if ranges remote then div_ceil size' piece else 0)) false)).
  assert (checkpoint_key fresh = remote_key remote ∧ 0 < cp_piece_size fresh ∧
    (parallel remote = true → 0 ≤ size' → len (cp_complete fresh) = div_ceil size' (cp_piece_size fresh)) ∧
    (no_flags fresh ∨ parallel remote = true ∧ control' = Some fresh ∧ part_len = Some size')) as Hfresh.
  { split; [done|]. split; [simpl; unfold piece; lia|]. split.
    - intros Hp H0. unfold parallel in Hp. apply andb_true_iff in Hp as [[Hr Hn]%andb_true_iff _].
      fold size' in Hn. simpl. rewrite length_replicate, Hr.
      assert (1 ≤ div_ceil size' piece) by (apply div_ceil_pos; [lia|unfold piece; lia]). lia.
    - left. intros i. simpl. intros [[=] _]%lookup_replicate. }
  unfold st, prepare. fold size' piece fresh. destruct control' as [state|]; [|exact Hfresh].
  destruct (usable url remote part_len state) eqn:Eu; [|exact Hfresh]. clear Hfresh.
  unfold usable in Eu. fold size' in Eu. repeat (apply andb_true_iff in Eu as [Eu ?]).
  repeat match goal with H : bool_decide _ = true |- _ => apply bool_decide_eq_true in H end.
  split; [unfold checkpoint_key, remote_key; congruence|]. split; [lia|]. split; [lia|]. right. split; [|done].
  unfold parallel. fold size'. apply andb_true_iff. split; [|done]. apply andb_true_iff. split; [done|]. lia.
Qed.

(** ** Every step keeps the invariant *)

Lemma start_world_ok o reply w w' : (∀ remote, probe reply = Ok remote → found remote) → world_ok w →
  start url o reply w = Some w' → world_ok w'.
Proof.
  intros Hs Hw. unfold start. destruct (_ && _) eqn:Eg; [|done].
  destruct (probe reply) as [remote| |] eqn:Ep; [|done..]. destruct (directory remote); [done|].
  set (part_len := _ <$> part w). set (state := prepare o url remote (control w) part_len).
  intros [= <-].
  assert (probed remote) as Hv by (split; [by apply Hs|intros Hr; by eapply probe_ranges]).
  destruct (prepare_start_spec o remote (control w) part_len) as (Hof & Hps & Hlen & Hflags).
  fold state in Hof, Hps, Hlen, Hflags.
  assert (no_flags state ∨ ∃ d, part w = Some d ∧ control w = Some state ∧
    len (cached d) = default 0 (size remote)) as Hfl.
  { destruct Hflags as [|(_ & Hc & Hpl)]; [by left|right]. unfold part_len in Hpl.
    destruct (part w) as [d|]; [|done]. exists d. split_and!; [done|done|]. by injection Hpl. }
  split; cbn [set_session set_control control part target session].
  - intros cp d [= <-] Ed. destruct Hfl as [|(d' & Ed' & Hc & _)]; [by apply no_flags_ok|].
    by apply (wo_control _ Hw).
  - apply (wo_target _ Hw).
  - intros _ _ _ _ _. by apply andb_true_iff in Eg as [_ [_ ?]%bool_decide_eq_true].
  - intros o' remote' s [= <- <- <-]. split; [lia|]. split; [done|]. split; [done|]. split; [done|].
    destruct (parallel remote) eqn:Epar.
    + split; [done|]. split.
      * apply Hlen; [done|]. destruct (parallel_size _ Hv Epar) as (n & -> & ?). simpl. lia.
      * destruct Hfl as [|(d & ? & _ & ?)]; [by left|right]. by exists d.
    + by destruct Hflags as [|(? & _)].
Qed.

(** A plain request leaves the body of the reply, whatever the file was. *)
Lemma save_body_spec expected body : ∀ d size,
  is_ok (save_body expected size body).2 = true → size = len (cached d) →
  Broken ∉ body ∧
  ∃ d', foldl (λ f e, exec_file e f) (Some d) (save_body expected size body).1 = Some d' ∧
    cached d' = cached d ++ data body.
Proof.
  induction body as [|[bytes|] body IH]; intros d size Hok ->; cbn [save_body data] in *.
  - split; [by intros ?%not_elem_of_nil|]. exists d. by rewrite app_nil_r.
  - set (d1 := mkDisk (durable d) (cached d ++ bytes)).
    assert (len (cached d) + len bytes = len (cached d1)) as El by (simpl; rewrite length_app; lia).
    rewrite El in Hok |- *. specialize (IH d1 (len (cached d1))).
    destruct (save_body expected (len (cached d1)) body) as [es o].
    set (guard := match expected with Some _ => _ | None => Ok tt end) in *.
    destruct guard as [u| |]; [|done..]. simpl in Hok, IH |- *.
    destruct (IH Hok eq_refl) as (Hb & d' & Ed & Ec).
    split; [intros [?|?]%elem_of_cons; [done|by apply Hb]|]. exists d'. rewrite write_at_end. split; [exact Ed|].
    by rewrite app_assoc.
  - done.
Qed.
Lemma single_spec reply expected file :
  is_ok (single reply expected).2 = true →
  ∃ r d, reply = Ok r ∧ r_status r = 200 ∧ Broken ∉ r_body r ∧
    foldl (λ f e, exec_file e f) file (single reply expected).1 = Some d ∧ cached d = data (r_body r).
Proof.
  intros Hok. unfold single in *. destruct reply as [r| |]; [|done..]. cbn [olift obind] in *.
  destruct (r_status r =? 200) eqn:E200; [|done]. cbn [ensure obind emit] in *.
  set (d0 := mkDisk (default [] (durable <$> file)) []).
  pose proof (save_body_spec expected (r_body r) d0 0) as H.
  destruct (save_body expected 0 (r_body r)) as [es [u| |]]; cbn in Hok, H; [|done..].
  destruct (H eq_refl eq_refl) as (Hb & d' & Ed & Ec). cbn [fst snd app] in *.
  exists r, (mkDisk (cached d') (cached d')). split; [done|]. split; [lia|]. split; [done|].
  assert (exec_file Truncate file = Some d0) as E0 by by destruct file.
  cbn [obind emit fst foldl]. rewrite E0, foldl_app, Ed. split; [done|]. exact Ec.
Qed.

Lemma pending_bounded m complete connections :
  (∀ i, i < len complete → i < m) → m ≤ U64_MAX →
  Forall (λ r, 0 ≤ r.1 ≤ r.2 ∧ r.2 < len complete) (contiguous_runs (missing complete) connections).
Proof.
  intros Hm HU.
  assert (∀ i, i ∈ missing complete → 0 ≤ i < len complete) as Hb.
  { intros i [H0 Hi]%missing_spec. apply lookup_lt_Some in Hi. lia. }
  destruct (contiguous_runs_spec (missing complete) connections) as [Hr He].
  { apply Forall_forall. intros i Hi. apply Hb in Hi as Hi'. specialize (Hm i). lia. }
  apply Forall_forall. intros r Hin. pose proof (proj1 (Forall_forall _ _) Hr r Hin) as [Hr1 _].
  split; [lia|]. apply (Hb r.2). rewrite <- He. apply list_elem_of_In, in_flat_map. exists r.
  split; [by apply list_elem_of_In|]. apply list_elem_of_In, expand_last. lia.
Qed.
Lemma new_coordinator_ok o remote state already n d : 1 ≤ connections o →
  size remote = Some n → 0 < n ≤ U64_MAX → 0 < cp_piece_size state →
  len (cp_complete state) = div_ceil n (cp_piece_size state) → len (cached d) = n →
  (∀ i : nat, cp_complete state !! i = Some true →
     stored (source (remote_key remote)) n (cp_piece_size state) d (Z.of_nat i)) →
  co_ok (source (remote_key remote)) n d (new_coordinator o remote state already).
Proof.
  intros Hcn Es Hb Hps Hl Hc Hf.
  destruct (div_ceil_spec n (cp_piece_size state) Hps) as [Hcov Hlast].
  rewrite <- Hl in Hcov, Hlast. unfold new_coordinator. rewrite Es. split; cbn; try done; try lia.
  - by apply Forall_replicate.
  - apply (pending_bounded n); [|lia]. intros i Hi. specialize (Hlast i Hi).
    destruct (decide (i < 0)); [lia|]. nia.
Qed.
Lemma flags_stored cp remote n d : checkpoint_key cp = remote_key remote → size remote = Some n →
  flags_ok cp d ↔ ∀ i : nat, cp_complete cp !! i = Some true →
    stored (source (remote_key remote)) n (cp_piece_size cp) d (Z.of_nat i).
Proof. intros E En. unfold flags_ok. rewrite E. injection E as _ _ ->. by rewrite En. Qed.
Lemma open_ok reply w w' : sound_action source whole found (Open reply) → world_ok w →
  open reply w = Some w' → world_ok w'.
Proof.
  intros Hs Hw. unfold open. destruct (session w) as [[[o remote] [state| | | |]]|] eqn:Es; try done.
  destruct (wo_session _ Hw _ _ _ Es) as (Hcn & Hc & Hof & Hv & Hst).
  pose proof (wo_free _ Hw _ _ _ Es) as Hfree.
  destruct (parallel remote) eqn:Ep.
  - destruct Hst as (Hps & Hl & Hfl). intros [= <-].
    destruct (parallel_size _ Hv Ep) as (n & Esz & Hb). rewrite Esz in *. simpl in Hl, Hfl |- *.
    set (d := mkDisk _ _).
    assert (flags_ok state d) as Hflags.
    { destruct Hfl as [|(d0 & Ed & El)]; [by apply no_flags_ok|].
      assert (d = d0) as ->; [|by apply (wo_control _ Hw)]. unfold d, set_len. rewrite Ed. simpl.
      rewrite <- El, Nat2Z.id, resize_all. by destruct d0. }
    split; cbn [set_session set_part control part target session].
    + intros cp d' Ecp [= <-]. rewrite Hc in Ecp. by injection Ecp as <-.
    + apply (wo_target _ Hw).
    + intros _ _ _ _ _. by apply Hfree.
    + intros o' remote' s [= <- <- <-]. exists d, state, n. do 8 (split; [done|]).
      apply new_coordinator_ok; try done; [|by apply flags_stored].
      unfold d, set_len. simpl. rewrite length_resize. lia.
  - destruct (single reply (size remote)) as [todo outcome] eqn:E1. intros [= <-].
    split; cbn [set_session control part target session]; [apply (wo_control _ Hw)|apply (wo_target _ Hw)|..].
    { intros _ _ _ _ _. by apply Hfree. }
    intros o' remote' s [= <- <- <-]. split; [by exists state|]. intros Hok.
    destruct (single_spec reply (size remote) (part w)) as (r & d & -> & H200 & Hb & Ed & Ec); [by rewrite E1|].
    rewrite E1 in Ed. exists d. split; [exact Ed|]. rewrite Ec. by apply Hs.
Qed.

Lemma worker_world a o remote co co' file' w :
  sound_action source whole found a → world_ok w → session w = Some (o, remote, Parallel co) →
  worker_step a co (part w) = Some (co', file') →
  world_ok (set_part file' (set_session (Some (o, remote, Parallel co')) w)).
Proof.
  intros Ha Hw Es E.
  destruct (wo_session _ Hw _ _ _ Es) as (d & cp & n & Ed & Hv & Hp & Hz & Hrem & Hof & Hc & Hcof & Hco).
  rewrite Ed in E. destruct (worker_step_frame _ _ _ _ _ E) as [Ework Estate].
  destruct (worker_step_ok source sized whole found remote n a d co co' file')
    as (d' & -> & Hadv & Hco'); try done; [by apply parallel_validator|].
  split; cbn [set_session set_part control part target session].
  - intros cp' d'' Ec [= <-]. rewrite Hc in Ec. injection Ec as <-.
    apply (flags_advances cp d); [by rewrite Hcof|]. by apply (wo_control _ Hw).
  - apply (wo_target _ Hw).
  - intros _ _ _ _ _. by apply (wo_free _ Hw _ _ _ Es).
  - intros o' remote' s [= <- <- <-]. exists d', cp, n. rewrite Ework, Estate. by split_and!.
Qed.

(** Marking a piece that is stored. *)
Lemma store_spec (l l' : list bool) i : store l i true = Ok l' →
  length l' = length l ∧ ∀ j : nat, l' !! j = Some true → l !! j = Some true ∨ Z.of_nat j = i.
Proof.
  unfold store, copy_in. destruct (_ && _) eqn:E; [|done]. intros [= <-].
  assert (0 ≤ i < len l) as Hi by (simpl in E; lia). split.
  - rewrite length_app, length_take. simpl. rewrite length_drop. lia.
  - intros j. rewrite lookup_app. destruct (take (Z.to_nat i) l !! j) eqn:Ej.
    + intros [= ->]. left. by apply lookup_take_Some in Ej as [? _].
    + apply lookup_ge_None in Ej. rewrite length_take in Ej.
      intros H. destruct (decide (Z.of_nat j = i)) as [|Hne]; [by right|left].
      rewrite length_take in H. destruct (j - Nat.min (Z.to_nat i) (length l))%nat as [|k] eqn:Ek; [lia|].
      change (drop (Z.to_nat (i + 1)) l !! k = Some true) in H. rewrite lookup_drop in H.
      rewrite <- H. f_equal. lia.
Qed.
Lemma store_in (l : list bool) i : 0 ≤ i < len l → ∃ l', store l i true = Ok l'.
Proof.
  intros Hi. unfold store, copy_in. change (len [true]) with 1.
  replace ((0 <=? i) && (i <=? i + 1) && (i + 1 <=? len l) && (1 =? i + 1 - i)) with true by lia.
  eexists. reflexivity.
Qed.
Lemma store_all_spec q : ∀ l l', store_all q l = Ok l' →
  length l' = length l ∧ ∀ j : nat, l' !! j = Some true → l !! j = Some true ∨ Z.of_nat j ∈ q.
Proof.
  unfold store_all. induction q as [|i q IH] using rev_ind; intros l l'; [intros [= ->]; auto|].
  rewrite foldl_app. cbn [foldl]. intros H. res_inv. destruct (IH _ _ E) as [Hl Hj].
  apply store_spec in H as [Hl' Hj']. split; [lia|]. intros j [H%Hj| <-]%Hj'; [|set_solver].
  destruct H; set_solver.
Qed.

Lemma all_stored C n d co : co_ok C n d co → forallb id (cp_complete (co_state co)) = true →
  good C (cached d) 0 n.
Proof.
  intros H Ha j Hj. set (ps := w_piece_size (co_work co)). pose proof (ck_piece _ _ _ _ H) as Hps. fold ps in Hps.
  pose proof (ck_cover _ _ _ _ H) as Hcov. fold ps in Hcov.
  set (i := Z.of_nat j / ps).
  assert (i * ps ≤ Z.of_nat j < (i + 1) * ps) as Hi by (unfold i; zlia).
  assert (0 ≤ i) as Hi0 by (unfold i; apply Z.div_pos; lia).
  assert (i < len (cp_complete (co_state co))) as Hil by nia.
  destruct (lookup_lt_is_Some_2 (cp_complete (co_state co)) (Z.to_nat i)) as [b Eb]; [lia|].
  assert (b = true) as ->.
  { rewrite forallb_forall in Ha. apply (Ha b), list_elem_of_In. by eapply list_elem_of_lookup_2. }
  destruct (ck_complete _ _ _ _ H (Z.to_nat i) Eb) as [Hg _]. apply Hg. rewrite Z2Nat.id by done. lia.
Qed.

(** The pieces of the queue may be marked. *)
Lemma mark_ok C n d co q complete : co_ok C n d co → (∀ i, i ∈ q → i ∈ co_queue co) →
  length complete = length (cp_complete (co_state co)) →
  (∀ j : nat, complete !! j = Some true → cp_complete (co_state co) !! j = Some true ∨ Z.of_nat j ∈ co_queue co) →
  co_ok C n d (set_complete complete (set_queue q co)) ∧
  ∀ i : nat, complete !! i = Some true → stored C n (cp_piece_size (co_state co)) d (Z.of_nat i).
Proof.
  intros Hco Hsub Hl Hj. pose proof (ck_queue _ _ _ _ Hco) as Hq.
  assert (∀ i : nat, complete !! i = Some true → stored C n (w_piece_size (co_work co)) d (Z.of_nat i)) as Hst.
  { intros i [Hi|Hi]%Hj; [by apply (ck_complete _ _ _ _ Hco)|].
    by apply (proj1 (Forall_forall _ _) Hq) in Hi as [_ ?]. }
  split; [|by rewrite (ck_state _ _ _ _ Hco)].
  apply co_set_complete; [|done|done]. apply co_set_queue; [done|].
  apply Forall_forall. intros i Hi%Hsub. by apply (proj1 (Forall_forall _ _) Hq).
Qed.
Lemma receive_world o remote co i q complete w :
  world_ok w → session w = Some (o, remote, Parallel co) → co_queue co = i :: q →
  store (cp_complete (co_state co)) i true = Ok complete →
  let co' := set_complete complete (set_queue q co) in
  world_ok (set_control (Some (co_state co')) (set_session (Some (o, remote, Parallel co')) w)).
Proof.
  intros Hw Es Eq [Hl Hj]%store_spec co'.
  destruct (wo_session _ Hw _ _ _ Es) as (d & cp & n & Ed & Hv & Hp & Hz & Hrem & Hof & Hc & Hcof & Hco).
  destruct (mark_ok _ n d co q complete Hco) as [Hco' Hst];
    [rewrite Eq; by right|done|intros j [?| <-]%Hj; [by left|right; rewrite Eq; left]|].
  split; cbn [set_session set_control control part target session].
  - intros cp' d' [= <-] Ed'. rewrite Ed in Ed'. injection Ed' as <-. by apply (flags_stored _ remote n).
  - apply (wo_target _ Hw).
  - intros _ _ _ _ _. by apply (wo_free _ Hw _ _ _ Es).
  - intros o' remote' s [= <- <- <-]. exists d, (co_state co'), n. by split_and!.
Qed.
Lemma drain_world o remote co complete w :
  world_ok w → session w = Some (o, remote, Parallel co) →
  store_all (co_queue co) (cp_complete (co_state co)) = Ok complete →
  let co' := set_complete complete (set_queue [] co) in
  world_ok (set_session (if forallb id complete then Some (o, remote, Complete) else None)
    (set_control (Some (co_state co')) w)).
Proof.
  intros Hw Es [Hl Hj]%store_all_spec co'.
  destruct (wo_session _ Hw _ _ _ Es) as (d & cp & n & Ed & Hv & Hp & Hz & Hrem & Hof & Hc & Hcof & Hco).
  destruct (mark_ok _ n d co [] complete Hco) as [Hco' Hst]; [by intros ? ?%not_elem_of_nil|done|done|].
  split; cbn [set_session set_control control part target session].
  - intros cp' d' [= <-] Ed'. rewrite Ed in Ed'. injection Ed' as <-. by apply (flags_stored _ remote n).
  - apply (wo_target _ Hw).
  - intros _ _ _ _ _. by apply (wo_free _ Hw _ _ _ Es).
  - intros o' remote' s. destruct (forallb id complete) eqn:Eall; [|done]. intros [= <- <- <-].
    exists d. split; [done|]. right. exists remote. split; [apply Hv|].
    rewrite <- (ck_len _ _ _ _ Hco) in Hz. split; [done|]. split; [done|].
    rewrite (ck_len _ _ _ _ Hco). by apply (all_stored _ _ _ co').
Qed.

Lemma abandon_ok w : world_ok w → world_ok (set_session None w).
Proof. intros Hw. split; [apply (wo_control _ Hw)|apply (wo_target _ Hw)|done..]. Qed.
Lemma coordinator_world a o remote co w w' :
  world_ok w → session w = Some (o, remote, Parallel co) →
  coordinator_step a o remote co w = Some w' → world_ok w'.
Proof.
  intros Hw Es E. destruct a; try done; cbn [coordinator_step] in E.
  - destruct (co_queue co) as [|i q] eqn:Eq; [done|].
    destruct (store _ i true) as [complete| |] eqn:Est; [|done..]. injection E as <-. by eapply receive_world.
  - destruct (wo_session _ Hw _ _ _ Es) as (d & cp & k & Ed & Hv & Hp & Hz & Hrem & Hof & Hc & Hcof & Hco).
    destruct (co_workers co !! n) as [[| | |[u|e|]|]|]; try done;
      injection E as <-; try by apply abandon_ok.
    split; cbn [set_session control part target session]; [apply (wo_control _ Hw)|apply (wo_target _ Hw)|..].
    { intros _ _ _ _ _. by apply (wo_free _ Hw _ _ _ Es). }
    intros o' remote' s [= <- <- <-]. exists d, cp, k. do 8 (split; [done|]). by apply co_set_worker.
  - destruct (forallb is_joined _); [|done].
    destruct (store_all _ _) as [complete| |] eqn:Est; [|done..]. injection E as <-.
    by apply (drain_world o remote co).
Qed.

Lemma publish_ok o remote w w' : world_ok w → session w = Some (o, remote, Complete) →
  publish digest o remote w = Some w' → world_ok w'.
Proof.
  intros Hw Es. destruct (wo_session _ Hw _ _ _ Es) as (d & Ed & Ht).
  unfold publish. rewrite Ed. destruct (target w); [done|].
  assert (world_ok (mkWorld None (control w) (Some (cached d)) (Some (o, remote, Published)))) as Hpub.
  { split; cbn; [done|by intros f [= <-]|..]; by intros o' remote' s [= <- <- <-]. }
  destruct (sha256 o) as [expected|]; [destruct (is_ok _)|]; intros [= <-]; [done| |done].
  by apply abandon_ok.
Qed.

(** The effects left of a plain request do not depend on the durable bytes. *)
Lemma effects_cached es : ∀ da db d', cached da = cached db →
  foldl (λ f e, exec_file e f) (Some da) es = Some d' →
  ∃ db', foldl (λ f e, exec_file e f) (Some db) es = Some db' ∧ cached db' = cached d'.
Proof.
  induction es as [|e es IH]; intros da db d' E; [intros [= <-]; by exists db|].
  cbn [foldl]. destruct e; simpl; rewrite ?E; by apply IH.
Qed.
(** A change of the durable bytes only. *)
Lemma flush_ok d f w : world_ok w → part w = Some d → mixture d f = true →
  world_ok (set_part (Some (mkDisk f (cached d))) w).
Proof.
  intros Hw Ed Hm. split; cbn [set_part control part target session].
  - intros cp d' Ec [= <-]. apply (flags_advances cp d); [by apply flush_advances|]. by apply (wo_control _ Hw).
  - apply (wo_target _ Hw).
  - apply (wo_free _ Hw).
  - intros o remote s Es. pose proof (wo_session _ Hw _ _ _ Es) as Hs.
    destruct s as [state|received todo outcome|co| |]; simpl in *; try done.
    + destruct Hs as (? & ? & ? & ? & Hs). split_and!; try done. destruct (parallel remote); [|done].
      destruct Hs as (? & ? & [|(d' & Ed' & ?)]); split_and!; try done; [by left|right].
      rewrite Ed in Ed'. injection Ed' as <-. by eexists.
    + destruct Hs as [Hs1 Hs2]. split; [done|]. intros Hok. destruct (Hs2 Hok) as (d' & Ef & Ec).
      rewrite Ed in Ef. destruct (effects_cached todo d (mkDisk f (cached d)) d' eq_refl Ef) as (db & Edb & Ecb).
      exists db. split; [done|]. by rewrite Ecb.
    + destruct Hs as (d' & cp & n & Ed' & Hs). rewrite Ed in Ed'. injection Ed' as <-.
      exists (mkDisk f (cached d)), cp, n. destruct Hs as (? & ? & ? & ? & ? & ? & ? & Hco). split_and!; try done.
      eapply co_advances; [|exact Hco]. by apply flush_advances.
    + destruct Hs as (d' & Ed' & ?). rewrite Ed in Ed'. injection Ed' as <-. by eexists.
Qed.

(** The steps of a session. *)
Lemma single_world o remote received e todo outcome received' w :
  world_ok w → session w = Some (o, remote, Single received (e :: todo) outcome) →
  world_ok (set_part (exec_file e (part w)) (set_session (Some (o, remote, Single received' todo outcome)) w)).
Proof.
  intros Hw Es. destruct (wo_session _ Hw _ _ _ Es) as [(cp & Hc & Hn) Hout].
  split; cbn [set_session set_part control part target session].
  - intros cp' d' Ec _. rewrite Hc in Ec. injection Ec as <-. by apply no_flags_ok.
  - apply (wo_target _ Hw).
  - intros _ _ _ _ _. by apply (wo_free _ Hw _ _ _ Es).
  - intros o' remote' s [= <- <- <-]. split; [by exists cp|exact Hout].
Qed.
Lemma single_done_world o remote received outcome w :
  world_ok w → session w = Some (o, remote, Single received [] outcome) → is_ok outcome = true →
  world_ok (set_session (Some (o, remote, Complete)) w).
Proof.
  intros Hw Es Hok. destruct (wo_session _ Hw _ _ _ Es) as [_ Hout].
  destruct (Hout Hok) as (d & Ed & Ec).
  split; cbn [set_session control part target session]; [apply (wo_control _ Hw)|apply (wo_target _ Hw)|..].
  { intros _ _ _ _ _. by apply (wo_free _ Hw _ _ _ Es). }
  intros o' remote' s [= <- <- <-]. exists d. split; [done|by left].
Qed.
Lemma session_step_ok a o remote s w w' : sound_action source whole found a → world_ok w →
  session w = Some (o, remote, s) → session_step digest a o remote s w = Some w' → world_ok w'.
Proof.
  intros Ha Hw Es E.
  assert (∀ co, s = Parallel co →
    match worker_step a co (part w) with
    | Some (co, file) => Some (set_part file (set_session (Some (o, remote, Parallel co)) w))
    | None => None
    end = Some w' → world_ok w') as Hworker.
  { intros co -> Ew. destruct (worker_step a co (part w)) as [[co' file']|] eqn:Es'; [|done].
    injection Ew as <-. by eapply worker_world. }
  assert (∀ co, s = Parallel co → coordinator_step a o remote co w = Some w' → world_ok w') as Hcoord.
  { intros co -> Ec. exact (coordinator_world a o remote co w w' Hw Es Ec). }
  destruct a, s as [state|received todo outcome|co| |]; try done; cbn [session_step] in E;
    try exact (Hworker _ eq_refl E); try exact (Hcoord _ eq_refl E).
  - destruct todo as [|e todo]; [done|]. injection E as <-.
    eapply single_world; [exact Hw|exact Es].
  - destruct todo as [|e todo]; [|done]. injection E as <-.
    destruct (is_ok outcome) eqn:Eo; [exact (single_done_world _ _ _ _ _ Hw Es Eo)|by apply abandon_ok].
  - exact (publish_ok _ _ _ _ Hw Es E).
  - injection E as <-. split; cbn; [done|apply (wo_target _ Hw)|done..].
Qed.
Lemma crash_ok d f w : world_ok w → part w = Some d → mixture d f = true →
  world_ok (mkWorld (Some (mkDisk f f)) (control w) (target w) None).
Proof.
  intros Hw Ed Hm. split; [|apply (wo_target _ Hw)|done..]. intros cp d' Ec [= <-].
  apply (flags_crash _ d); [done|]. by apply (wo_control _ Hw).
Qed.
Lemma world_act_ok a w w' : sound_action source whole found a → world_ok w → act url digest a w = Some w' → world_ok w'.
Proof.
  intros Ha Hw E.
  assert (match session w with
          | Some (o, remote, s) => session_step digest a o remote s w
          | None => None
          end = Some w' → world_ok w') as Hstep.
  { destruct (session w) as [[[o remote] s]|] eqn:Es; [|done]. intros Ew. exact (session_step_ok _ _ _ _ _ _ Ha Hw Es Ew). }
  destruct a; cbn [act] in E; try exact (Hstep E).
  - exact (start_world_ok _ _ _ _ Ha Hw E).
  - exact (open_ok _ _ _ Ha Hw E).
  - destruct (part w) as [d|] eqn:Ed; [|done]. destruct (mixture d f) eqn:Em; [|done].
    injection E as <-. by apply flush_ok.
  - injection E as <-. by apply abandon_ok.
  - destruct (part w) as [d|] eqn:Ed; [destruct (mixture d f) eqn:Em; [|done]|];
      injection E as <-; [exact (crash_ok d f w Hw Ed Em)|by apply abandon_ok].
Qed.
Lemma run_world_ok actions : ∀ w w', Forall (sound_action source whole found) actions → world_ok w →
  run url digest actions w = Some w' → world_ok w'.
Proof.
  induction actions as [|a actions IH]; intros w w' Ha Hw; simpl; [by intros [= <-]|].
  apply Forall_cons in Ha as [Ha Has]. destruct (act url digest a w) as [w1|] eqn:E; [|done]. cbn.
  apply IH; [done|by eapply world_act_ok].
Qed.
Lemma nothing_ok : world_ok nothing.
Proof. by split. Qed.
End world.

(** ** Theorems *)

Section published_file.
Context `{L : NameLibs} (url : string) (digest : list Z → string).

(** What the options of a run ask of the file. *)
Definition checked (o : Options) (f : list Z) : Prop :=
  ∀ expected, sha256 o = Some expected → eq_ignore_ascii_case (digest f) expected = true.
Lemma checksum_ok f expected : is_ok (checksum digest f expected) = true →
  eq_ignore_ascii_case (digest f) expected = true.
Proof.
  unfold checksum. destruct (_ && _); [|done]. simpl. by destruct (eq_ignore_ascii_case _ _).
Qed.

(** Where the options of a session and a published file come from. *)
Record traced_back (P : Options → Prop) (w : World) : Prop := {
  tb_session o remote s : session w = Some (o, remote, s) → P o;
  tb_target f : target w = Some f → ∃ o, P o ∧ checked o f }.
Lemma session_step_traced P a o remote s w w' : traced_back P w → session w = Some (o, remote, s) →
  session_step digest a o remote s w = Some w' → traced_back P w'.
Proof.
  intros Hw Es E. pose proof (tb_session _ _ Hw _ _ _ Es) as Ho.
  assert (∀ w1, target w1 = target w → ((∃ s1, session w1 = Some (o, remote, s1)) ∨ session w1 = None) →
    traced_back P w1) as Hsame.
  { intros w1 Ht Hs. split; [|rewrite Ht; apply (tb_target _ _ Hw)].
    intros o' r' s' E'. destruct Hs as [[s1 Hs]|Hs]; rewrite Hs in E'; [by injection E' as <- <- <-|done]. }
  assert (∀ f, (∀ expected, sha256 o = Some expected → is_ok (checksum digest f expected) = true) →
    traced_back P (mkWorld None (control w) (Some f) (Some (o, remote, Published)))) as Hpub.
  { intros f Hf. split; cbn; [by intros ? ? ? [= <- <- <-]|]. intros f' [= <-]. exists o. split; [done|].
    intros expected He. by apply checksum_ok, Hf. }
  unfold session_step, coordinator_step, publish in E.
  repeat case_match; simplify_eq; try (by apply Hsame; [done|eauto]); apply Hpub; naive_solver.
Qed.
Lemma act_traced P a w w' : traced_back P w → (∀ o reply, a = Start o reply → P o) →
  act url digest a w = Some w' → traced_back P w'.
Proof.
  intros Hw Ha E.
  assert (∀ w1, target w1 = target w → (∀ o r s, session w1 = Some (o, r, s) → P o) → traced_back P w1) as Hsame.
  { intros w1 Ht Hs. split; [done|]. rewrite Ht. apply (tb_target _ _ Hw). }
  assert (∀ o r s, session w = Some (o, r, s) → session_step digest a o r s w = Some w' → traced_back P w') as Hst.
  { intros o r s Es. by apply (session_step_traced P a o r s w w'). }
  destruct a; cbn [act] in E;
    try (destruct (session w) as [[[o' r'] s']|]; [by apply (Hst o' r' s' eq_refl)|done]).
  - unfold start in E. repeat case_match; simplify_eq; apply Hsame; try done.
    intros o' r' s' [= <- _ _]. by eapply Ha.
  - unfold open in E. destruct (session w) as [[[o' r'] s']|] eqn:Es; [|done].
    pose proof (tb_session _ _ Hw _ _ _ Es). repeat case_match; simplify_eq; apply Hsame; try done;
      by intros o2 r2 s2 [= <- _ _].
  - repeat case_match; simplify_eq. apply Hsame; [done|]. apply (tb_session _ _ Hw).
  - simplify_eq. by apply Hsame.
  - repeat case_match; simplify_eq; by apply Hsame.
Qed.
Lemma run_traced P actions : ∀ w w', traced_back P w →
  Forall (λ a, ∀ o reply, a = Start o reply → P o) actions →
  run url digest actions w = Some w' → traced_back P w'.
Proof.
  induction actions as [|a actions IH]; intros w w' Hw Ha; simpl; [by intros [= <-]|].
  apply Forall_cons in Ha as [Ha Has]. destruct (act url digest a w) as [w1|] eqn:E; [|done]. cbn.
  apply IH; [|done]. by eapply act_traced.
Qed.

(** The replies come from versions the server published. *)
Definition honest_action (published : Version → Prop) (a : Action) : Prop :=
  match a with
  | Open reply => served published reply
  | Ask _ serve => ∀ q, served published (serve q)
  | _ => True
  end.
(** The body of a plain request that is encoded, or whose end is the end of the connection. *)
Definition plain_body (published : Version → Prop) (actions : list Action) (f : list Z) : Prop :=
  ∃ r, Open (Ok r) ∈ actions ∧ r_status r = 200 ∧ f = data (r_body r) ∧
    (not_encoded r = false ∨ delimited r = false ∧ ∃ v, published v ∧ f `prefix_of` v_content v).
(** A probe found no strong tag, and every byte is that of a version of the date it found. *)
Definition dated (published : Version → Prop) (actions : list Action) (f : list Z) : Prop :=
  ∃ o r m, Start o (Ok r) ∈ actions ∧ (∀ e, r_header r "etag" = Some e → strong e = false) ∧
    r_header r "last-modified" = Some m ∧
    ∀ j x, f !! j = Some x → ∃ v, published v ∧ v_modified v = Some m ∧
      length (v_content v) = length f ∧ v_content v !! j = Some x.

Definition whole_of (published : Version → Prop) (actions : list Action) (f : list Z) : Prop :=
  (∃ v, published v ∧ f = v_content v) ∨ plain_body published actions f.
Definition found_in (actions : list Action) (remote : Remote) : Prop :=
  ∃ o r, Start o (Ok r) ∈ actions ∧ probe (Ok r) = Ok remote.
Lemma honest_sound published actions : Forall (honest_action published) actions →
  Forall (sound_action (versions published) (whole_of published actions) (found_in actions)) actions.
Proof.
  intros H. apply Forall_forall. intros a Hin. pose proof (proj1 (Forall_forall _ _) H a Hin) as Ha.
  destruct a as [o reply|reply|n|n serve|n|n k|n| |n| | | | | |g| |g]; try done.
  - intros remote Ep. destruct reply as [r| |]; [by exists o, r|done..].
  - destruct reply as [r| |]; [|done..]. destruct Ha as [_ Ha]. destruct (Ha r eq_refl) as (v & Hp & Hh).
    intros H200 Hb. destruct (not_encoded r) eqn:Ee; [|right; exists r; by auto].
    destruct (h_full _ _ Hh H200 Ee Hb) as [Hpre Hall].
    destruct (delimited r) eqn:Ed; [left; exists v; auto|right]. exists r. split_and!; eauto.
  - by apply served_answers.
Qed.
Lemma versions_sized published k c : versions published k c → k.2 = Some (len c).
Proof. destruct k as [[e m] n]. by intros (v & _ & _ & -> & _). Qed.

(** A strong tag makes what was assembled one version; a date does not. *)
Lemma assembled_versions published actions remote f : unique_tags published →
  found_in actions remote → assembled (versions published) remote f →
  (∃ v, published v ∧ f = v_content v) ∨ dated published actions f.
Proof.
  intros Hu (o & r & Hin & Ep) (Hp & Hz & Hg).
  assert (∀ j x, f !! j = Some x → ∃ v, published v ∧ length (v_content v) = length f ∧ v_content v !! j = Some x ∧
    (∀ t, etag remote = Some t → v_etag v = Some t) ∧ (∀ m, modified remote = Some m → v_modified v = Some m)) as Hv.
  { intros j x Hj. apply lookup_lt_Some in Hj as Hlt. destruct (Hg j) as (c & y & (v & Hpv & -> & Hn & Ht & Hm) & Ec & Ef); [lia|].
    exists v. rewrite Hz in Hn. injection Hn as Hn. rewrite Hj in Ef. injection Ef as <-. split_and!; try done. lia. }
  destruct (etag remote) as [e|] eqn:Ee.
  - left. destruct (probe_strong r remote e Ep Ee) as [Hw _].
    unfold parallel in Hp. rewrite Hz in Hp. simpl in Hp.
    destruct f as [|x0 f0] eqn:Ef; [by rewrite andb_false_r in Hp|]. rewrite <- Ef in *.
    destruct (Hv 0%nat x0) as (v & Hpv & Hl & _ & Ht & _); [by rewrite Ef|]. exists v. split; [done|].
    apply list_eq_same_length with (length f); [done|lia|]. intros j x y Hj Hx Hy.
    destruct (Hv j x Hx) as (v' & Hpv' & _ & Hx' & Ht' & _).
    rewrite (Hu v' v e Hpv' Hpv) in Hx'; [congruence|by unfold strong; rewrite Hw|auto..].
  - right. assert (has_validator remote = true) as Hval by by apply parallel_validator.
    unfold has_validator in Hval. rewrite Ee in Hval. cbn in Hval.
    destruct (modified remote) as [m|] eqn:Em; [|done]. exists o, r, m. split; [done|]. split.
    + intros e He. apply (probe_weak r remote) in He; [|done..]. unfold strong. by rewrite He.
    + split; [by rewrite <- (probe_modified r remote Ep)|]. intros j x Hj.
      destruct (Hv j x Hj) as (v & ? & ? & ? & _ & Hm). exists v. split_and!; auto.
Qed.

(** C28. Let a download be stopped as often as one likes, by a cancellation, an error or a
    crash that leaves any mixture of written and unwritten bytes; let workers, the coordinator
    and the disk interleave, any request fail at any byte, and every request meet another of
    the versions the server ever published, no two of which share a strong entity tag.  A file
    that is published has exactly the content of one of these versions, except where HTTP
    leaves the program no way to know: it is the body of a plain request that was encoded
    unasked, or a beginning of one version when neither a length nor chunks told the end of
    that body; or the probe of a run gave a date but no strong tag, and each byte is that of a
    version of this date and of the length of the file.  And the file has the SHA-256 some run
    was asked to check. *)
Theorem published_is_remote published actions w f :
  unique_tags published → Forall (honest_action published) actions →
  run url digest actions nothing = Some w → target w = Some f →
  ((∃ v, published v ∧ f = v_content v) ∨ plain_body published actions f ∨ dated published actions f) ∧
  ∃ o reply, Start o reply ∈ actions ∧ checked o f.
Proof.
  intros Hu Ha Hrun Ht. split.
  - pose proof (run_world_ok url digest _ (versions_sized published) _ _ actions nothing w
      (honest_sound published actions Ha) (nothing_ok _ _ _) Hrun) as Hw.
    destruct (wo_target _ _ _ _ Hw f Ht) as [[?|?]|(remote & Hf & Has)]; [by left|by auto|].
    destruct (assembled_versions published actions remote f Hu Hf Has); auto.
  - destruct (run_traced (λ o, ∃ reply, Start o reply ∈ actions) actions nothing w) as [_ H]; [by split| |done|].
    + apply Forall_forall. intros a Hin o reply ->. by exists reply.
    + destruct (H f Ht) as (o & [reply ?] & ?). by exists o, reply.
Qed.
End published_file.

(** ** Examples *)

(** The server replaces a file of five bytes by one of six.  The first run, in pieces of two
    over two connections, crashes after one piece of the old file; the second finds the new
    one, starts over, refuses a part of the old one that some server still sends, and asks
    for that part again. *)
Definition old_version : Version := mkVersion (Some "v1") None [10; 11; 12; 13; 14].
Definition sample_version : Version := mkVersion (Some "v2") None [20; 21; 22; 23; 24; 25].
Definition sample_serve (v : Version) (q : Request) : res Reply :=
  if bool_decide (0 ≤ q_start q ≤ q_end q) && (q_end q <? len (v_content v)) then
    Ok (answer "f" v (q_start q) (q_end q)
          [Data (take (Z.to_nat (q_end q - q_start q + 1)) (drop (Z.to_nat (q_start q)) (v_content v)))])
  else Err "unreachable".
Definition sample_published (v : Version) : Prop := v = old_version ∨ v = sample_version.
Definition sample_options : Options := mkOptions 2 2 (Some (String.concat "" (replicate 64 "0"))).
Definition sample_digest (_ : list Z) : string := String.concat "" (replicate 64 "0").
Definition sample_start (v : Version) : Action := Start sample_options (sample_serve v (mkRequest 0 0 None)).
Definition sample_actions : list Action :=
  [sample_start old_version; Open (Err ""); Take 0; Take 1;
   Ask 0 (sample_serve old_version); Ask 1 (sample_serve old_version);
   Exec 1; Exec 1; Exec 1; Exec 0; Exec 1; Fault 0 0; Receive; Crash [10; 0; 0; 0; 14];
   sample_start sample_version; Open (Err ""); Take 0; Take 1; Ask 1 (sample_serve old_version); Return 1;
   Ask 1 (sample_serve sample_version); Ask 0 (sample_serve sample_version)]
  ++ flat_map (λ n, replicate 6 (Exec n) ++ [Return n; Take n; Join n]) [0]%nat
  ++ flat_map (λ n, replicate 4 (Exec n) ++ [Return n; Take n; Join n]) [1]%nat
  ++ [Receive; Drain; Publish; Cleanup].

Lemma sample_unique : unique_tags sample_published.
Proof. intros v v' e [-> | ->] [-> | ->] _; cbn; congruence. Qed.
Lemma sample_served (P : Version → Prop) v q : P v → len (v_content v) < 2 ^ 64 → served P (sample_serve v q).
Proof.
  intros Hv Hl. unfold sample_serve. case_bool_decide as Hq; cbn [andb]; [|by split].
  destruct (q_end q <? len (v_content v)) eqn:E; [|by split]. split; [done|]. intros r [= <-].
  exists v. split; [done|]. apply answer_honest; try (unfold u64; lia).
  simpl. rewrite app_nil_r. eexists. symmetry. apply take_drop.
Qed.
Local Ltac honest :=
  repeat (apply Forall_cons; split); try apply Forall_nil;
  first [done | by split | intros q; apply sample_served; first [by left | by right | done]].
Lemma sample_honest : Forall (honest_action sample_published) sample_actions.
Proof.
  unfold sample_actions. cbn. honest.
Qed.
Definition sample_end : World := default nothing (run "u" sample_digest sample_actions nothing).
Lemma sample_run : run "u" sample_digest sample_actions nothing = Some sample_end ∧
  target sample_end = Some [20; 21; 22; 23; 24; 25].
Proof. split; [apply some_default|]; by_vm. Qed.

Lemma published_is_remote_witness :
  ((∃ v, sample_published v ∧ [20; 21; 22; 23; 24; 25] = v_content v) ∨
   plain_body sample_published sample_actions [20; 21; 22; 23; 24; 25] ∨
   dated sample_published sample_actions [20; 21; 22; 23; 24; 25]) ∧
  ∃ o reply, Start o reply ∈ sample_actions ∧ checked sample_digest o [20; 21; 22; 23; 24; 25].
Proof.
  exact (published_is_remote "u" sample_digest sample_published sample_actions sample_end
    [20; 21; 22; 23; 24; 25] sample_unique sample_honest (proj1 sample_run) (proj2 sample_run)).
Defined.

(** The exceptions happen.  A server without entity tags writes a file twice in a second: the
    program asks with [If-Range] and the date, which is not strong, and joins both versions. *)
Definition same_second (v : Version) : Prop :=
  v = mkVersion None (Some "t") [1; 2; 3; 4] ∨ v = mkVersion None (Some "t") [5; 6; 7; 8].
Definition mix_options : Options := mkOptions 2 2 None.
Definition mix_actions : list Action :=
  let serve c := sample_serve (mkVersion None (Some "t") c) in
  [Start mix_options (serve [1; 2; 3; 4] (mkRequest 0 0 None)); Open (Err ""); Take 0; Take 1;
   Ask 0 (serve [1; 2; 3; 4]); Ask 1 (serve [5; 6; 7; 8])]
  ++ flat_map (λ n, replicate 4 (Exec n) ++ [Return n; Take n; Join n]) [0; 1]%nat
  ++ [Drain; Publish; Cleanup].
Lemma dates_mix : Forall (honest_action same_second) mix_actions ∧ unique_tags same_second ∧
  target <$> run "u" sample_digest mix_actions nothing = Some (Some [1; 2; 7; 8]).
Proof.
  split; [|split].
  - unfold mix_actions. cbn. honest.
  - intros v v' e [-> | ->] [-> | ->]; done.
  - by_vm.
Qed.
(** A connection that closes early ends a body without a length: its beginning is published. *)
Definition cut_reply : Reply := mkReply 200 (λ _, None) None "f" [Data [1; 2]].
Definition cut_published (v : Version) : Prop := v = mkVersion None None [1; 2; 3].
Definition cut_actions : list Action :=
  [Start mix_options (Ok cut_reply); Open (Ok cut_reply)] ++ replicate 4 ExecSingle ++ [FinishSingle; Publish; Cleanup].
Lemma cut_is_published : Forall (honest_action cut_published) cut_actions ∧ unique_tags cut_published ∧
  target <$> run "u" sample_digest cut_actions nothing = Some (Some [1; 2]).
Proof.
  split; [|split].
  - repeat constructor; try done. intros r [= <-]. eexists. split; [done|]. split; try done.
    intros _ _ _. split; [by exists [3]|done].
  - intros v v' e -> ->. done.
  - by_vm.
Qed.
