(* ===== verification/DownloadEnd.v ===== *)
(** * Every run of a download ends ([porthub-transfer/src/download.rs])

    The steps a process takes by itself (not a new run, a crash, a cancellation or the write
    back of the operating system) always come to an end, because a run makes at most six
    requests for the rest of a run of pieces; and while a run lasts, it has a step: no worker
    waits for a full channel that nobody empties.  Nothing is assumed of what the replies
    hold.  A reply is there when its request is: that a request is answered or fails, and that
    a body ends, is the assumption of the model, which the client's read timeout does not give
    for a body of unknown size that goes on for ever.  Where the size is known, the body may
    go on: what follows the bytes asked for makes no difference. *)

From Stdlib Require Import Relation_Operators Lexicographic_Product.
From S2P Require Import Prelude Net RustStr Text FileNames Download DownloadRun.
Local Open Scope string_scope.
Local Open Scope list_scope.
Local Open Scope Z_scope.

(** ** Bodies that go on *)

Section endless.
Context `{L : NameLibs}.

Lemma obind_cong {A B} (x : Out A) (k k' : A → Out B) :
  (∀ a, x.2 = Ok a → k a = k' a) → obind x k = obind x k'.
Proof. destruct x as [es [a|e|]]; simpl; [|done..]. intros H. by rewrite (H a). Qed.

(** Once more bytes than the range has have arrived, the rest of the body is not read. *)
Lemma receive_stops w start end_ last body rest : ∀ received index,
  start ≤ end_ → 0 ≤ received ≤ end_ - start + 1 → end_ - start + 1 < received + len (data body) →
  receive w start end_ last received index (body ++ rest) = receive w start end_ last received index body.
Proof.
  induction body as [|[bytes|] body IH]; intros received index Hse Hr Hd; cbn [data app receive] in *.
  - simpl in Hd. lia.
  - rewrite length_app in Hd. rewrite !usub_ok by lia.
    apply obind_cong. intros ? [= <-]. rewrite !usub_ok by lia. apply obind_cong. intros ? [= <-].
    apply obind_cong. intros [] Hlen%ensure_ok%Z.leb_le. do 3 (apply obind_cong; intros ? _).
    apply IH; lia.
  - done.
Qed.
(** Nor is it once a plain body is longer than the size the probe found. *)
Lemma save_body_stops expected body rest : ∀ size,
  expected < size + len (data body) → size ≤ expected →
  save_body (Some expected) size (body ++ rest) = save_body (Some expected) size body.
Proof.
  induction body as [|[bytes|] body IH]; intros size Hd Hs; cbn [data app save_body] in *.
  - simpl in Hd. lia.
  - rewrite length_app in Hd. do 2 (apply obind_cong; intros ? _).
    apply obind_cong. intros [] Hlen%ensure_ok%Z.leb_le. apply IH; lia.
  - done.
Qed.
End endless.

(** ** Replies of any kind *)

Section any_reply.
Context `{L : NameLibs}.

(** Any content of the size asked for: with these sources every reply is sound. *)
Definition any_source (k : Key) (c : list Z) : Prop := k.2 = Some (len c).
Definition anything {A} (_ : A) : Prop := True.
Lemma any_from_source r : from_source any_source r.
Proof.
  intros remote a b t _ _ _ Hab Hbt Hsize _ _. set (l := take _ (data (r_body r))).
  assert (len l ≤ b - a + 1) as Hl by (unfold l; rewrite length_take; lia).
  exists (replicate (Z.to_nat a) 0 ++ l ++ replicate (Z.to_nat (t - a - len l)) 0). split.
  - unfold any_source. cbn [remote_key snd]. rewrite Hsize, !length_app, !length_replicate. f_equal. lia.
  - rewrite drop_app_length' by (by rewrite length_replicate). by eexists.
Qed.
(** The HTTP client returns. *)
Definition answered (a : Action) : Prop :=
  match a with Ask _ serve => ∀ q, serve q ≠ Panic | _ => True end.
Lemma answered_sound a : answered a → sound_action any_source anything anything a.
Proof.
  destruct a as [o reply|[r| |]|n|n serve|n|n k|n| |n| | | | | |g| |g]; try done.
  intros H q. split; [apply H|]. intros r _. apply any_from_source.
Qed.
End any_reply.

Section ends.
Context `{L : NameLibs} (url : string) (digest : list Z → string).
Local Notation sane := (world_ok any_source anything anything).

(** The steps of the process. *)
Definition of_process (a : Action) : bool :=
  match a with Start _ _ | Flush _ | Abandon | Crash _ => false | _ => true end.
Definition process_step (w' w : World) : Prop :=
  ∃ a, of_process a = true ∧ answered a ∧ act url digest a w = Some w'.

(** ** What decreases *)

(** Requests a worker may still make for its run, and steps until the next one. *)
Definition asks_of (p : Phase) : nat :=
  match p with
  | Asking _ _ attempt => Z.to_nat (6 - attempt)
  | Running _ _ attempt _ _ _ _ => Z.to_nat (5 - attempt)
  | _ => 0
  end.
Definition steps_of (p : Phase) : nat :=
  match p with
  | Fetching => 5
  | Asking _ _ _ => 4
  | Running _ _ _ _ _ todo _ => 6 + 2 * length todo
  | Stopped _ => 2
  | Joined => 1
  end.
Definition asks (co : Coordinator) : nat :=
  (6 * length (drop (co_next co) (co_pending co)) + sum_list_with asks_of (co_workers co))%nat.
Definition steps (co : Coordinator) : nat :=
  (length (co_queue co) + sum_list_with steps_of (co_workers co))%nat.
Definition measure (w : World) : nat * (nat * nat) :=
  match session w with
  | None => (0, (0, 0))%nat
  | Some (_, _, Published) => (1, (0, 0))%nat
  | Some (_, _, Complete) => (2, (0, 0))%nat
  | Some (_, _, Parallel co) => (3, (asks co, steps co))%nat
  | Some (_, _, Single _ todo _) => (3, (0, length todo))%nat
  | Some (_, _, Opening _) => (4, (0, 0))%nat
  end.
Definition smaller : nat * (nat * nat) → nat * (nat * nat) → Prop :=
  slexprod nat (nat * nat) lt (slexprod nat nat lt lt).
Lemma smaller_wf : well_founded smaller.
Proof. unfold smaller. apply wf_slexprod; [apply lt_wf|]. apply wf_slexprod; apply lt_wf. Qed.
Lemma smaller_intro (x x' : nat) (y y' z z' : nat) :
  (x' < x ∨ x' = x ∧ (y' < y ∨ y' ≤ y ∧ z' < z))%nat → smaller (x', (y', z')) (x, (y, z)).
Proof.
  intros [H|[-> [H|[H1 H2]]]]; [by left|right; by left|right].
  destruct (decide (y' = y)) as [->|]; [by right|left; lia].
Qed.

Lemma sum_insert {A} (f : A → nat) (l : list A) n p q : l !! n = Some q →
  (sum_list_with f (<[n := p]> l) + f q = sum_list_with f l + f p)%nat.
Proof.
  revert n. induction l as [|x l IH]; intros [|n]; simpl; try done.
  - intros [= ->]. lia.
  - intros H%IH. lia.
Qed.

Definition attempts_ok (co : Coordinator) : Prop :=
  Forall (λ p, match p with Asking _ _ a | Running _ _ a _ _ _ _ => 0 ≤ a ≤ 5 | _ => True end) (co_workers co).
Lemma co_attempts C n d co : co_ok C n d co → attempts_ok co.
Proof.
  intros H. eapply Forall_impl; [apply (ck_workers _ _ _ _ H)|]. intros [] Hw; simpl in *; try done; apply Hw.
Qed.

Definition less (co' co : Coordinator) : Prop :=
  (asks co' < asks co ∨ asks co' ≤ asks co ∧ steps co' < steps co)%nat.

(** A worker that moves from phase [q] to [p]. *)
Lemma set_worker_less co co1 n p q : co_workers co !! n = Some q →
  co_workers co1 = co_workers co → co_pending co1 = co_pending co →
  (let left c := 6 * length (drop (co_next c) (co_pending c)) in
   left co1 + asks_of p < left co + asks_of q ∨
   left co1 + asks_of p ≤ left co + asks_of q ∧
   length (co_queue co1) + steps_of p < length (co_queue co) + steps_of q)%nat →
  less (set_worker n p co1) co.
Proof.
  intros Hq Ew Ep H. unfold less, asks, steps, set_worker, set_workers in *. simpl in *. rewrite Ew, Ep in *.
  pose proof (sum_insert asks_of (co_workers co) n p q Hq).
  pose proof (sum_insert steps_of (co_workers co) n p q Hq). lia.
Qed.
Lemma fail_less co n q index last attempt received committed : co_workers co !! n = Some q →
  asks_of q = Z.to_nat (5 - attempt) → 0 ≤ attempt ≤ 5 → (6 ≤ steps_of q)%nat →
  less (fail_run n index last attempt received committed co) co.
Proof.
  intros Hq Ha Hb Hs. unfold fail_run. eapply set_worker_less; [exact Hq|done|done|].
  simpl. rewrite Ha. destruct (Z.eqb_spec attempt 5); simpl; lia.
Qed.
Lemma worker_step_less a co co' file file' : attempts_ok co →
  worker_step a co file = Some (co', file') → less co' co.
Proof.
  intros Hat E. unfold worker_step in E.
  destruct a as [| |n|n serve|n|n k|n| | | | | | | | | |]; try done;
    destruct (co_workers co !! n) as [q|] eqn:Eq; try done;
    pose proof (proj1 (Forall_lookup _ _) Hat n q Eq) as Hb;
    destruct q as [|index last attempt|index last attempt received committed todo outcome| |]; try done.
  - injection E as <- _. unfold take_run.
    change (set_next ?m (set_worker n ?p co)) with (set_worker n p (set_next m co)).
    eapply set_worker_less; [exact Eq|done|done|]. simpl. rewrite !length_drop.
    destruct (co_pending co !! co_next co) as [[i l]|] eqn:En; simpl; [|lia].
    apply lookup_lt_Some in En. lia.
  - destruct (piece_run _ _ _ _) as [todo outcome]. injection E as <- _.
    eapply set_worker_less; [exact Eq|done|done|]. simpl. lia.
  - destruct todo as [|e todo]; [done|]. destruct e;
      try (destruct (_ <? _); [|done]); injection E as <- _;
      (eapply set_worker_less; [exact Eq|done|done|]; simpl; rewrite ?length_app; simpl; lia).
  - destruct todo as [|e todo]; [done|]. injection E as <- _. eapply fail_less; [exact Eq|done|done|simpl; lia].
  - destruct todo as [|e todo]; [|done]. destruct outcome; injection E as <- _.
    + eapply set_worker_less; [exact Eq|done|done|]. simpl. lia.
    + eapply fail_less; [exact Eq|done|done|simpl; lia].
    + eapply set_worker_less; [exact Eq|done|done|]. simpl. lia.
Qed.

Lemma coordinator_step_smaller a o remote co w w' :
  session w = Some (o, remote, Parallel co) → coordinator_step a o remote co w = Some w' →
  smaller (measure w') (measure w).
Proof.
  intros Es E. unfold measure at 2. rewrite Es.
  destruct a; try done; cbn [coordinator_step] in E.
  - destruct (co_queue co) as [|i q] eqn:Eq; [done|]. destruct (store _ _ _); try done.
    injection E as <-. unfold measure. cbn. apply smaller_intro. unfold asks, steps. simpl. rewrite Eq. simpl. lia.
  - destruct (co_workers co !! n) as [q|] eqn:Eq; [|done]. destruct q as [| | |[u|e|]|]; try done;
      injection E as <-; unfold measure; cbn; apply smaller_intro; [right|left; lia..].
    split; [done|]. eapply set_worker_less; [exact Eq|done|done|]. simpl. lia.
  - destruct (forallb is_joined _); [|done]. destruct (store_all _ _); try done. injection E as <-.
    unfold measure. cbn. destruct (forallb id _); apply smaller_intro; left; lia.
Qed.
Lemma session_step_smaller a o remote s w w' : sane w →
  session w = Some (o, remote, s) → session_step digest a o remote s w = Some w' →
  smaller (measure w') (measure w).
Proof.
  intros Hw Es E. destruct s as [state|received todo outcome|co| |]; try (by destruct a).
  - destruct a; try done; destruct todo as [|e todo]; try done; injection E as <-; unfold measure; rewrite Es; cbn.
    + apply smaller_intro. right. split; [done|]. right. simpl. lia.
    + destruct (is_ok outcome); apply smaller_intro; left; lia.
  - destruct (wo_session _ _ _ _ Hw _ _ _ Es) as (d & cp & k & _ & _ & _ & _ & _ & _ & _ & _ & Hco).
    assert (∀ w1, match worker_step a co (part w) with
      | Some (co, file) => Some (set_part file (set_session (Some (o, remote, Parallel co)) w))
      | None => None end = Some w1 → smaller (measure w1) (measure w)) as Hworker.
    { intros w1. destruct (worker_step a co (part w)) as [[co' file']|] eqn:Ew; [|done]. intros [= <-].
      unfold measure. rewrite Es. cbn. apply smaller_intro. right. split; [done|].
      eapply worker_step_less; [by eapply co_attempts|exact Ew]. }
    destruct a; try exact (Hworker _ E); exact (coordinator_step_smaller _ _ _ _ _ _ Es E).
  - destruct a; try done. cbn [session_step] in E. unfold publish in E. unfold measure. rewrite Es.
    repeat case_match; simplify_eq; apply smaller_intro; left; lia.
  - destruct a; try done. injection E as <-. unfold measure. rewrite Es. cbn. apply smaller_intro. left. lia.
Qed.
Lemma process_step_smaller w w' : sane w → process_step w' w → smaller (measure w') (measure w).
Proof.
  intros Hw (a & Hp & Hh & E).
  assert (match session w with Some (o, remote, s) => session_step digest a o remote s w | None => None end
    = Some w' → smaller (measure w') (measure w)) as Hs.
  { destruct (session w) as [[[o remote] s]|] eqn:Es; [|done]. by apply session_step_smaller. }
  destruct a; try done; try exact (Hs E). cbn [act] in E. unfold open in E. unfold measure.
  destruct (session w) as [[[o remote] [state| | | |]]|]; try done.
  destruct (parallel remote).
  - injection E as <-. cbn. apply smaller_intro. left. lia.
  - destruct (single reply (size remote)) as [todo outcome]. injection E as <-. cbn. apply smaller_intro. left. lia.
Qed.
Lemma sane_act a w w' : answered a → sane w → act url digest a w = Some w' → sane w'.
Proof.
  intros Ha%answered_sound. apply (world_act_ok url digest any_source); [by intros k c|done].
Qed.
Lemma process_ends : ∀ m w, measure w = m → sane w → Acc process_step w.
Proof.
  intros m. induction (smaller_wf m) as [m _ IH]. intros w <- Hw. constructor. intros w' Hs.
  eapply IH; [by apply process_step_smaller|done|]. destruct Hs as (a & _ & Ha & E).
  by apply (sane_act a w w').
Qed.

(** ** A step is always possible *)

Lemma not_all_joined ws : forallb is_joined ws = false → ∃ n p, ws !! n = Some p ∧ is_joined p = false.
Proof.
  induction ws as [|p ws IH]; [done|]. simpl. destruct (is_joined p) eqn:E; [|intros _; by exists 0%nat, p].
  intros H%IH. destruct H as (n & q & ? & ?). by exists (S n), q.
Qed.
Lemma store_all_in q : ∀ l, Forall (λ i, 0 ≤ i < len l) q → ∃ l', store_all q l = Ok l'.
Proof.
  unfold store_all. induction q as [|i q IH]; intros l Hq; [by exists l|].
  apply Forall_cons in Hq as [Hi Hq]. destruct (store_in l i Hi) as [l' E]. cbn [foldl rbind].
  rewrite E. apply IH. apply store_spec in E as [El _]. by rewrite El.
Qed.
Lemma parallel_live o remote co w : sane w → session w = Some (o, remote, Parallel co) →
  ∃ a, of_process a = true ∧ answered a ∧ is_Some (act url digest a w).
Proof.
  intros Hw Es. destruct (wo_session _ _ _ _ Hw _ _ _ Es) as (d & cp & k & Ed & _ & _ & _ & _ & _ & _ & _ & Hco).
  assert (∀ i q, co_queue co = i :: q → is_Some (act url digest Receive w)) as Hrecv.
  { intros i q Eq. pose proof (ck_queue _ _ _ _ Hco) as Hq. rewrite Eq in Hq. apply Forall_cons in Hq as [[Hi _] _].
    destruct (store_in _ _ Hi) as [l E]. cbn [act]. rewrite Es. cbn. rewrite Eq, E. eauto. }
  destruct (forallb is_joined (co_workers co)) eqn:Ej.
  { exists Drain. split; [done|]. split; [done|]. cbn [act]. rewrite Es. cbn. rewrite Ej.
    destruct (store_all_in (co_queue co) (cp_complete (co_state co))) as [l ->]; [|eauto].
    eapply Forall_impl; [apply (ck_queue _ _ _ _ Hco)|]. by intros i [? _]. }
  apply not_all_joined in Ej as (n & p & En & Hp).
  destruct p as [|index last attempt|index last attempt received committed [|e todo] outcome|outcome|]; [..|done].
  - exists (Take n). split; [done|]. split; [done|]. cbn [act]. rewrite Es. cbn. rewrite En. eauto.
  - exists (Ask n (λ _, Err "")). split; [done|]. split; [done|]. cbn [act]. rewrite Es. cbn [session_step worker_step]. rewrite En.
    destruct (piece_run (co_work co) (λ _, Err "") index last). eauto.
  - exists (Return n). split; [done|]. split; [done|]. cbn [act]. rewrite Es. cbn. rewrite En.
    destruct outcome; eauto.
  - destruct (decide (co_capacity co ≤ len (co_queue co))) as [Hfull|Hroom].
    + exists Receive. split; [done|]. split; [done|]. pose proof (ck_capacity _ _ _ _ Hco).
      destruct (co_queue co) as [|i q] eqn:Eq; [simpl in Hfull; lia|]. by eapply Hrecv.
    + exists (Exec n). split; [done|]. split; [done|]. cbn [act]. rewrite Es.
      cbn [session_step worker_step]. rewrite En. destruct e; eauto.
      rewrite (proj2 (Z.ltb_lt (len (co_queue co)) (co_capacity co))) by lia. eauto.
  - exists (Join n). split; [done|]. split; [done|]. cbn [act]. rewrite Es. cbn. rewrite En.
    destruct outcome; eauto.
Qed.
Lemma session_live o remote s w : sane w → session w = Some (o, remote, s) →
  ∃ a, of_process a = true ∧ answered a ∧ is_Some (act url digest a w).
Proof.
  intros Hw Es. destruct s as [state|received todo outcome|co| |].
  - exists (Open (Err "")). split; [done|]. split; [done|]. cbn [act]. unfold open. rewrite Es.
    destruct (parallel remote); [eauto|]. destruct (single (Err "") (size remote)). eauto.
  - destruct todo as [|e todo]; [exists FinishSingle|exists ExecSingle]; (split; [done|]; split; [done|]);
      cbn [act]; rewrite Es; cbn; eauto.
  - by eapply parallel_live.
  - exists Publish. split; [done|]. split; [done|]. cbn [act]. rewrite Es. cbn. unfold publish.
    destruct (wo_session _ _ _ _ Hw _ _ _ Es) as (d & -> & _).
    rewrite (wo_free _ _ _ _ Hw _ _ _ Es) by done. destruct (sha256 o); [destruct (is_ok _)|]; eauto.
  - exists Cleanup. split; [done|]. split; [done|]. cbn [act]. rewrite Es. cbn. eauto.
Qed.

(** C29. Every run of a download ends, whatever the servers answer: in a state reached in any
    way, with replies that may be wrong in every part, the process cannot take steps for ever,
    and as long as a run lasts it has a step to take, so that it comes to the end of the run.
    This takes that each request is answered or fails, and that the body of an answer ends
    after finitely many chunks. *)
Theorem download_ends actions w :
  Forall answered actions → run url digest actions nothing = Some w →
  Acc process_step w ∧
  (session w ≠ None → ∃ w', process_step w' w).
Proof.
  intros Ha Hrun.
  assert (sane w) as Hw.
  { apply (run_world_ok url digest any_source (λ k c H, H) anything anything actions nothing w); [|apply nothing_ok|done].
    eapply Forall_impl; [exact Ha|]. apply answered_sound. }
  split; [by eapply process_ends|]. intros Hs.
  destruct (session w) as [[[o remote] s]|] eqn:Es; [|done].
  destruct (session_live o remote s w Hw Es) as (a & Hp & Hh & [w' E]). exists w', a. done.
Qed.
End ends.

(** ** Examples *)

(** A server that lies: it sends other bytes than it announces, and too many. *)
Definition lying_serve (q : Request) : res Reply :=
  Ok (answer "f" sample_version (q_start q) (q_end q) [Data [7]; Data [8; 9; 9; 9; 9]]).
Definition lied_actions : list Action :=
  [sample_start sample_version; Open (Err ""); Take 0; Take 1; Ask 0 lying_serve; Ask 1 lying_serve; Exec 1; Exec 0].
Definition sample_middle : World := default nothing (run "u" sample_digest lied_actions nothing).
Lemma lied_answered : Forall answered lied_actions.
Proof. unfold lied_actions. repeat (apply Forall_cons; split); try apply Forall_nil; done. Qed.
Lemma download_ends_witness :
  is_Some (session sample_middle) ∧
  Acc (process_step "u" sample_digest) sample_middle ∧
  ∃ w', process_step "u" sample_digest w' sample_middle.
Proof.
  assert (run "u" sample_digest lied_actions nothing = Some sample_middle) as H by (apply some_default; by_vm).
  assert (is_Some (session sample_middle)) as Hs by (vm_compute; eauto).
  split; [exact Hs|].
  destruct (download_ends "u" sample_digest lied_actions sample_middle lied_answered H) as [H1 H2].
  split; [exact H1|]. apply H2. destruct Hs as [x E]. rewrite E. done.
Defined.
