(* ===== verification/DirSync.v ===== *)
(** * Downloads of a directory ([porthub-transfer/src/download.rs], [directory.rs])

    A directory is a manifest and a download of each of its files into a staging folder, from
    where it replaces the local file.  What the file system answers about a file, and the
    download of one, are arguments; [sync_directory_file] gives the changes it makes. *)

From S2P Require Import Prelude Net RustStr Text FileNames Download.
Local Open Scope string_scope.
Local Open Scope list_scope.
Local Open Scope Z_scope.

Definition MAX_MANIFEST_BYTES : Z := 16 * 1024 * 1024.
Definition MAX_MANIFEST_ENTRIES : Z := 100000.

Record Entry := mkEntry { path : string; kind : string; entry_size : Z; modified_ns : Z }.
Record Manifest := mkManifest { version : Z; entries : list Entry }.

Section sync.
Context `{L : NameLibs}.

(** ** The manifest *)

Fixpoint manifest_body (bytes : list Z) (body : list Event) : res (list Z) :=
  match body with
  | [] => Ok bytes
  | Broken :: _ => Err "error decoding response body"
  | Data chunk :: body =>
      ensure! len bytes + len chunk <=? MAX_MANIFEST_BYTES else "directory manifest exceeds the size limit" in
      manifest_body (bytes ++ chunk) body
  end.
(** [serde_json] is an argument. *)
Definition directory_manifest (from_slice : list Z → res Manifest) (reply : res Reply) : res Manifest :=
  let! r := reply in
  ensure! (r_status r =? 200) && bool_decide (r_header r "x-porthub-manifest-version" = Some MANIFEST_VERSION)
    else "server advertised PortHub directory downloads but did not provide a compatible manifest" in
  let! bytes := manifest_body [] (r_body r) in
  let! manifest := from_slice bytes in
  ensure! (version manifest =? 1) && (len (entries manifest) <=? MAX_MANIFEST_ENTRIES)
    else "invalid PortHub directory manifest" in
  Ok manifest.

(** The first loop of [get_directory]: the folders and the files, each path once. *)
Fixpoint sort_entries (paths : list (list string)) (es : list Entry) : res (list (list string) * list Entry) :=
  match es with
  | [] => Ok ([], [])
  | entry :: es =>
      let! p := safe_relative (path entry) in
      ensure! bool_decide (p ∉ paths) else "directory manifest contains duplicate paths" in
      if bool_decide (kind entry = "directory") then
        let! '(directories, files) := sort_entries (p :: paths) es in Ok (p :: directories, files)
      else if bool_decide (kind entry = "file") then
        let! '(directories, files) := sort_entries (p :: paths) es in Ok (directories, entry :: files)
      else Err "directory contains a symlink or unsupported filesystem entry"
  end.

(** ** One file *)

Record FileMeta := mkMeta { is_file : bool; m_len : Z; m_modified_ns : Z }.
Inductive Change :=
  (** [apply_modified_ns] and [state::replace] *)
  | PublishFile (staged : list string) (modified_ns : Z)
  | RemoveFile (staged : list string).

Definition up_to_date (entry : Entry) (m : FileMeta) : bool :=
  (m_len m =? entry_size entry) && (m_modified_ns m =? modified_ns entry).
(** The download of an entry into staging and its publication; [changes] were made before. *)
Definition fetch_entry (get : list string → res (list string * string)) (entry : Entry)
    (parent : list string) (file_name : string) (changes : list Change) : list Change * res bool :=
  match get parent with
  | Ok (folder, name) =>
      if bool_decide (folder = parent) && bool_decide (name = file_name)
      then (changes ++ [PublishFile (folder ++ [name]) (modified_ns entry)], Ok true)
      else (changes, Err "server changed a directory entry's file name")
  | Err e => (changes, Err e)
  | Panic => (changes, Panic)
  end.
(** A staged file is published if it is complete, and fetched again otherwise. *)
Definition refresh_entry (staged_meta : option FileMeta) (get : list string → res (list string * string))
    (entry : Entry) (parent : list string) (file_name : string) : list Change * res bool :=
  let staged := parent ++ [file_name] in
  match staged_meta with
  | Some m =>
      if negb (is_file m) then ([], Err "directory download staging path is unsafe")
      else if up_to_date entry m then ([PublishFile staged (modified_ns entry)], Ok true)
      else fetch_entry get entry parent file_name [RemoveFile staged]
  | None => fetch_entry get entry parent file_name []
  end.
(** [ensure_directory] is that of the parent in both roots; [target_meta], [staged_meta]
    are [symlink_metadata] of the file in each; [get] downloads into a folder and gives the
    path of the published file. *)
Definition sync_directory_file (ensure_directory : list string → res unit)
    (target_meta staged_meta : option FileMeta) (get : list string → res (list string * string))
    (entry : Entry) : list Change * res bool :=
  match safe_relative (path entry) with
  | Ok relative =>
      let parent := removelast relative in
      match ensure_directory parent, last relative with
      | Ok _, Some file_name =>
          match target_meta with
          | Some m =>
              if negb (is_file m) then
                ([], Err "directory download will not replace a non-file destination")
              else if up_to_date entry m then ([], Ok false)
              else refresh_entry staged_meta get entry parent file_name
          | None => refresh_entry staged_meta get entry parent file_name
          end
      | Ok _, None => ([], Err "directory path has no file name")
      | Err e, _ => ([], Err e)
      | Panic, _ => ([], Panic)
      end
  | Err e => ([], Err e)
  | Panic => ([], Panic)
  end.

(** The path [get_with_client] publishes to, when it succeeds: a free name in the folder for
    the name the probe suggests. *)
Definition get_path (reply : res Reply) (try_exists : string → res bool)
    (checkpoint : string → option Checkpoint) (url : string) (folder : list string) : res (list string * string) :=
  let! remote := probe reply in
  let! target := destination try_exists checkpoint (name remote) url in
  Ok (folder, target).

(** ** Lemmas on names *)

Definition hidden (s : string) : Prop := ∃ r, s = String "." r.
Lemma file_stem_head a s : ∃ t, file_stem (String a s) = String a t.
Proof.
  unfold file_stem, rsplit_once. destruct (split_once "." (str_rev (String a s))) as [[after before]|] eqn:E; [|eauto].
  destruct (str_is_empty (str_rev before)) eqn:Ee; cbn [orb]; [eauto|]. destruct (bool_decide _); [eauto|].
  apply split_once_Some in E. apply (f_equal str_rev) in E. rewrite str_rev_involutive, str_rev_app in E.
  change (String "." before) with ("." +:+ before) in E. rewrite str_rev_app in E.
  destruct (str_rev before) as [|b t]; [done|]. exists t. simpl in E. by injection E as <- _.
Qed.
Lemma numbered_head a s index : ∃ t, numbered (String a s) index = String a t.
Proof.
  unfold numbered. destruct (index =? 0); [eauto|]. destruct (file_stem_head a s) as [t ->]. eexists. done.
Qed.
Lemma destination_head try_exists checkpoint a s url fuel : ∀ index target,
  destination_from try_exists checkpoint (String a s) url fuel index = Ok target → ∃ t, target = String a t.
Proof.
  induction fuel as [|fuel IH]; intros index target; cbn [destination_from]; [done|]. intros H.
  destruct (numbered_head a s index) as [t Et].
  apply rbind_ok in H as (taken & _ & H). destruct taken; [by eapply IH|].
  apply rbind_ok in H as (pe & _ & H). apply rbind_ok in H as (ce & _ & H).
  destruct (negb ce); [injection H as <-; rewrite Et; eauto|].
  destruct (checkpoint _) as [cp|]; [|by eapply IH].
  destruct (bool_decide _); [injection H as <-; rewrite Et; eauto|by eapply IH].
Qed.
Lemma destination_visible try_exists checkpoint a s url target :
  destination try_exists checkpoint (String a s) url = Ok target → ∃ t, target = String a t.
Proof. unfold destination. apply destination_head. Qed.
Context `{LO : !NameLibsOk L}.
(** No download gets a hidden name. *)
Lemma get_path_visible reply try_exists checkpoint url folder folder' target :
  (∀ r d, reply = Ok r → r_header r "content-disposition" = Some d → ascii_string d) →
  get_path reply try_exists checkpoint url folder = Ok (folder', target) → ¬ hidden target.
Proof.
  intros Hd H. unfold get_path in H. apply rbind_ok in H as (remote & Hp & H).
  apply rbind_ok in H as (t & Ht & H). injection H as <- <-.
  destruct reply as [r| |]; [|done..].
  assert (name remote = filename (r_url r) (r_header r "content-disposition")) as En.
  { unfold probe in Hp. cbn [rbind] in Hp. res_inv. match goal with E : probe_size r = Ok ?p |- _ => destruct p end.
    by res_inv. }
  assert (safe_file_name (name remote)) as [Hne _ _ Hh _ _ _].
  { rewrite En. apply filename_spec. intros d. by apply Hd. }
  destruct (name remote) as [|a s]; [done|]. apply destination_visible in Ht as [t' ->].
  intros [r' [= -> _]]. by apply (Hh s).
Qed.

Definition gives_up (o : list Change * res bool) : Prop :=
  is_ok o.2 = false ∧ ∀ staged ns, PublishFile staged ns ∉ o.1.
Lemma fetch_fails reply try_exists checkpoint url entry parent file_name changes :
  (∀ r d, reply = Ok r → r_header r "content-disposition" = Some d → ascii_string d) →
  (∀ staged ns, PublishFile staged ns ∉ changes) →
  gives_up (fetch_entry (get_path reply try_exists checkpoint url) entry parent (String "." file_name) changes).
Proof.
  intros Hd Hc. unfold fetch_entry. destruct (get_path _ _ _ _ _) as [[folder name]| |] eqn:Eg; [|by split..].
  apply get_path_visible in Eg; [|done]. destruct (bool_decide (folder = _) && _) eqn:Eb; [|by split].
  apply andb_true_iff in Eb as [_ Eb%bool_decide_eq_true]. destruct Eg. by exists file_name.
Qed.
Lemma refresh_fails staged_meta reply try_exists checkpoint url entry parent file_name :
  (∀ r d, reply = Ok r → r_header r "content-disposition" = Some d → ascii_string d) →
  (∀ m, staged_meta = Some m → up_to_date entry m = false) →
  gives_up (refresh_entry staged_meta (get_path reply try_exists checkpoint url) entry parent (String "." file_name)).
Proof.
  intros Hd Hm. unfold refresh_entry. destruct staged_meta as [m|]; [|apply fetch_fails; [done|set_solver]].
  destruct (negb (is_file m)); [by split; [|set_solver]|]. rewrite (Hm m eq_refl).
  apply fetch_fails; [done|set_solver].
Qed.

(** A hidden file of a remote directory is never fetched: unless an up-to-date copy is
    already there, in the folder or in staging, [sync_directory_file] fails, whatever the
    server replies, and with it the download of the whole directory.  The file is stored
    under the name [filename] makes safe, which has lost its leading dots, and is then
    refused because the name differs. *)
Theorem hidden_file_never_synced ensure_directory target_meta staged_meta reply try_exists checkpoint url
    entry relative file_name :
  (∀ r d, reply = Ok r → r_header r "content-disposition" = Some d → ascii_string d) →
  safe_relative (DirSync.path entry) = Ok relative → last relative = Some (String "." file_name) →
  (∀ m, target_meta = Some m ∨ staged_meta = Some m → up_to_date entry m = false) →
  let '(changes, outcome) := sync_directory_file ensure_directory target_meta staged_meta
    (get_path reply try_exists checkpoint url) entry in
  is_ok outcome = false ∧ ∀ staged ns, PublishFile staged ns ∉ changes.
Proof.
  intros Hd Hrel Hlast Hm. unfold sync_directory_file. rewrite Hrel, Hlast.
  destruct (ensure_directory _); [|by split; [|set_solver]..].
  pose proof (refresh_fails staged_meta reply try_exists checkpoint url entry (removelast relative) file_name Hd)
    as Hr. destruct (refresh_entry _ _ _ _ _) as [changes outcome].
  destruct target_meta as [m|]; [|by apply Hr; intros m Hs; apply Hm; right].
  destruct (negb (is_file m)); [by split; [|set_solver]|]. rewrite (Hm m) by auto.
  apply Hr. intros n Hs. apply Hm. by right.
Qed.
End sync.

(** ** Examples *)

Definition sample_entry : Entry := mkEntry "src/.gitignore" "file" 5 0.
Definition sample_reply : res Reply :=
  Ok (answer "/src/.gitignore" (mkVersion (Some "v1") None [1; 2; 3; 4; 5]) 0 0 [Data [1]]).
Lemma hidden_file_never_synced_witness :
  get_path sample_reply (λ _, Ok false) (λ _, None) "u" ["src"] = Ok (["src"], "gitignore") ∧
  let '(changes, outcome) := sync_directory_file (λ _, Ok tt) None None
    (get_path sample_reply (λ _, Ok false) (λ _, None) "u") sample_entry in
  is_ok outcome = false ∧ ∀ staged ns, PublishFile staged ns ∉ changes.
Proof.
  split; [by_vm|].
  apply (hidden_file_never_synced (λ _, Ok tt) None None sample_reply (λ _, Ok false) (λ _, None) "u"
    sample_entry ["src"; ".gitignore"] "gitignore").
  - intros r d [= <-]. done.
  - vm_compute. reflexivity.
  - reflexivity.
  - intros m [H|H]; discriminate H.
Defined.
