(* ===== verification/Upload.v ===== *)
(** * Resumable uploads ([porthub-transfer/src/upload.rs])

    One upload session of the receiver: its manifest, the chunks it holds, and the requests
    that are being served.  Files are inodes under two names, [index.part] while a chunk
    arrives and [index.chunk] once it is verified, so that two requests for one chunk share
    a file as they do in the code.  The handler of a chunk runs in steps between its awaits;
    the other handlers are one step each.  SHA-256 is an argument. *)

From S2P Require Import Prelude Net RustStr Text FileNames.
Local Open Scope string_scope.
Local Open Scope list_scope.
Local Open Scope Z_scope.

Definition CHUNK : Z := 8 * 1024 * 1024.

Record Manifest := mkManifest {
  name : string; size : Z; chunk_size : Z; chunks : Z; modified_unix : Z; modified_nanos : Z }.

(** A body as it arrives; the end of the list is its end. *)
Inductive Event := Data (bytes : list Z) | Broken.
#[global] Instance event_eq_dec : EqDecision Event.
Proof. solve_decision. Defined.

Section receiver.
Variable digest : list Z → string.

(** The handler of a chunk: receiving into inode [ino], about to read the file again, about
    to rename it. *)
Inductive Handler :=
  | Receiving (index expected : Z) (hash : string) (ino : nat) (size : Z) (body : list Event)
  | Checking (index : Z) (hash : string)
  | Renaming (index : Z).
#[global] Instance handler_eq_dec : EqDecision Handler.
Proof. solve_decision. Defined.
Record Receiver := mkReceiver {
  manifest : option Manifest;
  parts : gmap Z nat;
  chunk_files : gmap Z nat;
  inodes : gmap nat (list Z);
  next_inode : nat;
  handlers : gmap nat Handler;
  (** the published file and its modification time *)
  target : option (list Z * (Z * Z)) }.

Definition set_manifest (m : option Manifest) (r : Receiver) : Receiver :=
  mkReceiver m (parts r) (chunk_files r) (inodes r) (next_inode r) (handlers r) (target r).
Definition set_parts (p : gmap Z nat) (r : Receiver) : Receiver :=
  mkReceiver (manifest r) p (chunk_files r) (inodes r) (next_inode r) (handlers r) (target r).
Definition set_inode (ino : nat) (bytes : list Z) (r : Receiver) : Receiver :=
  mkReceiver (manifest r) (parts r) (chunk_files r) (<[ino := bytes]> (inodes r)) (next_inode r) (handlers r) (target r).
Definition set_handlers (hs : gmap nat Handler) (r : Receiver) : Receiver :=
  mkReceiver (manifest r) (parts r) (chunk_files r) (inodes r) (next_inode r) hs (target r).
Definition contents (r : Receiver) (file : option nat) : option (list Z) := ino ← file; inodes r !! ino.

(** ** Set-up and status *)

Definition missing_chunks (m : Manifest) (r : Receiver) : list Z :=
  List.filter (λ i, bool_decide (chunk_files r !! i = None)) (seqZ 0 (chunks m)).
Definition init (id : string) (m : Manifest) (r : Receiver) : res (list Z) * Receiver :=
  let check :=
    ensure! valid_id id else "invalid upload identifier" in
    ensure! chunk_size m =? CHUNK else "invalid upload chunk size" in
    ensure! modified_nanos m <? 1000000000 else "invalid modification timestamp" in
    ensure! chunks m =? div_ceil (size m) CHUNK else "invalid chunk count" in
    ensure! chunks m <=? 1000000 else "upload exceeds the supported maximum size" in
    let! _ := safe_name (name m) in
    match manifest r with
    | Some previous =>
        ensure! bool_decide (name previous = name m) && (size previous =? size m) && (chunks previous =? chunks m)
          else "upload identifier conflicts with another transfer" in
        Ok r
    | None => Ok (set_manifest (Some m) r)
    end in
  match check with
  | Ok r => (Ok (missing_chunks m r), r)
  | Err e => (Err e, r)
  | Panic => (Panic, r)
  end.
Definition status (id : string) (r : Receiver) : res (list Z) :=
  ensure! valid_id id else "invalid upload identifier" in
  let! m := ok_or (manifest r) "No such file or directory" in
  Ok (missing_chunks m r).

(** ** A chunk *)

Record ChunkRequest := mkChunkRequest {
  q_index : Z; q_length : option Z; q_hash : option string; q_body : list Event }.
(** [File::create]: a new file, or the old one emptied. *)
Definition create_part (index : Z) (r : Receiver) : nat * Receiver :=
  match parts r !! index with
  | Some ino => (ino, set_inode ino [] r)
  | None =>
      (next_inode r, mkReceiver (manifest r) (<[index := next_inode r]> (parts r)) (chunk_files r)
         (<[next_inode r := []]> (inodes r)) (S (next_inode r)) (handlers r) (target r))
  end.
(** The bytes chunk [index] of a file of [size] has. *)
Definition expected_length (m : Manifest) (index : Z) : res Z :=
  let! left := usub (size m) (index * chunk_size m) in
  Ok (Z.min left (chunk_size m)).
(** [chunk] up to the creation of the temporary file. *)
Definition begin_chunk (n : nat) (q : ChunkRequest) (r : Receiver) : res unit * Receiver :=
  let check :=
    let! m := ok_or (manifest r) "No such file or directory" in
    ensure! q_index q <? chunks m else "chunk index out of range" in
    let! expected := expected_length m (q_index q) in
    ensure! (match q_length q with Some n => n =? expected | None => true end) else "chunk length mismatch" in
    let! hash := ok_or (q_hash q) "missing chunk integrity hash" in
    ensure! (slen hash =? 64) && all_bytes is_ascii_hexdigit hash else "invalid chunk integrity hash" in
    Ok (expected, hash) in
  match check with
  | Ok (expected, hash) =>
      let '(ino, r) := create_part (q_index q) r in
      (Ok tt, set_handlers (<[n := Receiving (q_index q) expected hash ino 0 (q_body q)]> (handlers r)) r)
  | Err e => (Err e, r)
  | Panic => (Panic, r)
  end.
(** [write_body] removes its file, by name, when it fails. *)
Definition remove_part (index : Z) (r : Receiver) : Receiver := set_parts (delete index (parts r)) r.
Definition end_handler (n : nat) (r : Receiver) : Receiver := set_handlers (delete n (handlers r)) r.
Definition move_handler (n : nat) (h : Handler) (r : Receiver) : Receiver := set_handlers (<[n := h]> (handlers r)) r.
Definition rename_part (index : Z) (r : Receiver) : Receiver :=
  match parts r !! index with
  | Some ino =>
      mkReceiver (manifest r) (delete index (parts r)) (<[index := ino]> (chunk_files r)) (inodes r)
        (next_inode r) (handlers r) (target r)
  | None => r
  end.
(** One step of a handler: the result when it ends. *)
Definition step_chunk (n : nat) (r : Receiver) : option (option (res unit) * Receiver) :=
  match handlers r !! n with
  | Some (Receiving index expected hash ino size body) =>
      match body with
      | Data bytes :: body =>
          if U64_MAX <? size + len bytes then
            Some (Some (Err "upload size overflow"), end_handler n (remove_part index r))
          else if expected <? size + len bytes then
            Some (Some (Err "upload body exceeds the expected size"), end_handler n (remove_part index r))
          else
            let file := default [] (inodes r !! ino) in
            Some (None, move_handler n (Receiving index expected hash ino (size + len bytes) body)
                          (set_inode ino (write_at size bytes file) r))
      | Broken :: _ => Some (Some (Err "connection closed"), end_handler n (remove_part index r))
      | [] =>
          if size =? expected then Some (None, move_handler n (Checking index hash) r)
          else Some (Some (Err "chunk length mismatch"), end_handler n r)
      end
  | Some (Checking index hash) =>
      match contents r (parts r !! index) with
      | Some received =>
          if bool_decide (digest received = hash) then Some (None, move_handler n (Renaming index) r)
          else Some (Some (Err "chunk integrity check failed"), end_handler n r)
      | None => Some (Some (Err "No such file or directory"), end_handler n r)
      end
  | Some (Renaming index) =>
      match parts r !! index with
      | Some _ => Some (Some (Ok tt), end_handler n (rename_part index r))
      | None => Some (Some (Err "No such file or directory"), end_handler n r)
      end
  | None => None
  end.

(** ** The end of an upload *)

(** [destination] checks the folders above the target: what it answers is an argument. *)
Definition commit (destination : string → res unit) (r : Receiver) : res string * Receiver :=
  let result :=
    let! m := ok_or (manifest r) "No such file or directory" in
    ensure! bool_decide (missing_chunks m r = []) else "upload is incomplete; resume by sending missing chunks" in
    let! _ := destination (name m) in
    let! pieces := ok_or (mapM (λ i, contents r (chunk_files r !! i)) (seqZ 0 (chunks m))) "No such file or directory" in
    let assembled := concat pieces in
    ensure! len assembled =? size m else "assembled upload size mismatch" in
    Ok (m, assembled) in
  match result with
  | Ok (m, assembled) =>
      (Ok (digest assembled),
       mkReceiver None ∅ ∅ (inodes r) (next_inode r) (handlers r)
         (Some (assembled, (modified_unix m, modified_nanos m))))
  | Err e => (Err e, r)
  | Panic => (Panic, r)
  end.

(** ** Runs *)

Inductive Action :=
  | Init (id : string) (m : Manifest)
  (** A request for a chunk arrives, as handler [n]. *)
  | Begin (n : nat) (q : ChunkRequest)
  | Step (n : nat)
  (** A file operation of [write_body] fails. *)
  | Fault (n : nat)
  (** The connection closes and the handler is dropped at an await. *)
  | Drop (n : nat)
  | Commit (destination : string → res unit).
Definition act (a : Action) (r : Receiver) : option Receiver :=
  match a with
  | Init id m => Some (init id m r).2
  | Begin n q =>
      if bool_decide (handlers r !! n = None) then Some (begin_chunk n q r).2 else None
  | Step n => snd <$> step_chunk n r
  | Fault n =>
      match handlers r !! n with
      | Some (Receiving index _ _ _ _ _) => Some (end_handler n (remove_part index r))
      | _ => None
      end
  | Drop n => Some (end_handler n r)
  | Commit destination => Some (commit destination r).2
  end.
Fixpoint run (actions : list Action) (r : Receiver) : option Receiver :=
  match actions with
  | [] => Some r
  | a :: actions => r ← act a r; run actions r
  end.
Definition empty : Receiver := mkReceiver None ∅ ∅ ∅ 0 ∅ None.

(** ** The client *)

(** The chunk that [put_file] reads, with its hash. *)
Definition source_chunk (source : list Z) (index : Z) : list Z :=
  take (Z.to_nat CHUNK) (drop (Z.to_nat (index * CHUNK)) source).
Definition chunk_request (source : list Z) (index : Z) : res ChunkRequest :=
  let start := index * CHUNK in
  let! left := ok_or (if start <=? len source then Some (len source - start) else None)
    "source file shrank during transfer" in
  let length := Z.min left CHUNK in
  let data := take (Z.to_nat length) (drop (Z.to_nat start) source) in
  Ok (mkChunkRequest index (Some length) (Some (digest data)) [Data data]).
Definition source_manifest (name : string) (source : list Z) (seconds nanos : Z) : Manifest :=
  mkManifest name (len source) CHUNK (div_ceil (len source) CHUNK) seconds nanos.
End receiver.

(** ** The invariant *)

Section upload.
Variable digest : list Z → string.
Variable source : list Z.

Definition index_of (h : Handler) : Z :=
  match h with Receiving i _ _ _ _ _ => i | Checking i _ => i | Renaming i => i end.
(** Requests as the client makes them: one at a time for each chunk, the end after all. *)
Definition exclusive (a : Action) (r : Receiver) : Prop :=
  match a with
  | Begin _ q => map_Forall (λ _ h, index_of h ≠ q_index q) (handlers r)
  | Commit _ => handlers r = ∅
  | _ => True
  end.
Fixpoint all_exclusive (actions : list Action) (r : Receiver) : Prop :=
  match actions with
  | [] => True
  | a :: actions =>
      exclusive a r ∧ match act digest a r with Some r' => all_exclusive actions r' | None => True end
  end.
#[global] Instance exclusive_dec a r : Decision (exclusive a r).
Proof. destruct a; simpl; apply _. Defined.
#[global] Instance all_exclusive_dec actions r : Decision (all_exclusive actions r).
Proof.
  revert r. induction actions as [|a actions IH]; intros r; cbn; [apply _|].
  apply and_dec; [apply _|]. destruct (act digest a r); [apply IH|apply _].
Defined.
(** Every request is for [source]; what arrives of a chunk may be anything. *)
Definition for_source (a : Action) : Prop :=
  match a with
  | Init _ m => size m = len source
  | Begin _ q => 0 ≤ q_index q ∧ ∀ hash, q_hash q = Some hash → hash = digest (source_chunk source (q_index q))
  | _ => True
  end.
(** No other bytes have the hash of a chunk. *)
Definition collision_free : Prop :=
  ∀ bytes i, digest bytes = digest (source_chunk source i) → bytes = source_chunk source i.

Definition handler_ok (r : Receiver) (h : Handler) : Prop :=
  match h with
  | Receiving i _ hash ino _ _ =>
      hash = digest (source_chunk source i) ∧ parts r !! i = Some ino ∧ is_Some (inodes r !! ino)
  | Checking i hash =>
      hash = digest (source_chunk source i) ∧ ∃ ino, parts r !! i = Some ino ∧ is_Some (inodes r !! ino)
  | Renaming i => ∃ ino, parts r !! i = Some ino ∧ inodes r !! ino = Some (source_chunk source i)
  end.
Definition of_source (m : Manifest) : Prop :=
  size m = len source ∧ chunk_size m = CHUNK ∧ chunks m = div_ceil (len source) CHUNK.
Record receiver_ok (r : Receiver) : Prop := {
  rk_manifest m : manifest r = Some m → of_source m;
  rk_chunk i ino : chunk_files r !! i = Some ino → inodes r !! ino = Some (source_chunk source i);
  rk_fresh i ino : parts r !! i = Some ino ∨ chunk_files r !! i = Some ino → (ino < next_inode r)%nat;
  rk_apart i j ino : parts r !! i = Some ino → chunk_files r !! j ≠ Some ino;
  rk_inj i j ino : parts r !! i = Some ino → parts r !! j = Some ino → i = j;
  rk_handler n h : handlers r !! n = Some h → handler_ok r h;
  rk_unique n n' h h' : handlers r !! n = Some h → handlers r !! n' = Some h' → index_of h = index_of h' → n = n';
  rk_target f t : target r = Some (f, t) → f = source }.

Lemma empty_ok : receiver_ok empty.
Proof. split; unfold empty; cbn; try done; intros; set_solver. Qed.

(** A change of the file of chunk [i] does not touch the other handlers. *)
Lemma handler_other r r' i h : index_of h ≠ i → (∀ j, j ≠ i → parts r' !! j = parts r !! j) →
  (∀ j ino, j ≠ i → parts r !! j = Some ino → inodes r' !! ino = inodes r !! ino) →
  handler_ok r h → handler_ok r' h.
Proof.
  intros Hi Hp Hn. destruct h as [j e hash ino sz body|j hash|j]; simpl in Hi |- *.
  - intros (-> & H1 & H2). rewrite (Hp j Hi), (Hn j ino Hi H1). done.
  - intros (-> & ino & H1 & H2). split; [done|]. exists ino. rewrite (Hp j Hi), (Hn j ino Hi H1). done.
  - intros (ino & H1 & H2). exists ino. rewrite (Hp j Hi), (Hn j ino Hi H1). done.
Qed.

Lemma end_handler_ok n r : receiver_ok r → receiver_ok (end_handler n r).
Proof.
  intros [H1 H2 H3 H4 H5 H6 H7 H8]. split; try done; cbn.
  - intros m h [_ Hh]%lookup_delete_Some. apply (H6 m h Hh).
  - intros m m' h h' [_ Hh]%lookup_delete_Some [_ Hh']%lookup_delete_Some. by apply H7.
Qed.
(** A handler moves on, for the same chunk. *)
Lemma move_handler_ok n h h' r : receiver_ok r → handlers r !! n = Some h → index_of h' = index_of h →
  handler_ok r h' → receiver_ok (move_handler n h' r).
Proof.
  intros [H1 H2 H3 H4 H5 H6 H7 H8] Hn Hi Hh. split; try done; cbn.
  - intros m g [[-> <-]|[_ Hg]]%lookup_insert_Some; [exact Hh|apply (H6 m g Hg)].
  - intros m m' g g' [[-> <-]|[Hm Hg]]%lookup_insert_Some [[-> <-]|[Hm' Hg']]%lookup_insert_Some; try done.
    + rewrite Hi. by apply H7.
    + rewrite Hi. by apply H7.
    + by apply H7.
Qed.

(** Writing to the file of chunk [i]. *)
Lemma set_part_inode_ok i ino bytes r : receiver_ok r → parts r !! i = Some ino →
  (∀ n h, handlers r !! n = Some h → index_of h = i → handler_ok (set_inode ino bytes r) h) →
  receiver_ok (set_inode ino bytes r).
Proof.
  intros [H1 H2 H3 H4 H5 H6 H7 H8] Hi Hown. split; try done; cbn.
  - intros j k Hj. rewrite lookup_insert_ne; [by apply H2|]. intros ->. by apply (H4 i j k).
  - intros n h Hn. destruct (decide (index_of h = i)) as [E|E]; [by eapply Hown|].
    apply (handler_other r _ i); [done|done| |by eapply H6]. intros j k Hj Hjk. cbn.
    rewrite lookup_insert_ne; [done|]. intros ->. apply Hj. by eapply H5.
Qed.
Lemma remove_part_ok i n h r : receiver_ok r → handlers r !! n = Some h → index_of h = i →
  receiver_ok (end_handler n (remove_part i r)).
Proof.
  intros [H1 H2 H3 H4 H5 H6 H7 H8] Hn Hi. split; try done; cbn.
  - intros j k [[_ Hj]%lookup_delete_Some|Hj]; apply (H3 j); auto.
  - intros j j' k [_ Hj]%lookup_delete_Some. by eapply H4.
  - intros j j' k [_ Hj]%lookup_delete_Some [_ Hj']%lookup_delete_Some. by eapply H5.
  - intros m g [Hm Hg]%lookup_delete_Some.
    assert (index_of g ≠ i) as Hgi by (intros E; apply Hm; eapply H7; [exact Hn|exact Hg|congruence]).
    apply (handler_other r _ i); [done| |done|by eapply H6]. intros j Hj. cbn. by rewrite lookup_delete_ne.
  - intros m m' g g' [_ Hg]%lookup_delete_Some [_ Hg']%lookup_delete_Some. by apply H7.
Qed.
Lemma create_part_ok i r : receiver_ok r → map_Forall (λ _ h, index_of h ≠ i) (handlers r) →
  let '(ino, r') := create_part i r in
  receiver_ok r' ∧ parts r' !! i = Some ino ∧ inodes r' !! ino = Some [] ∧ handlers r' = handlers r ∧
  manifest r' = manifest r.
Proof.
  intros Hr Hex. unfold create_part. destruct (parts r !! i) as [ino|] eqn:Ei.
  - split; [|by split; [|split; [apply lookup_insert_eq|]]].
    apply (set_part_inode_ok i); [done..|]. intros n h Hn E. by destruct (Hex n h Hn).
  - destruct Hr as [H1 H2 H3 H4 H5 H6 H7 H8].
    assert (∀ j ino, parts r !! j = Some ino ∨ chunk_files r !! j = Some ino → next_inode r ≠ ino) as Hnew.
    { intros j ino Hj%H3. lia. }
    split; [|by split_and!; [apply lookup_insert_eq|apply lookup_insert_eq|..]]. split; try done; cbn.
    + intros j k Hj. rewrite lookup_insert_ne by eauto. by apply H2.
    + intros j k [[[_ <-]|[_ Hj]]%lookup_insert_Some|Hj]; [lia| |]; (assert (k < next_inode r)%nat by eauto; lia).
    + intros j j' k [[<- <-]|[_ Hj]]%lookup_insert_Some Hj'; [|by eapply H4]. by apply (Hnew j' (next_inode r)); auto.
    + intros j j' k [[<- <-]|[_ Hj]]%lookup_insert_Some [[<- E]|[_ Hj']]%lookup_insert_Some; try done.
      * by destruct (Hnew j' (next_inode r)); auto.
      * subst. by destruct (Hnew j (next_inode r)); auto.
      * by eapply H5.
    + intros n h Hn. apply (handler_other r _ i); [by apply (Hex n h)| | |by eapply H6].
      * intros j Hj. cbn. by rewrite lookup_insert_ne.
      * intros j k Hj Hk. cbn. rewrite lookup_insert_ne by eauto. done.
Qed.
Lemma rename_part_ok i n r : receiver_ok r → handlers r !! n = Some (Renaming i) →
  receiver_ok (end_handler n (rename_part i r)).
Proof.
  intros [H1 H2 H3 H4 H5 H6 H7 H8] Hn. destruct (H6 n _ Hn) as (ino & Hp & Hc).
  unfold rename_part. rewrite Hp. split; try done; cbn.
  - intros j k [[<- <-]|[_ Hj]]%lookup_insert_Some; [done|by apply H2].
  - intros j k [[_ Hj]%lookup_delete_Some|[[<- <-]|[_ Hj]]%lookup_insert_Some]; eauto.
  - intros j j' k [Hij Hj]%lookup_delete_Some [[<- <-]|[_ Hj']]%lookup_insert_Some; [|by eapply H4].
    apply Hij. by eapply H5.
  - intros j j' k [_ Hj]%lookup_delete_Some [_ Hj']%lookup_delete_Some. by eapply H5.
  - intros m g [Hm Hg]%lookup_delete_Some.
    assert (index_of g ≠ i) as Hgi by (intros E; apply Hm; eapply H7; [exact Hn|exact Hg|done]).
    apply (handler_other r _ i); [done| |done|by eapply H6]. intros j Hj. cbn. by rewrite lookup_delete_ne.
  - intros m m' g g' [_ Hg]%lookup_delete_Some [_ Hg']%lookup_delete_Some. by apply H7.
Qed.

Lemma init_ok id m r : receiver_ok r → size m = len source → receiver_ok (init id m r).2.
Proof.
  intros Hr Hm. unfold init. destruct (rbind _ _) as [r'| |] eqn:E; [|done..]. cbn. res_inv.
  destruct (manifest r) as [previous|]; [by res_inv|]. injection E as <-.
  destruct Hr as [H1 H2 H3 H4 H5 H6 H7 H8]. split; try done. intros m' [= <-]. unfold of_source. rewrite <- Hm. lia.
Qed.
Lemma request_accepted_ok n q r : receiver_ok r → handlers r !! n = None → exclusive (Begin n q) r →
  for_source (Begin n q) → receiver_ok (begin_chunk n q r).2.
Proof.
  intros Hr Hn Hex [_ Hh]. unfold begin_chunk.
  destruct (rbind _ _) as [[expected hash]| |] eqn:E; [|done..]. res_inv. destruct v; res_inv.
  pose proof (create_part_ok (q_index q) r Hr Hex) as H. destruct (create_part (q_index q) r) as [ino r'].
  destruct H as (Hr' & Hp & Hi & Hs & _). cbn. destruct Hr' as [H1 H2 H3 H4 H5 H6 H7 H8].
  split; try done; cbn.
  - intros m h [[-> <-]|[_ Hm]]%lookup_insert_Some; [|by apply (H6 m)]. split; [by apply Hh|]. split; [done|eauto].
  - intros m m' h h' [[-> <-]|[Hm Hl]]%lookup_insert_Some [[-> <-]|[Hm' Hl']]%lookup_insert_Some; try done.
    + cbn. intros E. rewrite Hs in Hl'. by destruct (Hex m' h' Hl').
    + cbn. intros E. rewrite Hs in Hl. by destruct (Hex m h Hl).
    + by apply H7.
Qed.

Hypothesis no_collision : collision_free.

Lemma step_chunk_ok n r o r' : receiver_ok r → step_chunk digest n r = Some (o, r') → receiver_ok r'.
Proof.
  intros Hr E. unfold step_chunk in E. destruct (handlers r !! n) as [h|] eqn:Hn; [|done].
  pose proof (rk_handler _ Hr n h Hn) as Hh.
  destruct h as [i expected hash ino sz [|[bytes|] body]|i hash|i]; cbn in Hh.
  - destruct (sz =? expected); injection E as <- <-; [|by apply end_handler_ok].
    eapply move_handler_ok; [done..|]. destruct Hh as (-> & ? & ?). by split; [|exists ino].
  - destruct (U64_MAX <? _); [injection E as <- <-; by eapply remove_part_ok|].
    destruct (expected <? _); injection E as <- <-; [by eapply remove_part_ok|].
    destruct Hh as (-> & Hp & Hi).
    assert (∀ b, handler_ok (set_inode ino b r) (Receiving i expected (digest (source_chunk source i)) ino (sz + len bytes) body)) as Hown.
    { intros b. split; [done|]. split; [done|]. cbn. rewrite lookup_insert_eq. eauto. }
    eapply move_handler_ok; [|exact Hn|done|apply Hown].
    apply (set_part_inode_ok i); [done..|]. intros m g Hm Hg.
    assert (m = n) as -> by (by eapply (rk_unique _ Hr)). rewrite Hn in Hm. injection Hm as <-.
    destruct (Hown (write_at sz bytes (default [] (inodes r !! ino)))) as (? & ? & ?). by split_and!.
  - injection E as <- <-. by eapply remove_part_ok.
  - destruct Hh as (-> & ino & Hp & [bytes Hi]). unfold contents in E. rewrite Hp in E. cbn in E. rewrite Hi in E.
    case_bool_decide as Hd; injection E as <- <-; [|by apply end_handler_ok].
    eapply move_handler_ok; [done..|]. exists ino. split; [done|]. by rewrite Hi, <- (no_collision _ _ Hd).
  - destruct (parts r !! i); injection E as <- <-; [by apply rename_part_ok|by apply end_handler_ok].
Qed.

(** The chunks of a file, in order, are the file. *)
Lemma concat_slices {A} (c : Z) (l : list A) n : 0 < c →
  concat (map (λ i, take (Z.to_nat c) (drop (Z.to_nat (i * c)) l)) (seqZ 0 (Z.of_nat n))) = take (Z.to_nat (Z.of_nat n * c)) l.
Proof.
  intros Hc. induction n as [|n IH]; [done|].
  rewrite seqZ_S, map_app, concat_app, IH, Nat2Z.inj_succ. cbn.
  rewrite app_nil_r, Z.add_0_l. replace (Z.to_nat (Z.succ (Z.of_nat n) * c)) with (Z.to_nat (Z.of_nat n * c) + Z.to_nat c)%nat by lia.
  apply take_take_drop.
Qed.
Lemma CHUNK_pos : 0 < CHUNK.
Proof. done. Qed.
Lemma source_chunks : concat (map (source_chunk source) (seqZ 0 (div_ceil (len source) CHUNK))) = source.
Proof.
  unfold source_chunk. pose proof CHUNK_pos as Hc. revert Hc. generalize CHUNK. intros c Hc.
  destruct (div_ceil_spec (len source) c Hc) as [H _].
  assert (0 ≤ div_ceil (len source) c) as H0 by (unfold div_ceil; apply Z.div_pos; lia).
  rewrite <- (Z2Nat.id (div_ceil (len source) c)) by done. rewrite concat_slices by done.
  apply take_ge. rewrite Z2Nat.id by done. lia.
Qed.
Lemma commit_ok destination r : receiver_ok r → handlers r = ∅ → receiver_ok (commit digest destination r).2.
Proof.
  intros Hr Hh. unfold commit. destruct (rbind _ _) as [[m assembled]| |] eqn:E; [|done..]. cbn. res_inv.
  destruct (rk_manifest _ Hr m) as (Hsz & _ & Hn); [done|].
  split; cbn; try done; try (intros; set_solver).
  - rewrite Hh. done.
  - rewrite Hh. done.
  - intros f t [= <- _]. rewrite <- source_chunks, <- Hn. f_equal.
    match goal with E : mapM _ _ = Some _ |- _ => apply mapM_Some in E; rename E into Hm end.
    match goal with H : (len (concat _) =? _) = true |- _ => clear H end.
    induction Hm as [|i bytes idxs pieces Hi _ IH]; [done|]. cbn. f_equal; [|exact IH].
    unfold contents in Hi. destruct (chunk_files r !! i) as [ino|] eqn:Ei; [|done]. cbn in Hi.
    rewrite (rk_chunk _ Hr i ino Ei) in Hi. congruence.
Qed.
Lemma receiver_act_ok a r r' : receiver_ok r → exclusive a r → for_source a → act digest a r = Some r' → receiver_ok r'.
Proof.
  intros Hr Hex Hs E. destruct a; cbn [act] in E.
  - injection E as <-. by apply init_ok.
  - case_bool_decide; [|done]. injection E as <-. by apply request_accepted_ok.
  - destruct (step_chunk digest n r) as [[o r1]|] eqn:Es; [|done]. injection E as <-. by eapply step_chunk_ok.
  - destruct (handlers r !! n) as [[]|] eqn:En; try done. injection E as <-. by eapply remove_part_ok.
  - injection E as <-. by apply end_handler_ok.
  - injection E as <-. by apply commit_ok.
Qed.
Lemma receiver_run_ok actions : ∀ r r', receiver_ok r → all_exclusive actions r → Forall for_source actions →
  run digest actions r = Some r' → receiver_ok r'.
Proof.
  induction actions as [|a actions IH]; intros r r' Hr Hex Hs; simpl; [by intros [= <-]|].
  destruct Hex as [He Hex]. apply Forall_cons in Hs as [Ha Hs].
  destruct (act digest a r) as [r1|] eqn:E; [|done]. cbn. apply IH; [|done|done]. by eapply receiver_act_ok.
Qed.

(** ** A chunk that arrives whole *)

Definition hex_digest : Prop :=
  ∀ bytes, (slen (digest bytes) =? 64) && all_bytes is_ascii_hexdigit (digest bytes) = true.
Hypothesis hex : hex_digest.

Lemma chunk_request_eq i : 0 ≤ i * CHUNK ≤ len source → chunk_request digest source i =
  Ok (mkChunkRequest i (Some (len (source_chunk source i))) (Some (digest (source_chunk source i)))
        [Data (source_chunk source i)]).
Proof.
  intros Hi. unfold chunk_request. rewrite (proj2 (Z.leb_le _ _)) by lia. cbn [ok_or rbind].
  assert (take (Z.to_nat (Z.min (len source - i * CHUNK) CHUNK)) (drop (Z.to_nat (i * CHUNK)) source)
    = source_chunk source i) as E.
  { unfold source_chunk. destruct (decide (CHUNK ≤ len source - i * CHUNK)).
    - by rewrite Z.min_r by lia.
    - rewrite !take_ge; [done|rewrite length_drop; lia..]. }
  rewrite E. do 2 f_equal. f_equal. unfold source_chunk. rewrite length_take, length_drop.
  pose proof CHUNK_pos. lia.
Qed.
Lemma source_chunk_length m i : of_source m → 0 ≤ i < chunks m →
  0 ≤ i * CHUNK < len source ∧ expected_length m i = Ok (len (source_chunk source i)) ∧
  0 < len (source_chunk source i).
Proof.
  intros (Hs & Hc & Hn) Hi. rewrite Hn in Hi.
  pose proof CHUNK_pos as Hpos. destruct (div_ceil_spec (len source) CHUNK Hpos) as [_ Hl].
  specialize (Hl i (proj2 Hi)). assert (0 ≤ i * CHUNK) as H0 by nia. split; [lia|].
  unfold expected_length. rewrite Hs, Hc, usub_ok by lia. cbn [rbind].
  unfold source_chunk. rewrite length_take, length_drop.
  split; [f_equal|]; lia.
Qed.

(** Up to the renaming, alone or not. *)
Definition sent (n : nat) (i : Z) : list Action :=
  match chunk_request digest source i with
  | Ok q => [Begin n q; Step n; Step n; Step n]
  | _ => []
  end.
Record received_chunk (n : nat) (i : Z) (r r' : Receiver) : Prop := {
  rc_handlers : handlers r' = <[n := Renaming i]> (handlers r);
  rc_manifest : manifest r' = manifest r;
  rc_chunks : chunk_files r' = chunk_files r;
  rc_target : target r' = target r;
  rc_part : ∃ ino, parts r' !! i = Some ino ∧ inodes r' !! ino = Some (source_chunk source i) }.
Lemma begin_eval n i r m : of_source m → manifest r = Some m → 0 ≤ i < chunks m → handlers r !! n = None →
  ∃ ino r1, create_part i r = (ino, r1) ∧ ∀ q, chunk_request digest source i = Ok q →
    act digest (Begin n q) r =
    Some (set_handlers (<[n := Receiving i (len (source_chunk source i)) (digest (source_chunk source i)) ino 0
                            [Data (source_chunk source i)]]> (handlers r1)) r1).
Proof.
  intros Hr Hm Hi Hn. destruct (source_chunk_length m i Hr Hi) as (Hb & He & _).
  destruct (create_part i r) as [ino r1] eqn:Ec. exists ino, r1. split; [done|]. intros q.
  rewrite chunk_request_eq by lia. intros [= <-]. cbn [act]. rewrite bool_decide_true by done.
  unfold begin_chunk. rewrite Hm. cbn [ok_or rbind q_index q_length q_hash q_body].
  rewrite (proj2 (Z.ltb_lt i (chunks m))) by lia. cbn [ensure rbind]. rewrite He. cbn [rbind].
  rewrite Z.eqb_refl. cbn [ensure rbind]. rewrite hex. cbn [ensure rbind]. by rewrite Ec.
Qed.
(** The four steps of a handler, when all goes well. *)
Lemma step_data n r i expected hash ino sz bytes body :
  handlers r !! n = Some (Receiving i expected hash ino sz (Data bytes :: body)) →
  sz + len bytes ≤ U64_MAX → sz + len bytes ≤ expected →
  act digest (Step n) r = Some (move_handler n (Receiving i expected hash ino (sz + len bytes) body)
    (set_inode ino (write_at sz bytes (default [] (inodes r !! ino))) r)).
Proof.
  intros H H1 H2. unfold act, step_chunk. rewrite H.
  by rewrite (proj2 (Z.ltb_ge U64_MAX _)), (proj2 (Z.ltb_ge expected _)) by lia.
Qed.
Lemma step_end n r i expected hash ino :
  handlers r !! n = Some (Receiving i expected hash ino expected []) →
  act digest (Step n) r = Some (move_handler n (Checking i hash) r).
Proof. intros H. unfold act, step_chunk. rewrite H. by rewrite Z.eqb_refl. Qed.
Lemma step_check n r i ino bytes :
  handlers r !! n = Some (Checking i (digest bytes)) → parts r !! i = Some ino → inodes r !! ino = Some bytes →
  act digest (Step n) r = Some (move_handler n (Renaming i) r).
Proof.
  intros H Hp Hi. unfold act, step_chunk. rewrite H. unfold contents. rewrite Hp. cbn [mbind option_bind].
  by rewrite Hi, bool_decide_true.
Qed.
Lemma step_rename n r i ino : handlers r !! n = Some (Renaming i) → parts r !! i = Some ino →
  act digest (Step n) r = Some (end_handler n (rename_part i r)).
Proof. intros H Hp. unfold act, step_chunk. rewrite H. by rewrite Hp. Qed.

Lemma run_cons a actions r r1 : act digest a r = Some r1 → run digest (a :: actions) r = run digest actions r1.
Proof. intros H. cbn [run]. by rewrite H. Qed.
Lemma run_app actions actions' r r1 : run digest actions r = Some r1 →
  run digest (actions ++ actions') r = run digest actions' r1.
Proof.
  revert r. induction actions as [|a actions IH]; intros r; cbn [run app]; [by intros [= ->]|].
  destruct (act digest a r) as [r2|]; [|done]. cbn [mbind option_bind]. apply IH.
Qed.

Lemma write_at_start bytes : write_at 0 bytes [] = bytes.
Proof. exact (write_at_end bytes []). Qed.
Lemma sent_spec n i r m : receiver_ok r → manifest r = Some m → 0 ≤ i < chunks m → handlers r !! n = None →
  map_Forall (λ _ h, index_of h ≠ i) (handlers r) → len source ≤ U64_MAX →
  ∃ r', run digest (sent n i) r = Some r' ∧ received_chunk n i r r'.
Proof.
  intros Hr Hm Hi Hn Hex Hmax.
  destruct (source_chunk_length m i (rk_manifest _ Hr m Hm) Hi) as (Hb & He & Hpos).
  destruct (begin_eval n i r m (rk_manifest _ Hr m Hm) Hm Hi Hn) as (ino & r1 & Ec & Hbegin).
  pose proof (create_part_ok i r Hr Hex) as Hc. rewrite Ec in Hc. destruct Hc as (Hr1 & Hp & Hin & Hh & Hm1).
  assert (chunk_files r1 = chunk_files r ∧ target r1 = target r) as [Hcf Ht].
  { unfold create_part in Ec. destruct (parts r !! i); injection Ec as <- <-; done. }
  assert (len (source_chunk source i) ≤ len source) as Hle.
  { unfold source_chunk. rewrite length_take, length_drop. lia. }
  unfold sent. rewrite chunk_request_eq in * by lia. rewrite (run_cons _ _ _ _ (Hbegin _ eq_refl)).
  erewrite run_cons by (eapply step_data; [apply lookup_insert_eq|lia|lia]).
  cbn [inodes set_handlers]. rewrite Hin. cbn [default].
  rewrite write_at_start, Z.add_0_l.
  erewrite run_cons by (eapply step_end; apply lookup_insert_eq).
  erewrite run_cons by (eapply step_check; [apply lookup_insert_eq|exact Hp|apply lookup_insert_eq]).
  eexists. split; [reflexivity|].
  split; cbn; rewrite ?insert_insert_eq; try done; [by rewrite Hh|]. exists ino. by rewrite lookup_insert_eq.
Qed.

(** ** The missing chunks, then the end *)

Definition upload_chunk (i : Z) : list Action := sent 0 i ++ [Step 0].
Definition upload_rest (m : Manifest) (r : Receiver) (destination : string → res unit) : list Action :=
  flat_map upload_chunk (missing_chunks m r) ++ [Commit destination].

(** Idle, with the manifest [m]. *)
Record idle (m : Manifest) (r : Receiver) : Prop := {
  id_ok : receiver_ok r;
  id_handlers : handlers r = ∅;
  id_manifest : manifest r = Some m }.
Lemma upload_chunk_spec i m r : idle m r → 0 ≤ i < chunks m → len source ≤ U64_MAX →
  ∃ r' ino, run digest (upload_chunk i) r = Some r' ∧ idle m r' ∧
    chunk_files r' = <[i := ino]> (chunk_files r).
Proof.
  intros [Hr Hh Hm] Hi Hmax.
  destruct (sent_spec 0 i r m Hr Hm Hi) as (r1 & E & [H1 H2 H3 H4 (ino & Hp & Hino)]);
    [by rewrite Hh|by rewrite Hh; apply map_Forall_empty|done|].
  assert (handlers r1 !! 0%nat = Some (Renaming i)) as Hn by (rewrite H1; apply lookup_insert_eq).
  unfold upload_chunk. rewrite (run_app _ _ _ _ E). rewrite (run_cons _ _ _ _ (step_rename _ _ _ _ Hn Hp)).
  assert (receiver_ok r1) as Hr1.
  { assert (all_exclusive (sent 0 i) r ∧ Forall for_source (sent 0 i)) as [Hex Hs].
    { destruct (source_chunk_length m i (rk_manifest _ Hr m Hm) Hi) as (Hb & _). unfold sent. rewrite chunk_request_eq by lia.
      split; [split; [cbn; rewrite Hh; apply map_Forall_empty|]|].
      { repeat (match goal with |- match ?x with _ => _ end => destruct x; [|done] end; cbn [all_exclusive]; try (split; [done|])); done. }
      repeat constructor; cbn; [lia|]. by intros hash [= <-]. }
    exact (receiver_run_ok (sent 0 i) r r1 Hr Hex Hs E). }
  eexists _, ino. split; [reflexivity|]. split.
  - split; [by apply rename_part_ok|cbn|cbn].
    + unfold rename_part. rewrite Hp. cbn. rewrite H1, Hh, insert_empty. apply delete_singleton_eq.
    + unfold rename_part. rewrite Hp. cbn. by rewrite H2.
  - cbn. unfold rename_part. rewrite Hp. cbn. by rewrite H3.
Qed.
Lemma upload_chunks_spec m is' : ∀ r, idle m r → Forall (λ i, 0 ≤ i < chunks m) is' → len source ≤ U64_MAX →
  ∃ r', run digest (flat_map upload_chunk is') r = Some r' ∧ idle m r' ∧
    ∀ j, j ∈ is' ∨ is_Some (chunk_files r !! j) → is_Some (chunk_files r' !! j).
Proof.
  induction is' as [|i is' IH]; intros r Hi Hb Hmax.
  { exists r. split; [done|]. split; [done|]. by intros j [?%not_elem_of_nil|]. }
  apply Forall_cons in Hb as [Hib Hb]. destruct (upload_chunk_spec i m r Hi Hib Hmax) as (r1 & ino & E & Hi1 & Hc).
  destruct (IH r1 Hi1 Hb Hmax) as (r' & E' & Hi' & Hj). exists r'. cbn [flat_map].
  rewrite (run_app _ _ _ _ E). split; [done|]. split; [done|]. intros j Hjs. apply Hj. rewrite Hc.
  destruct (decide (j = i)) as [->|Hne]; [right; rewrite lookup_insert_eq; eauto|].
  rewrite lookup_insert_ne by done. set_solver.
Qed.
Lemma commit_complete m r destination : idle m r → (∀ i, 0 ≤ i < chunks m → is_Some (chunk_files r !! i)) →
  destination (name m) = Ok tt →
  ∃ r', commit digest destination r = (Ok (digest source), r') ∧
    target r' = Some (source, (modified_unix m, modified_nanos m)).
Proof.
  intros [Hr Hh Hm] Hc Hd. destruct (rk_manifest _ Hr m Hm) as (Hs & _ & Hn).
  assert (missing_chunks m r = []) as Hmiss.
  { destruct (missing_chunks m r) as [|i l] eqn:E; [done|].
    assert (i ∈ missing_chunks m r) as Hi by (rewrite E; left).
    apply list_elem_of_In, filter_In in Hi as [Hi%list_elem_of_In%elem_of_seqZ Hb%bool_decide_eq_true].
    destruct (Hc i) as [? Ei]; [lia|]. by rewrite Hb in Ei. }
  assert (mapM (λ i, contents r (chunk_files r !! i)) (seqZ 0 (chunks m))
    = Some (map (source_chunk source) (seqZ 0 (chunks m)))) as Hmap.
  { apply mapM_Some. change (map (source_chunk source)) with (fmap (M := list) (source_chunk source)).
    apply Forall2_fmap_r, Forall_Forall2_diag, Forall_forall.
    intros i Hi%elem_of_seqZ. destruct (Hc i) as [ino Ei]; [lia|]. rewrite Ei. cbn. by apply (rk_chunk _ Hr). }
  unfold commit. rewrite Hm. cbn [ok_or rbind]. rewrite Hmiss. cbn [bool_decide ensure rbind].
  rewrite bool_decide_true by done. cbn [ensure rbind]. rewrite Hd. cbn [rbind]. rewrite Hmap. cbn [ok_or rbind].
  rewrite Hn, source_chunks, Hs, Z.eqb_refl. cbn [ensure rbind]. eexists. split; [reflexivity|done].
Qed.
Lemma upload_rest_spec m r destination : idle m r → len source ≤ U64_MAX → destination (name m) = Ok tt →
  ∃ r', run digest (upload_rest m r destination) r = Some r' ∧
    target r' = Some (source, (modified_unix m, modified_nanos m)).
Proof.
  intros Hi Hmax Hd. unfold upload_rest.
  destruct (upload_chunks_spec m (missing_chunks m r) r Hi) as (r1 & E & Hi1 & Hj); [|done|].
  { apply Forall_forall. intros i [Hi' _]%list_elem_of_In%filter_In. apply list_elem_of_In, elem_of_seqZ in Hi'. lia. }
  destruct (commit_complete m r1 destination Hi1) as (r2 & Ec & Ht); [|done|].
  { intros i Hib. apply Hj. destruct (chunk_files r !! i) eqn:Ei; [right; eauto|left].
    apply list_elem_of_In, filter_In. split; [apply list_elem_of_In, elem_of_seqZ; lia|]. by apply bool_decide_eq_true. }
  exists r2. rewrite (run_app _ _ _ _ E). rewrite (run_cons _ _ _ r2); [done|]. cbn [act]. by rewrite Ec.
Qed.
End upload.

(** ** Theorems *)

(** C30. Whatever arrives for a chunk, in whatever order requests come, are cut off or are
    resumed: as long as a client has one request at a time for each chunk and ends the upload
    after the others, the receiver publishes nothing but the file the client read. *)
Theorem upload_is_source digest source actions r f t : collision_free digest source →
  all_exclusive digest actions empty → Forall (for_source digest source) actions →
  run digest actions empty = Some r → target r = Some (f, t) → f = source.
Proof.
  intros Hc Hex Hs Hrun Ht.
  exact (rk_target _ _ _ (receiver_run_ok digest source Hc actions empty r (empty_ok digest source) Hex Hs Hrun) f t Ht).
Qed.

(** An upload that was interrupted anywhere can be finished: from every idle state such a
    client leaves, sending the chunks that [status] names and ending the upload publishes the
    whole file with its modification time. *)
Theorem resumed_upload_completes digest source actions r m destination :
  collision_free digest source → hex_digest digest → len source ≤ U64_MAX →
  all_exclusive digest actions empty → Forall (for_source digest source) actions →
  run digest actions empty = Some r → handlers r = ∅ → manifest r = Some m →
  destination (name m) = Ok tt →
  ∃ r', run digest (upload_rest digest source m r destination) r = Some r' ∧
    target r' = Some (source, (modified_unix m, modified_nanos m)).
Proof.
  intros Hc Hx Hmax Hex Hs Hrun Hh Hm Hd. apply upload_rest_spec; try done. split; try done.
  exact (receiver_run_ok digest source Hc actions empty r (empty_ok digest source) Hex Hs Hrun).
Qed.

(** A second request for the only chunk starts while the first is about to rename its file;
    then its connection closes. *)
Definition racing_actions (digest : list Z → string) (source : list Z) (id : string) (m : Manifest) : list Action :=
  Init id m :: sent digest source 0 0 ++
  match chunk_request digest source 0 with
  | Ok q => [Begin 1 q; Step 0; Drop 1]
  | _ => []
  end.
Lemma racing_state digest source id m : hex_digest digest → 0 < len source ≤ CHUNK →
  (init id m empty).1 = Ok (missing_chunks m empty) → size m = len source →
  ∃ r ino, run digest (racing_actions digest source id m) empty = Some r ∧
    handlers r = ∅ ∧ manifest r = Some m ∧ chunk_files r = {[0 := ino]} ∧ inodes r !! ino = Some [].
Proof.
  intros Hx Hl Hi Hs.
  assert ((init id m empty).2 = set_manifest (Some m) empty) as Ei.
  { unfold init in Hi |- *. destruct (rbind _ _) as [r'| |] eqn:E; [|done..]. cbn. res_inv. cbn in E. by injection E. }
  pose proof (init_ok digest source id m empty (empty_ok digest source) Hs) as Hr. rewrite Ei in Hr.
  set (r0 := set_manifest (Some m) empty) in *.
  assert (of_source source m) as Hof by by apply (rk_manifest _ _ _ Hr).
  assert (0 ≤ 0 < chunks m) as H0.
  { destruct Hof as (_ & _ & ->). pose proof (div_ceil_pos (len source) CHUNK). pose proof CHUNK_pos. lia. }
  destruct (sent_spec digest source Hx 0 0 r0 m Hr eq_refl H0) as (r1 & E & [H1 H2 H3 H4 (ino & Hp & Hino)]);
    [done|apply map_Forall_empty|unfold U64_MAX, CHUNK in *; lia|].
  destruct (begin_eval digest source Hx 1 0 r1 m Hof) as (ino' & r2 & Ec & Hb); [by rewrite H2|done| |].
  { rewrite H1. by rewrite lookup_insert_ne. }
  unfold create_part in Ec. rewrite Hp in Ec. injection Ec as <- <-.
  unfold racing_actions. rewrite (run_cons _ _ _ _ r0) by (cbn [act]; by rewrite Ei).
  rewrite (run_app _ _ _ _ _ E). rewrite chunk_request_eq in * by lia.
  rewrite (run_cons _ _ _ _ _ (Hb _ eq_refl)).
  erewrite run_cons; [|eapply step_rename; [|exact Hp]].
  2:{ cbn. rewrite lookup_insert_ne by done. rewrite H1. apply lookup_insert_eq. }
  eexists _, ino. split; [reflexivity|]. cbn. unfold rename_part. cbn. rewrite Hp. cbn.
  rewrite H1, H2, H3. split_and!; [|done|done|apply lookup_insert_eq].
  apply map_eq. intros k. rewrite lookup_empty. apply lookup_delete_None.
  destruct (decide (k = 1%nat)) as [|Hk]; [by left|right]. apply lookup_delete_None.
  destruct (decide (k = 0%nat)) as [|Hk']; [by left|right]. by rewrite !lookup_insert_ne.
Qed.

(** Two requests for one chunk share the temporary file, so the file that is renamed need
    not be the one that was verified.  After the run of [racing_actions], in which the first
    request verified its bytes, nothing is missing for [status], but the chunk is empty:
    the upload can never be ended, and a client that resumes sends nothing more. *)
Theorem racing_chunk_lost digest source id m : hex_digest digest → 0 < len source ≤ CHUNK →
  (init id m empty).1 = Ok (missing_chunks m empty) → size m = len source →
  ∃ r, run digest (racing_actions digest source id m) empty = Some r ∧ handlers r = ∅ ∧
    status id r = Ok [] ∧ upload_rest digest source m r (λ _, Ok tt) = [Commit (λ _, Ok tt)] ∧
    ∀ destination, is_ok (commit digest destination r).1 = false ∧ (commit digest destination r).2 = r.
Proof.
  intros Hx Hl Hi Hs. destruct (racing_state digest source id m Hx Hl Hi Hs) as (r & ino & E & Hh & Hm & Hc & Hino).
  exists r. split; [done|]. split; [done|].
  assert (valid_id id = true ∧ chunks m = 1) as [Hid Hn].
  { unfold init in Hi. destruct (rbind _ _) as [r'| |] eqn:E'; [|done..]. res_inv. split; [done|].
    assert (chunks m = div_ceil (size m) CHUNK) as -> by (by apply Z.eqb_eq). rewrite Hs.
    unfold div_ceil. pose proof CHUNK_pos. symmetry. apply (Z.div_unique _ _ 1 (len source - 1)); lia. }
  assert (missing_chunks m r = []) as Hmiss.
  { unfold missing_chunks. rewrite Hn. cbn [seqZ]. rewrite Hc. reflexivity. }
  split; [by unfold status; rewrite Hid, Hm; cbn; rewrite Hmiss|].
  split; [by unfold upload_rest; rewrite Hmiss|].
  intros destination. unfold commit. rewrite Hm. cbn [ok_or rbind]. rewrite Hmiss, Hn.
  rewrite bool_decide_true by done. cbn [ensure rbind]. destruct (destination (name m)); [|by split..]. cbn [rbind].
  change (seqZ 0 1) with [0]. cbn [mapM mbind]. rewrite Hc. unfold contents. rewrite lookup_singleton_eq. cbn.
  rewrite Hino. cbn. destruct (size m) eqn:Em; [lia|by split..].
Qed.

(** ** Examples *)

(** A file of three bytes and a hash that tells it from the empty file and from the rest. *)
Definition sample_source : list Z := [1; 2; 3].
Definition sixty_four (digit : string) : string := String.concat "" (replicate 64 digit).
Definition sample_digest (bytes : list Z) : string :=
  if bool_decide (bytes = sample_source) then sixty_four "a"
  else if bool_decide (bytes = []) then sixty_four "b" else sixty_four "c".
Definition sample_id : string := sixty_four "0".
Definition sample_manifest : Manifest := mkManifest "dir/f.bin" 3 CHUNK 1 1700000000 5.
Definition sample_request (body : list Event) : ChunkRequest :=
  mkChunkRequest 0 None (Some (sample_digest sample_source)) body.
(** A request that breaks, one whose bytes were altered, one that is dropped. *)
Definition sample_prefix : list Action :=
  [Init sample_id sample_manifest; Begin 0 (sample_request [Data [1]; Broken]); Step 0; Step 0;
   Begin 1 (sample_request [Data [1; 2; 4]]); Step 1; Step 1; Step 1;
   Begin 2 (sample_request [Data [1; 2]]); Step 2; Drop 2].
Definition sample_actions : list Action :=
  sample_prefix ++ [Begin 3 (sample_request [Data [1; 2]; Data [3]]); Step 3; Step 3; Step 3; Step 3; Step 3;
                    Commit (λ _, Ok tt)].
Definition sample_idle : Receiver := default empty (run sample_digest sample_prefix empty).
Definition sample_end : Receiver := default empty (run sample_digest sample_actions empty).

Lemma sample_chunk i : source_chunk sample_source i = sample_source ∨ source_chunk sample_source i = [].
Proof.
  assert (8 ≤ CHUNK) as Hc by (unfold CHUNK; lia). unfold source_chunk. revert Hc. generalize CHUNK. intros c Hc.
  destruct (decide (i ≤ 0)).
  - left. replace (Z.to_nat (i * c)) with 0%nat by nia. apply take_ge. simpl. lia.
  - right. rewrite drop_ge; [apply take_nil|]. simpl. nia.
Qed.
Lemma sample_chunk_0 : source_chunk sample_source 0 = sample_source.
Proof.
  assert (8 ≤ CHUNK) as Hc by (unfold CHUNK; lia). unfold source_chunk. revert Hc. generalize CHUNK. intros c Hc.
  apply take_ge. simpl. lia.
Qed.
Lemma sample_distinct : sixty_four "a" ≠ sixty_four "b" ∧ sixty_four "a" ≠ sixty_four "c" ∧
  sixty_four "b" ≠ sixty_four "c".
Proof. apply (bool_decide_unpack _). vm_compute. exact I. Qed.
Lemma sample_collision_free : collision_free sample_digest sample_source.
Proof.
  destruct sample_distinct as (Hab & Hac & Hbc). intros bytes i. unfold sample_digest. revert Hab Hac Hbc.
  generalize (sixty_four "a") (sixty_four "b") (sixty_four "c"). intros a b c Hab Hac Hbc.
  destruct (sample_chunk i) as [-> | ->]; repeat case_bool_decide; congruence.
Qed.
Lemma sample_hex : hex_digest sample_digest.
Proof. intros bytes. unfold sample_digest. repeat case_bool_decide; vm_compute; reflexivity. Qed.
Lemma sample_for_source : Forall (for_source sample_digest sample_source) sample_actions.
Proof.
  unfold sample_actions, sample_prefix. cbn [app].
  repeat (apply Forall_cons; split; [first [exact I|done|
    split; [done|cbn; rewrite sample_chunk_0; by intros hash [= <-]]]|]). constructor.
Qed.
Lemma sample_prefix_for_source : Forall (for_source sample_digest sample_source) sample_prefix.
Proof. exact (proj1 (proj1 (Forall_app _ sample_prefix _) sample_for_source)). Qed.

Lemma upload_is_source_witness :
  target sample_end = Some (sample_source, (1700000000, 5)) ∧ sample_source = sample_source.
Proof.
  assert (run sample_digest sample_actions empty = Some sample_end) as H by (apply some_default; by_vm).
  assert (target sample_end = Some (sample_source, (1700000000, 5))) as Ht by (vm_compute; reflexivity).
  split; [exact Ht|].
  apply (upload_is_source sample_digest sample_source sample_actions sample_end sample_source (1700000000, 5)
    sample_collision_free); [apply (bool_decide_unpack _); vm_compute; exact I|exact sample_for_source|exact H|exact Ht].
Defined.
Lemma resumed_upload_completes_witness :
  status sample_id sample_idle = Ok [0] ∧
  ∃ r', run sample_digest (upload_rest sample_digest sample_source sample_manifest sample_idle (λ _, Ok tt)) sample_idle = Some r' ∧
    target r' = Some (sample_source, (1700000000, 5)).
Proof.
  split; [by_vm|].
  apply (resumed_upload_completes sample_digest sample_source sample_prefix sample_idle sample_manifest (λ _, Ok tt)
    sample_collision_free sample_hex); [unfold U64_MAX; simpl; lia|apply (bool_decide_unpack _); vm_compute; exact I|
    exact sample_prefix_for_source|apply some_default; by_vm|by_vm|by_vm|done].
Defined.
Lemma racing_chunk_lost_witness :
  ∃ r, run sample_digest (racing_actions sample_digest sample_source sample_id sample_manifest) empty = Some r ∧
    handlers r = ∅ ∧ status sample_id r = Ok [] ∧
    upload_rest sample_digest sample_source sample_manifest r (λ _, Ok tt) = [Commit (λ _, Ok tt)] ∧
    ∀ destination, is_ok (commit sample_digest destination r).1 = false ∧
      (commit sample_digest destination r).2 = r.
Proof.
  apply (racing_chunk_lost sample_digest sample_source sample_id sample_manifest sample_hex);
    [unfold CHUNK; simpl; lia|by_vm|done].
Defined.
