(* ===== verification/SyncLoop.v ===== *)
(** * Watching a synchronised folder ([porthub-transfer/src/sync.rs])

    The callback of the file watcher marks what changed; a loop takes the marks, uploads,
    and waits for the next ones, for the end of a burst or for a retry.  Both share a set of
    dirty paths under a mutex and a channel that holds one wake-up token.  The watcher's
    backend is part of the state: changes it has seen and not yet reported, and whether it
    is attached to the source at all, since a full pass attaches it again and drops what
    was not reported.  Time is in milliseconds; it does not pass while a task is ready. *)

From S2P Require Import Prelude RustStr.
Local Open Scope string_scope.
Local Open Scope list_scope.
Local Open Scope Z_scope.

(** A path is its components. *)
Notation Path := (list string) (only parsing).

(** ** The marks *)

Record Dirty := mkDirty { full : bool; paths : gset (list string) }.
(** [Err] of the backend, or an event. *)
Inductive Notice :=
  | Failed
  | Event (access need_rescan : bool) (event_paths : list (list string)).

Definition dirty_default : Dirty := mkDirty false ∅.
Definition set_full (d : Dirty) : Dirty := mkDirty true (paths d).
Definition marked (d : Dirty) : bool := full d || negb (bool_decide (paths d = ∅)).

Section watch.
Variable watched_root : list string.

Definition add_path (d : Dirty) (path : list string) : Dirty :=
  if bool_decide (path = watched_root) then set_full d
  else if bool_decide (watched_root `prefix_of` path) && negb (full d)
  then mkDirty (full d) ({[path]} ∪ paths d)
  else d.
Definition mark (event : Notice) (d : Dirty) : Dirty :=
  match event with
  | Event _ false (path :: more) =>
      let d := foldl add_path d (path :: more) in
      if 1024 <? Z.of_nat (size (paths d)) then set_full d else d
  | _ => set_full d
  end.
(** The callback of the watcher: the marks and whether a token is in the channel. *)
Definition notify (event : Notice) (d : Dirty) (token : bool) : Dirty * bool :=
  match event with
  | Event true _ _ => (d, token)
  | _ =>
      let d := mark event d in
      let d := if full d then mkDirty (full d) ∅ else d in
      (d, marked d || token)
  end.

(** ** The loop *)

Record Status := mkStatus {
  state : string; completed_runs : Z; last_success_unix : option Z; message : string }.
Inductive Phase :=
  | Head
  (** waiting for a token with nothing to do *)
  | Idle
  (** about to attach the watcher again, if the pass is full *)
  | Attaching (changes : Dirty)
  | Uploading (changes : Dirty)
  | Delaying (until : Z)
  (** waiting for a token after a success *)
  | Waiting
  | Debouncing (maximum quiet : Z)
  | Finished (outcome : res unit).
(** What happened: a file changed, the loop took its marks, it began to read the source for
    an upload, the pass ended. *)
Inductive Entry :=
  | Changed (path : list string)
  | Attempt (changes : Dirty)
  | Started (changes : Dirty)
  | Ended (success : bool).

Record Watch := mkWatch { dirty : Dirty; token : bool; attached : bool; queue : list Notice }.
Record Loop := mkLoop { phase : Phase; retry : Z; status : Status }.
Record Job := mkJob { now : Z; watch : Watch; loop : Loop; trace : list Entry }.

Definition initial : Job :=
  mkJob 0 (mkWatch (mkDirty true ∅) false true [])
    (mkLoop Head 5000 (mkStatus "syncing" 0 None "Initial sync")) [].

Definition set_phase (p : Phase) (l : Loop) : Loop := mkLoop p (retry l) (status l).
Definition set_watch (w : Watch) (j : Job) : Job := mkJob (now j) w (loop j) (trace j).
Definition set_loop (l : Loop) (j : Job) : Job := mkJob (now j) (watch j) l (trace j).
Definition log (e : Entry) (j : Job) : Job := mkJob (now j) (watch j) (loop j) (e :: trace j).
Definition goto (p : Phase) (j : Job) : Job := set_loop (set_phase p (loop j)) j.

(** The head of the loop takes marks and token under the mutex. *)
Definition take_marks (j : Job) : Job :=
  let w := watch j in
  let changes := dirty w in
  let j := set_watch (mkWatch dirty_default false (attached w) (queue w)) j in
  if marked changes then
    let s := status (loop j) in
    log (Attempt changes)
      (set_loop (mkLoop (Attaching changes) (retry (loop j))
         (mkStatus "syncing" (completed_runs s) (last_success_unix s) (message s))) j)
  else goto Idle j.
(** A pass that failed: everything is marked again, and the next delay is twice as long. *)
Definition fail_pass (j : Job) : Job :=
  let w := watch j in
  let l := loop j in
  let s := status l in
  log (Ended false)
    (mkJob (now j) (mkWatch (set_full (dirty w)) (token w) (attached w) (queue w))
       (mkLoop (Delaying (now j + retry l)) (Z.min (retry l * 2) 60000)
          (mkStatus "retrying" (completed_runs s) (last_success_unix s)
             ("Sync incomplete; resume in " +:+ show_u128 (retry l / 1000) +:+ " seconds")))
       (trace j)).
(** [attach] is the outcome of [watcher.watch] after [unwatch]. *)
Definition attach (changes : Dirty) (attached' : bool) (j : Job) : Job :=
  if full changes then
    let j := set_watch (mkWatch (dirty (watch j)) (token (watch j)) attached' []) j in
    if attached' then log (Started changes) (goto (Uploading changes) j) else fail_pass j
  else log (Started changes) (goto (Uploading changes) j).
(** [put_path] or [put_changed_paths] returned; [clock] is the time since 1970. *)
Definition finish (result : res string) (clock : res Z) (j : Job) : Job :=
  match result with
  | Ok text =>
      let s := status (loop j) in
      match clock with
      | Ok seconds =>
          log (Ended true)
            (set_loop (mkLoop Waiting 5000 (mkStatus "watching" (completed_runs s + 1) (Some seconds) text)) j)
      | failed =>
          log (Ended true)
            (set_loop (mkLoop (Finished (let! _ := failed in Ok tt)) (retry (loop j))
               (mkStatus "watching" (completed_runs s + 1) (last_success_unix s) (message s))) j)
      end
  | _ => fail_pass j
  end.
(** [events.recv()]: what the awaiting phase does with a token. *)
Definition woken (p : Phase) (t : Z) : option Phase :=
  match p with
  | Idle => Some Head
  | Waiting => Some (Debouncing (t + 2000) (t + 500))
  | Debouncing maximum _ => Some (Debouncing maximum (t + 500))
  | _ => None
  end.
Definition elapsed (p : Phase) (t : Z) : bool :=
  match p with
  | Delaying until => until <=? t
  | Debouncing maximum quiet => (maximum <=? t) || (quiet <=? t)
  | _ => false
  end.
(** Where the loop awaits the cancellation. *)
Definition cancellable (p : Phase) : bool :=
  match p with Head | Attaching _ | Finished _ => false | _ => true end.

(** ** Steps *)

Inductive Action :=
  (** A file below the source changes; an attached watcher sees it. *)
  | Change (path : list string)
  (** The source folder itself is moved or deleted, and with it what the watcher sees. *)
  | ReplaceRoot
  (** The queue of the backend overflows. *)
  | Overflow
  (** The backend reports its first event, or anything else. *)
  | Report
  | Spurious (event : Notice)
  | Take
  | Attach (attached' : bool)
  | Finish (result : res string) (clock : res Z)
  | Wake
  | Elapse
  | Cancel
  | Advance (d : Z).

(** When the loop moves on by itself at the latest; [None] while it waits for a token that
    is not there or for the upload. *)
Definition deadline (j : Job) : option Z :=
  match phase (loop j) with
  | Head | Attaching _ => Some (now j)
  | Idle | Waiting => if token (watch j) then Some (now j) else None
  | Delaying until => Some (Z.max until (now j))
  | Debouncing maximum quiet =>
      Some (if token (watch j) then now j else Z.max (Z.min maximum quiet) (now j))
  | Uploading _ | Finished _ => None
  end.
Definition enqueue (n : list Notice) (w : Watch) : Watch :=
  mkWatch (dirty w) (token w) (attached w) (queue w ++ n).
Definition report (n : Notice) (w : Watch) : Watch :=
  let '(d, t) := notify n (dirty w) (token w) in mkWatch d t (attached w) (queue w).
Definition act (a : Action) (j : Job) : option Job :=
  let w := watch j in
  let p := phase (loop j) in
  match a with
  | Change path =>
      if bool_decide (watched_root `prefix_of` path) then
        Some (log (Changed path)
          (set_watch (if attached w then enqueue [Event false false [path]] w else w) j))
      else None
  | ReplaceRoot =>
      Some (set_watch (mkWatch (dirty w) (token w) false
        (if attached w then queue w ++ [Event false false [watched_root]] else queue w)) j)
  | Overflow => Some (set_watch (mkWatch (dirty w) (token w) (attached w) [Event false true []]) j)
  | Report =>
      match queue w with
      | n :: q => Some (set_watch (report n (mkWatch (dirty w) (token w) (attached w) q)) j)
      | [] => None
      end
  | Spurious n => Some (set_watch (report n w) j)
  | Take => match p with Head => Some (take_marks j) | _ => None end
  | Attach attached' => match p with Attaching changes => Some (attach changes attached' j) | _ => None end
  | Finish result clock => match p with Uploading _ => Some (finish result clock j) | _ => None end
  | Wake =>
      if token w then
        p' ← woken p (now j);
        Some (goto p' (set_watch (mkWatch (dirty w) false (attached w) (queue w)) j))
      else None
  | Elapse => if elapsed p (now j) then Some (goto Head j) else None
  | Cancel => if cancellable p then Some (goto (Finished (Ok tt)) j) else None
  | Advance d =>
      if (0 <=? d) && match deadline j with Some t => now j + d <=? t | None => true end
      then Some (mkJob (now j + d) w (loop j) (trace j)) else None
  end.
Fixpoint run (actions : list Action) (j : Job) : option Job :=
  match actions with
  | [] => Some j
  | a :: actions => j ← act a j; run actions j
  end.

(** ** What is owed to a path *)

(** The specification of one path: [Owed] when its last change is not uploaded, [Flying]
    when an upload that covers it reads the source, [FlyingOwed] when it changed since. *)
Inductive Debt := Clear | Owed | Flying | FlyingOwed.
Definition covers (d : Dirty) (path : list string) : bool := full d || bool_decide (path ∈ paths d).
Definition account (path : list string) (e : Entry) (s : Debt) : Debt :=
  match e with
  | Changed q =>
      if bool_decide (q = path) then match s with Flying | FlyingOwed => FlyingOwed | _ => Owed end else s
  | Started changes => if covers changes path then Flying else s
  | Ended success =>
      match s with
      | Flying => if success then Clear else Owed
      | FlyingOwed => Owed
      | s => s
      end
  | Attempt _ => s
  end.
Definition debt (path : list string) (t : list Entry) : Debt := foldr (account path) Owed t.

(** ** Lemmas on the marks *)

Definition notice_full (n : Notice) : Prop :=
  match n with
  | Event true _ _ => False
  | Event false false (path :: more) => watched_root ∈ path :: more
  | _ => True
  end.
Definition notice_covers (p : list string) (n : Notice) : Prop :=
  notice_full n ∨ match n with Event false false ps => p ∈ ps | _ => False end.
Definition below (p : list string) : Prop := watched_root `prefix_of` p.

Lemma covers_marked d p : covers d p = true → marked d = true.
Proof.
  unfold covers, marked. destruct (full d); [done|]. cbn. intros H%bool_decide_eq_true.
  rewrite bool_decide_false by set_solver. done.
Qed.
Lemma add_path_full d q : full d = true ∨ q = watched_root → full (add_path d q) = true.
Proof.
  unfold add_path. intros [H| ->]; [|by rewrite bool_decide_true].
  rewrite H, andb_false_r. by case_bool_decide.
Qed.
Lemma add_path_covers d q p : below p → covers d p = true ∨ q = p → covers (add_path d q) p = true.
Proof.
  intros Hp H. unfold add_path. case_bool_decide; [done|]. destruct (full d) eqn:E.
  { rewrite andb_false_r. unfold covers. by rewrite E. }
  destruct H as [H| ->]; [|rewrite bool_decide_true by done; unfold covers; cbn; apply bool_decide_eq_true; set_solver].
  revert H. unfold covers. rewrite E. cbn. intros H%bool_decide_eq_true.
  case_match; cbn; rewrite ?E; apply bool_decide_eq_true; set_solver.
Qed.
Lemma marks_full qs : ∀ d, full d = true ∨ watched_root ∈ qs → full (foldl add_path d qs) = true.
Proof.
  induction qs as [|q qs IH]; intros d H; cbn; [destruct H; [done|set_solver]|].
  apply IH. destruct H as [H|H]; [by left; apply add_path_full; left|]. apply elem_of_cons in H as [H|H]; [|by right].
  left. apply add_path_full. by right.
Qed.
Lemma marks_covers p qs : below p → ∀ d, covers d p = true ∨ p ∈ qs → covers (foldl add_path d qs) p = true.
Proof.
  intros Hp. induction qs as [|q qs IH]; intros d H; cbn; [destruct H; [done|set_solver]|].
  apply IH. destruct H as [H|H]; [by left; apply add_path_covers; [|left]|].
  apply elem_of_cons in H as [H|H]; [|by right]. left. apply add_path_covers; [done|]. by right.
Qed.
Lemma mark_full n d : full d = true ∨ notice_full n → (∀ r ps, n ≠ Event true r ps) → full (mark n d) = true.
Proof.
  intros H Hn. destruct n as [|[] r ps]; [done|by edestruct Hn|]. destruct r; [done|].
  destruct ps as [|q qs]; [done|]. pose proof (marks_full (q :: qs) d H) as Hf. unfold mark. by case_match.
Qed.
Lemma mark_covers p n d : below p → covers d p = true ∨ notice_covers p n →
  (∀ r ps, n ≠ Event true r ps) → covers (mark n d) p = true.
Proof.
  intros Hp H Hn. assert (notice_full n → covers (mark n d) p = true) as Hf.
  { intros Hf. unfold covers. by rewrite mark_full by auto. }
  destruct H as [H|[H|H]]; [|by apply Hf|].
  - destruct n as [|[] r ps]; [done|by edestruct Hn|]. destruct r; [done|]. destruct ps as [|q qs]; [done|].
    unfold mark. assert (covers (foldl add_path d (q :: qs)) p = true) as Hc by (apply marks_covers; auto).
    by case_match.
  - destruct n as [|[] [] [|q qs]]; try done. unfold mark.
    assert (covers (foldl add_path d (q :: qs)) p = true) as Hc by (apply marks_covers; auto). by case_match.
Qed.
Lemma notify_eq n d t : (∃ r ps, n = Event true r ps ∧ notify n d t = (d, t)) ∨
  (∀ r ps, n ≠ Event true r ps) ∧
  notify n d t = (let d' := mark n d in let d' := if full d' then mkDirty true ∅ else d' in (d', marked d' || t)).
Proof.
  destruct n as [|[] r ps]; [right|left|right].
  - split; [done|]. cbn. done.
  - eexists _, _. by split.
  - split; [done|]. unfold notify. destruct (full (mark (Event false r ps) d)) eqn:E; rewrite ?E; done.
Qed.
Lemma notify_covers p n d t : below p → covers d p = true ∨ notice_covers p n → covers (notify n d t).1 p = true.
Proof.
  intros Hp H. destruct (notify_eq n d t) as [(r & ps & -> & ->)|[Hn ->]].
  - destruct H as [H|[[]|[]]]. done.
  - cbn. destruct (full (mark n d)) eqn:E; [done|]. by apply mark_covers.
Qed.
Lemma notify_full n d t : full d = true ∨ notice_full n → full (notify n d t).1 = true.
Proof.
  intros H. destruct (notify_eq n d t) as [(r & ps & -> & ->)|[Hn ->]]; [by destruct H|].
  cbn. by rewrite mark_full.
Qed.
Lemma notify_token n d t : (marked d = true → t = true) →
  marked (notify n d t).1 = true → (notify n d t).2 = true.
Proof.
  intros H. destruct (notify_eq n d t) as [(r & ps & -> & ->)|[Hn ->]]; [done|]. cbn. by intros ->.
Qed.

(** ** The invariant *)

Definition attaching (j : Job) (f : Dirty → Prop) : Prop := ∃ c, phase (loop j) = Attaching c ∧ f c.
Definition promised (j : Job) (p : list string) : Prop :=
  covers (dirty (watch j)) p = true ∨ Exists (notice_covers p) (queue (watch j)) ∨
  attaching j (λ c, covers c p = true).
Definition flying (j : Job) (p : list string) : Prop :=
  ∃ c, phase (loop j) = Uploading c ∧ covers c p = true.
Definition settled_debt (j : Job) (p : list string) : Prop :=
  match debt p (trace j) with
  | Clear => True
  | Owed => promised j p
  | Flying => flying j p
  | FlyingOwed => flying j p ∧ promised j p
  end.
Definition listening (p : Phase) : bool :=
  match p with Idle | Waiting | Attaching _ | Uploading _ => true | _ => false end.
Definition full_coming (j : Job) : Prop :=
  full (dirty (watch j)) = true ∨ Exists notice_full (queue (watch j)) ∨ attaching j (λ c, full c = true).
Definition running (j : Job) : Prop := match phase (loop j) with Finished _ => False | _ => True end.
Definition timed (j : Job) : Prop :=
  match phase (loop j) with
  | Delaying until => until ≤ now j + 60000
  | Debouncing maximum _ => maximum ≤ now j + 2000
  | _ => True
  end.
Record job_ok (j : Job) : Prop := {
  ok_debt : running j → ∀ p, below p → settled_debt j p;
  ok_token : listening (phase (loop j)) = true → marked (dirty (watch j)) = true → token (watch j) = true;
  ok_attached : running j → attached (watch j) = false → full_coming j;
  ok_retry : 5000 ≤ retry (loop j) ≤ 60000;
  ok_timed : timed j }.

Lemma full_coming_promised j p : full_coming j → promised j p.
Proof.
  intros [H|[H|(c & Hc & H)]].
  - left. unfold covers. by rewrite H.
  - right; left. eapply Exists_impl; [exact H|]. by left.
  - right; right. exists c. unfold covers. by rewrite H.
Qed.
(** The part of the state that debts depend on may only promise more. *)
Record promises_more (j j' : Job) : Prop := {
  pm_phase : phase (loop j') = phase (loop j);
  pm_trace : trace j' = trace j;
  pm_promised p : below p → promised j p → promised j' p;
  pm_full : full_coming j → full_coming j' }.
Lemma promises_more_ok j j' : job_ok j → promises_more j j' →
  (listening (phase (loop j)) = true → marked (dirty (watch j')) = true → token (watch j') = true) →
  (attached (watch j') = false → attached (watch j) = false ∨ full_coming j') →
  retry (loop j') = retry (loop j) → now j ≤ now j' → job_ok j'.
Proof.
  intros [Hd Ht Ha Hr Htm] [Hp Htr Hpr Hf] Htok Hatt Hre Hn. split.
  - unfold running, settled_debt, flying. rewrite Hp, Htr. intros Hrun p Hb. specialize (Hd Hrun p Hb).
    unfold settled_debt in Hd. destruct (debt p (trace j)); [done|by apply Hpr|done|].
    destruct Hd; split; [done|]. by apply Hpr.
  - by rewrite Hp.
  - unfold running. rewrite Hp. intros Hrun [H|H]%Hatt; [|done]. apply Hf. by apply Ha.
  - by rewrite Hre.
  - unfold timed in *. rewrite Hp. destruct (phase (loop j)); lia || done.
Qed.
Lemma initial_ok : job_ok initial.
Proof. split; cbn; try done. intros _ p _. by left. Qed.

(** Watcher steps. *)
Lemma report_more n j q : job_ok j → (∀ p, notice_covers p n ∨ Exists (notice_covers p) q ↔
    notice_covers p n ∨ Exists (notice_covers p) (queue (watch j))) →
  (notice_full n ∨ Exists notice_full q ↔ notice_full n ∨ Exists notice_full (queue (watch j))) →
  job_ok (set_watch (report n (mkWatch (dirty (watch j)) (token (watch j)) (attached (watch j)) q)) j).
Proof.
  intros Hok Hq Hfq. unfold report. cbn.
  pose proof (λ p, notify_covers p n (dirty (watch j)) (token (watch j))) as Hc.
  pose proof (notify_full n (dirty (watch j)) (token (watch j))) as Hf.
  pose proof (notify_token n (dirty (watch j)) (token (watch j))) as Ht.
  destruct (notify n _ _) as [d t]. cbn in *.
  apply (promises_more_ok j); cbn; auto; [|by intros Hl; apply Ht; apply (ok_token _ Hok)|lia].
  split; cbn; try done.
  - intros p Hb [H|[H|H]]; [left; auto| |by right; right].
    destruct (proj2 (Hq p) (or_intror H)) as [H'|H']; [left; auto|by right; left].
  - intros [H|[H|H]]; [left; auto| |by right; right].
    destruct (proj2 Hfq (or_intror H)) as [H'|H']; [left; auto|by right; left].
Qed.
Lemma change_ok p j : job_ok j → below p →
  job_ok (log (Changed p) (set_watch
    (if attached (watch j) then enqueue [Event false false [p]] (watch j) else watch j) j)).
Proof.
  intros Hok Hb. set (w' := if attached (watch j) then _ else _).
  assert (∀ q, promised j q → promised (set_watch w' j) q) as Hpr.
  { intros q [H|[H|H]]; subst w'; destruct (attached _); cbn; try (by left); try (by right; right); right; left; try done.
    apply Exists_app. by left. }
  assert (full_coming j → full_coming (set_watch w' j)) as Hfu.
  { intros [H|[H|H]]; subst w'; destruct (attached _); cbn; try (by left); try (by right; right); right; left; try done.
    apply Exists_app. by left. }
  assert (running j → promised (set_watch w' j) p) as Hnew.
  { intros Hrun. subst w'. destruct (attached (watch j)) eqn:E.
    - right; left. cbn. apply Exists_app. right. apply Exists_cons_hd. right. set_solver.
    - apply full_coming_promised, (ok_attached _ Hok Hrun). done. }
  assert (promises_more j (set_watch w' j)) as Hpm by (split; auto).
  destruct (promises_more_ok j (set_watch w' j) Hok Hpm) as [Hd Ht Ha Hr Htm].
  - subst w'. intros Hl. pose proof (ok_token _ Hok Hl). by destruct (attached _).
  - subst w'. cbn. destruct (attached (watch j)) eqn:E; cbn; [by rewrite E|by left].
  - done.
  - cbn. lia.
  - split; cbn; try done. intros Hrun q Hq. specialize (Hd Hrun q Hq). unfold settled_debt in *. cbn in *.
    case_bool_decide as Eq; [subst q|done]. specialize (Hnew Hrun).
    destruct (foldr _ _ _); first [exact Hnew|split; [apply Hd|exact Hnew]|split; [exact Hd|exact Hnew]].
Qed.


(** Steps of the loop. *)
Lemma not_uploading_debt j p : job_ok j → running j → below p → (∀ c, phase (loop j) ≠ Uploading c) →
  debt p (trace j) = Clear ∨ debt p (trace j) = Owed ∧ promised j p.
Proof.
  intros Hok Hrun Hb Hn. pose proof (ok_debt _ Hok Hrun p Hb) as Hd. unfold settled_debt, flying in Hd.
  destruct (debt p (trace j)); [by left|by right|by destruct Hd as (c & ?%Hn & _)|by destruct Hd as ((c & ?%Hn & _) & _)].
Qed.
Lemma debt_cons p e t : debt p (e :: t) = account p e (debt p t).
Proof. done. Qed.
Lemma take_ok_loop j : job_ok j → phase (loop j) = Head → job_ok (take_marks j).
Proof.
  intros Hok Hp. assert (running j) as Hrun by (unfold running; by rewrite Hp).
  pose proof (λ p Hb, not_uploading_debt j p Hok Hrun Hb) as Hd.
  pose proof (ok_retry _ Hok) as Hr. pose proof (ok_attached _ Hok Hrun) as Ha.
  unfold take_marks. destruct (marked (dirty (watch j))) eqn:Em.
  - split; cbn; try done.
    + intros _ p Hb. unfold settled_debt. cbn [trace log]. rewrite debt_cons. cbn [account trace set_loop set_watch goto log].
      destruct (Hd p Hb) as [-> |[-> [H|[H|(c & H & _)]]]]; [congruence|done| |by right; left|congruence].
      right; right. by eexists.
    + intros _ [H'|[H'|(c & H' & _)]]%Ha; [|by right; left|congruence]. right; right. by eexists.
  - assert (∀ p, covers (dirty (watch j)) p = false) as Hc.
    { intros p. destruct (covers _ p) eqn:E; [|done]. apply covers_marked in E. congruence. }
    split; cbn; try done.
    + intros _ p Hb. unfold settled_debt. cbn [trace goto set_loop set_watch].
      destruct (Hd p Hb) as [-> |[-> [H|[H|(c & H & _)]]]]; [congruence|done| |by right; left|congruence].
      by rewrite Hc in H.
    + intros _ [H'|[H'|(c & H' & _)]]%Ha; [|by right; left|congruence].
      unfold marked in Em. by rewrite H' in Em.
Qed.
Lemma fail_pass_ok j : 5000 ≤ retry (loop j) ≤ 60000 → job_ok (fail_pass j).
Proof.
  intros Hr. split; cbn; try done; [|by left|lia|unfold timed; cbn; lia].
  intros _ p _. assert (promised (fail_pass j) p) as Hp by (by left).
  unfold settled_debt. cbn. by destruct (foldr _ _ _).
Qed.
Lemma attach_keeps_job changes b j : job_ok j → phase (loop j) = Attaching changes → job_ok (attach changes b j).
Proof.
  intros Hok Hp. assert (running j) as Hrun by (unfold running; by rewrite Hp).
  pose proof (λ p Hb, not_uploading_debt j p Hok Hrun Hb) as Hd. pose proof (ok_token _ Hok) as Ht.
  pose proof (ok_retry _ Hok) as Hr. pose proof (ok_attached _ Hok Hrun) as Ha. rewrite Hp in Ht.
  unfold attach. destruct (full changes) eqn:Ef; [destruct b; [|by apply fail_pass_ok]|].
  - split; cbn; try done; auto. intros _ p Hb. unfold settled_debt. cbn [trace log]. rewrite debt_cons.
    cbn [account trace set_loop set_watch goto log]. assert (covers changes p = true) as -> by (unfold covers; by rewrite Ef).
    eexists. split; [done|]. unfold covers. by rewrite Ef.
  - split; cbn; try done; auto.
    + intros _ p Hb. unfold settled_debt. cbn [trace log]. rewrite debt_cons. cbn [account trace set_loop set_watch goto log].
      destruct (covers changes p) eqn:Ec; [by eexists|]. cbn [trace goto set_loop].
      destruct (Hd p Hb) as [-> |[-> [H|[H|(c & H & H')]]]]; [congruence|done|by left|by right; left|congruence].
    + intros _ [H'|[H'|(c & H' & Hc)]]%Ha; [by left|by right; left|congruence].
Qed.
Lemma finish_keeps_job result clock changes j : job_ok j → phase (loop j) = Uploading changes → job_ok (finish result clock j).
Proof.
  intros Hok Hp. assert (running j) as Hrun by (unfold running; by rewrite Hp).
  pose proof (ok_debt _ Hok Hrun) as Hd. pose proof (ok_token _ Hok) as Ht.
  pose proof (ok_retry _ Hok) as Hr. pose proof (ok_attached _ Hok Hrun) as Ha. rewrite Hp in Ht.
  unfold finish. destruct result as [text| |]; [|by apply fail_pass_ok..].
  destruct clock as [seconds| |]; [|by split..]. split; cbn; auto; [| |lia].
  - intros _ p Hb. specialize (Hd p Hb). unfold settled_debt in *. cbn [trace log]. rewrite debt_cons.
    cbn [trace set_loop]. assert (promised j p → ∀ l, promised (mkJob (now j) (watch j) l (trace j)) p) as Hpr.
    { intros [H|[H|(c & H & _)]]; [by left|by right; left|congruence]. }
    destruct (debt p (trace j)); cbn [account]; [done|by apply (Hpr Hd)|done|]. by apply (Hpr (proj2 Hd)).
  - intros _ [H'|[H'|(c & H' & Hc)]]%Ha; [by left|by right; left|congruence].
Qed.
Lemma move_ok p t j : job_ok j → phase (loop j) ∈ [Idle; Waiting] ∨ elapsed (phase (loop j)) (now j) = true ∨
    (∃ m q, phase (loop j) = Debouncing m q) →
  p = Head ∨ (∃ m q, p = Debouncing m q ∧ m ≤ now j + 2000) →
  job_ok (goto p (set_watch (mkWatch (dirty (watch j)) t (attached (watch j)) (queue (watch j))) j)).
Proof.
  intros Hok Hfrom Hto.
  assert (running j ∧ (∀ c, phase (loop j) ≠ Uploading c) ∧ (∀ f, ¬ attaching j f)) as (Hrun & Hup & Hat).
  { unfold running, attaching. destruct (phase (loop j)); set_solver. }
  assert (∀ q, promised j q → promised (goto p (set_watch (mkWatch (dirty (watch j)) t (attached (watch j))
    (queue (watch j))) j)) q) as Hpr.
  { intros q [H|[H|H]]; [by left|by right; left|by apply Hat in H]. }
  split; cbn [goto set_loop set_phase set_watch loop phase watch dirty token attached now retry].
  - intros _ q Hb. unfold settled_debt. cbn [trace goto set_loop set_watch].
    by destruct (not_uploading_debt j q Hok Hrun Hb Hup) as [-> |[-> ?%Hpr]].
  - by destruct Hto as [-> |(? & ? & -> & _)].
  - intros _ H. destruct (ok_attached _ Hok Hrun H) as [H'|[H'|H']]; [by left|by right; left|by apply Hat in H'].
  - apply Hok.
  - unfold timed. cbn. by destruct Hto as [-> |(? & ? & -> & ?)].
Qed.

(** Every action keeps the invariant. *)
Lemma sync_act_ok a j j' : job_ok j → act a j = Some j' → job_ok j'.
Proof.
  intros Hok. destruct a as [p| | | |n| |b|result clock| | | |d]; cbn.
  - case_bool_decide; [|done]. intros [= <-]. by apply change_ok.
  - intros [= <-]. apply (promises_more_ok j); cbn; auto; [|by apply Hok| |lia].
    + split; cbn; try done.
      * intros q _ [H|[H|H]]; [by left| |by right; right]. right; left. cbn.
        destruct (attached _); [|done]. apply Exists_app. by left.
      * intros [H|[H|H]]; [by left| |by right; right]. right; left. cbn.
        destruct (attached _); [|done]. apply Exists_app. by left.
    + intros _. destruct (attached (watch j)) eqn:E; [right|by left]. right; left. cbn.
      apply Exists_app. right. apply Exists_cons_hd. set_solver.
  - intros [= <-]. apply (promises_more_ok j); cbn; auto; [|by apply Hok|lia].
    split; cbn; try done.
    + intros q _ _. right; left. apply Exists_cons_hd. by left.
    + intros _. right; left. by apply Exists_cons_hd.
  - destruct (queue (watch j)) as [|n q] eqn:E; [done|]. intros [= <-].
    apply report_more; [done| |]; rewrite E; intros; rewrite Exists_cons; tauto.
  - intros [= <-]. pose proof (report_more n j (queue (watch j)) Hok) as H.
    destruct (watch j) as [d t at' q] eqn:E. by apply H.
  - destruct (phase (loop j)) eqn:Hp; try done. intros [= <-]. by apply take_ok_loop.
  - destruct (phase (loop j)) eqn:Hp; try done. intros [= <-]. by apply attach_keeps_job.
  - destruct (phase (loop j)) eqn:Hp; try done. intros [= <-]. by eapply finish_keeps_job.
  - destruct (token (watch j)); [|done]. pose proof (ok_timed _ Hok) as Ht. unfold timed in Ht.
    destruct (phase (loop j)) eqn:Hp; try done; cbn; intros [= <-]; apply move_ok; rewrite ?Hp; try done.
    + left. set_solver.
    + by left.
    + left. set_solver.
    + right. eexists _, _. split; [done|lia].
    + right; right. by eexists _, _.
    + right. by eexists _, _.
  - destruct (elapsed _ _) eqn:E; [|done]. intros [= <-].
    pose proof (move_ok Head (token (watch j)) j Hok (or_intror (or_introl E)) (or_introl eq_refl)) as H.
    by destruct j as [? [] ? ?].
  - destruct (cancellable _); [|done]. intros [= <-]. split; cbn; try done. apply Hok.
  - destruct (_ && _) eqn:E; [|done]. intros [= <-]. apply andb_true_iff in E as [E _].
    apply (promises_more_ok j); cbn; auto; [by split|by apply Hok|lia].
Qed.
Lemma sync_run_ok actions : ∀ j j', job_ok j → run actions j = Some j' → job_ok j'.
Proof.
  induction actions as [|a actions IH]; intros j j' Hok H; cbn in H; [by injection H as <-|].
  destruct (act a j) as [j1|] eqn:E; [|done]. eapply IH; [by eapply sync_act_ok|done].
Qed.

(** ** The next attempt *)

(** When a loop that neither uploads nor is about to takes its marks at the latest. *)
Definition horizon (j : Job) : option Z :=
  match phase (loop j) with
  | Head | Idle => Some (now j)
  | Waiting => Some (now j + 2000)
  | Delaying until => Some (Z.max until (now j))
  | Debouncing maximum _ => Some (Z.max maximum (now j))
  | Attaching _ | Uploading _ | Finished _ => None
  end.
Definition due_by (limit : Z) (p : list string) (j : Job) : Prop :=
  covers (dirty (watch j)) p = true ∧ ∃ t, horizon j = Some t ∧ t ≤ limit.
Definition attempted (p : list string) (t : list Entry) : Prop :=
  ∃ changes, Attempt changes ∈ t ∧ covers changes p = true.
Definition stopped (j : Job) : Prop := ¬ running j.

Lemma act_trace a j j' : act a j = Some j' → ∃ t, trace j' = t ++ trace j.
Proof.
  destruct a; cbn; intros H; repeat (case_match; try done); simplify_option_eq;
    unfold take_marks, attach, finish, fail_pass; repeat case_match; cbn;
    first [by exists []|by eexists [_]|by eexists [_; _]].
Qed.
Lemma run_trace actions : ∀ j j', run actions j = Some j' → ∃ t, trace j' = t ++ trace j.
Proof.
  induction actions as [|a actions IH]; intros j j' H; cbn in H; [injection H as <-; by exists []|].
  destruct (act a j) as [j1|] eqn:E; [|done]. destruct (act_trace _ _ _ E) as [t1 H1]. destruct (IH _ _ H) as [t2 H2].
  exists (t2 ++ t1). by rewrite H2, H1, app_assoc.
Qed.
Lemma act_stopped a j j' : act a j = Some j' → stopped j → stopped j'.
Proof.
  unfold stopped, running. intros H Hs. destruct (phase (loop j)) as [| | | | | | |o] eqn:Hp; try (by destruct Hs).
  assert (phase (loop j') = Finished o) as ->; [|done].
  destruct a; cbn in H; rewrite ?Hp in H; cbn in H; repeat (case_match; try done); by simplify_option_eq.
Qed.
Lemma run_stopped actions : ∀ j j', run actions j = Some j' → stopped j → stopped j'.
Proof.
  induction actions as [|a actions IH]; intros j j' H Hs; cbn in H; [by injection H as <-|].
  destruct (act a j) as [j1|] eqn:E; [|done]. eapply IH; [done|]. by eapply act_stopped.
Qed.
Lemma due_same limit p j j' : below p → due_by limit p j → loop j' = loop j → now j' = now j →
  (covers (dirty (watch j)) p = true → covers (dirty (watch j')) p = true) → due_by limit p j'.
Proof. intros Hb [Hc Ht] Hl Hn Hd. split; [auto|]. unfold horizon in *. by rewrite Hl, Hn. Qed.
Lemma due_step limit p a j j' : job_ok j → below p → due_by limit p j → act a j = Some j' →
  (∃ e, trace j' = e :: trace j ∧ attempted p [e]) ∨ stopped j' ∨ due_by limit p j'.
Proof.
  intros Hok Hb Hdue H. pose proof Hdue as (Hc & t & Ht & Hle).
  destruct a as [q| | | |n| |b|result clock| | | |d]; cbn in H.
  - right; right. case_match; [|done]. injection H as <-. eapply due_same; [done..|]. cbn. by destruct (attached _).
  - right; right. injection H as <-. by eapply due_same.
  - right; right. injection H as <-. by eapply due_same.
  - right; right. destruct (queue (watch j)) as [|n q]; [done|]. injection H as <-. unfold report.
    destruct (notify _ _ _) as [d t'] eqn:E. eapply due_same; [done..|]. cbn in *. intros H.
    change d with (d, t').1. rewrite <- E. apply notify_covers; auto.
  - right; right. injection H as <-. unfold report. destruct (notify _ _ _) as [d t'] eqn:E.
    eapply due_same; [done..|]. cbn in *. intros H. change d with (d, t').1. rewrite <- E. apply notify_covers; auto.
  - left. destruct (phase (loop j)); try done. injection H as <-. unfold take_marks. rewrite (covers_marked _ _ Hc).
    eexists. split; [done|]. exists (dirty (watch j)). split; [by left|done].
  - unfold horizon in Ht. by destruct (phase (loop j)).
  - unfold horizon in Ht. by destruct (phase (loop j)).
  - right; right. destruct (token (watch j)); [|done]. unfold horizon in Ht.
    destruct (phase (loop j)) eqn:Hp; try done; cbn in H; injection H as <-; split; try done;
      eexists; (split; [done|]); injection Ht as <-; cbn; lia.
  - right; right. destruct (elapsed _ _) eqn:E; [|done]. injection H as <-. split; [done|]. exists (now j). split; [done|].
    unfold horizon in Ht. destruct (phase (loop j)); try done; injection Ht as <-; lia.
  - right; left. destruct (cancellable _); [|done]. injection H as <-. by intros [].
  - right; right. destruct (_ && _) eqn:E; [|done]. injection H as <-. apply andb_true_iff in E as [E1 E2].
    split; [done|]. pose proof (ok_token _ Hok) as Htok. pose proof (covers_marked _ _ Hc) as Hm.
    unfold horizon, deadline in *. cbn in *.
    destruct (phase (loop j)) eqn:Hp; try done; injection Ht as <-; eexists; (split; [done|]);
      rewrite ?Htok in E2 by done; try (destruct (token (watch j))); lia.
Qed.
Lemma due_run limit p actions : ∀ j j', job_ok j → below p → due_by limit p j → run actions j = Some j' →
  (∃ t, trace j' = t ++ trace j ∧ attempted p t) ∨ stopped j' ∨ due_by limit p j'.
Proof.
  induction actions as [|a actions IH]; intros j j' Hok Hb Hd H; cbn in H; [injection H as <-; by right; right|].
  destruct (act a j) as [j1|] eqn:E; [|done]. pose proof (sync_act_ok _ _ _ Hok E) as Hok1.
  destruct (due_step _ _ _ _ _ Hok Hb Hd E) as [(e & He & c & Hin & Hc)|[Hs|Hd1]].
  - left. destruct (run_trace _ _ _ H) as [t Ht]. exists (t ++ [e]). split; [by rewrite Ht, He, <- app_assoc|].
    exists c. split; [|done]. apply elem_of_app. by right.
  - right; left. by eapply run_stopped.
  - destruct (act_trace _ _ _ E) as [t1 Ht1]. destruct (IH _ _ Hok1 Hb Hd1 H) as [(t & Ht & c & Hin & Hc)|?]; [|by right].
    left. exists (t ++ t1). split; [by rewrite Ht, Ht1, app_assoc|]. exists c. split; [|done]. apply elem_of_app. by left.
Qed.
Lemma due_start p j : job_ok j → covers (dirty (watch j)) p = true → is_Some (horizon j) → due_by (now j + 60000) p j.
Proof.
  intros Hok Hc [t Ht]. split; [done|]. exists t. split; [done|]. pose proof (ok_timed _ Hok) as H.
  unfold timed, horizon in *. destruct (phase (loop j)); try done; injection Ht as <-; lia.
Qed.

(** ** The properties *)

(** C31. No change is lost.  Whatever files change and whenever, the backend reports late,
    overflows or loses its source, passes fail and watchers cannot be attached: while the
    loop runs, a path whose last change is not uploaded is marked, or in a report that is
    still to come, or in the marks the loop has just taken; and one that changed while an
    upload of it was reading the source is so again. *)
Theorem no_change_lost actions j p : run actions initial = Some j → running j → below p →
  match debt p (trace j) with
  | Clear => True
  | Owed => promised j p
  | Flying => flying j p
  | FlyingOwed => flying j p ∧ promised j p
  end.
Proof. intros H Hr Hb. exact (ok_debt _ (sync_run_ok _ _ _ initial_ok H) Hr p Hb). Qed.

(** C32. A marked path waits at most a minute: from a reachable state in which the loop does
    not upload, and however files change and reports arrive, either the loop takes marks
    that cover the path, or it stops, or no more than 60 seconds have passed.  In
    particular the loop never sleeps while something is marked. *)
Theorem marks_taken_within_a_minute actions more j j' p :
  run actions initial = Some j → below p → covers (dirty (watch j)) p = true → is_Some (horizon j) →
  run more j = Some j' →
  (∃ t, trace j' = t ++ trace j ∧ attempted p t) ∨ stopped j' ∨ now j' ≤ now j + 60000.
Proof.
  intros H Hb Hc Hh H'. pose proof (sync_run_ok _ _ _ initial_ok H) as Hok.
  destruct (due_run _ _ _ _ _ Hok Hb (due_start _ _ Hok Hc Hh) H') as [?|[?|(_ & t & Ht & Hle)]]; [by left|by right; left|].
  right; right. unfold horizon in Ht. destruct (phase (loop j')); try done; injection Ht as <-; lia.
Qed.
End watch.

(** ** Examples *)

Definition sample_root : list string := ["home"; "src"].
Definition sample_file : list string := ["home"; "src"; "a.txt"].
(** A file changes while the first upload reads the source; the upload then fails. *)
Definition sample_upload : list Action := [Take; Attach true; Change sample_file].
Definition sample_retry : list Action :=
  sample_upload ++ [Report; Finish (Err "unreachable") (Ok 0); Advance 1000].
Definition sample_uploading : Job := default initial (run sample_root sample_upload initial).
Definition sample_delayed : Job := default initial (run sample_root sample_retry initial).
Definition sample_again : Job :=
  default initial (run sample_root [Advance 4000; Elapse; Take] sample_delayed).

Lemma no_change_lost_witness :
  debt sample_file (trace sample_uploading) = FlyingOwed ∧
  flying sample_uploading sample_file ∧ promised sample_root sample_uploading sample_file.
Proof.
  assert (debt sample_file (trace sample_uploading) = FlyingOwed) as E by by_vm.
  split; [exact E|].
  pose proof (no_change_lost sample_root sample_upload sample_uploading sample_file) as H.
  rewrite E in H. apply H; [apply some_default; by_vm|exact I|by exists ["a.txt"]].
Defined.
Lemma marks_taken_within_a_minute_witness :
  horizon sample_delayed = Some 5000 ∧ now sample_again = 5000 ∧
  ((∃ t, trace sample_again = t ++ trace sample_delayed ∧ attempted sample_file t) ∨
   stopped sample_again ∨ now sample_again ≤ now sample_delayed + 60000).
Proof.
  split; [by_vm|]. split; [by_vm|].
  apply (marks_taken_within_a_minute sample_root sample_retry [Advance 4000; Elapse; Take] sample_delayed
    sample_again sample_file); [apply some_default; by_vm|by exists ["a.txt"]|by_vm| |apply some_default; by_vm].
  exists 5000. by_vm.
Defined.
