(* ===== verification/Catalog.v ===== *)
(** * Component catalogs ([porthub-components/src/catalog.rs], [manifest.rs])

    A catalog lists the optional tools of a release, each with the digest of its
    executable.  This file holds the records with their validation, the check that a new
    catalog may follow an older one, and the choice of a tool for a machine.  Semantic
    versions and JSON are parameters. *)

From S2P Require Import Prelude RustStr Text.
Local Open Scope string_scope.
Local Open Scope list_scope.
Local Open Scope Z_scope.

Definition REPOSITORY : string := "algofly-oss/porthub".
Definition CATALOG_ASSET : string := "porthub-components.json".
Definition MAX_CATALOG : Z := 512 * 1024.
Definition MAX_EXECUTABLE : Z := 256 * 1024 * 1024.
Definition MAX_ARCHIVE : Z := 512 * 1024 * 1024.
Definition PROTOCOL : Z := 1.
Definition TARGETS : list string :=
  ["x86_64-unknown-linux-gnu"; "aarch64-unknown-linux-gnu"; "i686-unknown-linux-gnu";
   "armv7-unknown-linux-gnueabihf"; "arm-unknown-linux-gnueabihf"; "x86_64-apple-darwin";
   "aarch64-apple-darwin"; "x86_64-pc-windows-msvc"; "i686-pc-windows-msvc"; "aarch64-pc-windows-msvc"].
(** The targets whose text contains [windows]. *)
Fixpoint str_has (needle s : string) : bool :=
  str_starts_with needle s || match s with EmptyString => false | String _ s => str_has needle s end.
Definition is_windows (target : string) : bool := str_has "windows" target.

(** ** Components *)

Inductive Component := Tor | Terminal | Sync | Stats | Transfer.
#[global] Instance component_eq_dec : EqDecision Component.
Proof. solve_decision. Defined.
Definition OPTIONAL : list Component := [Tor; Terminal; Sync; Stats].
Definition name (c : Component) : string :=
  match c with
  | Tor => "tor" | Terminal => "terminal" | Sync => "sync" | Stats => "stats" | Transfer => "transfer"
  end.
Definition exe (target : string) : string := if is_windows target then ".exe" else "".
Definition executable_name (c : Component) (target : string) : string := "porthub-" +:+ name c +:+ exe target.

(** ** Semantic versions *)

Class SemverLibs := {
  Version : Type;
  VersionReq : Type;
  version_eq_dec :: EqDecision Version;
  req_eq_dec :: EqDecision VersionReq;
  (** [<=] *)
  vle : Version → Version → bool;
  version_pre : Version → string;
  version_build : Version → string;
  show_version : Version → string;
  req_matches : VersionReq → Version → bool }.
(** The order of versions is total. *)
Class SemverLibsOk (L : SemverLibs) : Prop := {
  vle_trans a b c : vle a b = true → vle b c = true → vle a c = true;
  vle_antisym a b : vle a b = true → vle b a = true → a = b;
  vle_total a b : vle a b = true ∨ vle b a = true }.

(** ** Records *)

Record Blob := mkBlob { size : Z; sha256 : string }.
#[global] Instance blob_eq_dec : EqDecision Blob.
Proof. solve_decision. Defined.
Definition is_lower_hex (b : Z) : bool := is_ascii_digit b || ((97 <=? b) && (b <=? 102)).
Definition digest (value : string) : bool := (slen value =? 64) && all_bytes is_lower_hex value.
Definition validate_blob (max : Z) (b : Blob) : res unit :=
  ensure! (1 <=? size b) && (size b <=? max) else "invalid component artifact size" in
  ensure (digest (sha256 b)) "invalid component artifact digest".

Section catalog.
Context `{V : SemverLibs}.

Definition stable (v : Version) : bool := str_is_empty (version_pre v) && str_is_empty (version_build v).

Record Artifact := mkArtifact {
  component : Component; version : Version; target : string; core : VersionReq;
  protocols : list Z; source_revision : string; build_inputs : string; executable : Blob;
  release : Version; archive : Blob }.
#[global] Instance artifact_eq_dec : EqDecision Artifact.
Proof. solve_decision. Defined.

Definition same_tool (a b : Artifact) : bool :=
  bool_decide (component a = component b) && bool_decide (version a = version b) &&
  bool_decide (target a = target b) && bool_decide (core a = core b) &&
  bool_decide (protocols a = protocols b) && bool_decide (source_revision a = source_revision b) &&
  bool_decide (build_inputs a = build_inputs b) && bool_decide (executable a = executable b).
Definition archive_name (a : Artifact) : string := "porthub-tools-" +:+ target a +:+ ".tar.gz".
Definition member (a : Artifact) : string :=
  name (component a) +:+ "/" +:+ show_version (version a) +:+ "/" +:+ executable_name (component a) (target a).
Definition github_url (a : Artifact) : string :=
  "https://github.com/" +:+ REPOSITORY +:+ "/releases/download/v" +:+ show_version (release a)
    +:+ "/" +:+ archive_name a.
Definition gateway_path (a : Artifact) : string :=
  "api/downloads/components/" +:+ name (component a) +:+ "/" +:+ show_version (version a) +:+ "/"
    +:+ target a +:+ "/" +:+ sha256 (executable a).
Definition validate_artifact (a : Artifact) : res unit :=
  ensure! stable (version a) && stable (release a) else "component versions must be stable numeric versions" in
  ensure! bool_decide (target a ∈ TARGETS) else "unsupported component target" in
  ensure! negb (bool_decide (protocols a = [])) && (len (protocols a) <=? 8) && forallb (Z.ltb 0) (protocols a)
    else "invalid component protocols" in
  ensure! bool_decide (NoDup (protocols a)) else "duplicate component protocol" in
  ensure! (slen (source_revision a) =? 40) && all_bytes is_lower_hex (source_revision a)
    else "invalid component source revision" in
  ensure! digest (build_inputs a) else "invalid component build inputs" in
  let! _ := validate_blob MAX_EXECUTABLE (executable a) in
  validate_blob MAX_ARCHIVE (archive a).

Record Catalog := mkCatalog {
  schema_version : Z; repository : string; c_release : Version; artifacts : list Artifact }.

(** The loop of [validate]: the tools seen, and the archive of each release and target. *)
Fixpoint validate_artifacts (limit : Version) (unique : list (Component * Version * string))
    (archives : list (Version * string * Blob)) (as_ : list Artifact) : res unit :=
  match as_ with
  | [] => Ok tt
  | a :: as_ =>
      let! _ := validate_artifact a in
      ensure! vle (release a) limit else "component references a future release" in
      let key := (component a, version a, target a) in
      ensure! bool_decide (key ∉ unique) else "duplicate component version and target" in
      ensure! forallb (λ '(r, t, blob), negb (bool_decide (r = release a ∧ t = target a)) ||
                         bool_decide (blob = archive a)) archives
        else "conflicting component archive metadata" in
      validate_artifacts limit (key :: unique) ((release a, target a, archive a) :: archives) as_
  end.
Definition validate (c : Catalog) : res unit :=
  ensure! (schema_version c =? 1) && bool_decide (repository c = REPOSITORY) && stable (c_release c)
    else "unsupported component catalog" in
  ensure! negb (bool_decide (artifacts c = [])) && (len (artifacts c) <=? 512)
    else "invalid component catalog length" in
  validate_artifacts (c_release c) [] [] (artifacts c).

(** ** Release manifests *)

Record CoreAsset := mkCoreAsset { ca_target : string; ca_asset : string; ca_executable : Blob }.
Record ReleaseManifest := mkReleaseManifest {
  rm_schema_version : Z; rm_repository : string; rm_release : Version;
  rm_core_version : option Version; rm_core_assets : list CoreAsset; rm_components : Catalog }.
Definition CORE_TARGETS : list (string * string) :=
  [("x86_64", "linux"); ("x86", "linux"); ("arm64", "linux"); ("armhf", "linux"); ("armv7", "linux");
   ("darwin_x86_64", "macos"); ("darwin_arm64", "macos"); ("windows_x86_64", "windows");
   ("windows_x86", "windows"); ("windows_arm64", "windows")].
Definition core_version (r : ReleaseManifest) : Version := default (rm_release r) (rm_core_version r).
Fixpoint validate_assets (seen : list string) (assets : list CoreAsset) : res unit :=
  match assets with
  | [] => Ok tt
  | asset :: assets =>
      let! '(_, os) := ok_or (List.find (λ '(t, _), bool_decide (t = ca_target asset)) CORE_TARGETS)
        "unsupported core target" in
      let expected := "porthub-" +:+ ca_target asset +:+ (if bool_decide (os = "windows") then ".exe" else "") in
      ensure! bool_decide (ca_asset asset = expected) && bool_decide (ca_target asset ∉ seen)
        else "invalid or duplicate core asset" in
      let! _ := validate_blob MAX_EXECUTABLE (ca_executable asset) in
      validate_assets (ca_target asset :: seen) assets
  end.
Definition validate_manifest (r : ReleaseManifest) : res unit :=
  ensure! (rm_schema_version r =? 2) && bool_decide (rm_repository r = REPOSITORY) && stable (rm_release r)
    else "unsupported release manifest" in
  ensure! stable (core_version r) else "core version must be stable" in
  let! _ := validate (rm_components r) in
  ensure! bool_decide (c_release (rm_components r) = rm_release r) &&
          bool_decide (repository (rm_components r) = rm_repository r)
    else "component and core release identities differ" in
  ensure! len (rm_core_assets r) =? len CORE_TARGETS else "incomplete core release" in
  validate_assets [] (rm_core_assets r).
End catalog.

(** ** Parsing *)

Class CatalogJson `{V : SemverLibs} := {
  (** [schema_version] of the value, if it is a [u64] *)
  json_schema : list Z → res (option Z);
  json_catalog : list Z → res Catalog;
  json_manifest : list Z → res ReleaseManifest;
  json_artifact : list Z → res Artifact;
  catalog_to_vec : Catalog → list Z;
  artifact_to_vec : Artifact → list Z }.
Class CatalogJsonOk `{V : SemverLibs} (J : CatalogJson) : Prop := {
  json_catalog_to_vec c : json_catalog (catalog_to_vec c) = Ok c;
  json_schema_to_vec c : json_schema (catalog_to_vec c) = Ok (Some (schema_version c));
  json_artifact_to_vec a : json_artifact (artifact_to_vec a) = Ok a }.

Section parse.
Context `{J : CatalogJson}.

Definition parse_manifest (bytes : list Z) : res ReleaseManifest :=
  ensure! len bytes <=? MAX_CATALOG else "release manifest exceeds size limit" in
  let! manifest := json_manifest bytes in
  let! _ := validate_manifest manifest in
  Ok manifest.
Definition parse (bytes : list Z) : res Catalog :=
  ensure! len bytes <=? MAX_CATALOG else "component catalog exceeds size limit" in
  let! schema := json_schema bytes in
  if bool_decide (schema = Some 2) then
    let! manifest := parse_manifest bytes in Ok (rm_components manifest)
  else
    let! catalog := json_catalog bytes in
    let! _ := validate catalog in
    Ok catalog.

(** ** Succession and selection *)

Definition same_key (a old : Artifact) : bool :=
  bool_decide (component old = component a) && bool_decide (version old = version a) &&
  bool_decide (target old = target a).
(** [self >= previous] and [self > previous] of versions. *)
Definition validate_successor (self previous : Catalog) : res unit :=
  ensure! vle (c_release previous) (c_release self) else "component catalog downgrade rejected" in
  let! _ := if bool_decide (c_release self = c_release previous)
            then ensure (bool_decide (catalog_to_vec self = catalog_to_vec previous))
                   "published component catalog changed"
            else Ok tt in
  ensure (forallb (λ a, match List.find (same_key a) (artifacts previous) with
                        | Some old => same_tool a old
                        | None => true
                        end) (artifacts self)) "published component version changed".

Definition matches (c : Component) (core_ : Version) (target_ : string) (pin : option Version) (a : Artifact) : bool :=
  bool_decide (component a = c) && bool_decide (target a = target_) && req_matches (core a) core_ &&
  bool_decide (PROTOCOL ∈ protocols a) &&
  match pin with Some pin => bool_decide (pin = version a) | None => true end.
(** [Iterator::max_by]: the last of the greatest. *)
Definition max_by_version (l : list Artifact) : option Artifact :=
  foldl (λ best a, match best with
                   | Some b => if vle (version b) (version a) then Some a else Some b
                   | None => Some a
                   end) None l.
Definition select (self : Catalog) (c : Component) (core_ : Version) (target_ : string) (pin : option Version)
    : option Artifact :=
  max_by_version (List.filter (matches c core_ target_ pin) (artifacts self)).
End parse.

(** ** Lemmas on catalogs *)

Section lemmas.
Context `{V : SemverLibs} `{VO : !SemverLibsOk V}.

Lemma vle_refl v : vle v v = true.
Proof. by destruct (vle_total v v). Qed.

Definition key (a : Artifact) : Component * Version * string := (component a, version a, target a).
Record valid_catalog (c : Catalog) : Prop := {
  vc_artifacts : Forall (λ a, validate_artifact a = Ok tt ∧ vle (release a) (c_release c) = true) (artifacts c);
  vc_unique : NoDup (map key (artifacts c)) }.
Lemma validate_artifacts_ok limit as_ : ∀ unique archives, validate_artifacts limit unique archives as_ = Ok tt →
  Forall (λ a, validate_artifact a = Ok tt ∧ vle (release a) limit = true ∧ key a ∉ unique) as_ ∧ NoDup (map key as_).
Proof.
  induction as_ as [|a as_ IH]; intros unique archives H; cbn in *; [by split; constructor|].
  res_inv. match goal with E : validate_artifact _ = Ok ?u |- _ => destruct u end.
  match goal with E : bool_decide (_ ∉ unique) = true |- _ => apply bool_decide_eq_true in E; rename E into Hu end.
  destruct (IH _ _ H) as [Hf Hn]. split.
  - constructor; [done|]. eapply Forall_impl; [exact Hf|]. cbn. intros b (? & ? & Hb). split_and!; [done..|set_solver].
  - constructor; [|done]. intros (b & Ek & Hb)%list_elem_of_fmap. rewrite Forall_forall in Hf.
    destruct (Hf b Hb) as (_ & _ & Hb'). apply Hb'. unfold key in *. rewrite <- Ek. set_solver.
Qed.
Lemma validated_catalog c : validate c = Ok tt → valid_catalog c.
Proof.
  unfold validate. intros H. res_inv. destruct (validate_artifacts_ok _ _ _ _ H) as [Hf Hn]. split; [|done].
  eapply Forall_impl; [exact Hf|]. cbn. tauto.
Qed.

Lemma max_by_version_spec l : match max_by_version l with
  | Some a => a ∈ l ∧ Forall (λ b, vle (version b) (version a) = true) l
  | None => l = []
  end.
Proof.
  unfold max_by_version. induction l as [|x l IH] using rev_ind; [done|]. rewrite foldl_app. cbn.
  destruct (foldl _ None l) as [b|].
  - destruct IH as [Hb Hf]. destruct (vle (version b) (version x)) eqn:E; (split; [set_solver|]); apply Forall_app.
    + split; [|by constructor; [apply vle_refl|]]. eapply Forall_impl; [exact Hf|]. cbn. intros c Hc. by eapply vle_trans.
    + split; [done|]. constructor; [|done]. destruct (vle_total (version b) (version x)); congruence.
  - subst l. split; [set_solver|]. by constructor; [apply vle_refl|].
Qed.
Lemma matches_inv c core_ target_ pin a : matches c core_ target_ pin a = true →
  component a = c ∧ target a = target_ ∧ req_matches (core a) core_ = true ∧ PROTOCOL ∈ protocols a ∧
  (∀ v, pin = Some v → v = version a).
Proof.
  unfold matches. intros H. rewrite !andb_true_iff, !bool_decide_eq_true in H. destruct H as ((((? & ?) & ?) & ?) & H).
  split_and!; try done. intros v ->. by apply bool_decide_eq_true in H.
Qed.
Lemma elem_of_filter_bool {A} (f : A → bool) x l : x ∈ List.filter f l ↔ x ∈ l ∧ f x = true.
Proof. by rewrite !list_elem_of_In, filter_In. Qed.
Lemma select_some c k core_ target_ pin a : select c k core_ target_ pin = Some a →
  a ∈ artifacts c ∧ matches k core_ target_ pin a = true ∧
  ∀ b, b ∈ artifacts c → matches k core_ target_ pin b = true → vle (version b) (version a) = true.
Proof.
  unfold select. intros H. pose proof (max_by_version_spec (List.filter (matches k core_ target_ pin) (artifacts c))) as Hm.
  rewrite H in Hm. destruct Hm as [Ha Hf]. apply elem_of_filter_bool in Ha as [Ha Hma]. split_and!; [done..|].
  intros b Hb Hmb. rewrite Forall_forall in Hf. apply Hf. by apply elem_of_filter_bool.
Qed.
Lemma NoDup_map_inj {A B} (f : A → B) l x y : NoDup (map f l) → x ∈ l → y ∈ l → f x = f y → x = y.
Proof.
  induction l as [|z l IH]; cbn; intros Hn Hx Hy E; [by apply elem_of_nil in Hx|].
  apply NoDup_cons in Hn as [Hz Hn]. apply elem_of_cons in Hx as [-> |Hx]; apply elem_of_cons in Hy as [-> |Hy]; auto;
    destruct Hz; [rewrite E|rewrite <- E]; by apply list_elem_of_fmap_2.
Qed.

(** The tool chosen for a machine belongs to the catalog and suits the machine, and it is
    strictly newer than every other tool of the catalog that does; there is none only if no
    tool suits. *)
Theorem select_newest c k core_ target_ pin : validate c = Ok tt →
  match select c k core_ target_ pin with
  | Some a =>
      a ∈ artifacts c ∧ matches k core_ target_ pin a = true ∧
      ∀ b, b ∈ artifacts c → matches k core_ target_ pin b = true → b ≠ a →
        vle (version b) (version a) = true ∧ version b ≠ version a
  | None => ∀ b, b ∈ artifacts c → matches k core_ target_ pin b = false
  end.
Proof.
  intros Hv. destruct (select c k core_ target_ pin) as [a|] eqn:E.
  - destruct (select_some _ _ _ _ _ _ E) as (Ha & Hm & Hb). split_and!; [done..|]. intros b Hin Hmb Hne.
    split; [auto|]. intros Ev. apply Hne, (NoDup_map_inj key (artifacts c)); [by apply vc_unique, validated_catalog|done..|].
    apply matches_inv in Hm as (? & ? & _), Hmb as (? & ? & _). unfold key. congruence.
  - intros b Hb. destruct (matches k core_ target_ pin b) eqn:Em; [|done].
    pose proof (max_by_version_spec (List.filter (matches k core_ target_ pin) (artifacts c))) as Hn.
    unfold select in E. rewrite E in Hn. assert (b ∈ List.filter (matches k core_ target_ pin) (artifacts c)) as H
      by (by apply elem_of_filter_bool). rewrite Hn in H. by apply elem_of_nil in H.
Qed.

Lemma same_tool_inv a b : same_tool a b = true → key a = key b ∧ core a = core b ∧ protocols a = protocols b ∧
  executable a = executable b.
Proof.
  unfold same_tool, key. rewrite !andb_true_iff, !bool_decide_eq_true.
  intros (((((((-> & ->) & ->) & ->) & ->) & _) & _) & ->). done.
Qed.
End lemmas.

(** ** Examples *)

(** Versions of three numbers; every requirement is met. *)
Definition sample_vle (a b : Z * Z * Z) : bool :=
  let '(a1, a2, a3) := a in
  let '(b1, b2, b3) := b in
  (a1 <? b1) || (a1 =? b1) && ((a2 <? b2) || (a2 =? b2) && (a3 <=? b3)).
#[global] Instance sample_semver : SemverLibs := {
  Version := Z * Z * Z; VersionReq := string; vle := sample_vle;
  version_pre _ := ""; version_build _ := "";
  show_version v := let '(a, b, c) := v in show_u128 a +:+ "." +:+ show_u128 b +:+ "." +:+ show_u128 c;
  req_matches _ _ := true }.
#[global] Instance sample_semver_ok : SemverLibsOk sample_semver.
Proof.
  split; cbn; unfold sample_vle.
  - intros [[a1 a2] a3] [[b1 b2] b3] [[c1 c2] c3]. lia.
  - intros [[a1 a2] a3] [[b1 b2] b3] H1 H2. repeat f_equal; lia.
  - intros [[a1 a2] a3] [[b1 b2] b3]. destruct (_ || _) eqn:E; [by left|right]. lia.
Qed.
Definition sixty_four (digit : string) : string := String.concat "" (replicate 64 digit).
Definition sample_tool (v : Z * Z * Z) (sha : string) : Artifact :=
  mkArtifact Tor v "x86_64-unknown-linux-gnu" "*" [1] (String.concat "" (replicate 40 "0")) (sixty_four "b")
    (mkBlob 3 (sixty_four sha)) (1, 0, 0) (mkBlob 9 (sixty_four "c")).
Definition sample_catalog : Catalog :=
  mkCatalog 1 REPOSITORY (1, 2, 0) [sample_tool (1, 0, 0) "a"; sample_tool (1, 1, 0) "d"].

Lemma select_newest_witness :
  match select sample_catalog Tor (1, 5, 0) "x86_64-unknown-linux-gnu" None with
  | Some a =>
      a ∈ artifacts sample_catalog ∧ matches Tor (1, 5, 0) "x86_64-unknown-linux-gnu" None a = true ∧
      ∀ b, b ∈ artifacts sample_catalog → matches Tor (1, 5, 0) "x86_64-unknown-linux-gnu" None b = true → b ≠ a →
        vle (version b) (version a) = true ∧ version b ≠ version a
  | None => ∀ b, b ∈ artifacts sample_catalog → matches Tor (1, 5, 0) "x86_64-unknown-linux-gnu" None b = false
  end.
Proof.
  apply (select_newest sample_catalog Tor (1, 5, 0) "x86_64-unknown-linux-gnu" None). by_vm.
Defined.
