(* ===== verification/Store.v ===== *)
(** * The component store ([porthub-components/src/store.rs], [shared.rs])

    An account keeps a private directory with the catalog, the executables under names that
    contain their digest, and a receipt for each installed version; a shared directory of
    verified software may supply both.  The operations are methods on these directories.
    What the network, the locks and the file system answer during one call is an
    environment; a publication may fail before or after its file is in place.  Ownership
    and permission checks of directories, and lock files, are outside. *)

From S2P Require Import Prelude RustStr Text FileNames Catalog.
Local Open Scope string_scope.
Local Open Scope list_scope.
Local Open Scope Z_scope.

(** ** Settings and libraries *)

Inductive Sources := GatewayThenGithub | GatewayOnly | GithubOnly.
#[global] Instance sources_eq_dec : EqDecision Sources.
Proof. solve_decision. Defined.
(** The parts of a [Url] that are read. *)
Record GatewayUrl := mkGatewayUrl {
  as_str : string; has_host : bool; username : string; password : option string;
  query : option string; fragment : option string }.

(** A member of an archive: its path, whether it is a file, the size in its header and what
    reading it gives. *)
Record TarEntry := mkTarEntry { e_path : string; e_file : bool; e_size : Z; e_content : res (list Z) }.
Class StoreLibs := {
  url_parse : string → res string;
  sha256_hex : list Z → string;
  (** the members of a compressed archive *)
  untar : list Z → res (list (res TarEntry)) }.

Notation Files := (gmap string (list Z)).
(** The private directory, and the shared one if it exists. *)
Record Dirs := mkDirs { private : Files; shared : option Files }.
Definition set_private (f : Files → Files) (d : Dirs) : Dirs := mkDirs (f (private d)) (shared d).

Inductive Fetched :=
  | Bytes (b : list Z)
  (** [AccessDenied] *)
  | Denied
  (** any other error, and whether the operation was cancelled *)
  | Unreachable (cancelled : bool)
  (** the temporary file could not be created *)
  | NoTemp.
Inductive Placing :=
  (** an error before or after the file is in place *)
  | Lost | Placed
  | Published.
Record Env := mkEnv {
  locks : string → res unit; fetch : string → Z → Fetched; placing : string → Placing;
  (** entries of the private directory that the store does not name, such as locks *)
  others : Z; cancelled : bool }.

Definition access_denied : string := "component download access denied".
Definition MARKER : string := ".porthub-components-shared".
Definition IDENTITY : list Z := bytes_of ("PortHub verified public components v1" +:+ str_of_bytes [10]).
Definition RECEIPTS : string := ".porthub-build-receipts.json".

Section store.
Context `{J : CatalogJson} {S : StoreLibs}.

Record Settings := mkSettings {
  gateway : option GatewayUrl; sources : Sources; s_core : Version; s_target : string;
  disabled : list Component; pins : list (Component * Version);
  (** the shared cache, and whether it may be written *)
  s_shared : option bool }.
Definition validate_settings (s : Settings) : res unit :=
  ensure! bool_decide (s_target s ∈ TARGETS) else "unsupported component target" in
  ensure! negb (bool_decide (sources s = GatewayOnly)) || bool_decide (gateway s ≠ None)
    else "gateway-only components require a gateway" in
  match gateway s with
  | Some g => ensure (has_host g && str_is_empty (username g) && bool_decide (password g = None) &&
                      bool_decide (query g = None) && bool_decide (fragment g = None))
                "invalid component gateway"
  | None => Ok tt
  end.
Definition gateway_url (s : Settings) (path : string) : res (option string) :=
  match gateway s with
  | Some g =>
      let! url := url_parse (trim_end is_slash (as_str g) +:+ "/" +:+ path) in Ok (Some url)
  | None => Ok None
  end.
Definition pin (s : Settings) (c : Component) : option Version :=
  snd <$> List.find (λ '(c', _), bool_decide (c' = c)) (pins s).

(** ** Files *)

Definition verified (file : option (list Z)) (blob : Blob) : bool :=
  match file with
  | Some bytes => (len bytes =? size blob) && bool_decide (sha256_hex bytes = sha256 blob)
  | None => false
  end.
Definition publish (e : Env) (destination : string) (bytes : list Z) : M Dirs unit :=
  match placing e destination with
  | Lost => lift (Err "file not published")
  | Placed => do* modify (set_private <[destination := bytes]>) in lift (Err "file not synchronised")
  | Published => modify (set_private <[destination := bytes]>)
  end.
Definition binary_name (a : Artifact) : string :=
  name (component a) +:+ "-" +:+ show_version (version a) +:+ "-" +:+ sha256 (executable a) +:+ exe (target a).
Definition receipt_prefix (c : Component) : string := "installed-" +:+ name c +:+ "-".
Definition receipt_name (a : Artifact) : string :=
  receipt_prefix (component a) +:+ show_version (version a) +:+ "-" +:+ target a +:+ ".json".

(** ** The shared cache *)

Definition copy_checked (input : list Z) (blob : Blob) : res (list Z) :=
  ensure! len input =? size blob else "shared component size mismatch" in
  ensure! bool_decide (sha256_hex input = sha256 blob) else "shared component checksum mismatch" in
  Ok input.
Definition validate_cache (f : Files) : res unit :=
  ensure (bool_decide (f !! MARKER = Some IDENTITY)) "shared cache marker missing or invalid".
Definition cache_catalog (cache : option Files) : res (option Catalog) :=
  match cache with
  | None => Ok None
  | Some f =>
      let! _ := validate_cache f in
      match f !! CATALOG_ASSET with
      | None => Ok None
      | Some bytes =>
          ensure! len bytes <=? MAX_CATALOG else "shared component catalog exceeds limit" in
          let! catalog := parse bytes in Ok (Some catalog)
      end
  end.
(** [lock] of a writer: the directory is created with its marker if it is missing. *)
Definition cache_lock : M (option Files) unit :=
  let* cache := get in
  match cache with
  | None => put (Some {[MARKER := IDENTITY]})
  | Some f => lift (validate_cache f)
  end.
Definition cache_write (file : string) (bytes : list Z) : M (option Files) unit :=
  modify (fmap (<[file := bytes]>)).
Definition cache_publish_catalog (catalog : Catalog) : M (option Files) unit :=
  do* lift (validate catalog) in
  do* cache_lock in
  let* cache := get in
  match cache_catalog cache with
  | Ok (Some previous) =>
      if negb (vle (c_release previous) (c_release catalog)) then mok tt
      else
        do* lift (validate_successor catalog previous) in
        if bool_decide (c_release previous = c_release catalog) then mok tt
        else cache_write CATALOG_ASSET (catalog_to_vec catalog)
  | _ => cache_write CATALOG_ASSET (catalog_to_vec catalog)
  end.
Definition cache_copy_into (a : Artifact) (cache : option Files) : res (option (list Z)) :=
  let! _ := validate_artifact a in
  match cache with
  | None => Ok None
  | Some f =>
      let! _ := validate_cache f in
      match f !! binary_name a with
      | None => Ok None
      | Some bytes => let! bytes := copy_checked bytes (executable a) in Ok (Some bytes)
      end
  end.
Definition cache_publish_artifact (a : Artifact) (source : list Z) : M (option Files) unit :=
  do* lift (validate_artifact a) in
  do* cache_lock in
  let* cache := get in
  let f := default ∅ cache in
  do* match f !! receipt_name a with
      | Some bytes =>
          ensure* len bytes <=? 16384 else "shared receipt exceeds limit" in
          let* previous := lift (json_artifact bytes) in
          ensure* same_tool previous a else "shared installed component version changed" in
          mok tt
      | None => mok tt
      end in
  if match f !! binary_name a with Some bytes => is_ok (copy_checked bytes (executable a)) | None => false end
  then mok tt
  else
    let* bytes := lift (copy_checked source (executable a)) in
    do* cache_write (binary_name a) bytes in
    cache_write (receipt_name a) (artifact_to_vec a).
(** A mirror writes to the shared cache, if this account may, and ignores its errors. *)
Definition mirror (s : Settings) (c : M (option Files) unit) : M Dirs unit := λ d,
  match s_shared s with
  | Some true => (Ok tt, mkDirs (private d) (c (shared d)).2)
  | _ => (Ok tt, d)
  end.

(** ** Extraction *)

Definition same_path (a b : string) : bool := bool_decide (components a = components b).
Definition is_normal (c : FileNames.Component) : bool := match c with Normal _ => true | _ => false end.
(** [names] are the members seen and [expanded] their bytes. *)
Fixpoint extract_loop (a : Artifact) (allowed : list string) (names : list string) (expanded : Z)
    (result : option (list Z)) (entries : list (res TarEntry)) : res (option (list Z)) :=
  match entries with
  | [] => Ok result
  | entry :: entries =>
      let! entry := entry in
      let path := e_path entry in
      ensure! forallb is_normal (components path) else "unsafe component archive path" in
      ensure! existsb (same_path path) allowed || same_path path RECEIPTS
        else "unexpected executable in component archive" in
      ensure! e_file entry else "component archive must contain only regular executables" in
      ensure! negb (existsb (same_path path) names) && (len names <? 128)
        else "duplicate or excessive component archive entries" in
      let! expanded := ok_or (if expanded + e_size entry <=? U64_MAX then Some (expanded + e_size entry) else None)
        "component archive size overflow" in
      ensure! (expanded <=? 1024 * 1024 * 1024) && (e_size entry <=? MAX_EXECUTABLE)
        else "component archive expands beyond limit" in
      if same_path path RECEIPTS then
        ensure! (0 <? e_size entry) && (e_size entry <=? 8 * 1024 * 1024) else "build receipts exceed size limit" in
        let! copied := e_content entry in
        ensure! len copied =? e_size entry else "build receipts are truncated" in
        extract_loop a allowed (path :: names) expanded result entries
      else if same_path path (member a) then
        ensure! e_size entry =? size (executable a) else "component archive executable size mismatch" in
        let! copied := e_content entry in
        ensure! len copied =? e_size entry else "component archive is truncated" in
        ensure! verified (Some copied) (executable a) else "component executable checksum mismatch" in
        extract_loop a allowed (path :: names) expanded (Some copied) entries
      else
        ensure! 0 <? e_size entry else "empty component archive executable" in
        let! _ := e_content entry in
        extract_loop a allowed (path :: names) expanded result entries
  end.
Definition extract (archive : list Z) (a : Artifact) (allowed : list string) : res (list Z) :=
  let! entries := untar archive in
  let! result := extract_loop a allowed [] 0 None entries in
  ok_or result "requested executable is missing from component archive".

(** The same for an archive whose catalog is at hand. *)
Definition extract_verified (file : list Z) (a : Artifact) (catalog : Catalog) : res (list Z) :=
  let! _ := validate catalog in
  ensure! existsb (λ entry, same_tool entry a && bool_decide (release entry = release a) &&
                            bool_decide (archive entry = archive a)) (artifacts catalog)
    else "component is not authorized by catalog" in
  ensure! verified (Some file) (archive a) else "component archive checksum mismatch" in
  extract file a (map member (List.filter (λ entry,
    bool_decide (target entry = target a) && bool_decide (release entry = release a)) (artifacts catalog))).

(** ** The catalog *)

Definition private_catalog (d : Dirs) : res (option Catalog) :=
  match private d !! CATALOG_ASSET with
  | Some bytes =>
      ensure! len bytes <=? MAX_CATALOG else "cached component catalog exceeds size limit" in
      let! catalog := parse bytes in Ok (Some catalog)
  | None => Ok None
  end.
Definition shared_catalog (s : Settings) (d : Dirs) : option Catalog :=
  match s_shared s with
  | Some _ => match cache_catalog (shared d) with Ok catalog => catalog | _ => None end
  | None => None
  end.
Definition cached_catalog (s : Settings) (d : Dirs) : res (option Catalog) :=
  let! private := private_catalog d in
  match private, shared_catalog s d with
  | Some private, Some shared =>
      if negb (vle (c_release shared) (c_release private)) then Ok (Some shared) else Ok (Some private)
  | Some private, None => Ok (Some private)
  | None, shared => Ok shared
  end.
Definition GITHUB_CATALOG : string :=
  "https://github.com/" +:+ REPOSITORY +:+ "/releases/latest/download/" +:+ CATALOG_ASSET.
(** The loop over the sources of [refresh_state]; the flag is [fresh]. *)
Fixpoint refresh_from (e : Env) (s : Settings) (cached : option Catalog) (urls : list string)
    : M Dirs (Catalog * bool) :=
  match urls with
  | [] => lift (let! catalog := ok_or cached "component catalog unavailable from allowed download sources" in
                Ok (catalog, false))
  | source :: urls =>
      match fetch e source MAX_CATALOG with
      | Bytes bytes =>
          let* catalog := lift (parse bytes) in
          do* lift (match cached with Some previous => validate_successor catalog previous | None => Ok tt end) in
          do* publish e CATALOG_ASSET bytes in
          do* mirror s (cache_publish_catalog catalog) in
          mok (catalog, true)
      | Denied => lift (Err access_denied)
      | Unreachable true => lift (Err "component operation cancelled")
      | Unreachable false => refresh_from e s cached urls
      | NoTemp => lift (Err "no temporary file")
      end
  end.
Definition refresh_state (e : Env) (s : Settings) : M Dirs (Catalog * bool) :=
  do* lift (locks e "catalog.lock") in
  let* d := get in
  let* cached := lift (cached_catalog s d) in
  let* gateway := lift (if bool_decide (sources s = GithubOnly) then Ok None
                        else gateway_url s "api/downloads/components/catalog") in
  let* github := lift (if bool_decide (sources s = GatewayOnly) then Ok None
                       else let! url := url_parse GITHUB_CATALOG in Ok (Some url)) in
  refresh_from e s cached (option_list gateway ++ option_list github).
Definition selected (s : Settings) (catalog : Catalog) (c : Component) : res Artifact :=
  ensure! negb (bool_decide (c ∈ disabled s)) else "component disabled by administrator policy" in
  ok_or (select catalog c (s_core s) (s_target s) (pin s c))
    "no compatible component for this core, platform, and version preference".
Definition remember_catalog (e : Env) (catalog : Catalog) : M Dirs unit :=
  do* lift (locks e "catalog.lock") in
  let* d := get in
  let* private := lift (private_catalog d) in
  match private with
  | Some previous =>
      if negb (vle (c_release previous) (c_release catalog)) then mok tt
      else
        do* lift (validate_successor catalog previous) in
        if bool_decide (c_release previous = c_release catalog) then mok tt
        else publish e CATALOG_ASSET (catalog_to_vec catalog)
  | None => publish e CATALOG_ASSET (catalog_to_vec catalog)
  end.

(** ** Installation *)

Definition record (e : Env) (a : Artifact) : M Dirs unit :=
  let* d := get in
  match private d !! receipt_name a with
  | Some bytes =>
      ensure* len bytes <=? 16384 else "installed component receipt exceeds limit" in
      let* previous := lift (json_artifact bytes) in
      lift (ensure (same_tool previous a) "installed component version changed")
  | None => publish e (receipt_name a) (artifact_to_vec a)
  end.
(** An executable that was verified goes into place, with its receipt. *)
Definition install (e : Env) (s : Settings) (a : Artifact) (bytes : list Z) (share : bool) : M Dirs string :=
  do* publish e (binary_name a) bytes in
  do* record e a in
  do* (if share then mirror s (cache_publish_artifact a bytes) else mok tt) in
  mok (binary_name a).
Definition from_gateway (e : Env) (s : Settings) (a : Artifact) : M Dirs (option string) :=
  if bool_decide (sources s = GithubOnly) then mok None
  else
    let* url := lift (gateway_url s (gateway_path a)) in
    match url with
    | None => mok None
    | Some url =>
        match fetch e url (size (executable a)) with
        | Bytes bytes =>
            ensure* verified (Some bytes) (executable a) else "gateway component checksum mismatch" in
            let* path := install e s a bytes true in mok (Some path)
        | Denied => lift (Err access_denied)
        | Unreachable true => lift (Err "component operation cancelled")
        | Unreachable false => mok None
        | NoTemp => lift (Err "no temporary file")
        end
    end.
Definition from_github (e : Env) (s : Settings) (catalog : Catalog) (a : Artifact) : M Dirs string :=
  ensure* negb (bool_decide (sources s = GatewayOnly))
    else "component unavailable from gateway; GitHub fallback disabled" in
  let* url := lift (url_parse (github_url a)) in
  match fetch e url (size (archive a)) with
  | Bytes bytes =>
      ensure* verified (Some bytes) (archive a) else "component archive checksum mismatch" in
      let allowed := map member (List.filter (λ b,
        bool_decide (release b = release a) && bool_decide (target b = target a)) (artifacts catalog)) in
      let* file := lift (extract bytes a allowed) in
      install e s a file true
  | Denied => lift (Err access_denied)
  | Unreachable true => lift (Err "component operation cancelled")
  | Unreachable false => lift (Err "component download failed")
  | NoTemp => lift (Err "no temporary file")
  end.
(** [ensure]: the executable in place, in the shared cache, at the gateway, on GitHub. *)
Definition ensure_tool (e : Env) (s : Settings) (catalog : Catalog) (c : Component) : M Dirs string :=
  do* lift (validate catalog) in
  let* a := lift (selected s catalog c) in
  do* lift (locks e (name c +:+ ".lock")) in
  let* d := get in
  if verified (private d !! binary_name a) (executable a) then
    do* record e a in
    do* mirror s (cache_publish_artifact a (default [] (private d !! binary_name a))) in
    mok (binary_name a)
  else
    match (if bool_decide (s_shared s = None) then Ok None else cache_copy_into a (shared d)) with
    | Ok (Some bytes) => install e s a bytes false
    | _ =>
        let* done := from_gateway e s a in
        match done with
        | Some path => mok path
        | None => from_github e s catalog a
        end
    end.

(** ** Installed versions *)

Definition is_receipt (c : Component) (file : string) : bool :=
  str_starts_with (receipt_prefix c) file && str_ends_with ".json" file.
(** The loop of [installed] over the directory, whose entries come in some order. *)
Fixpoint installed_loop (s : Settings) (c : Component) (d : Dirs) (entries : list (string * list Z))
    : res (list (Artifact * string)) :=
  match entries with
  | [] => Ok []
  | (file, bytes) :: entries =>
      if is_receipt c file then
        ensure! len bytes <=? 16384 else "installed component receipt exceeds limit" in
        let! a := json_artifact bytes in
        let! _ := validate_artifact a in
        let! rest := installed_loop s c d entries in
        if matches c (s_core s) (s_target s) (pin s c) a && verified (private d !! binary_name a) (executable a)
        then Ok ((a, binary_name a) :: rest) else Ok rest
      else installed_loop s c d entries
  end.
Definition by_version (x y : Artifact * string) : comparison :=
  let a := version x.1 in
  let b := version y.1 in
  if bool_decide (a = b) then Eq else if vle a b then Gt else Lt.
Definition installed (s : Settings) (others : Z) (c : Component) (d : Dirs) : res (list (Artifact * string)) :=
  ensure! negb (bool_decide (c ∈ disabled s)) else "component disabled by administrator policy" in
  ensure! Z.of_nat (base.size (private d)) + others <=? 4096 else "component cache needs cleanup; too many entries" in
  let! found := installed_loop s c d (map_to_list (private d)) in
  Ok (sort_by by_version found).

(** ** Resolution *)

(** [resolve] between its locks: the catalog, [remember_catalog], [ensure], [installed]. *)
Definition obtain (e : Env) (s : Settings) : M Dirs Catalog :=
  let* d := get in
  let* cached := lift (cached_catalog s d) in
  match cached with
  | Some catalog => mok catalog
  | None => let* fresh := refresh_state e s in mok fresh.1
  end.
(** The path, or the error that an installed version may make up for. *)
Definition provide (e : Env) (s : Settings) (catalog : Catalog) (c : Component) : M Dirs (string + string) := λ d,
  match ensure_tool e s catalog c d with
  | (Ok path, d) => (Ok (inl path), d)
  | (Err error, d) =>
      if bool_decide (error = access_denied) || cancelled e then (Err error, d) else (Ok (inr error), d)
  | (Panic, d) => (Panic, d)
  end.
Definition fall_back (e : Env) (s : Settings) (c : Component) (latest : Artifact) (error : string)
    : M Dirs (Artifact * string) :=
  let* d := get in
  let* found := lift (installed s (others e) c d) in
  lift (ok_or (List.find (λ '(a, _), vle (version a) (version latest)) found) error).
Definition resolve (e : Env) (s : Settings) (c : Component) : M Dirs (Artifact * string) :=
  let* catalog := obtain e s in
  let* latest := lift (selected s catalog c) in
  do* remember_catalog e catalog in
  let* outcome := provide e s catalog c in
  match outcome with
  | inl path => mok (latest, path)
  | inr error => fall_back e s c latest error
  end.
(** [prefetch] gives up its locks between its parts: the refresh, and then one round for
    each optional component; [None] is the end of the loop. *)
Definition prefetch_round (e : Env) (s : Settings) (catalog : Catalog) (cs : list Component)
    : M Dirs (option (list Component)) :=
  match cs with
  | [] => mok None
  | c :: cs =>
      if cancelled e then mok None
      else if is_ok (selected s catalog c) then λ d, (Ok (Some cs), (ensure_tool e s catalog c d).2)
      else mok (Some cs)
  end.

(** ** Accounts at work *)

(** Processes of one account, with settings of their own, take the steps between the locks
    of [resolve] and [prefetch] in any order; the shared directory and the executables may change under
    them.  [returned] lists what was returned, with the bytes at the path at that time. *)
Inductive Process :=
  | Obtaining (s : Settings) (c : Component)
  | Remembering (s : Settings) (c : Component) (catalog : Catalog) (latest : Artifact)
  | Providing (s : Settings) (c : Component) (catalog : Catalog) (latest : Artifact)
  | FallingBack (s : Settings) (c : Component) (latest : Artifact) (error : string)
  | Prefetching (s : Settings) (catalog : Catalog) (cs : list Component).
Record Returned := mkReturned {
  r_settings : Settings; r_component : Component; r_artifact : Artifact; r_file : option (list Z) }.
Record World := mkWorld { dirs : Dirs; processes : gmap nat Process; returned : list Returned }.
Inductive Action :=
  | Resolve (n : nat) (s : Settings) (c : Component)
  | Step (n : nat) (e : Env)
  | Abandon (n : nat)
  | Refresh (s : Settings) (e : Env)
  | Prefetch (n : nat) (s : Settings) (e : Env)
  | ShareChanges (cache : option Files)
  (** A file that is neither the catalog nor a receipt is lost or altered. *)
  | Damage (file : string) (content : option (list Z)).
Definition installed_file (file : string) : bool := str_starts_with "installed-" file.

Definition set_dirs (d : Dirs) (w : World) : World := mkWorld d (processes w) (returned w).
Definition next (n : nat) (p : option Process) (d : Dirs) (w : World) : World :=
  mkWorld d (match p with Some p => <[n := p]> (processes w) | None => delete n (processes w) end) (returned w).
Definition return_ (n : nat) (s : Settings) (c : Component) (a : Artifact) (path : string) (d : Dirs) (w : World) : World :=
  mkWorld d (delete n (processes w)) (mkReturned s c a (private d !! path) :: returned w).
Definition step (n : nat) (e : Env) (p : Process) (w : World) : World :=
  match p with
  | Obtaining s c =>
      match obtain e s (dirs w) with
      | (Ok catalog, d) =>
          match selected s catalog c with
          | Ok latest => next n (Some (Remembering s c catalog latest)) d w
          | _ => next n None d w
          end
      | (_, d) => next n None d w
      end
  | Remembering s c catalog latest =>
      match remember_catalog e catalog (dirs w) with
      | (Ok _, d) => next n (Some (Providing s c catalog latest)) d w
      | (_, d) => next n None d w
      end
  | Providing s c catalog latest =>
      match provide e s catalog c (dirs w) with
      | (Ok (inl path), d) => return_ n s c latest path d w
      | (Ok (inr error), d) => next n (Some (FallingBack s c latest error)) d w
      | (_, d) => next n None d w
      end
  | FallingBack s c latest error =>
      match fall_back e s c latest error (dirs w) with
      | (Ok (a, path), d) => return_ n s c a path d w
      | (_, d) => next n None d w
      end
  | Prefetching s catalog cs =>
      match prefetch_round e s catalog cs (dirs w) with
      | (Ok (Some cs), d) => next n (Some (Prefetching s catalog cs)) d w
      | (_, d) => next n None d w
      end
  end.
Definition act (a : Action) (w : World) : option World :=
  match a with
  | Resolve n s c =>
      if bool_decide (processes w !! n = None) && is_ok (validate_settings s)
      then Some (next n (Some (Obtaining s c)) (dirs w) w) else None
  | Step n e => p ← processes w !! n; Some (step n e p w)
  | Abandon n => Some (next n None (dirs w) w)
  | Refresh s e => Some (set_dirs (refresh_state e s (dirs w)).2 w)
  | Prefetch n s e =>
      if bool_decide (processes w !! n = None) then
        match refresh_state e s (dirs w) with
        | (Ok fresh, d) => Some (next n (Some (Prefetching s fresh.1 OPTIONAL)) d w)
        | (_, d) => Some (next n None d w)
        end
      else None
  | ShareChanges cache => Some (set_dirs (mkDirs (private (dirs w)) cache) w)
  | Damage file content =>
      if installed_file file || bool_decide (file = CATALOG_ASSET) then None
      else Some (set_dirs (set_private (partial_alter (λ _, content) file) (dirs w)) w)
  end.
Fixpoint run (actions : list Action) (w : World) : option World :=
  match actions with
  | [] => Some w
  | a :: actions => w ← act a w; run actions w
  end.
Definition fresh_world : World := mkWorld (mkDirs ∅ None) ∅ [].
End store.
