(* ===== verification/StoreSafety.v ===== *)
(** * What the component store guarantees

    In every interleaving of processes of an account, with any answers of the network, any
    failures of publications and whatever is in the shared directory: what is returned has
    the digest its catalog lists and suits the settings, a version never changes once it
    was returned, and the catalog never goes back.  [offline_resolve] shows that an intact
    installed version is found without any network. *)

From S2P Require Import Prelude RustStr Text FileNames Catalog Store.
Local Open Scope string_scope.
Local Open Scope list_scope.
Local Open Scope Z_scope.

Section safety.
Context `{V : SemverLibs} {VO : SemverLibsOk V} {J : CatalogJson} {JO : CatalogJsonOk J} {S : StoreLibs}.

(** ** Names *)

Lemma starts_with_shorter p q s : str_starts_with (p +:+ q) s = true → str_starts_with p s = true.
Proof.
  intros [r ->]%str_starts_with_spec. apply str_starts_with_spec. exists (q +:+ r). apply str_app_assoc.
Qed.
Lemma receipt_installed c file : is_receipt c file = true → installed_file file = true.
Proof.
  unfold is_receipt, receipt_prefix, installed_file. intros [H _]%andb_true_iff. by eapply starts_with_shorter.
Qed.
Lemma receipt_name_installed a : installed_file (receipt_name a) = true.
Proof. unfold installed_file, receipt_name, receipt_prefix. by destruct (component a). Qed.
Lemma binary_name_other a : installed_file (binary_name a) = false ∧ binary_name a ≠ CATALOG_ASSET.
Proof. unfold installed_file, binary_name. by destruct (component a). Qed.
Lemma catalog_not_installed f : installed_file f = true → f ≠ CATALOG_ASSET.
Proof. by intros H ->. Qed.
Lemma receipt_name_key a b : key a = key b → receipt_name a = receipt_name b.
Proof. unfold key, receipt_name. by intros [= -> -> ->]. Qed.

(** ** What only advances *)

(** The file holds a catalog nobody can read any more: its encoding is over the limit. *)
Definition too_large (d : Dirs) (c : Catalog) : Prop :=
  private d !! CATALOG_ASSET = Some (catalog_to_vec c) ∧ MAX_CATALOG < len (catalog_to_vec c).
Definition newer (c' c : Catalog) : Prop :=
  c' = c ∨ vle (c_release c) (c_release c') = true ∧ c_release c ≠ c_release c'.
Record advances (d d' : Dirs) : Prop := {
  adv_receipt f b : installed_file f = true → private d !! f = Some b → private d' !! f = Some b;
  adv_oversize b : private d !! CATALOG_ASSET = Some b → MAX_CATALOG < len b →
    private d' !! CATALOG_ASSET = Some b;
  adv_catalog c : private_catalog d = Ok (Some c) →
    ∃ c', newer c' c ∧ (private_catalog d' = Ok (Some c') ∨ too_large d' c') }.
Lemma newer_trans c2 c1 c0 : newer c2 c1 → newer c1 c0 → newer c2 c0.
Proof.
  intros [-> |[H1 N1]]; [done|]. intros [-> |[H2 N2]]; [by right|]. right. split; [by eapply vle_trans|].
  intros E. apply N2, vle_antisym; [done|congruence].
Qed.
#[export] Instance advances_preorder : PreOrder advances.
Proof.
  split.
  - intros d. split; auto. intros c H. exists c. split; by left.
  - intros d0 d1 d2 [R1 O1 C1] [R2 O2 C2]. split; auto.
    intros c (c1 & Hn & [H|[H Hl]])%C1; [|exists c1; split; [done|]; right; split; auto].
    destruct (C2 _ H) as (c2 & Hn2 & H2). exists c2. split; [by eapply newer_trans|done].
Qed.
Lemma same_catalog d d' :
  private d' !! CATALOG_ASSET = private d !! CATALOG_ASSET →
  (∀ f b, installed_file f = true → private d !! f = Some b → private d' !! f = Some b) → advances d d'.
Proof.
  intros E Hf. split; [done|by rewrite E|]. intros c H. exists c. split; [by left|left].
  unfold private_catalog in *. by rewrite E.
Qed.
Record dirs_ok (d : Dirs) : Prop := {
  do_receipt f b : installed_file f = true → private d !! f = Some b →
    ∃ a, b = artifact_to_vec a ∧ f = receipt_name a ∧ validate_artifact a = Ok tt }.

(** ** Triples *)

Definition keeps {A} (P : Dirs → Prop) (c : M Dirs A) (Q : A → Dirs → Prop) : Prop :=
  ∀ d, dirs_ok d → P d → dirs_ok (c d).2 ∧ advances d (c d).2 ∧ ∀ a, (c d).1 = Ok a → Q a (c d).2.

Lemma keeps_bind {A B} P (c : M Dirs A) Q (k : A → M Dirs B) R :
  keeps P c Q → (∀ a, keeps (Q a) (k a) R) → keeps P (mbindM c k) R.
Proof.
  intros Hc Hk d Hd HP. destruct (Hc d Hd HP) as (H1 & H2 & H3). unfold mbindM.
  destruct (c d) as [[a| |] d1]; cbn in *; [|by split_and!..].
  destruct (Hk a d1 H1 (H3 a eq_refl)) as (G1 & G2 & G3). split_and!; [done|by etrans|done].
Qed.
Lemma keeps_lift {A} P (r : res A) : keeps P (lift r) (λ a d, P d ∧ r = Ok a).
Proof. intros d Hd HP. by split_and!. Qed.
Lemma keeps_mok {A} P (a : A) : keeps P (mok a) (λ x d, P d ∧ x = a).
Proof. intros d Hd HP. split_and!; [done..|]. by intros x [= ->]. Qed.
Lemma keeps_get P : keeps P get (λ a d, P d ∧ a = d).
Proof. intros d Hd HP. split_and!; [done..|]. by intros x [= ->]. Qed.
Lemma keeps_post {A} P (c : M Dirs A) Q Q' : keeps P c Q → (∀ a d, Q a d → Q' a d) → keeps P c Q'.
Proof. intros H HQ d Hd HP. destruct (H d Hd HP) as (? & ? & H3). split_and!; auto. Qed.
Lemma keeps_pre {A} (P P' : Dirs → Prop) (c : M Dirs A) Q : keeps P c Q → (∀ d, P' d → P d) → keeps P' c Q.
Proof. intros H HP d Hd HP'. apply H; auto. Qed.
(** A pure condition moves out of the state. *)
Lemma keeps_pure {A} (P : Dirs → Prop) (F : Prop) (c : M Dirs A) Q :
  (F → keeps P c Q) → keeps (λ d, P d ∧ F) c Q.
Proof. intros H d Hd [HP HF]. by apply H. Qed.
Lemma keeps_publish (P Q : Dirs → Prop) e f b :
  (∀ d, dirs_ok d → P d → dirs_ok (set_private <[f := b]> d) ∧ advances d (set_private <[f := b]> d) ∧
                         Q (set_private <[f := b]> d)) →
  keeps P (publish e f b) (λ _, Q).
Proof.
  intros H d Hd HP. destruct (H d Hd HP) as (? & ? & ?). unfold publish.
  by destruct (placing e f); cbn; split_and!.
Qed.
Lemma private_steps d d' : private d' = private d → dirs_ok d → dirs_ok d' ∧ advances d d'.
Proof.
  intros E [Hr]. split; [split; by rewrite E|]. apply same_catalog; by rewrite E.
Qed.
Lemma keeps_mirror P s c : (∀ d d', private d' = private d → P d → P d') → keeps P (mirror s c) (λ _, P).
Proof.
  intros HP d Hd H. unfold mirror. destruct (s_shared s) as [[]|]; [|by split_and!..].
  destruct (private_steps d (mkDirs (private d) (c (shared d)).2) eq_refl Hd). split_and!; [done..|].
  intros _ _. cbn. exact (HP d (mkDirs _ _) eq_refl H).
Qed.

(** ** The catalog *)

Lemma parse_valid bytes c : parse bytes = Ok c → validate c = Ok tt.
Proof.
  unfold parse, parse_manifest. intros H. destruct (_ <=? _); [|done]. cbn in H.
  destruct (json_schema bytes) as [schema| |]; [|done..]. cbn in H. case_bool_decide.
  - destruct (json_manifest bytes) as [r| |]; [|done..]. cbn in H. unfold validate_manifest in H.
    repeat (destruct (ensure _ _); [|done..]; cbn in H). destruct (validate (rm_components r)) as [[]| |] eqn:E; [|done..].
    cbn in H. repeat (destruct (ensure _ _); [|done..]; cbn in H). destruct (validate_assets _ _); [|done..]. by injection H as <-.
  - destruct (json_catalog bytes) as [c'| |]; [|done..]. cbn in H. destruct (validate c') as [[]| |] eqn:E; [|done..].
    by injection H as <-.
Qed.
Lemma validate_schema c : validate c = Ok tt → schema_version c = 1.
Proof. unfold validate. destruct (_ && _) eqn:E; [|done]. intros _. lia. Qed.
Lemma parse_to_vec c : validate c = Ok tt → len (catalog_to_vec c) ≤ MAX_CATALOG → parse (catalog_to_vec c) = Ok c.
Proof.
  intros Hv Hl. unfold parse. rewrite (proj2 (Z.leb_le _ _) Hl). cbn. rewrite json_schema_to_vec. cbn.
  rewrite (validate_schema c Hv), json_catalog_to_vec. cbn. by rewrite Hv.
Qed.
Lemma private_catalog_valid d c : private_catalog d = Ok (Some c) → validate c = Ok tt.
Proof.
  unfold private_catalog. destruct (private d !! CATALOG_ASSET) as [b|]; [|done]. intros H. res_inv.
  by eapply parse_valid.
Qed.
Lemma cache_catalog_valid cache c : cache_catalog cache = Ok (Some c) → validate c = Ok tt.
Proof.
  unfold cache_catalog. destruct cache as [f|]; [|done]. intros H. destruct (validate_cache f); [|done..]. cbn in H.
  destruct (f !! CATALOG_ASSET) as [b|]; [|done]. res_inv. by eapply parse_valid.
Qed.
(** The cached catalog is valid and at least as new as the private one. *)
Lemma cached_catalog_spec s d o : cached_catalog s d = Ok o →
  (∀ c, o = Some c → validate c = Ok tt) ∧
  (∀ p, private_catalog d = Ok (Some p) → ∃ c, o = Some c ∧ newer c p).
Proof.
  unfold cached_catalog. destruct (private_catalog d) as [p| |] eqn:Ep; [|done..]. cbn. intros H.
  assert (∀ c, shared_catalog s d = Some c → validate c = Ok tt) as Hs.
  { intros c. unfold shared_catalog. destruct (s_shared s); [|done]. destruct (cache_catalog (shared d)) eqn:E; [|done..].
    intros ->. by eapply cache_catalog_valid. }
  destruct p as [p|].
  - pose proof (private_catalog_valid _ _ Ep) as Hp. destruct (shared_catalog s d) as [c|] eqn:Es.
    + destruct (vle (c_release c) (c_release p)) eqn:Ev; injection H as <-; (split; [intros ? [= <-]; auto|]);
        intros ? [= <-]; eexists; (split; [done|]); [by left|]. right.
      split; [destruct (vle_total (c_release p) (c_release c)); congruence|]. intros E. rewrite E, vle_refl in Ev. done.
    + injection H as <-. split; [by intros ? [= <-]|]. intros ? [= <-]. eexists. split; [done|by left].
  - assert (o = shared_catalog s d) as -> by (by destruct (shared_catalog s d); injection H).
    split; [done|]. done.
Qed.
Lemma successor_newer c p : validate_successor c p = Ok tt → newer c p.
Proof.
  unfold validate_successor. intros H. destruct (vle (c_release p) (c_release c)) eqn:E; [|done]. cbn in H.
  case_bool_decide as Er; [|right; by split; [|congruence]]. left.
  case_bool_decide as Ev; [|done]. pose proof (json_catalog_to_vec c) as H1. rewrite Ev, json_catalog_to_vec in H1. congruence.
Qed.

Definition readable_catalog (d : Dirs) : Prop :=
  ∀ b, private d !! CATALOG_ASSET = Some b → len b ≤ MAX_CATALOG.
Lemma publish_catalog_ok b d : dirs_ok d → (∀ p, private_catalog d = Ok (Some p) →
    ∃ c, newer c p ∧ (parse b = Ok c ∨ b = catalog_to_vec c ∧ MAX_CATALOG < len b)) → readable_catalog d →
  dirs_ok (set_private <[CATALOG_ASSET := b]> d) ∧ advances d (set_private <[CATALOG_ASSET := b]> d).
Proof.
  intros [Hr] Hb Ho. split; [|split].
  - split. cbn. intros f b' Hf. rewrite lookup_insert_ne by (intros <-; by apply catalog_not_installed in Hf). auto.
  - cbn. intros f b' Hf. by rewrite lookup_insert_ne by (intros <-; by apply catalog_not_installed in Hf).
  - intros b' Hb' Hl. specialize (Ho b' Hb'). lia.
  - intros p Hp. destruct (Hb p Hp) as (c & Hn & [Hc|[-> Hl]]); exists c; (split; [done|]); [left|right].
    + unfold private_catalog. cbn. rewrite lookup_insert_eq. pose proof Hc as Hl. unfold parse in Hl.
      apply rbind_ok in Hl as (u & Hs & _). apply ensure_ok in Hs. rewrite Hs. cbn. by rewrite Hc.
    + split; [|done]. cbn. by rewrite lookup_insert_eq.
Qed.
Lemma catalog_readable d o : private_catalog d = Ok o → readable_catalog d.
Proof.
  unfold private_catalog, readable_catalog. intros H b E. rewrite E in H.
  apply rbind_ok in H as (u & H & _). apply ensure_ok in H. lia.
Qed.

(** The catalog of [refresh_state] and [obtain] is valid. *)
Definition knows (cached : option Catalog) (d : Dirs) : Prop :=
  (∀ p, private_catalog d = Ok (Some p) → ∃ c, cached = Some c ∧ newer c p) ∧ readable_catalog d.
Definition valid_fresh (r : Catalog * bool) (d : Dirs) : Prop := validate r.1 = Ok tt.
Lemma refresh_from_keeps e s cached urls : (∀ c, cached = Some c → validate c = Ok tt) →
  keeps (knows cached) (refresh_from e s cached urls) valid_fresh.
Proof.
  intros Hc. induction urls as [|url urls IH]; cbn [refresh_from].
  - eapply keeps_post; [apply keeps_lift|]. intros r d [_ H]. destruct cached as [c|]; [|done].
    injection H as <-. by apply Hc.
  - destruct (fetch e url MAX_CATALOG) as [b| |[]|].
    + eapply keeps_bind; [apply keeps_lift|]. intros c. apply keeps_pure. intros Hp.
      eapply keeps_bind; [apply keeps_lift|]. intros []. apply keeps_pure. intros Hs.
      eapply keeps_bind; [apply (keeps_publish _ (λ _, True))|].
      { intros d Hd [Hk Ho]. destruct (publish_catalog_ok b d Hd) as [H1 H2]; [|done|by split_and!].
        intros p (c' & -> & Hn)%Hk. exists c. split; [|by left]. eapply newer_trans; [|done]. by apply successor_newer. }
      intros []. eapply keeps_bind; [by apply keeps_mirror|]. intros [].
      eapply keeps_post; [apply keeps_mok|]. intros r d [_ ->]. by eapply parse_valid.
    + eapply keeps_post; [apply keeps_lift|]. by intros r d [].
    + eapply keeps_post; [apply keeps_lift|]. by intros r d [].
    + done.
    + eapply keeps_post; [apply keeps_lift|]. by intros r d [].
Qed.
Lemma refresh_keeps e s : keeps (λ _, True) (refresh_state e s) valid_fresh.
Proof.
  unfold refresh_state. eapply keeps_bind; [apply keeps_lift|]. intros []. eapply keeps_bind; [apply keeps_get|].
  intros d. eapply keeps_bind; [apply keeps_lift|]. intros cached. apply keeps_pure. intros Hc.
  destruct (cached_catalog_spec _ _ _ Hc) as [Hv Hn].
  eapply keeps_bind; [apply keeps_lift|]. intros gateway. eapply keeps_bind; [apply keeps_lift|]. intros github.
  eapply keeps_pre; [by apply refresh_from_keeps|]. intros d' [[[_ ->] _] _]. split; [done|].
  unfold cached_catalog in Hc. destruct (private_catalog d') eqn:E; [|done..]. by eapply catalog_readable.
Qed.
Lemma obtain_keeps e s : keeps (λ _, True) (obtain e s) (λ c _, validate c = Ok tt).
Proof.
  unfold obtain. eapply keeps_bind; [apply keeps_get|]. intros d. eapply keeps_bind; [apply keeps_lift|].
  intros cached. apply keeps_pure. intros Hc. destruct (cached_catalog_spec _ _ _ Hc) as [Hv _]. destruct cached as [c|].
  - eapply keeps_post; [apply keeps_mok|]. intros c' d' [_ ->]. by apply Hv.
  - eapply keeps_bind; [eapply keeps_pre; [apply refresh_keeps|done]|]. intros r.
    eapply keeps_post; [apply keeps_mok|]. by intros c d' [H ->].
Qed.
Lemma remember_keeps e c : validate c = Ok tt → keeps (λ _, True) (remember_catalog e c) (λ _ _, True).
Proof.
  intros Hv. unfold remember_catalog. eapply keeps_bind; [apply keeps_lift|]. intros [].
  eapply keeps_bind; [apply keeps_get|]. intros d. eapply keeps_bind; [apply keeps_lift|]. intros o.
  apply keeps_pure. intros Ho.
  assert (∀ F : Prop, (∀ p, o = Some p → F → newer c p) → keeps (λ d', ((True ∧ locks e "catalog.lock" = Ok tt) ∧ d = d') ∧ F)
    (publish e CATALOG_ASSET (catalog_to_vec c)) (λ _ _, True)) as Hpub.
  { intros F HF. apply keeps_publish. intros d' Hd [[_ <-] H].
    destruct (publish_catalog_ok (catalog_to_vec c) d Hd) as [H1 H2]; [|by eapply catalog_readable|done].
    intros p Hp. exists c. split; [apply HF; [congruence|done]|].
    destruct (decide (MAX_CATALOG < len (catalog_to_vec c))); [by right|left]. apply parse_to_vec; [done|lia]. }
  destruct o as [p|].
  - destruct (negb _); [eapply keeps_post; [apply keeps_mok|done]|].
    eapply keeps_bind; [apply keeps_lift|]. intros []. case_bool_decide; [eapply keeps_post; [apply keeps_mok|done]|].
    apply Hpub. intros ? [= <-] H'. by apply successor_newer.
  - eapply keeps_pre; [apply (Hpub True); done|]. done.
Qed.

(** ** Installation *)

Definition sound_file (a : Artifact) (file : option (list Z)) : Prop :=
  ∃ b, file = Some b ∧ len b = size (executable a) ∧ sha256_hex b = sha256 (executable a).
Definition has_receipt (a : Artifact) (d : Dirs) : Prop :=
  ∃ b, private d !! receipt_name a = Some (artifact_to_vec b) ∧ same_tool b a = true.
Definition in_place (a : Artifact) (d : Dirs) : Prop := sound_file a (private d !! binary_name a).

Lemma verified_sound a file : verified file (executable a) = true ↔ sound_file a file.
Proof.
  unfold verified, sound_file. destruct file as [b|]; [|split; [done|by intros (? & ? & _)]].
  rewrite andb_true_iff, Z.eqb_eq, bool_decide_eq_true. split; [by intros []; exists b|by intros (? & [= <-] & ? & ?)].
Qed.
Lemma has_receipt_advances a d d' : advances d d' → has_receipt a d → has_receipt a d'.
Proof.
  intros Ha (b & Hb & Hs). exists b. split; [|done]. eapply adv_receipt; [done| |done]. apply receipt_name_installed.
Qed.
Lemma publish_binary_ok a b d : dirs_ok d →
  dirs_ok (set_private <[binary_name a := b]> d) ∧ advances d (set_private <[binary_name a := b]> d).
Proof.
  destruct (binary_name_other a) as [Hi Hc]. intros [Hr]. split; [|apply same_catalog].
  - split. cbn. intros f b' Hf. rewrite lookup_insert_ne by congruence. auto.
  - cbn. by rewrite lookup_insert_ne by done.
  - cbn. intros f b' Hf. by rewrite lookup_insert_ne by congruence.
Qed.
Lemma publish_receipt_ok a d : dirs_ok d → validate_artifact a = Ok tt → private d !! receipt_name a = None →
  dirs_ok (set_private <[receipt_name a := artifact_to_vec a]> d) ∧
  advances d (set_private <[receipt_name a := artifact_to_vec a]> d).
Proof.
  pose proof (catalog_not_installed _ (receipt_name_installed a)) as Hc. intros [Hr] Hv Hn. split; [|apply same_catalog].
  - split. cbn. intros f b' Hf. destruct (decide (f = receipt_name a)) as [-> |Hne].
    + rewrite lookup_insert_eq. intros [= <-]. by exists a.
    + rewrite lookup_insert_ne by done. auto.
  - cbn. by rewrite lookup_insert_ne by done.
  - cbn. intros f b' Hf H. rewrite lookup_insert_ne; [done|]. intros <-. congruence.
Qed.
Lemma same_tool_refl a : same_tool a a = true.
Proof. unfold same_tool. by rewrite !bool_decide_true. Qed.
Lemma record_keeps e a : validate_artifact a = Ok tt →
  keeps (in_place a) (record e a) (λ _ d, in_place a d ∧ has_receipt a d).
Proof.
  intros Hv. unfold record. eapply keeps_bind; [apply keeps_get|]. intros d.
  destruct (private d !! receipt_name a) as [b|] eqn:E.
  - eapply keeps_bind; [apply keeps_lift|]. intros []. eapply keeps_bind; [apply keeps_lift|]. intros p.
    intros d' Hd [[[Hi <-] _] Hp]. split_and!; [done..|]. intros []. cbn. unfold Prelude.ensure.
    destruct (same_tool p a) eqn:Es; [|done]. intros _. split; [done|].
    destruct (do_receipt _ Hd _ _ (receipt_name_installed a) E) as (a' & -> & _ & _).
    rewrite json_artifact_to_vec in Hp. injection Hp as <-. by exists a'.
  - apply keeps_publish. intros d' Hd [Hi <-]. destruct (publish_receipt_ok a d Hd Hv E) as [H1 H2].
    split_and!; [done..| |].
    + unfold in_place. cbn. rewrite lookup_insert_ne; [done|]. intros Hn.
      pose proof (receipt_name_installed a) as Hr. rewrite Hn in Hr. destruct (binary_name_other a). congruence.
    + exists a. cbn. rewrite lookup_insert_eq. split; [done|]. apply same_tool_refl.
Qed.
Definition installed_ok (a : Artifact) (path : string) (d : Dirs) : Prop :=
  path = binary_name a ∧ in_place a d ∧ has_receipt a d.
Lemma private_stable a (d d' : Dirs) : private d' = private d → in_place a d ∧ has_receipt a d → in_place a d' ∧ has_receipt a d'.
Proof. unfold in_place, has_receipt. by intros ->. Qed.
Lemma install_keeps e s a b share : validate_artifact a = Ok tt → verified (Some b) (executable a) = true →
  keeps (λ _, True) (install e s a b share) (installed_ok a).
Proof.
  intros Hv Hb. unfold install. eapply keeps_bind; [apply (keeps_publish _ (in_place a))|].
  { intros d Hd _. destruct (publish_binary_ok a b d Hd). split_and!; [done..|]. unfold in_place. cbn.
    rewrite lookup_insert_eq. by apply verified_sound. }
  intros []. eapply keeps_bind; [by apply record_keeps|]. intros [].
  apply (keeps_bind _ _ (λ _ d, in_place a d ∧ has_receipt a d)).
  - destruct share; [apply (keeps_mirror (λ d, in_place a d ∧ has_receipt a d)); intros d d'; apply private_stable|].
    eapply keeps_post; [apply keeps_mok|]. by intros ?? [].
  - intros []. eapply keeps_post; [apply keeps_mok|]. by intros p d [[] ->].
Qed.

Lemma from_gateway_keeps e s a : validate_artifact a = Ok tt →
  keeps (λ _, True) (from_gateway e s a) (λ o d, ∀ p, o = Some p → installed_ok a p d).
Proof.
  intros Hv. unfold from_gateway. case_bool_decide; [eapply keeps_post; [apply keeps_mok|by intros ?? [_ ->]]|].
  eapply keeps_bind; [apply keeps_lift|]. intros [url|]; [|eapply keeps_post; [apply keeps_mok|by intros ?? [_ ->]]].
  destruct (fetch e url _) as [b| |[]|].
  - eapply keeps_bind; [apply keeps_lift|]. intros []. apply keeps_pure. intros Hb.
    eapply keeps_bind; [eapply keeps_pre; [apply install_keeps|]|]; [done| |done|].
    + by destruct (verified _ _).
    + intros p. eapply keeps_post; [apply keeps_mok|]. intros o d [Hi ->]. by intros ? [= <-].
  - eapply keeps_post; [apply keeps_lift|]. by intros ?? [].
  - eapply keeps_post; [apply keeps_lift|]. by intros ?? [].
  - eapply keeps_post; [apply keeps_mok|]. by intros ?? [_ ->].
  - eapply keeps_post; [apply keeps_lift|]. by intros ?? [].
Qed.
Lemma extract_loop_sound a allowed names expanded result entries r :
  (∀ b, result = Some b → verified (Some b) (executable a) = true) →
  extract_loop a allowed names expanded result entries = Ok r →
  ∀ b, r = Some b → verified (Some b) (executable a) = true.
Proof.
  revert names expanded result. induction entries as [|entry entries IH]; intros names expanded result Hr H; cbn [extract_loop] in H.
  - injection H as <-. done.
  - res_inv. destruct (same_path _ RECEIPTS); [res_inv; by eauto|].
    destruct (same_path _ (member a)); res_inv; [|by eauto]. eapply IH; [|done]. by intros ? [= <-].
Qed.
Lemma extract_sound archive a allowed b : extract archive a allowed = Ok b → verified (Some b) (executable a) = true.
Proof.
  unfold extract. intros H. destruct (untar archive) as [entries| |]; [|done..]. cbn in H.
  destruct (extract_loop _ _ _ _ _ _) as [r| |] eqn:E; [|done..]. destruct r as [b'|]; [|done]. injection H as ->.
  by eapply (extract_loop_sound a _ _ _ None).
Qed.
Lemma from_github_keeps e s c a : validate_artifact a = Ok tt →
  keeps (λ _, True) (from_github e s c a) (installed_ok a).
Proof.
  intros Hv. unfold from_github. eapply keeps_bind; [apply keeps_lift|]. intros [].
  eapply keeps_bind; [apply keeps_lift|]. intros url. destruct (fetch e url _) as [b| |[]|];
    try (eapply keeps_post; [apply keeps_lift|]; by intros ?? []).
  eapply keeps_bind; [apply keeps_lift|]. intros []. eapply keeps_bind; [apply keeps_lift|]. intros file.
  apply keeps_pure. intros Hx. eapply keeps_pre; [apply install_keeps; [done|]|done]. by eapply extract_sound.
Qed.
Lemma select_valid c k core_ target_ p a : validate c = Ok tt → select c k core_ target_ p = Some a →
  validate_artifact a = Ok tt ∧ matches k core_ target_ p a = true.
Proof.
  intros Hv H. destruct (select_some _ _ _ _ _ _ H) as (Ha & Hm & _). split; [|done].
  pose proof (vc_artifacts _ (validated_catalog _ Hv)) as Hf. rewrite Forall_forall in Hf. by apply Hf.
Qed.
Definition suits (s : Settings) (c : Component) (a : Artifact) : Prop :=
  validate_artifact a = Ok tt ∧ c ∉ disabled s ∧ matches c (s_core s) (s_target s) (pin s c) a = true.
Lemma selected_suits s catalog c a : validate catalog = Ok tt → selected s catalog c = Ok a → suits s c a.
Proof.
  intros Hv. unfold selected, suits. case_bool_decide as Hd; [done|]. cbn.
  destruct (select _ _ _ _ _) as [a'|] eqn:E; [|done]. intros [= <-].
  destruct (select_valid _ _ _ _ _ _ Hv E). by split_and!.
Qed.
Lemma copy_into_sound a cache b : cache_copy_into a cache = Ok (Some b) → verified (Some b) (executable a) = true.
Proof.
  unfold cache_copy_into. intros H. destruct (validate_artifact a); [|done..]. cbn in H. destruct cache as [f|]; [|done].
  destruct (validate_cache f); [|done..]. cbn in H. destruct (f !! binary_name a) as [b'|]; [|done].
  unfold copy_checked in H. res_inv. unfold verified. apply andb_true_iff. done.
Qed.
Lemma ensure_tool_keeps e s catalog c :
  keeps (λ _, True) (ensure_tool e s catalog c)
    (λ p d, ∃ a, selected s catalog c = Ok a ∧ suits s c a ∧ installed_ok a p d).
Proof.
  unfold ensure_tool. eapply keeps_bind; [apply keeps_lift|]. intros []. apply keeps_pure. intros Hv.
  eapply keeps_bind; [apply keeps_lift|]. intros a. apply keeps_pure. intros Ha.
  pose proof (selected_suits _ _ _ _ Hv Ha) as Hs. pose proof (proj1 Hs) as Hva.
  assert (∀ P (k : M Dirs string), keeps P k (installed_ok a) →
    keeps P k (λ p d, ∃ a, selected s catalog c = Ok a ∧ suits s c a ∧ installed_ok a p d)) as Hk.
  { intros P k H. eapply keeps_post; [exact H|]. intros p d Hi. by exists a. }
  eapply keeps_bind; [apply keeps_lift|]. intros []. eapply keeps_bind; [apply keeps_get|]. intros d. apply Hk.
  destruct (verified (private d !! binary_name a) (executable a)) eqn:E.
  - eapply keeps_bind; [eapply keeps_pre; [by apply record_keeps|]|].
    { intros d' [_ <-]. by apply verified_sound. }
    intros []. apply (keeps_bind _ _ (λ _ d, in_place a d ∧ has_receipt a d)).
    + apply (keeps_mirror (λ d, in_place a d ∧ has_receipt a d)). intros ??. apply private_stable.
    + intros []. eapply keeps_post; [apply keeps_mok|]. by intros p d' [[] ->].
  - assert (keeps (λ d', (True ∧ locks e (name c +:+ ".lock") = Ok ()) ∧ d = d')
      (let* done := from_gateway e s a in match done with Some path => mok path | None => from_github e s catalog a end)
      (installed_ok a)) as Hrest.
    { eapply keeps_bind; [eapply keeps_pre; [by apply from_gateway_keeps|done]|]. intros [p|].
      - eapply keeps_post; [apply keeps_mok|]. intros p' d' [H ->]. by apply H.
      - eapply keeps_pre; [by apply from_github_keeps|done]. }
    destruct (if bool_decide (s_shared s = None) then _ else _) as [[b|]| |] eqn:Ec; try exact Hrest.
    eapply keeps_pre; [apply install_keeps; [done|]|done]. case_bool_decide; [done|]. by eapply copy_into_sound.
Qed.

(** ** Resolution *)

Lemma provide_keeps e s catalog c latest : selected s catalog c = Ok latest →
  keeps (λ _, True) (provide e s catalog c)
    (λ o d, ∀ p, o = inl p → suits s c latest ∧ installed_ok latest p d).
Proof.
  intros Hs d Hd _. destruct (ensure_tool_keeps e s catalog c d Hd I) as (H1 & H2 & H3). unfold provide.
  destruct (ensure_tool e s catalog c d) as [[p| |] d']; cbn in *; [| |by split_and!].
  - split_and!; [done..|]. intros ? [= <-] ? [= <-]. destruct (H3 p eq_refl) as (a & Ha & Hsu & Hi).
    rewrite Hs in Ha. by injection Ha as <-.
  - destruct (_ || _); cbn; split_and!; try done. by intros ? [= <-].
Qed.
Lemma installed_loop_ok s c d entries found : dirs_ok d → (∀ f b, (f, b) ∈ entries → private d !! f = Some b) →
  installed_loop s c d entries = Ok found →
  Forall (λ '(a, p), validate_artifact a = Ok tt ∧ matches c (s_core s) (s_target s) (pin s c) a = true ∧
                     installed_ok a p d) found.
Proof.
  intros Hd. revert found. induction entries as [|[f b] entries IH]; intros found Hin H; cbn in H; [by injection H as <-|].
  assert (∀ f b, (f, b) ∈ entries → private d !! f = Some b) as Hin' by (intros; apply Hin; by right).
  destruct (is_receipt c f) eqn:Er; [|by apply IH]. res_inv.
  match goal with E : installed_loop _ _ _ _ = Ok ?l |- _ => pose proof (IH l Hin' E) as Hl end.
  match goal with E : validate_artifact ?a = Ok ?u |- _ => destruct u; rename E into Hva end.
  destruct (_ && _) eqn:Em; injection H as <-; [|done]. apply andb_true_iff in Em as [Em Hv]. constructor; [|done].
  split_and!; [done..|]. split; [done|]. split; [by apply verified_sound|].
  assert (private d !! f = Some b) as Hf by (apply Hin; by left).
  destruct (do_receipt _ Hd f b (receipt_installed _ _ Er) Hf) as (a' & -> & -> & _).
  match goal with E : json_artifact _ = Ok _ |- _ => rewrite json_artifact_to_vec in E; injection E as -> end.
  eexists. split; [done|]. apply same_tool_refl.
Qed.
Lemma installed_spec s n c d found : dirs_ok d → installed s n c d = Ok found →
  Forall (λ '(a, p), suits s c a ∧ installed_ok a p d) found.
Proof.
  intros Hd H. unfold installed in H. res_inv. rewrite sort_by_perm.
  match goal with E : installed_loop _ _ _ _ = Ok _ |- _ => apply installed_loop_ok in E; [|done|by intros ?? ?%elem_of_map_to_list] end.
  eapply Forall_impl; [eassumption|]. intros [a p] (? & ? & ?). split; [|done]. split_and!; [done| |done].
  match goal with E : negb _ = true |- _ => apply negb_true_iff, bool_decide_eq_false in E; done end.
Qed.
Lemma fall_back_keeps e s c latest error :
  keeps (λ _, True) (fall_back e s c latest error)
    (λ '(a, p) d, suits s c a ∧ installed_ok a p d ∧ vle (version a) (version latest) = true).
Proof.
  intros d Hd _. unfold fall_back. cbn. destruct (installed s (others e) c d) as [found| |] eqn:E; cbn; [|by split_and!..].
  split_and!; [done..|]. intros [a p] H. destruct (List.find _ found) as [[a' p']|] eqn:Ef; [|done]. injection H as -> ->.
  apply find_some in Ef as [Hin Hv]. apply list_elem_of_In in Hin. pose proof (installed_spec _ _ _ _ _ Hd E) as Hf.
  rewrite Forall_forall in Hf. destruct (Hf _ Hin). by split_and!.
Qed.
Lemma prefetch_keeps e s catalog cs : keeps (λ _, True) (prefetch_round e s catalog cs) (λ _ _, True).
Proof.
  destruct cs as [|c cs]; cbn [prefetch_round]; [eapply keeps_post; [apply keeps_mok|done]|].
  destruct (cancelled e); [eapply keeps_post; [apply keeps_mok|done]|].
  destruct (is_ok _); [|eapply keeps_post; [apply keeps_mok|done]].
  intros d Hd _. by destruct (ensure_tool_keeps e s catalog c d Hd I) as (H1 & H2 & _).
Qed.

(** ** The invariant of a world *)

Definition returned_ok (d : Dirs) (r : Returned) : Prop :=
  suits (r_settings r) (r_component r) (r_artifact r) ∧ sound_file (r_artifact r) (r_file r) ∧
  has_receipt (r_artifact r) d.
Definition process_ok (p : Process) : Prop :=
  match p with
  | Remembering s c catalog latest => validate catalog = Ok tt ∧ selected s catalog c = Ok latest
  | Providing s c catalog latest => selected s catalog c = Ok latest
  | _ => True
  end.
Record world_ok (w : World) : Prop := {
  wo_dirs : dirs_ok (dirs w);
  wo_processes : map_Forall (λ _, process_ok) (processes w);
  wo_returned : Forall (returned_ok (dirs w)) (returned w) }.

Lemma returned_advances d d' l : advances d d' → Forall (returned_ok d) l → Forall (returned_ok d') l.
Proof.
  intros Ha H. eapply Forall_impl; [exact H|]. intros r (? & ? & ?). split_and!; [done..|]. by eapply has_receipt_advances.
Qed.
Lemma next_ok n p d w : world_ok w → dirs_ok d → advances (dirs w) d → (∀ p', p = Some p' → process_ok p') →
  world_ok (next n p d w) ∧ advances (dirs w) (dirs (next n p d w)).
Proof.
  intros [Hd Hp Hr] Hd' Ha Hp'. split; [|done]. split; cbn; [done| |by eapply returned_advances].
  destruct p as [p|]; [|by apply map_Forall_delete]. apply map_Forall_insert_2; auto.
Qed.
Lemma return_keeps_world n s c a p d w : world_ok w → dirs_ok d → advances (dirs w) d → suits s c a → installed_ok a p d →
  world_ok (return_ n s c a p d w) ∧ advances (dirs w) (dirs (return_ n s c a p d w)).
Proof.
  intros [Hd Hp Hr] Hd' Ha Hs (-> & Hi & Hre). split; [|done]. split; cbn; [done|by apply map_Forall_delete|].
  constructor; [by split_and!|]. by eapply returned_advances.
Qed.
Lemma store_step_ok n e p w : world_ok w → process_ok p → world_ok (step n e p w) ∧ advances (dirs w) (dirs (step n e p w)).
Proof.
  intros Hw Hp. pose proof (wo_dirs _ Hw) as Hd. destruct p as [s c|s c catalog latest|s c catalog latest|s c latest error|s catalog cs]; cbn [step process_ok] in *.
  - destruct (obtain_keeps e s _ Hd I) as (H1 & H2 & H3). destruct (obtain e s (dirs w)) as [[catalog| |] d]; cbn in *;
      [|by apply next_ok..]. destruct (selected s catalog c) as [latest| |] eqn:E; apply next_ok; try done.
    intros p' [= <-]. split; [by apply H3|done].
  - destruct Hp as [Hv Hs]. destruct (remember_keeps e catalog Hv _ Hd I) as (H1 & H2 & _).
    destruct (remember_catalog e catalog (dirs w)) as [[[]| |] d]; cbn in *; apply next_ok; try done. by intros p' [= <-].
  - destruct (provide_keeps e s catalog c latest Hp _ Hd I) as (H1 & H2 & H3).
    destruct (provide e s catalog c (dirs w)) as [[[path|error]| |] d]; cbn in *; [|by apply next_ok; try done; intros ? [= <-]|by apply next_ok..].
    destruct (H3 _ eq_refl path eq_refl). by apply return_keeps_world.
  - destruct (fall_back_keeps e s c latest error _ Hd I) as (H1 & H2 & H3).
    destruct (fall_back e s c latest error (dirs w)) as [[[a path]| |] d]; cbn in *; [|by apply next_ok..].
    destruct (H3 _ eq_refl) as (? & ? & _). by apply return_keeps_world.
  - destruct (prefetch_keeps e s catalog cs _ Hd I) as (H1 & H2 & _).
    destruct (prefetch_round e s catalog cs (dirs w)) as [[[cs'|]| |] d]; cbn in *; apply next_ok; try done.
    by intros p' [= <-].
Qed.
Lemma set_dirs_ok d w : world_ok w → dirs_ok d → advances (dirs w) d →
  world_ok (set_dirs d w) ∧ advances (dirs w) (dirs (set_dirs d w)).
Proof. intros [Hd Hp Hr] Hd' Ha. split; [|done]. split; cbn; [done..|]. by eapply returned_advances. Qed.
Lemma damage_ok f content d : dirs_ok d → installed_file f = false → f ≠ CATALOG_ASSET →
  dirs_ok (set_private (partial_alter (λ _, content) f) d) ∧ advances d (set_private (partial_alter (λ _, content) f) d).
Proof.
  intros [Hr] Hf Hc. split; [|apply same_catalog].
  - split. cbn. intros g b Hg. rewrite lookup_partial_alter_ne by congruence. auto.
  - cbn. by rewrite lookup_partial_alter_ne by done.
  - cbn. intros g b Hg. by rewrite lookup_partial_alter_ne by congruence.
Qed.
Lemma store_act_ok a w w' : world_ok w → act a w = Some w' → world_ok w' ∧ advances (dirs w) (dirs w').
Proof.
  intros Hw H. pose proof (wo_dirs _ Hw) as Hd. destruct a as [n s c|n e|n|s e|n s e|cache|f content]; cbn -[refresh_state] in H.
  - destruct (_ && _); [|done]. injection H as <-. apply next_ok; [done..|]. by intros ? [= <-].
  - destruct (processes w !! n) as [p|] eqn:E; [|done]. injection H as <-. apply store_step_ok; [done|].
    exact (wo_processes _ Hw n p E).
  - injection H as <-. by apply next_ok.
  - injection H as <-. destruct (refresh_keeps e s _ Hd I) as (? & ? & _). by apply set_dirs_ok.
  - destruct (bool_decide _); [|done]. destruct (refresh_keeps e s _ Hd I) as (H1 & H2 & _).
    destruct (refresh_state e s (dirs w)) as [[fresh| |] d]; cbn in *; injection H as <-; apply next_ok; try done.
    by intros p' [= <-].
  - injection H as <-. destruct (private_steps (dirs w) (mkDirs (private (dirs w)) cache) eq_refl Hd). by apply set_dirs_ok.
  - destruct (installed_file f) eqn:Ef; [done|]. destruct (bool_decide (f = CATALOG_ASSET)) eqn:Ec; [done|]. injection H as <-.
    apply bool_decide_eq_false in Ec. destruct (damage_ok f content (dirs w) Hd Ef Ec). by apply set_dirs_ok.
Qed.
Lemma store_run_ok actions : ∀ w w', world_ok w → run actions w = Some w' → world_ok w' ∧ advances (dirs w) (dirs w').
Proof.
  induction actions as [|a actions IH]; intros w w' Hw H; cbn in H; [by injection H as <-|].
  destruct (act a w) as [w1|] eqn:E; [|done]. destruct (store_act_ok _ _ _ Hw E) as [H1 H2].
  destruct (IH _ _ H1 H). split; [done|]. by etrans.
Qed.
Lemma fresh_world_ok : world_ok fresh_world.
Proof. split; cbn; [split; cbn; intros f b _ H; by rewrite lookup_empty in H|apply map_Forall_empty|constructor]. Qed.

(** ** The properties *)

(** C33. Whatever the sources, the shared directory and other processes supply: a component
    that is resolved is not disabled, fits the core, the target and the pin, speaks the
    protocol, and the file at its path has the size and the SHA-256 that its validated
    catalog entry or receipt lists. *)
Theorem resolved_is_verified actions w r : run actions fresh_world = Some w → r ∈ returned w →
  suits (r_settings r) (r_component r) (r_artifact r) ∧ sound_file (r_artifact r) (r_file r).
Proof.
  intros H Hr. destruct (store_run_ok _ _ _ fresh_world_ok H) as [Hw _].
  pose proof (wo_returned _ Hw) as Hf. rewrite Forall_forall in Hf. destruct (Hf r Hr) as (? & ? & _). done.
Qed.

(** C34. A version never changes: of all that the processes of an account ever return, two
    artifacts with the same component, version and target have the same requirements and
    the same executable, whatever catalogs the sources publish in between. *)
Theorem versions_are_pinned actions w r1 r2 : run actions fresh_world = Some w →
  r1 ∈ returned w → r2 ∈ returned w → key (r_artifact r1) = key (r_artifact r2) →
  core (r_artifact r1) = core (r_artifact r2) ∧ protocols (r_artifact r1) = protocols (r_artifact r2) ∧
  executable (r_artifact r1) = executable (r_artifact r2) ∧
  ∃ b1 b2, r_file r1 = Some b1 ∧ r_file r2 = Some b2 ∧ sha256_hex b1 = sha256_hex b2 ∧ len b1 = len b2.
Proof.
  intros H H1 H2 Hk. destruct (store_run_ok _ _ _ fresh_world_ok H) as [Hw _].
  pose proof (wo_returned _ Hw) as Hf. rewrite Forall_forall in Hf.
  destruct (Hf r1 H1) as (_ & (b1 & F1 & L1 & S1) & (a1 & R1 & T1)). destruct (Hf r2 H2) as (_ & (b2 & F2 & L2 & S2) & (a2 & R2 & T2)).
  rewrite (receipt_name_key _ _ Hk), R2 in R1. injection R1 as Ea.
  assert (a2 = a1) as -> by (pose proof (json_artifact_to_vec a1) as E1; rewrite <- Ea, json_artifact_to_vec in E1; congruence).
  apply same_tool_inv in T1 as (_ & C1 & P1 & E1), T2 as (_ & C2 & P2 & E2).
  split_and!; [congruence..|]. exists b1, b2. split_and!; [done..|congruence|congruence].
Qed.

(** C35. The catalog of an account never goes back: once it holds a catalog, the file of
    every later state is that catalog or one with a strictly later release, whatever the
    sources and the shared directory offer.  It stays readable with one exception: a
    catalog remembered from the shared directory is encoded anew and written without
    regard to the size limit; if the encoding exceeds it, the file stays and is refused ever
    after. *)
Theorem catalog_never_rolls_back actions more w w' c : run actions fresh_world = Some w →
  private_catalog (dirs w) = Ok (Some c) → run more w = Some w' →
  ∃ c', (c' = c ∨ vle (c_release c) (c_release c') = true ∧ c_release c ≠ c_release c') ∧
    (private_catalog (dirs w') = Ok (Some c') ∨
     private (dirs w') !! CATALOG_ASSET = Some (catalog_to_vec c') ∧ MAX_CATALOG < len (catalog_to_vec c')).
Proof.
  intros H Hc H'. destruct (store_run_ok _ _ _ fresh_world_ok H) as [Hw _].
  destruct (store_run_ok _ _ _ Hw H') as [_ Ha]. exact (adv_catalog _ _ Ha c Hc).
Qed.
End safety.

(** ** Without a network *)

Section offline.
Context `{V : SemverLibs} {VO : SemverLibsOk V} {J : CatalogJson} {JO : CatalogJsonOk J} {S : StoreLibs}.
Variables (e : Env) (s : Settings) (c : Component).
(** No source answers; locks and publications work, and there is no shared directory. *)
Record offline : Prop := {
  of_fetch url n : fetch e url n = Unreachable false;
  of_cancelled : cancelled e = false;
  of_locks l : locks e l = Ok tt;
  of_placing f : placing e f = Published;
  of_url u : is_ok (url_parse u) = true;
  of_shared : s_shared s = None }.
(** The directory is of a size [installed] accepts. *)
Record readable (d : Dirs) : Prop := {
  re_dirs : dirs_ok d;
  re_size : Z.of_nat (base.size (private d)) + others e ≤ 4096;
  re_receipts f b : installed_file f = true → private d !! f = Some b → len b ≤ 16384 }.

Lemma gateway_url_ok path : offline → ∃ o, gateway_url s path = Ok o.
Proof.
  intros Ho. unfold gateway_url. destruct (gateway s) as [g|]; [|by eexists].
  pose proof (of_url Ho (trim_end is_slash (as_str g) +:+ "/" +:+ path)) as H.
  destruct (url_parse _) as [u| |]; [|done..]. by eexists.
Qed.
Lemma successor_self catalog : validate catalog = Ok tt → validate_successor catalog catalog = Ok tt.
Proof.
  intros Hv. unfold validate_successor. rewrite vle_refl. cbn. rewrite !bool_decide_true by done. cbn.
  unfold Prelude.ensure. replace (forallb _ _) with true; [done|]. symmetry. apply forallb_forall. intros a Ha.
  apply list_elem_of_In in Ha. destruct (List.find (same_key a) (artifacts catalog)) as [old|] eqn:E; [|done].
  apply find_some in E as [Hin Hk]. apply list_elem_of_In in Hin.
  assert (old = a) as ->; [|apply same_tool_refl].
  apply (NoDup_map_inj key (artifacts catalog)); [by apply vc_unique, validated_catalog|done..|].
  unfold same_key in Hk. rewrite !andb_true_iff, !bool_decide_eq_true in Hk. destruct Hk as [[H1 H2] H3]. unfold key. congruence.
Qed.
Lemma remember_own catalog d : offline → private_catalog d = Ok (Some catalog) → validate catalog = Ok tt →
  remember_catalog e catalog d = (Ok tt, d).
Proof.
  intros Ho Hp Hv. unfold remember_catalog, mbindM, lift, get. rewrite (of_locks Ho), Hp, vle_refl. cbn.
  rewrite (successor_self _ Hv), bool_decide_true by done. done.
Qed.
(** Offline, [ensure] finds the executable in place or fails without a trace. *)
Lemma ensure_offline catalog a d : offline → readable d → validate catalog = Ok tt → selected s catalog c = Ok a →
  (∃ d', ensure_tool e s catalog c d = (Ok (binary_name a), d')) ∨
  ∃ error, error ≠ access_denied ∧ ensure_tool e s catalog c d = (Err error, d).
Proof.
  intros Ho Hr Hv Ha. unfold ensure_tool, mbindM, lift, get. rewrite Hv, Ha, (of_locks Ho). cbn.
  destruct (verified (private d !! binary_name a) (executable a)) eqn:E.
  - unfold record, mbindM, lift, get. destruct (private d !! receipt_name a) as [b|] eqn:Er.
    + pose proof (receipt_name_installed a) as Hi. pose proof (re_receipts _ Hr _ _ Hi Er) as Hl.
      destruct (do_receipt _ (re_dirs _ Hr) _ _ Hi Er) as (a' & -> & _ & _).
      rewrite (proj2 (Z.leb_le _ _) Hl), json_artifact_to_vec. cbn. destruct (same_tool a' a); cbn.
      * left. unfold mirror. rewrite (of_shared Ho). by eexists.
      * right. eexists. by split; [|reflexivity].
    + left. unfold publish. rewrite (of_placing Ho). cbn. unfold mirror. rewrite (of_shared Ho). by eexists.
  - right. rewrite (of_shared Ho). cbn.
    assert (from_gateway e s a d = (Ok None, d)) as ->.
    { unfold from_gateway, mbindM, lift. case_bool_decide; [done|].
      destruct (gateway_url_ok (gateway_path a) Ho) as [[url|] ->]; [|done]. by rewrite (of_fetch Ho). }
    unfold from_github, mbindM, lift. case_bool_decide as Hb; [eexists; by split; [|reflexivity]|]. cbn.
    pose proof (of_url Ho (github_url a)) as Hu. destruct (url_parse _) as [u| |]; [|done..].
    rewrite (of_fetch Ho). eexists. by split; [|reflexivity].
Qed.
Lemma installed_loop_total d entries : readable d → (∀ f b, (f, b) ∈ entries → private d !! f = Some b) →
  ∃ found, installed_loop s c d entries = Ok found ∧
    ∀ f b a, (f, b) ∈ entries → is_receipt c f = true → b = artifact_to_vec a →
      matches c (s_core s) (s_target s) (pin s c) a = true → in_place a d → (a, binary_name a) ∈ found.
Proof.
  intros Hr. induction entries as [|[f b] entries IH]; intros Hin; cbn [installed_loop].
  { exists []. split; [done|]. intros ??? H. by apply elem_of_nil in H. }
  destruct IH as (found & Ef & Hf); [intros; apply Hin; by right|].
  assert (private d !! f = Some b) as Hfb by (apply Hin; by left).
  destruct (is_receipt c f) eqn:Er.
  - pose proof (receipt_installed _ _ Er) as Hi. destruct (do_receipt _ (re_dirs _ Hr) f b Hi Hfb) as (a & -> & _ & Hva).
    pose proof (re_receipts _ Hr _ _ Hi Hfb) as Hl.
    rewrite (proj2 (Z.leb_le _ _) Hl), json_artifact_to_vec. cbn. rewrite Hva. cbn. rewrite Ef. cbn.
    destruct (matches c (s_core s) (s_target s) (pin s c) a && verified (private d !! binary_name a) (executable a)) eqn:Em;
      (eexists; split; [done|]); intros f' b' a' [[= -> ->]|Hin']%elem_of_cons Hr' Hb Hm Hp.
    + pose proof (json_artifact_to_vec a') as H1. rewrite <- Hb, json_artifact_to_vec in H1. injection H1 as ->. by left.
    + right. by eapply Hf.
    + pose proof (json_artifact_to_vec a') as H1. rewrite <- Hb, json_artifact_to_vec in H1. injection H1 as ->.
      apply verified_sound in Hp. by rewrite Hm, Hp in Em.
    + by eapply Hf.
  - exists found. split; [done|]. intros f' b' a' [[= -> ->]|Hin']%elem_of_cons Hr'; [congruence|]. by eapply Hf.
Qed.
Definition newest_first (x y : Artifact * string) : Prop := vle (version y.1) (version x.1) = true.
Lemma by_version_newest x y : by_version x y ≠ Gt → newest_first x y.
Proof.
  unfold by_version, newest_first. case_bool_decide as E; [intros _; rewrite E; apply vle_refl|].
  destruct (vle (version x.1) (version y.1)) eqn:Ev; [done|]. intros _. destruct (vle_total (version x.1) (version y.1)); congruence.
Qed.
Lemma by_version_total x y : by_version x y = Gt → by_version y x ≠ Gt.
Proof.
  unfold by_version. case_bool_decide as E; [done|]. destruct (vle (version x.1) (version y.1)) eqn:Ev; [|done]. intros _.
  rewrite bool_decide_false by congruence. destruct (vle (version y.1) (version x.1)) eqn:Ev'; [|done].
  destruct E. by apply vle_antisym.
Qed.
#[local] Instance newest_first_trans : Transitive newest_first.
Proof. intros x y z H1 H2. unfold newest_first in *. by eapply vle_trans. Qed.
Lemma find_sorted (f : Artifact * string → bool) l x : StronglySorted newest_first l → x ∈ l → f x = true →
  ∃ y, List.find f l = Some y ∧ newest_first y x.
Proof.
  induction 1 as [|y l Hs IH Hf]; intros Hx Hfx; [by apply elem_of_nil in Hx|]. cbn. destruct (f y) eqn:E.
  - exists y. split; [done|]. apply elem_of_cons in Hx as [-> |Hx]; [apply vle_refl|]. rewrite Forall_forall in Hf. auto.
  - apply elem_of_cons in Hx as [-> |Hx]; [congruence|]. auto.
Qed.

Lemma receipt_name_read a : is_receipt (component a) (receipt_name a) = true.
Proof.
  unfold is_receipt, receipt_name. apply andb_true_iff. split; [apply str_starts_with_spec; by eexists|].
  apply str_ends_with_spec. exists (receipt_prefix (component a) +:+ show_version (version a) +:+ "-" +:+ target a).
  by rewrite !str_app_assoc.
Qed.

(** An installed tool keeps working without a network: when no source answers, [resolve]
    returns a verified tool that suits the settings and is at least as new as every intact
    installed version that does and that the catalog has not overtaken. *)
Theorem offline_resolve catalog latest a d : offline → readable d →
  private_catalog d = Ok (Some catalog) → selected s catalog c = Ok latest →
  private d !! receipt_name a = Some (artifact_to_vec a) → in_place a d → component a = c →
  matches c (s_core s) (s_target s) (pin s c) a = true → vle (version a) (version latest) = true →
  ∃ a' path d', resolve e s c d = (Ok (a', path), d') ∧ suits s c a' ∧
    sound_file a' (private d' !! path) ∧ vle (version a) (version a') = true.
Proof.
  intros Ho Hr Hp Hs Ha Hi Hc Hm Hv. pose proof (private_catalog_valid _ _ Hp) as Hval.
  assert (cached_catalog s d = Ok (Some catalog)) as Hcached.
  { unfold cached_catalog, shared_catalog. by rewrite Hp, (of_shared Ho). }
  unfold resolve, obtain. unfold mbindM at 1 2 3. unfold get, lift. rewrite Hcached. cbn [mok].
  unfold mbindM at 1. rewrite Hs. unfold mbindM at 1. rewrite (remember_own catalog d Ho Hp Hval).
  unfold mbindM, provide. destruct (ensure_offline catalog latest d Ho Hr Hval Hs) as [[d' E]|(error & Hne & E)].
  - pose proof (ensure_tool_keeps e s catalog c d (re_dirs _ Hr) I) as (_ & _ & H). rewrite E in *.
    destruct (H _ eq_refl) as (a' & Ha' & Hsu & Hpa & Hin & _). rewrite Hs in Ha'. injection Ha' as <-.
    exists latest, (binary_name latest), d'. by split_and!.
  - rewrite E, bool_decide_false, (of_cancelled Ho) by done. cbn [orb].
    destruct (fall_back_keeps e s c latest error d (re_dirs _ Hr) I) as (_ & _ & Hf).
    unfold fall_back, mbindM, get, lift in *.
    assert (∃ found, installed s (others e) c d = Ok found ∧ StronglySorted newest_first found ∧
              (a, binary_name a) ∈ found) as (found & Ef & Hsort & Hin).
    { destruct (installed_loop_total d (map_to_list (private d)) Hr) as (found & Ef & Hf'); [by intros ?? ?%elem_of_map_to_list|].
      exists (sort_by by_version found). split_and!.
      - unfold installed. destruct (selected_suits _ _ _ _ Hval Hs) as (_ & Hd & _). rewrite bool_decide_false by done. cbn.
        rewrite (proj2 (Z.leb_le _ _)) by apply (re_size _ Hr). cbn. by rewrite Ef.
      - apply sort_by_strongly; [apply by_version_total|apply newest_first_trans|apply by_version_newest].
      - rewrite sort_by_perm. apply (Hf' (receipt_name a) (artifact_to_vec a)); [by apply elem_of_map_to_list| |done..].
        rewrite <- Hc. apply receipt_name_read. }
    rewrite Ef in *.
    destruct (find_sorted (λ '(a, _), vle (version a) (version latest)) found _ Hsort Hin Hv) as ([a' path] & Efind & Hnew).
    rewrite Efind in *. cbn in *. destruct (Hf _ eq_refl) as (Hsu & (-> & Hpl & _) & _).
    exists a', (binary_name a'), d. by split_and!.
Qed.
End offline.

(** ** Examples *)

(** An encoding in which every field is one number. *)
Definition field {A} `{Countable A} (a : A) : Z := Zpos (encode a).
Definition unfield {A} `{Countable A} (z : Z) : option A := match z with Zpos p => decode p | _ => None end.
Lemma unfield_field {A} `{Countable A} (a : A) : unfield (field a) = Some a.
Proof. apply decode_encode. Qed.
Definition component_index (c : Component) : Z :=
  match c with Tor => 0 | Terminal => 1 | Sync => 2 | Stats => 3 | Transfer => 4 end.
Definition index_component (z : Z) : Component :=
  match z with 0 => Tor | 1 => Terminal | 2 => Sync | 3 => Stats | _ => Transfer end.
Definition sample_fields (a : Artifact) : list Z :=
  [component_index (component a); field (A:=Z * Z * Z) (version a); field (target a); field (core a);
   field (protocols a); field (source_revision a); field (build_inputs a); field (A:=Z * Z * Z) (release a);
   size (executable a); field (sha256 (executable a)); size (archive a); field (sha256 (archive a))].
Definition sample_artifact (l : list Z) : option (Artifact * list Z) :=
  match l with
  | c :: v :: t :: r :: p :: sr :: b :: rl :: n :: h :: an :: ah :: l =>
      v ← unfield (A:=Z * Z * Z) v; t ← unfield (A:=string) t; r ← unfield (A:=string) r;
      p ← unfield (A:=list Z) p; sr ← unfield (A:=string) sr; b ← unfield (A:=string) b;
      rl ← unfield (A:=Z * Z * Z) rl; h ← unfield (A:=string) h; ah ← unfield (A:=string) ah;
      Some (mkArtifact (index_component c) (v : Z * Z * Z) t r p sr b (mkBlob n h) (rl : Z * Z * Z) (mkBlob an ah), l)
  | _ => None
  end.
Fixpoint sample_artifacts (n : nat) (l : list Z) : option (list Artifact) :=
  match n with
  | O => Some []
  | Datatypes.S n => '(a, l) ← sample_artifact l; as_ ← sample_artifacts n l; Some (a :: as_)
  end.
Lemma sample_artifact_fields a l : sample_artifact (sample_fields a ++ l) = Some (a, l).
Proof.
  destruct a as [c v t r p sr b [n h] rl [an ah]]. unfold sample_fields. cbn [app component version target core protocols
    source_revision build_inputs executable release archive size sha256]. cbn [sample_artifact].
  rewrite !unfield_field. cbn [mbind option_bind]. by destruct c.
Qed.
Lemma sample_artifacts_fields as_ : sample_artifacts (length as_) (flat_map sample_fields as_) = Some as_.
Proof.
  induction as_ as [|a as_ IH]; [done|]. cbn [length sample_artifacts flat_map]. rewrite sample_artifact_fields.
  cbn [mbind option_bind]. by rewrite IH.
Qed.
#[export] Instance sample_json : CatalogJson := {
  json_schema l := Ok (head l);
  json_catalog l := match l with
                    | n :: r :: v :: l =>
                        ok_or (r ← unfield (A:=string) r; v ← unfield (A:=Z * Z * Z) v; as_ ← sample_artifacts (length l / 12) l;
                               Some (mkCatalog n r (v : Z * Z * Z) as_)) "invalid catalog"
                    | _ => Err "invalid catalog"
                    end;
  json_manifest _ := Err "invalid manifest";
  json_artifact l := let! r := ok_or (sample_artifact l) "invalid artifact" in Ok r.1;
  catalog_to_vec c := schema_version c :: field (repository c) :: field (A:=Z * Z * Z) (c_release c) ::
                      flat_map sample_fields (artifacts c);
  artifact_to_vec := sample_fields }.
#[export] Instance sample_json_ok : CatalogJsonOk sample_json.
Proof.
  split.
  - intros [n r v as_]. cbn [json_catalog catalog_to_vec sample_json schema_version repository c_release artifacts]. rewrite !unfield_field. cbn [mbind option_bind].
    replace (length (flat_map sample_fields as_) / 12)%nat with (length as_).
    { by rewrite sample_artifacts_fields. }
    assert (length (flat_map sample_fields as_) = length as_ * 12)%nat as ->; [|by rewrite Nat.div_mul].
    induction as_ as [|a as_ IH]; [done|]. cbn [flat_map]. rewrite length_app, IH. done.
  - done.
  - intros a. cbn [json_artifact artifact_to_vec sample_json]. rewrite <- (app_nil_r (sample_fields a)), sample_artifact_fields. done.
Qed.

Definition tool_bytes : list Z := [1; 2; 3].
#[export] Instance sample_store : StoreLibs := {
  url_parse u := Ok u;
  sha256_hex b := if bool_decide (b = tool_bytes) then sixty_four "a" else sixty_four "e";
  untar _ := Err "not an archive" }.
Definition sample_settings : Settings :=
  mkSettings (Some (mkGatewayUrl "https://hub" true "" None None None)) GatewayThenGithub (1, 5, 0)
    "x86_64-unknown-linux-gnu" [] [] None.
Definition old_catalog : Catalog := mkCatalog 1 REPOSITORY (1, 1, 0) [sample_tool (1, 0, 0) "d"].
Definition first_catalog : Catalog := mkCatalog 1 REPOSITORY (1, 2, 0) [sample_tool (1, 0, 0) "a"].
(** The gateway offers [catalog] and the file of its tool; then nothing answers. *)
Definition serving (catalog : Catalog) : Env :=
  mkEnv (λ _, Ok tt)
    (λ url _, if bool_decide (url = "https://hub/api/downloads/components/catalog") then Bytes (catalog_to_vec catalog)
              else Bytes tool_bytes) (λ _, Published) 2 false.
Definition no_network : Env := mkEnv (λ _, Ok tt) (λ _ _, Unreachable false) (λ _, Published) 2 false.

Definition sample_install : list Action :=
  [Resolve 0 sample_settings Tor; Step 0 (serving first_catalog); Step 0 no_network; Step 0 (serving first_catalog)].
(** Later the gateway offers an older catalog with another executable for the version. *)
Definition sample_offline : list Action :=
  [Refresh sample_settings (serving old_catalog); Resolve 1 sample_settings Tor; Step 1 no_network; Step 1 no_network;
   Step 1 no_network].
Definition sample_first : World := default fresh_world (run sample_install fresh_world).
Definition sample_second : World := default fresh_world (run sample_offline sample_first).
Definition sample_both : World := default fresh_world (run (sample_install ++ sample_offline) fresh_world).
Definition sample_returned : Returned :=
  mkReturned sample_settings Tor (sample_tool (1, 0, 0) "a") (Some tool_bytes).

Lemma sample_both_run : run (sample_install ++ sample_offline) fresh_world = Some sample_both.
Proof. apply some_default. by_vm. Qed.
Lemma sample_both_returned : returned sample_both = [sample_returned; sample_returned].
Proof. by_vm. Qed.
Lemma resolved_is_verified_witness :
  suits sample_settings Tor (sample_tool (1, 0, 0) "a") ∧ sound_file (sample_tool (1, 0, 0) "a") (Some tool_bytes).
Proof.
  apply (resolved_is_verified (sample_install ++ sample_offline) sample_both sample_returned sample_both_run).
  rewrite sample_both_returned. by left.
Defined.
Lemma versions_are_pinned_witness : ∃ b1 b2, r_file sample_returned = Some b1 ∧ r_file sample_returned = Some b2 ∧
  sha256_hex b1 = sha256_hex b2 ∧ len b1 = len b2.
Proof.
  assert (sample_returned ∈ returned sample_both) as Hin by (rewrite sample_both_returned; by left).
  destruct (versions_are_pinned (sample_install ++ sample_offline) sample_both sample_returned sample_returned
    sample_both_run Hin Hin eq_refl) as (_ & _ & _ & H). exact H.
Defined.
Lemma catalog_never_rolls_back_witness :
  private_catalog (dirs sample_first) = Ok (Some first_catalog) ∧
  ∃ c', (c' = first_catalog ∨ vle (c_release first_catalog) (c_release c') = true ∧
           c_release first_catalog ≠ c_release c') ∧ private_catalog (dirs sample_second) = Ok (Some c').
Proof.
  assert (private_catalog (dirs sample_first) = Ok (Some first_catalog)) as E by by_vm. split; [exact E|].
  assert (run sample_install fresh_world = Some sample_first) as R1 by (apply some_default; by_vm).
  assert (run sample_offline sample_first = Some sample_second) as R2 by (apply some_default; by_vm).
  pose proof (catalog_never_rolls_back sample_install sample_offline sample_first sample_second first_catalog R1 E R2)
    as (c' & Hn & [Hc|[Hc Hl]]); exists c'; (split; [exact Hn|]); [exact Hc|].
  assert (is_ok (private_catalog (dirs sample_second)) = true) as Hok by by_vm.
  destruct (private_catalog (dirs sample_second)) as [o| |] eqn:Ep; [|discriminate Hok..].
  pose proof (catalog_readable _ _ Ep _ Hc). lia.
Defined.
Lemma small_files (m : gmap string (list Z)) f b :
  forallb (λ p, len p.2 <=? 16384) (map_to_list m) = true → m !! f = Some b → len b ≤ 16384.
Proof.
  rewrite forallb_forall. intros Hl Hb. apply Z.leb_le, (Hl (f, b)), list_elem_of_In. by apply elem_of_map_to_list.
Qed.
Lemma offline_resolve_witness :
  ∃ a' path d', resolve no_network sample_settings Tor (dirs sample_first) = (Ok (a', path), d') ∧
    suits sample_settings Tor a' ∧ sound_file a' (private d' !! path) ∧ vle (1, 0, 0) (version a') = true.
Proof.
  assert (run sample_install fresh_world = Some sample_first) as H by (apply some_default; by_vm).
  apply (offline_resolve no_network sample_settings Tor first_catalog (sample_tool (1, 0, 0) "a")
    (sample_tool (1, 0, 0) "a") (dirs sample_first)); try by_vm.
  - by split.
  - split.
    + exact (wo_dirs _ (proj1 (store_run_ok _ _ _ fresh_world_ok H))).
    + apply Z.leb_le. by_vm.
    + intros f b _. apply small_files. by_vm.
  - exists tool_bytes. split; [by_vm|]. split; by_vm.
Defined.
