(* ===== verification/Egress.v ===== *)
(** * The local application proxy ([porthub-egress/src/])

    [permitted] ([destination.rs]) says which addresses a shared proxy may connect to;
    [session] ([proxy.rs]) serves one client of the local listener: it reads a SOCKS5 or an
    HTTP proxy request, checks the credentials and asks a connector for the destination.
    The socket is what the client sends before it stops and what it was sent; a timeout is
    the same error as a client that stops. *)

From S2P Require Import Prelude Net RustStr Text.
Local Open Scope string_scope.
Local Open Scope list_scope.
Local Open Scope Z_scope.

(** ** Destinations ([lib.rs], [destination.rs]) *)

Record Destination := mkDestination { host : string; port : Z }.
#[global] Instance destination_eq_dec : EqDecision Destination.
Proof. solve_decision. Defined.
(** Control characters, space and the bytes [/ \ @ # ?]. *)
Definition unsafe_byte (c : Z) : bool :=
  (c <=? 32) || (c =? 127) || (c =? 47) || (c =? 92) || (c =? 64) || (c =? 35) || (c =? 63).
Definition destination_new (host : string) (port : Z) : res Destination :=
  ensure! negb (port =? 0) && negb (str_is_empty host) && (slen host <=? 253) else "invalid proxy destination" in
  ensure! negb (existsb unsafe_byte (bytes_of host)) else "invalid proxy destination" in
  Ok (mkDestination host port).

(** [segments()[0]] of an IPv6 address. *)
Definition segment_0 (ip : Z) : Z := ip / 2 ^ 112.
Definition is_unique_local (ip : Z) : bool := Z.land (segment_0 ip) 0xfe00 =? 0xfc00.
(** [fd00:ec2::254] *)
Definition INSTANCE_METADATA : Z := 0xfd00 * 2 ^ 112 + 0xec2 * 2 ^ 96 + 0x254.
Definition permitted (address : IpAddr) (allow_lan : bool) (overlay : list IpAddr) : bool :=
  let address := to_canonical address in
  if bool_decide (address ∈ overlay) then false
  else
    match address with
    | V4 ip =>
        let a := octet 0 ip in
        let b := octet 1 ip in
        negb (is_unspecified ip) && negb (is_loopback ip) && negb (is_link_local ip) && negb (is_broadcast ip) &&
        negb (a =? 0) && (a <? 224) && negb ((a =? 100) && ((64 <=? b) && (b <=? 127))) &&
        (allow_lan || negb (is_private ip))
    | V6 ip =>
        negb (ip =? INSTANCE_METADATA) &&
        ((Z.land (segment_0 ip) 0xe000 =? 0x2000) || allow_lan && is_unique_local ip)
    end.

(** ** Text *)

Definition CR : ascii := ascii_of_N 13.
Definition LF : ascii := ascii_of_N 10.
Definition QUOTE : string := String (ascii_of_N 34) "".
Definition CRLF : string := String CR (String LF "").
Definition crlf (s : string) : string := s +:+ CRLF.

(** [s.split(CRLF)] *)
Fixpoint split_crlf (s : string) : list string :=
  match s with
  | EmptyString => [""]
  | String a r =>
      match r with
      | String b r' =>
          if bool_decide (a = CR) && bool_decide (b = LF) then "" :: split_crlf r'
          else match split_crlf r with f :: fs => String a f :: fs | [] => [String a ""] end
      | EmptyString => [String a ""]
      end
  end.
(** [s.split_whitespace()] on the characters of a text, after the start of a word. *)
Fixpoint words (word : string) (chars : list string) : list string :=
  match chars with
  | [] => if str_is_empty word then [] else [word]
  | c :: chars =>
      if bool_decide (c ∈ white_space) then
        if str_is_empty word then words "" chars else word :: words "" chars
      else words (word +:+ c) chars
  end.
Definition split_whitespace (s : string) : list string := words "" (str_chars s).
(** A target up to the first [/] or [?], and the rest. *)
Fixpoint split_target (s : string) : string * string :=
  match s with
  | EmptyString => ("", "")
  | String a r =>
      if bool_decide (a = "/"%char) || bool_decide (a = "?"%char) then ("", s)
      else (String a (split_target r).1, (split_target r).2)
  end.
(** Bytes up to the first colon, and the bytes after it. *)
Fixpoint split_colon (l : list Z) : option (list Z * list Z) :=
  match l with
  | [] => None
  | b :: l => if b =? 58 then Some ([], l)
              else match split_colon l with Some (x, y) => Some (b :: x, y) | None => None end
  end.

(** ** Credentials and the connection *)

(** [base64] with the standard alphabet and padding. *)
Class Base64 := { base64_decode : string → option (list Z) }.

Record Credentials := mkCredentials { username : string; password : string }.
Definition has_control (s : string) : bool := existsb (λ c, is_control (code_point c)) (str_chars s).
Definition credentials_new (username password : string) : res Credentials :=
  ensure! negb (str_is_empty username) && (slen username <=? 255) && (24 <=? slen password) && (slen password <=? 255)
    else "proxy credentials require a username and a 24–255 byte password" in
  ensure! negb (str_contains ":" username) && negb (has_control username) && negb (has_control password)
    else "invalid proxy credentials" in
  Ok (mkCredentials username password).
Definition verify (c : Credentials) (username_ password_ : list Z) : bool :=
  bool_decide (bytes_of (username c) = username_) && bool_decide (bytes_of (password c) = password_).
(** The checks of [bind] on the address and the limit. *)
Definition bind_checks (loopback : bool) (max_connections : Z) : res unit :=
  ensure! loopback else "application proxy must bind to localhost" in
  ensure ((1 <=? max_connections) && (max_connections <=? 512)) "proxy connection limit must be between 1 and 512".

(** [asked] lists what the connector was asked for, and [upstream] what was written to it. *)
Record Conn := mkConn {
  incoming : list Z; outgoing : list Z; writable : bool; asked : list Destination; upstream : list Z }.
Definition set_incoming (l : list Z) (s : Conn) : Conn := mkConn l (outgoing s) (writable s) (asked s) (upstream s).
Definition send (l : list Z) (s : Conn) : Conn := mkConn (incoming s) (outgoing s ++ l) (writable s) (asked s) (upstream s).
Definition ask (d : Destination) (s : Conn) : Conn :=
  mkConn (incoming s) (outgoing s) (writable s) (d :: asked s) (upstream s).
Definition forward (l : list Z) (s : Conn) : Conn :=
  mkConn (incoming s) (outgoing s) (writable s) (asked s) (upstream s ++ l).

Definition read_u8 : M Conn Z := λ s,
  match incoming s with
  | b :: l => (Ok b, set_incoming l s)
  | [] => (Err "unexpected end of file", s)
  end.
Definition read_exact (n : Z) : M Conn (list Z) := λ s,
  if n <=? len (incoming s) then (Ok (take (Z.to_nat n) (incoming s)), set_incoming (drop (Z.to_nat n) (incoming s)) s)
  else (Err "unexpected end of file", set_incoming [] s).
Definition read_u16 : M Conn Z :=
  let* bytes := read_exact 2 in mok (from_be bytes).
Definition write_all (l : list Z) : M Conn unit := λ s,
  if writable s then (Ok tt, send l s) else (Err "broken pipe", s).

(** ** SOCKS *)

Inductive Protocol := Socks | Connect | Http (request : list Z).

Definition socks_host (kind : Z) : M Conn string :=
  if kind =? 1 then let* address := read_exact 4 in mok (show_ipv4 (from_be address))
  else if kind =? 4 then let* address := read_exact 16 in mok (show_ipv6 (from_be address))
  else if kind =? 3 then
    let* length := read_u8 in
    let* host := read_exact length in
    lift (ok_or (from_utf8 host) "invalid utf-8 sequence")
  else lift (Err "unsupported SOCKS destination").
Definition socks (c : Credentials) : M Conn (Destination * Protocol) :=
  let* count := read_u8 in
  ensure* 0 <? count else "missing SOCKS authentication methods" in
  let* methods := read_exact count in
  if negb (bool_decide (2 ∈ methods)) then
    do* write_all [5; 255] in lift (Err "SOCKS authentication required")
  else
    do* write_all [5; 2] in
    let* version := read_u8 in
    ensure* version =? 1 else "invalid SOCKS authentication" in
    let* length := read_u8 in
    let* username_ := read_exact length in
    let* length := read_u8 in
    let* password_ := read_exact length in
    if negb (verify c username_ password_) then
      do* write_all [1; 1] in lift (Err "SOCKS authentication failed")
    else
      do* write_all [1; 0] in
      let* request := read_exact 4 in
      if negb (bool_decide (take 3 request = [5; 1; 0])) then
        do* write_all [5; 7; 0; 1; 0; 0; 0; 0; 0; 0] in lift (Err "only SOCKS CONNECT is supported")
      else
        let* kind := lift (idx request 3) in
        let* host := socks_host kind in
        let* port := read_u16 in
        let* destination := lift (destination_new host port) in
        mok (destination, Socks).

(** ** HTTP *)

Section http.
Context `{B : Base64}.

Definition MAX_HEADER : Z := 16 * 1024.
Definition END : list Z := [13; 10; 13; 10].
Definition ends_with (suffix l : list Z) : bool := bool_decide (drop (length l - length suffix) l = suffix).
Fixpoint read_header (header : list Z) (l : list Z) : res (list Z) * list Z :=
  if ends_with END header then (Ok header, l)
  else if len header <? MAX_HEADER then
    match l with
    | b :: l => read_header (header ++ [b]) l
    | [] => (Err "unexpected end of file", [])
    end
  else (Err "proxy header too large", l).
Definition read_http_header (first : Z) : M Conn (list Z) := λ s,
  let '(r, l) := read_header [first] (incoming s) in (r, set_incoming l s).

(** The loop over the header lines: the value of the authorization and the lines kept. *)
Fixpoint header_lines (authorization : option string) (headers : list string) (lines : list string)
    : res (option string * list string) :=
  match lines with
  | [] => Ok (authorization, headers)
  | line :: lines =>
      if str_is_empty line then header_lines authorization headers lines
      else
        let! field := ok_or (split_once ":" line) "invalid proxy header" in
        if eq_ignore_ascii_case field.1 "proxy-authorization" then
          ensure! bool_decide (authorization = None) else "duplicate proxy authentication" in
          header_lines (Some (str_trim field.2)) headers lines
        else if negb (eq_ignore_ascii_case field.1 "proxy-connection") &&
                negb (eq_ignore_ascii_case field.1 "connection")
        then header_lines authorization (headers ++ [line]) lines
        else header_lines authorization headers lines
  end.
Definition basic (authorization : option string) : option (list Z * list Z) :=
  value ← authorization;
  field ← split_once " " value;
  if eq_ignore_ascii_case field.1 "basic" then
    decoded ← base64_decode field.2; split_colon decoded
  else None.
Definition authorized (c : Credentials) (authorization : option string) : bool :=
  match basic authorization with Some (u, p) => verify c u p | None => false end.

Definition authority (value : string) : res (string * Z) :=
  let! parts := ok_or (rsplit_once ":" value) "proxy destination requires a port" in
  let host_ := match strip_prefix "[" parts.1 ≫= strip_suffix "]" with Some v => v | None => parts.1 end in
  let! port_ := ok_or (parse_uint 65535 parts.2) "invalid port" in
  let! destination := destination_new host_ port_ in
  Ok (host destination, port destination).

Definition UNAUTHORIZED : list Z := bytes_of (
  crlf "HTTP/1.1 407 Proxy Authentication Required" +:+
  crlf ("Proxy-Authenticate: Basic realm=" +:+ QUOTE +:+ "PortHub" +:+ QUOTE) +:+
  crlf "Connection: close" +:+ crlf "Content-Length: 0" +:+ CRLF).
(** The destination of an absolute-form target and the path that is left of it. *)
Definition absolute_form (target : string) : res (string * Z * string) :=
  let! url := ok_or (strip_prefix "http://" target) "use CONNECT for HTTPS" in
  let '(host, rest) := split_target url in
  let! place := if str_starts_with "[" host || str_contains ":" host then authority host else Ok (host, 80) in
  let path := if str_is_empty rest then "/" else if str_starts_with "?" rest then "/" +:+ rest else rest in
  Ok (place, path).
Definition forwarded (method path version : string) (headers : list string) : string :=
  crlf (method +:+ " " +:+ path +:+ " " +:+ version) +:+ String.concat "" (map crlf headers) +:+
  crlf "Connection: close" +:+ CRLF.
Definition http (c : Credentials) (first : Z) : M Conn (Destination * Protocol) :=
  let* header := read_http_header first in
  let* text := lift (ok_or (from_utf8 header) "invalid utf-8 sequence") in
  let lines := split_crlf text in
  let* request := lift (ok_or (head lines) "missing proxy request") in
  match split_whitespace request with
  | [method; target; version] =>
      ensure* bool_decide (version = "HTTP/1.1") || bool_decide (version = "HTTP/1.0") else "invalid proxy request" in
      let* found := lift (header_lines None [] (tail lines)) in
      if negb (authorized c found.1) then
        do* write_all UNAUTHORIZED in lift (Err "proxy authentication required")
      else if bool_decide (method = "CONNECT") then
        let* place := lift (authority target) in
        let* destination := lift (destination_new place.1 place.2) in
        mok (destination, Connect)
      else
        let* form := lift (absolute_form target) in
        let* destination := lift (destination_new form.1.1 form.1.2) in
        mok (destination, Http (bytes_of (forwarded method form.2 version found.2)))
  | _ => lift (Err "invalid proxy request")
  end.

(** ** Sessions *)

Definition handshake (c : Credentials) : M Conn (Destination * Protocol) :=
  let* first := read_u8 in
  if first =? 5 then socks c
  else
    ensure* is_ascii_uppercase first else "unsupported proxy protocol" in
    http c first.
Definition BAD_GATEWAY : list Z := bytes_of (
  crlf "HTTP/1.1 502 Bad Gateway" +:+ crlf "Connection: close" +:+ crlf "Content-Length: 0" +:+ CRLF).
Definition ESTABLISHED : list Z := bytes_of (crlf "HTTP/1.1 200 Connection Established" +:+ CRLF).
(** Up to the copying of the streams; [connects] is the outcome of the connector. *)
Definition session (c : Credentials) (connects : Destination → bool) : M Conn unit :=
  let* found := handshake c in
  let '(destination, protocol) := found in
  do* modify (ask destination) in
  if connects destination then
    match protocol with
    | Socks => write_all [5; 0; 0; 1; 0; 0; 0; 0; 0; 0]
    | Connect => write_all ESTABLISHED
    | Http request => modify (forward request)
    end
  else
    do* (match protocol with
         | Socks => write_all [5; 1; 0; 1; 0; 0; 0; 0; 0; 0]
         | _ => write_all BAD_GATEWAY
         end) in
    lift (Err "proxy upstream unavailable").
End http.

(** ** What a request is *)

(** Addresses of SOCKS: an IPv4 address, an IPv6 address or a name. *)
Inductive socks_address : list Z → string → Prop :=
  | address_v4 a : len a = 4 → socks_address (1 :: a) (show_ipv4 (from_be a))
  | address_v6 a : len a = 16 → socks_address (4 :: a) (show_ipv6 (from_be a))
  | address_name bytes name : from_utf8 bytes = Some name → socks_address (3 :: len bytes :: bytes) name.
(** The methods a client offers, its name and password, and the request. *)
Inductive socks_request (c : Credentials) : list Z → Destination → Prop :=
  | socks_connect methods u p address name port_ d :
      2 ∈ methods → verify c u p = true → socks_address address name → len port_ = 2 →
      destination_new name (from_be port_) = Ok d →
      socks_request c
        (5 :: len methods :: methods ++ 1 :: len u :: u ++ len p :: p ++ 5 :: 1 :: 0 :: address ++ port_) d.

Section requests.
Context `{B : Base64}.

(** A header ends with the first empty line. *)
Definition is_header (h : list Z) : Prop :=
  (∃ first rest, h = first :: rest ∧ is_ascii_uppercase first = true) ∧ ends_with END h = true ∧ len h ≤ MAX_HEADER ∧
  ∀ p q, h = p ++ q → p ≠ [] → q ≠ [] → ends_with END p = false.
Definition named (n line : string) : bool :=
  match split_once ":" line with Some (name, _) => eq_ignore_ascii_case name n | None => false end.
Definition kept (line : string) : bool :=
  negb (str_is_empty line) && negb (named "proxy-authorization" line) && negb (named "proxy-connection" line) &&
  negb (named "connection" line).
Definition field_value (line : string) : string :=
  match split_once ":" line with Some (_, value) => str_trim value | None => "" end.
Definition well_formed (line : string) : Prop := line ≠ "" → is_Some (split_once ":" line).
(** The destination of a method and its target, and the path of a forwarded request. *)
Inductive target_of : string → string → Destination → option string → Prop :=
  | target_connect target name port_ d :
      authority target = Ok (name, port_) → destination_new name port_ = Ok d → target_of "CONNECT" target d None
  | target_forward method target name port_ path d :
      method ≠ "CONNECT" → absolute_form target = Ok (name, port_, path) → destination_new name port_ = Ok d →
      target_of method target d (Some path).
Inductive http_request (c : Credentials) : list Z → Destination → option string → Prop :=
  | http_proxied header text request lines method target version line d path :
      is_header header → from_utf8 header = Some text → split_crlf text = request :: lines →
      split_whitespace request = [method; target; version] → version ∈ ["HTTP/1.1"; "HTTP/1.0"] →
      Forall well_formed lines → List.filter (named "proxy-authorization") lines = [line] →
      authorized c (Some (field_value line)) = true → target_of method target d path →
      http_request c header d ((λ p, forwarded method p version (List.filter kept lines)) <$> path).
Definition requests (c : Credentials) (input : list Z) (d : Destination) (sent : option string) : Prop :=
  socks_request c input d ∧ sent = None ∨ http_request c input d sent.
End requests.

(** ** Lemmas on connections *)

Lemma bind_ok {S A B} (c : M S A) (k : A → M S B) s b s' : mbindM c k s = (Ok b, s') →
  ∃ a s1, c s = (Ok a, s1) ∧ k a s1 = (Ok b, s').
Proof. unfold mbindM. destruct (c s) as [[a| |] s1] eqn:E; [|done..]. by eauto. Qed.
Lemma lift_ok {S A} (r : res A) (s : S) a s' : lift r s = (Ok a, s') → r = Ok a ∧ s' = s.
Proof. unfold lift. by intros [= -> ->]. Qed.
Lemma read_u8_ok s b s' : read_u8 s = (Ok b, s') → incoming s = b :: incoming s'.
Proof. unfold read_u8. destruct (incoming s) as [|a l] eqn:E; [done|]. by intros [= -> <-]. Qed.
Lemma read_exact_ok n s l s' : read_exact n s = (Ok l, s') → incoming s = l ++ incoming s' ∧ len l = Z.max 0 n.
Proof.
  unfold read_exact. destruct (n <=? len (incoming s)) eqn:E; [|done]. intros [= <- <-].
  rewrite length_take. cbn. rewrite take_drop. split; [done|]. lia.
Qed.
Lemma read_u16_ok s n s' : read_u16 s = (Ok n, s') → ∃ l, incoming s = l ++ incoming s' ∧ len l = 2 ∧ n = from_be l.
Proof.
  unfold read_u16. intros (l & s1 & E & H)%bind_ok. injection H as <- <-. apply read_exact_ok in E as [E L]. by eauto.
Qed.
Lemma write_all_ok b s u s' : write_all b s = (Ok u, s') → incoming s = incoming s'.
Proof. unfold write_all. destruct (writable s); [|done]. by intros [= _ <-]. Qed.

(** The connector and what was sent to it are left alone. *)
Definition same_upstream (s s' : Conn) : Prop := asked s' = asked s ∧ upstream s' = upstream s.
#[export] Instance same_upstream_preorder : PreOrder same_upstream.
Proof. split; [done|]. intros ??? [] []. split; congruence. Qed.
Definition quiet {A} (c : M Conn A) : Prop := preserves same_upstream c.
Create HintDb quiet.
#[export] Hint Unfold quiet : quiet.
Lemma quiet_bind {A C} (c : M Conn A) (k : A → M Conn C) : quiet c → (∀ a, quiet (k a)) → quiet (mbindM c k).
Proof. apply preserves_bind, _. Qed.
Lemma quiet_lift {A} (r : res A) : quiet (lift r).
Proof. apply preserves_lift, _. Qed.
Lemma quiet_mok {A} (a : A) : quiet (mok a).
Proof. apply preserves_mok, _. Qed.
Lemma quiet_read_u8 : quiet read_u8.
Proof. intros s. unfold read_u8. by destruct (incoming s). Qed.
Lemma quiet_read_exact n : quiet (read_exact n).
Proof. intros s. unfold read_exact. by case_match. Qed.
Lemma quiet_write_all l : quiet (write_all l).
Proof. intros s. unfold write_all. by case_match. Qed.
Lemma quiet_if {A} (b : bool) (x y : M Conn A) : quiet x → quiet y → quiet (if b then x else y).
Proof. by destruct b. Qed.
#[export] Hint Resolve quiet_bind quiet_lift quiet_mok quiet_read_u8 quiet_read_exact quiet_write_all quiet_if : quiet.
Ltac quiet := repeat (intros; first [done | apply quiet_bind | apply quiet_if | auto 1 with quiet nocore]).
Lemma quiet_read_u16 : quiet read_u16.
Proof. unfold read_u16. quiet. Qed.
#[export] Hint Resolve quiet_read_u16 : quiet.
Lemma quiet_socks_host kind : quiet (socks_host kind).
Proof. unfold socks_host. quiet. Qed.
#[export] Hint Resolve quiet_socks_host : quiet.
Lemma quiet_socks c : quiet (socks c).
Proof. unfold socks. quiet. Qed.

(** ** SOCKS requests *)

Ltac inv_step :=
  match goal with
  | H : mbindM _ _ _ = (Ok _, _) |- _ =>
      let a := fresh "v" in let s := fresh "t" in let E := fresh "E" in
      apply bind_ok in H as (a & s & E & H)
  | H : lift _ _ = (Ok _, _) |- _ => apply lift_ok in H as [H ->]
  | H : ensure _ _ = Ok _ |- _ => apply ensure_ok in H
  | H : ok_or _ _ = Ok _ |- _ => apply ok_or_ok in H
  | H : mok _ _ = (Ok _, _) |- _ => injection H as <- <-
  | H : read_u8 _ = (Ok _, _) |- _ => apply read_u8_ok in H
  | H : read_exact _ _ = (Ok _, _) |- _ => apply read_exact_ok in H
  | H : read_u16 _ = (Ok _, _) |- _ => apply read_u16_ok in H as (? & ? & ? & ->)
  | H : write_all _ _ = (Ok _, _) |- _ => apply write_all_ok in H
  end.
Ltac inv_run := repeat (inv_step; cbv beta in * ).

Lemma bytes_ok_cons b l : bytes_ok (b :: l) ↔ u8 b ∧ bytes_ok l.
Proof. apply Forall_cons. Qed.
Lemma socks_host_ok kind s name s' : bytes_ok (incoming s) → socks_host kind s = (Ok name, s') →
  ∃ a, incoming s = a ++ incoming s' ∧ socks_address (kind :: a) name.
Proof.
  unfold socks_host. intros Hb H.
  destruct (kind =? 1) eqn:K1; [|destruct (kind =? 4) eqn:K4; [|destruct (kind =? 3) eqn:K3]]; inv_run; try done.
  - apply Z.eqb_eq in K1 as ->. destruct E as [-> L]. eexists. split; [done|]. by constructor.
  - apply Z.eqb_eq in K4 as ->. destruct E as [-> L]. eexists. split; [done|]. by constructor.
  - apply Z.eqb_eq in K3 as ->. destruct E0 as [E0 L]. rewrite E in Hb |- *. apply Forall_cons in Hb as [[Hn _] _].
    rewrite E0, app_comm_cons. eexists. split; [done|].
    rewrite Z.max_r in L by done. rewrite <- L. by constructor.
Qed.
Lemma socks_sound c s d p s' : bytes_ok (incoming s) → socks c s = (Ok (d, p), s') →
  p = Socks ∧ ∃ input, 5 :: incoming s = input ++ incoming s' ∧ socks_request c input d.
Proof.
  unfold socks. intros Hb H. inv_run. case_match eqn:Hm; [by inv_run|].
  apply negb_false_iff, bool_decide_eq_true in Hm. inv_run. case_match eqn:Hv; [by inv_run|].
  apply negb_false_iff in Hv. inv_run. case_match eqn:Hr; [by inv_run|].
  apply negb_false_iff, bool_decide_eq_true in Hr. inv_run.
  repeat match goal with H : _ ∧ _ |- _ => destruct H end. subst t11.
  repeat match goal with H : incoming ?x = _ |- _ => rewrite H in *; clear H end.
  repeat (rewrite ?bytes_ok_app, ?bytes_ok_cons in Hb).
  destruct Hb as (? & _ & _ & ? & _ & ? & _ & Hb).
  destruct v10 as [|x1 [|x2 [|x3 [|x4 [|]]]]]; try (cbn in *; lia).
  injection Hr as -> -> ->. injection E11 as ->.
  destruct Hb as [_ Hb]. apply socks_host_ok in E12 as (a & E12 & Ha); [|done]. rewrite E12, H0. split; [done|].
  apply Z.eqb_eq in E4 as ->.
  exists (5 :: len v1 :: v1 ++ 1 :: len v6 :: v6 ++ len v8 :: v8 ++ 5 :: 1 :: 0 :: (v11 :: a) ++ x).
  split; [|by econstructor].
  unfold u8 in *. rewrite H9, H7, H5, !Z.max_r by lia. by simplify_list_eq.
Qed.

Lemma read_exact_app l r out up as_ w : read_exact (len l) (mkConn (l ++ r) out w as_ up) = (Ok l, mkConn r out w as_ up).
Proof.
  unfold read_exact. cbn. rewrite length_app, Nat2Z.id, (proj2 (Z.leb_le _ _)) by lia.
  by rewrite take_app_length, drop_app_length.
Qed.
Lemma read_exact_eq n l r out up as_ w : len l = n →
  read_exact n (mkConn (l ++ r) out w as_ up) = (Ok l, mkConn r out w as_ up).
Proof. intros <-. apply read_exact_app. Qed.
Lemma socks_host_complete kind a name r out up as_ w : socks_address (kind :: a) name →
  socks_host kind (mkConn (a ++ r) out w as_ up) = (Ok name, mkConn r out w as_ up).
Proof.
  unfold socks_host. inversion 1 as [a' L|a' L|l n Hn]; subst; cbn [Z.eqb Pos.eqb].
  - erewrite run_bind by by apply read_exact_eq. done.
  - erewrite run_bind by by apply read_exact_eq. done.
  - cbn [app]. erewrite run_bind by done. cbn [set_incoming incoming]. unfold set_incoming. cbn.
    erewrite run_bind by apply read_exact_app. unfold lift. by rewrite Hn.
Qed.
Lemma socks_complete c input d r out up as_ : socks_request c (5 :: input) d →
  ∃ out', socks c (mkConn (input ++ r) out true as_ up) = (Ok (d, Socks), mkConn r out' true as_ up).
Proof.
  inversion 1 as [methods u p address name port_ d' Hm Hv Ha Hp Hd]; subst.
  unfold socks. cbn [app]. erewrite run_bind by done. unfold set_incoming. cbn [incoming outgoing writable asked upstream].
  erewrite run_bind; [|rewrite ensure_true; [done|destruct methods; [by apply elem_of_nil in Hm|cbn; lia]]].
  rewrite <- app_assoc. erewrite run_bind by apply read_exact_app.
  rewrite bool_decide_true by done. cbn [negb]. erewrite run_bind by done. cbn [app].
  erewrite run_bind by done. cbn [set_incoming send incoming outgoing writable asked upstream].
  erewrite run_bind by done. erewrite run_bind by done. cbn [set_incoming send incoming outgoing writable asked upstream].
  rewrite <- app_assoc. erewrite run_bind by apply read_exact_app. cbn [app].
  erewrite run_bind by done. cbn [set_incoming send incoming outgoing writable asked upstream].
  rewrite <- app_assoc. erewrite run_bind by apply read_exact_app. rewrite Hv. cbn [negb].
  erewrite run_bind by done. cbn [set_incoming send incoming outgoing writable asked upstream app].
  destruct address as [|kind a]; [by inversion Ha|]. cbn [app].
  unfold send. cbn [incoming outgoing writable asked upstream].
  erewrite run_bind by apply (read_exact_eq 4 [5; 1; 0; kind]), eq_refl. cbn [take]. rewrite bool_decide_true by done. cbn [negb].
  erewrite run_bind by done. rewrite <- app_assoc. erewrite run_bind by by apply socks_host_complete.
  erewrite run_bind by (unfold read_u16; erewrite run_bind by (by apply read_exact_eq); done).
  unfold lift at 1. rewrite Hd. eexists. done.
Qed.

(** ** HTTP requests *)

Section http_lemmas.
Context `{B : Base64}.

Lemma read_header_eq h l : read_header h l =
  if ends_with END h then (Ok h, l)
  else if len h <? MAX_HEADER then
    match l with b :: l => read_header (h ++ [b]) l | [] => (Err "unexpected end of file", []) end
  else (Err "proxy header too large", l).
Proof. by destruct l. Qed.
Lemma read_header_sound l : ∀ h header rest, read_header h l = (Ok header, rest) →
  ∃ q, header = h ++ q ∧ l = q ++ rest ∧ ends_with END header = true ∧ (len h ≤ MAX_HEADER → len header ≤ MAX_HEADER) ∧
       ∀ p q', q = p ++ q' → q' ≠ [] → ends_with END (h ++ p) = false.
Proof.
  induction l as [|b l IH]; intros h header rest H; rewrite read_header_eq in H; destruct (ends_with END h) eqn:E.
  - injection H as <- <-. exists []. rewrite !app_nil_r. split_and!; [done..|]. by intros [] [].
  - by destruct (len h <? MAX_HEADER).
  - injection H as <- <-. exists []. rewrite !app_nil_r. split_and!; [done..|]. by intros [] [].
  - destruct (len h <? MAX_HEADER) eqn:L; [|done]. apply IH in H as (q & -> & -> & He & Hl & Hq).
    exists (b :: q). rewrite <- app_assoc in *. split_and!; [done..| |].
    + intros _. apply Hl. rewrite length_app. cbn. lia.
    + intros [|x p] q' Hp Hne; [by rewrite app_nil_r|]. injection Hp as <- ->.
      specialize (Hq p q' eq_refl Hne). by rewrite <- app_assoc in Hq.
Qed.
Lemma read_header_complete q rest : ∀ h, ends_with END (h ++ q) = true → len (h ++ q) ≤ MAX_HEADER →
  (∀ p q', q = p ++ q' → q' ≠ [] → ends_with END (h ++ p) = false) →
  read_header h (q ++ rest) = (Ok (h ++ q), rest).
Proof.
  induction q as [|b q IH]; intros h He Hl Hq; rewrite read_header_eq.
  - rewrite app_nil_r in *. by rewrite He.
  - specialize (Hq [] (b :: q) eq_refl) as E. rewrite app_nil_r in E. rewrite E by done.
    rewrite length_app in Hl. cbn [length] in Hl. rewrite (proj2 (Z.ltb_lt _ _)) by lia. cbn [app].
    rewrite IH, <- app_assoc; [done|..]; rewrite <- ?app_assoc; [done|cbn; rewrite length_app; cbn; lia|].
    intros p q' -> Hne. rewrite <- app_assoc. by apply (Hq (b :: p) q').
Qed.
Lemma http_header_sound first s header s' : is_ascii_uppercase first = true →
  read_http_header first s = (Ok header, s') → is_header header ∧ first :: incoming s = header ++ incoming s'.
Proof.
  unfold read_http_header. intros Hf. destruct (read_header _ _) as [r l] eqn:E. intros [= -> <-].
  apply read_header_sound in E as (q & -> & El & He & Hl & Hq). cbn [app incoming set_incoming].
  split; [|by rewrite El]. split_and!; [by eauto|done|by apply Hl|].
  intros p q' Hp Hne Hne'. destruct p as [|x p]; [done|]. injection Hp as <- ->. by apply (Hq p q').
Qed.
Lemma http_header_complete first header r out up as_ w : is_header (first :: header) →
  read_http_header first (mkConn (header ++ r) out w as_ up) = (Ok (first :: header), mkConn r out w as_ up).
Proof.
  intros (_ & He & Hl & Hq). unfold read_http_header. cbn [incoming].
  rewrite (read_header_complete header r [first]); [done..|]. intros p q -> Hne. by apply (Hq (first :: p) q).
Qed.

Lemma header_lines_spec lines : ∀ a h a' h', header_lines a h lines = Ok (a', h') ↔
  Forall well_formed lines ∧ h' = h ++ List.filter kept lines ∧
  option_list a' = option_list a ++ map field_value (List.filter (named "proxy-authorization") lines).
Proof.
  induction lines as [|line lines IH]; intros a h a' h'; cbn [header_lines List.filter].
  { rewrite !app_nil_r. split; [intros [= -> ->]; done|]. intros (_ & -> & E). destruct a, a'; cbn in E; congruence. }
  rewrite Forall_cons. unfold kept, named at 1, well_formed at 1. destruct (str_is_empty line) eqn:El.
  { assert (line = "") as -> by (destruct line; [done|]; unfold str_is_empty, slen in El; cbn in El; lia).
    cbn. rewrite IH. naive_solver. }
  assert (line ≠ "") as Hne by (by intros ->). cbn [negb andb].
  destruct (split_once ":" line) as [[n v]|] eqn:Es; cbn [ok_or rbind fst snd].
  2: { split; [done|]. intros [[H _] _]. by destruct (H Hne). }
  unfold named. rewrite Es. destruct (eq_ignore_ascii_case n "proxy-authorization") eqn:Ea; cbn [negb andb map].
  - unfold field_value at 1. rewrite Es. case_bool_decide as Hn.
    + subst a. cbn [ensure rbind]. rewrite IH. cbn. naive_solver.
    + split; [done|]. intros (_ & _ & E). destruct a, a'; cbn in E; congruence.
  - destruct (negb _ && negb _) eqn:Ek; rewrite IH, <- ?app_assoc; naive_solver.
Qed.

Definition protocol_of (sent : option string) : Protocol :=
  match sent with Some text => Http (bytes_of text) | None => Connect end.
Lemma authorized_some c auth : authorized c auth = true → ∃ v, auth = Some v.
Proof. destruct auth as [v|]; [by eauto|done]. Qed.
Lemma http_sound c first s d p s' : is_ascii_uppercase first = true → http c first s = (Ok (d, p), s') →
  ∃ input sent, first :: incoming s = input ++ incoming s' ∧ http_request c input d sent ∧ p = protocol_of sent.
Proof.
  intros Hf. unfold http. intros (header & s1 & E1 & H)%bind_ok. apply http_header_sound in E1 as [Hh E1]; [|done].
  inv_run. destruct (split_crlf v) as [|request lines] eqn:El; [done|]. injection E0 as <-. cbn [tail] in H.
  destruct (split_whitespace request) as [|method [|target [|version [|]]]] eqn:Ew; try (by inv_run).
  inv_run. destruct v1 as [auth headers]. apply header_lines_spec in E2 as (Hwf & -> & Ha). cbn [fst snd app] in *.
  destruct (authorized c auth) eqn:Hv; cbn [negb] in H; [|by inv_run].
  destruct (authorized_some _ _ Hv) as [value ->]. cbn in Ha. symmetry in Ha.
  destruct (List.filter (named _) lines) as [|line [|]] eqn:Ef; try done. injection Ha as <-.
  assert (version ∈ ["HTTP/1.1"; "HTTP/1.0"]) as Hver.
  { apply orb_true_iff in E0 as [E0|E0]; apply bool_decide_eq_true in E0 as ->; set_solver. }
  case_bool_decide as Hm; inv_run.
  - subst method. destruct v1 as [name port_]. subst s1. exists header, None. split; [done|]. split; [|done].
    change None with ((λ p, forwarded "CONNECT" p version (List.filter kept lines)) <$> (None : option string)).
    econstructor; try done. by econstructor.
  - destruct v1 as [[name port_] path]. subst s1. eexists header, (Some _). split; [done|]. split; [|done].
    change (Some ?x) with ((λ p, forwarded method p version (List.filter kept lines)) <$> Some path).
    econstructor; try done. by econstructor.
Qed.
Lemma http_complete c first input d sent r out up as_ : http_request c (first :: input) d sent →
  http c first (mkConn (input ++ r) out true as_ up) = (Ok (d, protocol_of sent), mkConn r out true as_ up).
Proof.
  inversion 1 as [header text request lines method target version line d' path Hh Ht Hs Hw Hv Hwf Hf Ha Hd]; subst.
  unfold http. erewrite run_bind by by apply http_header_complete.
  erewrite run_bind by (unfold lift; by rewrite Ht). cbv zeta. rewrite Hs. cbn [head tail].
  erewrite run_bind by done. rewrite Hw. erewrite run_bind.
  2: { unfold lift. rewrite ensure_true; [done|]. apply orb_true_iff. rewrite !bool_decide_eq_true. set_solver. }
  assert (header_lines None [] lines = Ok (Some (field_value line), List.filter kept lines)) as El.
  { apply header_lines_spec. by rewrite Hf. }
  erewrite run_bind by (unfold lift; by rewrite El). cbn [fst snd]. rewrite Ha. cbn [negb].
  inversion Hd as [target' name port_ d'' Hau Hn|method' target' name port_ path' d'' Hm Hau Hn]; subst.
  - rewrite bool_decide_true by done. erewrite run_bind by (unfold lift; by rewrite Hau). cbn [fst snd].
    erewrite run_bind by (unfold lift; by rewrite Hn). done.
  - rewrite bool_decide_false by done. erewrite run_bind by (unfold lift; by rewrite Hau). cbn [fst snd].
    erewrite run_bind by (unfold lift; by rewrite Hn). done.
Qed.

Lemma quiet_http c first : quiet (http c first).
Proof.
  unfold http. apply quiet_bind; [|intros header].
  { intros s. unfold read_http_header. by destruct (read_header _ _). }
  apply quiet_bind; [quiet|intros text]. apply quiet_bind; [quiet|intros request].
  destruct (split_whitespace request) as [|? [|? [|? [|]]]]; quiet.
Qed.
Lemma quiet_handshake c : quiet (handshake c).
Proof. unfold handshake. pose proof quiet_http. pose proof quiet_socks. quiet. Qed.

(** ** Sessions *)

Definition request_protocol (c : Credentials) (input : list Z) (d : Destination) (p : Protocol) : Prop :=
  socks_request c input d ∧ p = Socks ∨ ∃ sent, http_request c input d sent ∧ p = protocol_of sent.
Lemma handshake_sound c s d p s' : bytes_ok (incoming s) → handshake c s = (Ok (d, p), s') →
  ∃ input, incoming s = input ++ incoming s' ∧ request_protocol c input d p.
Proof.
  unfold handshake. intros Hb (first & s1 & E1 & H)%bind_ok. apply read_u8_ok in E1. rewrite E1 in Hb |- *.
  apply bytes_ok_cons in Hb as [_ Hb]. destruct (first =? 5) eqn:E5.
  - apply Z.eqb_eq in E5 as ->. apply socks_sound in H as (-> & input & E & H); [|done].
    exists input. split; [done|]. by left.
  - inv_run. apply http_sound in H as (input & sent & E2 & H & ->); [|done]. exists input. split; [done|]. right. by eauto.
Qed.
Lemma handshake_complete c input r out up as_ d p : request_protocol c input d p →
  ∃ out', handshake c (mkConn (input ++ r) out true as_ up) = (Ok (d, p), mkConn r out' true as_ up).
Proof.
  unfold handshake. intros [[H ->]|(sent & H & ->)].
  - inversion H; subst. cbn [app]. erewrite run_bind by done. cbn [Z.eqb Pos.eqb].
    unfold set_incoming. cbn [incoming outgoing writable asked upstream].
    rewrite app_comm_cons. by apply socks_complete.
  - assert (∃ first input', input = first :: input' ∧ is_ascii_uppercase first = true) as (first & input' & -> & Hf).
    { assert (is_header input) as ((first & l & -> & ?) & _) by by inversion H. by eauto. }
    cbn [app]. erewrite run_bind by done. unfold set_incoming. cbn [incoming outgoing writable asked upstream].
    destruct (first =? 5) eqn:E5; [apply Z.eqb_eq in E5 as ->; done|].
    erewrite run_bind by (unfold lift; rewrite ensure_true by done; done). erewrite http_complete by done. by eexists.
Qed.
Definition relay (p : Protocol) (s : Conn) : Conn :=
  match p with Http request => forward request s | _ => s end.
Lemma session_failed c connects s r s' : handshake c s = (r, s') → is_ok r = false →
  asked (session c connects s).2 = asked s ∧ upstream (session c connects s).2 = upstream s.
Proof.
  intros E Hr. pose proof (quiet_handshake c s) as Hq. rewrite E in Hq. unfold session, mbindM. rewrite E. by destruct r.
Qed.
Lemma session_asks c connects s d p s' : handshake c s = (Ok (d, p), s') →
  asked (session c connects s).2 = d :: asked s ∧
  upstream (session c connects s).2 = (if connects d then upstream (relay p s) else upstream s).
Proof.
  intros E. pose proof (quiet_handshake c s) as [Ha Hu]. rewrite E in Ha, Hu. cbn [snd] in *.
  unfold session. erewrite run_bind by done. cbv beta match. erewrite run_bind by done.
  destruct (connects d), p; cbn; unfold mbindM, write_all; cbn; try (by destruct (writable s'); cbn; rewrite ?Ha, ?Hu).
Qed.

(** ** Lines *)

Fixpoint has_crlf (s : string) : bool :=
  match s with
  | String a r => bool_decide (a = CR) && str_starts_with (String LF "") r || has_crlf r
  | EmptyString => false
  end.
Lemma starts_lf a s : str_starts_with (String LF "") (String a s) = bool_decide (a = LF).
Proof. unfold str_starts_with. cbn [strip_prefix]. by do 2 case_bool_decide; subst. Qed.
Lemma split_crlf_cons a b s : split_crlf (String a (String b s)) =
  if bool_decide (a = CR) && bool_decide (b = LF) then "" :: split_crlf s
  else match split_crlf (String b s) with f :: fs => String a f :: fs | [] => [String a ""] end.
Proof. done. Qed.
Lemma split_crlf_nonempty s : split_crlf s ≠ [].
Proof. destruct s as [|a [|b s]]; [done..|]. rewrite split_crlf_cons. by repeat case_match. Qed.
Lemma string_strong_ind (P : string → Prop) :
  P "" → (∀ a, P (String a "")) → (∀ a b s, P s → P (String b s) → P (String a (String b s))) → ∀ s, P s.
Proof.
  intros H0 H1 H2 s. assert (P s ∧ ∀ a, P (String a s)) as [H _]; [|done].
  induction s as [|b s [IH1 IH2]]; [done|]. split; [done|]. intros a. by apply H2.
Qed.
Lemma split_crlf_first s f fs : split_crlf s = f :: fs → ∃ q, s = f +:+ q.
Proof.
  revert f fs. induction s as [|a|a b s _ IH] using string_strong_ind; intros f fs H.
  - injection H as <- <-. by exists "".
  - injection H as <- <-. by exists "".
  - rewrite split_crlf_cons in H. destruct (_ && _); [injection H as <- <-; by eexists|].
    destruct (split_crlf (String b s)) as [|f' fs'] eqn:E; [by apply split_crlf_nonempty in E|].
    injection H as <- <-. destruct (IH _ _ eq_refl) as [q ->]. by exists q.
Qed.
Lemma split_crlf_parts s : Forall (λ w, has_crlf w = false) (split_crlf s).
Proof.
  induction s as [|a|a b s IH1 IH2] using string_strong_ind; [by repeat constructor| |].
  { constructor; [|done]. cbn. by rewrite andb_false_r. }
  rewrite split_crlf_cons. destruct (_ && _) eqn:E; [by constructor|].
  destruct (split_crlf (String b s)) as [|f fs] eqn:Es; [by apply split_crlf_nonempty in Es|].
  apply Forall_cons in IH2 as [Hf Hfs]. constructor; [|done]. cbn [has_crlf]. rewrite Hf, orb_false_r.
  apply split_crlf_first in Es as [q Eq]. destruct f as [|b' f]; [by rewrite andb_false_r|].
  injection Eq as <- _. by rewrite starts_lf.
Qed.
Lemma split_crlf_line w s : has_crlf w = false → split_crlf (w +:+ CRLF +:+ s) = w :: split_crlf s.
Proof.
  induction w as [|a w IH]; intros H; [done|]. cbn [has_crlf] in H. apply orb_false_iff in H as [Ha Hw].
  assert (∃ b r, w +:+ CRLF +:+ s = String b r ∧ bool_decide (a = CR) && bool_decide (b = LF) = false) as (b & r & Er & Hb).
  { destruct w as [|b w]; [by exists CR, (String LF s); rewrite andb_false_r|]. rewrite starts_lf in Ha. by eexists _, _. }
  change (split_crlf (String a (w +:+ CRLF +:+ s)) = String a w :: split_crlf s).
  rewrite Er, split_crlf_cons, Hb, <- Er, IH; done.
Qed.
Lemma str_cons_app a s t : String a s +:+ t = String a (s +:+ t).
Proof. done. Qed.
Lemma has_crlf_app_l s t : has_crlf (s +:+ t) = false → has_crlf s = false.
Proof.
  induction s as [|a s IH]; [done|]. cbn [has_crlf String.append]. intros [Ha Hs]%orb_false_iff. rewrite IH, orb_false_r by done.
  destruct s as [|b s]; [by rewrite andb_false_r|]. cbn [String.append] in Ha. by rewrite starts_lf in *.
Qed.
Lemma has_crlf_app_r s t : has_crlf (s +:+ t) = false → has_crlf t = false.
Proof. induction s as [|a s IH]; [done|]. cbn [has_crlf String.append]. intros [_ H]%orb_false_iff. auto. Qed.
Lemma has_crlf_join s a t : a ≠ CR → a ≠ LF → has_crlf s = false → has_crlf t = false → has_crlf (s +:+ String a t) = false.
Proof.
  intros Hc Hl. induction s as [|b s IH]; intros Hs Ht; rewrite ?str_cons_app; cbn [has_crlf] in *.
  { change (has_crlf (String a t) = false). cbn [has_crlf]. by rewrite bool_decide_false. }
  apply orb_false_iff in Hs as [Hb Hs]. rewrite IH, orb_false_r by done.
  destruct s as [|b' s]; [change ("" +:+ String a t) with (String a t)|rewrite str_cons_app]; rewrite starts_lf in *; [|done]. by rewrite (bool_decide_false (a = LF)), andb_false_r.
Qed.

Lemma words_sub chars : ∀ word w, w ∈ words word chars → ∃ p q, word +:+ String.concat "" chars = p +:+ (w +:+ q).
Proof.
  induction chars as [|c chars IH]; intros word w Hw; cbn [words] in Hw.
  - destruct (str_is_empty word); [by apply elem_of_nil in Hw|]. apply list_elem_of_singleton in Hw as ->. by exists "", "".
  - rewrite str_concat_cons. case_bool_decide.
    + assert (w ∈ words "" chars ∨ w = word) as [Hw'| ->].
      { destruct (str_is_empty word); [by left|]. apply elem_of_cons in Hw as [->|]; [by right|by left]. }
      * apply IH in Hw' as (p & q & E). change ("" +:+ ?x) with x in E. rewrite E. exists (word +:+ c +:+ p), q. by rewrite !str_app_assoc.
      * by eexists "", _.
    + apply IH in Hw as (p & q & E). rewrite str_app_assoc in E. eauto.
Qed.
Lemma split_whitespace_crlf s w : has_crlf s = false → w ∈ split_whitespace s → has_crlf w = false.
Proof.
  intros Hs Hw. apply words_sub in Hw as (p & q & E). change ("" +:+ ?x) with x in E. rewrite (chars_concat s) in Hs.
  change (chars_from s).2 with (str_chars s) in Hs. rewrite E in Hs. by eapply has_crlf_app_l, has_crlf_app_r, has_crlf_app_r.
Qed.
Lemma split_target_app s : s = (split_target s).1 +:+ (split_target s).2.
Proof.
  induction s as [|a s IH]; [done|]. cbn [split_target]. destruct (_ || _); [done|]. cbn [fst snd].
  by rewrite str_cons_app, <- IH.
Qed.
Lemma path_crlf target name port_ path : has_crlf target = false → absolute_form target = Ok (name, port_, path) →
  has_crlf path = false.
Proof.
  unfold absolute_form. intros Ht H. res_inv. apply strip_prefix_spec in E as ->. apply has_crlf_app_r in Ht.
  rewrite (split_target_app v) in Ht. destruct (split_target v) as [h rest]. cbn in Ht. apply has_crlf_app_r in Ht. res_inv.
  destruct (str_is_empty rest); [done|]. by destruct (str_starts_with _ rest).
Qed.
Lemma split_crlf_lines ls s : Forall (λ w, has_crlf w = false) ls →
  split_crlf (String.concat "" (map crlf ls) +:+ s) = ls ++ split_crlf s.
Proof.
  induction 1 as [|l ls Hl Hls IH]; [done|]. cbn [map app]. rewrite str_concat_cons. unfold crlf at 1.
  rewrite !str_app_assoc, split_crlf_line, IH; done.
Qed.
Lemma forwarded_lines method target version d path lines text request :
  split_crlf text = request :: lines → split_whitespace request = [method; target; version] →
  target_of method target d (Some path) →
  split_crlf (forwarded method path version (List.filter kept lines)) =
    (method +:+ " " +:+ path +:+ " " +:+ version) :: List.filter kept lines ++ ["Connection: close"; ""; ""].
Proof.
  intros Hs Hw Ht. pose proof (split_crlf_parts text) as Hp. rewrite Hs in Hp. apply Forall_cons in Hp as [Hr Hl].
  assert (∀ w, w ∈ [method; target; version] → has_crlf w = false) as Hno.
  { intros w Hin. rewrite <- Hw in Hin. by eapply split_whitespace_crlf. }
  assert (has_crlf path = false) as Hpath. { inversion Ht; subst. eapply path_crlf; [|done]. apply Hno. set_solver. }
  unfold forwarded. set (line := method +:+ " " +:+ path +:+ " " +:+ version). unfold crlf at 1.
  assert (has_crlf line = false) as Hline.
  { apply has_crlf_join; [done..|apply Hno; set_solver|]. apply has_crlf_join; [done..|apply Hno; set_solver]. }
  rewrite str_app_assoc, split_crlf_line by done. f_equal. rewrite split_crlf_lines; [done|].
  apply Forall_forall. intros l [Hin _]%list_elem_of_In%filter_In. rewrite Forall_forall in Hl. by apply Hl, list_elem_of_In.
Qed.

(** C36. The proxy asks for a destination exactly when the bytes of the client begin with a
    complete request for it, in SOCKS5 or in HTTP, that carries the credentials, for a
    client whose end of the connection takes the replies of the exchange; any other
    client reaches nobody. *)
Theorem proxy_requests c connects s d : bytes_ok (incoming s) → writable s = true → asked s = [] →
  d ∈ asked (session c connects s).2 ↔ ∃ input rest sent, incoming s = input ++ rest ∧ requests c input d sent.
Proof.
  intros Hb Hw Ha. split.
  - destruct (handshake c s) as [r s'] eqn:E. destruct r as [[d' p]| |].
    2, 3: destruct (session_failed c connects s _ s' E eq_refl) as [-> _]; rewrite Ha; by intros ?%elem_of_nil.
    destruct (session_asks c connects s _ _ _ E) as [-> _]. rewrite Ha. intros ->%list_elem_of_singleton.
    apply handshake_sound in E as (input & -> & [[H _]|(sent & H & _)]); [..|done]; unfold requests; by eauto 7.
  - intros (input & rest & sent & Hi & H). destruct s as [inc out w as_ up]. cbn in *. subst.
    assert (∃ p, request_protocol c input d p) as [p Hp] by (destruct H as [[H _]|H]; eexists; [by left|right; by eauto]).
    destruct (handshake_complete c input rest out up [] d p Hp) as [out' E].
    destruct (session_asks c connects _ _ _ _ E) as [-> _]. by left.
Qed.

(** C37. What is forwarded of an HTTP request: one line made of its method, the path of its
    target and its version, the client's header lines in their order except for the
    credentials and the connection headers, and the end of the header. *)
Theorem forwarded_request c connects s : bytes_ok (incoming s) → upstream s = [] →
  upstream (session c connects s).2 ≠ [] →
  ∃ header rest text request lines method target version path d,
    incoming s = header ++ rest ∧ is_header header ∧ from_utf8 header = Some text ∧ split_crlf text = request :: lines ∧
    split_whitespace request = [method; target; version] ∧ target_of method target d (Some path) ∧
    upstream (session c connects s).2 = bytes_of (forwarded method path version (List.filter kept lines)) ∧
    split_crlf (forwarded method path version (List.filter kept lines)) =
      (method +:+ " " +:+ path +:+ " " +:+ version) :: List.filter kept lines ++ ["Connection: close"; ""; ""] ∧
    Forall (λ line, named "proxy-authorization" line = false) (List.filter kept lines).
Proof.
  intros Hb Hu Hne. destruct (handshake c s) as [r s'] eqn:E. destruct r as [[d p]| |].
  2, 3: by destruct (session_failed c connects s _ s' E eq_refl) as [_ E']; rewrite E', Hu in Hne.
  destruct (session_asks c connects s _ _ _ E) as [_ Eu]. destruct (connects d); [|by rewrite Eu in Hne].
  apply handshake_sound in E as (input & Ei & [[_ ->]|(sent & H & ->)]); [by rewrite Eu in Hne| |done].
  inversion H as [header text request lines method target version line d' path Hh Ht Hs Hw Hv Hwf Hf Ha Hd]; subst.
  destruct path as [path|]; [|by rewrite Eu in Hne]. cbn in Eu. rewrite Hu in Eu.
  exists input, (incoming s'), text, request, lines, method, target, version, path, d.
  split_and!; try done; [by eapply forwarded_lines|]. apply Forall_forall. intros l Hl.
  apply list_elem_of_In, filter_In in Hl as [_ Hk]. unfold kept in Hk. split_guard. done.
Qed.
End http_lemmas.

(** ** Networks *)

Definition in_network (ip : ipv4) (network : ipv4 * Z) : Prop :=
  ip / 2 ^ (32 - network.2) = network.1 / 2 ^ (32 - network.2).
(** Never reached: this host, shared and loopback addresses, link-local with the metadata
    services, multicast and reserved. *)
Definition CLOSED : list (ipv4 * Z) :=
  [(ipv4_new 0 0 0 0, 8); (ipv4_new 100 64 0 0, 10); (ipv4_new 127 0 0 0, 8); (ipv4_new 169 254 0 0, 16);
   (ipv4_new 224 0 0 0, 3)].
Definition LAN : list (ipv4 * Z) :=
  [(ipv4_new 10 0 0 0, 8); (ipv4_new 172 16 0 0, 12); (ipv4_new 192 168 0 0, 16)].

Lemma network_digits ip : u32 ip → ∃ a b r, 0 ≤ a < 256 ∧ 0 ≤ b < 256 ∧ 0 ≤ r < 2 ^ 16 ∧
  ip = a * 2 ^ 24 + b * 2 ^ 16 + r ∧ octet 0 ip = a ∧ octet 1 ip = b ∧ ip / 2 ^ 24 = a ∧ ip / 2 ^ 22 = a * 4 + b / 64 ∧ ip / 2 ^ 20 = a * 16 + b / 16 ∧
  ip / 2 ^ 16 = a * 256 + b ∧ ip / 2 ^ 29 = a / 32.
Proof.
  intros [Hl Hu]. exists (ip / 2 ^ 24), (ip / 2 ^ 16 mod 2 ^ 8), (ip mod 2 ^ 16). unfold octet.
  change (256 ^ (3 - 0)) with (2 ^ 24). change (256 ^ (3 - 1)) with (2 ^ 16). split_and!; try zlia.
Qed.
(** The IPv4 addresses a proxy may connect to, as networks. *)
Theorem permitted_networks ip allow_lan overlay : u32 ip →
  permitted (V4 ip) allow_lan overlay = true ↔
    V4 ip ∉ overlay ∧ Forall (λ n, ¬ in_network ip n) CLOSED ∧
    (allow_lan = true ∨ Forall (λ n, ¬ in_network ip n) LAN).
Proof.
  intros Hip. destruct (network_digits ip Hip) as (a & b & r & Ha & Hb & Hr & Eip & E0 & E1 & D8 & D10 & D12 & D16 & D3).
  unfold permitted. cbn [to_canonical]. case_bool_decide as Ho; [naive_solver|].
  rewrite !andb_true_iff, orb_true_iff, !negb_true_iff.
  unfold CLOSED, LAN, in_network, is_unspecified, is_loopback, is_link_local, is_broadcast, is_private.
  rewrite !Forall_cons, !Forall_nil. cbn [fst snd].
  change (32 - 8) with 24. change (32 - 10) with 22. change (32 - 12) with 20. change (32 - 16) with 16. change (32 - 3) with 29.
  rewrite E0, E1, D8, D10, D12, D16, D3.
  repeat match goal with |- context [ipv4_new ?w ?x ?y ?z / ?n] =>
    let v := eval vm_compute in (ipv4_new w x y z / n) in change (ipv4_new w x y z / n) with v end.
  clear E0 E1 D8 D10 D12 D16 D3 Hip.
  assert (a * 4 + b / 64 = 401 ↔ a = 100 ∧ 64 ≤ b ≤ 127) as -> by zlia.
  assert (a / 32 = 7 ↔ 224 ≤ a) as -> by zlia.
  assert (a * 16 + b / 16 = 2753 ↔ a = 172 ∧ 16 ≤ b ≤ 31) as -> by zlia.
  assert (a * 256 + b = 43518 ↔ a = 169 ∧ b = 254) as -> by lia.
  assert (a * 256 + b = 49320 ↔ a = 192 ∧ b = 168) as -> by lia.
  assert ((ip =? 0) = false ↔ ip ≠ 0) as -> by lia. assert ((ip =? 2 ^ 32 - 1) = false ↔ ip ≠ 2 ^ 32 - 1) as -> by lia.
  assert (a ≠ 0 → ip ≠ 0) by lia. assert (a < 224 → ip ≠ 2 ^ 32 - 1) by lia.
  assert (∀ p q : bool, p && q = false ↔ ¬ (p = true ∧ q = true)) as Hand by (intros [] []; naive_solver).
  rewrite !orb_false_iff, <- !andb_assoc, !Hand, !andb_true_iff, !Z.eqb_eq, !Z.leb_le, !Z.ltb_lt, !Z.eqb_neq.
  assert (¬ 224 ≤ a ↔ a < 224) as -> by lia. clear Eip Ha Hb Hr Hand. tauto.
Qed.

(** ** Examples *)

Module Samples.
(** Credentials sent in the clear. *)
#[export] Instance sample_base64 : Base64 := { base64_decode s := Some (bytes_of s) }.
Definition sample_credentials : Credentials := mkCredentials "user" "a-long-random-session-secret".
Definition sample_get : list Z := bytes_of (
  crlf "GET http://example.com:8080/path?q=1 HTTP/1.1" +:+ crlf "Host: example.com" +:+
  crlf "Proxy-Authorization: Basic user:a-long-random-session-secret" +:+ crlf "Authorization: Bearer key" +:+
  crlf "Proxy-Connection: keep-alive" +:+ CRLF).
Definition sample_socks : list Z :=
  [5; 2; 0; 2; 1; 4] ++ bytes_of "user" ++ [28] ++ bytes_of "a-long-random-session-secret" ++
  [5; 1; 0; 3; 11] ++ bytes_of "example.com" ++ [1; 187; 7; 7].
Definition sample_conn (input : list Z) : Conn := mkConn input [] true [] [].
Definition sample_forwarded : string :=
  crlf "GET /path?q=1 HTTP/1.1" +:+ crlf "Host: example.com" +:+ crlf "Authorization: Bearer key" +:+
  crlf "Connection: close" +:+ CRLF.

Example sample_upstream : upstream (session sample_credentials (λ _, true) (sample_conn sample_get)).2 = bytes_of sample_forwarded.
Proof. by_vm. Qed.
Example sample_asked : asked (session sample_credentials (λ _, true) (sample_conn sample_socks)).2 = [mkDestination "example.com" 443].
Proof. by_vm. Qed.
Example sample_refused : asked (session (mkCredentials "user" "another-long-random-secret") (λ _, true) (sample_conn sample_socks)).2 = [].
Proof. by_vm. Qed.

Lemma bytes_of_ok s : bytes_ok (bytes_of s).
Proof.
  apply Forall_forall. intros b. unfold bytes_of. rewrite list_elem_of_fmap. intros (a & -> & _).
  unfold u8. pose proof (N_ascii_bounded a). lia.
Qed.
Lemma proxy_requests_witness : ∃ input rest sent,
  incoming (sample_conn sample_socks) = input ++ rest ∧ requests sample_credentials input (mkDestination "example.com" 443) sent.
Proof.
  apply (proxy_requests sample_credentials (λ _, true) (sample_conn sample_socks) (mkDestination "example.com" 443));
    [|done..|rewrite sample_asked; by left].
  repeat (apply bytes_ok_app; split); repeat constructor; try done; apply bytes_of_ok.
Defined.
Lemma forwarded_request_witness : ∃ header rest text request lines method target version path d,
  incoming (sample_conn sample_get) = header ++ rest ∧ is_header header ∧ from_utf8 header = Some text ∧
  split_crlf text = request :: lines ∧
  split_whitespace request = [method; target; version] ∧ target_of method target d (Some path) ∧
  bytes_of sample_forwarded = bytes_of (forwarded method path version (List.filter kept lines)) ∧
  split_crlf (forwarded method path version (List.filter kept lines)) =
    (method +:+ " " +:+ path +:+ " " +:+ version) :: List.filter kept lines ++ ["Connection: close"; ""; ""] ∧
  Forall (λ line, named "proxy-authorization" line = false) (List.filter kept lines).
Proof.
  rewrite <- sample_upstream.
  apply (forwarded_request sample_credentials (λ _, true) (sample_conn sample_get)); [apply bytes_of_ok|done|].
  rewrite sample_upstream. done.
Defined.
End Samples.
