(* ===== verification/ProxyGrants.v ===== *)
(** * Shared proxy grants ([porthub-api/src/application_proxy.rs])

    A grant lets the machines it lists connect to destinations through the gateway or
    through another machine.  [authorize] decides from the database whether a credential may
    use a grant now; [open] connects a gateway stream; [acquire] and [release] are the
    capacity all streams share.

    The documents are records of the fields that are read.  Each query of [authorize] sees
    the database as it is at that moment, so the function takes a sequence of snapshots,
    one per query; a query may fail. *)

From S2P Require Import Prelude Net RustStr Text Egress.
Local Open Scope string_scope.
Local Open Scope list_scope.
Local Open Scope Z_scope.

(** ** Documents *)

Inductive Bson := ObjectId (hex : string) | BString (s : string) | BOther (n : Z).
#[global] Instance bson_eq_dec : EqDecision Bson.
Proof. solve_decision. Defined.
(** [store::id], and [get_object_id] without its error. *)
Definition store_id (value : option Bson) : string :=
  match value with Some (ObjectId hex) => hex | Some (BString s) => s | _ => "" end.
Definition get_object_id (value : option Bson) : option string :=
  match value with Some (ObjectId hex) => Some hex | _ => None end.

Record Peer := mkPeer {
  p_id : string; p_hash : string; p_enabled : bool; p_workspace : option Bson; p_machine : option Bson;
  p_owner : option Bson; p_instance : string; p_fingerprint : string; p_application_proxy : bool; p_ip : string }.
(** [m_active] says that the machine is enabled, not being deleted and not revoked. *)
Record Machine := mkMachine { m_id : option Bson; m_user : option Bson; m_active : bool }.
Record Member := mkMember { w_workspace : option Bson; w_user : option Bson; w_role : string }.
Record Grant := mkGrant {
  g_id : string; g_workspace : string; g_enabled : bool; g_clients : list string; g_kind : option string;
  g_target : option Bson; g_allow_lan : bool; g_gateway_lan : bool }.
(** [retiring] is what [retiring_owners] finds. *)
Record Db := mkDb {
  retiring : list Bson; peers : list Peer; machines : list Machine; members : list Member; grants : list Grant }.

(** Queries of the database, [ObjectId::parse_str] and SHA-256 in hexadecimal. *)
Class GrantLibs := {
  find_one : ∀ {A}, (A → bool) → list A → option A;
  find_all : ∀ {A}, (A → bool) → list A → list A;
  parse_object_id : string → option string;
  token_digest : string → string }.
Class GrantLibsOk (L : GrantLibs) : Prop := {
  find_one_some {A} (f : A → bool) l x : find_one f l = Some x → x ∈ l ∧ f x = true;
  find_one_none {A} (f : A → bool) l x : find_one f l = None → x ∈ l → f x = false;
  find_all_spec {A} (f : A → bool) l x : x ∈ find_all f l ↔ x ∈ l ∧ f x = true }.

Section grants.
Context {L : GrantLibs}.

(** ** Authorization *)

Record Binding := mkBinding { b_id : string; b_instance : string; b_fingerprint : string }.
#[global] Instance binding_eq_dec : EqDecision Binding.
Proof. solve_decision. Defined.
Record Authorization := mkAuthorization {
  allow_lan : bool; target_machine : option string; target_peer : option Binding; overlay : list IpAddr }.

Definition denied : string := "Shared proxy permission is unavailable or revoked".
(** [private_sync::active]: the enabled peers of a workspace whose owner is a member and
    owns the active machine; the queries from number [k] on. *)
Definition active (db : nat → res Db) (k : nat) (owner : string) : res (list Peer) :=
  let! s := db k in
  let retired := retiring s in
  if bool_decide (ObjectId owner ∈ retired) then Ok []
  else
    let! s := db (k + 1)%nat in
    let found := find_all (λ p, bool_decide (p_workspace p = Some (ObjectId owner)) &&
      match p_owner p with Some o => negb (bool_decide (o ∈ retired)) | None => true end && p_enabled p) (peers s) in
    let ids := omap p_machine found in
    let! s := db (k + 2)%nat in
    let inventory := find_all (λ m, match m_id m with Some id => bool_decide (id ∈ ids) | None => false end && m_active m)
      (machines s) in
    let! s := db (k + 3)%nat in
    let joined := find_all (λ w, bool_decide (w_workspace w = Some (ObjectId owner)) &&
      bool_decide (w_role w ∈ ["member"; "admin"])) (members s) in
    let valid := owner :: map (λ w, store_id (w_user w)) joined in
    Ok (List.filter (λ p, bool_decide (store_id (p_owner p) ∈ valid) &&
          match List.find (λ m, bool_decide (store_id (m_id m) = store_id (p_machine p))) (rev inventory) with
          | Some m => bool_decide (m_user m = p_owner p)
          | None => false
          end) found).
Definition target_binding (active : list Peer) (machine : string) : res Binding :=
  let! peer := ok_or (List.find (λ p, bool_decide (store_id (p_machine p) = machine)) active) denied in
  ensure! p_application_proxy peer else denied in
  ensure! negb (str_is_empty (p_instance peer)) && negb (str_is_empty (p_fingerprint peer)) else denied in
  Ok (mkBinding (p_id peer) (p_instance peer) (p_fingerprint peer)).
Definition grant_target (active : list Peer) (machine : string) (record : Grant) : res (option string) :=
  if bool_decide (g_kind record = Some "gateway") then Ok None
  else if bool_decide (g_kind record = Some "machine") then
    let! target := ok_or (get_object_id (g_target record)) denied in
    ensure! negb (bool_decide (target = machine)) &&
            existsb (λ p, bool_decide (get_object_id (p_machine p) = Some target)) active else denied in
    Ok (Some target)
  else Err denied.
Definition QUERIES : nat := 6.
Definition authorize (db : nat → res Db) (grant peer_id token : string) : res Authorization :=
  ensure! (slen peer_id <=? 60) && ((32 <=? slen token) && (slen token <=? 200)) else denied in
  let! grant := ok_or (parse_object_id grant) "Invalid proxy grant" in
  let! s := db 0%nat in
  let! peer := ok_or (find_one (λ p, bool_decide (p_id p = peer_id) &&
    bool_decide (p_hash p = token_digest token) && p_enabled p) (peers s)) denied in
  let! workspace := ok_or (get_object_id (p_workspace peer)) denied in
  let! active := active db 1 workspace in
  let! current := ok_or (List.find (λ p, bool_decide (p_id p = peer_id)) active) denied in
  let! machine := ok_or (get_object_id (p_machine current)) denied in
  let! s := db 5%nat in
  let! record := ok_or (find_one (λ g, bool_decide (g_id g = grant) && bool_decide (g_workspace g = workspace) &&
    g_enabled g && bool_decide (machine ∈ g_clients g)) (grants s)) denied in
  let! target_machine := grant_target active machine record in
  ensure! negb (bool_decide (target_machine = None) && g_allow_lan record && negb (g_gateway_lan record)) else denied in
  let! target_peer := match target_machine with
                      | Some machine => let! b := target_binding active machine in Ok (Some b)
                      | None => Ok None
                      end in
  Ok (mkAuthorization (g_allow_lan record) target_machine target_peer (omap (λ p, parse_ip (p_ip p)) active)).

(** [credentials] on the two headers. *)
Definition credentials (peer authorization : option string) : res (string * string) :=
  let! peer := ok_or peer denied in
  let! token := ok_or (authorization ≫= strip_prefix "Bearer ") denied in
  ensure! negb (str_is_empty peer) && (slen peer <=? 60) && ((32 <=? slen token) && (slen token <=? 200)) else denied in
  Ok (peer, token).

(** ** Gateway streams *)

(** The lookup gives addresses or fails; [connects] says which of them answer in time. *)
Fixpoint first_connected (connects : IpAddr → bool) (addresses : list IpAddr) : option IpAddr :=
  match addresses with
  | [] => None
  | a :: addresses => if connects a then Some a else first_connected connects addresses
  end.
Definition open (host : string) (port : Z) (auth : Authorization) (lookup_host : Destination → option (list IpAddr))
    (connects : IpAddr → bool) : res IpAddr :=
  match destination_new host port with
  | Ok target =>
      let! addresses := ok_or (lookup_host target) "Proxy destination lookup failed" in
      let addresses := take 32 addresses in
      ensure! negb (bool_decide (addresses = [])) &&
              forallb (λ a, permitted a (allow_lan auth) (overlay auth)) addresses
        else "Proxy destination is outside this grant" in
      ok_or (first_connected connects addresses) "Proxy destination is unavailable"
  | _ => Err "Invalid proxy destination"
  end.

(** ** Capacity *)

(** The free permits of all grants, and the permits in use of each grant; the semaphore of a
    grant lives as long as one of its permits does. *)
Record Capacity := mkCapacity { global : Z; used : gmap string Z }.
Definition capacity_default : Capacity := mkCapacity 256 ∅.
Definition busy : string := "Shared proxy capacity is in use".
Definition acquire (grant : string) (c : Capacity) : res unit * Capacity :=
  let grant := to_ascii_lowercase grant in
  if global c =? 0 then (Err busy, c)
  else
    let used := filter (λ '(_, n), 0 < n) (used c) in
    let n := default 0 (used !! grant) in
    if 64 <=? n then (Err busy, mkCapacity (global c) used)
    else (Ok tt, mkCapacity (global c - 1) (<[grant := n + 1]> used)).
(** Dropping the two permits. *)
Definition release (grant : string) (c : Capacity) : Capacity :=
  mkCapacity (global c + 1) (alter (λ n, n - 1) (to_ascii_lowercase grant) (used c)).

(** ** What an authorization means *)

(** What [active] lists: an enabled peer of the workspace, whose machine is active and of
    the peer's owner, who is not retiring and is the workspace's owner or a member. *)
Definition member_of (db : nat → res Db) (k : nat) (workspace : string) (p : Peer) : Prop :=
  ∃ s0 s1 s2 s3, db k = Ok s0 ∧ db (k + 1)%nat = Ok s1 ∧ db (k + 2)%nat = Ok s2 ∧ db (k + 3)%nat = Ok s3 ∧
    ObjectId workspace ∉ retiring s0 ∧ (∀ o, p_owner p = Some o → o ∉ retiring s0) ∧
    p ∈ peers s1 ∧ p_enabled p = true ∧ p_workspace p = Some (ObjectId workspace) ∧
    (∃ m, m ∈ machines s2 ∧ m_active m = true ∧ store_id (m_id m) = store_id (p_machine p) ∧ m_user m = p_owner p) ∧
    (store_id (p_owner p) = workspace ∨
     ∃ w, w ∈ members s3 ∧ w_workspace w = Some (ObjectId workspace) ∧ w_role w ∈ ["member"; "admin"] ∧
       store_id (w_user w) = store_id (p_owner p)).
(** A credential is that of an enabled peer that is active in the workspace of an enabled
    grant, its machine is a client of the grant, and the target is the gateway or another
    machine, whose active peer offers itself; the local network of the gateway needs the
    administrator's mark.  The overlay is that of the active peers. *)
Record granted (db : nat → res Db) (grant peer_id token : string) (a : Authorization) : Prop := {
  gr_peer : ∃ s p, db 0%nat = Ok s ∧ p ∈ peers s ∧ p_id p = peer_id ∧ p_hash p = token_digest token ∧ p_enabled p = true;
  gr_record : ∃ s g machine current, db 5%nat = Ok s ∧ g ∈ grants s ∧ parse_object_id grant = Some (g_id g) ∧ g_enabled g = true ∧
    member_of db 1 (g_workspace g) current ∧ p_id current = peer_id ∧ p_machine current = Some (ObjectId machine) ∧
    machine ∈ g_clients g ∧
    (∃ l, Forall (member_of db 1 (g_workspace g)) l ∧ active db 1 (g_workspace g) = Ok l ∧
       overlay a = omap (λ p, parse_ip (p_ip p)) l) ∧
    allow_lan a = g_allow_lan g ∧
    match target_peer a with
    | None => g_kind g = Some "gateway" ∧ target_machine a = None ∧ (allow_lan a = true → g_gateway_lan g = true)
    | Some b =>
        g_kind g = Some "machine" ∧ ∃ target p, target_machine a = Some target ∧ g_target g = Some (ObjectId target) ∧
        target ≠ machine ∧ member_of db 1 (g_workspace g) p ∧ store_id (p_machine p) = target ∧
        p_application_proxy p = true ∧ b = mkBinding (p_id p) (p_instance p) (p_fingerprint p)
    end }.

Context {LO : GrantLibsOk L}.
Lemma find_bool {A} (f : A → bool) l x : List.find f l = Some x → x ∈ l ∧ f x = true.
Proof. intros [H1 H2]%find_some. split; [by apply list_elem_of_In|done]. Qed.
Lemma active_members db k owner l p : active db k owner = Ok l → p ∈ l → member_of db k owner p.
Proof.
  unfold active. intros H Hp. apply rbind_ok in H as (s0 & E0 & H).
  case_bool_decide as Hr; [injection H as <-; by apply elem_of_nil in Hp|].
  apply rbind_ok in H as (s1 & E1 & H). apply rbind_ok in H as (s2 & E2 & H). apply rbind_ok in H as (s3 & E3 & H).
  injection H as <-. apply list_elem_of_In, filter_In in Hp as [Hp Hv]. apply list_elem_of_In, find_all_spec in Hp as [Hp Hf].
  rewrite !andb_true_iff, bool_decide_eq_true in Hf. destruct Hf as [[Hw Ho] He].
  apply andb_true_iff in Hv as [Hv%bool_decide_eq_true Hm].
  exists s0, s1, s2, s3. split_and!; try done.
  - intros o Eo. rewrite Eo in Ho. by apply negb_true_iff, bool_decide_eq_false in Ho.
  - destruct (List.find _ _) as [m|] eqn:Em; [|done]. apply find_bool in Em as [Hin Hid].
    apply list_elem_of_In, in_rev, list_elem_of_In, find_all_spec in Hin as [Hin Ha].
    apply andb_true_iff in Ha as [_ Ha]. apply bool_decide_eq_true in Hid, Hm. by exists m.
  - apply elem_of_cons in Hv as [Hv|Hv]; [by left|right].
    apply list_elem_of_fmap in Hv as (w & Hv & Hin). apply find_all_spec in Hin as [Hin Hf].
    rewrite andb_true_iff, !bool_decide_eq_true in Hf. destruct Hf. by exists w.
Qed.
Lemma grant_target_some active machine g target : grant_target active machine g = Ok (Some target) →
  g_kind g = Some "machine" ∧ g_target g = Some (ObjectId target) ∧ target ≠ machine.
Proof.
  unfold grant_target. case_bool_decide; [done|]. case_bool_decide; [|done]. intros H1. res_inv.
  apply andb_true_iff in E0 as [E0 _]. apply negb_true_iff, bool_decide_eq_false in E0.
  destruct (g_target g) as [[]|]; try done. by injection E as ->.
Qed.
Lemma target_binding_ok active machine b : target_binding active machine = Ok b →
  ∃ p, p ∈ active ∧ store_id (p_machine p) = machine ∧ p_application_proxy p = true ∧
       b = mkBinding (p_id p) (p_instance p) (p_fingerprint p).
Proof.
  unfold target_binding. intros H. res_inv. apply find_bool in E as [Hp Hm]. apply bool_decide_eq_true in Hm. eauto.
Qed.
Lemma authorize_granted db grant peer_id token a :
  authorize db grant peer_id token = Ok a → granted db grant peer_id token a.
Proof.
  unfold authorize. intros H. res_inv.
  apply find_one_some in E2 as [Hp Hf]. rewrite !andb_true_iff, !bool_decide_eq_true in Hf. destruct Hf as [[Hid Hh] He].
  apply find_bool in E5 as [Hc Hcid]. apply bool_decide_eq_true in Hcid. apply find_one_some in E8 as [Hg Hf].
  rewrite !andb_true_iff, !bool_decide_eq_true in Hf. destruct Hf as [[[Hgid Hgw] Hge] Hgc].
  subst v0 v3.
  split; [by exists v1, v2|]. exists v7, v8, v6, v5. split_and!; try done.
  - by eapply active_members.
  - destruct (p_machine v5) as [[]|]; try done. by injection E6 as ->.
  - exists v4. split_and!; [|done|done]. apply Forall_forall. intros p' Hp'. by eapply active_members.
  - destruct v9 as [target|].
    + cbn. destruct (target_binding v4 target) as [b| |] eqn:Eb; try done. injection E11 as <-.
      apply grant_target_some in E9 as (Hk & Ht & Hne). apply target_binding_ok in Eb as (p & Hp' & Hm & Ha & ->).
      split; [done|]. exists target, p. split_and!; try done. by eapply active_members.
    + injection E11 as <-. cbn. split_and!; [|done|].
      * clear E10. unfold grant_target in E9. case_bool_decide; [done|]. case_bool_decide; [|done].
        apply rbind_ok in E9 as (x & _ & E9). by apply rbind_ok in E9 as (? & _ & ?).
      * intros Hl. rewrite Hl, bool_decide_true in E10 by done. by destruct (g_gateway_lan v8).
Qed.

Lemma first_connected_in connects l ip : first_connected connects l = Some ip → ip ∈ l.
Proof.
  induction l as [|a l IH]; cbn; [done|]. destruct (connects a); [intros [= <-]; by left|]. intros H. right. auto.
Qed.
Lemma open_permitted host port a lookup_host connects ip : open host port a lookup_host connects = Ok ip →
  permitted ip (allow_lan a) (overlay a) = true.
Proof.
  unfold open. destruct (destination_new host port); [|done..]. intros H. res_inv. apply andb_true_iff in E0 as [_ Hf].
  rewrite forallb_forall in Hf. apply Hf, list_elem_of_In. by eapply first_connected_in.
Qed.

(** ** Capacity *)

(** With [held] the permits in use, as grants in lower case. *)
Record capacity_ok (held : list string) (c : Capacity) : Prop := {
  cap_global : global c = 256 - len held;
  cap_positive : 0 ≤ global c;
  cap_used g : default 0 (used c !! g) = len (List.filter (λ h, bool_decide (h = g)) held);
  cap_bound g : default 0 (used c !! g) ≤ 64 }.
Lemma capacity_default_ok : capacity_ok [] capacity_default.
Proof. split; cbn; [done..| |]; intros g; by rewrite lookup_empty. Qed.
Lemma filter_used (m : gmap string Z) g : (∀ g, 0 ≤ default 0 (m !! g)) →
  default 0 (filter (λ '(_, n), 0 < n) m !! g : option Z) = default 0 (m !! g).
Proof.
  intros Hm. rewrite map_lookup_filter. specialize (Hm g). destruct (m !! g) as [n|]; [|done]. cbn in *.
  case_guard; cbn; [done|]. lia.
Qed.
Lemma used_nonneg held c g : capacity_ok held c → 0 ≤ default 0 (used c !! g).
Proof. intros H. rewrite (cap_used _ _ H). lia. Qed.
Lemma acquire_ok grant held c r c' : capacity_ok held c → acquire grant c = (r, c') →
  capacity_ok (match r with Ok _ => to_ascii_lowercase grant :: held | _ => held end) c'.
Proof.
  intros H. unfold acquire. destruct (global c =? 0) eqn:E0; [by intros [= <- <-]|].
  pose proof (λ g, filter_used (used c) g (λ g, used_nonneg _ _ g H)) as Hf. set (m := filter _ (used c)) in *.
  destruct H as [Hg Hp Hu Hb]. set (k := to_ascii_lowercase grant).
  destruct (64 <=? default 0 (m !! k)) eqn:E; intros [= <- <-].
  - split; cbn; [done..| |]; intros g; by rewrite Hf.
  - split; cbn [global used]; [cbn [length]; lia|lia|..]; intros g; destruct (decide (k = g)) as [->|Hne].
    + rewrite lookup_insert_eq. cbn [default List.filter from_option id]. rewrite bool_decide_true by done. cbn [length].
      rewrite Hf, Hu. lia.
    + rewrite lookup_insert_ne by done. rewrite Hf. cbn [List.filter]. by rewrite bool_decide_false.
    + rewrite lookup_insert_eq. cbn. lia.
    + rewrite lookup_insert_ne by done. by rewrite Hf.
Qed.
Lemma release_ok grant held held' c : held ≡ₚ to_ascii_lowercase grant :: held' → capacity_ok held c →
  capacity_ok held' (release grant c).
Proof.
  intros Hp [Hg H0 Hu Hb]. set (k := to_ascii_lowercase grant) in *.
  assert (∀ g, len (List.filter (λ h, bool_decide (h = g)) held) =
               (if bool_decide (k = g) then 1 else 0) + len (List.filter (λ h, bool_decide (h = g)) held')) as Hlen.
  { intros g. assert (len (List.filter (λ h, bool_decide (h = g)) held) =
      len (List.filter (λ h, bool_decide (h = g)) (k :: held'))) as ->.
    { f_equal. apply Permutation_length. clear -Hp. induction Hp; cbn; repeat case_match; eauto using Permutation. }
    cbn [List.filter]. case_bool_decide; cbn [length]; lia. }
  assert (len held = 1 + len held') as Hl by (rewrite Hp; cbn; lia).
  assert (∀ g, default 0 (alter (λ n, n - 1) k (used c) !! g) = default 0 (used c !! g) - (if bool_decide (k = g) then 1 else 0)) as Ha.
  { intros g. destruct (decide (k = g)) as [<-|Hne].
    - rewrite lookup_alter_eq, bool_decide_true by done. specialize (Hu k). specialize (Hlen k).
      rewrite bool_decide_true in Hlen by done. destruct (used c !! k); cbn in *; lia.
    - rewrite lookup_alter_ne, bool_decide_false by done. lia. }
  split; cbn [global used release]; fold k.
  - lia.
  - lia.
  - intros g. rewrite Ha, Hu, Hlen. case_bool_decide; lia.
  - intros g. rewrite Ha. specialize (Hb g). case_bool_decide; lia.
Qed.
End grants.
