(* ===== verification/PeerProxy.v ===== *)
(** * Shared proxy streams ([porthub-api/src/application_proxy.rs], [peer_proxy.rs])

    The handlers of one gateway as a transition system.  A client's request is authorised,
    takes a permit, and is connected by the gateway itself or waits under a fresh id for the
    machine the grant names; that machine's handler authenticates, authorises the client
    again and reports where it connected.  A stream checks its grant every 15 seconds.  Each
    database query is a step that sees the database of its moment, which may change between
    any two steps; every handler may end at any time.  Time is in milliseconds and does not
    pass while a timer is due.  The copying of bytes is outside. *)

From S2P Require Import Prelude Net RustStr Egress ProxyGrants.
Local Open Scope string_scope.
Local Open Scope list_scope.
Local Open Scope Z_scope.

(** ** The rendezvous *)

Record Context := mkContext {
  c_grant : string; c_client : string; c_token : string; c_target : Binding; c_host : string; c_port : Z }.
(** [n_client] is the handler that holds the receiver of [reply]. *)
Record Pending := mkPending { n_context : Context; n_client : nat; n_expires : Z }.
Record ProviderLease := mkLease { l_binding : Binding; l_hash : string; l_workspace : string; l_expires : Z }.
(** [u_output] holds the ids in the channel of a subscriber; [u_closed] that it was dropped. *)
Record Subscriber := mkSubscriber { u_binding : Binding; u_generation : string; u_output : list string; u_closed : bool }.
Record Hub := mkHub {
  pending : gmap string Pending; providers : gmap string ProviderLease; subscribers : gmap string Subscriber }.
Definition hub_default : Hub := mkHub ∅ ∅ ∅.
Definition set_pending (p : gmap string Pending) (h : Hub) : Hub := mkHub p (providers h) (subscribers h).
Definition set_providers (p : gmap string ProviderLease) (h : Hub) : Hub := mkHub (pending h) p (subscribers h).
Definition set_subscribers (s : gmap string Subscriber) (h : Hub) : Hub := mkHub (pending h) (providers h) s.

Definition unexpired (now : Z) (p : gmap string Pending) : gmap string Pending :=
  filter (λ '(_, e), now < n_expires e) p.
Definition unexpired_leases (now : Z) (p : gmap string ProviderLease) : gmap string ProviderLease :=
  filter (λ '(_, e), now < l_expires e) p.
Definition ready (now : Z) (binding : Binding) (h : Hub) : bool :=
  match providers h !! b_id binding with
  | Some lease => bool_decide (l_binding lease = binding) && (now <? l_expires lease)
  | None => false
  end &&
  match subscribers h !! b_id binding with
  | Some s => bool_decide (u_binding s = binding) && negb (u_closed s)
  | None => false
  end.
Definition jobs (now : Z) (binding : Binding) (h : Hub) : list string * Hub :=
  let pending := unexpired now (pending h) in
  (take 64 (omap (λ '(id, e), if bool_decide (c_target (n_context e) = binding) then Some id else None)
              (map_to_list pending)), set_pending pending h).
Definition publish (now : Z) (binding : Binding) (hash workspace : string) (enabled : bool) (h : Hub) : Hub :=
  let providers := unexpired_leases now (providers h) in
  if negb enabled then set_providers (delete (b_id binding) providers) h
  else if (4096 <=? Z.of_nat (size providers)) && negb (bool_decide (is_Some (providers !! b_id binding)))
  then set_providers providers h
  else set_providers (<[b_id binding := mkLease binding hash workspace (now + 15000)]> providers) h.
Definition provider (now : Z) (peer hash : string) (h : Hub) : option Binding :=
  match providers h !! peer with
  | Some lease => if bool_decide (l_hash lease = hash) && (now <? l_expires lease) then Some (l_binding lease) else None
  | None => None
  end.
Definition invalidate (workspace : string) (h : Hub) : Hub :=
  set_providers (filter (λ '(_, lease), l_workspace lease ≠ workspace) (providers h)) h.
(** [try_send] on a channel of 64. *)
Definition push (id : string) (s : Subscriber) : Subscriber :=
  if u_closed s || (64 <=? len (u_output s)) then s
  else mkSubscriber (u_binding s) (u_generation s) (u_output s ++ [id]) (u_closed s).
Definition wake (id : string) (binding : Binding) (h : Hub) : Hub :=
  match subscribers h !! b_id binding with
  | Some s => if bool_decide (u_binding s = binding) then set_subscribers (<[b_id binding := push id s]> (subscribers h)) h else h
  | None => h
  end.
Definition subscribe (now : Z) (peer hash generation : string) (h : Hub) : res (list string) * Hub :=
  match provider now peer hash h with
  | None => (Err "Peer proxy session is unavailable or revoked", h)
  | Some binding =>
      if (4096 <=? Z.of_nat (size (subscribers h))) && negb (bool_decide (is_Some (subscribers h !! peer)))
      then (Err "Proxy provider capacity is in use", h)
      else
        let h := set_subscribers (<[peer := mkSubscriber binding generation [] false]> (subscribers h)) h in
        let '(ids, h) := jobs now (mkBinding peer (b_instance binding) (b_fingerprint binding)) h in (Ok ids, h)
  end.
(** Dropping a [Subscription]. *)
Definition unsubscribe (peer generation : string) (h : Hub) : Hub :=
  match subscribers h !! peer with
  | Some s => if bool_decide (u_generation s = generation) then set_subscribers (delete peer (subscribers h)) h else h
  | None => h
  end.
(** The check of a notification channel every five seconds. *)
Definition still_provider (now : Z) (peer hash : string) (binding : Binding) (h : Hub) : bool :=
  bool_decide (provider now peer hash h = Some binding).

(** ** Handlers *)

Section streams.
Context {L : GrantLibs}.

Record Request := mkRequest { r_grant : string; r_peer : string; r_token : string; r_host : string; r_port : Z }.
(** An [authorize] that began at [since], with the time and the answer of each query so far. *)
Record Check := mkCheck { since : Z; seen : list (Z * res Db) }.
Definition db_of (k : Check) (i : nat) : res Db :=
  match seen k !! i with Some (_, r) => r | None => Err "no answer" end.
Definition outcome (q : Request) (k : Check) : res Authorization := authorize (db_of k) (r_grant q) (r_peer q) (r_token q).
Definition complete (n : nat) (k : Check) : bool := bool_decide (length (seen k) = n).
(** [authorize] of a serving machine comes after a query of its own. *)
Definition later (k : Check) : Check := mkCheck (since k) (tail (seen k)).

(** The handler of the serving machine that supplied a stream. *)
Record Serving := mkServing { s_peer : string; s_token : string; s_check : Check }.
Inductive Connection :=
  | ToGateway (ip : IpAddr)
  | ToPeer (target : Binding) (ip : IpAddr) (served : Serving).
Inductive Lease := Sleeping (until : Z) | Checking (k : Check).
(** [connect]: [admitted] is the check that let it in, [last] the last later one that held. *)
Inductive Client :=
  | Authorizing (q : Request) (k : Check)
  | Opening (q : Request) (admitted : Check) (auth : Authorization) (until : Z)
  | Waiting (q : Request) (admitted : Check) (context : Context) (id : string) (until : Z)
  | Upgrading (q : Request) (admitted : Check) (c : Connection)
  | Streaming (q : Request) (admitted : Check) (c : Connection) (started : Z) (last : option Check) (lease : Lease).
(** [serve] *)
Inductive Server :=
  | Verifying (id peer token : string) (context : Context) (k : Check)
  | Shaking (id : string) (context : Context) (client : nat) (auth : Authorization) (served : Serving).

(** [contexts] are the contexts of all ids there ever were. *)
Record World := mkWorld {
  now : Z; db : Db; capacity : Capacity; hub : Hub; contexts : gmap string Context;
  clients : gmap nat Client; servers : gmap nat Server }.
Definition initial (d : Db) : World := mkWorld 0 d capacity_default hub_default ∅ ∅ ∅.

Definition set_now (t : Z) (w : World) : World := mkWorld t (db w) (capacity w) (hub w) (contexts w) (clients w) (servers w).
Definition set_db (d : Db) (w : World) : World := mkWorld (now w) d (capacity w) (hub w) (contexts w) (clients w) (servers w).
Definition set_capacity (c : Capacity) (w : World) : World := mkWorld (now w) (db w) c (hub w) (contexts w) (clients w) (servers w).
Definition set_hub (h : Hub) (w : World) : World := mkWorld (now w) (db w) (capacity w) h (contexts w) (clients w) (servers w).
Definition set_client (n : nat) (c : option Client) (w : World) : World :=
  mkWorld (now w) (db w) (capacity w) (hub w) (contexts w) (partial_alter (λ _, c) n (clients w)) (servers w).
Definition set_server (m : nat) (s : option Server) (w : World) : World :=
  mkWorld (now w) (db w) (capacity w) (hub w) (contexts w) (clients w) (partial_alter (λ _, s) m (servers w)).
Definition add_context (id : string) (c : Context) (w : World) : World :=
  mkWorld (now w) (db w) (capacity w) (hub w) (<[id := c]> (contexts w)) (clients w) (servers w).

Definition request (c : Client) : Request :=
  match c with
  | Authorizing q _ | Opening q _ _ _ | Waiting q _ _ _ _ | Upgrading q _ _ | Streaming q _ _ _ _ _ => q
  end.
Definition has_permit (c : Client) : bool := match c with Authorizing _ _ => false | _ => true end.
Definition drop_pending (id : string) (w : World) : World := set_hub (set_pending (delete id (pending (hub w))) (hub w)) w.
(** The end of a handler: its permit is released and its [Owner] removes what is pending. *)
Definition end_client (n : nat) (c : Client) (w : World) : World :=
  let w := set_client n None w in
  let w := match c with Waiting _ _ _ id _ => drop_pending id w | _ => w end in
  if has_permit c then set_capacity (release (r_grant (request c)) (capacity w)) w else w.

(** The check of a running stream. *)
Definition still_valid (c : Connection) (a : Authorization) : bool :=
  match c with
  | ToGateway ip => bool_decide (target_machine a = None) && permitted ip (allow_lan a) (overlay a)
  | ToPeer target ip _ => bool_decide (target_peer a = Some target) && permitted ip (allow_lan a) (overlay a)
  end.
(** [connect] after its authorization; [id] is a fresh UUID. *)
Definition admit_client (n : nat) (q : Request) (k : Check) (id : string) (w : World) : World :=
  let fail := set_client n None w in
  match outcome q k with
  | Ok auth =>
      match target_machine auth with
      | Some _ =>
          if is_ok (destination_new (r_host q) (r_port q)) then
            match target_peer auth with
            | None => fail
            | Some binding =>
                match acquire (r_grant q) (capacity w) with
                | (Ok _, c) =>
                    let entries := unexpired (now w) (pending (hub w)) in
                    let w' := set_capacity c w in
                    if 256 <=? Z.of_nat (size entries) then
                      set_client n None (set_capacity (release (r_grant q) c) (set_hub (set_pending entries (hub w)) w'))
                    else
                      let context := mkContext (r_grant q) (r_peer q) (r_token q) binding (r_host q) (r_port q) in
                      let entries := <[id := mkPending context n (now w + 20000)]> entries in
                      let h := wake id binding (set_pending entries (hub w)) in
                      set_client n (Some (Waiting q k context id (now w + 20000))) (add_context id context (set_hub h w'))
                | (_, c) => set_client n None (set_capacity c w)
                end
            end
          else fail
      | None =>
          match acquire (r_grant q) (capacity w) with
          | (Ok _, c) => set_client n (Some (Opening q k auth (now w + 10000))) (set_capacity c w)
          | (_, c) => set_client n None (set_capacity c w)
          end
      end
  | _ => fail
  end.
(** [serve] after its queries. *)
Definition verify_server (m : nat) (id peer token : string) (context : Context) (k : Check) (w : World) : World :=
  let fail := set_server m None w in
  match db_of k 0 with
  | Ok s =>
      match find_one (λ p, bool_decide (p_id p = peer) && p_enabled p && bool_decide (p_hash p = token_digest token) &&
               bool_decide (p_instance p = b_instance (c_target context)) &&
               bool_decide (p_fingerprint p = b_fingerprint (c_target context))) (peers s) with
      | Some current =>
          match authorize (db_of (later k)) (c_grant context) (c_client context) (c_token context) with
          | Ok auth =>
              if bool_decide (target_peer auth = Some (c_target context)) && bool_decide (is_Some (p_workspace current)) then
                match pending (hub w) !! id with
                | Some e => set_server m (Some (Shaking id context (n_client e) auth (mkServing peer token k))) (drop_pending id w)
                | None => fail
                end
              else fail
          | _ => fail
          end
      | None => fail
      end
  | _ => fail
  end.

(** ** Steps *)

Inductive Action :=
  | Change (d : Db)
  | Advance (d : Z)
  | Arrive (n : nat) (q : Request)
  (** A query of a client's check, of a stream's check or of a serving machine; [answered]
      says whether it succeeded. *)
  | Query (n : nat) (answered : bool)
  | QueryServer (m : nat) (answered : bool)
  | Decide (n : nat) (id : string)
  | Open (n : nat) (lookup_host : Destination → option (list IpAddr)) (connects : IpAddr → bool)
  | Upgrade (n : nat)
  | Recheck (n : nat)
  | Renew (n : nat)
  (** An error, a timeout or the end of the stream. *)
  | End (n : nat)
  | Serve (m : nat) (id peer token : string)
  | Verify (m : nat)
  (** The serving machine says where it connected. *)
  | Report (m : nat) (ip : IpAddr)
  | EndServer (m : nat)
  | Publish (binding : Binding) (hash workspace : string) (enabled : bool)
  | Invalidate (workspace : string)
  | Jobs (binding : Binding)
  | Subscribe (peer hash generation : string)
  | Unsubscribe (peer generation : string).

(** When a handler moves on by itself at the latest. *)
Definition deadline (c : Client) : option Z :=
  match c with
  | Authorizing _ k => Some (since k + 4000)
  | Opening _ _ _ until | Waiting _ _ _ _ until => Some until
  | Upgrading _ _ _ => None
  | Streaming _ _ _ _ _ (Sleeping until) => Some until
  | Streaming _ _ _ _ _ (Checking k) => Some (since k + 4000)
  end.
Definition in_time (t : Z) (c : Client) : bool := match deadline c with Some d => t <=? d | None => true end.
Definition add_query (answered : bool) (w : World) (k : Check) : Check :=
  mkCheck (since k) (seen k ++ [(now w, if answered then Ok (db w) else Err "query failed")]).
Definition act (a : Action) (w : World) : option World :=
  match a with
  | Change d => Some (set_db d w)
  | Advance d =>
      if (0 <=? d) && forallb (λ p, in_time (now w + d) p.2) (map_to_list (clients w))
      then Some (set_now (now w + d) w) else None
  | Arrive n q =>
      if bool_decide (clients w !! n = None) && is_ok (credentials (Some (r_peer q)) (Some ("Bearer " +:+ r_token q)))
      then Some (set_client n (Some (Authorizing q (mkCheck (now w) []))) w) else None
  | Query n answered =>
      match clients w !! n with
      | Some (Authorizing q k) => Some (set_client n (Some (Authorizing q (add_query answered w k))) w)
      | Some (Streaming q a c s l (Checking k)) =>
          Some (set_client n (Some (Streaming q a c s l (Checking (add_query answered w k)))) w)
      | _ => None
      end
  | QueryServer m answered =>
      match servers w !! m with
      | Some (Verifying id peer token context k) =>
          Some (set_server m (Some (Verifying id peer token context (add_query answered w k))) w)
      | _ => None
      end
  | Decide n id =>
      match clients w !! n with
      | Some (Authorizing q k) =>
          if complete QUERIES k && bool_decide (contexts w !! id = None) then Some (admit_client n q k id w) else None
      | _ => None
      end
  | Open n lookup_host connects =>
      match clients w !! n with
      | Some (Opening q k auth until as c) =>
          match open (r_host q) (r_port q) auth lookup_host connects with
          | Ok ip => Some (set_client n (Some (Upgrading q k (ToGateway ip))) w)
          | _ => Some (end_client n c w)
          end
      | _ => None
      end
  | Upgrade n =>
      match clients w !! n with
      | Some (Upgrading q k c) => Some (set_client n (Some (Streaming q k c (now w) None (Sleeping (now w + 15000)))) w)
      | _ => None
      end
  | Recheck n =>
      match clients w !! n with
      | Some (Streaming q a c s l (Sleeping until)) =>
          if until <=? now w then Some (set_client n (Some (Streaming q a c s l (Checking (mkCheck (now w) [])))) w) else None
      | _ => None
      end
  | Renew n =>
      match clients w !! n with
      | Some (Streaming q a c s l (Checking k) as client) =>
          if complete QUERIES k then
            match outcome q k with
            | Ok auth =>
                if still_valid c auth then Some (set_client n (Some (Streaming q a c s (Some k) (Sleeping (now w + 15000)))) w)
                else Some (end_client n client w)
            | _ => Some (end_client n client w)
            end
          else None
      | _ => None
      end
  | End n => c ← clients w !! n; Some (end_client n c w)
  | Serve m id peer token =>
      match servers w !! m, pending (hub w) !! id with
      | None, Some e =>
          if (now w <? n_expires e) && bool_decide (b_id (c_target (n_context e)) = peer) &&
             is_ok (credentials (Some peer) (Some ("Bearer " +:+ token)))
          then Some (set_server m (Some (Verifying id peer token (n_context e) (mkCheck (now w) []))) w) else None
      | _, _ => None
      end
  | Verify m =>
      match servers w !! m with
      | Some (Verifying id peer token context k) =>
          if complete (1 + QUERIES) k then Some (verify_server m id peer token context k w) else None
      | _ => None
      end
  | Report m ip =>
      match servers w !! m with
      | Some (Shaking id context n auth served) =>
          let w := set_server m None w in
          match clients w !! n with
          | Some (Waiting q k context' id' until as c) =>
              if bool_decide (id' = id) then
                if permitted ip (allow_lan auth) (overlay auth)
                then Some (drop_pending id (set_client n (Some (Upgrading q k (ToPeer (c_target context) ip served))) w))
                else Some (end_client n c w)
              else Some w
          | _ => Some w
          end
      | _ => None
      end
  | EndServer m => Some (set_server m None w)
  | Publish binding hash workspace enabled => Some (set_hub (publish (now w) binding hash workspace enabled (hub w)) w)
  | Invalidate workspace => Some (set_hub (invalidate workspace (hub w)) w)
  | Jobs binding => Some (set_hub (jobs (now w) binding (hub w)).2 w)
  | Subscribe peer hash generation => Some (set_hub (subscribe (now w) peer hash generation (hub w)).2 w)
  | Unsubscribe peer generation => Some (set_hub (unsubscribe peer generation (hub w)) w)
  end.
Fixpoint run (actions : list Action) (w : World) : option World :=
  match actions with
  | [] => Some w
  | a :: actions => w ← act a w; run actions w
  end.
End streams.
