(* ===== verification/PeerProxySafety.v ===== *)
(** * Shared proxy streams: the invariant and the theorems ([porthub-api/src/peer_proxy.rs])

    Every check of a handler saw databases that were current while it ran; the permits in
    use are those of the handlers; every context a handler or an id carries is that of one
    request. *)

From S2P Require Import Prelude Net RustStr Egress ProxyGrants PeerProxy.
Local Open Scope string_scope.
Local Open Scope list_scope.
Local Open Scope Z_scope.

Section safety.
Context {L : GrantLibs} {LO : GrantLibsOk L}.

(** ** Permits *)

Definition permit (c : Client) : option string :=
  if has_permit c then Some (to_ascii_lowercase (r_grant (request c))) else None.
Definition holders (m : gmap nat Client) : list string := omap (λ p, permit p.2) (map_to_list m).
Lemma omap_perm {A B} (f : A → option B) l k : l ≡ₚ k → omap f l ≡ₚ omap f k.
Proof. by intros ->. Qed.
Lemma holders_insert m n c : m !! n = None → holders (<[n:=c]> m) ≡ₚ option_list (permit c) ++ holders m.
Proof.
  intros H. unfold holders. rewrite (omap_perm _ _ _ (map_to_list_insert m n c H)). cbn. by destruct (permit c).
Qed.
Lemma holders_split m n c : m !! n = Some c → holders m ≡ₚ option_list (permit c) ++ holders (delete n m).
Proof. intros H. rewrite <- (holders_insert _ _ _ (lookup_delete_eq m n)). by rewrite insert_delete_id. Qed.
Lemma holders_replace m n c c' : m !! n = Some c → permit c' = permit c → holders (<[n:=c']> m) ≡ₚ holders m.
Proof.
  intros H E. rewrite <- insert_delete_eq, holders_insert, E by apply lookup_delete_eq. by rewrite <- holders_split.
Qed.
Lemma capacity_perm l k c : l ≡ₚ k → capacity_ok l c → capacity_ok k c.
Proof.
  intros Hp [H1 H2 H3 H4]. split; [by rewrite <- Hp|done| |done]. intros g. rewrite H3. f_equal. apply Permutation_length.
  clear -Hp. induction Hp; cbn; repeat case_match; eauto using Permutation.
Qed.

(** ** The invariant *)

(** [R] is what is known of the databases that queries saw: a time and the database then. *)
Section invariant.
Variable R : Z → Db → Prop.

Definition check_ok (t : Z) (k : Check) : Prop :=
  since k ≤ t ∧ Forall (λ s, since k ≤ s.1 ≤ t ∧ ∀ d, s.2 = Ok d → R s.1 d) (seen k).
Definition context_of (q : Request) (b : Binding) : Context :=
  mkContext (r_grant q) (r_peer q) (r_token q) b (r_host q) (r_port q).
Definition request_of (c : Context) : Request := mkRequest (c_grant c) (c_client c) (c_token c) (c_host c) (c_port c).
(** The serving machine is the enrolled one, and the client was authorised once more. *)
Record served_ok (t : Z) (q : Request) (b : Binding) (a : Authorization) (s : Serving) : Prop := {
  so_check : check_ok t (s_check s);
  so_peer : s_peer s = b_id b;
  so_identity : ∃ d p, db_of (s_check s) 0 = Ok d ∧ p ∈ peers d ∧ p_id p = s_peer s ∧ p_enabled p = true ∧
    p_hash p = token_digest (s_token s) ∧ p_instance p = b_instance b ∧ p_fingerprint p = b_fingerprint b;
  so_outcome : outcome q (later (s_check s)) = Ok a;
  so_target : target_peer a = Some b }.
Definition connection_ok (t : Z) (q : Request) (k : Check) (c : Connection) : Prop :=
  match c with
  | ToGateway ip => ∃ a, outcome q k = Ok a ∧ still_valid c a = true
  | ToPeer b ip s =>
      (∃ a, outcome q k = Ok a ∧ target_peer a = Some b) ∧
      ∃ a, served_ok t q b a s ∧ permitted ip (allow_lan a) (overlay a) = true
  end.
Definition horizon (l : Lease) : Z := match l with Sleeping until => until + 4000 | Checking k => since k + 4000 end.
Definition client_ok (t : Z) (cs : gmap string Context) (c : Client) : Prop :=
  match c with
  | Authorizing q k => check_ok t k
  | Opening q k a until => check_ok t k ∧ outcome q k = Ok a ∧ target_machine a = None ∧ until ≤ since k + 14000
  | Waiting q k context id until =>
      check_ok t k ∧ cs !! id = Some context ∧ context = context_of q (c_target context) ∧
      (∃ a, outcome q k = Ok a ∧ target_peer a = Some (c_target context)) ∧ until ≤ since k + 24000
  | Upgrading q k c => check_ok t k ∧ connection_ok t q k c
  | Streaming q k c started last lease =>
      check_ok t k ∧ connection_ok t q k c ∧ started ≤ t ∧
      match lease with Sleeping _ => True | Checking k => check_ok t k end ∧
      match last with
      | None => horizon lease ≤ started + 19000
      | Some k => check_ok t k ∧ (∃ a, outcome q k = Ok a ∧ still_valid c a = true) ∧ horizon lease ≤ since k + 23000
      end
  end.
Definition server_ok (t : Z) (cs : gmap string Context) (s : Server) : Prop :=
  match s with
  | Verifying id peer _ context k => check_ok t k ∧ cs !! id = Some context ∧ peer = b_id (c_target context)
  | Shaking id context _ a served => cs !! id = Some context ∧ served_ok t (request_of context) (c_target context) a served
  end.
Record world_ok (w : World) : Prop := {
  wk_now : R (now w) (db w);
  wk_clients n c : clients w !! n = Some c → client_ok (now w) (contexts w) c ∧ in_time (now w) c = true;
  wk_servers m s : servers w !! m = Some s → server_ok (now w) (contexts w) s;
  wk_pending id e : pending (hub w) !! id = Some e → contexts w !! id = Some (n_context e);
  wk_capacity : capacity_ok (holders (clients w)) (capacity w) }.

Lemma check_later t t' k : t ≤ t' → check_ok t k → check_ok t' k.
Proof. intros Ht [Hs Hf]. split; [lia|]. eapply Forall_impl; [done|]. cbn. intros x [H H']. split; [lia|done]. Qed.
Lemma served_later t t' q b a s : t ≤ t' → served_ok t q b a s → served_ok t' q b a s.
Proof. intros Ht []. split; try done. by eapply check_later. Qed.
Lemma connection_later t t' q k c : t ≤ t' → connection_ok t q k c → connection_ok t' q k c.
Proof. destruct c; cbn; [done|]. intros Ht (H & a & H1 & H2). split; [done|]. exists a. split; [by eapply served_later|done]. Qed.
Lemma client_later t t' cs cs' c : t ≤ t' → cs ⊆ cs' → client_ok t cs c → client_ok t' cs' c.
Proof.
  intros Ht Hc. destruct c as [| | | |q k c s l lease]; cbn; intros H.
  - by eapply check_later.
  - destruct H as (? & ? & ? & ?). split_and!; [by eapply check_later|done..].
  - destruct H as (? & ? & ? & ? & ?). split_and!; [by eapply check_later|by eapply lookup_weaken|done..].
  - destruct H. split; [by eapply check_later|by eapply connection_later].
  - destruct H as (? & ? & ? & Hl & Hk). split_and!; [by eapply check_later|by eapply connection_later|lia|..].
    + destruct lease; [done|by eapply check_later].
    + destruct l; [|done]. destruct Hk as (? & ? & ?). split_and!; [by eapply check_later|done..].
Qed.
Lemma server_later t t' cs cs' s : t ≤ t' → cs ⊆ cs' → server_ok t cs s → server_ok t' cs' s.
Proof.
  intros Ht Hc. destruct s; cbn; intros H.
  - destruct H as (? & ? & ?). split_and!; [by eapply check_later|by eapply lookup_weaken|done].
  - destruct H. split; [by eapply lookup_weaken|by eapply served_later].
Qed.
Lemma query_ok answered w k : R (now w) (db w) → check_ok (now w) k → check_ok (now w) (add_query answered w k).
Proof.
  intros HR [Hs Hf]. split; [done|]. cbn. apply Forall_app. split; [done|]. apply Forall_singleton. cbn. split; [lia|].
  intros d. destruct answered; [|done]. by intros [= <-].
Qed.

(** *** Replacing one handler *)

Lemma insert_client_ok t cs (m : gmap nat Client) n c :
  (∀ i c, m !! i = Some c → client_ok t cs c ∧ in_time t c = true) → client_ok t cs c → in_time t c = true →
  ∀ i c', <[n:=c]> m !! i = Some c' → client_ok t cs c' ∧ in_time t c' = true.
Proof. intros Hm Hc Ht i c'. intros [[_ <-]|[_ H]]%lookup_insert_Some; [done|]. by eapply Hm. Qed.
Lemma put_client n c c' w : world_ok w → clients w !! n = Some c → permit c' = permit c →
  client_ok (now w) (contexts w) c' → in_time (now w) c' = true → world_ok (set_client n (Some c') w).
Proof.
  intros [] Hn Hp Hc Ht. split; cbn; try done.
  - by apply insert_client_ok.
  - eapply capacity_perm; [|done]. symmetry. by eapply holders_replace.
Qed.
Lemma remove_client n w : world_ok w → ∀ i c, delete n (clients w) !! i = Some c →
  client_ok (now w) (contexts w) c ∧ in_time (now w) c = true.
Proof. intros Hw i c [_ H]%lookup_delete_Some. by eapply wk_clients. Qed.
Lemma set_hub_ok h w : world_ok w → pending h ⊆ pending (hub w) → world_ok (set_hub h w).
Proof. intros [] Hs. split; cbn; try done. intros id e H. by eapply wk_pending0, lookup_weaken. Qed.
Lemma drop_pending_ok id w : world_ok w → world_ok (drop_pending id w).
Proof. intros H. apply set_hub_ok; [done|]. cbn. apply delete_subseteq. Qed.
Lemma end_client_ok n c w : world_ok w → clients w !! n = Some c → world_ok (end_client n c w).
Proof.
  intros H Hn. assert (world_ok (if has_permit c then set_capacity (release (r_grant (request c)) (capacity w)) (set_client n None w)
    else set_client n None w)) as H'.
  { pose proof (holders_split _ _ _ Hn) as Hp. unfold permit in Hp.
    destruct (has_permit c); split; cbn; try apply H; try by apply remove_client.
    - by apply (release_ok _ (holders (clients w))); [rewrite Hp|apply H].
    - by apply (capacity_perm (holders (clients w))); [rewrite Hp|apply H]. }
  unfold end_client. destruct c; cbn [has_permit request] in *; try exact H'. by apply (drop_pending_ok id) in H'.
Qed.
Lemma put_server m s w : world_ok w → server_ok (now w) (contexts w) s → world_ok (set_server m (Some s) w).
Proof. intros [] Hs. split; cbn; try done. intros i s' [[_ <-]|[_ H]]%lookup_insert_Some; [done|]. by eapply wk_servers0. Qed.
Lemma drop_server m w : world_ok w → world_ok (set_server m None w).
Proof. intros []. split; cbn; try done. intros i s [_ H]%lookup_delete_Some. by eapply wk_servers0. Qed.
Lemma drop_client n q k w : world_ok w → clients w !! n = Some (Authorizing q k) → world_ok (set_client n None w).
Proof. intros H Hn. exact (end_client_ok _ _ _ H Hn). Qed.

(** *** Admission *)

(** A client that had no permit leaves or goes on with one. *)
Lemma acquired n q k c w cap : world_ok w → clients w !! n = Some (Authorizing q k) →
  acquire (r_grant q) (capacity w) = (Ok tt, cap) → has_permit c = true → request c = q →
  client_ok (now w) (contexts w) c → in_time (now w) c = true → world_ok (set_client n (Some c) (set_capacity cap w)).
Proof.
  intros H Hn Ha Hp Hq Hc Ht. pose proof (holders_split _ _ _ Hn) as Hs. split; cbn; try apply H.
  - apply insert_client_ok; [apply H|done..].
  - change (capacity_ok (holders (<[n:=c]> (clients w))) cap). rewrite <- insert_delete_eq. eapply capacity_perm; [|exact (acquire_ok _ _ _ _ _ (wk_capacity w H) Ha)].
    rewrite holders_insert by apply lookup_delete_eq. unfold permit. rewrite Hp, Hq, Hs. done.
Qed.
Lemma refused n q k r w cap : world_ok w → clients w !! n = Some (Authorizing q k) →
  acquire (r_grant q) (capacity w) = (r, cap) → is_ok r = false → world_ok (set_client n None (set_capacity cap w)).
Proof.
  intros H Hn Ha Hr. pose proof (holders_split _ _ _ Hn) as Hs. split; cbn; try apply H.
  - by apply remove_client.
  - eapply capacity_perm; [|exact (acquire_ok _ _ _ _ _ (wk_capacity w H) Ha)]. by destruct r; [|rewrite Hs..].
Qed.
Lemma add_context_ok id ctx w : world_ok w → contexts w !! id = None → world_ok (add_context id ctx w).
Proof.
  intros [] Hid. assert (contexts w ⊆ <[id:=ctx]> (contexts w)) as Hs by by apply insert_subseteq.
  split; cbn; try done.
  - intros n c H. destruct (wk_clients0 n c H). split; [by eapply client_later|done].
  - intros m s H. eapply server_later; [..|by eapply wk_servers0]; [lia|done].
  - intros i e H. eapply lookup_weaken; [by eapply wk_pending0|done].
Qed.
Lemma pending_hub h w : world_ok w → (∀ id e, pending h !! id = Some e → contexts w !! id = Some (n_context e)) →
  world_ok (set_hub h w).
Proof. intros [] Hs. by split. Qed.
Lemma pending_wake id b h : pending (wake id b h) = pending h.
Proof. unfold wake. destruct (subscribers h !! _); [|done]. by case_bool_decide. Qed.
Lemma outcome_target q k a target : outcome q k = Ok a → target_machine a = Some target → is_Some (target_peer a).
Proof.
  intros H Ht. destruct (gr_record _ _ _ _ _ (authorize_granted _ _ _ _ _ H)) as (? & ? & ? & ? & _ & _ & _ & _ & _ & _ & _ & _ & _ & _ & Hm).
  destruct (target_peer a); [by eexists|]. destruct Hm as (_ & Hn & _). congruence.
Qed.
Lemma admit_client_ok n q k id w : world_ok w → clients w !! n = Some (Authorizing q k) → contexts w !! id = None →
  world_ok (admit_client n q k id w).
Proof.
  intros H Hn Hid. pose proof (drop_client _ _ _ _ H Hn) as Hdrop. destruct (wk_clients _ H _ _ Hn) as [Hk Hin]. cbn in Hk, Hin.
  unfold admit_client. destruct (outcome q k) as [a| |] eqn:Ho; [|done..].
  destruct (target_machine a) as [target|] eqn:Ht; destruct (acquire (r_grant q) (capacity w)) as [r cap] eqn:Ha.
  - destruct (is_ok (destination_new _ _)); [|done]. destruct (target_peer a) as [b|] eqn:Hb; [|done].
    destruct r as [[]| |]; [|by eapply refused..].
    case_match.
    + pose proof (acquire_ok _ _ _ _ _ (wk_capacity w H) Ha) as Hc. cbn in Hc.
      pose proof (wk_capacity _ Hdrop) as Hc'. split; cbn; try apply H; try apply Hdrop.
      * intros i e [He _]%map_lookup_filter_Some. by eapply wk_pending.
      * pose proof (holders_split _ _ _ Hn) as Hs. cbn in Hs.
        apply (release_ok _ (to_ascii_lowercase (r_grant q) :: holders (clients w))); [by rewrite Hs|done].
    + change (world_ok (set_client n (Some (Waiting q k (context_of q b) id (now w + 20000)))
        (set_capacity cap (set_hub (wake id b (set_pending
          (<[id:=mkPending (context_of q b) n (now w + 20000)]> (unexpired (now w) (pending (hub w)))) (hub w)))
          (add_context id (context_of q b) w))))).
      apply (acquired n q k); try done.
      * apply pending_hub; [by apply add_context_ok|]. rewrite pending_wake. cbn.
        intros i e [[<- <-]|[Hne He]]%lookup_insert_Some; [by rewrite lookup_insert_eq|].
        apply map_lookup_filter_Some in He as [He _]. rewrite lookup_insert_ne by done. by eapply wk_pending.
      * cbn. split_and!; [done|by rewrite lookup_insert_eq|done|by eauto|lia].
      * cbn. lia.
  - destruct r as [[]| |]; [|by eapply refused..]. apply (acquired n q k); try done; [|cbn; lia].
    cbn. split_and!; [done..|lia].
Qed.

(** *** Serving *)

Lemma outcome_of c k : outcome (request_of c) k = authorize (db_of k) (c_grant c) (c_client c) (c_token c).
Proof. done. Qed.
Lemma verify_server_ok m id peer token context k w : world_ok w → check_ok (now w) k →
  contexts w !! id = Some context → peer = b_id (c_target context) → world_ok (verify_server m id peer token context k w).
Proof.
  intros H Hk Hid Hp. pose proof (drop_server m w H) as Hdrop. unfold verify_server.
  destruct (db_of k 0) as [d| |] eqn:Hd; [|done..]. destruct (find_one _ (peers d)) as [p|] eqn:Hf; [|done].
  apply find_one_some in Hf as [Hin Hf]. rewrite !andb_true_iff, !bool_decide_eq_true in Hf.
  destruct Hf as [[[[Hpid He] Hh] Hi] Hfp].
  destruct (authorize _ _ _ _) as [a| |] eqn:Ha; [|done..]. destruct (_ && _) eqn:Hb; [|done].
  apply andb_true_iff in Hb as [Hb%bool_decide_eq_true _]. destruct (pending (hub w) !! id) as [e|] eqn:Hpe; [|done].
  apply put_server; [by apply drop_pending_ok|]. cbn. split; [done|]. split; cbn; try done. eauto 10.
Qed.
Lemma request_context q b : request_of (context_of q b) = q.
Proof. by destruct q. Qed.
Lemma report_ok m ip w w' : world_ok w → act (Report m ip) w = Some w' → world_ok w'.
Proof.
  intros H. cbn [act]. destruct (servers w !! m) as [[|id context n a served]|] eqn:Hm; [done| |done]. cbv zeta.
  pose proof (drop_server m w H) as H0. destruct (wk_servers _ H _ _ Hm) as [Hid Hs]. set (w0 := set_server m None w) in *.
  change (clients w) with (clients w0). destruct (clients w0 !! n) as [[| |q k context' id' until| |]|] eqn:Hn;
    try (intros E; injection E as <-; done).
  case_bool_decide as Hi; [subst id'|by intros [= <-]]. destruct (permitted _ _ _) eqn:Hp; intros [= <-]; [|by apply end_client_ok].
  apply drop_pending_ok. destruct (wk_clients _ H0 _ _ Hn) as [(Hk & Hid' & Hc & Ha & _) _].
  change (contexts w0) with (contexts w) in Hid'. rewrite Hid in Hid'. injection Hid' as <-.
  eapply put_client; [done..| |done]. cbn. split; [done|]. split; [done|]. exists a. split; [|done].
  rewrite Hc, request_context in Hs. by rewrite Hc.
Qed.
Lemma pending_jobs t b h : pending (jobs t b h).2 ⊆ pending h.
Proof. apply map_filter_subseteq. Qed.
Lemma pending_subscribe t peer hash g h : pending (subscribe t peer hash g h).2 ⊆ pending h.
Proof.
  unfold subscribe. destruct (provider _ _ _ _); [|done]. destruct (_ && _); [done|]. apply map_filter_subseteq.
Qed.
Lemma pending_unsubscribe peer g h : pending (unsubscribe peer g h) = pending h.
Proof. unfold unsubscribe. destruct (subscribers h !! _); [|done]. by case_bool_decide. Qed.
Lemma pending_publish t b hash ws en h : pending (publish t b hash ws en h) = pending h.
Proof. unfold publish. by repeat case_match. Qed.
Lemma advance_ok d w w' : world_ok w → act (Advance d) w = Some w' → R (now w') (db w') → world_ok w'.
Proof.
  intros H. cbn [act]. destruct (_ && _) eqn:E; [|done]. intros [= <-] HR. apply andb_true_iff in E as [Hd Hf].
  rewrite forallb_forall in Hf. split; cbn; [done| | |apply H|apply H].
  - intros n c Hn. destruct (wk_clients _ H _ _ Hn) as [Hc _]. split; [eapply client_later; [..|done]; [lia|done]|].
    apply (Hf (n, c)), list_elem_of_In. by apply elem_of_map_to_list.
  - intros m s Hm. eapply server_later; [..|by eapply wk_servers]; [lia|done].
Qed.
Lemma stream_ok a w w' : world_ok w → R (now w) (db w) → act a w = Some w' →
  match a with Query _ _ | Upgrade _ | Recheck _ | Renew _ | Open _ _ _ => True | _ => False end → world_ok w'.
Proof.
  intros H HR E Ha. destruct a as [| | |n answered| | |n lh cn|n|n|n| | | | | | | | | |]; try done; clear Ha; cbn [act] in E;
    destruct (clients w !! n) as [c0|] eqn:Hn; try done; destruct (wk_clients _ H _ _ Hn) as [Hc Ht].
  - destruct c0 as [q k| | | |q k c st l [|k']]; try done; injection E as <-; eapply put_client; try done; cbn in *.
    + by apply query_ok.
    + destruct Hc as (? & ? & ? & ? & ?). split_and!; try done. by apply query_ok.
  - destruct c0 as [|q k a until| | |]; try done. destruct Hc as (Hk & Ho & Hm & _). destruct (open _ _ _ _ _) as [ip| |] eqn:Eo;
      injection E as <-; [|by apply end_client_ok..]. eapply put_client; try done. cbn. split; [done|]. exists a. split; [done|].
    rewrite bool_decide_true by done. cbn. by eapply open_permitted.
  - destruct c0 as [| | |q k c|]; try done. injection E as <-. destruct Hc as [Hk Hc]. eapply put_client; try done; cbn; [|lia].
    split_and!; [done..|lia].
  - destruct c0 as [| | | |q k c st l [until|]]; try done. destruct (until <=? now w) eqn:Eu; [|done]. injection E as <-.
    destruct Hc as (? & ? & ? & _ & Hl). cbn in Ht. assert (until = now w) as -> by lia.
    eapply put_client; try done; cbn; try lia.
  - destruct c0 as [| | | |q k c st l [|k']]; try done. destruct (complete _ _); [|done].
    destruct (outcome q k') as [a| |] eqn:Ho; [|injection E as <-; by apply end_client_ok..].
    destruct (still_valid c a) eqn:Hv; injection E as <-; [|by apply end_client_ok].
    destruct Hc as (? & ? & ? & Hk' & _). cbn in Ht. eapply put_client; try done; cbn; [|lia].
    split_and!; try done; [by eauto|lia].
Qed.
Lemma act_ok a w w' : world_ok w → act a w = Some w' → R (now w') (db w') → world_ok w'.
Proof.
  intros H E HR'. pose proof (wk_now _ H) as HR.
  destruct a as [d|d|n q|n b|m b|n id|n lh cn|n|n|n|n|m id peer token|m|m ip|m|bd hash ws en|ws|bd|peer hash g|peer g];
    try (by eapply stream_ok); cbn [act] in E.
  - injection E as <-. split; try apply H; done.
  - by eapply advance_ok.
  - destruct (_ && _) eqn:Ea; [|done]. injection E as <-. apply andb_true_iff in Ea as [Ea%bool_decide_eq_true _].
    split; cbn; try apply H.
    + apply insert_client_ok; [apply H|by split|]. cbn. lia.
    + change (capacity_ok (holders (<[n:=Authorizing q (mkCheck (now w) [])]> (clients w))) (capacity w)).
      eapply capacity_perm; [symmetry; by apply holders_insert|]. apply H.
  - destruct (servers w !! m) as [[id peer token ctx k|]|] eqn:Hm; try done. injection E as <-.
    destruct (wk_servers _ H _ _ Hm) as (? & ? & ?). apply put_server; [done|]. split_and!; try done. by apply query_ok.
  - destruct (clients w !! n) as [[q k| | | |]|] eqn:Hn; try done. destruct (_ && _) eqn:Ea; [|done]. injection E as <-.
    apply andb_true_iff in Ea as [_ Ea%bool_decide_eq_true]. by apply admit_client_ok.
  - destruct (clients w !! n) as [c|] eqn:Hn; [|done]. injection E as <-. by apply end_client_ok.
  - destruct (servers w !! m); [done|]. destruct (pending (hub w) !! id) as [e|] eqn:He; [|done].
    destruct (_ && _) eqn:Ea; [|done]. injection E as <-. rewrite !andb_true_iff, bool_decide_eq_true in Ea.
    destruct Ea as [[_ <-] _]. apply put_server; [done|]. cbn. split_and!; [by split|by eapply wk_pending|done].
  - destruct (servers w !! m) as [[id peer token ctx k|]|] eqn:Hm; try done. destruct (complete _ _); [|done]. injection E as <-.
    destruct (wk_servers _ H _ _ Hm) as (? & ? & ->). by apply verify_server_ok.
  - by eapply (report_ok m ip).
  - injection E as <-. by apply drop_server.
  - injection E as <-. apply set_hub_ok; [done|]. by rewrite pending_publish.
  - injection E as <-. by apply set_hub_ok.
  - injection E as <-. apply set_hub_ok; [done|]. apply (pending_jobs (now w) bd).
  - injection E as <-. apply set_hub_ok; [done|]. apply (pending_subscribe (now w) peer hash g).
  - injection E as <-. apply set_hub_ok; [done|]. by rewrite pending_unsubscribe.
Qed.
Lemma proxy_run_ok actions : ∀ w w', world_ok w → run actions w = Some w' →
  (∀ pre post w1, actions = pre ++ post → run pre w = Some w1 → R (now w1) (db w1)) → world_ok w'.
Proof.
  induction actions as [|a actions IH]; cbn [run]; intros w w' H E HR; [by injection E as <-|].
  destruct (act a w) as [w1|] eqn:Ea; [|done]. cbn in E. apply (IH w1); [|done|].
  - eapply act_ok; [done..|]. apply (HR [a] actions); [done|]. cbn [run]. by rewrite Ea.
  - intros pre post w2 -> Hpre. apply (HR (a :: pre) post); [done|]. cbn [run]. by rewrite Ea.
Qed.
Lemma initial_world_ok d : R 0 d → world_ok (initial d).
Proof.
  intros HR. split; cbn; try done; try (intros ??; by rewrite lookup_empty).
Qed.
End invariant.

(** ** Theorems *)

Lemma end_frame n c w : now (end_client n c w) = now w ∧ db (end_client n c w) = db w.
Proof. unfold end_client. by destruct c. Qed.
Lemma admit_frame n q k id w : now (admit_client n q k id w) = now w ∧ db (admit_client n q k id w) = db w.
Proof. unfold admit_client. by repeat case_match. Qed.
Lemma verify_frame m id peer token c k w :
  now (verify_server m id peer token c k w) = now w ∧ db (verify_server m id peer token c k w) = db w.
Proof. unfold verify_server. by repeat case_match. Qed.
Lemma act_frame a w w' : act a w = Some w' →
  now w' = now w + match a with Advance d => d | _ => 0 end ∧ 0 ≤ match a with Advance d => d | _ => 0 end ∧
  db w' = match a with Change d => d | _ => db w end.
Proof.
  intros E. split_and!.
  2: { destruct a; try done. cbn in E. destruct (_ && _) eqn:Ed; [|done]. apply andb_true_iff in Ed as [Ed _]. lia. }
  all: destruct a; rewrite ?Z.add_0_r; cbn [act] in E; cbv zeta in E;
    repeat (case_match; try discriminate E); try discriminate E; try (destruct (clients w !! n); [|discriminate E]);
    injection E as <-; first [done|apply end_frame|apply admit_frame|apply verify_frame|cbn; apply end_frame].
Qed.
Lemma run_later actions : ∀ w w', run actions w = Some w' → now w ≤ now w'.
Proof.
  induction actions as [|a actions IH]; cbn [run]; intros w w' E; [by injection E as <-|].
  destruct (act a w) as [w1|] eqn:Ea; [|done]. cbn in E. apply IH in E. apply act_frame in Ea as (? & ? & _). lia.
Qed.
Lemma run_append xs ys w : run (xs ++ ys) w = (w' ← run xs w; run ys w').
Proof. revert w. induction xs as [|x xs IH]; [done|]. intros w. cbn. destruct (act x w); [apply IH|done]. Qed.
Lemma run_db (P : Db → Prop) actions : ∀ w w', run actions w = Some w' → P (db w) →
  Forall (λ a, match a with Change d => P d | _ => True end) actions → P (db w').
Proof.
  induction actions as [|a actions IH]; cbn [run]; intros w w' E Hw Hf; [by injection E as <-|].
  destruct (act a w) as [w1|] eqn:Ea; [|done]. cbn in E. apply Forall_cons in Hf as [Ha Hf]. eapply IH; [done| |done].
  apply act_frame in Ea as (_ & _ & ->). by destruct a.
Qed.

(** [d] was the database at time [t] of a run. *)
Definition was (actions : list Action) (d0 : Db) (t : Z) (d : Db) : Prop :=
  ∃ pre post w, actions = pre ++ post ∧ run pre (initial d0) = Some w ∧ now w = t ∧ db w = d.
(** What the queries of a check answered was in the database between its begin and now. *)
Definition answered_by (actions : list Action) (d0 : Db) (t : Z) (k : Check) : Prop :=
  ∀ i d, db_of k i = Ok d → ∃ t', since k ≤ t' ≤ t ∧ was actions d0 t' d.
Lemma check_answered actions d0 t k : check_ok (was actions d0) t k → answered_by actions d0 t k.
Proof.
  intros [_ Hf] i d Hd. unfold db_of in Hd. destruct (seen k !! i) as [[t' r]|] eqn:E; [|done]. subst r.
  rewrite Forall_lookup in Hf. destruct (Hf _ _ E) as [Ht Hr]. cbn in *. eauto.
Qed.
Lemma proxy_reachable_ok actions d0 w : run actions (initial d0) = Some w → world_ok (was actions d0) w.
Proof.
  intros H. eapply proxy_run_ok; [|done|].
  - apply initial_world_ok. by exists [], actions, (initial d0).
  - intros pre post w1 E Hr. by exists pre, post, w1.
Qed.

(** C38. Reachability is not permission: whatever requests, machines, credentials and changes
    of the database interleave, a stream runs only if, since its request arrived, the
    database granted it to the credential it came with; it leads to an address that the
    grant permits, through the gateway if the grant says so, and otherwise through the very
    machine the grant names, which gave that machine's current credential and for which the
    client was authorised once more. *)
Theorem stream_authorised actions d0 w n q k c started last lease : run actions (initial d0) = Some w →
  clients w !! n = Some (Streaming q k c started last lease) →
  ∃ a, granted (db_of k) (r_grant q) (r_peer q) (r_token q) a ∧ answered_by actions d0 (now w) k ∧
  match c with
  | ToGateway ip => target_machine a = None ∧ permitted ip (allow_lan a) (overlay a) = true
  | ToPeer b ip s =>
      target_peer a = Some b ∧ ∃ a', granted (db_of (later (s_check s))) (r_grant q) (r_peer q) (r_token q) a' ∧
      answered_by actions d0 (now w) (s_check s) ∧ target_peer a' = Some b ∧
      permitted ip (allow_lan a') (overlay a') = true ∧
      ∃ d p, db_of (s_check s) 0 = Ok d ∧ p ∈ peers d ∧ p_id p = b_id b ∧ p_enabled p = true ∧
        p_hash p = token_digest (s_token s) ∧ p_instance p = b_instance b ∧ p_fingerprint p = b_fingerprint b
  end.
Proof.
  intros H Hn. destruct (wk_clients _ _ (proxy_reachable_ok _ _ _ H) _ _ Hn) as [(Hk & Hc & _) _].
  destruct c as [ip|b ip s]; cbn [connection_ok] in Hc.
  - destruct Hc as (a & Ho & Hv). exists a. split; [by apply authorize_granted|]. split; [by apply check_answered|].
    apply andb_true_iff in Hv as [Hv%bool_decide_eq_true Hp]. done.
  - destruct Hc as ((a & Ho & Ht) & a' & [Hs Hp Hi Ho' Ht'] & Hperm). exists a. split; [by apply authorize_granted|].
    split; [by apply check_answered|]. split; [done|]. exists a'. split; [by apply authorize_granted|].
    split; [by apply check_answered|]. rewrite <- Hp. done.
Qed.

(** No enabled grant has that id. *)
Definition revoked (grant : string) (d : Db) : Prop :=
  ∀ g, g ∈ grants d → parse_object_id grant = Some (g_id g) → g_enabled g = false.
Definition since_revoked (grant : string) (from t : Z) (d : Db) : Prop := from < t → revoked grant d.
(** Query [i] of a check was answered at [from] or before. *)
Definition read_before (from : Z) (i : nat) (k : Check) : Prop :=
  ∃ t d, seen k !! i = Some (t, Ok d) ∧ t ≤ from.
Lemma authorised_before grant from t q k a : check_ok (since_revoked grant from) t k → r_grant q = grant →
  outcome q k = Ok a → read_before from 5 k ∧ since k ≤ from.
Proof.
  intros [_ Hf] Hq Ho. destruct (gr_record _ _ _ _ _ (authorize_granted _ _ _ _ _ Ho)) as (d & g & _ & _ & Hd & Hg & Hid & He & _).
  unfold db_of in Hd. destruct (seen k !! 5%nat) as [[t' r]|] eqn:E; [|done]. subst r.
  rewrite Forall_lookup in Hf. destruct (Hf _ _ E) as [Ht Hr]. cbn in *. destruct (decide (from < t')) as [Hlt|].
  - rewrite Hq in Hid. specialize (Hr _ eq_refl Hlt g Hg Hid). congruence.
  - split; [exists t', d; by split; [|lia]|lia].
Qed.
Lemma check_tail R t k : check_ok R t k → check_ok R t (PeerProxy.later k).
Proof. intros [Hs Hf]. split; [done|]. cbn. destruct (seen k); [done|]. by apply Forall_cons in Hf as [_ ?]. Qed.

(** The two authorizations behind a connection read the grant in time: that of [connect] in
    its sixth query, that of [serve] in its seventh. *)
Definition admitted_before (from : Z) (k : Check) (c : Connection) : Prop :=
  read_before from 5 k ∧ match c with ToGateway _ => True | ToPeer _ _ s => read_before from 6 (s_check s) end.
Lemma connection_before grant from t q k c : check_ok (since_revoked grant from) t k → r_grant q = grant →
  connection_ok (since_revoked grant from) t q k c → admitted_before from k c.
Proof.
  intros Hk Hq Hc. destruct c as [ip|b ip s]; cbn in Hc.
  - destruct Hc as (a & Ho & _). split; [|done]. by destruct (authorised_before _ _ _ _ _ _ Hk Hq Ho).
  - destruct Hc as ((a & Ho & _) & a' & [Hs _ _ Ho' _] & _).
    split; [by destruct (authorised_before _ _ _ _ _ _ Hk Hq Ho)|].
    destruct (authorised_before _ _ _ _ _ _ (check_tail _ _ _ Hs) Hq Ho') as [(t' & d & E & Ht) _].
    exists t', d. split; [|done]. cbn in E. by destruct (seen (s_check s)).
Qed.

(** C39. Revocation takes effect at once for what is decided afterwards, and within bounds for
    what was decided before.  Once a grant is gone or disabled and stays so, no request
    passes the authorization of [connect] unless that read the grant before; it is not
    supplied by a machine unless the authorization of [serve] read the grant before; and no
    check of a running stream that reads the grant later holds.  Of the requests admitted
    before, none is still opening its destination 14 seconds later or waiting for a machine
    24 seconds later; and 23 seconds later no stream runs, except one that has had no check
    yet, up to 19 seconds after its upgrade. *)
Theorem revoked_stream_ends actions more d0 w w' grant n c : run actions (initial d0) = Some w → run more w = Some w' →
  revoked grant (db w) → Forall (λ a, match a with Change d => revoked grant d | _ => True end) more →
  clients w' !! n = Some c → r_grant (request c) = grant →
  match c with
  | Authorizing _ _ => True
  | Opening _ k _ _ => read_before (now w) 5 k ∧ now w' ≤ now w + 14000
  | Waiting _ k _ _ _ => read_before (now w) 5 k ∧ now w' ≤ now w + 24000
  | Upgrading _ k x => admitted_before (now w) k x
  | Streaming _ k x started last _ =>
      admitted_before (now w) k x ∧
      match last with
      | Some k' => read_before (now w) 5 k' ∧ now w' ≤ now w + 23000
      | None => now w' ≤ started + 19000
      end
  end.
Proof.
  intros H H' Hr Hf Hn Hg.
  assert (world_ok (since_revoked grant (now w)) w') as Hok.
  { apply (proxy_run_ok _ (actions ++ more) (initial d0)); [..|].
    - apply initial_world_ok. intros Hlt. apply run_later in H. cbn in H. lia.
    - by rewrite run_append, H.
    - intros pre post w1 Hp Hw1 Hlt. apply app_eq_inv in Hp as [(l & -> & ->)|(l & -> & ->)].
      + rewrite run_append in H. rewrite Hw1 in H. cbn in H. apply run_later in H. lia.
      + rewrite run_append, H in Hw1. cbn in Hw1. apply Forall_app in Hf as [Hf _]. by eapply run_db. }
  destruct (wk_clients _ _ Hok _ _ Hn) as [Hc Hi].
  destruct c as [|q k a u|q k ctx id u|q k x|q k x s l lease]; [done|..]; cbn in Hc, Hg, Hi.
  - destruct Hc as (Hk & Ho & _ & Hu). destruct (authorised_before _ _ _ _ _ _ Hk Hg Ho). split; [done|lia].
  - destruct Hc as (Hk & _ & _ & (a & Ho & _) & Hu). destruct (authorised_before _ _ _ _ _ _ Hk Hg Ho). split; [done|lia].
  - destruct Hc as [Hk Hc]. by eapply connection_before.
  - destruct Hc as (Hk & Hc & _ & _ & Hl). split; [by eapply connection_before|].
    assert (now w' ≤ horizon lease) as Hh by (destruct lease; cbn in *; lia).
    destruct l as [k'|]; [|lia]. destruct Hl as (Hk' & (a' & Ho' & _) & Hl).
    destruct (authorised_before _ _ _ _ _ _ Hk' Hg Ho'). split; [done|lia].
Qed.

(** C40. At any time at most 256 requests hold a permit, at most 64 of them for one grant
    however its id is written, and the free permits are exactly the others: no handler ends
    without giving its permit back. *)
Theorem capacity_respected actions d0 w : run actions (initial d0) = Some w →
  len (holders (clients w)) ≤ 256 ∧ global (capacity w) = 256 - len (holders (clients w)) ∧
  ∀ grant, len (List.filter (λ g, bool_decide (g = to_ascii_lowercase grant)) (holders (clients w))) ≤ 64.
Proof.
  intros H. pose proof (wk_capacity _ _ (proxy_reachable_ok _ _ _ H)) as Hc. pose proof (cap_global _ _ Hc).
  pose proof (cap_positive _ _ Hc). split_and!; [lia|done|]. intros grant. rewrite <- (cap_used _ _ Hc). apply (cap_bound _ _ Hc).
Qed.
End safety.

(** ** Examples *)

Module Samples.
#[export] Instance sample_libs : GrantLibs := {
  find_one := @List.find; find_all := @List.filter; parse_object_id := Some; token_digest s := s }.
#[export] Instance sample_libs_ok : GrantLibsOk sample_libs.
Proof.
  split; cbn [find_one find_all sample_libs].
  - intros A f l x. apply find_bool.
  - intros A f l x H Hx. eapply find_none; [done|]. by apply list_elem_of_In.
  - intros A f l x. rewrite !list_elem_of_In. apply filter_In.
Qed.

(** Two machines of one workspace; a grant through the gateway and one through the second
    machine, both for the first. *)
Definition first_token : string := "0123456789abcdef0123456789abcdef".
Definition second_token : string := "fedcba9876543210fedcba9876543210".
Definition sample_peer (id token machine ip : string) : Peer :=
  mkPeer id token true (Some (ObjectId "ws")) (Some (ObjectId machine)) (Some (ObjectId "ws")) ("run-" +:+ id) "key" true ip.
Definition sample_db (enabled : bool) : Db :=
  mkDb [] [sample_peer "p1" first_token "m1" "100.64.0.1"; sample_peer "p2" second_token "m2" "100.64.0.2"]
    [mkMachine (Some (ObjectId "m1")) (Some (ObjectId "ws")) true; mkMachine (Some (ObjectId "m2")) (Some (ObjectId "ws")) true]
    [] [mkGrant "gate" "ws" enabled ["m1"] (Some "gateway") None false false;
        mkGrant "through" "ws" true ["m1"] (Some "machine") (Some (ObjectId "m2")) true false].
Definition sample_ip : IpAddr := V4 (ipv4_new 93 184 216 34).
Definition sample_private : IpAddr := V4 (ipv4_new 192 168 1 7).
Definition sample_request (grant : string) : Request := mkRequest grant "p1" first_token "example.com" 443.
Definition gateway_stream : list Action :=
  Arrive 1 (sample_request "gate") :: repeat (Query 1 true) 6 ++
  [Decide 1 "id-1"; Open 1 (λ _, Some [sample_ip]) (λ _, true)].
Definition peer_stream : list Action :=
  Arrive 2 (sample_request "through") :: repeat (Query 2 true) 6 ++
  [Decide 2 "id-2"; Serve 1 "id-2" "p2" second_token] ++ repeat (QueryServer 1 true) 7 ++
  [Verify 1; Report 1 sample_private; Upgrade 2].
Definition sample_actions : list Action := gateway_stream ++ peer_stream.
Definition sample_start : World := initial (sample_db true).
Definition sample_world : World := default sample_start (run sample_actions sample_start).
(** The grant is disabled while the first stream is not upgraded yet. *)
Definition sample_change : list Action := gateway_stream ++ [Change (sample_db false)].
Definition sample_middle : World := default sample_start (run sample_change sample_start).
Definition sample_rest : list Action := [Advance 10000; Upgrade 1; Advance 13001].
Definition sample_end : World := default sample_middle (run sample_rest sample_middle).
Definition sample_check : list Action := [Advance 1999; Recheck 1] ++ repeat (Query 1 true) 6 ++ [Renew 1].

Definition streams (c : option Client) : bool := match c with Some (Streaming _ _ _ _ _ _) => true | _ => false end.
Definition served (c : option Client) : bool :=
  match c with Some (Streaming _ _ (ToPeer _ _ _) _ _ _) => true | _ => false end.
Lemma served_some c : served c = true →
  ∃ q k b ip s started last lease, c = Some (Streaming q k (ToPeer b ip s) started last lease).
Proof. destruct c as [[| | | |q k [|b ip s] started last lease]|]; try done. by eauto 10. Qed.
Lemma streams_some c : streams c = true → ∃ q k x started last lease, c = Some (Streaming q k x started last lease).
Proof. destruct c as [[]|]; try done. by eauto 10. Qed.

Example sample_streams : served (clients sample_world !! 2%nat) = true.
Proof. by_vm. Qed.
Example sample_permits : holders (clients sample_world) = ["through"; "gate"].
Proof. by_vm. Qed.
(** The stream ends with its first check. *)
Example sample_revoked : ((λ w, clients w !! 1%nat) <$> run sample_check sample_end) = Some None.
Proof. by_vm. Qed.
(** A private address is refused for a grant without it. *)
Example sample_private_refused :
  (w ← run (take 8 gateway_stream ++ [Open 1 (λ _, Some [sample_private]) (λ _, true)]) sample_start; Some (global (capacity w))) = Some 256.
Proof. by_vm. Qed.

Lemma sample_streams_run : run sample_actions (initial (sample_db true)) = Some sample_world.
Proof. apply some_default. by_vm. Qed.
Lemma sample_change_run : run sample_change (initial (sample_db true)) = Some sample_middle.
Proof. apply some_default. by_vm. Qed.
Lemma sample_rest_run : run sample_rest sample_middle = Some sample_end.
Proof. apply some_default. by_vm. Qed.

Lemma stream_authorised_witness : ∃ q k b ip s started last lease a,
  clients sample_world !! 2%nat = Some (Streaming q k (ToPeer b ip s) started last lease) ∧
  granted (db_of k) (r_grant q) (r_peer q) (r_token q) a ∧
  answered_by sample_actions (sample_db true) (now sample_world) k ∧ target_peer a = Some b.
Proof.
  destruct (served_some _ sample_streams) as (q & k & b & ip & s & started & last & lease & E).
  destruct (stream_authorised _ _ _ _ _ _ _ _ _ _ sample_streams_run E) as (a & Ha & Hk & Hb & _).
  exists q, k, b, ip, s, started, last, lease, a. split_and!; done.
Defined.
(** The stream outlives the 23 seconds, because it was upgraded 10 seconds after the change. *)
Lemma revoked_stream_ends_witness : ∃ q k c started lease,
  clients sample_end !! 1%nat = Some (Streaming q k c started None lease) ∧
  now sample_end = now sample_middle + 23001 ∧
  read_before (now sample_middle) 5 k ∧ now sample_end ≤ started + 19000.
Proof.
  assert (streams (clients sample_end !! 1%nat) = true) as H by by_vm.
  apply streams_some in H as (q & k & c & started & last & lease & E).
  assert (db sample_middle = sample_db false) as Hd by by_vm.
  assert (now sample_end = now sample_middle + 23001) as Ht by by_vm.
  assert (match clients sample_end !! 1%nat with Some (Streaming _ _ _ _ l _) => l | _ => None end = None) as Hl by by_vm.
  rewrite E in Hl. subst last. exists q, k, c, started, lease. split; [done|].
  enough (admitted_before (now sample_middle) k c ∧ now sample_end ≤ started + 19000) as [[? _] ?] by done.
  refine (revoked_stream_ends sample_change sample_rest (sample_db true) sample_middle sample_end "gate" 1
    (Streaming q k c started None lease) sample_change_run sample_rest_run _ _ E _).
  - rewrite Hd. intros g Hg [= Hid]. cbn [grants sample_db] in Hg. rewrite !elem_of_cons, elem_of_nil in Hg.
    destruct Hg as [->|[->|[]]]; done.
  - unfold sample_rest. rewrite !Forall_cons, Forall_nil. done.
  - assert (r_grant (request (default (Authorizing (sample_request "") (mkCheck 0 [])) (clients sample_end !! 1%nat))) = "gate") as H by by_vm.
    by rewrite E in H.
Defined.
Lemma capacity_respected_witness : len (holders (clients sample_world)) ≤ 256 ∧
  global (capacity sample_world) = 256 - len (holders (clients sample_world)).
Proof. destruct (capacity_respected _ _ _ sample_streams_run) as (H1 & H2 & _). by split. Defined.
End Samples.
